(* ===== verification/_CoqProject ===== *)
-Q . S2P
Prelude.v
Frame.v
RustStr.v
Libp2p.v
Protocol.v
Memory.v
State.v
Messaging.v
Rma.v
Addr.v
Invariant.v
DemoWorld.v
Safety.v
Progress.v
RmaSpec.v
Serialize.v
AddrSpec.v
Incoming.v
Sender.v
EventLoop.v
LoopSpec.v
RelayLookup.v
System.v
Wakeup.v
Mailbox.v
Delivery.v
Runs.v
Ledger.v
Node.v
Registry.v
Typing.v
Network.v
Reports.v
EndToEnd.v
Hazards.v
Config.v
Swarm.v
Lifecycle.v
Ops.v
RelayServer.v
Build.v
