(* ===== verification/Prelude.v ===== *)
(** * A verification library for the Mercury NA plugin over libp2p

    ** The program

    The repository is a network-abstraction (NA) plugin for Mercury, in Rust: a
    shared library of C callbacks (src/src/plugin.rs) over a libp2p swarm that
    runs on a tokio runtime (src/src/runtime.rs).  Two sides share state
    (src/src/state.rs).  The NA thread runs the callbacks: it looks up addresses,
    posts sends and receives, registers memory, puts, gets, polls and cancels.
    The async side runs an event loop, one writer task per peer, one handler per
    incoming stream and one small task per send that reports its result.  They
    meet in three places: the command channel (NA thread to event loop), the
    completion channel with an eventfd (async side to [na_libp2p_poll]), and two
    locked objects, the operation queues and the registry of memory handles.
    src/src/protocol.rs is the wire format.  src/relay-server/src/main.rs is a
    small relay for tests.

    ** The files

    - [Prelude]: bytes, machine integers, a state monad with panics and undefined
      behaviour as outcomes, lemmas on lists, the hint database [na_wf].  [Frame]:
      two judgements on that monad, "keeps this projection of the state" and
      "leads from here to there", with a tactic each.
      [RustStr]: the parts of Rust's string library the code uses.
    - [Libp2p]: what the plugin links against, as type classes of operations with
      classes of laws: peer ids and multiaddresses ([Libp2p]), Mercury's constants
      ([NaBindings]), the allocator and eventfd ([Os]); [Demo] implements all of
      them, so that the laws are consistent and witnesses evaluate.
      [Memory]: application memory, with accesses outside mapped memory undefined.
    - [Protocol]: protocol.rs; [write_message] over a stream that may break at any
      byte or flush, [read_message] over any bytes.
    - [State]: state.rs and the data types of runtime.rs; [World] is the state
      both sides share, with one heap per boxed type, so that a dangling pointer
      or a double free is an undefined outcome.
    - [Messaging], [Rma], [Addr]: the callbacks of plugin.rs with the handlers of
      runtime.rs they meet: operations, sends, receives, poll, cancel; memory
      handles, put, get; addresses.  A handler is one critical section, which the
      two mutexes of the code make it.
    - [Incoming], [Sender], [EventLoop]: [handle_incoming_stream]; [PeerSenderPool],
      [peer_writer_task] and [send_one_message]; the three arms of the event
      loop's [select!] and the completion tasks.
    - [Config], [Swarm], [Lifecycle]: protocol names and self addresses; the chain
      of builder calls that makes the swarm; initialize, the start-up phase of
      [spawn_swarm_task], finalize.  [Ops]: the exported table of lib.rs, slot by
      slot, and the callbacks that do nothing.  [RelayServer]: the relay, from its
      command line to its event loop.  [Build]: build.rs.
    - [Invariant], [Safety], [RmaSpec], [Progress]: the ownership invariant [wf]
      and that each callback and handler keeps it, with its effect.
    - [System]: every callback and async step as one transition system, with what
      is asked of a call ([sys_ok]).  [Node]: one node with its command channel,
      loop and completion tasks, and what is asked of a step ([node_ok]).  [Network]:
      several nodes with the writer tasks, streams, stream handlers and response
      pools between them.  [Ledger], [Registry], [Typing] follow operations,
      handles and machine widths through any run of a node.
    - [Wakeup], [Serialize], [AddrSpec], [LoopSpec], [RelayLookup], [Mailbox],
      [Delivery], [Runs], [Reports], [EndToEnd], [Hazards]: the theorems below.  [DemoWorld] is the concrete state
      of the witnesses.

    ** What the theorems show

    - Safety.  [System]: from a well-formed state no step that satisfies [sys_ok]
      panics or touches memory it should not, in any order of steps: pointers are
      live, buffers mapped, operations not reused or destroyed before their
      callback, addresses not freed while a receive refers to them.  One clause is
      not part of the NA interface: the buffer given for the text of an own address
      holds ten readable bytes or a NUL, since the code looks for a transport hint
      there without regard to the size ([AddrSpec.hint_read_past_buffer] is the
      fault without it).  [Node] and [Network] show the same when the commands,
      tasks, streams and messages are the ones the code made; they exclude one
      behaviour of the code itself, a get that is reported as failed after it was
      completed or cancelled and the application destroyed it
      ([Hazards.stale_get_task_faults] is the fault without it).  [Incoming]: the
      same for whatever bytes a peer sends; [Serialize]: for whatever bytes a
      deserializer is given.  [Ops]: each call goes to its own callback through
      the table.
    - Types.  [Typing]: every tag, size, offset, flag and identifier stays in its
      declared width, and what a node sends can be read back.
    - Conservation.  [Node]: the operations queued, in a command, awaited by a task
      or signalled are those posted, and draining a node signals every send and
      put once, and besides them exactly the gets whose request failed.  [Registry]: the registry is exactly the live local handles.
    - Messaging.  [Mailbox] is an abstract mailbox of posted receives and stashed
      messages.  [Delivery] shows that each step of the code is a step of it, and
      [Runs] that any interleaving of receives, arrivals and polls is a history
      of it: unexpected messages are first in, first out, the k-th receive getting
      the bytes, size, tag and source of the k-th message, expected ones match tag
      and peer, and each operation is signalled once.
    - Transport.  [Protocol]: what is written is read back, and a failed write
      leaves a prefix or the whole message.  [Sender]: the writer task delivers in
      order, exactly once unless a flush fails, with at most two sleeps.
      [LoopSpec]: commands reach the channel of their peer in order; a relay
      lookup is answered at most once, and by its deadline.  [RelayLookup]: seen
      from one lookup, the loop is a small automaton, whose answer decides what
      the callback returns.  [Network]: in any run in which every message handed
      to a channel is shorter than 4 GiB the streams carry the messages of their
      channels in order, at most three times each, and the handlers dispatch them
      in order and nothing else.  [Reports]: in such a run from a network that has
      sent nothing, every awaited result arrives, a reported success is on a
      stream, and as long as no flush fails what a sender is told is exactly what
      its peer dispatches.
    - End to end.  [EndToEnd] composes them, from the call of the application on:
      sends over one stream that holds arrive in order in the peer's mailbox, a put
      that fits lands in the registered buffer, a get that fits brings back exactly
      the remote bytes and completes once.
    - Progress.  [Progress]: exactly what a poll and a cancel do.  [Wakeup]: with the
      two actions of each completion and the actions of the code of poll
      interleaved, no wake-up is lost.
    - Addresses, configuration, lifecycle: round trips of the text and binary
      forms, the size protocol, hints; every outcome of initialize; a session
      ends with its descriptor closed; the swarm has the configured transports.
      [RelayServer]: options and address file, which the plugin can use.  [Build]:
      when the bindings are written, and how the include variable is split.
    - [Hazards], and a theorem each in [AddrSpec] and [EndToEnd]: behaviours of the
      code that its documentation does not intend.

    ** Bounds and fuel

    Integers are [Z] with the wrap-around of a cast written out ([wrap]); fields of
    a header are in range when read ([header_in_range]).  The stream loop has one
    round per byte of input plus one, and a message takes at least 51 bytes;
    [na_libp2p_poll] has one round per completion plus one, and its body adds none
    (in [Wakeup], where others add some, one more for each that may be added);
    UTF-8 scans have one round per byte.  That the fuel suffices is part of the
    theorems ([stream_never_faults], [poll_completes_operations]).  [Registry]
    speaks of runs of fewer than 2^64 steps, since identifiers wrap after that.

    ** What is not modelled

    The internals of libp2p, the tokio runtime, the clock, bindgen, pkg-config and
    cargo: their answers are inputs, and the calls made on them are recorded.  In
    [System] and [Node] a relay lookup returns with any answer of the loop, in one
    step; [RelayLookup] says which answer it is.  Overflow
    of a [u32] or [u64] counter wraps, as in the release build.  Log lines, the
    usage text of the relay server, the generated bindings, and the tests. *)
From Stdlib Require Import ZArith Lia.
From Stdlib Require Export Strings.Byte.
From stdpp Require Export base tactics numbers list gmap strings.

#[global] Open Scope Z_scope.

(** * Bytes and machine integers *)

#[global] Instance byte_eq_dec : EqDecision byte := Byte.byte_eq_dec.

Definition byte_to_Z (b : byte) : Z := Z.of_N (Byte.to_N b).

Definition byte_of_Z (z : Z) : byte :=
  match Byte.of_N (Z.to_N (z mod 256)) with Some b => b | None => x00 end.

(** [wrap w z]: the value of [z as u<w>]. *)
Definition wrap (w z : Z) : Z := z mod 2 ^ w.

Definition in_width (w z : Z) : Prop := 0 <= z < 2 ^ w.

(** Rust's [usize::saturating_sub]. *)
Definition saturating_sub (a b : Z) : Z := Z.max 0 (a - b).

(** [Vec::len] / slice length as a [usize]. *)
Definition len {A} (l : list A) : Z := Z.of_nat (length l).

(** [to_be_bytes] of an [n]-byte unsigned integer. *)
Fixpoint to_be_bytes (n : nat) (z : Z) : list byte :=
  match n with
  | O => []
  | S n' => byte_of_Z (Z.shiftr z (8 * Z.of_nat n')) :: to_be_bytes n' z
  end.

(** [from_be_bytes]. *)
Fixpoint from_be_bytes_acc (acc : Z) (l : list byte) : Z :=
  match l with
  | [] => acc
  | b :: l' => from_be_bytes_acc (acc * 256 + byte_to_Z b) l'
  end.
Definition from_be_bytes (l : list byte) : Z := from_be_bytes_acc 0 l.

(** * Outcomes: a call returns, panics, or has undefined behaviour *)

Inductive fault := Panic | UndefinedBehaviour.

Inductive outcome (St A : Type) :=
| Done (a : A) (s : St)
| Fault (f : fault).
Arguments Done {St A} a s.
Arguments Fault {St A} f.

(** Code that reads and updates a state [S]. *)
Definition M (St A : Type) : Type := St -> outcome St A.

#[global] Instance M_ret {St} : MRet (M St) := fun A a s => Done a s.
#[global] Instance M_bind {St} : MBind (M St) := fun A B f m s =>
  match m s with
  | Done a s' => f a s'
  | Fault e => Fault e
  end.

Definition gets {St A} (f : St -> A) : M St A := fun s => Done (f s) s.
Definition modify {St} (f : St -> St) : M St unit := fun s => Done tt (f s).
Definition fault_with {St A} (e : fault) : M St A := fun _ => Fault e.

(** [Option::unwrap] / [expect]: panics on [None]. *)
Definition unwrap {St A} (o : option A) : M St A :=
  match o with Some a => mret a | None => fault_with Panic end.

(** A raw access that is undefined behaviour when the pointer is not live. *)
Definition deref {St A} (o : option A) : M St A :=
  match o with Some a => mret a | None => fault_with UndefinedBehaviour end.

Definition when {St} (b : bool) (m : M St unit) : M St unit :=
  if b then m else mret tt.

(** [Iterator::position] with a predicate that reads the state. *)
Fixpoint positionM {St A} (f : A -> M St bool) (l : list A) : M St (option nat) :=
  match l with
  | [] => mret None
  | x :: l' =>
      b ← f x;
      if (b : bool) then mret (Some O)
      else r ← positionM f l'; mret (S <$> r)
  end.

(** [Iterator::position]. *)
Fixpoint position {A} (f : A -> bool) (l : list A) : option nat :=
  match l with
  | [] => None
  | x :: l' => if f x then Some O else S <$> position f l'
  end.

(** [VecDeque::remove]. *)
Fixpoint remove_at {A} (i : nat) (l : list A) : option (A * list A) :=
  match l, i with
  | [], _ => None
  | x :: l', O => Some (x, l')
  | x :: l', S i' =>
      match remove_at i' l' with
      | Some (y, r) => Some (y, x :: r)
      | None => None
      end
  end.

(** [VecDeque::remove] with the removed element ignored. *)
Definition remove_idx {A} (i : nat) (l : list A) : list A :=
  match remove_at i l with Some (_, r) => r | None => l end.

(** [&data[pos..pos + n]]: panics when the range is not inside the slice. *)
Definition slice {St} (pos n : Z) (data : list byte) : M St (list byte) :=
  if (0 <=? pos) && (0 <=? n) && (pos + n <=? len data)
  then mret (take (Z.to_nat n) (drop (Z.to_nat pos) data))
  else fault_with Panic.

(** * Tactics *)

(** What keeps the state well-formed; the components add their lemmas. *)
Create HintDb na_wf.
#[export] Hint Extern 2 (is_Some (Some _)) => eexists; reflexivity : na_wf.


Ltac unfold_M :=
  cbv [mret mbind M_ret M_bind gets modify fault_with unwrap deref when] in *; cbn beta iota in *.

Tactic Notation "step_M" := progress (unfold_M; simplify_eq/=).

(** Membership in concatenations of lists, by propositional reasoning. *)
Ltac elem_tauto :=
  rewrite ?elem_of_app, ?elem_of_cons, ?elem_of_nil in *; intuition (subst; eauto; congruence).

(** Running a bind whose first part is known to return. *)
Lemma bind_Done {St A B} (m : M St A) (f : A -> M St B) w a w' :
  m w = Done a w' -> (m ≫= f) w = f a w'.
Proof. intros H. unfold mbind, M_bind. by rewrite H. Qed.

Lemma bind_gets {St A B} (g : St -> A) (f : A -> M St B) w : (gets g ≫= f) w = f (g w) w.
Proof. done. Qed.

Lemma bind_modify {St B} (g : St -> St) (f : unit -> M St B) w : (modify g ≫= f) w = f tt (g w).
Proof. done. Qed.

Lemma bind_mret {St A B} (a : A) (f : A -> M St B) w : (mret a ≫= f) w = f a w.
Proof. done. Qed.

(** [mrun H]: the next call returns by lemma [H]; [mpure]: pure steps. *)
Tactic Notation "mrun" uconstr(H) := erewrite bind_Done by (eapply H; eauto).
Ltac mpure := repeat (progress (rewrite ?bind_gets, ?bind_modify, ?bind_mret; cbv beta match zeta)).

(** * Lemmas on bytes and integers *)

Lemma byte_to_Z_range b : 0 <= byte_to_Z b < 256.
Proof. unfold byte_to_Z. pose proof (Byte.to_N_bounded b). lia. Qed.

Lemma byte_of_to_Z b : byte_of_Z (byte_to_Z b) = b.
Proof.
  unfold byte_of_Z. rewrite Z.mod_small by apply byte_to_Z_range.
  unfold byte_to_Z. by rewrite N2Z.id, Byte.of_to_N.
Qed.

Lemma byte_to_of_Z z : byte_to_Z (byte_of_Z z) = z mod 256.
Proof.
  unfold byte_of_Z, byte_to_Z.
  pose proof (Z.mod_pos_bound z 256 ltac:(lia)) as Hb.
  destruct (Byte.of_N _) as [b|] eqn:E.
  - apply Byte.to_of_N in E. rewrite E, Z2N.id; lia.
  - apply Byte.of_N_None_iff in E. lia.
Qed.

Lemma len_nonneg {A} (l : list A) : 0 <= len l.
Proof. unfold len. lia. Qed.

Lemma len_nil {A} : len (@nil A) = 0.
Proof. done. Qed.

Lemma len_cons {A} (x : A) l : len (x :: l) = 1 + len l.
Proof. unfold len. simpl length. lia. Qed.

Lemma len_app {A} (l k : list A) : len (l ++ k) = len l + len k.
Proof. unfold len. rewrite length_app. lia. Qed.

Lemma Z_to_nat_len {A} (l : list A) : Z.to_nat (len l) = length l.
Proof. unfold len. lia. Qed.

Lemma length_to_be_bytes n z : length (to_be_bytes n z) = n.
Proof. induction n; simpl; auto. Qed.

Lemma len_to_be_bytes n z : len (to_be_bytes n z) = Z.of_nat n.
Proof. unfold len. by rewrite length_to_be_bytes. Qed.

Lemma from_be_bytes_acc_spec acc l :
  from_be_bytes_acc acc l = acc * 256 ^ len l + from_be_bytes_acc 0 l.
Proof.
  revert acc. induction l as [|b l IH]; intros acc; cbn [from_be_bytes_acc].
  - rewrite len_nil. lia.
  - rewrite (IH (acc * 256 + byte_to_Z b)), (IH (0 * 256 + byte_to_Z b)), len_cons.
    rewrite Z.pow_add_r by (pose proof (len_nonneg l); lia). lia.
Qed.

Lemma from_be_bytes_cons b l :
  from_be_bytes (b :: l) = byte_to_Z b * 256 ^ len l + from_be_bytes l.
Proof. unfold from_be_bytes. cbn [from_be_bytes_acc].
  rewrite (from_be_bytes_acc_spec (0 * 256 + byte_to_Z b)). lia.
Qed.

Lemma from_be_bytes_range l : 0 <= from_be_bytes l < 256 ^ len l.
Proof.
  induction l as [|b l IH].
  - unfold from_be_bytes, len. simpl. lia.
  - rewrite from_be_bytes_cons, len_cons.
    rewrite Z.pow_add_r by (pose proof (len_nonneg l); lia).
    pose proof (byte_to_Z_range b). nia.
Qed.

Lemma from_to_be_bytes_wrap n z :
  from_be_bytes (to_be_bytes n z) = wrap (8 * Z.of_nat n) z.
Proof.
  unfold wrap. induction n as [|n IH].
  - simpl. by rewrite Z.mod_1_r.
  - cbn [to_be_bytes]. rewrite from_be_bytes_cons, IH, len_to_be_bytes, byte_to_of_Z.
    rewrite Z.shiftr_div_pow2 by lia.
    replace (256 ^ Z.of_nat n) with (2 ^ (8 * Z.of_nat n))
      by (rewrite Z.pow_mul_r by lia; done).
    replace (8 * Z.of_nat (S n)) with (8 * Z.of_nat n + 8) by lia.
    rewrite Z.pow_add_r by lia. change (2 ^ 8) with 256.
    rewrite Z.rem_mul_r by lia. lia.
Qed.

Lemma from_to_be_bytes n z :
  in_width (8 * Z.of_nat n) z -> from_be_bytes (to_be_bytes n z) = z.
Proof. intros H. rewrite from_to_be_bytes_wrap. by apply Z.mod_small. Qed.

Lemma wrap_small w z : in_width w z -> wrap w z = z.
Proof. apply Z.mod_small. Qed.

Lemma wrap_add_l w a b : wrap w (wrap w a + b) = wrap w (a + b).
Proof. unfold wrap. by rewrite Zplus_mod_idemp_l. Qed.

Lemma wrap_in_width w z : 0 <= w -> in_width w (wrap w z).
Proof. intros. apply Z.mod_pos_bound. by apply Z.pow_pos_nonneg. Qed.

(** * Lemmas on searching a queue *)

(** The first element that satisfies [f], and the others in order. *)
Fixpoint take_first {A} (f : A -> bool) (l : list A) : option (A * list A) :=
  match l with
  | [] => None
  | x :: l' =>
      if f x then Some (x, l')
      else match take_first f l' with
           | Some (y, r) => Some (y, x :: r)
           | None => None
           end
  end.

Lemma position_remove_at {A} (f : A -> bool) l :
  match position f l with Some i => remove_at i l | None => None end = take_first f l.
Proof.
  induction l as [|x l IH]; simpl; [done|]. destruct (f x); [done|].
  rewrite <-IH. destruct (position f l); simpl; done.
Qed.

Lemma position_None {A} (f : A -> bool) l : position f l = None -> take_first f l = None.
Proof. intros H. by rewrite <-position_remove_at, H. Qed.

Lemma position_Some {A} (f : A -> bool) l i :
  position f l = Some i -> exists x r, remove_at i l = Some (x, r) /\ take_first f l = Some (x, r).
Proof.
  intros H. assert (Hr : exists x r, remove_at i l = Some (x, r)).
  { revert i H. induction l as [|x l IH]; intros i; simpl; [done|]. destruct (f x).
    - intros [= <-]. simpl. eauto.
    - destruct (position f l) as [j|]; simpl; [|done]. intros [= <-].
      destruct (IH j eq_refl) as (y & r & Hj). simpl. rewrite Hj. eauto. }
  destruct Hr as (x & r & Hr). exists x, r. split; [done|]. by rewrite <-position_remove_at, H.
Qed.

Lemma take_first_Some {A} (f : A -> bool) l x r :
  take_first f l = Some (x, r) <->
  exists l1 l2, l = l1 ++ x :: l2 /\ r = l1 ++ l2 /\ f x = true /\ Forall (fun y => f y = false) l1.
Proof.
  split.
  - revert r. induction l as [|y l IH]; intros r; simpl; [done|]. destruct (f y) eqn:E.
    + intros [= -> ->]. by exists [], r.
    + destruct (take_first f l) as [[z r']|]; [|done]. intros [= -> <-].
      destruct (IH r' eq_refl) as (l1 & l2 & -> & -> & Hx & Hl1).
      exists (y :: l1), l2. split_and!; try done. by constructor.
  - intros (l1 & l2 & -> & -> & Hx & Hl1). induction Hl1 as [|y l1 Hy _ IH]; simpl.
    + by rewrite Hx.
    + by rewrite Hy, IH.
Qed.

Lemma take_first_None {A} (f : A -> bool) l :
  take_first f l = None <-> forall x, x ∈ l -> f x = false.
Proof.
  induction l as [|y l IH]; simpl; [split; [set_solver|done]|].
  destruct (f y) eqn:E.
  - split; [done|]. intros H. specialize (H y ltac:(set_solver)). congruence.
  - destruct (take_first f l) as [[]|].
    + split; [done|]. intros H. destruct IH as [_ IH]. discriminate IH. intros x Hx. apply H. set_solver.
    + split; [|done]. intros _ x [->|Hx]%elem_of_cons; [done|]. by apply IH.
Qed.

Lemma take_first_perm {A} (f : A -> bool) l x r : take_first f l = Some (x, r) -> l ≡ₚ x :: r.
Proof. intros (l1 & l2 & -> & -> & _)%take_first_Some. by rewrite Permutation_middle. Qed.

Lemma take_first_match {A} (f : A -> bool) l x r : take_first f l = Some (x, r) -> f x = true.
Proof. by intros (l1 & l2 & _ & _ & H & _)%take_first_Some. Qed.

Lemma take_first_ext {A} (f g : A -> bool) l :
  (forall x, x ∈ l -> f x = g x) -> take_first f l = take_first g l.
Proof.
  induction l as [|y l IH]; simpl; intros H; [done|].
  rewrite H by set_solver. rewrite IH by set_solver. done.
Qed.

Lemma take_first_map {A B} (f : B -> bool) (g : A -> B) l :
  take_first f (map g l) =
  match take_first (fun x => f (g x)) l with Some (x, r) => Some (g x, map g r) | None => None end.
Proof.
  induction l as [|x l IH]; cbn; [done|]. destruct (f (g x)); [done|]. rewrite IH.
  by destruct (take_first _ l) as [[]|].
Qed.

Lemma remove_idx_position {A} (f : A -> bool) l i x r :
  position f l = Some i -> take_first f l = Some (x, r) -> remove_idx i l = r.
Proof.
  intros Hp Ht. destruct (position_Some _ _ _ Hp) as (y & r' & Hr & Ht').
  unfold remove_idx. rewrite Hr. congruence.
Qed.

(** A predicate that only reads the state searches like a pure one. *)
Lemma positionM_pure {St A} (f : A -> M St bool) (g : A -> bool) l w :
  (forall x, x ∈ l -> f x w = Done (g x) w) -> positionM f l w = Done (position g l) w.
Proof.
  induction l as [|x l IH]; intros H; simpl; [done|].
  unfold mbind, M_bind. rewrite H by set_solver. destruct (g x); [done|].
  rewrite IH by set_solver. done.
Qed.

Lemma slice_ok {St} pos n data (w : St) :
  0 <= pos -> 0 <= n -> pos + n <= len data ->
  slice pos n data w = Done (take (Z.to_nat n) (drop (Z.to_nat pos) data)) w.
Proof.
  intros. unfold slice.
  by rewrite !(proj2 (Z.leb_le _ _)) by lia.
Qed.
