(* ===== verification/Frame.v ===== *)
(** Frame reasoning: what a computation can have changed when it returns.  A
    computation respects a preorder on states when every state it returns in is
    related to the one it started from; the lemmas below follow the structure of
    the code, and the tactic [frame] applies them.  The second judgement, [yields],
    also speaks of the result: from a state with an invariant, a computation that
    returns does so in such a state and with a result of the given kind. *)
From Stdlib Require Import ZArith Lia.
From stdpp Require Import relations.
From S2P Require Import Prelude.

Create HintDb frame.

Definition respects {St A} (R : relation St) (m : M St A) : Prop :=
  forall s a s', m s = Done a s' -> R s s'.

(** A projection of the state that stays the same. *)
Definition kept {St B} (f : St -> B) : relation St := fun s s' => f s' = f s.

#[global] Instance kept_preorder {St B} (f : St -> B) : PreOrder (kept f).
Proof. split; [done|]. intros x y z. unfold kept. congruence. Qed.

(** What holds stays true. *)
Definition stable {St} (P : St -> Prop) : relation St := fun s s' => P s -> P s'.

#[global] Instance stable_preorder {St} (P : St -> Prop) : PreOrder (stable P).
Proof. split; [intros x Hx; exact Hx|]. intros x y z. unfold stable. auto. Qed.

Section Respects.
Context {St : Type} (R : relation St) {HR : PreOrder R}.

Lemma respects_ret {A} (a : A) : respects R (mret a).
Proof. intros s a' s' [= <- <-]. reflexivity. Qed.

Lemma respects_bind {A B} (m : M St A) (f : A -> M St B) :
  respects R m -> (forall a, respects R (f a)) -> respects R (m ≫= f).
Proof.
  intros Hm Hf s b s'. unfold mbind, M_bind. destruct (m s) as [a s1|] eqn:E; [|done].
  intros H. etransitivity; [by eapply Hm|by eapply Hf].
Qed.

Lemma respects_gets {A} (f : St -> A) : respects R (gets f).
Proof. intros s a s' [= <- <-]. reflexivity. Qed.

Lemma respects_modify f : (forall s, R s (f s)) -> respects R (modify f).
Proof. intros H s a s' [= <- <-]. done. Qed.

Lemma respects_fault {A} e : respects R (fault_with e : M St A).
Proof. by intros s a s'. Qed.

Lemma respects_deref {A} (o : option A) : respects R (deref o : M St A).
Proof. destruct o; [apply respects_ret|apply respects_fault]. Qed.

Lemma respects_unwrap {A} (o : option A) : respects R (unwrap o : M St A).
Proof. destruct o; [apply respects_ret|apply respects_fault]. Qed.

Lemma respects_when b m : respects R m -> respects R (when b m).
Proof. destruct b; [done|]. intros _. apply respects_ret. Qed.

Lemma respects_slice pos n data : respects R (slice pos n data).
Proof. unfold slice. case_match; [apply respects_ret|apply respects_fault]. Qed.

(** Code that reads the state it updates. *)
Lemma respects_fun {A} (g : St -> A) (f : St -> St) : (forall s, R s (f s)) -> respects R (fun s => Done (g s) (f s)).
Proof. intros H s a s' [= <- <-]. done. Qed.

Lemma respects_positionM {A} (f : A -> M St bool) l :
  (forall x, respects R (f x)) -> respects R (positionM f l).
Proof.
  intros Hf. induction l as [|x l IH]; cbn [positionM]; [apply respects_ret|].
  apply respects_bind; [done|]. intros []; [apply respects_ret|].
  apply respects_bind; [done|]. intros. apply respects_ret.
Qed.

End Respects.

(** One step of [frame]; an update is left to [done] and the [frame] hints. *)
Ltac frame_step :=
  lazymatch goal with
  | |- respects _ (mret _) => refine (respects_ret _ _)
  | |- respects _ (gets _) => refine (respects_gets _ _)
  | |- respects _ (fault_with _) => refine (respects_fault _ _)
  | |- respects _ (deref _) => refine (respects_deref _ _)
  | |- respects _ (unwrap _) => refine (respects_unwrap _ _)
  | |- respects _ (slice _ _ _) => refine (respects_slice _ _ _ _)
  | |- respects _ (when _ _) => refine (respects_when _ _ _ _)
  | |- respects _ (modify _) =>
      refine (respects_modify _ _ _); intros ?; first [done | solve [auto with frame]]
  | |- respects _ (fun s => Done (@?g s) (@?f s)) =>
      refine (respects_fun _ g f _); intros ?; first [done | solve [auto with frame]]
  | |- respects _ (fun _ => _) => progress cbv zeta
  | |- respects _ (positionM _ _) => refine (respects_positionM _ _ _ _); intros ?
  | |- respects _ (mbind _ _) => refine (respects_bind _ _ _ _ _); [|intros ?]
  | |- respects _ (match ?x with _ => _ end) => destruct x
  | |- respects _ (let _ := _ in _) => cbv zeta
  | |- _ => solve [auto with frame]
  end.
Ltac frame := autounfold with frame; repeat frame_step.

(** * Results *)

Create HintDb yields.

Definition yields {St A} (P : St -> Prop) (m : M St A) (Q : A -> Prop) : Prop :=
  forall s a s', P s -> m s = Done a s' -> P s' /\ Q a.

Section Yields.
Context {St : Type} (P : St -> Prop).

Lemma yields_ret {A} (a : A) (Q : A -> Prop) : Q a -> yields P (mret a) Q.
Proof. intros H s a' s' Hs [= <- <-]. done. Qed.

Lemma yields_bind {A B} (m : M St A) (f : A -> M St B) (Q : A -> Prop) (Q' : B -> Prop) :
  yields P m Q -> (forall a, Q a -> yields P (f a) Q') -> yields P (m ≫= f) Q'.
Proof.
  intros Hm Hf s b s' Hs. unfold mbind, M_bind. destruct (m s) as [a s1|] eqn:E; [|done].
  destruct (Hm s a s1 Hs E) as [H1 Ha]. by apply Hf.
Qed.

Lemma yields_gets {A} (f : St -> A) (Q : A -> Prop) : (forall s, P s -> Q (f s)) -> yields P (gets f) Q.
Proof. intros H s a s' Hs [= <- <-]. auto. Qed.

Lemma yields_modify f (Q : unit -> Prop) : (forall s, P s -> P (f s)) -> Q tt -> yields P (modify f) Q.
Proof. intros H HQ s [] s' Hs [= <-]. auto. Qed.

Lemma yields_fault {A} e (Q : A -> Prop) : yields P (fault_with e : M St A) Q.
Proof. by intros s a s'. Qed.

Lemma yields_deref {A} (o : option A) (Q : A -> Prop) : (forall a, o = Some a -> Q a) -> yields P (deref o : M St A) Q.
Proof. intros H. destruct o; [apply yields_ret; auto|apply yields_fault]. Qed.

Lemma yields_unwrap {A} (o : option A) (Q : A -> Prop) : (forall a, o = Some a -> Q a) -> yields P (unwrap o : M St A) Q.
Proof. intros H. destruct o; [apply yields_ret; auto|apply yields_fault]. Qed.

Lemma yields_when b m : yields P m (fun _ => True) -> yields P (when b m) (fun _ => True).
Proof. destruct b; [done|]. intros _. by apply yields_ret. Qed.

Lemma yields_mono {A} (m : M St A) (Q Q' : A -> Prop) : yields P m Q -> (forall a, Q a -> Q' a) -> yields P m Q'.
Proof. intros Hm HQ s a s' Hs H. destruct (Hm s a s' Hs H). auto. Qed.

Lemma yields_slice pos n data : yields P (slice pos n data) (fun b => length b = Z.to_nat n).
Proof.
  unfold slice. case_match eqn:E; [|apply yields_fault]. apply yields_ret. rewrite length_take, length_drop.
  rewrite !andb_true_iff in E. unfold len in E. lia.
Qed.

(** A search leaves the state alone, whatever it finds. *)
Lemma yields_stable {A} (m : M St A) : respects (stable P) m -> yields P m (fun _ => True).
Proof. intros H s a s' Hs Hrun. split; [by eapply H|done]. Qed.

End Yields.

(** One step of a derivation: the kind of result of a primitive is the one its
    lemma in the [yields] database gives, and otherwise unspecified. *)
Ltac yields_prim :=
  lazymatch goal with
  | |- yields _ (mret ?x) _ => refine (yields_ret _ x (fun a => a = x) eq_refl)
  | |- yields _ (deref ?o) _ => refine (yields_deref _ o (fun a => o = Some a) (fun _ H => H))
  | |- yields _ (unwrap ?o) _ => refine (yields_unwrap _ o (fun a => o = Some a) (fun _ H => H))
  | |- yields _ (slice _ _ _) _ => refine (yields_slice _ _ _ _)
  | |- yields _ (modify _) _ => refine (yields_modify _ _ (fun _ => True) _ I); intros
  | |- _ => solve [eauto 2 with yields nocore]
  end.
Ltac yields_step :=
  lazymatch goal with
  | |- yields _ (mret _) _ => refine (yields_ret _ _ _ _)
  | |- yields _ (fault_with _) _ => refine (yields_fault _ _ _)
  | |- yields _ (modify _) _ => refine (yields_modify _ _ _ _ _); [intros|]
  | |- yields _ (when _ _) _ => refine (yields_when _ _ _ _)
  | |- yields _ (mbind _ _) _ =>
      first [ refine (yields_bind _ _ _ _ _ _ _); [yields_prim|intros]
            | refine (yields_bind _ _ _ (fun _ => True) _ _ _); [|intros] ]
  | |- yields _ (match ?x with _ => _ end) _ => destruct x eqn:?
  | |- yields _ (let _ := _ in _) _ => cbv zeta
  | |- yields _ _ _ => solve [eauto 2 with yields nocore]
  end.
