(* ===== verification/RustStr.v ===== *)
(** Rust strings: a [str] is its sequence of UTF-8 bytes.  The standard-library
    operations the plugin applies to strings ([from_utf8], [to_string_lossy],
    [starts_with], [strip_prefix], [rfind], [split], [trim], integer parsing)
    with the lemmas the address and configuration parsers rely on. *)
From Stdlib Require Import ZArith Lia.
From S2P Require Import Prelude.

Abbreviation str := (list byte) (only parsing).

(** A string literal of the source. *)
Definition lit (s : string) : str := String.list_byte_of_string s.

(** * UTF-8 *)

Definition in_range (b : byte) (lo hi : Z) : bool :=
  (lo <=? byte_to_Z b) && (byte_to_Z b <=? hi).

(** Range the second byte of a multi-byte sequence must lie in, by first byte,
    with the number of further continuation bytes; [None]: not a lead byte. *)
Definition utf8_lead (b0 : byte) : option (Z * Z * nat) :=
  let z := byte_to_Z b0 in
  if (0xC2 <=? z) && (z <=? 0xDF) then Some (0x80, 0xBF, O)
  else if z =? 0xE0 then Some (0xA0, 0xBF, 1%nat)
  else if z =? 0xED then Some (0x80, 0x9F, 1%nat)
  else if (0xE1 <=? z) && (z <=? 0xEF) then Some (0x80, 0xBF, 1%nat)
  else if z =? 0xF0 then Some (0x90, 0xBF, 2%nat)
  else if (0xF1 <=? z) && (z <=? 0xF3) then Some (0x80, 0xBF, 2%nat)
  else if z =? 0xF4 then Some (0x80, 0x8F, 2%nat)
  else None.

(** [n] continuation bytes at the head of [l]: whether all are there, and how
    many bytes were accepted. *)
Fixpoint utf8_conts (n : nat) (l : list byte) : bool * nat :=
  match n with
  | O => (true, O)
  | S n' =>
      match l with
      | b :: l' =>
          if in_range b 0x80 0xBF
          then let '(ok, k) := utf8_conts n' l' in (ok, S k)
          else (false, O)
      | [] => (false, O)
      end
  end.

(** One scalar value at the head of [b0 :: l]: whether it is well formed, and
    how many bytes it (or its ill-formed maximal prefix) takes. *)
Definition utf8_char (b0 : byte) (l : list byte) : bool * nat :=
  if byte_to_Z b0 <? 0x80 then (true, 1%nat)
  else match utf8_lead b0 with
       | None => (false, 1%nat)
       | Some (lo, hi, n) =>
           match l with
           | b1 :: l' =>
               if in_range b1 lo hi
               then let '(ok, k) := utf8_conts n l' in (ok, S (S k))
               else (false, 1%nat)
           | [] => (false, 1%nat)
           end
       end.

Fixpoint utf8_valid_fuel (fuel : nat) (l : list byte) : bool :=
  match fuel, l with
  | _, [] => true
  | O, _ => false
  | S fuel', b :: l' =>
      let '(ok, k) := utf8_char b l' in
      ok && utf8_valid_fuel fuel' (drop k l)
  end.
(** [std::str::from_utf8(l).is_ok()]; a step consumes at least one byte, so
    [length l] steps are enough. *)
Definition utf8_valid (l : list byte) : bool := utf8_valid_fuel (length l) l.

(** U+FFFD in UTF-8. *)
Definition replacement_char : str := [xef; xbf; xbd].

Fixpoint lossy_fuel (fuel : nat) (l : list byte) : str :=
  match fuel, l with
  | _, [] => []
  | O, _ => []
  | S fuel', b :: l' =>
      let '(ok, k) := utf8_char b l' in
      (if (ok : bool) then take k l else replacement_char) ++ lossy_fuel fuel' (drop k l)
  end.
(** [CStr::to_string_lossy] / [String::from_utf8_lossy]. *)
Definition to_string_lossy (l : list byte) : str := lossy_fuel (length l) l.

(** * Searching *)

Fixpoint starts_with (p l : str) : bool :=
  match p, l with
  | [], _ => true
  | a :: p', b :: l' => bool_decide (a = b) && starts_with p' l'
  | _ :: _, [] => false
  end.

Definition strip_prefix (p l : str) : option str :=
  if starts_with p l then Some (drop (length p) l) else None.

(** [str::rfind]: start of the last occurrence. *)
Fixpoint rfind (p l : str) : option nat :=
  match (match l with [] => None | _ :: l' => rfind p l' end) with
  | Some i => Some (S i)
  | None => if starts_with p l then Some O else None
  end.

(** [str::split] on a one-byte character. *)
Fixpoint split_on (c : byte) (l : str) : list str :=
  match l with
  | [] => [[]]
  | b :: l' =>
      if bool_decide (b = c) then [] :: split_on c l'
      else match split_on c l' with
           | [] => [[b]]
           | w :: ws => (b :: w) :: ws
           end
  end.

(** UTF-8 encodings of the characters with the Unicode property White_Space. *)
Definition white_space : list str :=
  [ [x09]; [x0a]; [x0b]; [x0c]; [x0d]; [x20]; [xc2; x85]; [xc2; xa0];
    [xe1; x9a; x80];
    [xe2; x80; x80]; [xe2; x80; x81]; [xe2; x80; x82]; [xe2; x80; x83];
    [xe2; x80; x84]; [xe2; x80; x85]; [xe2; x80; x86]; [xe2; x80; x87];
    [xe2; x80; x88]; [xe2; x80; x89]; [xe2; x80; x8a]; [xe2; x80; xa8];
    [xe2; x80; xa9]; [xe2; x80; xaf]; [xe2; x81; x9f]; [xe3; x80; x80] ].

Fixpoint strip_first (ps : list str) (l : str) : option str :=
  match ps with
  | [] => None
  | p :: ps' => match strip_prefix p l with Some r => Some r | None => strip_first ps' l end
  end.

Fixpoint trim_start_fuel (fuel : nat) (ws : list str) (l : str) : str :=
  match fuel with
  | O => l
  | S fuel' =>
      match strip_first ws l with
      | Some r => trim_start_fuel fuel' ws r
      | None => l
      end
  end.

(** [str::trim]; trimming the end is trimming the start of the reversed bytes,
    a white-space encoding being reversed too.  Each round drops a byte, so
    [length l] rounds are enough. *)
Definition trim (l : str) : str :=
  let l1 := trim_start_fuel (length l) white_space l in
  rev (trim_start_fuel (length l1) (map (@rev byte) white_space) (rev l1)).

(** * Integer parsing: [str::parse::<u16>] and friends *)

Definition digit (b : byte) : option Z :=
  let z := byte_to_Z b in
  if (48 <=? z) && (z <=? 57) then Some (z - 48) else None.

Fixpoint parse_digits (max acc : Z) (l : str) : option Z :=
  match l with
  | [] => Some acc
  | b :: l' =>
      match digit b with
      | None => None
      | Some d =>
          let acc' := acc * 10 + d in
          if acc' <=? max then parse_digits max acc' l' else None
      end
  end.

(** [None] is any of the [ParseIntError]s. *)
Definition parse_uint (max : Z) (l : str) : option Z :=
  match l with
  | [] => None
  | b :: l' =>
      if bool_decide (b = x2b)
      then match l' with [] => None | _ => parse_digits max 0 l' end
      else parse_digits max 0 l
  end.

(** * Lemmas *)

Lemma utf8_char_pos b l ok k : utf8_char b l = (ok, k) -> (1 <= k)%nat.
Proof.
  unfold utf8_char. repeat case_match; intros; simplify_eq; lia.
Qed.

Lemma lossy_valid_fuel fuel l :
  utf8_valid_fuel fuel l = true -> (length l <= fuel)%nat -> lossy_fuel fuel l = l.
Proof.
  revert l. induction fuel as [|fuel IH]; intros [|b l]; simpl; try done; try lia.
  destruct (utf8_char b l) as [ok k] eqn:E. pose proof (utf8_char_pos _ _ _ _ E).
  intros [-> Hv]%andb_prop Hl. rewrite IH; [by rewrite take_drop| done |].
  rewrite length_drop. simpl. lia.
Qed.

Lemma to_string_lossy_valid l : utf8_valid l = true -> to_string_lossy l = l.
Proof. intros. by apply lossy_valid_fuel. Qed.

(** Validity of a concatenation. *)
Lemma utf8_conts_app n l k r :
  utf8_conts n l = (true, k) -> utf8_conts n (l ++ r) = (true, k) /\ (k <= length l)%nat.
Proof.
  revert l k. induction n as [|n IH]; intros l k; simpl.
  - intros [= <-]. split; [done|lia].
  - destruct l as [|b l]; [done|]. simpl. destruct (in_range b 0x80 0xBF); [|done].
    destruct (utf8_conts n l) as [ok k'] eqn:E. intros [= -> <-].
    destruct (IH l k' E) as [-> Hk]. split; [done|lia].
Qed.

Lemma utf8_char_app b l k r :
  utf8_char b l = (true, k) -> utf8_char b (l ++ r) = (true, k) /\ (k <= S (length l))%nat.
Proof.
  unfold utf8_char. destruct (byte_to_Z b <? 0x80); [intros [= <-]; split; [done|lia]|].
  destruct (utf8_lead b) as [[[lo hi] n]|]; [|done]. destruct l as [|b1 l]; [done|]. simpl.
  destruct (in_range b1 lo hi); [|done]. destruct (utf8_conts n l) as [ok k'] eqn:E. intros [= -> <-].
  destruct (utf8_conts_app n l k' r E) as [-> Hk]. split; [done|lia].
Qed.

Lemma utf8_valid_fuel_app f a g b n :
  utf8_valid_fuel f a = true -> utf8_valid_fuel g b = true -> (length a <= f)%nat -> (length b <= g)%nat ->
  (length a + g <= n)%nat -> utf8_valid_fuel n (a ++ b) = true.
Proof.
  intros Ha Hb. revert a n Ha. induction f as [|f IH]; intros [|x a] n Ha Hf Hg Hn; simpl in *; try lia.
  1, 2: clear - Hb Hg Hn; revert b n Hb Hg Hn; induction g as [|g IHg]; intros [|y b] [|n]; simpl; try done; try lia;
    destruct (utf8_char y b) as [ok k] eqn:E; intros [-> Hb]%andb_prop Hg Hn; simpl;
    pose proof (utf8_char_pos _ _ _ _ E); apply IHg; [done|rewrite length_drop; simpl; lia|lia].
  destruct (utf8_char x a) as [ok k] eqn:E. apply andb_prop in Ha as [-> Ha].
  destruct (utf8_char_app x a k b E) as [E' Hk]. pose proof (utf8_char_pos _ _ _ _ E).
  destruct n as [|n]; [lia|]. simpl. rewrite E'. simpl.
  change (x :: a ++ b) with ((x :: a) ++ b). rewrite drop_app_le by (simpl; lia).
  apply IH; [done|rewrite length_drop; simpl; lia|done|rewrite length_drop; simpl; lia].
Qed.

Lemma utf8_valid_app a b : utf8_valid a = true -> utf8_valid b = true -> utf8_valid (a ++ b) = true.
Proof. intros Ha Hb. eapply utf8_valid_fuel_app; eauto. rewrite length_app. lia. Qed.

Lemma starts_with_app p l : starts_with p (p ++ l) = true.
Proof. induction p; simpl; [done|]. by rewrite bool_decide_true, IHp. Qed.

Lemma starts_with_spec p l : starts_with p l = true <-> exists r, l = p ++ r.
Proof.
  split.
  - revert l. induction p as [|a p IH]; intros l; simpl; [eauto|].
    destruct l as [|b l]; [done|]. intros [->%bool_decide_eq_true (r & ->)%IH]%andb_prop.
    by exists r.
  - intros [r ->]. apply starts_with_app.
Qed.

(** The last occurrence, when nothing after its first byte matches again. *)
Lemma rfind_app p l r :
  starts_with p r = true ->
  (forall r', r' `suffix_of` r -> r' <> r -> starts_with p r' = false) ->
  rfind p (l ++ r) = Some (length l).
Proof.
  intros Hp Hn.
  assert (Htail : forall x r', r = x :: r' -> rfind p r' = None).
  { intros x r' ->. assert (Hs : forall q, q `suffix_of` r' -> starts_with p q = false).
    { intros q Hq. apply Hn; [by apply suffix_cons_r|].
      intros ->. apply suffix_length in Hq. simpl in Hq. lia. }
    clear -Hs. induction r' as [|y r' IH]; simpl; rewrite Hs by done; [done|].
    rewrite IH; [done|]. intros q Hq. apply Hs. by apply suffix_cons_r. }
  induction l as [|a l IH]; simpl.
  - destruct r as [|x r']; simpl in *; [by rewrite Hp|].
    rewrite (Htail x r') by done. by rewrite Hp.
  - by rewrite IH.
Qed.

