(* ===== verification/Libp2p.v ===== *)
(** What the plugin links against and does not implement: the libp2p types
    ([PeerId], [Multiaddr], [Protocol]), the constants bindgen generates from
    Mercury's headers, the heap allocator and the kernel's eventfd.  Each is a
    typeclass of operations with a separate class of the documented laws the
    code relies on; the module [Demo] instantiates all of them, so the laws are
    consistent and the witnesses evaluate. *)
From Stdlib Require Import ZArith Lia.
From S2P Require Import Prelude.
From S2P Require Import RustStr.

(** * Network addresses of the standard library *)

Inductive Ipv4Addr := Ipv4 (a b c d : byte).
Inductive Ipv6Addr := Ipv6 (bits : Z).
Inductive IpAddr := V4 (ip : Ipv4Addr) | V6 (ip : Ipv6Addr).

#[global] Instance Ipv4Addr_eq_dec : EqDecision Ipv4Addr.
Proof. solve_decision. Defined.
#[global] Instance Ipv6Addr_eq_dec : EqDecision Ipv6Addr.
Proof. solve_decision. Defined.

Definition Ipv4_UNSPECIFIED : Ipv4Addr := Ipv4 x00 x00 x00 x00.
Definition Ipv4_LOCALHOST : Ipv4Addr := Ipv4 x7f x00 x00 x01.
Definition is_unspecified (ip : Ipv4Addr) : bool := bool_decide (ip = Ipv4_UNSPECIFIED).
Definition is_loopback (ip : Ipv4Addr) : bool :=
  let 'Ipv4 a _ _ _ := ip in bool_decide (a = x7f).

(** * libp2p *)

(** The multiaddr components the plugin matches on; every other component is
    carried along as [Other]. *)
Inductive Protocol (PeerId Other : Type) :=
| Ip4 (ip : Ipv4Addr)
| Ip6 (ip : Ipv6Addr)
| Tcp (port : Z)
| QuicV1
| P2pCircuit
| P2p (peer_id : PeerId)
| OtherProtocol (o : Other).
Arguments Ip4 {_ _} ip.
Arguments Ip6 {_ _} ip.
Arguments Tcp {_ _} port.
Arguments QuicV1 {_ _}.
Arguments P2pCircuit {_ _}.
Arguments P2p {_ _} peer_id.
Arguments OtherProtocol {_ _} o.

Class Libp2p := {
  PeerId : Type;
  PeerId_eq_dec :: EqDecision PeerId;
  PeerId_countable :: Countable PeerId;
  (** [PeerId::to_bytes], [PeerId::from_bytes], [FromStr], [Display] *)
  PeerId_to_bytes : PeerId -> list byte;
  PeerId_from_bytes : list byte -> option PeerId;
  PeerId_from_str : str -> option PeerId;
  PeerId_to_string : PeerId -> str;
  Other : Type;
  Multiaddr : Type;
  (** [Multiaddr::iter], [FromIterator], [empty], [push], [FromStr], [Display] *)
  ma_iter : Multiaddr -> list (Protocol PeerId Other);
  ma_collect : list (Protocol PeerId Other) -> Multiaddr;
  ma_empty : Multiaddr;
  ma_push : Multiaddr -> Protocol PeerId Other -> Multiaddr;
  ma_from_str : str -> option Multiaddr;
  ma_to_string : Multiaddr -> str;
}.

Class Libp2pLaws `{!Libp2p} : Prop := {
  peer_bytes_roundtrip p : PeerId_from_bytes (PeerId_to_bytes p) = Some p;
  (** a peer id is a multihash of at most 64 digest bytes *)
  peer_bytes_short p : len (PeerId_to_bytes p) < 2 ^ 16;
  peer_str_roundtrip p : PeerId_from_str (PeerId_to_string p) = Some p;
  (** the display form is base58 *)
  peer_str_no_slash p : x2f ∉ PeerId_to_string p;
  peer_str_utf8 p : utf8_valid (PeerId_to_string p) = true;
  ma_iter_collect l : ma_iter (ma_collect l) = l;
  ma_iter_empty : ma_iter ma_empty = [];
  ma_iter_push m p : ma_iter (ma_push m p) = ma_iter m ++ [p];
  ma_str_roundtrip m : ma_from_str (ma_to_string m) = Some m;
  ma_str_utf8 m : utf8_valid (ma_to_string m) = true;
  (** the text of an address followed by that of a peer component *)
  ma_str_p2p m p : ma_from_str (ma_to_string m ++ lit "/p2p/" ++ PeerId_to_string p) = Some (ma_push m (P2p p));
  (** the listen addresses the plugin builds from string literals *)
  ma_listen_literals ip t :
    ip ∈ [lit "0.0.0.0"; lit "127.0.0.1"] -> t ∈ [lit "/tcp/0"; lit "/udp/0/quic-v1"] ->
    is_Some (ma_from_str (lit "/ip4/" ++ ip ++ t));
}.

(** * Constants of Mercury's headers (generated bindings) *)

Class NaBindings := {
  NA_SUCCESS : Z;
  NA_PROTOCOL_ERROR : Z;
  NA_TIMEOUT : Z;
  NA_NOMEM : Z;
  NA_CANCELED : Z;
  NA_OVERFLOW : Z;
  NA_INVALID_ARG : Z;
  NA_CB_SEND_UNEXPECTED : Z;
  NA_CB_RECV_UNEXPECTED : Z;
  NA_CB_SEND_EXPECTED : Z;
  NA_CB_RECV_EXPECTED : Z;
  NA_CB_PUT : Z;
  NA_CB_GET : Z;
}.

Class NaBindingsLaws `{!NaBindings} : Prop := {
  na_return_distinct :
    NoDup [NA_SUCCESS; NA_PROTOCOL_ERROR; NA_TIMEOUT; NA_NOMEM; NA_CANCELED;
           NA_OVERFLOW; NA_INVALID_ARG];
  na_cb_type_distinct :
    NoDup [NA_CB_SEND_UNEXPECTED; NA_CB_RECV_UNEXPECTED; NA_CB_SEND_EXPECTED;
           NA_CB_RECV_EXPECTED; NA_CB_PUT; NA_CB_GET];
}.

Lemma protocol_error_not_success `{NaBindingsLaws} : NA_PROTOCOL_ERROR <> NA_SUCCESS.
Proof.
  pose proof na_return_distinct as Hd. apply NoDup_cons in Hd as [Hd _]. intros Heq. apply Hd. rewrite <-Heq.
  by apply elem_of_cons; left.
Qed.

(** * Allocator and eventfd *)

Class Os := {
  (** address of a new allocation, given the live ones *)
  malloc : gset Z -> Z;
  efd : Type;
  efd_new : efd;
  efd_write1 : efd -> efd;
  efd_read : efd -> efd;
  efd_readable : efd -> bool;
}.

Class OsLaws `{!Os} : Prop := {
  malloc_fresh X : malloc X ∉ X;
  malloc_nonnull X : malloc X <> 0;
  efd_new_idle : efd_readable efd_new = false;
  efd_write_readable e : efd_readable (efd_write1 e) = true;
  efd_read_idle e : efd_readable (efd_read e) = false;
}.

(** * A concrete instance *)

Module Demo.

#[export] Instance byte_countable : Countable byte :=
  inj_countable' Byte.to_N (fun n => default x00 (Byte.of_N n))
    ltac:(intros x; simpl; by rewrite Byte.of_to_N).

(** A peer is named by one digest byte; its bytes are the identity multihash of
    that digest and its display form two letters. *)
Definition peer := byte.
Definition peer_to_bytes (p : peer) : list byte := [x00; x01; p].
Definition peer_from_bytes (l : list byte) : option peer :=
  match l with
  | [a; b; p] => if bool_decide (a = x00 /\ b = x01) then Some p else None
  | _ => None
  end.
Definition peer_to_string (p : peer) : str :=
  [byte_of_Z (97 + byte_to_Z p / 16); byte_of_Z (97 + byte_to_Z p mod 16)].
Definition peer_from_str (l : str) : option peer :=
  match l with
  | [a; b] => Some (byte_of_Z ((byte_to_Z a - 97) * 16 + (byte_to_Z b - 97)))
  | _ => None
  end.

Definition protocol := Protocol peer str.

Definition protocol_code (p : protocol) : list (list Z) :=
  match p with
  | Ip4 (Ipv4 a b c d) => [[0]; map byte_to_Z [a; b; c; d]]
  | Ip6 (Ipv6 z) => [[1]; [z]]
  | Tcp z => [[2]; [z]]
  | QuicV1 => [[3]]
  | P2pCircuit => [[4]]
  | P2p q => [[5]; [byte_to_Z q]]
  | OtherProtocol s => [[6]; map byte_to_Z s]
  end.

Definition protocol_decode (l : list (list Z)) : protocol :=
  match l with
  | [[0]; [a; b; c; d]] => Ip4 (Ipv4 (byte_of_Z a) (byte_of_Z b) (byte_of_Z c) (byte_of_Z d))
  | [[1]; [z]] => Ip6 (Ipv6 z)
  | [[2]; [z]] => Tcp z
  | [[3]] => QuicV1
  | [[4]] => P2pCircuit
  | [[5]; [q]] => P2p (byte_of_Z q)
  | [[6]; s] => OtherProtocol (map byte_of_Z s)
  | _ => QuicV1
  end.

Lemma map_byte_of_to_Z s : map byte_of_Z (map byte_to_Z s) = s.
Proof. induction s; simpl; [done|]. by rewrite byte_of_to_Z, IHs. Qed.

Lemma protocol_decode_code p : protocol_decode (protocol_code p) = p.
Proof.
  destruct p as [[a b c d]|[z]|z| | |q|s]; simpl; rewrite ?byte_of_to_Z, ?map_byte_of_to_Z; done.
Qed.

#[export] Instance protocol_eq_dec : EqDecision protocol.
Proof. unfold protocol, peer. solve_decision. Defined.
#[export] Instance protocol_countable : Countable protocol :=
  inj_countable' protocol_code protocol_decode protocol_decode_code.

Definition multiaddr := list protocol.

(** Display form: a slash and the bits of the address's code. *)
Fixpoint pos_to_bits (p : positive) : str :=
  match p with
  | xH => []
  | xO p' => x30 :: pos_to_bits p'
  | xI p' => x31 :: pos_to_bits p'
  end.
Fixpoint bits_to_pos (l : str) : option positive :=
  match l with
  | [] => Some xH
  | b :: l' =>
      p ← bits_to_pos l';
      if bool_decide (b = x30) then Some (xO p)
      else if bool_decide (b = x31) then Some (xI p) else None
  end.
Definition multiaddr_to_string (m : multiaddr) : str := x2f :: pos_to_bits (encode m).
Definition multiaddr_of_bits (l : str) : option multiaddr :=
  match l with
  | b :: l' =>
      if bool_decide (b = x2f) then p ← bits_to_pos l'; decode p else None
  | [] => None
  end.
(** A peer component may follow in the usual notation. *)
Definition multiaddr_with_peer (l : str) : option multiaddr :=
  i ← rfind (lit "/p2p/") l;
  m ← multiaddr_of_bits (take i l);
  p ← peer_from_str (drop (i + 5) l);
  Some (m ++ [P2p p]).
(** The usual notation is understood for the listen addresses. *)
Definition multiaddr_literals : list (str * multiaddr) :=
  [ (lit "/ip4/0.0.0.0/tcp/0", [Ip4 Ipv4_UNSPECIFIED; Tcp 0]);
    (lit "/ip4/127.0.0.1/tcp/0", [Ip4 Ipv4_LOCALHOST; Tcp 0]);
    (lit "/ip4/0.0.0.0/udp/0/quic-v1", [Ip4 Ipv4_UNSPECIFIED; OtherProtocol (lit "udp/0"); QuicV1]);
    (lit "/ip4/127.0.0.1/udp/0/quic-v1", [Ip4 Ipv4_LOCALHOST; OtherProtocol (lit "udp/0"); QuicV1]) ].
Definition multiaddr_from_str (l : str) : option multiaddr :=
  match multiaddr_of_bits l with
  | Some m => Some m
  | None =>
      match multiaddr_with_peer l with
      | Some m => Some m
      | None => snd <$> List.find (fun x => bool_decide (x.1 = l)) multiaddr_literals
      end
  end.

#[export] Instance libp2p : Libp2p := {|
  PeerId := peer;
  PeerId_to_bytes := peer_to_bytes;
  PeerId_from_bytes := peer_from_bytes;
  PeerId_from_str := peer_from_str;
  PeerId_to_string := peer_to_string;
  Other := str;
  Multiaddr := multiaddr;
  ma_iter := id;
  ma_collect := id;
  ma_empty := [];
  ma_push m p := m ++ [p];
  ma_from_str := multiaddr_from_str;
  ma_to_string := multiaddr_to_string;
|}.

#[export] Instance bindings : NaBindings := {|
  NA_SUCCESS := 0; NA_PROTOCOL_ERROR := 12; NA_TIMEOUT := 11; NA_NOMEM := 3;
  NA_CANCELED := 26; NA_OVERFLOW := 13; NA_INVALID_ARG := 5;
  NA_CB_SEND_UNEXPECTED := 0; NA_CB_RECV_UNEXPECTED := 1; NA_CB_SEND_EXPECTED := 3;
  NA_CB_RECV_EXPECTED := 4; NA_CB_PUT := 5; NA_CB_GET := 6;
|}.

#[export] Instance os : Os := {|
  malloc X := 1 + foldr Z.max 0 (elements X);
  efd := N;
  efd_new := 0%N;
  efd_write1 c := if (c <? 2 ^ 64 - 2)%N then (c + 1)%N else c;
  efd_read _ := 0%N;
  efd_readable c := (0 <? c)%N;
|}.

Lemma peer_str_roundtrip_demo p : peer_from_str (peer_to_string p) = Some p.
Proof. by destruct p. Qed.

Lemma bits_roundtrip p : bits_to_pos (pos_to_bits p) = Some p.
Proof. induction p; simpl; rewrite ?IHp; done. Qed.

Lemma multiaddr_roundtrip m : multiaddr_from_str (multiaddr_to_string m) = Some m.
Proof.
  assert (H : multiaddr_of_bits (multiaddr_to_string m) = Some m).
  { unfold multiaddr_of_bits, multiaddr_to_string. rewrite bool_decide_true, bits_roundtrip by done. cbn. apply decode_encode. }
  unfold multiaddr_from_str. by rewrite H.
Qed.

Lemma bits_no_slash l r : bits_to_pos (l ++ x2f :: r) = None.
Proof.
  induction l as [|b l IH]; [|by cbn; rewrite IH]. cbn. by destruct (bits_to_pos r).
Qed.

Lemma rfind_peer l p : rfind (lit "/p2p/") (l ++ lit "/p2p/" ++ peer_to_string p) = Some (length l).
Proof. induction l as [|b l IH]; [by destruct p|]. cbn [app rfind]. by rewrite IH. Qed.

Lemma multiaddr_p2p m p :
  multiaddr_from_str (multiaddr_to_string m ++ lit "/p2p/" ++ peer_to_string p) = Some (m ++ [P2p p]).
Proof.
  assert (H : multiaddr_of_bits (multiaddr_to_string m ++ lit "/p2p/" ++ peer_to_string p) = None).
  { unfold multiaddr_of_bits, multiaddr_to_string. cbn [app]. rewrite bool_decide_true by done.
    change (lit "/p2p/" ++ peer_to_string p) with (x2f :: (lit "p2p/" ++ peer_to_string p)). by rewrite bits_no_slash. }
  unfold multiaddr_from_str, multiaddr_with_peer. rewrite H, rfind_peer.
  change (Some ?x ≫= ?f) with (f x). cbn beta. rewrite take_app_length.
  replace (drop (length (multiaddr_to_string m) + 5) _) with (peer_to_string p)
    by (by rewrite <-drop_drop, drop_app_length).
  assert (Hm : multiaddr_of_bits (multiaddr_to_string m) = Some m).
  { unfold multiaddr_of_bits, multiaddr_to_string. rewrite bool_decide_true, bits_roundtrip by done. cbn. apply decode_encode. }
  rewrite Hm. cbn [mbind option_bind]. by rewrite peer_str_roundtrip_demo.
Qed.

Lemma ascii_utf8_fuel l n :
  Forall (fun b => byte_to_Z b < 128) l -> (length l <= n)%nat -> utf8_valid_fuel n l = true.
Proof.
  intros H. revert n. induction H as [|b l Hb H IH]; intros [|n] Hn; simpl in *; try done; try lia.
  unfold utf8_char. rewrite (proj2 (Z.ltb_lt _ _)) by lia. simpl. rewrite drop_0. apply IH. lia.
Qed.

Lemma pos_bits_ascii p : Forall (fun b => byte_to_Z b < 128) (pos_to_bits p).
Proof. induction p; simpl; constructor; done. Qed.

#[export] Instance libp2p_laws : Libp2pLaws.
Proof.
  split; simpl.
  - intros p. by destruct p.
  - intros p. done.
  - apply peer_str_roundtrip_demo.
  - intros p. apply (bool_decide_unpack _). by destruct p.
  - intros p. by destruct p.
  - done.
  - done.
  - done.
  - apply multiaddr_roundtrip.
  - intros m. unfold multiaddr_to_string. apply ascii_utf8_fuel; [|done].
    constructor; [done|]. apply pos_bits_ascii.
  - apply multiaddr_p2p.
  - intros ip t Hip Ht. rewrite !elem_of_cons, elem_of_nil in Hip, Ht.
    destruct Hip as [->|[->|[]]], Ht as [->|[->|[]]]; eexists; vm_compute; reflexivity.
Qed.

#[export] Instance bindings_laws : NaBindingsLaws.
Proof. split; apply (bool_decide_unpack _); vm_compute; done. Qed.

Lemma foldr_max_ge l x : x ∈ l -> x <= foldr Z.max 0 l.
Proof. induction l; simpl; [set_solver|]. intros [->|H]%elem_of_cons; [lia|]. specialize (IHl H). lia. Qed.

Lemma foldr_max_nonneg l : 0 <= foldr Z.max 0 l.
Proof. induction l; simpl; lia. Qed.

#[export] Instance os_laws : OsLaws.
Proof.
  split; simpl.
  - intros X H. apply elem_of_elements, foldr_max_ge in H. lia.
  - intros X. pose proof (foldr_max_nonneg (elements X)). lia.
  - done.
  - intros e. case_match eqn:E; apply N.ltb_lt; [lia|]. apply N.ltb_ge in E. lia.
  - done.
Qed.

End Demo.
