(* ===== verification/Protocol.v ===== *)
(** src/src/protocol.rs: the wire format.  [write_message] lays a header and a
    payload out in one buffer; [read_message] reads the fields back one
    [read_exact] at a time.  The relation [reads] says what a reader does on an
    encoding followed by anything and on every strict prefix of it; it composes
    along binds, so the round trip and the truncation theorem have one proof. *)
From Stdlib Require Import ZArith Lia.
From S2P Require Import Prelude.
From S2P Require Import RustStr.
From S2P Require Import Libp2p.

(** * Streams *)

Inductive ErrorKind := UnexpectedEof | InvalidData | OtherError (code : Z).

#[global] Instance ErrorKind_eq_dec : EqDecision ErrorKind.
Proof. solve_decision. Defined.

Inductive ioresult (A : Type) := IOk (a : A) | IErr (e : ErrorKind).
Arguments IOk {A} a.
Arguments IErr {A} e.

(** The readable side of a stream: the bytes still to come and the error that
    follows them ([UnexpectedEof] when the peer closed the stream). *)
Record rstream := mk_rstream { rs_bytes : list byte; rs_end : ErrorKind }.

Definition Rd (A : Type) : Type := rstream -> ioresult A * rstream.

#[global] Instance Rd_ret : MRet Rd := fun A a s => (IOk a, s).
#[global] Instance Rd_bind : MBind Rd := fun A B f m s =>
  match m s with
  | (IOk a, s') => f a s'
  | (IErr e, s') => (IErr e, s')
  end.
Definition rd_error {A} (e : ErrorKind) : Rd A := fun s => (IErr e, s).
Definition ok_or {A} (e : ErrorKind) (o : option A) : Rd A :=
  match o with Some a => mret a | None => rd_error e end.

(** [AsyncReadExt::read_exact] into a buffer of [n] bytes. *)
Definition read_exact (n : nat) : Rd (list byte) := fun s =>
  if (n <=? length (rs_bytes s))%nat
  then (IOk (take n (rs_bytes s)), mk_rstream (drop n (rs_bytes s)) (rs_end s))
  else (IErr (rs_end s), mk_rstream [] (rs_end s)).

(** The writable side: what reached the wire, how many more bytes are accepted
    before an error ([None]: no limit), and how many more flushes succeed. *)
Record wstream := mk_wstream {
  ws_sent : list byte;
  ws_room : option nat;
  ws_flushes : option nat;
}.

Definition write_all (buf : list byte) (s : wstream) : ioresult unit * wstream :=
  match ws_room s with
  | None => (IOk tt, mk_wstream (ws_sent s ++ buf) None (ws_flushes s))
  | Some n =>
      if (length buf <=? n)%nat
      then (IOk tt, mk_wstream (ws_sent s ++ buf) (Some (n - length buf)%nat) (ws_flushes s))
      else (IErr (OtherError 0), mk_wstream (ws_sent s ++ take n buf) (Some O) (ws_flushes s))
  end.

Definition flush (s : wstream) : ioresult unit * wstream :=
  match ws_flushes s with
  | None => (IOk tt, s)
  | Some O => (IErr (OtherError 1), s)
  | Some (S n) => (IOk tt, mk_wstream (ws_sent s) (ws_room s) (Some n))
  end.

(** * Messages *)

Inductive MessageType := Unexpected | Expected | RmaPut | RmaGetReq | RmaGetResp.

#[global] Instance MessageType_eq_dec : EqDecision MessageType.
Proof. solve_decision. Defined.

(** [header.msg_type as u8]: the enum's discriminants. *)
Definition MessageType_as_u8 (t : MessageType) : byte :=
  match t with
  | Unexpected => x01
  | Expected => x02
  | RmaPut => x03
  | RmaGetReq => x04
  | RmaGetResp => x05
  end.

Definition MessageType_from_u8 (v : byte) : option MessageType :=
  match v with
  | x01 => Some Unexpected
  | x02 => Some Expected
  | x03 => Some RmaPut
  | x04 => Some RmaGetReq
  | x05 => Some RmaGetResp
  | _ => None
  end.

Section Wire.
Context {LP : Libp2p}.

Record WireHeader := mkWireHeader {
  msg_type : MessageType;
  tag : Z;
  payload_size : Z;
  source_peer_id : PeerId;
  handle_id : Z;
  offset : Z;
  rma_length : Z;
  local_handle_id : Z;
  local_offset : Z;
}.

(** The buffer [write_message] builds. *)
Definition encode_message (h : WireHeader) (payload : list byte) : list byte :=
  let peer_bytes := PeerId_to_bytes (source_peer_id h) in
  [MessageType_as_u8 (msg_type h)]
  ++ to_be_bytes 4 (tag h)
  ++ to_be_bytes 4 (payload_size h)
  ++ to_be_bytes 2 (wrap 16 (len peer_bytes))
  ++ peer_bytes
  ++ to_be_bytes 8 (handle_id h)
  ++ to_be_bytes 8 (offset h)
  ++ to_be_bytes 8 (rma_length h)
  ++ to_be_bytes 8 (local_handle_id h)
  ++ to_be_bytes 8 (local_offset h)
  ++ payload.

Definition write_message (h : WireHeader) (payload : list byte) (s : wstream)
    : ioresult unit * wstream :=
  let buf := encode_message h payload in
  match write_all buf s with
  | (IErr e, s') => (IErr e, s')
  | (IOk _, s') => flush s'
  end.

Definition read_message : Rd (WireHeader * list byte) :=
  b1 ← read_exact 1;
  msg_type ← ok_or InvalidData (MessageType_from_u8 (default x00 (head b1)));
  b4 ← read_exact 4;
  let tag := from_be_bytes b4 in
  b4 ← read_exact 4;
  let payload_size := from_be_bytes b4 in
  b2 ← read_exact 2;
  let peer_id_len := from_be_bytes b2 in
  peer_id_buf ← read_exact (Z.to_nat peer_id_len);
  source_peer_id ← ok_or InvalidData (PeerId_from_bytes peer_id_buf);
  b8 ← read_exact 8;
  let handle_id := from_be_bytes b8 in
  b8 ← read_exact 8;
  let offset := from_be_bytes b8 in
  b8 ← read_exact 8;
  let rma_length := from_be_bytes b8 in
  b8 ← read_exact 8;
  let local_handle_id := from_be_bytes b8 in
  b8 ← read_exact 8;
  let local_offset := from_be_bytes b8 in
  payload ← (if payload_size >? 0 then read_exact (Z.to_nat payload_size) else mret []);
  mret (mkWireHeader msg_type tag payload_size source_peer_id handle_id offset rma_length
          local_handle_id local_offset, payload).

(** The fields fit the integer types of the struct. *)
Definition header_in_range (h : WireHeader) : Prop :=
  in_width 32 (tag h) /\ in_width 32 (payload_size h) /\ in_width 64 (handle_id h) /\
  in_width 64 (offset h) /\ in_width 64 (rma_length h) /\
  in_width 64 (local_handle_id h) /\ in_width 64 (local_offset h).

(** * The [reads] relation *)

Definition strict_prefix (p l : list byte) : Prop := exists x t, l = p ++ x :: t.

Definition reads {A} (m : Rd A) (bs : list byte) (a : A) : Prop :=
  (forall rest e, m (mk_rstream (bs ++ rest) e) = (IOk a, mk_rstream rest e)) /\
  (forall p e, strict_prefix p bs -> m (mk_rstream p e) = (IErr e, mk_rstream [] e)).

Lemma reads_ret {A} (a : A) : reads (mret a) [] a.
Proof. split; [done|]. intros p e (x & t & H). by destruct p. Qed.

Lemma reads_exact n bs : length bs = n -> reads (read_exact n) bs bs.
Proof.
  intros <-. split.
  - intros rest e. unfold read_exact. cbn.
    rewrite (proj2 (Nat.leb_le _ _)) by (rewrite length_app; lia).
    by rewrite take_app_length, drop_app_length.
  - intros p e (x & t & ->). unfold read_exact. cbn.
    rewrite (proj2 (Nat.leb_gt _ _)); [done|]. rewrite length_app. simpl. lia.
Qed.

Lemma strict_prefix_app p l k :
  strict_prefix p (l ++ k) ->
  strict_prefix p l \/ exists q, p = l ++ q /\ strict_prefix q k.
Proof.
  intros (x & t & H). revert p H. induction l as [|a l IH]; intros p H.
  - right. exists p. split; [done|]. by exists x, t.
  - destruct p as [|b p]; [left; by exists a, l|].
    simplify_eq/=. destruct (IH p) as [(y & s & ->)|(q & -> & Hq)]; [done| |].
    + left. by exists y, s.
    + right. by exists q.
Qed.

Lemma reads_bind {A B} (m : Rd A) (f : A -> Rd B) bs1 bs2 a b :
  reads m bs1 a -> reads (f a) bs2 b -> reads (m ≫= f) (bs1 ++ bs2) b.
Proof.
  intros [Hm1 Hm2] [Hf1 Hf2]. split.
  - intros rest e. unfold mbind, Rd_bind. by rewrite <-app_assoc, Hm1, Hf1.
  - intros p e [Hp|(q & -> & Hq)]%strict_prefix_app; unfold mbind, Rd_bind.
    + by rewrite Hm2.
    + by rewrite Hm1, Hf2.
Qed.

Lemma reads_bind_ret {A B} (m : Rd A) (f : A -> Rd B) bs2 a b :
  reads m [] a -> reads (f a) bs2 b -> reads (m ≫= f) bs2 b.
Proof. apply (reads_bind m f [] bs2). Qed.

Lemma MessageType_from_as_u8 t : MessageType_from_u8 (MessageType_as_u8 t) = Some t.
Proof. by destruct t. Qed.

Context {LPL : Libp2pLaws}.

(** One field: [n] big-endian bytes, then the rest of the message. *)
Lemma reads_field {B} n z (f : list byte -> Rd B) bs b :
  reads (f (to_be_bytes n z)) bs b -> reads (read_exact n ≫= f) (to_be_bytes n z ++ bs) b.
Proof. intros Hr. eapply reads_bind; [apply reads_exact, length_to_be_bytes | done]. Qed.

(** [read_message] on an encoding and on its strict prefixes. *)
Lemma read_message_reads h p :
  header_in_range h -> payload_size h = len p ->
  reads read_message (encode_message h p) (h, p).
Proof.
  intros (Ht & Hs & Hh & Ho & Hr & Hlh & Hlo) Hp. unfold read_message, encode_message.
  eapply reads_bind; [by apply reads_exact|]. cbn [from_option head id].
  rewrite MessageType_from_as_u8. eapply reads_bind_ret; [apply reads_ret|].
  apply reads_field, reads_field, reads_field.
  assert (Hw : in_width 16 (len (PeerId_to_bytes (source_peer_id h)))).
  { split; [apply len_nonneg | apply peer_bytes_short]. }
  rewrite (from_to_be_bytes 2), wrap_small, Z_to_nat_len by (rewrite ?wrap_small; done).
  eapply reads_bind; [by apply reads_exact|].
  rewrite peer_bytes_roundtrip. eapply reads_bind_ret; [apply reads_ret|].
  do 5 apply reads_field. rewrite !from_to_be_bytes by done.
  replace p with (p ++ []) at 1 by apply app_nil_r.
  eapply reads_bind; [|destruct h; apply reads_ret].
  rewrite Hp. destruct (Z.gtb_spec (len p) 0) as [Hl|Hl].
  - rewrite Z_to_nat_len. by apply reads_exact.
  - destruct p; [apply reads_ret|]. rewrite len_cons in Hl. pose proof (len_nonneg p). lia.
Qed.

Lemma encode_message_app h p q : encode_message h (p ++ q) = encode_message h p ++ q.
Proof. unfold encode_message. by rewrite <-!app_assoc. Qed.

(** * Inversion of a successful read *)

Lemma Rd_bind_inv {A B} (m : Rd A) (f : A -> Rd B) s b s' :
  (m ≫= f) s = (IOk b, s') -> exists a s1, m s = (IOk a, s1) /\ f a s1 = (IOk b, s').
Proof. unfold mbind, Rd_bind. destruct (m s) as [[a|e] s1] eqn:E; intros; [eauto|done]. Qed.

Lemma read_exact_inv n s l s' :
  read_exact n s = (IOk l, s') ->
  length l = n /\ rs_bytes s = l ++ rs_bytes s' /\ rs_end s' = rs_end s.
Proof.
  unfold read_exact. destruct (Nat.leb_spec n (length (rs_bytes s))); intros; simplify_eq/=.
  rewrite take_drop, length_take. split_and!; [lia|done|done].
Qed.

Lemma ok_or_inv {A} e (o : option A) s a s' :
  ok_or e o s = (IOk a, s') -> o = Some a /\ s' = s.
Proof. destruct o; intros Heq; inversion Heq; done. Qed.

Lemma from_be_bytes_in_width n l :
  length l = n -> in_width (8 * Z.of_nat n) (from_be_bytes l).
Proof.
  intros <-. unfold in_width. rewrite Z.pow_mul_r by lia. change (2 ^ 8) with 256.
  apply from_be_bytes_range.
Qed.

Ltac rd_inv H :=
  let a := fresh "a" in let s := fresh "s" in let H1 := fresh "Hr" in
  apply Rd_bind_inv in H as (a & s & H1 & H);
  first [ apply read_exact_inv in H1 as (? & ? & ?)
        | apply ok_or_inv in H1 as [? ->] | idtac ].

Lemma read_message_inv s h p s' :
  read_message s = (IOk (h, p), s') ->
  header_in_range h /\ payload_size h = len p /\ rs_end s' = rs_end s /\
  exists raw, PeerId_from_bytes raw = Some (source_peer_id h) /\
    len (rs_bytes s) = 51 + len raw + payload_size h + len (rs_bytes s').
Proof.
  unfold read_message. intros H. do 13 rd_inv H.
  assert (Hp : length a11 = Z.to_nat (from_be_bytes a2) /\
               rs_bytes s9 = a11 ++ rs_bytes s10 /\ rs_end s10 = rs_end s9).
  { destruct (Z.gtb_spec (from_be_bytes a2) 0) as [Hg|Hg]; [by apply read_exact_inv|].
    unfold mret, Rd_ret in Hr. simplify_eq. pose proof (from_be_bytes_range a2).
    replace (from_be_bytes a2) with 0 by lia. done. }
  destruct Hp as (Hl & ? & ?). unfold mret, Rd_ret in H. simplify_eq/=.
  pose proof (from_be_bytes_range a2). split_and!.
  - unfold header_in_range. cbn. split_and!; first [apply (from_be_bytes_in_width 4) | apply (from_be_bytes_in_width 8)]; done.
  - unfold len. lia.
  - congruence.
  - exists a4. split; [done|].
    repeat match goal with E : rs_bytes _ = _ |- _ => rewrite E; clear E end.
    rewrite !len_app. unfold len in *. lia.
Qed.

Lemma write_message_ok h p s s' :
  write_message h p s = (IOk tt, s') -> ws_sent s' = ws_sent s ++ encode_message h p.
Proof.
  unfold write_message, write_all, flush. repeat case_match; intros; by simplify_eq/=.
Qed.

Lemma write_message_err h p s k s' :
  write_message h p s = (IErr k, s') ->
  (exists bs, ws_sent s' = ws_sent s ++ bs /\ strict_prefix bs (encode_message h p)) \/
  (ws_sent s' = ws_sent s ++ encode_message h p /\ ws_flushes s = Some O).
Proof.
  unfold write_message, write_all, flush.
  destruct (ws_room s) as [n|]; [destruct (Nat.leb_spec (length (encode_message h p)) n) as [Hn|Hn]|];
    cbn; try (repeat case_match; intros; simplify_eq/=; by right).
  intros [= <- <-]. left. eexists. split; [done|].
  destruct (drop n (encode_message h p)) as [|x t] eqn:E.
  - apply (f_equal length) in E. rewrite length_drop in E. cbn [length] in E. lia.
  - exists x, t. by rewrite <-E, take_drop.
Qed.

(** * Properties *)

(** C11: a message that [write_message] reports as sent is read back by
    [read_message] exactly, header and payload, from the bytes it put on the
    stream, and the reader stops at the first byte of whatever follows. *)
Theorem write_read_roundtrip h p s s' rest e :
  header_in_range h -> payload_size h = len p ->
  write_message h p s = (IOk tt, s') ->
  exists bs, ws_sent s' = ws_sent s ++ bs /\
    read_message (mk_rstream (bs ++ rest) e) = (IOk (h, p), mk_rstream rest e).
Proof.
  intros Hh Hp Hw. exists (encode_message h p). split; [by apply write_message_ok|].
  by apply (read_message_reads h p Hh Hp).
Qed.

(** When [write_message] reports an error, either a strict prefix of the
    message reached the stream, and then a reader that meets the end of the
    stream reports that end and delivers nothing, or the whole message is on
    the wire (only the flush failed) and a reader does deliver it. *)
Theorem failed_write_is_prefix_or_whole h p s k s' e :
  header_in_range h -> payload_size h = len p ->
  write_message h p s = (IErr k, s') ->
  exists bs, ws_sent s' = ws_sent s ++ bs /\
    (read_message (mk_rstream bs e) = (IErr e, mk_rstream [] e) \/
     ws_flushes s = Some O /\
     read_message (mk_rstream bs e) = (IOk (h, p), mk_rstream [] e)).
Proof.
  intros Hh Hp [(bs & Hs & Hpre)|[Hs Hf]]%write_message_err; destruct (read_message_reads h p Hh Hp) as [Hok Herr].
  - exists bs. split; [done|]. left. by apply Herr.
  - exists (encode_message h p). split; [done|]. right. split; [done|].
    specialize (Hok [] e). by rewrite app_nil_r in Hok.
Qed.

(** Whatever bytes a peer sends, a message that [read_message] accepts has
    every header field within its integer type, a payload of exactly the
    announced size and a parseable source peer id, and took exactly its own
    51 + peer id + payload bytes from the stream. *)
Theorem read_message_well_formed s h p s' :
  read_message s = (IOk (h, p), s') ->
  header_in_range h /\ payload_size h = len p /\ rs_end s' = rs_end s /\
  exists raw, PeerId_from_bytes raw = Some (source_peer_id h) /\
    len (rs_bytes s) = 51 + len raw + payload_size h + len (rs_bytes s').
Proof. apply read_message_inv. Qed.

End Wire.

(** * Witnesses *)

Module ProtocolDemo.
Import Demo.

Definition header : WireHeader := mkWireHeader Expected 7 3 xab 0 0 0 0 0.
Definition body : list byte := [x01; x02; x03].
Definition out : wstream := mk_wstream [xff] None None.
Definition broken : wstream := mk_wstream [] (Some 10%nat) None.

Lemma header_ok : header_in_range header.
Proof. unfold header_in_range, in_width. cbn. lia. Qed.

Lemma write_read_roundtrip_witness :
  exists bs, ws_sent (write_message header body out).2 = [xff] ++ bs /\
    read_message (mk_rstream (bs ++ [x09]) UnexpectedEof)
    = (IOk (header, body), mk_rstream [x09] UnexpectedEof).
Proof.
  apply (write_read_roundtrip header body out _ [x09] UnexpectedEof header_ok); vm_compute; reflexivity.
Defined.

Lemma failed_write_is_prefix_or_whole_witness :
  exists bs, ws_sent (write_message header body broken).2 = [] ++ bs /\
    (read_message (mk_rstream bs UnexpectedEof) = (IErr UnexpectedEof, mk_rstream [] UnexpectedEof) \/
     ws_flushes broken = Some O /\
     read_message (mk_rstream bs UnexpectedEof) = (IOk (header, body), mk_rstream [] UnexpectedEof)).
Proof.
  apply (failed_write_is_prefix_or_whole header body broken (OtherError 0) _ UnexpectedEof header_ok);
    vm_compute; reflexivity.
Defined.

Lemma demo_read :
  read_message (mk_rstream (encode_message header body ++ []) UnexpectedEof) = (IOk (header, body), mk_rstream [] UnexpectedEof).
Proof. exact (proj1 (read_message_reads header body header_ok eq_refl) [] UnexpectedEof). Qed.

Lemma read_message_well_formed_witness :
  exists h p s', read_message (mk_rstream (encode_message header body ++ []) UnexpectedEof) = (IOk (h, p), s') /\
    payload_size h = len p.
Proof.
  exists header, body, (mk_rstream [] UnexpectedEof).
  split; [exact demo_read | exact (proj1 (proj2 (read_message_well_formed _ _ _ _ demo_read)))].
Defined.

End ProtocolDemo.
