(* ===== verification/Memory.v ===== *)
(** The application's byte memory as the plugin sees it through raw pointers.
    An address is mapped when the application has allocated it; a load or store
    that touches an unmapped address is undefined behaviour ([None]). *)
From Stdlib Require Import ZArith Lia.
From S2P Require Import Prelude.

Abbreviation memory := (gmap Z byte).

Definition null : Z := 0.

Fixpoint mem_load (m : memory) (p : Z) (n : nat) : option (list byte) :=
  match n with
  | O => Some []
  | S n' => b ← m !! p; bs ← mem_load m (p + 1) n'; Some (b :: bs)
  end.

Fixpoint mem_store (m : memory) (p : Z) (bs : list byte) : option memory :=
  match bs with
  | [] => Some m
  | b :: bs' =>
      match m !! p with
      | Some _ => mem_store (<[p := b]> m) (p + 1) bs'
      | None => None
      end
  end.

(** [CStr::from_ptr]: the bytes up to the first NUL. *)
Fixpoint cstr_fuel (fuel : nat) (m : memory) (p : Z) : option (list byte) :=
  match fuel with
  | O => None
  | S fuel' =>
      b ← m !! p;
      if bool_decide (b = x00) then Some []
      else bs ← cstr_fuel fuel' m (p + 1); Some (b :: bs)
  end.
(** Each step reads another mapped address, so [size m] steps are enough. *)
Definition mem_cstr (m : memory) (p : Z) : option (list byte) := cstr_fuel (S (size m)) m p.

Definition mapped (m : memory) (p n : Z) : Prop :=
  forall a, p <= a < p + n -> is_Some (m !! a).

(** [bs] laid out from [p] on. *)
Definition mem_of (p : Z) (bs : list byte) : memory :=
  list_to_map (zip (seqZ p (len bs)) bs).

Definition mapped_check (m : memory) (p n : Z) : bool :=
  forallb (fun a => bool_decide (is_Some (m !! a))) (seqZ p n).

(** * Lemmas *)

Lemma mapped_check_sound m p n : mapped_check m p n = true -> mapped m p n.
Proof.
  unfold mapped_check. rewrite forallb_forall. intros H a Ha.
  eapply bool_decide_eq_true_1, H. apply (proj1 (list_elem_of_In _ _)), elem_of_seqZ. lia.
Qed.

Lemma mapped_weaken m p n q k : mapped m p n -> p <= q -> q + k <= p + n -> mapped m q k.
Proof. intros H ?? a ?. apply H. lia. Qed.

Lemma mapped_dom m m' p n : dom m = dom m' -> mapped m p n -> mapped m' p n.
Proof. intros Hd H a Ha. apply elem_of_dom. rewrite <-Hd. apply elem_of_dom. by apply H. Qed.

Lemma mem_store_spec m p bs :
  mapped m p (len bs) ->
  exists m', mem_store m p bs = Some m' /\ dom m' = dom m /\
    (forall a, p <= a < p + len bs -> m' !! a = bs !! Z.to_nat (a - p)) /\
    (forall a, ~ (p <= a < p + len bs) -> m' !! a = m !! a).
Proof.
  revert m p. induction bs as [|b bs IH]; intros m p Hm; cbn [mem_store].
  { exists m. rewrite len_nil. split_and!; [done|done|lia|done]. }
  rewrite len_cons in *. pose proof (len_nonneg bs).
  destruct (Hm p ltac:(lia)) as [b0 Hb0]. rewrite Hb0.
  assert (Hd : dom (<[p:=b]> m) = dom m).
  { apply dom_insert_lookup_L. by eexists. }
  destruct (IH (<[p:=b]> m) (p + 1)) as (m' & -> & Hd' & Hin & Hout).
  { eapply mapped_dom; [symmetry; exact Hd|]. eapply mapped_weaken; [exact Hm|lia|lia]. }
  exists m'. split_and!; [done|congruence| |].
  - intros a Ha. destruct (decide (a = p)) as [->|Hne].
    + rewrite Hout by lia. rewrite lookup_insert_eq. by replace (p - p) with 0 by lia.
    + rewrite Hin by lia. replace (Z.to_nat (a - p)) with (S (Z.to_nat (a - (p + 1)))) by lia. done.
  - intros a Ha. rewrite Hout by lia. apply lookup_insert_ne. lia.
Qed.

Lemma mem_load_spec m p n :
  mapped m p (Z.of_nat n) ->
  exists bs, mem_load m p n = Some bs /\ length bs = n /\
    forall a, p <= a < p + Z.of_nat n -> m !! a = bs !! Z.to_nat (a - p).
Proof.
  revert p. induction n as [|n IH]; intros p Hm; cbn [mem_load].
  { exists []. split_and!; [done|done|lia]. }
  destruct (Hm p ltac:(lia)) as [b Hb]. rewrite Hb. cbn.
  destruct (IH (p + 1)) as (bs & -> & Hl & Hbs).
  { eapply mapped_weaken; [exact Hm|lia|lia]. }
  exists (b :: bs). cbn. split_and!; [done|lia|].
  intros a Ha. destruct (decide (a = p)) as [->|Hne].
  - by replace (p - p) with 0 by lia.
  - rewrite Hbs by lia. by replace (Z.to_nat (a - p)) with (S (Z.to_nat (a - (p + 1)))) by lia.
Qed.

(** A load is determined by the bytes at its addresses. *)
Lemma mem_load_eq m p bs :
  (forall a, p <= a < p + len bs -> m !! a = bs !! Z.to_nat (a - p)) ->
  mem_load m p (length bs) = Some bs.
Proof.
  revert p. induction bs as [|b bs IH]; intros p H; cbn [mem_load length]; [done|].
  rewrite len_cons in H. pose proof (len_nonneg bs).
  rewrite (H p) by lia. replace (p - p) with 0 by lia. cbn.
  rewrite (IH (p + 1)); [done|]. intros a Ha. rewrite H by lia.
  by replace (Z.to_nat (a - p)) with (S (Z.to_nat (a - (p + 1)))) by lia.
Qed.

(** Addresses [n] bytes from [p] hold the same bytes in both memories. *)
Lemma mem_load_ext m m' p n :
  (forall a, p <= a < p + Z.of_nat n -> m !! a = m' !! a) -> mem_load m p n = mem_load m' p n.
Proof.
  revert p. induction n as [|n IH]; intros p H; cbn [mem_load]; [done|].
  rewrite H by lia. destruct (m' !! p); cbn; [|done]. rewrite (IH (p + 1)); [done|].
  intros a ?. apply H. lia.
Qed.

Lemma mem_load_Some_mapped m p n bs : mem_load m p n = Some bs -> mapped m p (Z.of_nat n).
Proof.
  revert p bs. induction n as [|n IH]; intros p bs; cbn [mem_load]; [intros _ a ?; lia|].
  destruct (m !! p) eqn:E; cbn; [|done]. destruct (mem_load m (p + 1) n) eqn:E'; cbn; [|done].
  intros _ a Ha. destruct (decide (a = p)) as [->|]; [by eexists|]. eapply IH; [done|lia].
Qed.

(** The fuel of [mem_cstr] is enough: [n + 1] mapped addresses need [size m] to
    be larger than [n]. *)
Lemma mapped_size m p n : mapped m p (Z.of_nat n) -> (n <= size m)%nat.
Proof.
  intros H. rewrite <-size_dom.
  assert (Hsub : (list_to_set (seqZ p (Z.of_nat n)) : gset Z) ⊆ dom m).
  { intros a Ha. apply elem_of_list_to_set, elem_of_seqZ in Ha. apply elem_of_dom, H. lia. }
  apply subseteq_size in Hsub. rewrite size_list_to_set in Hsub by apply NoDup_seqZ.
  rewrite length_seqZ in Hsub. lia.
Qed.

Lemma mem_cstr_spec m p bs :
  x00 ∉ bs -> mem_load m p (length (bs ++ [x00])) = Some (bs ++ [x00]) -> mem_cstr m p = Some bs.
Proof.
  intros H0 Hl. unfold mem_cstr.
  pose proof (mapped_size _ _ _ (mem_load_Some_mapped _ _ _ _ Hl)) as Hs.
  rewrite length_app in Hs. cbn in Hs. assert (Hf : (length bs < S (size m))%nat) by lia.
  clear Hs. revert p H0 Hl Hf. generalize (S (size m)) as fuel.
  induction bs as [|b bs IH]; intros [|fuel] p H0 Hl Hf; cbn in *; try lia.
  - destruct (m !! p) eqn:E; cbn in *; [|done]. simplify_eq. by rewrite bool_decide_true.
  - destruct (m !! p) eqn:E; cbn in *; [|done].
    destruct (mem_load m (p + 1) _) eqn:E'; cbn in *; [|done]. simplify_eq.
    rewrite bool_decide_false by set_solver. rewrite IH; [done|set_solver|done|lia].
Qed.
