(* ===== verification/State.v ===== *)
(** src/src/state.rs and the data types of src/src/runtime.rs: the records the
    plugin keeps, and [World], the state the NA thread and the async tasks
    share.  The heap is one map per boxed type, so that a dangling or doubly
    freed [Box] pointer is visible as undefined behaviour; the [Arc<Mutex<_>>]
    objects are fields, each handler below running inside one critical section. *)
From Stdlib Require Import ZArith Lia.
From S2P Require Import Prelude.
From S2P Require Import Frame.
From S2P Require Import RustStr.
From S2P Require Import Libp2p.
From S2P Require Import Memory.
From S2P Require Import Protocol.

(** * Data of state.rs *)

Definition MAX_MSG_SIZE : Z := 64 * 1024.

Inductive TransportKind := KTcp | KQuic.

#[global] Instance TransportKind_eq_dec : EqDecision TransportKind.
Proof. solve_decision. Defined.

Record TransportConfig := mkTransportConfig {
  cfg_tcp : bool;
  cfg_quic : bool;
  cfg_relay : bool;
  cfg_priority : TransportKind;
}.

(** Queues of raw operation pointers and stashed messages. *)
Record StashedMessage := mkStashed {
  st_payload : list byte;
  st_source_addr : Z;
  st_tag : Z;
}.

Record OperationQueues := mkQueues {
  unexpected_recv_ops : list Z;
  expected_recv_ops : list Z;
  unexpected_msg_stash : list StashedMessage;
  expected_msg_stash : list StashedMessage;
  pending_rma_ops : list Z;
}.

Definition OperationQueues_new : OperationQueues := mkQueues [] [] [] [] [].

Record MemHandleEntry := mkEntry {
  me_buf : Z;
  me_buf_size : Z;
  me_flags : Z;
}.

(** The union inside Mercury's callback info, as the plugin fills it. *)
Inductive cb_info :=
| info_zeroed
| info_recv_unexpected (actual_buf_size source tag : Z)
| info_recv_expected (actual_buf_size : Z).

(** [completion_data], flattened: callback, callback_info.{arg, type_, ret, info}. *)
Record CompletionData := mkCompletionData {
  cd_callback : Z;
  cd_arg : Z;
  cd_type : Z;
  cd_ret : Z;
  cd_info : cb_info;
}.

(** [std::mem::zeroed()] with the plugin callback set; the release callback is
    a no-op and is the same for every operation. *)
Definition CompletionData_zeroed : CompletionData := mkCompletionData 0 0 0 0 info_zeroed.

Record NaLibp2pOpId := mkOp {
  op_completion : CompletionData;
  op_context : Z;
  op_addr : Z;
  op_tag : Z;
  op_buf : Z;
  op_buf_size : Z;
  op_local_handle_id : Z;
  op_local_offset : Z;
  op_rma_length : Z;
}.

Inductive RelayConnectResult := Direct | RelayOnly | Failed.

Section State.
Context {LP : Libp2p} {OS : Os}.

Record NaLibp2pAddr := mkAddr {
  addr_peer_id : PeerId;
  addr_multiaddr : option Multiaddr;
  addr_is_self : bool;
}.

Record NaLibp2pMemHandle := mkMemHandle {
  mh_buf : Z;
  mh_buf_size : Z;
  mh_handle_id : Z;
  mh_flags : Z;
  mh_owner_peer_id : option PeerId;
}.

(** Commands from the NA thread; [oneshot] names the result channel. *)
Inductive Command :=
| SendMessage (dest_peer_id : PeerId) (msg_type : MessageType) (tag : Z)
    (payload : list byte) (op_ptr : Z) (source : PeerId)
| CmdRmaPut (remote_peer_id : PeerId) (data : list byte)
    (remote_handle_id remote_offset op_ptr : Z) (source : PeerId)
| RmaGetRequest (remote_peer_id : PeerId)
    (remote_handle_id remote_offset length local_handle_id local_offset op_ptr : Z)
    (source : PeerId)
| AddKnownAddr (peer_id : PeerId) (multiaddr : Multiaddr)
| ConnectViaRelay (peer_id : PeerId) (relay_circuit_addr : Multiaddr) (oneshot : nat)
| Shutdown.

Record RecvInfo := mkRecvInfo {
  ri_actual_size : Z;
  ri_source_addr : Z;
  ri_tag : Z;
}.

Record CompletionItem := mkCompletion {
  ci_op_ptr : Z;
  ci_result : Z;
  ci_recv_info : option RecvInfo;
}.

(** The part of [NaLibp2pClass] that only the NA thread holds; the shared
    objects behind its [Arc]s and channels are fields of [World]. *)
Record NaLibp2pClass := mkClass {
  cls_self_addr : NaLibp2pAddr;
  cls_next_mem_handle_id : Z;
  cls_transport_config : TransportConfig;
  cls_listen_addrs : list Multiaddr;
  cls_relay_addr : option Multiaddr;
}.

Record World := mkWorld {
  w_mem : memory;                      (** application buffers *)
  w_addrs : gmap Z NaLibp2pAddr;       (** live [Box<NaLibp2pAddr>] *)
  w_ops : gmap Z NaLibp2pOpId;         (** live [Box<NaLibp2pOpId>] *)
  w_handles : gmap Z NaLibp2pMemHandle;(** live [Box<NaLibp2pMemHandle>] *)
  w_queues : OperationQueues;
  w_registry : gmap Z MemHandleEntry;  (** [mem_handles] *)
  w_cmds : list Command;               (** the command channel *)
  w_completions : list CompletionItem; (** the completion channel *)
  w_efd : efd;
  w_class : option NaLibp2pClass;      (** [na_class.plugin_class], [None] = null *)
  w_cbs : list (Z * Z);                (** calls of na_cb_completion_add: context, op *)
  w_loop_alive : bool;                 (** the command receiver still exists *)
  w_next_oneshot : nat;
}.

Definition upd_mem (f : memory -> memory) (w : World) : World :=
  mkWorld (f (w_mem w)) (w_addrs w) (w_ops w) (w_handles w) (w_queues w) (w_registry w) (w_cmds w)
    (w_completions w) (w_efd w) (w_class w) (w_cbs w) (w_loop_alive w) (w_next_oneshot w).
Definition upd_addrs (f : gmap Z NaLibp2pAddr -> gmap Z NaLibp2pAddr) (w : World) : World :=
  mkWorld (w_mem w) (f (w_addrs w)) (w_ops w) (w_handles w) (w_queues w) (w_registry w) (w_cmds w)
    (w_completions w) (w_efd w) (w_class w) (w_cbs w) (w_loop_alive w) (w_next_oneshot w).
Definition upd_ops (f : gmap Z NaLibp2pOpId -> gmap Z NaLibp2pOpId) (w : World) : World :=
  mkWorld (w_mem w) (w_addrs w) (f (w_ops w)) (w_handles w) (w_queues w) (w_registry w) (w_cmds w)
    (w_completions w) (w_efd w) (w_class w) (w_cbs w) (w_loop_alive w) (w_next_oneshot w).
Definition upd_handles (f : gmap Z NaLibp2pMemHandle -> gmap Z NaLibp2pMemHandle) (w : World) : World :=
  mkWorld (w_mem w) (w_addrs w) (w_ops w) (f (w_handles w)) (w_queues w) (w_registry w) (w_cmds w)
    (w_completions w) (w_efd w) (w_class w) (w_cbs w) (w_loop_alive w) (w_next_oneshot w).
Definition upd_queues (f : OperationQueues -> OperationQueues) (w : World) : World :=
  mkWorld (w_mem w) (w_addrs w) (w_ops w) (w_handles w) (f (w_queues w)) (w_registry w) (w_cmds w)
    (w_completions w) (w_efd w) (w_class w) (w_cbs w) (w_loop_alive w) (w_next_oneshot w).
Definition upd_registry (f : gmap Z MemHandleEntry -> gmap Z MemHandleEntry) (w : World) : World :=
  mkWorld (w_mem w) (w_addrs w) (w_ops w) (w_handles w) (w_queues w) (f (w_registry w)) (w_cmds w)
    (w_completions w) (w_efd w) (w_class w) (w_cbs w) (w_loop_alive w) (w_next_oneshot w).
Definition upd_cmds (f : list Command -> list Command) (w : World) : World :=
  mkWorld (w_mem w) (w_addrs w) (w_ops w) (w_handles w) (w_queues w) (w_registry w) (f (w_cmds w))
    (w_completions w) (w_efd w) (w_class w) (w_cbs w) (w_loop_alive w) (w_next_oneshot w).
Definition upd_completions (f : list CompletionItem -> list CompletionItem) (w : World) : World :=
  mkWorld (w_mem w) (w_addrs w) (w_ops w) (w_handles w) (w_queues w) (w_registry w) (w_cmds w)
    (f (w_completions w)) (w_efd w) (w_class w) (w_cbs w) (w_loop_alive w) (w_next_oneshot w).
Definition upd_efd (f : efd -> efd) (w : World) : World :=
  mkWorld (w_mem w) (w_addrs w) (w_ops w) (w_handles w) (w_queues w) (w_registry w) (w_cmds w)
    (w_completions w) (f (w_efd w)) (w_class w) (w_cbs w) (w_loop_alive w) (w_next_oneshot w).
Definition upd_class (f : option NaLibp2pClass -> option NaLibp2pClass) (w : World) : World :=
  mkWorld (w_mem w) (w_addrs w) (w_ops w) (w_handles w) (w_queues w) (w_registry w) (w_cmds w)
    (w_completions w) (w_efd w) (f (w_class w)) (w_cbs w) (w_loop_alive w) (w_next_oneshot w).
Definition upd_cbs (f : list (Z * Z) -> list (Z * Z)) (w : World) : World :=
  mkWorld (w_mem w) (w_addrs w) (w_ops w) (w_handles w) (w_queues w) (w_registry w) (w_cmds w)
    (w_completions w) (w_efd w) (w_class w) (f (w_cbs w)) (w_loop_alive w) (w_next_oneshot w).
Definition upd_next_oneshot (f : nat -> nat) (w : World) : World :=
  mkWorld (w_mem w) (w_addrs w) (w_ops w) (w_handles w) (w_queues w) (w_registry w) (w_cmds w)
    (w_completions w) (w_efd w) (w_class w) (w_cbs w) (w_loop_alive w) (f (w_next_oneshot w)).

Abbreviation MW := (M World).

(** * Primitive operations *)

(** [plugin.rs: get_class]. *)
Definition get_class : MW NaLibp2pClass := c ← gets w_class; deref c.

(** [NaLibp2pAddr::alloc_boxed]. *)
Definition alloc_boxed (peer : PeerId) (ma : option Multiaddr) (is_self : bool) : MW Z :=
  fun w =>
    let p := malloc (dom (w_addrs w)) in
    Done p (upd_addrs <[p := mkAddr peer ma is_self]> w).

(** [NaLibp2pAddr::dup]. *)
Definition addr_dup (src : NaLibp2pAddr) : MW Z :=
  alloc_boxed (addr_peer_id src) (addr_multiaddr src) (addr_is_self src).

(** [&*(addr as *const NaLibp2pAddr)]. *)
Definition read_addr (p : Z) : MW NaLibp2pAddr := m ← gets w_addrs; deref (m !! p).

(** [Box::from_raw(addr)] dropped at once. *)
Definition free_addr (p : Z) : MW unit :=
  _ ← read_addr p; modify (upd_addrs (delete p)).

Definition read_op (p : Z) : MW NaLibp2pOpId := m ← gets w_ops; deref (m !! p).

(** Writes through [&mut *op_id]. *)
Definition update_op (p : Z) (f : NaLibp2pOpId -> NaLibp2pOpId) : MW unit :=
  op ← read_op p; modify (upd_ops <[p := f op]>).

Definition read_handle (p : Z) : MW NaLibp2pMemHandle := m ← gets w_handles; deref (m !! p).

(** [std::ptr::copy_nonoverlapping] into and [from_raw_parts] out of application memory. *)
Definition copy_to (p : Z) (bs : list byte) : MW unit :=
  m ← gets w_mem;
  m' ← deref (mem_store m p bs);
  modify (upd_mem (fun _ => m')).
Definition copy_from (p : Z) (n : Z) : MW (list byte) :=
  m ← gets w_mem; deref (mem_load m p (Z.to_nat n)).
Definition read_cstr (p : Z) : MW (list byte) :=
  m ← gets w_mem; deref (mem_cstr m p).

(** [let _ = cmd_tx.send(cmd)]: lost when the receiver is gone. *)
Definition send_command (c : Command) : MW unit :=
  alive ← gets w_loop_alive;
  when alive (modify (upd_cmds (fun l => l ++ [c]))).

(** [let _ = completion_tx.send(item)]: the receiver lives in the plugin class. *)
Definition send_completion (c : CompletionItem) : MW unit :=
  cls ← gets w_class;
  match cls with
  | Some _ => modify (upd_completions (fun l => l ++ [c]))
  | None => mret tt
  end.

Definition signal_eventfd : MW unit := modify (upd_efd efd_write1).
Definition drain_eventfd : MW unit := modify (upd_efd efd_read).

(** The async side completes an operation in two actions, between which the NA
    thread may run. *)
Definition complete_steps (c : CompletionItem) : list (MW unit) := [send_completion c; signal_eventfd].
Fixpoint run_steps (l : list (MW unit)) : MW unit :=
  match l with
  | [] => mret tt
  | [m] => m
  | m :: l' => _ ← m; run_steps l'
  end.
Definition complete (c : option CompletionItem) : MW unit :=
  match c with Some c => run_steps (complete_steps c) | None => mret tt end.

(** Mercury's [na_cb_completion_add(context, &mut op.completion_data)]. *)
Definition na_cb_completion_add (context op_ptr : Z) : MW unit :=
  modify (upd_cbs (fun l => l ++ [(context, op_ptr)])).

(** ** Field updates of an operation *)

Definition set_completion (f : CompletionData -> CompletionData) (op : NaLibp2pOpId) : NaLibp2pOpId :=
  mkOp (f (op_completion op)) (op_context op) (op_addr op) (op_tag op) (op_buf op) (op_buf_size op)
    (op_local_handle_id op) (op_local_offset op) (op_rma_length op).
Definition set_context (c : Z) (op : NaLibp2pOpId) : NaLibp2pOpId :=
  mkOp (op_completion op) c (op_addr op) (op_tag op) (op_buf op) (op_buf_size op)
    (op_local_handle_id op) (op_local_offset op) (op_rma_length op).
Definition set_addr (a : Z) (op : NaLibp2pOpId) : NaLibp2pOpId :=
  mkOp (op_completion op) (op_context op) a (op_tag op) (op_buf op) (op_buf_size op)
    (op_local_handle_id op) (op_local_offset op) (op_rma_length op).
Definition set_tag (t : Z) (op : NaLibp2pOpId) : NaLibp2pOpId :=
  mkOp (op_completion op) (op_context op) (op_addr op) t (op_buf op) (op_buf_size op)
    (op_local_handle_id op) (op_local_offset op) (op_rma_length op).
Definition set_buf (b n : Z) (op : NaLibp2pOpId) : NaLibp2pOpId :=
  mkOp (op_completion op) (op_context op) (op_addr op) (op_tag op) b n
    (op_local_handle_id op) (op_local_offset op) (op_rma_length op).
Definition set_rma (h o n : Z) (op : NaLibp2pOpId) : NaLibp2pOpId :=
  mkOp (op_completion op) (op_context op) (op_addr op) (op_tag op) (op_buf op) (op_buf_size op) h o n.

Definition set_callback (cb arg ty : Z) (c : CompletionData) : CompletionData :=
  mkCompletionData cb arg ty (cd_ret c) (cd_info c).
Definition set_ret (r : Z) (c : CompletionData) : CompletionData :=
  mkCompletionData (cd_callback c) (cd_arg c) (cd_type c) r (cd_info c).
Definition set_info (i : cb_info) (c : CompletionData) : CompletionData :=
  mkCompletionData (cd_callback c) (cd_arg c) (cd_type c) (cd_ret c) i.

(** ** Queue updates *)

Definition set_unexpected_recv_ops (l : list Z) (q : OperationQueues) : OperationQueues :=
  mkQueues l (expected_recv_ops q) (unexpected_msg_stash q) (expected_msg_stash q) (pending_rma_ops q).
Definition set_expected_recv_ops (l : list Z) (q : OperationQueues) : OperationQueues :=
  mkQueues (unexpected_recv_ops q) l (unexpected_msg_stash q) (expected_msg_stash q) (pending_rma_ops q).
Definition set_unexpected_msg_stash (l : list StashedMessage) (q : OperationQueues) : OperationQueues :=
  mkQueues (unexpected_recv_ops q) (expected_recv_ops q) l (expected_msg_stash q) (pending_rma_ops q).
Definition set_expected_msg_stash (l : list StashedMessage) (q : OperationQueues) : OperationQueues :=
  mkQueues (unexpected_recv_ops q) (expected_recv_ops q) (unexpected_msg_stash q) l (pending_rma_ops q).
Definition set_pending_rma_ops (l : list Z) (q : OperationQueues) : OperationQueues :=
  mkQueues (unexpected_recv_ops q) (expected_recv_ops q) (unexpected_msg_stash q) (expected_msg_stash q) l.

End State.

#[export] Hint Unfold get_class alloc_boxed addr_dup read_addr free_addr read_op update_op read_handle copy_to
  copy_from read_cstr send_command send_completion signal_eventfd drain_eventfd na_cb_completion_add : frame.

(** The two actions of a completion. *)
Lemma respects_complete {LP : Libp2p} {OS : Os} R {HR : PreOrder R} (c : option CompletionItem) :
  (forall c, respects R (send_completion c)) -> respects R signal_eventfd -> respects R (complete c).
Proof. intros H1 H2. destruct c as [c|]; [|apply respects_ret, HR]. apply respects_bind; [apply HR|done|done]. Qed.
#[export] Hint Extern 1 (respects _ (complete _)) => apply respects_complete; [apply _|intros ?; frame|frame] : frame.
