(* ===== verification/Messaging.v ===== *)
(** Two-sided messaging: the send and receive callbacks of src/src/plugin.rs
    (NA thread) and [handle_incoming_msg] of src/src/runtime.rs (async task),
    with operation allocation, polling and cancellation. *)
From Stdlib Require Import ZArith Lia.
From S2P Require Import Prelude.
From S2P Require Import Frame.
From S2P Require Import RustStr.
From S2P Require Import Libp2p.
From S2P Require Import Memory.
From S2P Require Import Protocol.
From S2P Require Import State.

Section Messaging.
Context {LP : Libp2p} {OS : Os} {NB : NaBindings}.
Abbreviation MW := (M World).

(** * Operation ids *)

Definition op_new : NaLibp2pOpId :=
  mkOp CompletionData_zeroed null null 0 null 0 0 0 0.

Definition na_libp2p_op_create : MW Z := fun w =>
  let p := malloc (dom (w_ops w)) in
  Done p (upd_ops <[p := op_new]> w).

Definition na_libp2p_op_destroy (op_id : Z) : MW unit :=
  when (negb (op_id =? null))
    (_ ← read_op op_id; modify (upd_ops (delete op_id))).

(** * Sending *)

Definition na_libp2p_msg_send_unexpected
    (context callback arg buf buf_size dest_addr tag op_id : Z) : MW Z :=
  cls ← get_class;
  dest ← read_addr dest_addr;
  _ ← update_op op_id (fun op =>
        set_tag tag (set_context context
          (set_completion (set_callback callback arg NA_CB_SEND_UNEXPECTED) op)));
  payload ← (if (buf_size >? 0) && negb (buf =? null)
             then copy_from buf buf_size else mret []);
  _ ← send_command (SendMessage (addr_peer_id dest) Unexpected tag payload op_id
                      (addr_peer_id (cls_self_addr cls)));
  mret NA_SUCCESS.

Definition na_libp2p_msg_send_expected
    (context callback arg buf buf_size dest_addr tag op_id : Z) : MW Z :=
  cls ← get_class;
  dest ← read_addr dest_addr;
  _ ← update_op op_id (fun op =>
        set_tag tag (set_context context
          (set_completion (set_callback callback arg NA_CB_SEND_EXPECTED) op)));
  payload ← (if (buf_size >? 0) && negb (buf =? null)
             then copy_from buf buf_size else mret []);
  _ ← send_command (SendMessage (addr_peer_id dest) Expected tag payload op_id
                      (addr_peer_id (cls_self_addr cls)));
  mret NA_SUCCESS.

(** * Receiving *)

(** [copy_nonoverlapping(payload, buf, min(payload.len(), buf_size))] behind the
    size and null tests both sides make. *)
Definition copy_payload (payload : list byte) (buf buf_size : Z) : MW unit :=
  let copy_size := Z.min (len payload) buf_size in
  when ((copy_size >? 0) && negb (buf =? null))
    (copy_to buf (take (Z.to_nat copy_size) payload)).

Definition na_libp2p_msg_recv_unexpected
    (context callback arg buf buf_size op_id : Z) : MW Z :=
  _ ← get_class;
  _ ← update_op op_id (fun op =>
        set_addr null (set_buf buf buf_size (set_context context
          (set_completion (set_callback callback arg NA_CB_RECV_UNEXPECTED) op))));
  queues ← gets w_queues;
  match unexpected_msg_stash queues with
  | stashed :: rest =>
      _ ← modify (upd_queues (set_unexpected_msg_stash rest));
      _ ← copy_payload (st_payload stashed) buf buf_size;
      _ ← update_op op_id (set_completion (fun c => set_ret NA_SUCCESS
            (set_info (info_recv_unexpected (len (st_payload stashed))
                         (st_source_addr stashed) (st_tag stashed)) c)));
      _ ← na_cb_completion_add context op_id;
      mret NA_SUCCESS
  | [] =>
      _ ← modify (upd_queues (fun q => set_unexpected_recv_ops (unexpected_recv_ops q ++ [op_id]) q));
      mret NA_SUCCESS
  end.

(** The search of [msg_recv_expected] through the stash. *)
Definition find_stashed (tag : Z) (source_peer_id : option PeerId) (stash : list StashedMessage)
    : MW (option nat) :=
  positionM (fun msg =>
      let tag_match := st_tag msg =? tag in
      addr_match ← (match source_peer_id with
                    | Some pid =>
                        if st_source_addr msg =? null then mret true
                        else a ← read_addr (st_source_addr msg);
                             mret (bool_decide (addr_peer_id a = pid))
                    | None => mret true
                    end);
      mret (tag_match && addr_match)) stash.

Definition na_libp2p_msg_recv_expected
    (context callback arg buf buf_size source_addr tag op_id : Z) : MW Z :=
  _ ← get_class;
  _ ← update_op op_id (fun op =>
        set_addr source_addr (set_tag tag (set_buf buf buf_size (set_context context
          (set_completion (set_callback callback arg NA_CB_RECV_EXPECTED) op)))));
  queues ← gets w_queues;
  source_peer_id ← (if negb (source_addr =? null)
                    then a ← read_addr source_addr; mret (Some (addr_peer_id a))
                    else mret None);
  matched_idx ← find_stashed tag source_peer_id (expected_msg_stash queues);
  match matched_idx with
  | Some idx =>
      '(stashed, rest) ← unwrap (remove_at idx (expected_msg_stash queues));
      _ ← modify (upd_queues (set_expected_msg_stash rest));
      _ ← copy_payload (st_payload stashed) buf buf_size;
      _ ← when (negb (st_source_addr stashed =? null)) (free_addr (st_source_addr stashed));
      _ ← update_op op_id (set_completion (fun c => set_ret NA_SUCCESS
            (set_info (info_recv_expected (len (st_payload stashed))) c)));
      _ ← na_cb_completion_add context op_id;
      mret NA_SUCCESS
  | None =>
      _ ← modify (upd_queues (fun q => set_expected_recv_ops (expected_recv_ops q ++ [op_id]) q));
      mret NA_SUCCESS
  end.

(** The search of [handle_incoming_msg] through the pending receives. *)
Definition find_recv (h : WireHeader) (expected : bool) (ops_queue : list Z) : MW (option nat) :=
  if expected
  then positionM (fun op_ptr =>
         op ← read_op op_ptr;
         let tag_match := op_tag op =? tag h in
         addr_match ← (if op_addr op =? null then mret true
                       else a ← read_addr (op_addr op);
                            mret (bool_decide (addr_peer_id a = source_peer_id h)));
         mret (tag_match && addr_match)) ops_queue
  else mret (match ops_queue with [] => None | _ => Some O end).

(** [handle_incoming_msg] up to the completion it sends, if any. *)
Definition match_incoming (h : WireHeader) (payload : list byte) (expected : bool) : MW (option CompletionItem) :=
  source_addr ← alloc_boxed (source_peer_id h) None false;
  queues ← gets w_queues;
  let ops_queue := if expected then expected_recv_ops queues else unexpected_recv_ops queues in
  matched_idx ← find_recv h expected ops_queue;
  match matched_idx with
  | Some idx =>
      '(op_ptr, rest) ← unwrap (remove_at idx ops_queue);
      _ ← modify (upd_queues (if expected then set_expected_recv_ops rest
                              else set_unexpected_recv_ops rest));
      op ← read_op op_ptr;
      _ ← copy_payload payload (op_buf op) (op_buf_size op);
      mret (Some (mkCompletion op_ptr NA_SUCCESS (Some (mkRecvInfo (len payload) source_addr (tag h)))))
  | None =>
      let m := mkStashed payload source_addr (tag h) in
      _ ← modify (upd_queues (fun q =>
        if expected then set_expected_msg_stash (expected_msg_stash q ++ [m]) q
        else set_unexpected_msg_stash (unexpected_msg_stash q ++ [m]) q));
      mret None
  end.

(** runtime.rs: a message has arrived on a stream. *)
Definition handle_incoming_msg (h : WireHeader) (payload : list byte) (expected : bool) : MW unit :=
  c ← match_incoming h payload expected;
  complete c.

(** * Progress *)

(** One iteration of the drain loop of [na_libp2p_poll]. *)
Definition poll_one (completion : CompletionItem) : MW unit :=
  let op := ci_op_ptr completion in
  _ ← update_op op (set_completion (set_ret (ci_result completion)));
  _ ← (match ci_recv_info completion with
       | Some recv_info =>
           o ← read_op op;
           let cb_type := cd_type (op_completion o) in
           if cb_type =? NA_CB_RECV_UNEXPECTED then
             update_op op (set_completion (set_info
               (info_recv_unexpected (ri_actual_size recv_info) (ri_source_addr recv_info)
                  (ri_tag recv_info))))
           else if cb_type =? NA_CB_RECV_EXPECTED then
             _ ← update_op op (set_completion (set_info
                   (info_recv_expected (ri_actual_size recv_info))));
             when (negb (ri_source_addr recv_info =? null)) (free_addr (ri_source_addr recv_info))
           else
             when (negb (ri_source_addr recv_info =? null)) (free_addr (ri_source_addr recv_info))
       | None => mret tt
       end);
  o ← read_op op;
  na_cb_completion_add (op_context o) op.

(** [rx.try_recv()] *)
Definition try_recv : MW (option CompletionItem) :=
  items ← gets w_completions;
  match items with
  | [] => mret None
  | c :: rest => _ ← modify (upd_completions (fun _ => rest)); mret (Some c)
  end.

(** [na_libp2p_poll] as a sequence of actions on the shared state: [act] runs one,
    in a setting in which other threads may run before each of them. *)
Section PollCode.
Context {St : Type} (act : forall A, MW A -> M St A).

(** [while let Ok(completion) = rx.try_recv()], [fuel] rounds at most; [count] is
    a [u32], which wraps in the release build the project uses. *)
Fixpoint poll_drain_at (fuel : nat) (count : Z) : M St Z :=
  match fuel with
  | O => mret count
  | S fuel' =>
      item ← act _ try_recv;
      match item with
      | None => mret count
      | Some c =>
          _ ← act _ (poll_one c);
          poll_drain_at fuel' (wrap 32 (count + 1))
      end
  end.

(** Returns the code and the value stored through [count_p]. *)
Definition poll_at (fuel : nat) : M St (Z * Z) :=
  _ ← act _ get_class;
  _ ← act _ drain_eventfd;
  count ← poll_drain_at fuel 0;
  mret (NA_SUCCESS, count).

End PollCode.

Definition poll_drain : nat -> Z -> MW Z := poll_drain_at (fun _ m => m).

(** Undisturbed, as many rounds as there are items empty the channel, since the
    body of the loop adds nothing to it. *)
Definition na_libp2p_poll : MW (Z * Z) :=
  items ← gets w_completions;
  poll_at (fun _ m => m) (S (length items)).

Lemma poll_drain_S fuel count :
  poll_drain (S fuel) count =
  (item ← try_recv;
   match item with
   | None => mret count
   | Some c => _ ← poll_one c; poll_drain fuel (wrap 32 (count + 1))
   end).
Proof. reflexivity. Qed.

Lemma poll_drain_round fuel count w :
  poll_drain (S fuel) count w =
  match w_completions w with
  | [] => Done count w
  | c :: rest => (_ ← poll_one c; poll_drain fuel (wrap 32 (count + 1))) (upd_completions (fun _ => rest) w)
  end.
Proof. rewrite poll_drain_S. unfold try_recv, gets, modify, mbind, M_bind. by destruct (w_completions w). Qed.

Lemma na_libp2p_poll_eq :
  na_libp2p_poll =
  (items ← gets w_completions;
   _ ← get_class;
   _ ← drain_eventfd;
   count ← poll_drain (S (length items)) 0;
   mret (NA_SUCCESS, count)).
Proof. reflexivity. Qed.

Definition na_libp2p_poll_try_wait : MW bool :=
  _ ← get_class;
  items ← gets w_completions;
  mret (bool_decide (items = [])).

(** * Cancellation *)

(** The three searches of [na_libp2p_cancel]. *)
Definition complete_canceled (context op_ptr : Z) : MW unit :=
  _ ← update_op op_ptr (set_completion (set_ret NA_CANCELED));
  na_cb_completion_add context op_ptr.

Definition na_libp2p_cancel (context op_ptr : Z) : MW Z :=
  _ ← get_class;
  q ← gets w_queues;
  let is_op := fun p => p =? op_ptr in
  match position is_op (unexpected_recv_ops q) with
  | Some pos =>
      _ ← modify (upd_queues (set_unexpected_recv_ops
                    (remove_idx pos (unexpected_recv_ops q))));
      _ ← complete_canceled context op_ptr;
      mret NA_SUCCESS
  | None =>
  match position is_op (expected_recv_ops q) with
  | Some pos =>
      _ ← modify (upd_queues (set_expected_recv_ops
                    (remove_idx pos (expected_recv_ops q))));
      _ ← complete_canceled context op_ptr;
      mret NA_SUCCESS
  | None =>
  match position is_op (pending_rma_ops q) with
  | Some pos =>
      _ ← modify (upd_queues (set_pending_rma_ops
                    (remove_idx pos (pending_rma_ops q))));
      _ ← complete_canceled context op_ptr;
      mret NA_SUCCESS
  | None => mret NA_SUCCESS
  end end end.

End Messaging.

#[export] Hint Unfold na_libp2p_op_create na_libp2p_op_destroy na_libp2p_msg_send_unexpected
  na_libp2p_msg_send_expected copy_payload na_libp2p_msg_recv_unexpected find_stashed na_libp2p_msg_recv_expected
  find_recv match_incoming handle_incoming_msg poll_one try_recv na_libp2p_poll_try_wait complete_canceled na_libp2p_cancel :
  frame.

#[export] Hint Extern 1 (respects _ na_libp2p_poll) => rewrite na_libp2p_poll_eq; frame : frame.
