(* ===== verification/Rma.v ===== *)
(** Memory handles and one-sided transfers: the [mem_handle_*], [put] and [get]
    callbacks of src/src/plugin.rs and the [handle_rma_*] handlers of
    src/src/runtime.rs. *)
From Stdlib Require Import ZArith Lia.
From S2P Require Import Prelude.
From S2P Require Import Frame.
From S2P Require Import RustStr.
From S2P Require Import Libp2p.
From S2P Require Import Memory.
From S2P Require Import Protocol.
From S2P Require Import State.

Section Rma.
Context {LP : Libp2p} {OS : Os} {NB : NaBindings}.
Abbreviation MW := (M World).

(** * Serialization helper: the [write_bytes!] macro *)

(** Copies the chunks one after the other; [false] is the early return of
    [NA_OVERFLOW], after the chunks that did fit have been written. *)
Fixpoint write_chunks (out buf_size pos : Z) (chunks : list (list byte)) : MW bool :=
  match chunks with
  | [] => mret true
  | d :: rest =>
      if pos + len d >? buf_size then mret false
      else _ ← copy_to (out + pos) d;
           write_chunks out buf_size (pos + len d) rest
  end.

(** * Memory handles *)

(** [NaLibp2pClass::next_handle_id]: fetch_add on an [AtomicU64]. *)
Definition next_handle_id : MW Z :=
  cls ← get_class;
  let id := cls_next_mem_handle_id cls in
  _ ← modify (upd_class (fun _ => Some (mkClass (cls_self_addr cls) (wrap 64 (id + 1))
                                   (cls_transport_config cls) (cls_listen_addrs cls)
                                   (cls_relay_addr cls))));
  mret id.

Definition alloc_handle (h : NaLibp2pMemHandle) : MW Z := fun w =>
  let p := malloc (dom (w_handles w)) in
  Done p (upd_handles <[p := h]> w).

(** Returns the code and the handle stored through [mem_handle_p]. *)
Definition na_libp2p_mem_handle_create (buf buf_size flags : Z) : MW (Z * Z) :=
  handle_id ← next_handle_id;
  _ ← modify (upd_registry <[handle_id := mkEntry buf buf_size flags]>);
  p ← alloc_handle (mkMemHandle buf buf_size handle_id flags None);
  mret (NA_SUCCESS, p).

Definition na_libp2p_mem_handle_free (mem_handle : Z) : MW unit :=
  if mem_handle =? null then mret tt
  else
    handle ← read_handle mem_handle;
    _ ← modify (upd_handles (delete mem_handle));
    match mh_owner_peer_id handle with
    | None =>
        _ ← get_class;
        modify (upd_registry (delete (mh_handle_id handle)))
    | Some _ => mret tt
    end.

Definition na_libp2p_mem_handle_get_serialize_size (mem_handle : Z) : MW Z :=
  if mem_handle =? null then mret 0
  else
    handle ← read_handle mem_handle;
    cls ← get_class;
    let peer_id := default (addr_peer_id (cls_self_addr cls)) (mh_owner_peer_id handle) in
    mret (8 + 8 + 8 + 2 + len (PeerId_to_bytes peer_id)).

Definition mem_handle_chunks (cls : NaLibp2pClass) (handle : NaLibp2pMemHandle) : list (list byte) :=
  let peer_id := default (addr_peer_id (cls_self_addr cls)) (mh_owner_peer_id handle) in
  let peer_bytes := PeerId_to_bytes peer_id in
  [ to_be_bytes 8 (mh_handle_id handle);
    to_be_bytes 8 (mh_buf_size handle);
    to_be_bytes 8 (mh_flags handle);
    to_be_bytes 2 (wrap 16 (len peer_bytes));
    peer_bytes ].

Definition na_libp2p_mem_handle_serialize (buf buf_size mem_handle : Z) : MW Z :=
  if (buf =? null) || (mem_handle =? null) then mret NA_INVALID_ARG
  else
    handle ← read_handle mem_handle;
    cls ← get_class;
    ok ← write_chunks buf buf_size 0 (mem_handle_chunks cls handle);
    mret (if (ok : bool) then NA_SUCCESS else NA_OVERFLOW).

(** Returns the code and the new handle, if one was stored through
    [mem_handle_p]. *)
Definition na_libp2p_mem_handle_deserialize (mem_handle_p buf buf_size : Z) : MW (Z * option Z) :=
  if (buf =? null) || (mem_handle_p =? null) || (buf_size <? 26) then mret (NA_INVALID_ARG, None)
  else
    data ← copy_from buf buf_size;
    b ← slice 0 8 data;
    let handle_id := from_be_bytes b in
    b ← slice 8 8 data;
    let remote_buf_size := from_be_bytes b in
    b ← slice 16 8 data;
    let flags := from_be_bytes b in
    if 24 + 2 >? len data then mret (NA_PROTOCOL_ERROR, None)
    else
      b ← slice 24 2 data;
      let peer_id_len := from_be_bytes b in
      if 26 + peer_id_len >? len data then mret (NA_PROTOCOL_ERROR, None)
      else
        b ← slice 26 peer_id_len data;
        match PeerId_from_bytes b with
        | None => mret (NA_PROTOCOL_ERROR, None)
        | Some peer_id =>
            p ← alloc_handle (mkMemHandle null remote_buf_size handle_id flags (Some peer_id));
            mret (NA_SUCCESS, Some p)
        end.

(** * Put and get, requesting side *)

Definition na_libp2p_put (context callback arg local_mem_handle local_offset
    remote_mem_handle remote_offset length remote_addr op_id : Z) : MW Z :=
  cls ← get_class;
  _ ← read_op op_id;
  local_handle ← read_handle local_mem_handle;
  remote_handle ← read_handle remote_mem_handle;
  dest ← read_addr remote_addr;
  _ ← update_op op_id (fun op => set_context context
        (set_completion (set_callback callback arg NA_CB_PUT) op));
  data ← (if (length >? 0) && negb (mh_buf local_handle =? null)
          then copy_from (mh_buf local_handle + local_offset) length
          else mret []);
  let remote_peer_id := default (addr_peer_id dest) (mh_owner_peer_id remote_handle) in
  _ ← send_command (CmdRmaPut remote_peer_id data (mh_handle_id remote_handle) remote_offset
                      op_id (addr_peer_id (cls_self_addr cls)));
  mret NA_SUCCESS.

Definition na_libp2p_get (context callback arg local_mem_handle local_offset
    remote_mem_handle remote_offset length remote_addr op_id : Z) : MW Z :=
  cls ← get_class;
  _ ← read_op op_id;
  local_handle ← read_handle local_mem_handle;
  remote_handle ← read_handle remote_mem_handle;
  dest ← read_addr remote_addr;
  _ ← update_op op_id (fun op => set_rma (mh_handle_id local_handle) local_offset length
        (set_context context (set_completion (set_callback callback arg NA_CB_GET) op)));
  _ ← modify (upd_queues (fun q => set_pending_rma_ops (pending_rma_ops q ++ [op_id]) q));
  let remote_peer_id := default (addr_peer_id dest) (mh_owner_peer_id remote_handle) in
  _ ← send_command (RmaGetRequest remote_peer_id (mh_handle_id remote_handle) remote_offset length
                      (mh_handle_id local_handle) local_offset op_id
                      (addr_peer_id (cls_self_addr cls)));
  mret NA_SUCCESS.

(** * Serving side *)

(** The bounded copy both handlers make into a registered buffer. *)
Definition copy_into_entry (entry : MemHandleEntry) (off : Z) (payload : list byte) : MW unit :=
  let copy_len := Z.min (len payload) (saturating_sub (me_buf_size entry) off) in
  when (copy_len >? 0)
    (copy_to (me_buf entry + off) (take (Z.to_nat copy_len) payload)).

Definition handle_rma_put (h : WireHeader) (payload : list byte) : MW unit :=
  handles ← gets w_registry;
  match handles !! handle_id h with
  | Some entry =>
      copy_into_entry entry (offset h) payload
  | None => mret tt
  end.

(** The response handed to the per-peer sender pool, or [None] when the handle
    is unknown and the handler returns without answering. *)
Definition handle_rma_get_request (self_peer_id : PeerId) (h : WireHeader)
    : MW (option (WireHeader * list byte)) :=
  handles ← gets w_registry;
  match handles !! handle_id h with
  | Some entry =>
      let off := offset h in
      let length := Z.min (rma_length h) (saturating_sub (me_buf_size entry) off) in
      data ← (if length >? 0 then copy_from (me_buf entry + off) length else mret []);
      let resp_header := mkWireHeader RmaGetResp 0 (wrap 32 (len data)) self_peer_id
            (handle_id h) (offset h) (len data) (local_handle_id h) (local_offset h) in
      mret (Some (resp_header, data))
  | None => mret None
  end.

(** [handle_rma_get_response] up to the completion it sends, if any. *)
Definition match_get_response (h : WireHeader) (payload : list byte) : MW (option CompletionItem) :=
  queues ← gets w_queues;
  matched_idx ← positionM (fun op_ptr =>
      op ← read_op op_ptr;
      mret ((op_local_handle_id op =? local_handle_id h) && (op_local_offset op =? local_offset h)))
    (pending_rma_ops queues);
  match matched_idx with
  | Some idx =>
      '(op_ptr, rest) ← unwrap (remove_at idx (pending_rma_ops queues));
      _ ← modify (upd_queues (set_pending_rma_ops rest));
      handles ← gets w_registry;
      _ ← (match handles !! local_handle_id h with
           | Some entry =>
               copy_into_entry entry (local_offset h) payload
           | None => mret tt
           end);
      mret (Some (mkCompletion op_ptr NA_SUCCESS None))
  | None => mret None
  end.

Definition handle_rma_get_response (h : WireHeader) (payload : list byte) : MW unit :=
  c ← match_get_response h payload;
  complete c.

End Rma.

Lemma respects_write_chunks {LP : Libp2p} {OS : Os} (R : relation World) {HR : PreOrder R} out n pos chunks :
  (forall f w, R w (upd_mem f w)) -> respects R (write_chunks out n pos chunks).
Proof.
  intros Hm. revert pos. induction chunks as [|d chunks IH]; intros pos; cbn [write_chunks]; [apply respects_ret, _|].
  case_match; [apply respects_ret, _|]. apply respects_bind; [apply _| |auto]. frame.
Qed.
#[export] Hint Extern 1 (respects _ (write_chunks _ _ _ _)) =>
  refine (respects_write_chunks _ _ _ _ _ _); intros; first [done | solve [auto with frame]] : frame.

#[export] Hint Unfold na_libp2p_mem_handle_get_serialize_size na_libp2p_mem_handle_serialize next_handle_id alloc_handle na_libp2p_mem_handle_create na_libp2p_mem_handle_free
  na_libp2p_mem_handle_deserialize na_libp2p_put na_libp2p_get copy_into_entry handle_rma_put handle_rma_get_request
  match_get_response handle_rma_get_response : frame.
