(* ===== verification/Addr.v ===== *)
(** Addresses: the [addr_*] callbacks of src/src/plugin.rs and the address
    methods of src/src/state.rs. *)
From Stdlib Require Import ZArith Lia.
From S2P Require Import Prelude.
From S2P Require Import Frame.
From S2P Require Import RustStr.
From S2P Require Import Libp2p.
From S2P Require Import Memory.
From S2P Require Import Protocol.
From S2P Require Import State.
From S2P Require Import Rma.

Section Addr.
Context {LP : Libp2p} {OS : Os} {NB : NaBindings}.
Abbreviation MW := (M World).

(** * Text form *)

Definition ma_any (f : Protocol PeerId Other -> bool) (ma : Multiaddr) : bool := existsb f (ma_iter ma).

Definition is_tcp (p : Protocol PeerId Other) : bool := match p with Tcp _ => true | _ => false end.
Definition is_quic_v1 (p : Protocol PeerId Other) : bool := match p with QuicV1 => true | _ => false end.
Definition is_p2p_circuit (p : Protocol PeerId Other) : bool := match p with P2pCircuit => true | _ => false end.

Definition transport_prefix_for_multiaddr (ma : Multiaddr) : str :=
  if ma_any is_p2p_circuit ma then lit "relay"
  else if ma_any is_quic_v1 ma then lit "quic"
  else lit "tcp".

(** [format!("{prefix}:{}/p2p/{}", ma, peer_id)] *)
Definition format_addr (prefix ma : str) (peer_id : PeerId) : str :=
  prefix ++ lit ":" ++ ma ++ lit "/p2p/" ++ PeerId_to_string peer_id.

Definition to_addr_string (a : NaLibp2pAddr) : str :=
  match addr_multiaddr a with
  | Some ma => format_addr (transport_prefix_for_multiaddr ma) (ma_to_string ma) (addr_peer_id a)
  | None => lit "tcp:/p2p/" ++ PeerId_to_string (addr_peer_id a)
  end.

(** * Lookup *)

(** The parsing part of [na_libp2p_addr_lookup]: whether the name asks for a
    relayed connection, the peer and the transport address. *)
Definition parse_lookup (name_str : str) : option (bool * PeerId * option Multiaddr) :=
  let is_relay := starts_with (lit "relay:") name_str in
  let input :=
    match strip_prefix (lit "tcp:") name_str with
    | Some r => r
    | None =>
        match strip_prefix (lit "quic:") name_str with
        | Some r => r
        | None => default name_str (strip_prefix (lit "relay:") name_str)
        end
    end in
  match rfind (lit "/p2p/") input with
  | None => None
  | Some p2p_pos =>
      let transport_str := take p2p_pos input in
      let peer_id_str := drop (p2p_pos + 5) input in
      match PeerId_from_str peer_id_str with
      | None => None
      | Some peer_id =>
          match transport_str with
          | [] => Some (is_relay, peer_id, None)
          | _ => match ma_from_str transport_str with
                 | Some ma => Some (is_relay, peer_id, Some ma)
                 | None => None
                 end
          end
      end
  end.

(** A new oneshot channel, named by a number. *)
Definition new_oneshot : MW nat :=
  n ← gets w_next_oneshot; _ ← modify (upd_next_oneshot S); mret n.

(** Returns the code and the address stored through [addr_p].  [relay_answer]
    is what [result_rx.blocking_recv()] yields, [None] when the loop dropped the
    channel. *)
Definition na_libp2p_addr_lookup (relay_answer : option RelayConnectResult) (name : Z) : MW (Z * option Z) :=
  _ ← get_class;
  name_bytes ← read_cstr name;
  match parse_lookup (to_string_lossy name_bytes) with
  | None => mret (NA_PROTOCOL_ERROR, None)
  | Some (is_relay, peer_id, transport_ma) =>
      let finish := (addr ← alloc_boxed peer_id transport_ma false; mret (NA_SUCCESS, Some addr)) in
      if (is_relay : bool) then
        match transport_ma with
        | None => mret (NA_PROTOCOL_ERROR, None)
        | Some relay_circuit_addr =>
            result_tx ← new_oneshot;
            _ ← send_command (ConnectViaRelay peer_id relay_circuit_addr result_tx);
            match relay_answer with
            | Some Direct | Some RelayOnly => finish
            | Some Failed | None => mret (NA_PROTOCOL_ERROR, None)
            end
        end
      else
        _ ← (match transport_ma with
             | Some ma => send_command (AddKnownAddr peer_id ma)
             | None => mret tt
             end);
        finish
  end.

(** * The other callbacks *)

Definition na_libp2p_addr_free (addr : Z) : MW unit :=
  when (negb (addr =? null)) (free_addr addr).

Definition na_libp2p_addr_self : MW (Z * Z) :=
  cls ← get_class;
  dup ← addr_dup (cls_self_addr cls);
  mret (NA_SUCCESS, dup).

Definition na_libp2p_addr_dup (addr : Z) : MW (Z * option Z) :=
  if addr =? null then mret (NA_INVALID_ARG, None)
  else
    src ← read_addr addr;
    dup ← addr_dup src;
    mret (NA_SUCCESS, Some dup).

Definition na_libp2p_addr_cmp (addr1 addr2 : Z) : MW bool :=
  if addr1 =? addr2 then mret true
  else if (addr1 =? null) || (addr2 =? null) then mret false
  else
    a1 ← read_addr addr1;
    a2 ← read_addr addr2;
    mret (bool_decide (addr_peer_id a1 = addr_peer_id a2)).

Definition na_libp2p_addr_is_self (addr : Z) : MW bool :=
  if addr =? null then mret false
  else
    cls ← get_class;
    a ← read_addr addr;
    mret (bool_decide (addr_peer_id a = addr_peer_id (cls_self_addr cls))).

(** ** Printing *)

(** The loop of [read_transport_hint]: up to [n] bytes from [buf + i] on, the
    first NUL excluded. *)
Fixpoint hint_bytes (n : nat) (buf i : Z) : MW (list byte) :=
  match n with
  | O => mret []
  | S n' =>
      m ← gets w_mem;
      b ← deref (m !! (buf + i));
      if bool_decide (b = x00) then mret []
      else bs ← hint_bytes n' buf (i + 1); mret (b :: bs)
  end.

Inductive transport_hint := HintTcp | HintQuic | HintRelay.

(** The ten-byte array is zero-filled, so it is not shorter than ten bytes when
    it is checked for UTF-8. *)
Definition parse_hint (bytes : list byte) : option transport_hint :=
  let hint_array := bytes ++ replicate (10 - length bytes) x00 in
  let hint_str := if utf8_valid hint_array then hint_array else [] in
  if starts_with (lit "tcp,relay") hint_str then Some HintRelay
  else if starts_with (lit "relay") hint_str then Some HintRelay
  else if starts_with (lit "quic") hint_str then Some HintQuic
  else if starts_with (lit "tcp") hint_str then Some HintTcp
  else None.

Definition read_transport_hint (buf : Z) : MW (option transport_hint) :=
  bytes ← hint_bytes 10 buf 0; mret (parse_hint bytes).

Definition find_listen_addr_for_hint (listen_addrs : list Multiaddr) (hint : transport_hint) : option Multiaddr :=
  match hint with
  | HintTcp => List.find (ma_any is_tcp) listen_addrs
  | HintQuic => List.find (ma_any is_quic_v1) listen_addrs
  | HintRelay => List.find (ma_any is_p2p_circuit) listen_addrs
  end.

(** The string [na_libp2p_addr_to_string] returns. *)
Definition addr_display (has_class : bool) (buf : Z) (a : NaLibp2pAddr) : MW str :=
  if addr_is_self a && negb (buf =? null) && has_class then
    cls ← get_class;
    hint ← read_transport_hint buf;
    match hint with
    | Some h =>
        match find_listen_addr_for_hint (cls_listen_addrs cls) h with
        | Some ma => mret (format_addr (transport_prefix_for_multiaddr ma) (ma_to_string ma) (addr_peer_id a))
        | None => mret (to_addr_string a)
        end
    | None => mret (to_addr_string a)
    end
  else mret (to_addr_string a).

(** [buf_size] is the value behind the pointer, [None] when it is null; the
    result is the code and the size stored back. *)
Definition na_libp2p_addr_to_string (has_class : bool) (buf : Z) (buf_size : option Z) (addr : Z) : MW (Z * option Z) :=
  match buf_size with
  | None => mret (NA_INVALID_ARG, None)
  | Some size =>
      if addr =? null then mret (NA_INVALID_ARG, None)
      else
        a ← read_addr addr;
        s ← addr_display has_class buf a;
        let needed := len s + 1 in
        if buf =? null then mret (NA_SUCCESS, Some needed)
        else if size <? needed then mret (NA_OVERFLOW, Some needed)
        else
          _ ← copy_to buf s;
          _ ← copy_to (buf + len s) [x00];
          mret (NA_SUCCESS, Some needed)
  end.

(** ** Serialization *)

Definition ma_str (a : NaLibp2pAddr) : str := from_option ma_to_string [] (addr_multiaddr a).

Definition na_libp2p_addr_get_serialize_size (addr : Z) : MW Z :=
  if addr =? null then mret 0
  else
    a ← read_addr addr;
    mret (2 + len (PeerId_to_bytes (addr_peer_id a)) + 2 + len (ma_str a)).

Definition addr_chunks (a : NaLibp2pAddr) : list (list byte) :=
  let peer_bytes := PeerId_to_bytes (addr_peer_id a) in
  [ to_be_bytes 2 (wrap 16 (len peer_bytes));
    peer_bytes;
    to_be_bytes 2 (wrap 16 (len (ma_str a)));
    ma_str a ].

Definition na_libp2p_addr_serialize (buf buf_size addr : Z) : MW Z :=
  if (addr =? null) || (buf =? null) then mret NA_INVALID_ARG
  else
    a ← read_addr addr;
    ok ← write_chunks buf buf_size 0 (addr_chunks a);
    mret (if (ok : bool) then NA_SUCCESS else NA_OVERFLOW).

(** Returns the code and the address stored through [addr_p]. *)
Definition na_libp2p_addr_deserialize (addr_p buf buf_size : Z) : MW (Z * option Z) :=
  if (buf =? null) || (addr_p =? null) || (buf_size <? 4) then mret (NA_INVALID_ARG, None)
  else
    data ← copy_from buf buf_size;
    if 0 + 2 >? len data then mret (NA_PROTOCOL_ERROR, None)
    else
      b ← slice 0 2 data;
      let peer_id_len := from_be_bytes b in
      if 2 + peer_id_len >? len data then mret (NA_PROTOCOL_ERROR, None)
      else
        b ← slice 2 peer_id_len data;
        match PeerId_from_bytes b with
        | None => mret (NA_PROTOCOL_ERROR, None)
        | Some peer_id =>
            let pos := 2 + peer_id_len in
            if pos + 2 >? len data then mret (NA_PROTOCOL_ERROR, None)
            else
              b ← slice pos 2 data;
              let ma_len := from_be_bytes b in
              let pos := pos + 2 in
              let finish multiaddr := (addr ← alloc_boxed peer_id multiaddr false; mret (NA_SUCCESS, Some addr)) in
              if ma_len >? 0 then
                if pos + ma_len >? len data then mret (NA_PROTOCOL_ERROR, None)
                else
                  b ← slice pos ma_len data;
                  if utf8_valid b then
                    match ma_from_str b with
                    | Some ma => finish (Some ma)
                    | None => mret (NA_PROTOCOL_ERROR, None)
                    end
                  else mret (NA_PROTOCOL_ERROR, None)
              else finish None
        end.

(** ** Message sizes and tags *)

Definition na_libp2p_msg_get_max_unexpected_size : Z := MAX_MSG_SIZE.
Definition na_libp2p_msg_get_max_expected_size : Z := MAX_MSG_SIZE.
Definition na_libp2p_msg_get_max_tag : Z := 2 ^ 32 - 1.

End Addr.

Lemma respects_hint_bytes {LP : Libp2p} {OS : Os} (R : relation World) {HR : PreOrder R} n buf i :
  respects R (hint_bytes n buf i).
Proof. revert i. induction n as [|n IH]; intros i; cbn [hint_bytes]; repeat frame_step; auto. Qed.
#[export] Hint Extern 1 (respects _ (hint_bytes _ _ _)) => refine (respects_hint_bytes _ _ _ _) : frame.

#[export] Hint Unfold na_libp2p_addr_cmp na_libp2p_addr_is_self read_transport_hint addr_display na_libp2p_addr_to_string
  na_libp2p_addr_get_serialize_size na_libp2p_addr_serialize : frame.
#[export] Hint Unfold new_oneshot na_libp2p_addr_lookup na_libp2p_addr_free na_libp2p_addr_self na_libp2p_addr_dup
  na_libp2p_addr_deserialize : frame.
