(* ===== verification/Invariant.v ===== *)
(** The invariant of the shared state: every raw pointer the plugin keeps is
    live, every buffer it may write is mapped, and the source addresses it owns
    are owned once.  Primitive-level lemmas; the handlers are in [Safety]. *)
From Stdlib Require Import ZArith Lia.
From S2P Require Import Prelude.
From S2P Require Import RustStr.
From S2P Require Import Libp2p.
From S2P Require Import Memory.
From S2P Require Import Protocol.
From S2P Require Import State.

Section Invariant.
Context {LP : Libp2p} {OS : Os} {NB : NaBindings}.
Abbreviation MW := (M World).

(** Operations waiting in a queue. *)
Definition queued (q : OperationQueues) : list Z :=
  unexpected_recv_ops q ++ expected_recv_ops q ++ pending_rma_ops q.

Definition completion_addrs (cs : list CompletionItem) : list Z :=
  omap (fun c => ri_source_addr <$> ci_recv_info c) cs.

(** Boxed source addresses owned by the plugin until a callback takes them. *)
Definition owned (q : OperationQueues) (cs : list CompletionItem) : list Z :=
  map st_source_addr (unexpected_msg_stash q) ++ map st_source_addr (expected_msg_stash q)
  ++ completion_addrs cs.

Definition recv_buf_ok (m : memory) (op : NaLibp2pOpId) : Prop :=
  op_buf op = null \/ mapped m (op_buf op) (op_buf_size op).

Record wf (w : World) : Prop := mk_wf {
  wf_class : is_Some (w_class w);
  wf_queued_nodup : NoDup (queued (w_queues w));
  wf_queued_live : forall p, p ∈ queued (w_queues w) -> is_Some (w_ops w !! p);
  wf_recv_buf : forall p op,
    p ∈ unexpected_recv_ops (w_queues w) ++ expected_recv_ops (w_queues w) ->
    w_ops w !! p = Some op -> recv_buf_ok (w_mem w) op;
  wf_recv_addr : forall p op,
    p ∈ expected_recv_ops (w_queues w) -> w_ops w !! p = Some op ->
    op_addr op = null \/
    (is_Some (w_addrs w !! op_addr op) /\ op_addr op ∉ owned (w_queues w) (w_completions w));
  wf_owned_live : forall a, a ∈ owned (w_queues w) (w_completions w) ->
    a <> null /\ is_Some (w_addrs w !! a);
  wf_owned_nodup : NoDup (owned (w_queues w) (w_completions w));
  wf_completions : forall c, c ∈ w_completions w -> is_Some (w_ops w !! ci_op_ptr c);
  wf_registry : forall id e, w_registry w !! id = Some e -> mapped (w_mem w) (me_buf e) (me_buf_size e);
}.

(** Only the fields [wf] reads matter. *)
Lemma wf_ext w w' :
  is_Some (w_class w') -> w_mem w' = w_mem w -> w_addrs w' = w_addrs w -> w_ops w' = w_ops w ->
  w_queues w' = w_queues w -> w_registry w' = w_registry w -> w_completions w' = w_completions w ->
  wf w -> wf w'.
Proof. intros Hc Hm Ha Ho Hq Hr Hcs []. split; rewrite ?Hm, ?Ha, ?Ho, ?Hq, ?Hr, ?Hcs; done. Qed.

(** ** Memory *)

Lemma wf_upd_mem w m : wf w -> dom m = dom (w_mem w) -> wf (upd_mem (fun _ => m) w).
Proof.
  intros [] Hd. split; simpl; try done.
  - intros p op Hp Ho. destruct (wf_recv_buf0 p op Hp Ho) as [H|H]; [by left|right].
    eapply mapped_dom; [symmetry; exact Hd|done].
  - intros id e He. eapply mapped_dom; [symmetry; exact Hd|]. eauto.
Qed.

Lemma copy_to_spec w p bs :
  mapped (w_mem w) p (len bs) ->
  exists m', copy_to p bs w = Done tt (upd_mem (fun _ => m') w) /\
    dom m' = dom (w_mem w) /\ mem_load m' p (length bs) = Some bs /\
    (forall a, ~ (p <= a < p + len bs) -> m' !! a = w_mem w !! a).
Proof.
  intros Hm. destruct (mem_store_spec _ _ _ Hm) as (m' & Hs & Hd & Hin & Hout).
  exists m'. split_and!; try done.
  - unfold copy_to. unfold_M. by rewrite Hs.
  - by apply mem_load_eq.
Qed.

(** ** Operations *)

(** The fields [wf] constrains are those of a queued operation. *)
Definition same_shape (op op' : NaLibp2pOpId) : Prop :=
  op_buf op' = op_buf op /\ op_buf_size op' = op_buf_size op /\ op_addr op' = op_addr op.

Lemma wf_upd_op w p op op' :
  wf w -> w_ops w !! p = Some op -> p ∉ queued (w_queues w) \/ same_shape op op' ->
  wf (upd_ops <[p := op']> w).
Proof.
  intros [] Hp Hsh.
  assert (Hlook : forall p' o, p' ∈ queued (w_queues w) -> <[p := op']> (w_ops w) !! p' = Some o ->
            exists o0, w_ops w !! p' = Some o0 /\ same_shape o0 o).
  { intros p' o Hq Ho. destruct (decide (p = p')) as [->|Hne].
    - rewrite lookup_insert_eq in Ho. simplify_eq. destruct Hsh as [?|?]; [done|eauto].
    - rewrite lookup_insert_ne in Ho by done. exists o. by repeat split. }
  assert (Hlive : forall p', is_Some (w_ops w !! p') -> is_Some (<[p := op']> (w_ops w) !! p')).
  { intros p' H. destruct (decide (p = p')) as [->|]; [rewrite lookup_insert_eq; by eexists|].
    by rewrite lookup_insert_ne. }
  unfold queued in Hlook. split; simpl; try done; eauto.
  - intros p' o Hq Ho. destruct (Hlook p' o) as (o0 & H0 & (Hb & Hs & _)); [rewrite !elem_of_app in *; tauto|done|].
    unfold recv_buf_ok. rewrite Hb, Hs. eapply wf_recv_buf0; eauto.
  - intros p' o Hq Ho. destruct (Hlook p' o) as (o0 & H0 & (_ & _ & Ha)); [rewrite !elem_of_app in *; tauto|done|].
    rewrite Ha. eapply wf_recv_addr0; eauto.
Qed.

Lemma update_op_spec w p f op :
  w_ops w !! p = Some op -> update_op p f w = Done tt (upd_ops <[p := f op]> w).
Proof. intros H. unfold update_op, read_op. unfold_M. by rewrite H. Qed.

Lemma read_op_spec w p op : w_ops w !! p = Some op -> read_op p w = Done op w.
Proof. intros H. unfold read_op. unfold_M. by rewrite H. Qed.

Lemma read_addr_spec w p a : w_addrs w !! p = Some a -> read_addr p w = Done a w.
Proof. intros H. unfold read_addr. unfold_M. by rewrite H. Qed.

Lemma get_class_spec w : wf w -> exists c, get_class w = Done c w /\ w_class w = Some c.
Proof. intros H. destruct (wf_class w H) as [c Hc]. exists c. unfold get_class. unfold_M. by rewrite Hc. Qed.

(** ** Addresses *)

(** An address no stash, completion or pending receive refers to. *)
Definition unreferenced (w : World) (a : Z) : Prop :=
  (a ∉ owned (w_queues w) (w_completions w)) /\
  forall p op, p ∈ expected_recv_ops (w_queues w) -> w_ops w !! p = Some op -> op_addr op <> a.

Lemma alloc_boxed_spec w peer ma self :
  alloc_boxed peer ma self w
  = Done (malloc (dom (w_addrs w))) (upd_addrs <[malloc (dom (w_addrs w)) := mkAddr peer ma self]> w).
Proof. done. Qed.

Lemma malloc_lookup {OSL : OsLaws} {A} (m : gmap Z A) : m !! malloc (dom m) = None.
Proof. apply not_elem_of_dom, malloc_fresh. Qed.

Lemma wf_alloc {OSL : OsLaws} w x :
  wf w -> let p := malloc (dom (w_addrs w)) in
  wf (upd_addrs <[p := x]> w) /\ unreferenced (upd_addrs <[p := x]> w) p.
Proof.
  intros [] p. assert (Hp : w_addrs w !! p = None) by apply malloc_lookup.
  assert (Hlive : forall a, is_Some (w_addrs w !! a) -> is_Some (<[p := x]> (w_addrs w) !! a)).
  { intros a [y Hy]. rewrite lookup_insert_ne by congruence. by eexists. }
  split; [split; simpl; try done|split; simpl].
  - intros q op Hq Ho. destruct (wf_recv_addr0 q op Hq Ho) as [|[]]; [by left|right; eauto].
  - intros a Ha. destruct (wf_owned_live0 a Ha). eauto.
  - intros Hin. destruct (wf_owned_live0 p Hin) as [_ [? ?]]. congruence.
  - intros q op Hq Ho Heq. destruct (wf_recv_addr0 q op Hq Ho) as [Hn|[[y Hy] _]]; [|congruence].
    rewrite Hn in Heq. by destruct (malloc_nonnull (dom (w_addrs w))).
Qed.

Lemma wf_free w a :
  wf w -> unreferenced w a -> wf (upd_addrs (delete a) w).
Proof.
  intros [] [Hu1 Hu2]. split; simpl; try done.
  - intros p op Hp Ho. specialize (Hu2 p op Hp Ho).
    destruct (wf_recv_addr0 p op Hp Ho) as [|[]]; [by left|right].
    by rewrite lookup_delete_ne.
  - intros b Hb. destruct (wf_owned_live0 b Hb). rewrite lookup_delete_ne; [done|]. congruence.
Qed.

Lemma free_addr_spec w a :
  is_Some (w_addrs w !! a) -> free_addr a w = Done tt (upd_addrs (delete a) w).
Proof. intros [x Hx]. unfold free_addr, read_addr. unfold_M. by rewrite Hx. Qed.

(** ** Queues and completions *)

Lemma wf_requeue w q' cs' :
  wf w ->
  NoDup (queued q') -> (forall p, p ∈ queued q' -> p ∈ queued (w_queues w)) ->
  (forall p, p ∈ unexpected_recv_ops q' ++ expected_recv_ops q' ->
             p ∈ unexpected_recv_ops (w_queues w) ++ expected_recv_ops (w_queues w)) ->
  (forall p, p ∈ expected_recv_ops q' -> p ∈ expected_recv_ops (w_queues w)) ->
  NoDup (owned q' cs') ->
  (forall a, a ∈ owned q' cs' -> a ∈ owned (w_queues w) (w_completions w) \/
     a <> null /\ is_Some (w_addrs w !! a) /\ unreferenced w a) ->
  (forall c, c ∈ cs' -> is_Some (w_ops w !! ci_op_ptr c)) ->
  wf (upd_queues (fun _ => q') (upd_completions (fun _ => cs') w)).
Proof.
  intros [] Hnd Hq Hue He Hond Hown Hcs. split; simpl; eauto.
  - intros p op Hp Ho. destruct (wf_recv_addr0 p op (He p Hp) Ho) as [|[Hl Hn]]; [by left|].
    right. split; [done|]. intros [Ha|(_ & _ & [_ Hu])]%Hown; [done|].
    by apply (Hu p op (He p Hp) Ho).
  - intros a [Ha|(? & ? & _)]%Hown; [eauto|done].
Qed.

(** ** An executable check of the invariant *)

Definition op_check (w : World) (expected : bool) (p : Z) : bool :=
  match w_ops w !! p with
  | None => false
  | Some op =>
      ((op_buf op =? null) || mapped_check (w_mem w) (op_buf op) (op_buf_size op)) &&
      (negb expected || (op_addr op =? null) ||
       (bool_decide (is_Some (w_addrs w !! op_addr op)) &&
        bool_decide (op_addr op ∉ owned (w_queues w) (w_completions w))))
  end.

Definition wf_check (w : World) : bool :=
  bool_decide (is_Some (w_class w)) &&
  bool_decide (NoDup (queued (w_queues w))) &&
  forallb (op_check w false) (unexpected_recv_ops (w_queues w)) &&
  forallb (op_check w true) (expected_recv_ops (w_queues w)) &&
  forallb (fun p => bool_decide (is_Some (w_ops w !! p))) (pending_rma_ops (w_queues w)) &&
  forallb (fun a => negb (a =? null) && bool_decide (is_Some (w_addrs w !! a)))
    (owned (w_queues w) (w_completions w)) &&
  bool_decide (NoDup (owned (w_queues w) (w_completions w))) &&
  forallb (fun c => bool_decide (is_Some (w_ops w !! ci_op_ptr c))) (w_completions w) &&
  forallb (fun x => mapped_check (w_mem w) (me_buf x.2) (me_buf_size x.2)) (map_to_list (w_registry w)).

Lemma forallb_elem {A} (f : A -> bool) l x : forallb f l = true -> x ∈ l -> f x = true.
Proof. rewrite forallb_forall. intros H Hx. apply H. by apply list_elem_of_In. Qed.

Lemma op_check_live w b p : op_check w b p = true -> is_Some (w_ops w !! p).
Proof. unfold op_check. case_match; [by eexists|done]. Qed.

Lemma op_check_buf w b p op :
  op_check w b p = true -> w_ops w !! p = Some op -> recv_buf_ok (w_mem w) op.
Proof.
  unfold op_check. intros H Hop. rewrite Hop in H. apply andb_prop in H as [H _].
  apply orb_prop in H as [H|H]; [left; lia|right; by apply mapped_check_sound].
Qed.

Lemma wf_check_sound w : wf_check w = true -> wf w.
Proof.
  unfold wf_check. rewrite !andb_true_iff. intros ((((((((Hc & Hq) & Hu) & He) & Hr) & Ho) & Hn) & Hcs) & Hreg).
  apply bool_decide_eq_true in Hc, Hq, Hn. split; try done.
  - intros p Hp. unfold queued in Hp. rewrite !elem_of_app in Hp. destruct Hp as [Hp|[Hp|Hp]].
    + exact (op_check_live _ _ _ (forallb_elem _ _ _ Hu Hp)).
    + exact (op_check_live _ _ _ (forallb_elem _ _ _ He Hp)).
    + exact (bool_decide_eq_true_1 _ (forallb_elem _ _ _ Hr Hp)).
  - intros p op [Hp|Hp]%elem_of_app.
    + exact (op_check_buf _ _ _ _ (forallb_elem _ _ _ Hu Hp)).
    + exact (op_check_buf _ _ _ _ (forallb_elem _ _ _ He Hp)).
  - intros p op Hp Hop. pose proof (forallb_elem _ _ _ He Hp) as H. unfold op_check in H. rewrite Hop in H.
    apply andb_prop in H as [_ H]. cbn [negb orb] in H. apply orb_prop in H as [H|H]; [left; lia|right].
    apply andb_prop in H as [H1 H2]. by apply bool_decide_eq_true in H1, H2.
  - intros a Ha. pose proof (forallb_elem _ _ _ Ho Ha) as H. cbn beta in H. apply andb_prop in H as [H1 H2].
    apply bool_decide_eq_true in H2. split; [|done]. intros ->. done.
  - intros c Hcc. exact (bool_decide_eq_true_1 _ (forallb_elem _ _ _ Hcs Hcc)).
  - intros id e Hl. apply mapped_check_sound.
    apply (forallb_elem _ _ (id, e) Hreg). by apply elem_of_map_to_list.
Qed.

End Invariant.
