(* ===== verification/DemoWorld.v ===== *)
(** A concrete node, on the instances of [Libp2p.Demo]: 64 bytes of application
    memory, one address the application holds, four idle operations and one
    registered buffer with its handle.  The witnesses evaluate on it. *)
From Stdlib Require Import ZArith Lia.
From S2P Require Import Prelude.
From S2P Require Import RustStr.
From S2P Require Import Libp2p.
From S2P Require Import Memory.
From S2P Require Import Protocol.
From S2P Require Import State.
From S2P Require Import Messaging.
From S2P Require Import Invariant.
Import Demo.

Module DemoNode.

Definition self : peer := x07.
Definition alice : peer := x0a.

Definition config : TransportConfig := mkTransportConfig true false false KTcp.

Definition class : NaLibp2pClass :=
  mkClass (mkAddr self None true) 6 config [] None.

Definition alice_addr : NaLibp2pAddr := mkAddr alice None false.
Definition own_handle : NaLibp2pMemHandle := mkMemHandle 1000 16 5 0 None.
Definition remote_handle : NaLibp2pMemHandle := mkMemHandle null 16 5 0 (Some alice).

Definition text : list byte := map (fun z => byte_of_Z (65 + z mod 26)) (seqZ 0 64).

Definition node : World :=
  {| w_mem := mem_of 1000 text;
     w_addrs := {[ 50 := alice_addr ]};
     w_ops := list_to_map [(1, op_new); (2, op_new); (3, op_new); (4, op_new)];
     w_handles := {[ 70 := own_handle; 71 := remote_handle ]};
     w_queues := OperationQueues_new;
     w_registry := {[ 5 := mkEntry 1000 16 0 ]};
     w_cmds := [];
     w_completions := [];
     w_efd := efd_new;
     w_class := Some class;
     w_cbs := [];
     w_loop_alive := true;
     w_next_oneshot := 0%nat |}.

Lemma node_wf : wf node.
Proof. apply wf_check_sound. by vm_compute. Qed.

(** A message from Alice, with its payload. *)
Definition header (ty : MessageType) (t : Z) (payload : list byte) : WireHeader :=
  mkWireHeader ty t (len payload) alice 0 0 0 0 0.

Definition hello : list byte := [x68; x65; x6c; x6c; x6f].

End DemoNode.
