(* ===== verification/Safety.v ===== *)
(** What each messaging handler does to a well-formed state: an explicit final
    state for every branch, with no fault, and preservation of the invariant. *)
From Stdlib Require Import ZArith Lia.
From S2P Require Import Prelude.
From S2P Require Import RustStr.
From S2P Require Import Libp2p.
From S2P Require Import Memory.
From S2P Require Import Protocol.
From S2P Require Import State.
From S2P Require Import Messaging.
From S2P Require Import Invariant.

Section Safety.
Context {LP : Libp2p} {OS : Os} {NB : NaBindings}.
Abbreviation MW := (M World).

(** * Copying a payload into a receive buffer *)

Definition copied_len (payload : list byte) (buf_size : Z) : Z := Z.min (len payload) buf_size.

(** [m'] is [m] with the first bytes of the payload in the buffer and nothing
    else changed. *)
Definition recv_written (m m' : memory) (buf buf_size : Z) (payload : list byte) : Prop :=
  dom m' = dom m /\
  (buf <> null -> mem_load m' buf (Z.to_nat (copied_len payload buf_size))
                  = Some (take (Z.to_nat (copied_len payload buf_size)) payload)) /\
  (forall a, ~ (buf <> null /\ buf <= a < buf + copied_len payload buf_size) -> m' !! a = m !! a).

Lemma upd_mem_id w : upd_mem (fun _ => w_mem w) w = w.
Proof. by destruct w. Qed.

Lemma len_take_copied payload n :
  0 <= copied_len payload n ->
  len (take (Z.to_nat (copied_len payload n)) payload) = copied_len payload n.
Proof. unfold copied_len, len. intros. rewrite length_take. lia. Qed.

Lemma copy_payload_spec w payload buf buf_size :
  buf = null \/ mapped (w_mem w) buf buf_size ->
  exists m', copy_payload payload buf buf_size w = Done tt (upd_mem (fun _ => m') w) /\
    recv_written (w_mem w) m' buf buf_size payload.
Proof.
  intros Hb. unfold copy_payload. fold (copied_len payload buf_size).
  destruct (Z.gtb_spec (copied_len payload buf_size) 0) as [Hc|Hc];
    destruct (Z.eqb_spec buf null) as [Hn|Hn]; cbn [andb negb when].
  2: { destruct Hb as [|Hb]; [done|].
    destruct (copy_to_spec w buf (take (Z.to_nat (copied_len payload buf_size)) payload))
      as (m' & Hm & Hd & Hl & Hf).
    { rewrite len_take_copied by lia. eapply mapped_weaken; [done|lia|]. unfold copied_len. lia. }
    exists m'. split; [done|]. rewrite len_take_copied in Hf by lia. split_and!; [done| |].
    - intros _. rewrite <-Hl. f_equal.
      apply Nat2Z.inj. fold (len (take (Z.to_nat (copied_len payload buf_size)) payload)).
      rewrite len_take_copied; lia.
    - intros a Ha. apply Hf. tauto. }
  all: exists (w_mem w); rewrite upd_mem_id; split; [done|]; split_and!; [done| |done].
  - done.
  - intros _. by replace (Z.to_nat (copied_len payload buf_size)) with 0%nat by lia.
  - intros _. by replace (Z.to_nat (copied_len payload buf_size)) with 0%nat by lia.
Qed.

(** * Matching *)

(** The test [handle_incoming_msg] makes on a pending receive. *)
Definition recv_matches (w : World) (t : Z) (src : PeerId) (p : Z) : bool :=
  match w_ops w !! p with
  | Some op =>
      (op_tag op =? t) &&
      (if op_addr op =? null then true
       else match w_addrs w !! op_addr op with
            | Some a => bool_decide (addr_peer_id a = src)
            | None => false
            end)
  | None => false
  end.

(** The test [msg_recv_expected] makes on a stashed message. *)
Definition stash_matches (w : World) (t : Z) (src : option PeerId) (m : StashedMessage) : bool :=
  (st_tag m =? t) &&
  match src with
  | Some pid =>
      if st_source_addr m =? null then true
      else match w_addrs w !! st_source_addr m with
           | Some a => bool_decide (addr_peer_id a = pid)
           | None => false
           end
  | None => true
  end.

Definition recv_queue (expected : bool) (q : OperationQueues) : list Z :=
  if expected then expected_recv_ops q else unexpected_recv_ops q.
Definition set_recv_queue (expected : bool) (l : list Z) : OperationQueues -> OperationQueues :=
  if expected then set_expected_recv_ops l else set_unexpected_recv_ops l.
Definition push_stash (expected : bool) (m : StashedMessage) (q : OperationQueues) : OperationQueues :=
  if expected then set_expected_msg_stash (expected_msg_stash q ++ [m]) q
  else set_unexpected_msg_stash (unexpected_msg_stash q ++ [m]) q.

(** The receive an incoming message completes, with the queue that remains. *)
Definition matching_recv (w : World) (h : WireHeader) (expected : bool) : option (Z * list Z) :=
  take_first (if expected then recv_matches w (tag h) (source_peer_id h) else fun _ => true)
    (recv_queue expected (w_queues w)).

Lemma queued_take expected q p rest :
  recv_queue expected q ≡ₚ p :: rest -> queued q ≡ₚ p :: queued (set_recv_queue expected rest q).
Proof.
  unfold queued. destruct expected; cbn; intros Hq; rewrite Hq; cbn; [|done].
  by rewrite <-Permutation_middle.
Qed.

Lemma owned_push_stash expected m q cs :
  owned (push_stash expected m q) cs ≡ₚ st_source_addr m :: owned q cs.
Proof.
  unfold owned, push_stash. destruct expected; cbn; rewrite map_app; cbn;
    rewrite <-!app_assoc; cbn; rewrite <-!Permutation_middle; done.
Qed.

Lemma owned_push_completion q cs c ri :
  ci_recv_info c = Some ri -> owned q (cs ++ [c]) ≡ₚ ri_source_addr ri :: owned q cs.
Proof.
  intros H. unfold owned, completion_addrs. rewrite omap_app. cbn. rewrite H. cbn.
  by rewrite !app_assoc, <-Permutation_cons_append.
Qed.

Lemma owned_push_plain q cs c : ci_recv_info c = None -> owned q (cs ++ [c]) = owned q cs.
Proof. intros H. unfold owned, completion_addrs. rewrite omap_app. cbn. rewrite H. cbn. by rewrite app_nil_r. Qed.

Lemma owned_set_recv_queue expected l q cs : owned (set_recv_queue expected l q) cs = owned q cs.
Proof. by destruct expected. Qed.

Context {OSL : OsLaws}.

(** The state after the source address of a message has been boxed. *)
Definition with_source (h : WireHeader) (w : World) : World :=
  upd_addrs <[malloc (dom (w_addrs w)) := mkAddr (source_peer_id h) None false]> w.

Lemma recv_search w h expected :
  wf w ->
  exists r, find_recv h expected (recv_queue expected (w_queues w))
      (with_source h w) = Done r (with_source h w) /\
    match r with
    | Some i => remove_at i (recv_queue expected (w_queues w)) = matching_recv w h expected
    | None => matching_recv w h expected = None
    end /\ (r <> None -> matching_recv w h expected <> None).
Proof.
  intros Hwf. destruct (wf_alloc w (mkAddr (source_peer_id h) None false) Hwf) as [Hwf' _].
  destruct expected; unfold matching_recv, find_recv; cbn [recv_queue].
  - exists (position (recv_matches w (tag h) (source_peer_id h)) (expected_recv_ops (w_queues w))). split.
    + apply positionM_pure. intros p Hp.
      destruct (wf_queued_live w Hwf p) as [op Hop]; [unfold queued; rewrite !elem_of_app; auto|].
      rewrite (bind_Done _ _ _ op (with_source h w)) by (by apply read_op_spec).
      unfold recv_matches. rewrite Hop. cbn beta zeta.
      destruct (Z.eqb_spec (op_addr op) null) as [Hn|Hn]; [done|].
      destruct (wf_recv_addr w Hwf p op Hp Hop) as [|[[a Ha] _]]; [done|].
      rewrite Ha. unfold read_addr, with_source, upd_addrs. unfold_M. cbn.
      rewrite lookup_insert_ne; [by rewrite Ha|].
      intros Heq. rewrite <-Heq, malloc_lookup in Ha. done.
    + rewrite <-position_remove_at. destruct (position _ _) as [i|] eqn:E; [|done].
      split; [done|]. intros _. by destruct (position_Some _ _ _ E) as (? & ? & -> & _).
  - destruct (unexpected_recv_ops (w_queues w)) as [|p l] eqn:E; eexists; (split; [done|]);
      rewrite ?E; done.
Qed.

(** Completing an operation while the class lives. *)
Lemma complete_run w c :
  is_Some (w_class w) -> complete (Some c) w = Done tt (upd_efd efd_write1 (upd_completions (fun l => l ++ [c]) w)).
Proof. intros [cls Hc]. unfold complete, run_steps, complete_steps, send_completion. unfold_M. by rewrite Hc. Qed.

(** Every branch of [match_incoming] on a well-formed state. *)
Lemma match_incoming_run w h payload expected :
  wf w ->
  let a := malloc (dom (w_addrs w)) in
  match matching_recv w h expected with
  | Some (op_ptr, rest) =>
      exists op m', w_ops w !! op_ptr = Some op /\
        recv_written (w_mem w) m' (op_buf op) (op_buf_size op) payload /\
        match_incoming h payload expected w
        = Done (Some (mkCompletion op_ptr NA_SUCCESS (Some (mkRecvInfo (len payload) a (tag h)))))
            (upd_mem (fun _ => m') (upd_queues (set_recv_queue expected rest) (with_source h w)))
  | None =>
      match_incoming h payload expected w
      = Done None (upd_queues (push_stash expected (mkStashed payload a (tag h))) (with_source h w))
  end.
Proof.
  intros Hwf a. destruct (recv_search w h expected Hwf) as (r & Hr & Hm & Hne).
  unfold match_incoming. mrun alloc_boxed_spec. fold a.
  change (upd_addrs <[a := _]> w) with (with_source h w). mpure. change (w_queues (with_source h w)) with (w_queues w).
  fold (recv_queue expected (w_queues w)).
  rewrite (bind_Done _ _ _ r (with_source h w)) by exact Hr.
  destruct r as [i|].
  - destruct (matching_recv w h expected) as [[op_ptr rest]|] eqn:E; [|by destruct Hne].
    rewrite Hm. cbn [unwrap]. mpure. fold (set_recv_queue expected rest).
    assert (Hin : op_ptr ∈ recv_queue expected (w_queues w)).
    { rewrite (take_first_perm _ _ _ _ E). set_solver. }
    destruct (wf_queued_live w Hwf op_ptr) as [op Hop].
    { unfold queued. rewrite !elem_of_app. destruct expected; auto. }
    exists op.
    set (w1 := upd_queues (set_recv_queue expected rest) (with_source h w)).
    destruct (copy_payload_spec w1 payload (op_buf op) (op_buf_size op)) as (m' & Hcp & Hw).
    { apply (wf_recv_buf w Hwf op_ptr op); [|done]. rewrite elem_of_app. destruct expected; auto. }
    exists m'. split_and!; [done|done|].
    change (upd_queues _ (with_source h w)) with w1.
    rewrite (bind_Done _ _ _ op w1) by (by apply read_op_spec).
    by rewrite (bind_Done _ _ _ _ _ Hcp).
  - by rewrite Hm.
Qed.

(** Every branch of [handle_incoming_msg] on a well-formed state. *)
Lemma handle_incoming_msg_run w h payload expected :
  wf w ->
  let a := malloc (dom (w_addrs w)) in
  match matching_recv w h expected with
  | Some (op_ptr, rest) =>
      exists op m', w_ops w !! op_ptr = Some op /\
        recv_written (w_mem w) m' (op_buf op) (op_buf_size op) payload /\
        handle_incoming_msg h payload expected w
        = Done tt (upd_efd efd_write1
            (upd_completions (fun l => l ++ [mkCompletion op_ptr NA_SUCCESS
                                               (Some (mkRecvInfo (len payload) a (tag h)))])
            (upd_mem (fun _ => m')
            (upd_queues (set_recv_queue expected rest) (with_source h w)))))
  | None =>
      handle_incoming_msg h payload expected w
      = Done tt (upd_queues (push_stash expected (mkStashed payload a (tag h))) (with_source h w))
  end.
Proof.
  intros Hwf a. pose proof (match_incoming_run w h payload expected Hwf) as H. cbv zeta in H. fold a in H.
  unfold handle_incoming_msg. destruct (matching_recv w h expected) as [[op_ptr rest]|].
  - destruct H as (op & m' & Hop & Hm & H). exists op, m'. split_and!; [done|done|]. rewrite (bind_Done _ _ _ _ _ H).
    apply complete_run, (wf_class w Hwf).
  - by rewrite (bind_Done _ _ _ _ _ H).
Qed.

(** A pending receive leaves its queue and becomes a completion that owns the
    fresh address [a]. *)
Lemma wf_deliver w expected p rest ri :
  wf w -> recv_queue expected (w_queues w) ≡ₚ p :: rest ->
  let a := ri_source_addr ri in
  a <> null -> is_Some (w_addrs w !! a) -> unreferenced w a ->
  wf (upd_queues (fun _ => set_recv_queue expected rest (w_queues w))
       (upd_completions (fun _ => w_completions w ++ [mkCompletion p NA_SUCCESS (Some ri)]) w)).
Proof.
  intros Hwf Hq a Ha Hal Hu. pose proof (queued_take _ _ _ _ Hq) as Hp.
  assert (Hrest : forall x, x ∈ rest -> x ∈ recv_queue expected (w_queues w)).
  { intros x Hx. rewrite Hq. set_solver. }
  apply wf_requeue; try done.
  - pose proof (wf_queued_nodup w Hwf) as Hn. rewrite Hp in Hn. apply NoDup_cons in Hn as [_ Hn]. done.
  - intros x Hx. rewrite Hp. by apply elem_of_cons; right.
  - intros x. destruct expected; cbn in *; rewrite !elem_of_app; intros [Hx|Hx]; auto.
  - intros x. destruct expected; cbn in *; auto.
  - rewrite owned_push_completion by done. rewrite owned_set_recv_queue.
    apply NoDup_cons. split; [apply Hu | apply (wf_owned_nodup w Hwf)].
  - intros b. rewrite owned_push_completion, owned_set_recv_queue by done.
    intros [->|Hb]%elem_of_cons; [by right|by left].
  - intros c [Hc| ->%list_elem_of_singleton]%elem_of_app; [by apply (wf_completions w Hwf)|].
    apply (wf_queued_live w Hwf). rewrite Hp. apply elem_of_cons. by left.
Qed.

Lemma wf_push_stash w expected m :
  wf w -> let a := st_source_addr m in
  a <> null -> is_Some (w_addrs w !! a) -> unreferenced w a ->
  wf (upd_queues (push_stash expected m) w).
Proof.
  intros Hwf a Ha Hal Hu.
  assert (H : wf (upd_queues (fun _ => push_stash expected m (w_queues w))
                   (upd_completions (fun _ => w_completions w) w))).
  { apply wf_requeue; try done; try (by destruct expected).
    - destruct expected; apply Hwf.
    - rewrite owned_push_stash. apply NoDup_cons. split; [apply Hu|apply Hwf].
    - intros b. rewrite owned_push_stash. intros [->|Hb]%elem_of_cons; [by right|by left].
    - apply Hwf. }
  eapply wf_ext; [..|exact H]; try done. apply Hwf.
Qed.

Lemma handle_incoming_msg_wf w h payload expected :
  wf w -> exists w', handle_incoming_msg h payload expected w = Done tt w' /\ wf w'.
Proof.
  intros Hwf. pose proof (handle_incoming_msg_run w h payload expected Hwf) as Hrun. cbv zeta in Hrun.
  destruct (wf_alloc w (mkAddr (source_peer_id h) None false) Hwf) as [Hwf1 Hu].
  fold (with_source h w) in Hwf1, Hu. set (a := malloc (dom (w_addrs w))) in *.
  assert (Ha : a <> null) by apply malloc_nonnull.
  assert (Hal : is_Some (w_addrs (with_source h w) !! a)).
  { cbn. rewrite lookup_insert_eq. by eexists. }
  destruct (matching_recv w h expected) as [[p rest]|] eqn:E.
  - destruct Hrun as (op & m' & Hop & (Hd & _) & ->). eexists. split; [done|].
    pose proof (wf_deliver (with_source h w) expected p rest (mkRecvInfo (len payload) a (tag h))
                  Hwf1 (take_first_perm _ _ _ _ E) Ha Hal Hu) as H.
    apply (wf_upd_mem _ m') in H; [|done]. eapply wf_ext; [..|exact H]; try done. apply Hwf.
  - rewrite Hrun. eexists. split; [done|]. by apply wf_push_stash.
Qed.

(** * Posting a receive *)

(** What a caller must guarantee of the operation, buffer and address it passes. *)
Definition op_idle (w : World) (p : Z) : Prop :=
  is_Some (w_ops w !! p) /\ p ∉ queued (w_queues w).
Definition buf_ok (w : World) (buf buf_size : Z) : Prop :=
  buf = null \/ mapped (w_mem w) buf buf_size.
Definition user_addr (w : World) (a : Z) : Prop :=
  is_Some (w_addrs w !! a) /\ a ∉ owned (w_queues w) (w_completions w).

Definition push_recv (expected : bool) (p : Z) (q : OperationQueues) : OperationQueues :=
  set_recv_queue expected (recv_queue expected q ++ [p]) q.

Lemma queued_push expected p q : queued (push_recv expected p q) ≡ₚ p :: queued q.
Proof.
  unfold queued, push_recv. destruct expected; cbn;
    rewrite <-?app_assoc; cbn; rewrite <-!Permutation_middle; done.
Qed.

Lemma wf_post w expected p op :
  wf w -> w_ops w !! p = Some op -> p ∉ queued (w_queues w) ->
  recv_buf_ok (w_mem w) op -> op_addr op = null \/ user_addr w (op_addr op) ->
  wf (upd_queues (push_recv expected p) w).
Proof.
  intros Hwf Hop Hnq Hb Ha.
  assert (Ho : forall cs, owned (push_recv expected p (w_queues w)) cs = owned (w_queues w) cs)
    by (intros; apply owned_set_recv_queue).
  split; cbn; rewrite ?Ho; try apply Hwf.
  - rewrite queued_push. apply NoDup_cons. split; [done|apply Hwf].
  - intros x. rewrite queued_push. intros [->|Hx]%elem_of_cons; [by eexists|by apply Hwf].
  - intros x o Hx Hxo. destruct (decide (x = p)) as [->|Hne]; [by simplify_eq|].
    apply (wf_recv_buf w Hwf x); [|done]. destruct expected; cbn in Hx; elem_tauto.
  - intros x o Hx Hxo. destruct (decide (x = p)) as [->|Hne]; [by simplify_eq|].
    apply (wf_recv_addr w Hwf x); [|done]. destruct expected; cbn in Hx; elem_tauto.
Qed.

(** The operation as [msg_recv_unexpected] / [msg_recv_expected] fill it. *)
Definition recv_unexpected_op (context callback arg buf buf_size : Z) (op : NaLibp2pOpId) :=
  set_addr null (set_buf buf buf_size (set_context context
    (set_completion (set_callback callback arg NA_CB_RECV_UNEXPECTED) op))).
Definition recv_expected_op (context callback arg buf buf_size source_addr tag : Z) (op : NaLibp2pOpId) :=
  set_addr source_addr (set_tag tag (set_buf buf buf_size (set_context context
    (set_completion (set_callback callback arg NA_CB_RECV_EXPECTED) op)))).

Definition completed (i : cb_info) : NaLibp2pOpId -> NaLibp2pOpId :=
  set_completion (fun c => set_ret NA_SUCCESS (set_info i c)).

Lemma recv_unexpected_run w context callback arg buf buf_size op_id op :
  wf w -> w_ops w !! op_id = Some op -> buf_ok w buf buf_size ->
  let op1 := recv_unexpected_op context callback arg buf buf_size op in
  let w1 := upd_ops <[op_id := op1]> w in
  match unexpected_msg_stash (w_queues w) with
  | [] => na_libp2p_msg_recv_unexpected context callback arg buf buf_size op_id w
          = Done NA_SUCCESS (upd_queues (push_recv false op_id) w1)
  | s :: rest =>
      exists m', recv_written (w_mem w) m' buf buf_size (st_payload s) /\
        na_libp2p_msg_recv_unexpected context callback arg buf buf_size op_id w
        = Done NA_SUCCESS (upd_cbs (fun l => l ++ [(context, op_id)])
            (upd_ops <[op_id := completed (info_recv_unexpected (len (st_payload s))
                                              (st_source_addr s) (st_tag s)) op1]>
            (upd_mem (fun _ => m') (upd_queues (set_unexpected_msg_stash rest) w1))))
  end.
Proof.
  intros Hwf Hop Hb op1 w1. destruct (get_class_spec w Hwf) as (c & Hc & _).
  unfold na_libp2p_msg_recv_unexpected. rewrite (bind_Done _ _ _ _ _ Hc).
  mrun update_op_spec. change (upd_ops <[op_id := _]> w) with w1. mpure. change (w_queues w1) with (w_queues w).
  destruct (unexpected_msg_stash (w_queues w)) as [|s rest]; [done|]. mpure.
  set (w2 := upd_queues (set_unexpected_msg_stash rest) w1).
  destruct (copy_payload_spec w2 (st_payload s) buf buf_size) as (m' & Hcp & Hw); [done|].
  exists m'. split; [done|]. rewrite (bind_Done _ _ _ _ _ Hcp).
  rewrite (bind_Done _ _ _ _ _ (update_op_spec (upd_mem (fun _ => m') w2) op_id _ op1 ltac:(apply lookup_insert_eq))).
  done.
Qed.

Lemma stash_search w t src :
  wf w ->
  find_stashed t src (expected_msg_stash (w_queues w)) w
  = Done (position (stash_matches w t src) (expected_msg_stash (w_queues w))) w.
Proof.
  intros Hwf. apply positionM_pure. intros m Hm. unfold stash_matches. cbn beta zeta.
  destruct src as [pid|]; [|done].
  destruct (wf_owned_live w Hwf (st_source_addr m)) as [Hn [a Ha]].
  { unfold owned. rewrite !elem_of_app. right; left. by apply list_elem_of_fmap_2. }
  rewrite (proj2 (Z.eqb_neq _ _) Hn), Ha. unfold read_addr. unfold_M. by rewrite Ha.
Qed.

(** The peer a receive is restricted to. *)
Definition source_filter (w : World) (source_addr : Z) : option PeerId :=
  if source_addr =? null then None else addr_peer_id <$> w_addrs w !! source_addr.

Lemma source_filter_run w source_addr :
  source_addr = null \/ is_Some (w_addrs w !! source_addr) ->
  (if negb (source_addr =? null)
   then a ← read_addr source_addr; mret (Some (addr_peer_id a)) else mret None : MW (option PeerId)) w
  = Done (source_filter w source_addr) w.
Proof.
  unfold source_filter. destruct (Z.eqb_spec source_addr null) as [->|Hn]; [done|].
  intros [?|[a Ha]]; [done|]. cbn [negb].
  rewrite (bind_Done _ _ _ _ _ (read_addr_spec w source_addr a Ha)). by rewrite Ha.
Qed.

Lemma recv_expected_run w context callback arg buf buf_size source_addr tag op_id op :
  wf w -> w_ops w !! op_id = Some op -> op_id ∉ queued (w_queues w) -> buf_ok w buf buf_size ->
  source_addr = null \/ user_addr w source_addr ->
  let op1 := recv_expected_op context callback arg buf buf_size source_addr tag op in
  let w1 := upd_ops <[op_id := op1]> w in
  match take_first (stash_matches w tag (source_filter w source_addr))
          (expected_msg_stash (w_queues w)) with
  | None => na_libp2p_msg_recv_expected context callback arg buf buf_size source_addr tag op_id w
            = Done NA_SUCCESS (upd_queues (push_recv true op_id) w1)
  | Some (s, rest) =>
      exists m', recv_written (w_mem w) m' buf buf_size (st_payload s) /\
        na_libp2p_msg_recv_expected context callback arg buf buf_size source_addr tag op_id w
        = Done NA_SUCCESS (upd_cbs (fun l => l ++ [(context, op_id)])
            (upd_ops <[op_id := completed (info_recv_expected (len (st_payload s))) op1]>
            (upd_addrs (delete (st_source_addr s))
            (upd_mem (fun _ => m') (upd_queues (set_expected_msg_stash rest) w1)))))
  end.
Proof.
  intros Hwf Hop Hnq Hb Hsrc op1 w1. destruct (get_class_spec w Hwf) as (c & Hc & _).
  unfold na_libp2p_msg_recv_expected. rewrite (bind_Done _ _ _ _ _ Hc).
  mrun update_op_spec. change (upd_ops <[op_id := _]> w) with w1. mpure. change (w_queues w1) with (w_queues w).
  assert (Hwf1 : wf w1) by (eapply wf_upd_op; eauto).
  rewrite (bind_Done _ _ _ _ _ (source_filter_run w1 source_addr
             ltac:(destruct Hsrc as [|[]]; [by left|by right]))).
  change (source_filter w1 source_addr) with (source_filter w source_addr).
  rewrite (bind_Done _ _ _ _ _ (stash_search w1 _ _ Hwf1)).
  change (stash_matches w1) with (stash_matches w). change (w_queues w1) with (w_queues w).
  destruct (position _ _) as [i|] eqn:E.
  - destruct (position_Some _ _ _ E) as (s & rest & Hr & Ht). rewrite Ht, Hr. cbn [unwrap]. mpure.
    set (w2 := upd_queues (set_expected_msg_stash rest) w1).
    destruct (copy_payload_spec w2 (st_payload s) buf buf_size) as (m' & Hcp & Hw); [done|].
    exists m'. split; [done|]. rewrite (bind_Done _ _ _ _ _ Hcp).
    destruct (wf_owned_live w Hwf (st_source_addr s)) as [Hn Hl].
    { unfold owned. rewrite !elem_of_app. right; left. rewrite (take_first_perm _ _ _ _ Ht).
      apply elem_of_cons. by left. }
    rewrite (proj2 (Z.eqb_neq _ _) Hn). cbn [negb when].
    rewrite (bind_Done _ _ _ _ _ (free_addr_spec (upd_mem (fun _ => m') w2) (st_source_addr s) Hl)).
    rewrite (bind_Done _ _ _ _ _ (update_op_spec (upd_addrs _ (upd_mem (fun _ => m') w2)) op_id _ op1
               ltac:(apply lookup_insert_eq))). done.
  - by rewrite (position_None _ _ E).
Qed.

(** * Preservation of the invariant *)

Definition stash_of (expected : bool) (q : OperationQueues) : list StashedMessage :=
  if expected then expected_msg_stash q else unexpected_msg_stash q.
Definition set_stash (expected : bool) (l : list StashedMessage) : OperationQueues -> OperationQueues :=
  if expected then set_expected_msg_stash l else set_unexpected_msg_stash l.

Lemma owned_unstash expected q cs s rest :
  stash_of expected q ≡ₚ s :: rest ->
  owned q cs ≡ₚ st_source_addr s :: owned (set_stash expected rest q) cs.
Proof.
  unfold owned. destruct expected; cbn; intros Hs; rewrite Hs; cbn; [|done].
  by rewrite <-Permutation_middle.
Qed.

(** A stashed message leaves the stash; its address is no longer referenced. *)
Lemma wf_unstash w expected s rest :
  wf w -> stash_of expected (w_queues w) ≡ₚ s :: rest ->
  wf (upd_queues (set_stash expected rest) w) /\
  unreferenced (upd_queues (set_stash expected rest) w) (st_source_addr s).
Proof.
  intros Hwf Hs. pose proof (owned_unstash _ _ (w_completions w) _ _ Hs) as Ho.
  pose proof (wf_owned_nodup w Hwf) as Hnd. rewrite Ho in Hnd. apply NoDup_cons in Hnd as [Hn Hnd].
  split.
  - assert (H : wf (upd_queues (fun _ => set_stash expected rest (w_queues w))
                     (upd_completions (fun _ => w_completions w) w))).
    { apply wf_requeue; try done; try (by destruct expected).
      - destruct expected; apply Hwf.
      - intros a Ha. left. rewrite Ho. apply elem_of_cons. by right.
      - apply Hwf. }
    eapply wf_ext; [..|exact H]; try done. apply Hwf.
  - split; [done|]. cbn. intros p op Hp Hop Heq.
    assert (Hp' : p ∈ expected_recv_ops (w_queues w)) by (by destruct expected).
    destruct (wf_owned_live w Hwf (st_source_addr s)) as [Hnn _].
    { rewrite Ho. apply elem_of_cons. by left. }
    destruct (wf_recv_addr w Hwf p op Hp' Hop) as [?|[_ Hno]]; [congruence|].
    apply Hno. rewrite Heq, Ho. apply elem_of_cons. by left.
Qed.

Lemma same_shape_completion f op : same_shape op (set_completion f op).
Proof. done. Qed.

Lemma wf_upd_cbs w f : wf w -> wf (upd_cbs f w).
Proof. intros H. eapply wf_ext; [..|exact H]; try done. apply H. Qed.

Lemma wf_upd_efd w f : wf w -> wf (upd_efd f w).
Proof. intros H. eapply wf_ext; [..|exact H]; try done. apply H. Qed.

Lemma wf_upd_cmds w f : wf w -> wf (upd_cmds f w).
Proof. intros H. eapply wf_ext; [..|exact H]; try done. apply H. Qed.

Lemma recv_unexpected_wf w context callback arg buf buf_size op_id :
  wf w -> op_idle w op_id -> buf_ok w buf buf_size ->
  exists w', na_libp2p_msg_recv_unexpected context callback arg buf buf_size op_id w
             = Done NA_SUCCESS w' /\ wf w'.
Proof.
  intros Hwf [[op Hop] Hnq] Hb.
  pose proof (recv_unexpected_run w context callback arg buf buf_size op_id op Hwf Hop Hb) as Hrun.
  cbv zeta in Hrun. set (op1 := recv_unexpected_op _ _ _ _ _ _) in Hrun.
  set (w1 := upd_ops <[op_id := op1]> w) in Hrun.
  assert (Hwf1 : wf w1) by (eapply wf_upd_op; eauto).
  assert (Hop1 : w_ops w1 !! op_id = Some op1) by apply lookup_insert_eq.
  destruct (unexpected_msg_stash (w_queues w)) as [|s rest] eqn:E.
  - rewrite Hrun. eexists. split; [done|]. eapply wf_post; eauto.
  - destruct Hrun as (m' & (Hd & _) & ->). eexists. split; [done|].
    destruct (wf_unstash w1 false s rest Hwf1) as [Hwf2 _]; [cbn; by rewrite E|].
    apply wf_upd_cbs. eapply wf_upd_op; [by apply wf_upd_mem|exact Hop1|by left].
Qed.

Lemma recv_expected_wf w context callback arg buf buf_size source_addr tag op_id :
  wf w -> op_idle w op_id -> buf_ok w buf buf_size ->
  source_addr = null \/ user_addr w source_addr ->
  exists w', na_libp2p_msg_recv_expected context callback arg buf buf_size source_addr tag op_id w
             = Done NA_SUCCESS w' /\ wf w'.
Proof.
  intros Hwf [[op Hop] Hnq] Hb Hsrc.
  pose proof (recv_expected_run w context callback arg buf buf_size source_addr tag op_id op
                Hwf Hop Hnq Hb Hsrc) as Hrun.
  cbv zeta in Hrun. set (op1 := recv_expected_op _ _ _ _ _ _ _ _) in Hrun.
  set (w1 := upd_ops <[op_id := op1]> w) in Hrun.
  assert (Hwf1 : wf w1) by (eapply wf_upd_op; eauto).
  assert (Hop1 : w_ops w1 !! op_id = Some op1) by apply lookup_insert_eq.
  destruct (take_first _ _) as [[s rest]|] eqn:E.
  - destruct Hrun as (m' & (Hd & _) & ->). eexists. split; [done|].
    destruct (wf_unstash w1 true s rest Hwf1) as [Hwf2 Hu]; [by apply (take_first_perm _ _ _ _ E)|].
    apply wf_upd_cbs. eapply wf_upd_op; [|exact Hop1|by left].
    apply wf_free; [by apply wf_upd_mem|exact Hu].
  - rewrite Hrun. eexists. split; [done|]. by eapply wf_post.
Qed.

(** ** Sending *)

Lemma copy_from_spec w p n :
  0 <= n -> mapped (w_mem w) p n ->
  exists bs, copy_from p n w = Done bs w /\ len bs = n /\ mem_load (w_mem w) p (Z.to_nat n) = Some bs.
Proof.
  intros Hn Hm. destruct (mem_load_spec (w_mem w) p (Z.to_nat n)) as (bs & Hl & Hlen & _).
  { by rewrite Z2Nat.id. }
  exists bs. split_and!; [|unfold len; lia|done]. unfold copy_from. unfold_M. by rewrite Hl.
Qed.

(** The payload a send captures. *)
Definition sent_payload (m : memory) (buf buf_size : Z) (payload : list byte) : Prop :=
  if (buf_size >? 0) && negb (buf =? null)
  then mem_load m buf (Z.to_nat buf_size) = Some payload else payload = [].

Lemma send_payload_run w buf buf_size :
  buf_ok w buf buf_size ->
  exists payload, (if (buf_size >? 0) && negb (buf =? null)
                   then copy_from buf buf_size else mret [] : MW (list byte)) w = Done payload w /\
    sent_payload (w_mem w) buf buf_size payload.
Proof.
  intros Hb. unfold sent_payload.
  destruct (Z.gtb_spec buf_size 0) as [Hs|Hs]; destruct (Z.eqb_spec buf null) as [Hn|Hn]; cbn [andb negb];
    try (by exists []).
  destruct Hb as [|Hb]; [done|]. destruct (copy_from_spec w buf buf_size) as (bs & ? & _ & ?); [lia|done|].
  by exists bs.
Qed.

Definition push_command (c : Command) (w : World) : World :=
  if w_loop_alive w then upd_cmds (fun l => l ++ [c]) w else w.

Lemma send_command_run c w : send_command c w = Done tt (push_command c w).
Proof. unfold send_command, push_command. unfold_M. by destruct (w_loop_alive w). Qed.

Lemma wf_push_command c w : wf w -> wf (push_command c w).
Proof. intros H. unfold push_command. case_match; [by apply wf_upd_cmds|done]. Qed.

Lemma msg_send_unexpected_run w context callback arg buf buf_size dest_addr tag op_id op dest :
  wf w -> w_ops w !! op_id = Some op -> w_addrs w !! dest_addr = Some dest -> buf_ok w buf buf_size ->
  exists cls payload, w_class w = Some cls /\ sent_payload (w_mem w) buf buf_size payload /\
    na_libp2p_msg_send_unexpected context callback arg buf buf_size dest_addr tag op_id w
    = Done NA_SUCCESS (push_command (SendMessage (addr_peer_id dest) Unexpected tag payload op_id
                                       (addr_peer_id (cls_self_addr cls)))
        (upd_ops <[op_id := set_tag tag (set_context context
           (set_completion (set_callback callback arg NA_CB_SEND_UNEXPECTED) op))]> w)).
Proof.
  intros Hwf Hop Hd Hb. destruct (get_class_spec w Hwf) as (c & Hc & Hc').
  unfold na_libp2p_msg_send_unexpected. rewrite (bind_Done _ _ _ _ _ Hc).
  mrun read_addr_spec. mrun update_op_spec.
  destruct (send_payload_run (upd_ops <[op_id := set_tag tag (set_context context
     (set_completion (set_callback callback arg NA_CB_SEND_UNEXPECTED) op))]> w) buf buf_size Hb)
    as (payload & Hp & Hs).
  exists c, payload. split_and!; [done|done|].
  rewrite (bind_Done _ _ _ _ _ Hp), (bind_Done _ _ _ _ _ (send_command_run _ _)). done.
Qed.

Lemma msg_send_expected_run w context callback arg buf buf_size dest_addr tag op_id op dest :
  wf w -> w_ops w !! op_id = Some op -> w_addrs w !! dest_addr = Some dest -> buf_ok w buf buf_size ->
  exists cls payload, w_class w = Some cls /\ sent_payload (w_mem w) buf buf_size payload /\
    na_libp2p_msg_send_expected context callback arg buf buf_size dest_addr tag op_id w
    = Done NA_SUCCESS (push_command (SendMessage (addr_peer_id dest) Expected tag payload op_id
                                       (addr_peer_id (cls_self_addr cls)))
        (upd_ops <[op_id := set_tag tag (set_context context
           (set_completion (set_callback callback arg NA_CB_SEND_EXPECTED) op))]> w)).
Proof.
  intros Hwf Hop Hd Hb. destruct (get_class_spec w Hwf) as (c & Hc & Hc').
  unfold na_libp2p_msg_send_expected. rewrite (bind_Done _ _ _ _ _ Hc).
  mrun read_addr_spec. mrun update_op_spec.
  destruct (send_payload_run (upd_ops <[op_id := set_tag tag (set_context context
     (set_completion (set_callback callback arg NA_CB_SEND_EXPECTED) op))]> w) buf buf_size Hb)
    as (payload & Hp & Hs).
  exists c, payload. split_and!; [done|done|].
  rewrite (bind_Done _ _ _ _ _ Hp), (bind_Done _ _ _ _ _ (send_command_run _ _)). done.
Qed.

End Safety.

#[export] Hint Resolve wf_upd_cbs wf_upd_efd wf_upd_cmds wf_push_command handle_incoming_msg_wf recv_unexpected_wf
  recv_expected_wf : na_wf.
