(* ===== verification/Progress.v ===== *)
(** Polling and cancellation: what [na_libp2p_poll] and [na_libp2p_cancel] do to
    a well-formed state, item by item. *)
From Stdlib Require Import ZArith Lia.
From S2P Require Import Prelude.
From S2P Require Import Frame.
From S2P Require Import RustStr.
From S2P Require Import Libp2p.
From S2P Require Import Memory.
From S2P Require Import Protocol.
From S2P Require Import State.
From S2P Require Import Messaging.
From S2P Require Import Invariant.
From S2P Require Import Safety.
From S2P Require Import DemoWorld.

Section Progress.
Context {LP : Libp2p} {OS : Os} {NB : NaBindings}.
Abbreviation MW := (M World).

(** * Polling *)

Definition cb_type (op : NaLibp2pOpId) : Z := cd_type (op_completion op).

(** The callback info a completion leaves in its operation. *)
Definition polled_op (c : CompletionItem) (op : NaLibp2pOpId) : NaLibp2pOpId :=
  let op1 := set_completion (set_ret (ci_result c)) op in
  match ci_recv_info c with
  | None => op1
  | Some ri =>
      if cb_type op =? NA_CB_RECV_UNEXPECTED then
        set_completion (set_info (info_recv_unexpected (ri_actual_size ri) (ri_source_addr ri) (ri_tag ri))) op1
      else if cb_type op =? NA_CB_RECV_EXPECTED then
        set_completion (set_info (info_recv_expected (ri_actual_size ri))) op1
      else op1
  end.

(** The source address survives only in an unexpected receive's callback. *)
Definition polled_addrs (c : CompletionItem) (op : NaLibp2pOpId) (m : gmap Z NaLibp2pAddr) :=
  match ci_recv_info c with
  | None => m
  | Some ri => if cb_type op =? NA_CB_RECV_UNEXPECTED then m else delete (ri_source_addr ri) m
  end.

Definition op_ctx (w : World) (p : Z) : Z := from_option op_context 0 (w_ops w !! p).

Lemma polled_op_shape c op : same_shape op (polled_op c op) /\ op_context (polled_op c op) = op_context op.
Proof. unfold polled_op. by repeat case_match. Qed.

(** What a poll never changes of an operation: the request it stands for. *)
Definition same_request (op op' : NaLibp2pOpId) : Prop :=
  same_shape op op' /\ op_tag op' = op_tag op /\ op_context op' = op_context op.

Lemma polled_op_request c op : same_request op (polled_op c op).
Proof. unfold polled_op. by repeat case_match. Qed.

Lemma same_request_trans o1 o2 o3 : same_request o1 o2 -> same_request o2 o3 -> same_request o1 o3.
Proof. intros [(?&?&?) [??]] [(?&?&?) [??]]. repeat split; congruence. Qed.

Lemma poll_one_run w c :
  is_Some (w_ops w !! ci_op_ptr c) ->
  (forall ri, ci_recv_info c = Some ri -> ri_source_addr ri <> null /\ is_Some (w_addrs w !! ri_source_addr ri)) ->
  exists op, w_ops w !! ci_op_ptr c = Some op /\
    poll_one c w = Done tt
      (upd_cbs (fun l => l ++ [(op_context op, ci_op_ptr c)])
      (upd_addrs (polled_addrs c op) (upd_ops <[ci_op_ptr c := polled_op c op]> w))).
Proof.
  intros [op Hop] Hri. exists op. split; [done|].
  unfold poll_one. set (p := ci_op_ptr c) in *. set (op1 := set_completion (set_ret (ci_result c)) op).
  rewrite (bind_Done _ _ _ _ _ (update_op_spec w p _ op Hop)). fold op1.
  assert (H1 : w_ops (upd_ops <[p := op1]> w) !! p = Some op1) by apply lookup_insert_eq.
  assert (Hctx : forall o, op_context o = op_context op -> forall w', w_ops w' !! p = Some o ->
    (o ← read_op p; na_cb_completion_add (op_context o) p) w'
    = Done tt (upd_cbs (fun l => l ++ [(op_context op, p)]) w')).
  { intros o Ho w' Hw'. rewrite (bind_Done _ _ _ _ _ (read_op_spec w' p o Hw')). by rewrite Ho. }
  assert (Hins : forall o, upd_ops <[p := o]> (upd_ops <[p := op1]> w) = upd_ops <[p := o]> w).
  { intros o. unfold upd_ops. cbn. by rewrite insert_insert_eq. }
  assert (Hid : forall w', upd_addrs (fun m => m) w' = w') by (by intros []).
  unfold polled_op, polled_addrs. fold op1. destruct (ci_recv_info c) as [ri|] eqn:E.
  2: { rewrite bind_mret, (Hctx op1 eq_refl _ H1). by rewrite Hid. }
  destruct (Hri ri eq_refl) as [Hn Hl].
  assert (Hty : cd_type (op_completion op1) = cb_type op) by done.
  destruct (cb_type op =? NA_CB_RECV_UNEXPECTED) eqn:Eu; [|destruct (cb_type op =? NA_CB_RECV_EXPECTED) eqn:Ee].
  all: unfold mbind at 1, M_bind at 1; rewrite (bind_Done _ _ _ _ _ (read_op_spec _ p op1 H1));
    cbv zeta; rewrite Hty, ?Eu, ?Ee, ?(proj2 (Z.eqb_neq _ _) Hn); cbn [negb when].
  - rewrite (update_op_spec _ p _ op1 H1), Hins.
    etransitivity; [eapply Hctx; [|apply lookup_insert_eq]; done|]. by rewrite Hid.
  - rewrite (bind_Done _ _ _ _ _ (update_op_spec _ p _ op1 H1)), Hins, free_addr_spec by done.
    eapply Hctx; [|apply lookup_insert_eq]; done.
  - rewrite free_addr_spec by done. eapply Hctx; [|apply lookup_insert_eq]; done.
Qed.

Lemma unreferenced_upd_op w p op op' a :
  w_ops w !! p = Some op -> same_shape op op' -> unreferenced w a -> unreferenced (upd_ops <[p := op']> w) a.
Proof.
  intros Hp (_ & _ & Hs) [Hu1 Hu2]. split; [done|]. cbn. intros q o Hq.
  destruct (decide (p = q)) as [<-|Hne].
  - rewrite lookup_insert_eq. intros [= <-]. rewrite Hs. by apply (Hu2 p).
  - rewrite lookup_insert_ne by done. by apply Hu2.
Qed.

(** Taking the first completion out of the channel and processing it. *)
Lemma poll_one_wf w c rest :
  wf w -> w_completions w = c :: rest ->
  exists op w', w_ops w !! ci_op_ptr c = Some op /\
    poll_one c (upd_completions (fun _ => rest) w) = Done tt w' /\ wf w' /\
    w_completions w' = rest /\ w_cbs w' = w_cbs w ++ [(op_context op, ci_op_ptr c)] /\
    w_ops w' = <[ci_op_ptr c := polled_op c op]> (w_ops w) /\
    w_mem w' = w_mem w /\ w_queues w' = w_queues w /\ w_efd w' = w_efd w /\
    (forall a, a ∉ completion_addrs [c] -> w_addrs w' !! a = w_addrs w !! a) /\
    w_addrs w' = polled_addrs c op (w_addrs w).
Proof.
  intros Hwf Hc. set (w1 := upd_completions (fun _ => rest) w).
  assert (Ho : owned (w_queues w) (w_completions w) ≡ₚ
    (match ci_recv_info c with Some ri => [ri_source_addr ri] | None => [] end) ++ owned (w_queues w) rest).
  { rewrite Hc. unfold owned, completion_addrs. cbn. destruct (ci_recv_info c); cbn; [|done].
    by rewrite <-!Permutation_middle. }
  assert (Hwf1 : wf w1).
  { assert (H : wf (upd_queues (fun _ => w_queues w) (upd_completions (fun _ => rest) w))).
    { pose proof (wf_owned_nodup w Hwf) as Hnd. rewrite Ho in Hnd. apply NoDup_app in Hnd as (_ & _ & Hnd).
      apply wf_requeue; try done; try apply Hwf.
      - intros a Ha. left. rewrite Ho. apply elem_of_app. by right.
      - intros x Hx. apply (wf_completions w Hwf). rewrite Hc. by apply elem_of_cons; right. }
    eapply wf_ext; [..|exact H]; try done. apply Hwf. }
  destruct (poll_one_run w1 c) as (op & Hop & Hrun).
  { apply (wf_completions w Hwf). rewrite Hc. by apply elem_of_cons; left. }
  { intros ri Hri. rewrite Hri in Ho. apply (wf_owned_live w Hwf). rewrite Ho. by apply elem_of_cons; left. }
  exists op. eexists. split_and!; [done|exact Hrun| |done|done|done|done|done|done| |done].
  2: { intros a. unfold completion_addrs, polled_addrs. cbn. destruct (ci_recv_info c); cbn; [|done].
    case_match; [done|]. intros Ha%not_elem_of_cons. apply lookup_delete_ne. naive_solver. }
  apply wf_upd_cbs. assert (Hwf2 : wf (upd_ops <[ci_op_ptr c := polled_op c op]> w1)).
  { eapply wf_upd_op; [done|done|]. right. apply polled_op_shape. }
  unfold polled_addrs. destruct (ci_recv_info c) as [ri|] eqn:E.
  2: eapply wf_ext; [..|exact Hwf2]; try done; apply Hwf.
  case_match; [eapply wf_ext; [..|exact Hwf2]; try done; apply Hwf|].
  change (upd_addrs (fun m => delete (ri_source_addr ri) m)) with (upd_addrs (delete (ri_source_addr ri))).
  apply wf_free, (unreferenced_upd_op _ _ op); [done|done|apply polled_op_shape|].
  cbn in Ho. split; cbn.
  - pose proof (wf_owned_nodup w Hwf) as Hnd. rewrite Ho in Hnd. by apply NoDup_cons in Hnd as [? _].
  - intros p o Hp Hpo Heq. destruct (wf_owned_live w Hwf (ri_source_addr ri)) as [Hn _].
    { rewrite Ho. by apply elem_of_cons; left. }
    destruct (wf_recv_addr w Hwf p o Hp Hpo) as [?|[_ Hno]]; [congruence|].
    apply Hno. rewrite Heq, Ho. by apply elem_of_cons; left.
Qed.

(** The whole drain: every item in the channel, in order. *)
Lemma poll_drain_run w fuel count :
  wf w -> in_width 32 count -> (length (w_completions w) < fuel)%nat ->
  exists w', poll_drain fuel count w = Done (wrap 32 (count + len (w_completions w))) w' /\ wf w' /\
    w_completions w' = [] /\
    w_cbs w' = w_cbs w ++ map (fun c => (op_ctx w (ci_op_ptr c), ci_op_ptr c)) (w_completions w) /\
    (forall p, p ∉ map ci_op_ptr (w_completions w) -> w_ops w' !! p = w_ops w !! p) /\
    (NoDup (map ci_op_ptr (w_completions w)) -> forall c op, c ∈ w_completions w ->
       w_ops w !! ci_op_ptr c = Some op -> w_ops w' !! ci_op_ptr c = Some (polled_op c op)) /\
    w_mem w' = w_mem w /\ w_queues w' = w_queues w /\ w_efd w' = w_efd w /\
    (forall p op, w_ops w !! p = Some op -> exists op', w_ops w' !! p = Some op' /\ same_request op op') /\
    (forall a, a ∉ completion_addrs (w_completions w) -> w_addrs w' !! a = w_addrs w !! a).
Proof.
  revert w count. induction fuel as [|fuel IH]; intros w count Hwf Hcw Hf; [lia|].
  rewrite poll_drain_round. destruct (w_completions w) as [|c rest] eqn:Ec.
  { exists w. rewrite len_nil, Z.add_0_r, wrap_small by done. cbn. rewrite app_nil_r.
    split_and!; try done; [intros _ c op Hc; by apply elem_of_nil in Hc|].
    intros p op Hp. by exists op. }
  destruct (poll_one_wf w c rest Hwf Ec) as (op & w1 & Hop & Hrun & Hwf1 & Hc1 & Hcb1 & Ho1 & Hm1 & Hq1 & He1 & Ha1 & _).
  rewrite (bind_Done _ _ _ _ _ Hrun).
  destruct (IH w1 (wrap 32 (count + 1)) Hwf1) as (w' & Hd & Hwf' & Hc' & Hcb' & Hoth & Hpol & Hm' & Hq' & He' & Hreq & Ha').
  { by apply wrap_in_width. }
  { rewrite Hc1. cbn in Hf. lia. }
  rewrite Hc1 in *. exists w'. rewrite len_cons. split_and!; try congruence.
  - rewrite Hd. f_equal. rewrite wrap_add_l. f_equal. lia.
  - rewrite Hcb', Hcb1, <-app_assoc. cbn. f_equal. f_equal.
    + unfold op_ctx. by rewrite Hop.
    + apply map_ext_in. intros c' _. f_equal. unfold op_ctx. rewrite Ho1.
      destruct (decide (ci_op_ptr c = ci_op_ptr c')) as [<-|Hne].
      * rewrite lookup_insert_eq, Hop. apply polled_op_shape.
      * by rewrite lookup_insert_ne.
  - intros p Hp. cbn in Hp. apply not_elem_of_cons in Hp as [Hp1 Hp2].
    rewrite Hoth, Ho1 by done. by apply lookup_insert_ne.
  - cbn. intros [Hn1 Hn2]%NoDup_cons c' op' [->|Hc'']%elem_of_cons Hop'.
    + rewrite Hoth by done. rewrite Ho1, lookup_insert_eq. congruence.
    + apply Hpol; [done|done|]. rewrite Ho1, lookup_insert_ne; [done|].
      intros Heq. apply Hn1. rewrite Heq. by apply list_elem_of_fmap_2.
  - intros p o Hp. destruct (decide (ci_op_ptr c = p)) as [<-|Hne].
    + destruct (Hreq (ci_op_ptr c) (polled_op c op)) as (o' & Ho' & Hs); [by rewrite Ho1, lookup_insert_eq|].
      exists o'. split; [done|]. simplify_eq. by eapply same_request_trans; [apply polled_op_request|].
    + apply Hreq. by rewrite Ho1, lookup_insert_ne.
  - intros a Ha. change (c :: rest) with ([c] ++ rest) in Ha. unfold completion_addrs in *.
    rewrite omap_app, not_elem_of_app in Ha. destruct Ha. rewrite Ha' by done. by apply Ha1.
Qed.

(** What a drain leaves of an operation: the completions that name it, in order. *)
Definition polled_by (p : Z) (cs : list CompletionItem) (op : NaLibp2pOpId) : NaLibp2pOpId :=
  foldl (fun op c => if ci_op_ptr c =? p then polled_op c op else op) op cs.

(** The source addresses it frees: those of receives other than unexpected ones. *)
Definition freed_sources (ops : gmap Z NaLibp2pOpId) (cs : list CompletionItem) : list Z :=
  omap (fun c => ri ← ci_recv_info c; op ← ops !! ci_op_ptr c;
                 if cb_type op =? NA_CB_RECV_UNEXPECTED then None else Some (ri_source_addr ri)) cs.

Lemma polled_op_type c op : cb_type (polled_op c op) = cb_type op.
Proof. unfold polled_op, cb_type. by repeat case_match. Qed.

Lemma freed_sources_polled ops p op c cs :
  ops !! p = Some op -> freed_sources (<[p := polled_op c op]> ops) cs = freed_sources ops cs.
Proof.
  intros Hp. unfold freed_sources. apply list_omap_ext. apply Forall2_same_length_lookup. split; [done|]. intros i x y Hx Hy.
  simplify_eq. destruct (ci_recv_info x); [|done]. cbn. destruct (decide (p = ci_op_ptr x)) as [->|Hne].
  - rewrite lookup_insert_eq, Hp. cbn. by rewrite polled_op_type.
  - by rewrite lookup_insert_ne.
Qed.

(** Everything outside the channel, the callbacks, the operations and the
    addresses. *)
Definition poll_frame (w : World) :=
  (w_mem w, w_handles w, w_queues w, w_registry w, w_cmds w, w_class w, w_loop_alive w, w_next_oneshot w).

Lemma poll_drain_exact w fuel count w' n :
  wf w -> (length (w_completions w) < fuel)%nat -> poll_drain fuel count w = Done n w' ->
  (forall p, w_ops w' !! p = polled_by p (w_completions w) <$> w_ops w !! p) /\
  (forall a, w_addrs w' !! a = if decide (a ∈ freed_sources (w_ops w) (w_completions w)) then None else w_addrs w !! a) /\
  poll_frame w' = poll_frame w.
Proof.
  revert w count. induction fuel as [|fuel IH]; intros w count Hwf Hf; [lia|].
  rewrite poll_drain_round. destruct (w_completions w) as [|c rest] eqn:Ec.
  { intros [= _ <-]. split_and!; [intros p; by destruct (w_ops w !! p)| |done].
    intros a. rewrite decide_False; [done|]. apply not_elem_of_nil. }
  destruct (poll_one_wf w c rest Hwf Ec) as (op & w1 & Hop & Hrun & Hwf1 & Hc1 & _ & Ho1 & _ & _ & _ & _ & Ha1).
  rewrite (bind_Done _ _ _ _ _ Hrun). intros Hd. destruct (IH w1 _ Hwf1 ltac:(rewrite Hc1; cbn in Hf; lia) Hd) as (H1 & H2 & H3).
  rewrite Hc1 in *. split_and!.
  - intros p. rewrite H1, Ho1. unfold polled_by. cbn [foldl]. destruct (Z.eqb_spec (ci_op_ptr c) p) as [<-|Hne].
    + rewrite lookup_insert_eq, Hop. done.
    + by rewrite lookup_insert_ne.
  - intros a. rewrite H2, Ha1, Ho1, (freed_sources_polled _ _ _ _ _ Hop). unfold freed_sources, polled_addrs. cbn [omap list_omap].
    destruct (ci_recv_info c) as [ri|]; cbn; [|done]. rewrite Hop. cbn. destruct (cb_type op =? NA_CB_RECV_UNEXPECTED); [done|].
    destruct (decide (a = ri_source_addr ri)) as [->|Hne].
    + rewrite lookup_delete_eq, (decide_True (P := _ ∈ _ :: _)) by apply list_elem_of_here. by case_decide.
    + rewrite lookup_delete_ne by done. apply decide_ext. rewrite elem_of_cons. naive_solver.
  - rewrite H3. assert (Hk : respects (kept poll_frame) (poll_one c)) by frame. exact (Hk _ _ _ Hrun).
Qed.

(** A relation that taking an item and processing it respect. *)
Lemma poll_drain_frame R {HR : PreOrder R} fuel :
  (forall l w, R w (upd_completions l w)) -> (forall c, respects R (poll_one c)) ->
  forall count, respects R (poll_drain fuel count).
Proof.
  intros Hc Hp. induction fuel as [|fuel IH]; intros count; [apply respects_ret, HR|]. rewrite poll_drain_S. unfold try_recv.
  repeat frame_step; auto.
Qed.

(** * Cancellation *)

Lemma complete_canceled_run w context p op :
  w_ops w !! p = Some op ->
  complete_canceled context p w
  = Done tt (upd_cbs (fun l => l ++ [(context, p)])
      (upd_ops <[p := set_completion (set_ret NA_CANCELED) op]> w)).
Proof. intros H. unfold complete_canceled. by rewrite (bind_Done _ _ _ _ _ (update_op_spec w p _ op H)). Qed.

(** The queues without [p]. *)
Definition dequeue (p : Z) (q : OperationQueues) : OperationQueues :=
  let keep := filter (fun x => x <> p) in
  mkQueues (keep (unexpected_recv_ops q)) (keep (expected_recv_ops q)) (unexpected_msg_stash q)
    (expected_msg_stash q) (keep (pending_rma_ops q)).

Lemma filter_ne_id (p : Z) (l : list Z) : p ∉ l -> filter (fun x => x <> p) l = l.
Proof.
  induction l as [|x l IH]; intros H; [done|]. apply not_elem_of_cons in H as [H1 H2].
  rewrite filter_cons_True by congruence. by rewrite IH.
Qed.

Lemma position_eqb_None (p : Z) (l : list Z) : position (fun x => x =? p) l = None -> p ∉ l.
Proof.
  intros H%position_None Hin. rewrite take_first_None in H. specialize (H p Hin). lia.
Qed.

Lemma position_eqb_Some (p : Z) (l : list Z) i :
  NoDup l -> position (fun x => x =? p) l = Some i ->
  p ∈ l /\ remove_idx i l = filter (fun x => x <> p) l.
Proof.
  intros Hnd Hp. destruct (position_Some _ _ _ Hp) as (x & r & Hr & Ht).
  rewrite (remove_idx_position _ _ _ _ _ Hp Ht).
  apply take_first_Some in Ht as (l1 & l2 & -> & -> & Hx & _). apply Z.eqb_eq in Hx as ->.
  apply NoDup_app in Hnd as (_ & Hd & [Hn _]%NoDup_cons).
  rewrite filter_app, filter_cons_False by (intros H; by apply H).
  rewrite !filter_ne_id; [|done|].
  - split; [|done]. rewrite elem_of_app, elem_of_cons. auto.
  - intros H. apply (Hd p H). by apply elem_of_cons; left.
Qed.

Lemma wf_dequeue w p : wf w -> wf (upd_queues (dequeue p) w).
Proof.
  intros Hwf.
  assert (H : wf (upd_queues (fun _ => dequeue p (w_queues w)) (upd_completions (fun _ => w_completions w) w))).
  { assert (Hq : queued (dequeue p (w_queues w)) = filter (fun x => x <> p) (queued (w_queues w))).
    { unfold queued, dequeue. cbn. by rewrite !filter_app. }
    apply wf_requeue; try done; try apply Hwf.
    - rewrite Hq. apply NoDup_filter, Hwf.
    - intros x. rewrite Hq, list_elem_of_filter. tauto.
    - intros x. cbn. rewrite !elem_of_app, !list_elem_of_filter. tauto.
    - intros x. cbn. rewrite list_elem_of_filter. tauto.
    - intros a Ha. by left. }
  eapply wf_ext; [..|exact H]; try done. apply Hwf.
Qed.

Lemma cancel_run w context p :
  wf w ->
  if decide (p ∈ queued (w_queues w)) then
    exists op, w_ops w !! p = Some op /\
      na_libp2p_cancel context p w
      = Done NA_SUCCESS (upd_cbs (fun l => l ++ [(context, p)])
          (upd_ops <[p := set_completion (set_ret NA_CANCELED) op]> (upd_queues (dequeue p) w)))
  else na_libp2p_cancel context p w = Done NA_SUCCESS w.
Proof.
  intros Hwf. destruct (get_class_spec w Hwf) as (c & Hc & _).
  unfold na_libp2p_cancel. rewrite (bind_Done _ _ _ _ _ Hc), bind_gets. cbv zeta.
  pose proof (wf_queued_nodup w Hwf) as Hnd. unfold queued in *.
  apply NoDup_app in Hnd as (Hn1 & Hd1 & (Hn2 & Hd2 & Hn3)%NoDup_app).
  assert (Hstep : forall q, p ∈ queued (w_queues w) -> q = dequeue p (w_queues w) ->
    exists op, w_ops w !! p = Some op /\
      (_ ← complete_canceled context p; mret NA_SUCCESS : MW Z) (upd_queues (fun _ => q) w)
      = Done NA_SUCCESS (upd_cbs (fun l => l ++ [(context, p)])
          (upd_ops <[p := set_completion (set_ret NA_CANCELED) op]> (upd_queues (dequeue p) w)))).
  { intros q Hin ->. destruct (wf_queued_live w Hwf p Hin) as [op Hop]. exists op. split; [done|].
    by rewrite (bind_Done _ _ _ _ _ (complete_canceled_run (upd_queues _ w) context p op Hop)). }
  unfold queued in Hstep.
  destruct (position _ (unexpected_recv_ops _)) as [i|] eqn:E1;
    [|destruct (position _ (expected_recv_ops _)) as [i|] eqn:E2;
      [|destruct (position _ (pending_rma_ops _)) as [i|] eqn:E3]].
  - destruct (position_eqb_Some _ _ _ Hn1 E1) as [Hin Hr]. rewrite decide_True by elem_tauto.
    rewrite bind_modify. apply Hstep; [elem_tauto|]. unfold dequeue, set_unexpected_recv_ops. rewrite Hr.
    rewrite (filter_ne_id p (expected_recv_ops _)), (filter_ne_id p (pending_rma_ops _)); [done| |];
      intros Hx; apply (Hd1 p Hin); elem_tauto.
  - apply position_eqb_None in E1. destruct (position_eqb_Some _ _ _ Hn2 E2) as [Hin Hr].
    rewrite decide_True by elem_tauto.
    rewrite bind_modify. apply Hstep; [elem_tauto|]. unfold dequeue, set_expected_recv_ops. rewrite Hr.
    rewrite (filter_ne_id p (unexpected_recv_ops _)), (filter_ne_id p (pending_rma_ops _)); [done| |done].
    intros Hx. by apply (Hd2 p Hin).
  - apply position_eqb_None in E1, E2. destruct (position_eqb_Some _ _ _ Hn3 E3) as [Hin Hr].
    rewrite decide_True by elem_tauto.
    rewrite bind_modify. apply Hstep; [elem_tauto|]. unfold dequeue, set_pending_rma_ops. rewrite Hr.
    by rewrite (filter_ne_id p (unexpected_recv_ops _)), (filter_ne_id p (expected_recv_ops _)).
  - apply position_eqb_None in E1, E2, E3. rewrite decide_False; [done|].
    rewrite !elem_of_app. tauto.
Qed.

Lemma cancel_wf w context p :
  wf w -> exists w', na_libp2p_cancel context p w = Done NA_SUCCESS w' /\ wf w'.
Proof.
  intros Hwf. pose proof (cancel_run w context p Hwf) as H. case_decide; [|by eauto].
  destruct H as (op & Hop & ->). eexists. split; [done|].
  apply wf_upd_cbs. eapply wf_upd_op; [by apply wf_dequeue|done|]. right. apply same_shape_completion.
Qed.

(** Everything a poll does. *)
Lemma poll_run w :
  wf w ->
  exists w', na_libp2p_poll w = Done (NA_SUCCESS, wrap 32 (len (w_completions w))) w' /\ wf w' /\
    w_completions w' = [] /\ w_efd w' = efd_read (w_efd w) /\
    w_cbs w' = w_cbs w ++ map (fun c => (op_ctx w (ci_op_ptr c), ci_op_ptr c)) (w_completions w) /\
    (forall p, p ∉ map ci_op_ptr (w_completions w) -> w_ops w' !! p = w_ops w !! p) /\
    (NoDup (map ci_op_ptr (w_completions w)) -> forall c op, c ∈ w_completions w ->
       w_ops w !! ci_op_ptr c = Some op -> w_ops w' !! ci_op_ptr c = Some (polled_op c op)) /\
    w_mem w' = w_mem w /\ w_queues w' = w_queues w /\
    (forall p op, w_ops w !! p = Some op -> exists op', w_ops w' !! p = Some op' /\ same_request op op') /\
    (forall a, a ∉ completion_addrs (w_completions w) -> w_addrs w' !! a = w_addrs w !! a).
Proof.
  intros Hwf. destruct (get_class_spec w Hwf) as (c & Hc & _).
  rewrite na_libp2p_poll_eq, bind_gets, (bind_Done _ _ _ _ _ Hc). unfold drain_eventfd. rewrite bind_modify.
  destruct (poll_drain_run (upd_efd efd_read w) (S (length (w_completions w))) 0)
    as (w' & Hd & Hwf' & H1 & H2 & H3 & H4 & H5 & H6 & H7 & H8 & H9); [by apply wf_upd_efd|done|cbn; lia|].
  exists w'. split; [by rewrite (bind_Done _ _ _ _ _ Hd)|]. by split_and!.
Qed.

Lemma poll_wf w :
  wf w -> exists w' n, na_libp2p_poll w = Done (NA_SUCCESS, n) w' /\ wf w'.
Proof. intros Hwf. destruct (poll_run w Hwf) as (w' & H & Hwf' & _). eauto. Qed.

(** * Theorems *)

(** C19: A poll hands every completion in the channel to the application: it
    returns success and their number (as a [u32]), leaves the channel empty and
    the eventfd drained, and queues one callback per completion, in their order
    and with the context of its operation; every operation carries the results
    of the completions that name it, applied in order, with the size, source and
    tag of the message for a receive; the source address of a message goes to an
    unexpected receive and is freed otherwise.  Buffers, queues, handles, the
    registry, the commands, the class and all other operations and addresses
    stay as they are. *)
Theorem poll_completes_operations w :
  wf w ->
  let cs := w_completions w in
  exists w', na_libp2p_poll w = Done (NA_SUCCESS, wrap 32 (len cs)) w' /\ wf w' /\
    w_completions w' = [] /\ w_efd w' = efd_read (w_efd w) /\
    w_cbs w' = w_cbs w ++ map (fun c => (op_ctx w (ci_op_ptr c), ci_op_ptr c)) cs /\
    (forall p, w_ops w' !! p = polled_by p cs <$> w_ops w !! p) /\
    (forall a, w_addrs w' !! a = if decide (a ∈ freed_sources (w_ops w) cs) then None else w_addrs w !! a) /\
    poll_frame w' = poll_frame w.
Proof.
  intros Hwf cs. destruct (poll_run w Hwf) as (w' & H & Hwf' & H1 & H2 & H3 & _). exists w'.
  assert (Hx : exists n, poll_drain (S (length cs)) 0 (upd_efd efd_read w) = Done n w').
  { revert H. destruct (get_class_spec w Hwf) as (c & Hc & _).
    rewrite na_libp2p_poll_eq, bind_gets, (bind_Done _ _ _ _ _ Hc). unfold drain_eventfd. rewrite bind_modify. fold cs.
    unfold mbind, M_bind. destruct (poll_drain _ _ _) as [n w1|]; [|done]. intros [= _ <-]. eauto. }
  destruct Hx as [n Hx].
  destruct (poll_drain_exact _ _ _ _ _ (wf_upd_efd w _ Hwf) (Nat.lt_succ_diag_r _) Hx) as (Ho & Ha & Hf). by split_and!.
Qed.

(** C20: Cancelling: a pending receive or get leaves its queue, so no message can
    complete it any more, and gets exactly one callback, with [NA_CANCELED];
    cancelling an operation that is not pending changes nothing. *)
Theorem cancel_pending_operation w context p :
  wf w ->
  exists w', na_libp2p_cancel context p w = Done NA_SUCCESS w' /\ wf w' /\
    w_completions w' = w_completions w /\
    if decide (p ∈ queued (w_queues w))
    then p ∉ queued (w_queues w') /\ (forall q, q <> p -> q ∈ queued (w_queues w') <-> q ∈ queued (w_queues w)) /\
         w_cbs w' = w_cbs w ++ [(context, p)] /\
         exists op, w_ops w' !! p = Some op /\ cd_ret (op_completion op) = NA_CANCELED
    else w' = w.
Proof.
  intros Hwf. destruct (cancel_wf w context p Hwf) as (w' & Hrun & Hwf'). exists w'.
  pose proof (cancel_run w context p Hwf) as H. case_decide as Hin.
  - destruct H as (op & Hop & H). rewrite H in Hrun. inversion Hrun; subst w'; clear Hrun.
    assert (Hq : forall q, q ∈ queued (dequeue p (w_queues w)) <-> q <> p /\ q ∈ queued (w_queues w)).
    { intros q. unfold queued, dequeue. cbn. rewrite !elem_of_app, !list_elem_of_filter. tauto. }
    rewrite H. split_and!; [done|done|done|cbn; rewrite Hq; tauto|intros q Hne; cbn; rewrite Hq; tauto|done|].
    eexists. split; [apply lookup_insert_eq|done].
  - rewrite H in Hrun. inversion Hrun; subst w'. by split_and!.
Qed.

End Progress.

#[export] Hint Resolve wf_dequeue cancel_wf poll_wf : na_wf.

Module ProgressDemo.
Import Demo DemoNode.

Definition finished : World :=
  upd_completions (fun _ => [mkCompletion 1 NA_SUCCESS None; mkCompletion 2 NA_PROTOCOL_ERROR None]) node.

Lemma finished_wf : wf finished.
Proof. apply wf_check_sound. by vm_compute. Qed.

Lemma poll_completes_operations_witness :
  exists w', na_libp2p_poll finished = Done (NA_SUCCESS, 2) w' /\ w_completions w' = [] /\ poll_frame w' = poll_frame finished.
Proof.
  destruct (poll_completes_operations finished finished_wf) as (w' & H1 & _ & H2 & _ & _ & _ & _ & H3).
  exact (ex_intro _ w' (conj H1 (conj H2 H3))).
Defined.

Definition pending : World := upd_queues (set_unexpected_recv_ops [1; 3]) node.

Lemma pending_wf : wf pending.
Proof. apply wf_check_sound. by vm_compute. Qed.

Lemma cancel_pending_operation_witness :
  exists w', na_libp2p_cancel 9 3 pending = Done NA_SUCCESS w' /\ wf w'.
Proof.
  destruct (cancel_pending_operation pending 9 3 pending_wf) as (w' & H1 & H2 & _).
  exact (ex_intro _ w' (conj H1 H2)).
Defined.

End ProgressDemo.
