(* ===== verification/RmaSpec.v ===== *)
(** What the RMA handlers do to a well-formed state: bounds of every access,
    the bytes transferred, and preservation of the invariant. *)
From Stdlib Require Import ZArith Lia.
From S2P Require Import Prelude.
From S2P Require Import RustStr.
From S2P Require Import Libp2p.
From S2P Require Import Memory.
From S2P Require Import Protocol.
From S2P Require Import State.
From S2P Require Import Invariant.
From S2P Require Import Safety.
From S2P Require Import Rma.

Section RmaSpec.
Context {LP : Libp2p} {OS : Os} {NB : NaBindings}.
Abbreviation MW := (M World).

(** Number of bytes of an [n]-byte transfer that fit behind [off]. *)
Definition fitting (e : MemHandleEntry) (off n : Z) : Z := Z.min n (saturating_sub (me_buf_size e) off).

(** [m'] is [m] with the fitting prefix of the payload at [off] in the
    registered buffer, and no byte outside that range changed. *)
Definition entry_written (m m' : memory) (e : MemHandleEntry) (off : Z) (payload : list byte) : Prop :=
  let n := fitting e off (len payload) in
  dom m' = dom m /\
  mem_load m' (me_buf e + off) (Z.to_nat n) = Some (take (Z.to_nat n) payload) /\
  (forall a, ~ (me_buf e + off <= a < me_buf e + off + n) -> m' !! a = m !! a).

Lemma fitting_range e off n :
  0 <= off -> 0 <= n -> 0 <= fitting e off n /\ fitting e off n <= n /\
  (0 < fitting e off n -> off + fitting e off n <= me_buf_size e).
Proof. unfold fitting, saturating_sub. lia. Qed.

Lemma fitting_all e off n : 0 <= n -> 0 <= off -> off + n <= me_buf_size e -> fitting e off n = n.
Proof. unfold fitting, saturating_sub. lia. Qed.

Lemma copy_into_entry_spec w e off payload :
  mapped (w_mem w) (me_buf e) (me_buf_size e) -> 0 <= off ->
  exists m', copy_into_entry e off payload w = Done tt (upd_mem (fun _ => m') w) /\
    entry_written (w_mem w) m' e off payload.
Proof.
  intros Hm Ho. unfold copy_into_entry, entry_written. fold (fitting e off (len payload)).
  destruct (fitting_range e off (len payload) Ho (len_nonneg _)) as (Hr1 & Hr2 & Hr3).
  set (n := fitting e off (len payload)) in *. cbv zeta.
  destruct (Z.gtb_spec n 0) as [Hn|Hn]; cbn [when].
  - assert (Hl : len (take (Z.to_nat n) payload) = n) by (unfold len in *; rewrite length_take; lia).
    destruct (copy_to_spec w (me_buf e + off) (take (Z.to_nat n) payload)) as (m' & H & Hd & Hld & Hf).
    { eapply mapped_weaken; [done|lia|lia]. }
    exists m'. split; [done|]. rewrite Hl in Hf. split_and!; [done| |done].
    rewrite <-Hld. f_equal. unfold len in Hl. lia.
  - exists (w_mem w). rewrite upd_mem_id. split; [done|].
    replace n with 0 by lia. done.
Qed.

Lemma handle_rma_put_run w h payload :
  wf w -> 0 <= offset h ->
  match w_registry w !! handle_id h with
  | None => handle_rma_put h payload w = Done tt w
  | Some e => exists m', handle_rma_put h payload w = Done tt (upd_mem (fun _ => m') w) /\
                entry_written (w_mem w) m' e (offset h) payload
  end.
Proof.
  intros Hwf Ho. unfold handle_rma_put. rewrite bind_gets.
  destruct (w_registry w !! handle_id h) as [e|] eqn:E; [|done].
  apply copy_into_entry_spec; [by eapply wf_registry|done].
Qed.

Lemma handle_rma_put_wf w h payload :
  wf w -> 0 <= offset h -> exists w', handle_rma_put h payload w = Done tt w' /\ wf w'.
Proof.
  intros Hwf Ho. pose proof (handle_rma_put_run w h payload Hwf Ho) as H.
  destruct (w_registry w !! handle_id h); [|by eauto].
  destruct H as (m' & -> & Hd & _). eexists. split; [done|]. by apply wf_upd_mem.
Qed.

(** The response to a get request. *)
Definition get_response (self : PeerId) (h : WireHeader) (data : list byte) : WireHeader :=
  mkWireHeader RmaGetResp 0 (wrap 32 (len data)) self (handle_id h) (offset h) (len data)
    (local_handle_id h) (local_offset h).

Lemma handle_rma_get_request_run w self h :
  wf w -> 0 <= offset h -> 0 <= rma_length h ->
  match w_registry w !! handle_id h with
  | None => handle_rma_get_request self h w = Done None w
  | Some e => exists data,
      handle_rma_get_request self h w = Done (Some (get_response self h data, data)) w /\
      len data = fitting e (offset h) (rma_length h) /\
      mem_load (w_mem w) (me_buf e + offset h) (length data) = Some data
  end.
Proof.
  intros Hwf Ho Hl. unfold handle_rma_get_request. rewrite bind_gets.
  destruct (w_registry w !! handle_id h) as [e|] eqn:E; [|done]. cbv zeta.
  fold (fitting e (offset h) (rma_length h)).
  destruct (fitting_range e (offset h) (rma_length h) Ho Hl) as (Hr1 & Hr2 & Hr3).
  set (n := fitting e (offset h) (rma_length h)) in *.
  destruct (Z.gtb_spec n 0) as [Hn|Hn].
  - destruct (copy_from_spec w (me_buf e + offset h) n) as (data & Hrun & Hlen & Hld); [lia| |].
    { eapply mapped_weaken; [by eapply wf_registry|lia|lia]. }
    exists data. rewrite (bind_Done _ _ _ _ _ Hrun). split_and!; [done|done|].
    rewrite <-Hld. f_equal. unfold len in Hlen. lia.
  - exists []. split_and!; [done|unfold len; cbn; lia|done].
Qed.

(** The pending get a response completes. *)
Definition get_matches (w : World) (h : WireHeader) (p : Z) : bool :=
  match w_ops w !! p with
  | Some op => (op_local_handle_id op =? local_handle_id h) && (op_local_offset op =? local_offset h)
  | None => false
  end.

Lemma match_get_response_run w h payload :
  wf w -> 0 <= local_offset h ->
  match take_first (get_matches w h) (pending_rma_ops (w_queues w)) with
  | None => match_get_response h payload w = Done None w
  | Some (p, rest) =>
      exists m', match_get_response h payload w
        = Done (Some (mkCompletion p NA_SUCCESS None)) (upd_mem (fun _ => m') (upd_queues (set_pending_rma_ops rest) w)) /\
        match w_registry w !! local_handle_id h with
        | Some e => entry_written (w_mem w) m' e (local_offset h) payload
        | None => m' = w_mem w
        end
  end.
Proof.
  intros Hwf Ho. unfold match_get_response. rewrite bind_gets.
  rewrite (bind_Done _ _ _ (position (get_matches w h) (pending_rma_ops (w_queues w))) w).
  2: { apply positionM_pure. intros p Hp.
       destruct (wf_queued_live w Hwf p) as [op Hop]; [unfold queued; elem_tauto|].
       rewrite (bind_Done _ _ _ _ _ (read_op_spec w p op Hop)). unfold get_matches. by rewrite Hop. }
  destruct (position _ _) as [i|] eqn:E; [|by rewrite (position_None _ _ E)].
  destruct (position_Some _ _ _ E) as (p & rest & Hr & ->). rewrite Hr. cbn [unwrap]. mpure.
  set (w1 := upd_queues (set_pending_rma_ops rest) w). change (w_registry w1) with (w_registry w).
  destruct (w_registry w !! local_handle_id h) as [e|] eqn:Ee.
  - destruct (copy_into_entry_spec w1 e (local_offset h) payload) as (m' & Hrun & Hw);
      [exact (wf_registry w Hwf _ _ Ee)|done|].
    exists m'. split; [|done]. by rewrite (bind_Done _ _ _ _ _ Hrun).
  - by exists (w_mem w).
Qed.

Lemma handle_rma_get_response_run w h payload :
  wf w -> 0 <= local_offset h ->
  match take_first (get_matches w h) (pending_rma_ops (w_queues w)) with
  | None => handle_rma_get_response h payload w = Done tt w
  | Some (p, rest) =>
      exists m', handle_rma_get_response h payload w
        = Done tt (upd_efd efd_write1
            (upd_completions (fun l => l ++ [mkCompletion p NA_SUCCESS None])
            (upd_mem (fun _ => m') (upd_queues (set_pending_rma_ops rest) w)))) /\
        match w_registry w !! local_handle_id h with
        | Some e => entry_written (w_mem w) m' e (local_offset h) payload
        | None => m' = w_mem w
        end
  end.
Proof.
  intros Hwf Ho. pose proof (match_get_response_run w h payload Hwf Ho) as H. unfold handle_rma_get_response.
  destruct (take_first _ _) as [[p rest]|].
  - destruct H as (m' & H & Hm). exists m'. split; [|done]. rewrite (bind_Done _ _ _ _ _ H). apply complete_run, (wf_class w Hwf).
  - by rewrite (bind_Done _ _ _ _ _ H).
Qed.

Lemma pending_take q p rest :
  pending_rma_ops q ≡ₚ p :: rest -> queued q ≡ₚ p :: queued (set_pending_rma_ops rest q).
Proof. unfold queued. cbn. intros H. rewrite H. by rewrite <-!Permutation_middle. Qed.

Lemma handle_rma_get_response_wf w h payload :
  wf w -> 0 <= local_offset h -> exists w', handle_rma_get_response h payload w = Done tt w' /\ wf w'.
Proof.
  intros Hwf Ho. pose proof (handle_rma_get_response_run w h payload Hwf Ho) as H.
  destruct (take_first _ _) as [[p rest]|] eqn:E; [|by eauto].
  destruct H as (m' & -> & Hm). eexists. split; [done|]. apply wf_upd_efd.
  pose proof (pending_take _ _ _ (take_first_perm _ _ _ _ E)) as Hp.
  assert (Hd : dom m' = dom (w_mem w)).
  { destruct (w_registry w !! local_handle_id h); [apply Hm|by subst]. }
  assert (H : wf (upd_queues (fun _ => set_pending_rma_ops rest (w_queues w))
       (upd_completions (fun _ => w_completions w ++ [mkCompletion p NA_SUCCESS None]) w))).
  { apply wf_requeue; try done.
    - pose proof (wf_queued_nodup w Hwf) as Hn. rewrite Hp in Hn. apply NoDup_cons in Hn as [_ Hn]. done.
    - intros x Hx. rewrite Hp. by apply elem_of_cons; right.
    - rewrite owned_push_plain by done. apply Hwf.
    - intros a. rewrite owned_push_plain by done. by left.
    - intros c [Hc| ->%list_elem_of_singleton]%elem_of_app; [by apply (wf_completions w Hwf)|].
      apply (wf_queued_live w Hwf). rewrite Hp. by apply elem_of_cons; left. }
  apply (wf_upd_mem _ m') in H; [|done]. eapply wf_ext; [..|exact H]; try done. apply Hwf.
Qed.

(** ** Requesting side *)

Lemma read_handle_spec w p x : w_handles w !! p = Some x -> read_handle p w = Done x w.
Proof. intros H. unfold read_handle. unfold_M. by rewrite H. Qed.

(** The bytes a put takes from the local buffer. *)
Definition put_source_ok (w : World) (lh : NaLibp2pMemHandle) (local_offset n : Z) : Prop :=
  mh_buf lh = null \/ mapped (w_mem w) (mh_buf lh + local_offset) n.

Definition put_data (m : memory) (lh : NaLibp2pMemHandle) (local_offset n : Z) (data : list byte) : Prop :=
  if (n >? 0) && negb (mh_buf lh =? null)
  then mem_load m (mh_buf lh + local_offset) (Z.to_nat n) = Some data else data = [].

Lemma put_run w context callback arg lmh lo rmh ro n raddr op_id op lh rh dest :
  wf w -> w_ops w !! op_id = Some op -> w_handles w !! lmh = Some lh -> w_handles w !! rmh = Some rh ->
  w_addrs w !! raddr = Some dest -> put_source_ok w lh lo n ->
  exists cls data, w_class w = Some cls /\ put_data (w_mem w) lh lo n data /\
    na_libp2p_put context callback arg lmh lo rmh ro n raddr op_id w
    = Done NA_SUCCESS (push_command
        (CmdRmaPut (default (addr_peer_id dest) (mh_owner_peer_id rh)) data (mh_handle_id rh) ro op_id
           (addr_peer_id (cls_self_addr cls)))
        (upd_ops <[op_id := set_context context (set_completion (set_callback callback arg NA_CB_PUT) op)]> w)).
Proof.
  intros Hwf Hop Hlh Hrh Hd Hsrc. destruct (get_class_spec w Hwf) as (c & Hc & Hc').
  unfold na_libp2p_put. rewrite (bind_Done _ _ _ _ _ Hc). mrun read_op_spec.
  rewrite (bind_Done _ _ _ _ _ (read_handle_spec w lmh lh Hlh)).
  rewrite (bind_Done _ _ _ _ _ (read_handle_spec w rmh rh Hrh)).
  mrun read_addr_spec. mrun update_op_spec.
  set (w1 := upd_ops _ w).
  assert (Hpay : exists data, (if (n >? 0) && negb (mh_buf lh =? null)
     then copy_from (mh_buf lh + lo) n else mret [] : MW (list byte)) w1 = Done data w1 /\
     put_data (w_mem w) lh lo n data).
  { unfold put_data. destruct (Z.gtb_spec n 0); destruct (Z.eqb_spec (mh_buf lh) null); cbn [andb negb];
      try (by exists []).
    destruct Hsrc as [|Hsrc]; [done|].
    destruct (copy_from_spec w1 (mh_buf lh + lo) n) as (bs & ? & _ & ?); [lia|done|]. by exists bs. }
  destruct Hpay as (data & Hrun & Hdata). exists c, data. split_and!; [done|done|].
  rewrite (bind_Done _ _ _ _ _ Hrun), (bind_Done _ _ _ _ _ (send_command_run _ _)). done.
Qed.

Definition push_pending (p : Z) (q : OperationQueues) : OperationQueues :=
  set_pending_rma_ops (pending_rma_ops q ++ [p]) q.

Lemma get_run w context callback arg lmh lo rmh ro n raddr op_id op lh rh dest :
  wf w -> w_ops w !! op_id = Some op -> w_handles w !! lmh = Some lh -> w_handles w !! rmh = Some rh ->
  w_addrs w !! raddr = Some dest ->
  exists cls, w_class w = Some cls /\
    na_libp2p_get context callback arg lmh lo rmh ro n raddr op_id w
    = Done NA_SUCCESS (push_command
        (RmaGetRequest (default (addr_peer_id dest) (mh_owner_peer_id rh)) (mh_handle_id rh) ro n
           (mh_handle_id lh) lo op_id (addr_peer_id (cls_self_addr cls)))
        (upd_queues (push_pending op_id)
        (upd_ops <[op_id := set_rma (mh_handle_id lh) lo n (set_context context
                     (set_completion (set_callback callback arg NA_CB_GET) op))]> w))).
Proof.
  intros Hwf Hop Hlh Hrh Hd. destruct (get_class_spec w Hwf) as (c & Hc & Hc').
  exists c. split; [done|].
  unfold na_libp2p_get. rewrite (bind_Done _ _ _ _ _ Hc). mrun read_op_spec.
  rewrite (bind_Done _ _ _ _ _ (read_handle_spec w lmh lh Hlh)).
  rewrite (bind_Done _ _ _ _ _ (read_handle_spec w rmh rh Hrh)).
  mrun read_addr_spec. mrun update_op_spec. rewrite bind_modify.
  by rewrite (bind_Done _ _ _ _ _ (send_command_run _ _)).
Qed.

Lemma wf_push_pending w p :
  wf w -> op_idle w p -> wf (upd_queues (push_pending p) w).
Proof.
  intros Hwf [[op Hop] Hnq].
  assert (Hq : queued (push_pending p (w_queues w)) ≡ₚ p :: queued (w_queues w)).
  { unfold queued, push_pending. cbn. by rewrite !app_assoc, <-Permutation_cons_append. }
  split; cbn; try apply Hwf.
  - rewrite Hq. apply NoDup_cons. split; [done|apply Hwf].
  - intros x. rewrite Hq. intros [->|Hx]%elem_of_cons; [by eexists|by apply Hwf].
Qed.

Lemma get_wf w context callback arg lmh lo rmh ro n raddr op_id :
  wf w -> op_idle w op_id -> is_Some (w_handles w !! lmh) -> is_Some (w_handles w !! rmh) ->
  is_Some (w_addrs w !! raddr) ->
  exists w', na_libp2p_get context callback arg lmh lo rmh ro n raddr op_id w = Done NA_SUCCESS w' /\ wf w'.
Proof.
  intros Hwf [[op Hop] Hnq] [lh Hlh] [rh Hrh] [dest Hd].
  destruct (get_run w context callback arg lmh lo rmh ro n raddr op_id op lh rh dest Hwf Hop Hlh Hrh Hd)
    as (cls & _ & ->).
  eexists. split; [done|]. apply wf_push_command. apply wf_push_pending; [by eapply wf_upd_op; eauto|].
  split; [by eexists; apply lookup_insert_eq|done].
Qed.

Lemma put_wf w context callback arg lmh lo rmh ro n raddr op_id lh :
  wf w -> is_Some (w_ops w !! op_id) -> op_id ∉ queued (w_queues w) -> w_handles w !! lmh = Some lh ->
  is_Some (w_handles w !! rmh) -> is_Some (w_addrs w !! raddr) -> put_source_ok w lh lo n ->
  exists w', na_libp2p_put context callback arg lmh lo rmh ro n raddr op_id w = Done NA_SUCCESS w' /\ wf w'.
Proof.
  intros Hwf [op Hop] Hnq Hlh [rh Hrh] [dest Hd] Hsrc.
  destruct (put_run w context callback arg lmh lo rmh ro n raddr op_id op lh rh dest Hwf Hop Hlh Hrh Hd Hsrc)
    as (cls & data & _ & _ & ->).
  eexists. split; [done|]. apply wf_push_command. by eapply wf_upd_op; eauto.
Qed.

(** ** Memory handles *)

Definition bump_handle_id (cls : NaLibp2pClass) : NaLibp2pClass :=
  mkClass (cls_self_addr cls) (wrap 64 (cls_next_mem_handle_id cls + 1)) (cls_transport_config cls)
    (cls_listen_addrs cls) (cls_relay_addr cls).

Lemma mem_handle_create_run w buf buf_size flags cls :
  w_class w = Some cls ->
  let id := cls_next_mem_handle_id cls in
  let p := malloc (dom (w_handles w)) in
  na_libp2p_mem_handle_create buf buf_size flags w
  = Done (NA_SUCCESS, p)
      (upd_handles <[p := mkMemHandle buf buf_size id flags None]>
      (upd_registry <[id := mkEntry buf buf_size flags]>
      (upd_class (fun _ => Some (bump_handle_id cls)) w))).
Proof.
  intros Hc id p. unfold na_libp2p_mem_handle_create, next_handle_id, get_class. unfold_M. by rewrite Hc.
Qed.

Lemma mem_handle_create_wf w buf buf_size flags :
  wf w -> mapped (w_mem w) buf buf_size ->
  exists w' p, na_libp2p_mem_handle_create buf buf_size flags w = Done (NA_SUCCESS, p) w' /\ wf w'.
Proof.
  intros Hwf Hm. destruct (wf_class w Hwf) as [cls Hc].
  do 2 eexists. rewrite (mem_handle_create_run w buf buf_size flags cls Hc). split; [done|].
  destruct Hwf. split; cbn; try done.
  intros id e. destruct (decide (id = cls_next_mem_handle_id cls)) as [->|Hne].
  - rewrite lookup_insert_eq. by intros [= <-].
  - rewrite lookup_insert_ne by done. eauto.
Qed.

Lemma mem_handle_free_wf w p :
  wf w -> p = null \/ is_Some (w_handles w !! p) ->
  exists w', na_libp2p_mem_handle_free p w = Done tt w' /\ wf w'.
Proof.
  intros Hwf Hp. unfold na_libp2p_mem_handle_free.
  destruct (Z.eqb_spec p null) as [->|Hn]; [by eauto|]. destruct Hp as [|[x Hx]]; [done|].
  rewrite (bind_Done _ _ _ _ _ (read_handle_spec w p x Hx)), bind_modify.
  destruct (get_class_spec w Hwf) as (c & Hc & Hc').
  destruct (mh_owner_peer_id x).
  - eexists. split; [done|]. eapply wf_ext; [..|exact Hwf]; done.
  - unfold get_class. unfold_M. cbn. rewrite Hc'. eexists. split; [done|].
    destruct Hwf. split; cbn; try done. intros id e [_ He]%lookup_delete_Some. eauto.
Qed.

End RmaSpec.

#[export] Hint Resolve handle_rma_put_wf handle_rma_get_response_wf get_wf put_wf mem_handle_create_wf mem_handle_free_wf
  : na_wf.
