(* ===== verification/Serialize.v ===== *)
(** Serialized addresses and memory handles: the bytes the [serialize] callbacks
    write are read back by the [deserialize] callbacks, and no buffer content
    makes a [deserialize] fault. *)
From Stdlib Require Import ZArith Lia.
From S2P Require Import Prelude.
From S2P Require Import RustStr.
From S2P Require Import Libp2p.
From S2P Require Import Memory.
From S2P Require Import Protocol.
From S2P Require Import State.
From S2P Require Import Rma.
From S2P Require Import Addr.
From S2P Require Import Messaging.
From S2P Require Import Invariant.
From S2P Require Import Safety.
From S2P Require Import RmaSpec.
From S2P Require Import DemoWorld.

Section Serialize.
Context {LP : Libp2p} {OS : Os} {NB : NaBindings}.
Abbreviation MW := (M World).

(** * Writing *)

(** [m'] is [m] with [bs] at [p] and nothing else changed. *)
Definition mem_written (m m' : memory) (p : Z) (bs : list byte) : Prop :=
  dom m' = dom m /\ mem_load m' p (length bs) = Some bs /\
  (forall a, ~ (p <= a < p + len bs) -> m' !! a = m !! a).

Lemma mem_load_app m p n k :
  mem_load m p (n + k) =
  match mem_load m p n, mem_load m (p + Z.of_nat n) k with Some a, Some b => Some (a ++ b) | _, _ => None end.
Proof.
  revert p. induction n as [|n IH]; intros p.
  - cbn. rewrite Z.add_0_r. by destruct (mem_load m p k).
  - cbn [Nat.add mem_load]. destruct (m !! p) as [b|]; cbn; [|done]. rewrite IH.
    replace (p + 1 + Z.of_nat n) with (p + Z.of_nat (S n)) by lia.
    destruct (mem_load m (p + 1) n); cbn; [|done]. by destruct (mem_load m _ k).
Qed.

Lemma mem_written_app m m1 m2 p a b :
  mem_written m m1 p a -> mem_written m1 m2 (p + len a) b -> mem_written m m2 p (a ++ b).
Proof.
  intros (Hd1 & Hl1 & Hf1) (Hd2 & Hl2 & Hf2). split_and!; [congruence| |].
  - rewrite length_app, mem_load_app. fold (len a). rewrite Hl2, (mem_load_ext m2 m1), Hl1; [done|].
    intros x Hx. apply Hf2. unfold len. lia.
  - intros x Hx. rewrite len_app in Hx. pose proof (len_nonneg a). pose proof (len_nonneg b).
    rewrite Hf2 by lia. apply Hf1. lia.
Qed.

Lemma copy_to_written w p bs :
  mapped (w_mem w) p (len bs) ->
  exists m', copy_to p bs w = Done tt (upd_mem (fun _ => m') w) /\ mem_written (w_mem w) m' p bs.
Proof. intros Hm. destruct (copy_to_spec w p bs Hm) as (m' & ? & ? & ? & ?). by exists m'. Qed.

Definition chunks_len (chunks : list (list byte)) : Z := len (concat chunks).

Lemma chunks_len_cons d chunks : chunks_len (d :: chunks) = len d + chunks_len chunks.
Proof. unfold chunks_len. cbn. apply len_app. Qed.

(** A buffer that is large enough receives all chunks. *)
Lemma write_chunks_ok w out buf_size pos chunks :
  mapped (w_mem w) out buf_size -> 0 <= pos -> pos + chunks_len chunks <= buf_size ->
  exists m', write_chunks out buf_size pos chunks w = Done true (upd_mem (fun _ => m') w) /\
    mem_written (w_mem w) m' (out + pos) (concat chunks).
Proof.
  revert w pos. induction chunks as [|d chunks IH]; intros w pos Hm Hp Hl; cbn [write_chunks].
  { exists (w_mem w). rewrite upd_mem_id. split; [done|]. split_and!; done. }
  rewrite chunks_len_cons in Hl. pose proof (len_nonneg d). pose proof (len_nonneg (concat chunks)).
  unfold chunks_len in *. destruct (Z.gtb_spec (pos + len d) buf_size); [lia|].
  destruct (copy_to_written w (out + pos) d) as (m1 & Hc & Hw1); [eapply mapped_weaken; [done|lia|lia]|].
  rewrite (bind_Done _ _ _ _ _ Hc).
  destruct (IH (upd_mem (fun _ => m1) w) (pos + len d)) as (m2 & Hr & Hw2); [|lia|lia|].
  { eapply mapped_dom; [symmetry; apply Hw1|done]. }
  exists m2. split; [by rewrite Hr|]. cbn. eapply mem_written_app; [done|]. by rewrite <-Z.add_assoc.
Qed.

(** One that is too small gets [NA_OVERFLOW], and nothing outside it changes. *)
Lemma write_chunks_overflow w out buf_size pos chunks :
  mapped (w_mem w) out buf_size -> 0 <= pos <= buf_size -> buf_size < pos + chunks_len chunks ->
  exists m', write_chunks out buf_size pos chunks w = Done false (upd_mem (fun _ => m') w) /\
    dom m' = dom (w_mem w) /\ forall a, ~ (out <= a < out + buf_size) -> m' !! a = w_mem w !! a.
Proof.
  revert w pos. induction chunks as [|d chunks IH]; intros w pos Hm Hp Hl; cbn [write_chunks].
  { change (chunks_len []) with 0 in Hl. lia. }
  rewrite chunks_len_cons in Hl. pose proof (len_nonneg d).
  destruct (Z.gtb_spec (pos + len d) buf_size) as [Hg|Hg].
  { exists (w_mem w). by rewrite upd_mem_id. }
  destruct (copy_to_written w (out + pos) d) as (m1 & Hc & Hd1 & _ & Hf1); [eapply mapped_weaken; [done|lia|lia]|].
  rewrite (bind_Done _ _ _ _ _ Hc).
  destruct (IH (upd_mem (fun _ => m1) w) (pos + len d)) as (m2 & Hr & Hd2 & Hf2); [|lia|lia|].
  { by eapply mapped_dom; [symmetry; apply Hd1|]. }
  exists m2. split; [by rewrite Hr|]. split; [by rewrite Hd2|]. intros a Ha. cbn in Hf2. rewrite Hf2 by done. apply Hf1. lia.
Qed.

(** * Reading *)

Lemma copy_from_loaded w p n bs :
  mem_load (w_mem w) p n = Some bs -> copy_from p (Z.of_nat n) w = Done bs w.
Proof. intros H. unfold copy_from. unfold_M. by rewrite Nat2Z.id, H. Qed.

Lemma slice_app {St} (pre d post : list byte) pos n (w : St) :
  pos = len pre -> n = len d -> slice pos n (pre ++ d ++ post) w = Done d w.
Proof.
  intros -> ->. rewrite slice_ok; [|apply len_nonneg|apply len_nonneg|].
  - by rewrite !Z_to_nat_len, drop_app_length, take_app_length.
  - rewrite !len_app. pose proof (len_nonneg post). lia.
Qed.

Lemma slice_in_bounds {St} pos n data (w : St) :
  0 <= pos -> 0 <= n -> pos + n <= len data -> exists b, slice pos n data w = Done b w /\ len b = n.
Proof.
  intros. rewrite slice_ok by done. eexists. split; [done|]. unfold len in *. rewrite length_take, length_drop. lia.
Qed.

Lemma from_be_bytes_nonneg l : 0 <= from_be_bytes l.
Proof. apply from_be_bytes_range. Qed.

(** ** Addresses *)

Definition addr_wire_size (a : NaLibp2pAddr) : Z := 2 + len (PeerId_to_bytes (addr_peer_id a)) + 2 + len (ma_str a).

Lemma addr_chunks_len a : chunks_len (addr_chunks a) = addr_wire_size a.
Proof. unfold chunks_len, addr_chunks, addr_wire_size. cbn [concat]. rewrite !len_app, !len_to_be_bytes, len_nil. lia. Qed.

Context {LPL : Libp2pLaws} {OSL : OsLaws}.

Lemma addr_deserialize_chunks w a addr_p buf rest :
  buf <> null -> addr_p <> null -> in_width 16 (len (ma_str a)) ->
  (forall ma, addr_multiaddr a = Some ma -> ma_to_string ma <> []) ->
  let data := concat (addr_chunks a) ++ rest in
  mem_load (w_mem w) buf (length data) = Some data ->
  let p := malloc (dom (w_addrs w)) in
  na_libp2p_addr_deserialize addr_p buf (len data) w
  = Done (NA_SUCCESS, Some p)
      (upd_addrs <[p := mkAddr (addr_peer_id a) (addr_multiaddr a) false]> w).
Proof.
  intros Hb Hp Hw Hne data Hload p. set (peer := PeerId_to_bytes (addr_peer_id a)).
  assert (Hpw : in_width 16 (len peer)) by (split; [apply len_nonneg|apply peer_bytes_short]).
  set (lp := to_be_bytes 2 (wrap 16 (len peer))). set (lm := to_be_bytes 2 (wrap 16 (len (ma_str a)))).
  assert (Hdata : data = lp ++ peer ++ lm ++ ma_str a ++ rest).
  { unfold data, addr_chunks. cbn [concat]. by rewrite !app_nil_r, <-!app_assoc. }
  assert (Hlp : len lp = 2) by apply len_to_be_bytes. assert (Hlm : len lm = 2) by apply len_to_be_bytes.
  assert (Hfp : from_be_bytes lp = len peer) by (unfold lp; rewrite wrap_small by done; by apply (from_to_be_bytes 2)).
  assert (Hfm : from_be_bytes lm = len (ma_str a)) by (unfold lm; rewrite wrap_small by done; by apply (from_to_be_bytes 2)).
  pose proof (len_nonneg peer). pose proof (len_nonneg (ma_str a)). pose proof (len_nonneg rest).
  assert (Hlen : len data = 2 + len peer + 2 + len (ma_str a) + len rest) by (rewrite Hdata, !len_app; lia).
  unfold na_libp2p_addr_deserialize.
  rewrite (proj2 (Z.eqb_neq _ _) Hb), (proj2 (Z.eqb_neq _ _) Hp), (proj2 (Z.ltb_ge _ _)) by lia. cbn [orb].
  rewrite (bind_Done _ _ _ _ _ (copy_from_loaded w buf (length data) data Hload)).
  destruct (Z.gtb_spec (0 + 2) (len data)); [lia|].
  rewrite (bind_Done _ _ _ lp w) by (rewrite Hdata; by apply (slice_app [])). cbv zeta. rewrite Hfp.
  destruct (Z.gtb_spec (2 + len peer) (len data)); [lia|].
  rewrite (bind_Done _ _ _ peer w) by (rewrite Hdata; by apply slice_app). unfold peer at 1. rewrite peer_bytes_roundtrip.
  destruct (Z.gtb_spec (2 + len peer + 2) (len data)); [lia|].
  rewrite (bind_Done _ _ _ lm w)
    by (rewrite Hdata, (app_assoc lp); apply slice_app; [rewrite len_app; lia|lia]).
  rewrite Hfm. unfold ma_str in *. destruct (addr_multiaddr a) as [ma|]; cbn [from_option] in *.
  - specialize (Hne ma eq_refl). destruct (ma_to_string ma) as [|b bs] eqn:Ema; [done|]. rewrite <-Ema in *.
    destruct (Z.gtb_spec (len (ma_to_string ma)) 0) as [_|Hz]; [|rewrite Ema, len_cons in Hz; pose proof (len_nonneg bs); lia].
    destruct (Z.gtb_spec (2 + len peer + 2 + len (ma_to_string ma)) (len data)); [lia|].
    rewrite (bind_Done _ _ _ (ma_to_string ma) w)
      by (rewrite Hdata, (app_assoc lp), (app_assoc (lp ++ peer)); apply slice_app; [rewrite !len_app; lia|done]).
    by rewrite ma_str_utf8, ma_str_roundtrip.
  - done.
Qed.

(** ** Memory handles *)

(** The peer a serialized handle names: its owner, or this node. *)
Definition handle_peer (cls : NaLibp2pClass) (h : NaLibp2pMemHandle) : PeerId :=
  default (addr_peer_id (cls_self_addr cls)) (mh_owner_peer_id h).

Definition handle_wire_size (cls : NaLibp2pClass) (h : NaLibp2pMemHandle) : Z :=
  8 + 8 + 8 + 2 + len (PeerId_to_bytes (handle_peer cls h)).

Definition handle_in_range (h : NaLibp2pMemHandle) : Prop :=
  in_width 64 (mh_handle_id h) /\ in_width 64 (mh_buf_size h) /\ in_width 64 (mh_flags h).

Lemma handle_chunks_len cls h : chunks_len (mem_handle_chunks cls h) = handle_wire_size cls h.
Proof.
  unfold chunks_len, mem_handle_chunks, handle_wire_size. cbn [concat]. fold (handle_peer cls h).
  rewrite !len_app, !len_to_be_bytes, len_nil. lia.
Qed.

Lemma mem_handle_deserialize_chunks w cls h handle_p buf rest :
  buf <> null -> handle_p <> null -> handle_in_range h ->
  let data := concat (mem_handle_chunks cls h) ++ rest in
  mem_load (w_mem w) buf (length data) = Some data ->
  let p := malloc (dom (w_handles w)) in
  na_libp2p_mem_handle_deserialize handle_p buf (len data) w
  = Done (NA_SUCCESS, Some p)
      (upd_handles <[p := mkMemHandle null (mh_buf_size h) (mh_handle_id h) (mh_flags h)
                             (Some (handle_peer cls h))]> w).
Proof.
  intros Hb Hp (Hi & Hs & Hf) data Hload p. set (peer := PeerId_to_bytes (handle_peer cls h)).
  assert (Hpw : in_width 16 (len peer)) by (split; [apply len_nonneg|apply peer_bytes_short]).
  set (b1 := to_be_bytes 8 (mh_handle_id h)). set (b2 := to_be_bytes 8 (mh_buf_size h)).
  set (b3 := to_be_bytes 8 (mh_flags h)). set (b4 := to_be_bytes 2 (wrap 16 (len peer))).
  assert (Hdata : data = b1 ++ b2 ++ b3 ++ b4 ++ peer ++ rest).
  { unfold data, mem_handle_chunks. cbn [concat]. fold (handle_peer cls h). by rewrite !app_nil_r, <-!app_assoc. }
  assert (H1 : len b1 = 8) by apply len_to_be_bytes. assert (H2 : len b2 = 8) by apply len_to_be_bytes.
  assert (H3 : len b3 = 8) by apply len_to_be_bytes. assert (H4 : len b4 = 2) by apply len_to_be_bytes.
  assert (F1 : from_be_bytes b1 = mh_handle_id h) by (by apply (from_to_be_bytes 8)).
  assert (F2 : from_be_bytes b2 = mh_buf_size h) by (by apply (from_to_be_bytes 8)).
  assert (F3 : from_be_bytes b3 = mh_flags h) by (by apply (from_to_be_bytes 8)).
  assert (F4 : from_be_bytes b4 = len peer) by (unfold b4; rewrite wrap_small by done; by apply (from_to_be_bytes 2)).
  pose proof (len_nonneg peer). pose proof (len_nonneg rest).
  assert (Hlen : len data = 26 + len peer + len rest) by (rewrite Hdata, !len_app; lia).
  unfold na_libp2p_mem_handle_deserialize.
  rewrite (proj2 (Z.eqb_neq _ _) Hb), (proj2 (Z.eqb_neq _ _) Hp), (proj2 (Z.ltb_ge _ _)) by lia. cbn [orb].
  rewrite (bind_Done _ _ _ _ _ (copy_from_loaded w buf (length data) data Hload)).
  rewrite (bind_Done _ _ _ b1 w) by (rewrite Hdata; by apply (slice_app [])). cbv zeta. rewrite F1.
  rewrite (bind_Done _ _ _ b2 w) by (rewrite Hdata; by apply slice_app). rewrite F2.
  rewrite (bind_Done _ _ _ b3 w) by (rewrite Hdata, (app_assoc b1); by apply slice_app; [rewrite len_app; lia|]). rewrite F3.
  destruct (Z.gtb_spec (24 + 2) (len data)); [lia|].
  rewrite (bind_Done _ _ _ b4 w)
    by (rewrite Hdata, (app_assoc b1), (app_assoc (b1 ++ b2)); by apply slice_app; [rewrite !len_app; lia|]).
  rewrite F4. destruct (Z.gtb_spec (26 + len peer) (len data)); [lia|].
  rewrite (bind_Done _ _ _ peer w)
    by (rewrite Hdata, (app_assoc b1), (app_assoc (b1 ++ b2)), (app_assoc ((b1 ++ b2) ++ b3));
        by apply slice_app; [rewrite !len_app; lia|]).
  unfold peer. rewrite peer_bytes_roundtrip. done.
Qed.

(** ** Any bytes *)

(** What a parser of a buffer may do: fail and change nothing, or succeed with
    one newly allocated object and nothing else changed. *)
Definition parses {A} (objs : World -> gmap Z A) (ins : (gmap Z A -> gmap Z A) -> World -> World)
    (w : World) (out : outcome World (Z * option Z)) : Prop :=
  (exists c, out = Done (c, None) w /\ (c = NA_PROTOCOL_ERROR \/ c = NA_INVALID_ARG)) \/
  (let p := malloc (dom (objs w)) in exists x, out = Done (NA_SUCCESS, Some p) (ins <[p := x]> w)).

Abbreviation parses_addr := (parses w_addrs upd_addrs).
Abbreviation parses_handle := (parses w_handles upd_handles).

Lemma parses_error {A} (objs : World -> gmap Z A) ins w :
  parses objs ins w ((mret (NA_PROTOCOL_ERROR, None) : MW _) w).
Proof. left. eexists. split; [done|]. auto. Qed.

Lemma parses_invalid {A} (objs : World -> gmap Z A) ins w :
  parses objs ins w ((mret (NA_INVALID_ARG, None) : MW _) w).
Proof. left. eexists. split; [done|]. auto. Qed.

Lemma parses_slice {A} (objs : World -> gmap Z A) ins w pos n data f :
  0 <= pos -> 0 <= n -> pos + n <= len data ->
  (forall b, len b = n -> parses objs ins w (f b w)) -> parses objs ins w ((slice pos n data ≫= f) w).
Proof.
  intros H1 H2 H3 Hf. destruct (slice_in_bounds pos n data w H1 H2 H3) as (b & Hb & Hl).
  rewrite (bind_Done _ _ _ _ _ Hb). by apply Hf.
Qed.

Lemma parses_alloc_addr w peer ma :
  parses_addr w ((addr ← alloc_boxed peer ma false; mret (NA_SUCCESS, Some addr) : MW _) w).
Proof. right. eexists. by rewrite (bind_Done _ _ _ _ _ (alloc_boxed_spec w peer ma false)). Qed.

Lemma parses_alloc_handle w h :
  parses_handle w ((p ← alloc_handle h; mret (NA_SUCCESS, Some p) : MW _) w).
Proof. right. by eexists. Qed.

Lemma addr_deserialize_parses w addr_p buf buf_size :
  mapped (w_mem w) buf buf_size -> parses_addr w (na_libp2p_addr_deserialize addr_p buf buf_size w).
Proof.
  intros Hm. unfold na_libp2p_addr_deserialize.
  destruct ((buf =? null) || (addr_p =? null) || (buf_size <? 4)) eqn:E; [apply parses_invalid|].
  apply orb_false_iff in E as [_ E%Z.ltb_ge].
  destruct (copy_from_spec w buf buf_size ltac:(lia) Hm) as (data & Hc & Hl & _). rewrite (bind_Done _ _ _ _ _ Hc).
  destruct (Z.gtb_spec (0 + 2) (len data)); [apply parses_error|].
  apply parses_slice; [lia|lia|lia|]. intros b1 _. cbv zeta. pose proof (from_be_bytes_nonneg b1).
  destruct (Z.gtb_spec (2 + from_be_bytes b1) (len data)); [apply parses_error|].
  apply parses_slice; [lia|lia|lia|]. intros b2 _. destruct (PeerId_from_bytes b2) as [peer|]; [|apply parses_error].
  destruct (Z.gtb_spec (2 + from_be_bytes b1 + 2) (len data)); [apply parses_error|].
  apply parses_slice; [lia|lia|lia|]. intros b3 _. pose proof (from_be_bytes_nonneg b3).
  destruct (Z.gtb_spec (from_be_bytes b3) 0); [|apply parses_alloc_addr].
  destruct (Z.gtb_spec (2 + from_be_bytes b1 + 2 + from_be_bytes b3) (len data)); [apply parses_error|].
  apply parses_slice; [lia|lia|lia|]. intros b4 _. destruct (utf8_valid b4); [|apply parses_error].
  destruct (ma_from_str b4); [apply parses_alloc_addr|apply parses_error].
Qed.

Lemma mem_handle_deserialize_parses w handle_p buf buf_size :
  mapped (w_mem w) buf buf_size -> parses_handle w (na_libp2p_mem_handle_deserialize handle_p buf buf_size w).
Proof.
  intros Hm. unfold na_libp2p_mem_handle_deserialize.
  destruct ((buf =? null) || (handle_p =? null) || (buf_size <? 26)) eqn:E; [apply parses_invalid|].
  apply orb_false_iff in E as [_ E%Z.ltb_ge].
  destruct (copy_from_spec w buf buf_size ltac:(lia) Hm) as (data & Hc & Hl & _). rewrite (bind_Done _ _ _ _ _ Hc).
  do 3 (apply parses_slice; [lia|lia|lia|]; intros ? _; cbv zeta).
  destruct (Z.gtb_spec (24 + 2) (len data)); [apply parses_error|].
  apply parses_slice; [lia|lia|lia|]. intros bl _. pose proof (from_be_bytes_nonneg bl).
  destruct (Z.gtb_spec (26 + from_be_bytes bl) (len data)); [apply parses_error|].
  apply parses_slice; [lia|lia|lia|]. intros bp _.
  destruct (PeerId_from_bytes bp); [apply parses_alloc_handle|apply parses_error].
Qed.

(** * Theorems *)

(** C23: Whatever bytes the buffer holds, neither [deserialize] panics or reads
    outside it: each returns an error and changes nothing, or a new object and
    leaves the memory and every existing object as they were. *)
Theorem deserialize_any_bytes w out_p buf buf_size :
  mapped (w_mem w) buf buf_size ->
  parses_addr w (na_libp2p_addr_deserialize out_p buf buf_size w) /\
  parses_handle w (na_libp2p_mem_handle_deserialize out_p buf buf_size w).
Proof. intros Hm. split; [by apply addr_deserialize_parses|by apply mem_handle_deserialize_parses]. Qed.

(** C24: A serialized address is read back, when its transport address, if it has
    one, prints as a non-empty text of less than 64 KiB: a buffer of the size
    [addr_get_serialize_size] reports receives the whole form, and
    [addr_deserialize] makes a new address with the same peer and transport
    address from it. *)
Theorem addr_serialize_roundtrip w addr a addr_p buf :
  addr <> null -> buf <> null -> addr_p <> null -> w_addrs w !! addr = Some a ->
  mapped (w_mem w) buf (addr_wire_size a) -> in_width 16 (len (ma_str a)) ->
  (forall ma, addr_multiaddr a = Some ma -> ma_to_string ma <> []) ->
  exists size w1 p w2,
    na_libp2p_addr_get_serialize_size addr w = Done size w /\
    na_libp2p_addr_serialize buf size addr w = Done NA_SUCCESS w1 /\
    na_libp2p_addr_deserialize addr_p buf size w1 = Done (NA_SUCCESS, Some p) w2 /\
    w_addrs w !! p = None /\
    w_addrs w2 = <[p := mkAddr (addr_peer_id a) (addr_multiaddr a) false]> (w_addrs w).
Proof.
  intros Ha Hb Hp Hl Hm Hw Hne.
  destruct (write_chunks_ok w buf (addr_wire_size a) 0 (addr_chunks a) Hm) as (m1 & Hr & Hd & Hload & _);
    [lia|rewrite addr_chunks_len; lia|]. rewrite Z.add_0_r in Hload.
  pose proof (addr_deserialize_chunks (upd_mem (fun _ => m1) w) a addr_p buf [] Hb Hp Hw Hne) as Hde.
  cbv zeta in Hde. rewrite app_nil_r in Hde. specialize (Hde Hload).
  fold (chunks_len (addr_chunks a)) in Hde. rewrite addr_chunks_len in Hde.
  do 4 eexists. split_and!; [| |exact Hde| |done].
  - unfold na_libp2p_addr_get_serialize_size. rewrite (proj2 (Z.eqb_neq _ _) Ha).
    by rewrite (bind_Done _ _ _ _ _ (read_addr_spec w addr a Hl)).
  - unfold na_libp2p_addr_serialize. rewrite (proj2 (Z.eqb_neq _ _) Ha), (proj2 (Z.eqb_neq _ _) Hb). cbn [orb].
    rewrite (bind_Done _ _ _ _ _ (read_addr_spec w addr a Hl)). by rewrite (bind_Done _ _ _ _ _ Hr).
  - cbn. apply malloc_lookup.
Qed.

(** A buffer that is too small for an address or a memory handle gets
    [NA_OVERFLOW], and no byte outside the buffer is written. *)
Theorem serialize_overflow w buf buf_size addr a mem_handle h cls :
  addr <> null -> mem_handle <> null -> buf <> null -> 0 <= buf_size ->
  w_addrs w !! addr = Some a -> w_handles w !! mem_handle = Some h -> w_class w = Some cls ->
  mapped (w_mem w) buf buf_size ->
  (buf_size < addr_wire_size a -> exists w', na_libp2p_addr_serialize buf buf_size addr w = Done NA_OVERFLOW w' /\
     forall x, ~ (buf <= x < buf + buf_size) -> w_mem w' !! x = w_mem w !! x) /\
  (buf_size < handle_wire_size cls h ->
     exists w', na_libp2p_mem_handle_serialize buf buf_size mem_handle w = Done NA_OVERFLOW w' /\
     forall x, ~ (buf <= x < buf + buf_size) -> w_mem w' !! x = w_mem w !! x).
Proof.
  intros Ha Hh Hb Hsz Hl Hlh Hc Hm. split; intros Hs.
  - destruct (write_chunks_overflow w buf buf_size 0 (addr_chunks a) Hm) as (m' & Hr & _ & Hf);
      [lia|rewrite addr_chunks_len; lia|].
    exists (upd_mem (fun _ => m') w). split; [|exact Hf]. unfold na_libp2p_addr_serialize.
    rewrite (proj2 (Z.eqb_neq _ _) Ha), (proj2 (Z.eqb_neq _ _) Hb). cbn [orb].
    rewrite (bind_Done _ _ _ _ _ (read_addr_spec w addr a Hl)). by rewrite (bind_Done _ _ _ _ _ Hr).
  - destruct (write_chunks_overflow w buf buf_size 0 (mem_handle_chunks cls h) Hm) as (m' & Hr & _ & Hf);
      [lia|rewrite handle_chunks_len; lia|].
    exists (upd_mem (fun _ => m') w). split; [|exact Hf]. unfold na_libp2p_mem_handle_serialize.
    rewrite (proj2 (Z.eqb_neq _ _) Hh), (proj2 (Z.eqb_neq _ _) Hb). cbn [orb].
    rewrite (bind_Done _ _ _ _ _ (read_handle_spec w mem_handle h Hlh)).
    rewrite (bind_Done _ _ _ cls w) by (unfold get_class; unfold_M; by rewrite Hc).
    by rewrite (bind_Done _ _ _ _ _ Hr).
Qed.

(** C25: A memory handle survives the trip to another process: what
    [mem_handle_deserialize] makes of its serialized form names the same
    registered buffer (id, size, flags) and the peer that owns it, and has no
    local pointer. *)
Theorem mem_handle_serialize_roundtrip w mem_handle h cls handle_p buf :
  mem_handle <> null -> buf <> null -> handle_p <> null ->
  w_handles w !! mem_handle = Some h -> w_class w = Some cls -> handle_in_range h ->
  mapped (w_mem w) buf (handle_wire_size cls h) ->
  exists size w1 p w2,
    na_libp2p_mem_handle_get_serialize_size mem_handle w = Done size w /\
    na_libp2p_mem_handle_serialize buf size mem_handle w = Done NA_SUCCESS w1 /\
    na_libp2p_mem_handle_deserialize handle_p buf size w1 = Done (NA_SUCCESS, Some p) w2 /\
    w_handles w !! p = None /\
    w_handles w2 = <[p := mkMemHandle null (mh_buf_size h) (mh_handle_id h) (mh_flags h)
                            (Some (handle_peer cls h))]> (w_handles w).
Proof.
  intros Hh Hb Hp Hl Hc Hr Hm.
  assert (Hcls : get_class w = Done cls w) by (unfold get_class; unfold_M; by rewrite Hc).
  destruct (write_chunks_ok w buf (handle_wire_size cls h) 0 (mem_handle_chunks cls h) Hm) as (m1 & Hw & Hd & Hload & _);
    [lia|rewrite handle_chunks_len; lia|]. rewrite Z.add_0_r in Hload.
  pose proof (mem_handle_deserialize_chunks (upd_mem (fun _ => m1) w) cls h handle_p buf [] Hb Hp Hr) as Hde.
  cbv zeta in Hde. rewrite app_nil_r in Hde. specialize (Hde Hload).
  fold (chunks_len (mem_handle_chunks cls h)) in Hde. rewrite handle_chunks_len in Hde.
  do 4 eexists. split_and!; [| |exact Hde| |done].
  - unfold na_libp2p_mem_handle_get_serialize_size. rewrite (proj2 (Z.eqb_neq _ _) Hh).
    rewrite (bind_Done _ _ _ _ _ (read_handle_spec w mem_handle h Hl)). by rewrite (bind_Done _ _ _ _ _ Hcls).
  - unfold na_libp2p_mem_handle_serialize. rewrite (proj2 (Z.eqb_neq _ _) Hh), (proj2 (Z.eqb_neq _ _) Hb). cbn [orb].
    rewrite (bind_Done _ _ _ _ _ (read_handle_spec w mem_handle h Hl)).
    rewrite (bind_Done _ _ _ _ _ Hcls). by rewrite (bind_Done _ _ _ _ _ Hw).
  - cbn. apply malloc_lookup.
Qed.

End Serialize.

Module SerializeDemo.
Import Demo DemoNode.

Definition ma : multiaddr := [Ip4 Ipv4_LOCALHOST; Tcp 4000].

(** The node with an address that has a transport address and room to serialize it. *)
Definition bob : NaLibp2pAddr := mkAddr x0b (Some ma) false.
Definition with_bob : World :=
  upd_mem (fun _ => mem_of 2000 (repeat x00 400)) (upd_addrs <[60 := bob]> node).

Lemma deserialize_any_bytes_witness :
  parses w_addrs upd_addrs node (na_libp2p_addr_deserialize 1 1000 64 node).
Proof.
  exact (proj1 (deserialize_any_bytes node 1 1000 64 ltac:(apply mapped_check_sound; vm_compute; reflexivity))).
Defined.

Lemma addr_serialize_roundtrip_witness :
  exists size w1 p w2,
    na_libp2p_addr_get_serialize_size 60 with_bob = Done size with_bob /\
    na_libp2p_addr_serialize 2000 size 60 with_bob = Done NA_SUCCESS w1 /\
    na_libp2p_addr_deserialize 1 2000 size w1 = Done (NA_SUCCESS, Some p) w2 /\
    w_addrs with_bob !! p = None /\ w_addrs w2 = <[p := mkAddr x0b (Some ma) false]> (w_addrs with_bob).
Proof.
  apply (addr_serialize_roundtrip with_bob 60 bob 1 2000); [done|done|done|done| | |].
  - apply mapped_check_sound. vm_compute. reflexivity.
  - split; [|]; vm_compute; [discriminate|reflexivity].
  - intros x [= <-]. discriminate.
Defined.

Lemma serialize_overflow_witness :
  exists w', na_libp2p_addr_serialize 1000 3 50 node = Done NA_OVERFLOW w'.
Proof.
  destruct (serialize_overflow node 1000 3 50 alice_addr 70 own_handle class)
    as [H _]; try done.
  - apply mapped_check_sound. vm_compute. reflexivity.
  - destruct H as (w' & Hw & _); [vm_compute; reflexivity|]. exact (ex_intro _ w' Hw).
Defined.

Lemma mem_handle_serialize_roundtrip_witness :
  exists size w1 p w2,
    na_libp2p_mem_handle_get_serialize_size 70 node = Done size node /\
    na_libp2p_mem_handle_serialize 1000 size 70 node = Done NA_SUCCESS w1 /\
    na_libp2p_mem_handle_deserialize 1 1000 size w1 = Done (NA_SUCCESS, Some p) w2 /\
    w_handles node !! p = None /\
    w_handles w2 = <[p := mkMemHandle null 16 5 0 (Some self)]> (w_handles node).
Proof.
  apply (mem_handle_serialize_roundtrip node 70 own_handle class 1 1000); try done.
  apply mapped_check_sound. vm_compute. reflexivity.
Defined.

End SerializeDemo.
