(* ===== verification/AddrSpec.v ===== *)
(** Text addresses: what [addr_to_string] prints is what [addr_lookup] parses,
    how the two-call size protocol of [addr_to_string] behaves, and how a self
    address answers a transport hint. *)
From Stdlib Require Import ZArith Lia.
From S2P Require Import Prelude.
From S2P Require Import RustStr.
From S2P Require Import Libp2p.
From S2P Require Import Memory.
From S2P Require Import Protocol.
From S2P Require Import State.
From S2P Require Import Rma.
From S2P Require Import Addr.
From S2P Require Import Messaging.
From S2P Require Import Invariant.
From S2P Require Import Safety.
From S2P Require Import RmaSpec.
From S2P Require Import Serialize.
From S2P Require Import DemoWorld.

Section AddrSpec.
Context {LP : Libp2p} {OS : Os} {NB : NaBindings} {LPL : Libp2pLaws} {OSL : OsLaws}.
Abbreviation MW := (M World).

(** * Parsing what was printed *)

Lemma suffix_cons_inv {A} (x : A) r l : r `suffix_of` x :: l -> r <> x :: l -> r `suffix_of` l.
Proof. intros [[|y k] H] Hne; simplify_eq/=. by exists k. Qed.

(** The peer id has no slash, so the last [/p2p/] is the one before it. *)
Lemma rfind_p2p t peer :
  rfind (lit "/p2p/") (t ++ lit "/p2p/" ++ PeerId_to_string peer) = Some (length t).
Proof.
  apply rfind_app; [apply starts_with_app|]. pose proof (peer_str_no_slash peer) as Hs.
  set (q := PeerId_to_string peer) in *. cbn -[starts_with]. intros r Hr Hne.
  apply suffix_cons_inv in Hr; [|done].
  destruct (starts_with (lit "/p2p/") r) eqn:E; [|done]. apply starts_with_spec in E as [r' ->]. exfalso.
  destruct Hr as [[|z1 [|z2 [|z3 z]]] Hz]; cbn in Hz; simplify_eq.
  assert (Hq : exists k, q = k ++ x2f :: r').
  { match goal with E : _ :: q = _ ++ _ |- _ => destruct z as [|z4 z]; cbn in E; injection E as E end; subst.
    - by exists [x70; x32; x70].
    - by exists (z ++ [x2f; x70; x32; x70]); rewrite <-app_assoc. }
  destruct Hq as [k Hq]. apply Hs. rewrite Hq. elem_tauto.
Qed.

Lemma parse_stripped (is_relay : bool) name input peer :
  forall t, input = t ++ lit "/p2p/" ++ PeerId_to_string peer ->
  match strip_prefix (lit "tcp:") name with
  | Some r => r
  | None => match strip_prefix (lit "quic:") name with
            | Some r => r
            | None => default name (strip_prefix (lit "relay:") name)
            end
  end = input ->
  starts_with (lit "relay:") name = is_relay ->
  parse_lookup name =
  match t with
  | [] => Some (is_relay, peer, None)
  | _ => match ma_from_str t with Some ma => Some (is_relay, peer, Some ma) | None => None end
  end.
Proof.
  intros t Hi Hstrip Hr. unfold parse_lookup. rewrite Hstrip, Hr, Hi, rfind_p2p.
  rewrite take_app_length.
  replace (drop (length t + 5) _) with (PeerId_to_string peer).
  - by rewrite peer_str_roundtrip.
  - rewrite <-drop_drop, drop_app_length. done.
Qed.

(** Whether an address goes through a relay. *)
Definition relayed (a : NaLibp2pAddr) : bool :=
  match addr_multiaddr a with Some ma => ma_any is_p2p_circuit ma | None => false end.

Definition printable (a : NaLibp2pAddr) : Prop :=
  forall ma, addr_multiaddr a = Some ma -> ma_to_string ma <> [].

Lemma parse_format prefix ma peer is_relay :
  prefix ∈ [lit "tcp"; lit "quic"; lit "relay"] -> is_relay = bool_decide (prefix = lit "relay") ->
  ma_to_string ma <> [] ->
  parse_lookup (format_addr prefix (ma_to_string ma) peer) = Some (is_relay, peer, Some ma).
Proof.
  intros Hp -> Hne. unfold format_addr.
  erewrite (parse_stripped _ _ _ peer (ma_to_string ma) eq_refl); [|..|reflexivity].
  - destruct (ma_to_string ma) as [|b bs] eqn:E; [done|]. rewrite <-E, ma_str_roundtrip.
    rewrite !elem_of_cons, elem_of_nil in Hp. by destruct Hp as [->|[->|[->|[]]]].
  - rewrite !elem_of_cons, elem_of_nil in Hp. by destruct Hp as [->|[->|[->|[]]]].
Qed.

Lemma parse_to_addr_string a :
  printable a -> parse_lookup (to_addr_string a) = Some (relayed a, addr_peer_id a, addr_multiaddr a).
Proof.
  intros Hp. unfold to_addr_string, relayed. destruct (addr_multiaddr a) as [ma|] eqn:E.
  - rewrite (parse_format _ ma (addr_peer_id a) (ma_any is_p2p_circuit ma)); [done| | |by apply Hp].
    + unfold transport_prefix_for_multiaddr. repeat case_match; rewrite !elem_of_cons; auto.
    + unfold transport_prefix_for_multiaddr. by repeat case_match.
  - by erewrite (parse_stripped false _ _ (addr_peer_id a) [] eq_refl).
Qed.

Lemma to_addr_string_utf8 a : utf8_valid (to_addr_string a) = true.
Proof.
  unfold to_addr_string, format_addr. destruct (addr_multiaddr a) as [ma|].
  - repeat apply utf8_valid_app; try done; try apply ma_str_utf8; try apply peer_str_utf8.
    unfold transport_prefix_for_multiaddr. by repeat case_match.
  - apply utf8_valid_app; [done|apply peer_str_utf8].
Qed.

(** * Printing into a buffer *)

Lemma addr_display_plain w has_class buf a :
  addr_is_self a = false \/ buf = null -> addr_display has_class buf a w = Done (to_addr_string a) w.
Proof. unfold addr_display. intros [->| ->]; [done|]. by rewrite andb_false_r. Qed.

Lemma to_string_run w has_class buf size addr a s :
  addr <> null -> buf <> null -> w_addrs w !! addr = Some a ->
  addr_display has_class buf a w = Done s w -> mapped (w_mem w) buf size ->
  if size <? len s + 1
  then na_libp2p_addr_to_string has_class buf (Some size) addr w = Done (NA_OVERFLOW, Some (len s + 1)) w
  else exists m', na_libp2p_addr_to_string has_class buf (Some size) addr w
         = Done (NA_SUCCESS, Some (len s + 1)) (upd_mem (fun _ => m') w) /\
       mem_written (w_mem w) m' buf (s ++ [x00]).
Proof.
  intros Ha Hb Hl Hd Hm. unfold na_libp2p_addr_to_string.
  rewrite (proj2 (Z.eqb_neq _ _) Ha), (bind_Done _ _ _ _ _ (read_addr_spec w addr a Hl)), (bind_Done _ _ _ _ _ Hd).
  rewrite (proj2 (Z.eqb_neq _ _) Hb). destruct (Z.ltb_spec size (len s + 1)) as [|Hs]; [done|].
  pose proof (len_nonneg s).
  destruct (copy_to_written w buf s) as (m1 & H1 & Hw1); [eapply mapped_weaken; [done|lia|lia]|].
  rewrite (bind_Done _ _ _ _ _ H1).
  destruct (copy_to_written (upd_mem (fun _ => m1) w) (buf + len s) [x00]) as (m2 & H2 & Hw2).
  { eapply mapped_dom; [symmetry; apply Hw1|]. eapply mapped_weaken; [done|lia|]. unfold len at 2. cbn. lia. }
  rewrite (bind_Done _ _ _ _ _ H2). exists m2. split; [done|]. by eapply mem_written_app.
Qed.

(** * Looking a name up *)

Definition relay_answer_ok (r : option RelayConnectResult) : bool :=
  match r with Some Direct | Some RelayOnly => true | _ => false end.

(** The state after the lookup has issued its command. *)
Definition lookup_command (is_relay : bool) (peer : PeerId) (ma : option Multiaddr) (w : World) : World :=
  match ma with
  | None => w
  | Some m =>
      if is_relay then push_command (ConnectViaRelay peer m (w_next_oneshot w)) (upd_next_oneshot S w)
      else push_command (AddKnownAddr peer m) w
  end.

Lemma lookup_run w answer name bytes is_relay peer ma :
  is_Some (w_class w) -> mem_cstr (w_mem w) name = Some bytes ->
  parse_lookup (to_string_lossy bytes) = Some (is_relay, peer, ma) ->
  let w1 := lookup_command is_relay peer ma w in
  na_libp2p_addr_lookup answer name w =
  if is_relay && (match ma with None => true | Some _ => negb (relay_answer_ok answer) end)
  then Done (NA_PROTOCOL_ERROR, None) w1
  else Done (NA_SUCCESS, Some (malloc (dom (w_addrs w))))
         (upd_addrs <[malloc (dom (w_addrs w)) := mkAddr peer ma false]> w1).
Proof.
  intros [cls Hc] Hs Hp w1. unfold na_libp2p_addr_lookup.
  rewrite (bind_Done _ _ _ cls w) by (unfold get_class; unfold_M; by rewrite Hc).
  rewrite (bind_Done _ _ _ bytes w) by (unfold read_cstr; unfold_M; by rewrite Hs). rewrite Hp.
  assert (Hdom : dom (w_addrs w1) = dom (w_addrs w)).
  { unfold w1, lookup_command, push_command. by repeat case_match. }
  destruct is_relay, ma as [m|]; cbn [andb negb].
  - rewrite (bind_Done new_oneshot _ w (w_next_oneshot w) (upd_next_oneshot S w) eq_refl).
    rewrite (bind_Done _ _ _ _ _ (send_command_run _ _)).
    fold (lookup_command true peer (Some m) w). fold w1.
    assert (Hf : forall w2, (addr ← alloc_boxed peer (Some m) false; mret (NA_SUCCESS, Some addr) : MW _) w2
      = Done (NA_SUCCESS, Some (malloc (dom (w_addrs w2)))) (upd_addrs <[malloc (dom (w_addrs w2)) := mkAddr peer (Some m) false]> w2)) by done.
    destruct answer as [[]|]; cbn [relay_answer_ok negb]; [..|done]; rewrite ?Hf; unfold lookup_command in *; by rewrite ?Hdom.
  - done.
  - rewrite (bind_Done _ _ _ _ _ (send_command_run _ _)).
    rewrite (bind_Done _ _ _ _ _ (alloc_boxed_spec _ _ _ _)).
    change (push_command (AddKnownAddr peer m) w) with w1. by rewrite Hdom.
  - rewrite bind_mret. by rewrite (bind_Done _ _ _ _ _ (alloc_boxed_spec _ _ _ _)).
Qed.

(** * Transport hints *)

Lemma hint_bytes_nul n w buf i bs :
  x00 ∉ bs -> (length bs < n)%nat -> mem_load (w_mem w) (buf + i) (length (bs ++ [x00])) = Some (bs ++ [x00]) ->
  hint_bytes n buf i w = Done bs w.
Proof.
  revert n i. induction bs as [|b bs IH]; intros [|n] i H0 Hn Hl; cbn [hint_bytes length] in *; try lia;
    cbn [app length mem_load] in Hl; destruct (w_mem w !! (buf + i)) as [c|] eqn:E; cbn in Hl; try done;
    rewrite bind_gets, E; cbn [deref]; rewrite bind_mret.
  - simplify_eq. by rewrite bool_decide_true.
  - destruct (mem_load (w_mem w) (buf + i + 1) _) as [l|] eqn:El; cbn in Hl; [|done]. simplify_eq.
    apply not_elem_of_cons in H0 as [Hb H0]. rewrite bool_decide_false by done.
    rewrite (bind_Done _ _ _ bs w); [done|]. apply IH; [done|lia|]. by rewrite Z.add_assoc.
Qed.

(** Without a NUL the loop reads on, past the end of a short buffer. *)
Lemma hint_bytes_overrun n w buf i bs :
  x00 ∉ bs -> (length bs < n)%nat -> mem_load (w_mem w) (buf + i) (length bs) = Some bs ->
  w_mem w !! (buf + i + len bs) = None -> hint_bytes n buf i w = Fault UndefinedBehaviour.
Proof.
  revert n i. induction bs as [|b bs IH]; intros [|n] i H0 Hn Hl Hend; cbn [hint_bytes length] in *; try lia;
    rewrite bind_gets.
  - rewrite len_nil, Z.add_0_r in Hend. by rewrite Hend.
  - cbn [mem_load] in Hl. destruct (w_mem w !! (buf + i)) as [c|]; cbn in Hl; [|done].
    destruct (mem_load (w_mem w) (buf + i + 1) (length bs)) as [l|] eqn:El; cbn in Hl; [|done]. simplify_eq.
    cbn [deref]. rewrite bind_mret. apply not_elem_of_cons in H0 as [Hb H0]. rewrite bool_decide_false by done.
    unfold mbind, M_bind. rewrite (IH n (i + 1)); [done|done|lia|by rewrite Z.add_assoc|].
    rewrite len_cons in Hend. rewrite <-Hend. f_equal. lia.
Qed.

Lemma find_spec (f : Multiaddr -> bool) l x :
  x ∈ l -> f x = true -> exists y, List.find f l = Some y /\ y ∈ l /\ f y = true.
Proof.
  intros Hx Hf. destruct (List.find f l) as [y|] eqn:E.
  - apply find_some in E as [Hy Hfy]. exists y. split_and!; [done|by apply list_elem_of_In|done].
  - apply list_elem_of_In in Hx. pose proof (find_none f l E x Hx). congruence.
Qed.

Definition hint_text (h : transport_hint) : str :=
  match h with HintTcp => lit "tcp" | HintQuic => lit "quic" | HintRelay => lit "relay" end.
Definition hint_matches (h : transport_hint) (ma : Multiaddr) : bool :=
  match h with
  | HintTcp => ma_any is_tcp ma
  | HintQuic => ma_any is_quic_v1 ma
  | HintRelay => ma_any is_p2p_circuit ma
  end.

Lemma find_listen_addr_hint l h : find_listen_addr_for_hint l h = List.find (hint_matches h) l.
Proof. by destruct h. Qed.

(** * Theorems *)

(** C26: The text form of an address that is not an own one is read back:
    [addr_lookup] on what [addr_to_string] printed gives a new address with the same peer and
    transport address; a relay circuit address is looked up through the relay
    and succeeds exactly when the relayed or the direct connection does. *)
Theorem addr_string_roundtrip w has_class buf size addr a answer :
  is_Some (w_class w) -> addr <> null -> buf <> null -> w_addrs w !! addr = Some a -> addr_is_self a = false ->
  printable a -> x00 ∉ to_addr_string a -> len (to_addr_string a) + 1 <= size -> mapped (w_mem w) buf size ->
  exists w1, na_libp2p_addr_to_string has_class buf (Some size) addr w
             = Done (NA_SUCCESS, Some (len (to_addr_string a) + 1)) w1 /\
    if relayed a && negb (relay_answer_ok answer)
    then exists w2, na_libp2p_addr_lookup answer buf w1 = Done (NA_PROTOCOL_ERROR, None) w2
    else exists p w2, na_libp2p_addr_lookup answer buf w1 = Done (NA_SUCCESS, Some p) w2 /\
      w_addrs w !! p = None /\ w_addrs w2 = <[p := mkAddr (addr_peer_id a) (addr_multiaddr a) false]> (w_addrs w).
Proof.
  intros Hc Ha Hb Hl Hself Hpr H0 Hsz Hm.
  pose proof (to_string_run w has_class buf size addr a _ Ha Hb Hl
                (addr_display_plain w has_class buf a (or_introl Hself)) Hm) as H.
  rewrite (proj2 (Z.ltb_ge _ _)) in H by lia. destruct H as (m' & Hrun & Hd & Hload & _).
  exists (upd_mem (fun _ => m') w). split; [done|].
  pose proof (lookup_run (upd_mem (fun _ => m') w) answer buf (to_addr_string a) (relayed a) (addr_peer_id a)
    (addr_multiaddr a) Hc (mem_cstr_spec _ _ _ H0 Hload)) as Hlk.
  rewrite to_string_lossy_valid in Hlk by apply to_addr_string_utf8.
  specialize (Hlk (parse_to_addr_string a Hpr)). cbv zeta in Hlk. rewrite Hlk.
  assert (Hcase : (relayed a && match addr_multiaddr a with None => true | Some _ => negb (relay_answer_ok answer) end)
    = relayed a && negb (relay_answer_ok answer)).
  { unfold relayed. by destruct (addr_multiaddr a). }
  rewrite Hcase. destruct (relayed a && negb (relay_answer_ok answer)); [by eexists|].
  do 2 eexists. split; [done|]. split; [apply malloc_lookup|]. cbn. f_equal.
  unfold lookup_command, push_command. by repeat case_match.
Qed.

(** The size protocol of [addr_to_string]: a null buffer yields the size
    that is needed, a smaller buffer yields [NA_OVERFLOW] with that size and is
    not written, and a buffer of that size receives the string with its final
    NUL and no byte more. *)
Theorem addr_to_string_size_protocol w has_class buf size addr a :
  addr <> null -> buf <> null -> w_addrs w !! addr = Some a -> addr_is_self a = false -> mapped (w_mem w) buf size ->
  let needed := len (to_addr_string a) + 1 in
  na_libp2p_addr_to_string has_class null (Some size) addr w = Done (NA_SUCCESS, Some needed) w /\
  (size < needed -> na_libp2p_addr_to_string has_class buf (Some size) addr w = Done (NA_OVERFLOW, Some needed) w) /\
  (needed <= size -> exists w', na_libp2p_addr_to_string has_class buf (Some size) addr w = Done (NA_SUCCESS, Some needed) w' /\
     mem_written (w_mem w) (w_mem w') buf (to_addr_string a ++ [x00])).
Proof.
  intros Ha Hb Hl Hself Hm needed.
  pose proof (to_string_run w has_class buf size addr a _ Ha Hb Hl
                (addr_display_plain w has_class buf a (or_introl Hself)) Hm) as H.
  split_and!.
  - unfold na_libp2p_addr_to_string.
    rewrite (proj2 (Z.eqb_neq _ _) Ha), (bind_Done _ _ _ _ _ (read_addr_spec w addr a Hl)).
    rewrite (bind_Done _ _ _ _ _ (addr_display_plain w has_class null a (or_intror eq_refl))). done.
  - intros Hs. by rewrite (proj2 (Z.ltb_lt _ _)) in H.
  - intros Hs. rewrite (proj2 (Z.ltb_ge _ _)) in H by done. destruct H as (m' & Hr & Hw). by exists (upd_mem (fun _ => m') w).
Qed.

(** C27: A transport hint in the buffer selects the self address: when the node
    listens on an address of the hinted transport, the printed self address
    looks up to this peer at such a listen address. *)
Theorem self_address_follows_hint w cls buf a h ma0 :
  w_class w = Some cls -> addr_is_self a = true -> buf <> null ->
  mem_load (w_mem w) buf (length (hint_text h ++ [x00])) = Some (hint_text h ++ [x00]) ->
  ma0 ∈ cls_listen_addrs cls -> hint_matches h ma0 = true ->
  (forall ma, ma ∈ cls_listen_addrs cls -> ma_to_string ma <> []) ->
  exists s ma, addr_display true buf a w = Done s w /\
    parse_lookup s = Some (ma_any is_p2p_circuit ma, addr_peer_id a, Some ma) /\
    ma ∈ cls_listen_addrs cls /\ hint_matches h ma = true.
Proof.
  intros Hc Hself Hb Hl Hin Hm Hne. destruct (find_spec (hint_matches h) _ ma0 Hin Hm) as (ma & Hf & Hma & Hmm).
  exists (format_addr (transport_prefix_for_multiaddr ma) (ma_to_string ma) (addr_peer_id a)), ma.
  split_and!; [|apply parse_format|done|done].
  - unfold addr_display. rewrite Hself, (proj2 (Z.eqb_neq _ _) Hb). cbn [andb negb].
    rewrite (bind_Done _ _ _ cls w) by (unfold get_class; unfold_M; by rewrite Hc).
    rewrite (bind_Done _ _ _ (Some h) w).
    + by rewrite find_listen_addr_hint, Hf.
    + unfold read_transport_hint. rewrite (bind_Done _ _ _ (hint_text h) w); [by destruct h|].
      apply hint_bytes_nul; [|destruct h; cbn; lia|by rewrite Z.add_0_r].
      apply (bool_decide_unpack _). by destruct h.
  - unfold transport_prefix_for_multiaddr. repeat case_match; rewrite !elem_of_cons; auto.
  - unfold transport_prefix_for_multiaddr. by repeat case_match.
  - by apply Hne.
Qed.

(** The hint is read without regard to the buffer's size: for a self address
    and a buffer shorter than ten bytes that holds no NUL, [addr_to_string]
    reads past the end of the buffer. *)
Theorem hint_read_past_buffer w cls buf addr a bs :
  w_class w = Some cls -> addr <> null -> buf <> null -> w_addrs w !! addr = Some a -> addr_is_self a = true ->
  x00 ∉ bs -> len bs < 10 -> mem_load (w_mem w) buf (length bs) = Some bs -> w_mem w !! (buf + len bs) = None ->
  na_libp2p_addr_to_string true buf (Some (len bs)) addr w = Fault UndefinedBehaviour.
Proof.
  intros Hc Ha Hb Hl Hself H0 Hn Hld Hend. unfold na_libp2p_addr_to_string.
  rewrite (proj2 (Z.eqb_neq _ _) Ha), (bind_Done _ _ _ _ _ (read_addr_spec w addr a Hl)).
  unfold addr_display. rewrite Hself, (proj2 (Z.eqb_neq _ _) Hb). cbn [andb negb].
  unfold mbind at 1, M_bind at 1. rewrite (bind_Done get_class _ w cls w) by (unfold get_class; unfold_M; by rewrite Hc).
  unfold read_transport_hint. unfold mbind, M_bind.
  rewrite (hint_bytes_overrun 10 w buf 0 bs H0); [done|unfold len in Hn; lia|by rewrite Z.add_0_r|by rewrite Z.add_0_r].
Qed.

(** ** Comparison *)

Lemma addr_cmp_run w p q a b :
  p <> null -> q <> null -> w_addrs w !! p = Some a -> w_addrs w !! q = Some b ->
  na_libp2p_addr_cmp p q w = Done (bool_decide (addr_peer_id a = addr_peer_id b)) w.
Proof.
  intros Hp Hq Ha Hb. unfold na_libp2p_addr_cmp. destruct (Z.eqb_spec p q) as [->|_].
  - rewrite Ha in Hb. injection Hb as ->. by rewrite bool_decide_true.
  - rewrite (proj2 (Z.eqb_neq _ _) Hp), (proj2 (Z.eqb_neq _ _) Hq). cbn [orb]. mrun (read_addr_spec w p a).
    mrun (read_addr_spec w q b). done.
Qed.

(** The address [addr_self] hands out compares equal to exactly the addresses
    [addr_is_self] recognizes, itself included. *)
Theorem self_address_recognized w cls :
  w_class w = Some cls ->
  exists p w', na_libp2p_addr_self w = Done (NA_SUCCESS, p) w' /\
    na_libp2p_addr_is_self p w' = Done true w' /\
    forall q a, q <> null -> w_addrs w' !! q = Some a ->
      na_libp2p_addr_cmp p q w' = na_libp2p_addr_is_self q w'.
Proof.
  intros Hc. do 2 eexists. split.
  { unfold na_libp2p_addr_self. rewrite (bind_Done _ _ _ cls w) by (unfold get_class; unfold_M; by rewrite Hc). done. }
  set (w' := upd_addrs _ w). set (p := malloc (dom (w_addrs w))).
  assert (Hself : w_addrs w' !! p = Some (mkAddr (addr_peer_id (cls_self_addr cls)) (addr_multiaddr (cls_self_addr cls))
    (addr_is_self (cls_self_addr cls)))) by apply lookup_insert_eq.
  assert (His : forall q a, q <> null -> w_addrs w' !! q = Some a ->
    na_libp2p_addr_is_self q w' = Done (bool_decide (addr_peer_id a = addr_peer_id (cls_self_addr cls))) w').
  { intros q a Hq Ha. unfold na_libp2p_addr_is_self. rewrite (proj2 (Z.eqb_neq _ _) Hq).
    assert (Hc' : w_class w' = Some cls) by exact Hc.
    rewrite (bind_Done _ _ _ cls w') by (unfold get_class; unfold_M; by rewrite Hc'). mrun (read_addr_spec w' q a). done. }
  assert (Hp : p <> null) by apply malloc_nonnull.
  split; [rewrite (His p _ Hp Hself); by rewrite bool_decide_true|]. intros q a Hq Ha.
  rewrite (addr_cmp_run w' p q _ a Hp Hq Hself Ha), (His q a Hq Ha). f_equal. apply bool_decide_ext. cbn. split; congruence.
Qed.

End AddrSpec.

Module AddrDemo.
Import Demo DemoNode SerializeDemo.

Lemma addr_string_roundtrip_witness :
  exists w1, na_libp2p_addr_to_string true 2000 (Some 400) 60 with_bob
             = Done (NA_SUCCESS, Some (len (to_addr_string bob) + 1)) w1 /\
    exists p w2, na_libp2p_addr_lookup None 2000 w1 = Done (NA_SUCCESS, Some p) w2 /\
      w_addrs with_bob !! p = None /\ w_addrs w2 = <[p := mkAddr x0b (Some ma) false]> (w_addrs with_bob).
Proof.
  apply (addr_string_roundtrip with_bob true 2000 400 60 bob None); try done.
  - apply (bool_decide_unpack _). vm_compute. exact I.
  - apply mapped_check_sound. vm_compute. reflexivity.
Defined.

Lemma addr_to_string_size_protocol_witness :
  na_libp2p_addr_to_string true null (Some 400) 60 with_bob
  = Done (NA_SUCCESS, Some (len (to_addr_string bob) + 1)) with_bob.
Proof.
  refine (proj1 (addr_to_string_size_protocol with_bob true 2000 400 60 bob _ _ _ _ _)); try done.
  apply mapped_check_sound. vm_compute. reflexivity.
Defined.

(** A node that listens on TCP and through a relay. *)
Definition relay_ma : multiaddr := [Ip4 Ipv4_LOCALHOST; Tcp 4000; P2p x05; P2pCircuit].
Definition listening : NaLibp2pClass := mkClass (mkAddr self (Some ma) true) 1 config [ma; relay_ma] None.
Definition self_addr : NaLibp2pAddr := mkAddr self (Some ma) true.
Definition hinted (bs : list byte) : World :=
  upd_class (fun _ => Some listening) (upd_mem (fun _ => mem_of 2000 bs) (upd_addrs <[61 := self_addr]> node)).

Lemma self_address_follows_hint_witness :
  exists s m, addr_display true 2000 self_addr (hinted (lit "relay" ++ [x00])) = Done s (hinted (lit "relay" ++ [x00])) /\
    parse_lookup s = Some (ma_any is_p2p_circuit m, self, Some m) /\
    m ∈ [ma; relay_ma] /\ hint_matches HintRelay m = true.
Proof.
  apply (self_address_follows_hint (hinted (lit "relay" ++ [x00])) listening 2000 self_addr HintRelay relay_ma); try done.
  apply elem_of_cons. right. by apply list_elem_of_singleton.
Defined.

Lemma hint_read_past_buffer_witness :
  na_libp2p_addr_to_string true 2000 (Some 4) 61 (hinted (lit "quic")) = Fault UndefinedBehaviour.
Proof.
  apply (hint_read_past_buffer (hinted (lit "quic")) listening 2000 61 self_addr (lit "quic")); try done.
  apply (bool_decide_unpack _). vm_compute. exact I.
Defined.

End AddrDemo.
