(* ===== verification/Incoming.v ===== *)
(** [handle_incoming_stream] of src/src/runtime.rs: the read loop of one
    accepted stream, which dispatches every message to its handler. *)
From Stdlib Require Import ZArith Lia.
From S2P Require Import Prelude.
From S2P Require Import Frame.
From S2P Require Import RustStr.
From S2P Require Import Libp2p.
From S2P Require Import Memory.
From S2P Require Import Protocol.
From S2P Require Import State.
From S2P Require Import Messaging.
From S2P Require Import Invariant.
From S2P Require Import Safety.
From S2P Require Import Rma.
From S2P Require Import RmaSpec.
From S2P Require Import DemoWorld.

Section Incoming.
Context {LP : Libp2p} {OS : Os} {NB : NaBindings}.
Abbreviation MW := (M World).

Abbreviation message := (WireHeader * list byte)%type.

(** The [match header.msg_type]; a get request yields the response to send. *)
Definition dispatch (self : PeerId) (h : WireHeader) (payload : list byte) : MW (option message) :=
  match msg_type h with
  | Unexpected => _ ← handle_incoming_msg h payload false; mret None
  | Expected => _ ← handle_incoming_msg h payload true; mret None
  | RmaPut => _ ← handle_rma_put h payload; mret None
  | RmaGetReq => handle_rma_get_request self h
  | RmaGetResp => _ ← handle_rma_get_response h payload; mret None
  end.

Inductive stream_exit := ExitOk | ExitErr | OutOfFuel.

(** The loop.  [answers] are the outcomes of the responses it awaits, one per
    get request it answers; the result lists the responses it produced. *)
Fixpoint stream_loop (fuel : nat) (self : PeerId) (answers : list bool) (s : rstream)
    : MW (stream_exit * list message) :=
  match fuel with
  | O => mret (OutOfFuel, [])
  | S fuel' =>
      match read_message s with
      | (IErr UnexpectedEof, _) => mret (ExitOk, [])
      | (IErr _, _) => mret (ExitErr, [])
      | (IOk (h, payload), s') =>
          r ← dispatch self h payload;
          match r with
          | None => stream_loop fuel' self answers s'
          | Some resp =>
              match answers with
              | true :: answers' =>
                  '(e, rs) ← stream_loop fuel' self answers' s';
                  mret (e, resp :: rs)
              | _ => mret (ExitErr, [resp])
              end
          end
      end
  end.

(** A message takes at least 51 bytes, so one round per byte is enough. *)
Definition handle_incoming_stream (self : PeerId) (answers : list bool) (s : rstream)
    : MW (stream_exit * list message) :=
  stream_loop (S (length (rs_bytes s))) self answers s.

(** Dispatching a list of messages, in order. *)
Fixpoint dispatch_all (self : PeerId) (ms : list message) : MW (list message) :=
  match ms with
  | [] => mret []
  | (h, p) :: ms' =>
      r ← dispatch self h p;
      rs ← dispatch_all self ms';
      mret (match r with Some x => x :: rs | None => rs end)
  end.

Definition well_formed_message (m : message) : Prop :=
  header_in_range m.1 /\ payload_size m.1 = len m.2.

Definition encode_all (ms : list message) : list byte :=
  concat (map (fun m => encode_message m.1 m.2) ms).

Lemma encode_message_nonempty (h : WireHeader) p : exists b bs, encode_message h p = b :: bs.
Proof. unfold encode_message. cbn. eauto. Qed.

Lemma length_encode_all ms : (length ms <= length (encode_all ms))%nat.
Proof.
  induction ms as [|[h p] ms IH]; [done|]. unfold encode_all in *. cbn [map concat length fst snd].
  destruct (encode_message_nonempty h p) as (b & bs & ->). rewrite length_app. cbn [length]. lia.
Qed.

Context {OSL : OsLaws} {LPL : Libp2pLaws}.

Lemma dispatch_wf w self h payload :
  wf w -> header_in_range h ->
  exists r w', dispatch self h payload w = Done r w' /\ wf w' /\
    (forall x, r = Some x -> msg_type h = RmaGetReq).
Proof.
  intros Hwf (_ & _ & _ & [Ho _] & [Hr _] & _ & [Hlo _]). unfold dispatch. destruct (msg_type h) eqn:E.
  - destruct (handle_incoming_msg_wf w h payload false Hwf) as (w' & H & Hwf').
    rewrite (bind_Done _ _ _ _ _ H). do 2 eexists. by split_and!.
  - destruct (handle_incoming_msg_wf w h payload true Hwf) as (w' & H & Hwf').
    rewrite (bind_Done _ _ _ _ _ H). do 2 eexists. by split_and!.
  - destruct (handle_rma_put_wf w h payload Hwf Ho) as (w' & H & Hwf').
    rewrite (bind_Done _ _ _ _ _ H). do 2 eexists. by split_and!.
  - pose proof (handle_rma_get_request_run w self h Hwf Ho Hr) as H.
    destruct (w_registry w !! handle_id h).
    + destruct H as (data & -> & _). do 2 eexists. by split_and!.
    + rewrite H. do 2 eexists. by split_and!.
  - destruct (handle_rma_get_response_wf w h payload Hwf Hlo) as (w' & H & Hwf').
    rewrite (bind_Done _ _ _ _ _ H). do 2 eexists. by split_and!.
Qed.

Lemma stream_loop_wf fuel self answers s w :
  wf w -> (length (rs_bytes s) < fuel)%nat ->
  exists e rs w', stream_loop fuel self answers s w = Done (e, rs) w' /\ wf w' /\ e <> OutOfFuel.
Proof.
  revert answers s w. induction fuel as [|fuel IH]; intros answers s w Hwf Hf; [lia|].
  cbn [stream_loop]. destruct (read_message s) as [[[h p]|k] s'] eqn:E.
  - destruct (read_message_inv _ _ _ _ E) as (Hh & Hps & _ & raw & _ & Hlen).
    assert (Hs' : (length (rs_bytes s') < fuel)%nat).
    { unfold len in Hlen. destruct Hh as (_ & [? _] & _). lia. }
    destruct (dispatch_wf w self h p Hwf Hh) as (r & w' & Hd & Hwf' & _).
    rewrite (bind_Done _ _ _ _ _ Hd). destruct r as [resp|]; [|by apply IH].
    destruct answers as [|[] answers']; [by eauto 10| |by eauto 10].
    destruct (IH answers' s' w' Hwf' Hs') as (e & rs & w'' & Hl & Hwf'' & He).
    rewrite (bind_Done _ _ _ _ _ Hl). by eauto 10.
  - destruct k; by eauto 10.
Qed.

(** On encoded messages followed by the end of the stream, the loop is the
    dispatch of those messages in order. *)
Lemma stream_loop_messages fuel self ms w answers rs w' :
  Forall well_formed_message ms ->
  dispatch_all self ms w = Done rs w' ->
  (length ms < fuel)%nat -> answers = repeat true (length rs) ->
  stream_loop fuel self answers (mk_rstream (encode_all ms) UnexpectedEof) w = Done (ExitOk, rs) w'.
Proof.
  intros Hms. revert fuel w answers rs w'.
  induction Hms as [|[h p] ms [Hh Hp] Hms IH]; intros [|fuel] w answers rs w' Hd Hf Ha; cbn in Hf; try lia.
  - cbn in Hd. by inversion Hd; subst.
  - cbn [stream_loop]. unfold encode_all. cbn [map concat fst snd].
    destruct (read_message_reads h p Hh Hp) as [Hok _]. rewrite Hok.
    cbn [dispatch_all] in Hd. unfold mbind at 1, M_bind at 1 in Hd.
    destruct (dispatch self h p w) as [r w1|] eqn:Er; [|done]. rewrite (bind_Done _ _ _ _ _ Er).
    unfold mbind, M_bind in Hd. destruct (dispatch_all self ms w1) as [rs' w2|] eqn:Er'; [|done].
    inversion Hd; subst. destruct r as [resp|].
    + cbn [length repeat]. by rewrite (bind_Done _ _ _ _ _ (IH fuel w1 _ rs' w' Er' ltac:(lia) eq_refl)).
    + eapply IH; [exact Er'|lia|done].
Qed.

(** * Theorems *)

(** C17: Whatever bytes a peer sends, however the stream ends and whatever
    happens to the responses, the stream handler terminates without a panic or
    an invalid memory access and leaves the shared state well formed. *)
Theorem stream_never_faults self answers s w :
  wf w ->
  exists e rs w', handle_incoming_stream self answers s w = Done (e, rs) w' /\ wf w' /\ e <> OutOfFuel.
Proof. intros Hwf. apply stream_loop_wf; [done|lia]. Qed.

(** C28: On the bytes of well-formed messages the stream handler does what
    dispatching the messages one after the other does, in their order, and ends
    without an error when its responses are delivered. *)
Theorem stream_dispatches_in_order self ms w rs w' :
  Forall well_formed_message ms -> dispatch_all self ms w = Done rs w' ->
  handle_incoming_stream self (repeat true (length rs)) (mk_rstream (encode_all ms) UnexpectedEof) w
  = Done (ExitOk, rs) w'.
Proof.
  intros Hms Hd. unfold handle_incoming_stream. cbn [rs_bytes].
  apply stream_loop_messages; [done|done| |done]. pose proof (length_encode_all ms). lia.
Qed.

End Incoming.

#[export] Hint Unfold dispatch : frame.

Module IncomingDemo.
Import Demo DemoNode.

Lemma stream_never_faults_witness :
  exists e rs w', handle_incoming_stream self [] (mk_rstream [x01; xff; x00] UnexpectedEof) node = Done (e, rs) w' /\
    wf w' /\ e <> OutOfFuel.
Proof. exact (stream_never_faults self [] (mk_rstream [x01; xff; x00] UnexpectedEof) node node_wf). Defined.

(** A message of Alice that asks for the registered buffer. *)
Definition get_req : WireHeader := mkWireHeader RmaGetReq 0 0 alice 5 2 4 9 0.
Definition get_resp : WireHeader := mkWireHeader RmaGetResp 0 4 self 5 2 4 9 0.

Lemma stream_dispatches_in_order_witness :
  handle_incoming_stream self [true] (mk_rstream (encode_all [(get_req, [])]) UnexpectedEof) node
  = Done (ExitOk, [(get_resp, [x43; x44; x45; x46])]) node.
Proof.
  refine (stream_dispatches_in_order self [(get_req, [])] node [(get_resp, [x43; x44; x45; x46])] node _ _).
  - repeat constructor; vm_compute; first [discriminate | reflexivity].
  - reflexivity.
Defined.

End IncomingDemo.
