(* ===== verification/Sender.v ===== *)
(** The per-peer sender of src/src/runtime.rs: [PeerSenderPool], the writer task
    of a peer and [send_one_message], which retries on a new stream.  The swarm's
    answers to [open_stream] are an input: how many bytes and how many flushes
    each new stream will accept, or that it cannot be opened. *)
From Stdlib Require Import ZArith Lia.
From S2P Require Import Prelude.
From S2P Require Import RustStr.
From S2P Require Import Libp2p.
From S2P Require Import Memory.
From S2P Require Import Protocol.
From S2P Require Import State.
From S2P Require Import Incoming.

Section Sender.
Context {LP : Libp2p}.

(** * One message *)

Inductive send_error := OpenStreamError | WriteError (e : ErrorKind) | SendFailedAfterRetries.
Inductive send_result := SendOk | SendErr (e : send_error).

(** The writer task of one peer: its stream, if one is open, the streams it has
    given up (oldest first), the answers [open_stream] will give, and the
    milliseconds it slept. *)
Record writer := mkWriter {
  wr_stream : option wstream;
  wr_dropped : list wstream;
  wr_opens : list (option (option nat * option nat));
  wr_slept : list Z;
}.

Definition writer_new (opens : list (option (option nat * option nat))) : writer := mkWriter None [] opens [].

(** [control.open_stream]: a new stream carries nothing yet. *)
Definition open_stream (s : writer) : option wstream * writer :=
  match wr_opens s with
  | [] => (None, s)
  | None :: rest => (None, mkWriter (wr_stream s) (wr_dropped s) rest (wr_slept s))
  | Some (room, flushes) :: rest =>
      (Some (mk_wstream [] room flushes), mkWriter (wr_stream s) (wr_dropped s) rest (wr_slept s))
  end.

Definition set_stream (st : wstream) (s : writer) : writer :=
  mkWriter (Some st) (wr_dropped s) (wr_opens s) (wr_slept s).
(** [*stream_opt = None] *)
Definition drop_stream (st : wstream) (s : writer) : writer :=
  mkWriter None (wr_dropped s ++ [st]) (wr_opens s) (wr_slept s).
Definition sleep (ms : Z) (s : writer) : writer :=
  mkWriter (wr_stream s) (wr_dropped s) (wr_opens s) (wr_slept s ++ [ms]).

(** [for attempt in 0..3]: [n] iterations are left. *)
Fixpoint send_attempts (n : nat) (attempt : Z) (h : WireHeader) (payload : list byte) (s : writer)
    : send_result * writer :=
  match n with
  | O => (SendErr SendFailedAfterRetries, s)
  | S n' =>
      let write st s :=
        match write_message h payload st with
        | (IOk _, st') => (SendOk, set_stream st' s)
        | (IErr e, st') =>
            let s := drop_stream st' s in
            if attempt >=? 2 then (SendErr (WriteError e), s)
            else send_attempts n' (attempt + 1) h payload (sleep (Z.shiftl 20 attempt) s)
        end in
      match wr_stream s with
      | Some st => write st s
      | None =>
          match open_stream s with
          | (Some st, s) => write st s
          | (None, s) =>
              if attempt <? 2
              then send_attempts n' (attempt + 1) h payload (sleep (Z.shiftl 20 attempt) s)
              else (SendErr OpenStreamError, s)
          end
      end
  end.

Definition send_one_message : WireHeader -> list byte -> writer -> send_result * writer :=
  send_attempts 3 0.

(** * The writer task *)

Record OutboundMsg := mkOutbound {
  ob_header : WireHeader;
  ob_payload : list byte;
  ob_result_tx : option nat;
}.

(** The loop of [peer_writer_task] over the messages received from its channel:
    what was sent through the result channels, in order. *)
Fixpoint peer_writer_task (msgs : list OutboundMsg) (s : writer) : list (option nat * send_result) * writer :=
  match msgs with
  | [] => ([], s)
  | m :: msgs' =>
      let '(r, s) := send_one_message (ob_header m) (ob_payload m) s in
      let '(rs, s) := peer_writer_task msgs' s in
      ((ob_result_tx m, r) :: rs, s)
  end.

(** * The pool *)

Record channel := mkChannel { ch_peer : PeerId; ch_msgs : list OutboundMsg; ch_closed : bool }.

(** [chans] holds every channel ever created, each with its writer task. *)
Record PeerSenderPool := mkPool {
  pool_senders : gmap PeerId nat;
  pool_chans : gmap nat channel;
  pool_next : nat;
}.

Definition PeerSenderPool_new : PeerSenderPool := mkPool ∅ ∅ 0.

Definition is_closed (p : PeerSenderPool) (c : nat) : bool :=
  match pool_chans p !! c with Some ch => ch_closed ch | None => true end.

Definition get_or_create (peer : PeerId) (p : PeerSenderPool) : nat * PeerSenderPool :=
  let create :=
    let c := pool_next p in
    (c, mkPool (<[peer := c]> (pool_senders p)) (<[c := mkChannel peer [] false]> (pool_chans p)) (S c)) in
  match pool_senders p !! peer with
  | Some c => if negb (is_closed p c) then (c, p) else create
  | None => create
  end.

(** [tx.send(msg)]: the message is dropped, with its result channel, when the
    receiver is gone. *)
Definition chan_send (c : nat) (m : OutboundMsg) (p : PeerSenderPool) : PeerSenderPool :=
  match pool_chans p !! c with
  | Some ch =>
      if ch_closed ch then p
      else mkPool (pool_senders p)
             (<[c := mkChannel (ch_peer ch) (ch_msgs ch ++ [m]) false]> (pool_chans p)) (pool_next p)
  | None => p
  end.

(** [senders.remove(&peer)] *)
Definition remove_sender (peer : PeerId) (p : PeerSenderPool) : PeerSenderPool :=
  mkPool (delete peer (pool_senders p)) (pool_chans p) (pool_next p).

(** * What the peer reads *)

Abbreviation message := (WireHeader * list byte)%type.

(** All messages of a stream, and the error that ends it. *)
Fixpoint read_all (fuel : nat) (s : rstream) : list message * option ErrorKind :=
  match fuel with
  | O => ([], None)
  | S fuel' =>
      match read_message s with
      | (IOk m, s') => let '(ms, e) := read_all fuel' s' in (m :: ms, e)
      | (IErr e, _) => ([], Some e)
      end
  end.

(** What the peer reads from the bytes of one stream once it is closed. *)
Definition received (bs : list byte) : list message :=
  (read_all (S (length bs)) (mk_rstream bs UnexpectedEof)).1.

(** All streams of a writer, in the order they were opened. *)
Definition wr_streams (s : writer) : list wstream := wr_dropped s ++ option_list (wr_stream s).

Definition delivered_to_peer (s : writer) : list message :=
  concat (map (fun st => received (ws_sent st)) (wr_streams s)).

(** Whole messages, then possibly the beginning of another one. *)
Definition carries (bs : list byte) (ms : list message) : Prop :=
  Forall well_formed_message ms /\ exists tail, bs = encode_all ms ++ tail /\
    (tail = [] \/ exists m, well_formed_message m /\ strict_prefix tail (encode_message m.1 m.2)).

Lemma encode_all_app ms ms' : encode_all (ms ++ ms') = encode_all ms ++ encode_all ms'.
Proof. unfold encode_all. by rewrite map_app, concat_app. Qed.

Lemma encode_all_one m : encode_all [m] = encode_message m.1 m.2.
Proof. unfold encode_all. cbn. by rewrite app_nil_r. Qed.

Context {LPL : Libp2pLaws}.

Lemma read_all_carries fuel ms tail :
  Forall well_formed_message ms ->
  (tail = [] \/ exists m, well_formed_message m /\ strict_prefix tail (encode_message m.1 m.2)) ->
  (length ms < fuel)%nat ->
  read_all fuel (mk_rstream (encode_all ms ++ tail) UnexpectedEof) = (ms, Some UnexpectedEof).
Proof.
  intros Hms Ht. revert fuel. induction Hms as [|[h p] ms [Hh Hp] Hms IH]; intros [|fuel] Hf; cbn in Hf; try lia.
  - cbn [read_all encode_all map concat app]. destruct Ht as [->|([h p] & [Hh Hp] & Ht)]; [done|].
    destruct (read_message_reads h p Hh Hp) as [_ Herr]. cbn in Ht. by rewrite (Herr tail UnexpectedEof Ht).
  - cbn [read_all]. unfold encode_all. cbn [map concat fst snd]. rewrite <-app_assoc.
    destruct (read_message_reads h p Hh Hp) as [Hok _]. rewrite Hok. fold (encode_all ms).
    by rewrite IH by lia.
Qed.

Lemma received_carries bs ms : carries bs ms -> received bs = ms.
Proof.
  intros (Hms & tail & -> & Ht). unfold received. rewrite read_all_carries; [done|done|done|].
  rewrite length_app. pose proof (length_encode_all ms). lia.
Qed.

(** * The writer's invariant *)

(** Its streams carry the messages [ms]; the open one ends at a message boundary. *)
Definition writer_inv (s : writer) (ms : list message) : Prop :=
  exists mss ms2, Forall2 (fun st l => carries (ws_sent st) l) (wr_dropped s) mss /\
    Forall well_formed_message ms2 /\
    match wr_stream s with Some st => ws_sent st = encode_all ms2 | None => ms2 = [] end /\
    ms = concat mss ++ ms2.

Lemma writer_inv_delivered s ms : writer_inv s ms -> delivered_to_peer s = ms.
Proof.
  intros (mss & ms2 & Hd & Hw & Hc & ->). unfold delivered_to_peer, wr_streams. rewrite map_app, concat_app. f_equal.
  - f_equal. induction Hd as [|st l sts ls Hst _ IH]; [done|]. cbn. by rewrite IH, (received_carries _ _ Hst).
  - destruct (wr_stream s) as [st|]; [|by subst]. cbn. rewrite app_nil_r, Hc. apply received_carries.
    split; [done|]. exists []. rewrite app_nil_r. auto.
Qed.

(** Giving up the stream: nothing more, or the message that failed, was
    delivered on it. *)
Lemma writer_inv_drop s ms st h p k st' :
  writer_inv s ms -> wr_stream s = Some st -> well_formed_message (h, p) ->
  write_message h p st = (IErr k, st') ->
  exists n, (n <= 1)%nat /\ writer_inv (drop_stream st' s) (ms ++ repeat (h, p) n) /\
    (ws_flushes st <> Some O -> n = 0%nat).
Proof.
  intros (mss & ms2 & Hd & Hw & Hc & ->) Hs Hm Hwr. rewrite Hs in Hc.
  apply write_message_err in Hwr as [(bs & Hsent & Hpre)|[Hsent Hf]].
  - exists 0%nat. split; [lia|]. split; [|done]. exists (mss ++ [ms2]), []. cbn. split_and!; try done.
    + apply Forall2_app; [done|]. constructor; [|constructor]. split; [done|]. exists bs. rewrite Hsent, Hc.
      split; [done|]. right. by exists (h, p).
    + rewrite concat_app. cbn. by rewrite !app_nil_r.
  - exists 1%nat. split; [lia|]. split; [|done]. exists (mss ++ [ms2 ++ [(h, p)]]), []. cbn. split_and!; try done.
    + apply Forall2_app; [done|]. constructor; [|constructor]. split; [apply Forall_app; auto|]. exists [].
      rewrite app_nil_r, Hsent, Hc, encode_all_app, encode_all_one. auto.
    + rewrite concat_app. cbn. by rewrite !app_nil_r, app_assoc.
Qed.

Lemma writer_inv_written s ms st h p st' :
  writer_inv s ms -> wr_stream s = Some st -> well_formed_message (h, p) ->
  write_message h p st = (IOk tt, st') -> writer_inv (set_stream st' s) (ms ++ [(h, p)]).
Proof.
  intros (mss & ms2 & Hd & Hw & Hc & ->) Hs Hm Hwr%write_message_ok. rewrite Hs in Hc.
  exists mss, (ms2 ++ [(h, p)]). cbn. split_and!; [done|apply Forall_app; auto| |by rewrite app_assoc].
  by rewrite Hwr, Hc, encode_all_app, encode_all_one.
Qed.

Lemma writer_inv_open s ms st s' :
  writer_inv s ms -> wr_stream s = None -> open_stream s = (Some st, s') -> writer_inv (set_stream st s') ms.
Proof.
  intros (mss & ms2 & Hd & Hw & Hc & ->) Hs. rewrite Hs in Hc. subst. unfold open_stream.
  destruct (wr_opens s) as [|[[room fl]|] rest]; intros [= <- <-]. exists mss, []. by split_and!.
Qed.

Lemma writer_inv_ext s s' ms :
  wr_stream s' = wr_stream s -> wr_dropped s' = wr_dropped s -> writer_inv s ms -> writer_inv s' ms.
Proof. intros H1 H2 (mss & ms2 & Hd & Hw & Hc & ->). exists mss, ms2. rewrite H1, H2. by split_and!. Qed.

Lemma open_stream_None s s' :
  open_stream s = (None, s') -> wr_stream s' = wr_stream s /\ wr_dropped s' = wr_dropped s.
Proof. unfold open_stream. by destruct (wr_opens s) as [|[[]|]]; intros [= <-]. Qed.

(** Flushes never fail, on this stream or on those to come. *)
Definition flush_safe (s : writer) : Prop :=
  (forall st, wr_stream s = Some st -> ws_flushes st = None) /\
  Forall (fun o => match o with Some (_, f) => f = None | None => True end) (wr_opens s).

Lemma write_message_flushes h p st r st' :
  write_message h p st = (r, st') -> ws_flushes st = None -> ws_flushes st' = None.
Proof. unfold write_message, write_all, flush. repeat case_match; intros; by simplify_eq/=. Qed.

Lemma flush_safe_open s st s' :
  flush_safe s -> open_stream s = (Some st, s') -> flush_safe (set_stream st s').
Proof.
  intros [Hc Ho]. unfold open_stream. destruct (wr_opens s) as [|[[room fl]|] rest]; intros [= <- <-].
  apply Forall_cons in Ho as [-> Ho]. split; [|done]. cbn. by intros st [= <-].
Qed.

Lemma flush_safe_failed_open s s' : flush_safe s -> open_stream s = (None, s') -> flush_safe s'.
Proof.
  intros [Hc Ho]. unfold open_stream. destruct (wr_opens s) as [|[[room fl]|] rest] eqn:E; intros [= <-].
  - split; [done|]. by rewrite E.
  - apply Forall_cons in Ho as [_ Ho]. by split.
Qed.

(** The number of copies of the message the peer can read, for each outcome. *)
Definition copies_ok (r : send_result) (k : nat) : Prop := r = SendOk -> (1 <= k)%nat.
Definition copies_exact (r : send_result) (k : nat) : Prop := k = match r with SendOk => 1%nat | SendErr _ => 0%nat end.

(** The outcome of [send_attempts] from [s], for a message [m]. *)
Definition attempts_spec (n : nat) (m : message) (s : writer) (out : send_result * writer) : Prop :=
  forall ms, writer_inv s ms -> exists k, (k <= n)%nat /\ writer_inv out.2 (ms ++ repeat m k) /\
    copies_ok out.1 k /\ (flush_safe s -> flush_safe out.2 /\ copies_exact out.1 k).

(** One write on the stream [st], followed by whatever [retry] does. *)
Lemma write_attempt_spec n h p st s (fail : ErrorKind -> writer -> send_result * writer) :
  well_formed_message (h, p) -> wr_stream s = Some st ->
  (forall e s1, attempts_spec n (h, p) s1 (fail e s1)) ->
  attempts_spec (S n) (h, p) s
    (match write_message h p st with
     | (IOk _, st') => (SendOk, set_stream st' s)
     | (IErr e, st') => fail e (drop_stream st' s)
     end).
Proof.
  intros Hm Hs Hfail ms Hinv. destruct (write_message h p st) as [[[]|e] st'] eqn:E.
  - exists 1%nat. split; [lia|]. split; [by eapply writer_inv_written|]. split; [by intros _|].
    intros [Hc Ho]. split; [|done]. split; [|done]. cbn. intros x [= <-]. eapply write_message_flushes; eauto.
  - destruct (writer_inv_drop s ms st h p e st' Hinv Hs Hm E) as (k & Hk & Hinv' & Hz).
    destruct (Hfail e (drop_stream st' s) _ Hinv') as (k' & Hk' & Hinv'' & Hok & Hex).
    exists (k + k')%nat. split; [lia|]. split; [by rewrite repeat_app, app_assoc|]. split.
    + intros Hr. specialize (Hok Hr). lia.
    + intros [Hc Ho]. rewrite (Hz ltac:(by rewrite (Hc st Hs))). apply Hex. by split.
Qed.

Lemma attempts_spec_ext n m s s1 out :
  wr_stream s1 = wr_stream s -> wr_dropped s1 = wr_dropped s -> (flush_safe s -> flush_safe s1) ->
  attempts_spec n m s1 out -> attempts_spec n m s out.
Proof.
  intros H1 H2 Hf H ms Hinv. destruct (H ms) as (k & Hk & Hi & Hok & Hex); [by eapply writer_inv_ext|].
  exists k. split_and!; try done. intros Hs. by apply Hex, Hf.
Qed.

Lemma attempts_spec_error n m s e : attempts_spec n m s (SendErr e, s).
Proof. intros ms Hinv. exists 0%nat. split; [lia|]. cbn. rewrite app_nil_r. by split_and!. Qed.

Lemma send_attempts_spec n a h p s :
  well_formed_message (h, p) -> attempts_spec n (h, p) s (send_attempts n a h p s).
Proof.
  intros Hm. revert a s. induction n as [|n IH]; intros a s; [apply attempts_spec_error|]. cbn [send_attempts].
  assert (Hretry : forall a s, attempts_spec n (h, p) s (send_attempts n (a + 1) h p (sleep (Z.shiftl 20 a) s))).
  { intros a' s1. by eapply attempts_spec_ext; [..|apply IH]. }
  assert (Hwrite : forall st s, wr_stream s = Some st -> attempts_spec (S n) (h, p) s
    (match write_message h p st with
     | (IOk _, st') => (SendOk, set_stream st' s)
     | (IErr e, st') =>
         if a >=? 2 then (SendErr (WriteError e), drop_stream st' s)
         else send_attempts n (a + 1) h p (sleep (Z.shiftl 20 a) (drop_stream st' s))
     end)).
  { intros st s1 Hs1. apply (write_attempt_spec n h p st s1 (fun e s => if a >=? 2 then (SendErr (WriteError e), s)
      else send_attempts n (a + 1) h p (sleep (Z.shiftl 20 a) s))); [done|done|].
    intros e s2. destruct (a >=? 2); [apply attempts_spec_error|apply Hretry]. }
  destruct (wr_stream s) as [st|] eqn:Es; [by apply Hwrite|].
  destruct (open_stream s) as [[st|] s1] eqn:Eo.
  - intros ms Hinv. pose proof (writer_inv_open _ _ _ _ Hinv Es Eo) as Hinv1.
    destruct (Hwrite st (set_stream st s1) eq_refl ms Hinv1) as (k & Hk & Hi & Hok & Hex).
    exists k. split_and!; [done|exact Hi|exact Hok|]. intros Hf. apply Hex. by eapply flush_safe_open.
  - destruct (open_stream_None _ _ Eo) as [H1 H2].
    intros ms Hinv. assert (Hs : attempts_spec n (h, p) s1
      (if a <? 2 then send_attempts n (a + 1) h p (sleep (Z.shiftl 20 a) s1) else (SendErr OpenStreamError, s1))).
    { destruct (a <? 2); [apply Hretry|apply attempts_spec_error]. }
    destruct (attempts_spec_ext _ _ s s1 _ H1 H2 (fun Hf => flush_safe_failed_open _ _ Hf Eo) Hs ms Hinv)
      as (k & Hk & Hrest). exists k. split; [lia|done].
Qed.

(** The copies of each message, in the order of the messages. *)
Definition with_copies (msgs : list OutboundMsg) (ks : list nat) : list message :=
  concat (zip_with (fun m k => repeat (ob_header m, ob_payload m) k) msgs ks).

Definition outbound_ok (m : OutboundMsg) : Prop := well_formed_message (ob_header m, ob_payload m).

Lemma writer_task_spec msgs s ms :
  writer_inv s ms -> Forall outbound_ok msgs ->
  exists rs s' ks, peer_writer_task msgs s = (zip (map ob_result_tx msgs) rs, s') /\ length rs = length msgs /\
    writer_inv s' (ms ++ with_copies msgs ks) /\
    Forall2 (fun r k => (k <= 3)%nat /\ copies_ok r k) rs ks /\
    (flush_safe s -> Forall2 copies_exact rs ks).
Proof.
  intros Hinv Hok. revert s ms Hinv. induction Hok as [|m msgs Hm Hok IH]; intros s ms Hinv.
  { exists [], s, []. unfold with_copies. cbn. rewrite app_nil_r. split_and!; by try constructor. }
  cbn [peer_writer_task]. unfold send_one_message.
  pose proof (send_attempts_spec 3 0 (ob_header m) (ob_payload m) s Hm ms Hinv) as H.
  destruct (send_attempts 3 0 (ob_header m) (ob_payload m) s) as [r s1].
  destruct H as (k & Hk & Hinv1 & Hcopies & Hexact). destruct (IH s1 _ Hinv1) as (rs & s' & ks & Ht & Hl & Hi & Hks & Hex).
  exists (r :: rs), s', (k :: ks). rewrite Ht. split_and!; [done|by cbn; rewrite Hl| | |].
  - unfold with_copies in *. cbn. by rewrite app_assoc.
  - by constructor.
  - intros Hf. destruct (Hexact Hf) as [Hf' He]. constructor; [done|]. by apply Hex.
Qed.

Lemma writer_inv_new opens : writer_inv (writer_new opens) [].
Proof. exists [], []. by repeat constructor. Qed.

(** * Delays *)

Lemma send_attempts_delays n a h p s :
  exists d, wr_slept (send_attempts n a h p s).2 = wr_slept s ++ d /\
    d `prefix_of` map (Z.shiftl 20) (seqZ a (Z.max 0 (2 - a))).
Proof.
  revert a s. induction n as [|n IH]; intros a s; cbn [send_attempts].
  { exists []. rewrite app_nil_r. split; [done|apply prefix_nil]. }
  assert (Hstop : forall e s1, wr_slept s1 = wr_slept s -> exists d, wr_slept (SendErr e, s1).2 = wr_slept s ++ d /\
    d `prefix_of` map (Z.shiftl 20) (seqZ a (Z.max 0 (2 - a)))).
  { intros e s1 H1. exists []. rewrite app_nil_r. split; [done|apply prefix_nil]. }
  assert (Hgo : forall s1, a < 2 -> wr_slept s1 = wr_slept s ->
    exists d, wr_slept (send_attempts n (a + 1) h p (sleep (Z.shiftl 20 a) s1)).2 = wr_slept s ++ d /\
      d `prefix_of` map (Z.shiftl 20) (seqZ a (Z.max 0 (2 - a)))).
  { intros s1 Ha Hs1. destruct (IH (a + 1) (sleep (Z.shiftl 20 a) s1)) as (d & Hd & Hp).
    exists (Z.shiftl 20 a :: d). split; [by rewrite Hd; cbn; rewrite Hs1, <-app_assoc|].
    rewrite seqZ_cons by lia. cbn [map]. apply prefix_cons.
    replace (Z.pred (Z.max 0 (2 - a))) with (Z.max 0 (2 - (a + 1))) by lia. done. }
  assert (Hw : forall st s1, wr_slept s1 = wr_slept s -> exists d,
    wr_slept (match write_message h p st with
     | (IOk _, st') => (SendOk, set_stream st' s1)
     | (IErr e, st') =>
         if a >=? 2 then (SendErr (WriteError e), drop_stream st' s1)
         else send_attempts n (a + 1) h p (sleep (Z.shiftl 20 a) (drop_stream st' s1))
     end).2 = wr_slept s ++ d /\ d `prefix_of` map (Z.shiftl 20) (seqZ a (Z.max 0 (2 - a)))).
  { intros st s1 Hs1. destruct (write_message h p st) as [[[]|e] st'].
    - exists []. rewrite app_nil_r. split; [done|apply prefix_nil].
    - destruct (Z.geb_spec a 2); [by apply Hstop|by apply Hgo]. }
  destruct (wr_stream s) as [st|]; [by apply Hw|].
  destruct (open_stream s) as [[st|] s1] eqn:Eo;
    (assert (Hs1 : wr_slept s1 = wr_slept s)
      by (unfold open_stream in Eo; by destruct (wr_opens s) as [|[[]|]]; simplify_eq)); [by apply Hw|].
  destruct (Z.ltb_spec a 2); [by apply Hgo|by apply Hstop].
Qed.

(** The [Err] after the loop is not reached: the last attempt returns. *)
Lemma send_attempts_returns n a h p s :
  (1 <= n)%nat -> a + Z.of_nat n = 3 -> (send_attempts n a h p s).1 <> SendErr SendFailedAfterRetries.
Proof.
  revert a s. induction n as [|n IH]; intros a s Hn Ha; [lia|]. cbn [send_attempts].
  assert (Hw : forall st s1, (match write_message h p st with
     | (IOk _, st') => (SendOk, set_stream st' s1)
     | (IErr e, st') =>
         if a >=? 2 then (SendErr (WriteError e), drop_stream st' s1)
         else send_attempts n (a + 1) h p (sleep (Z.shiftl 20 a) (drop_stream st' s1))
     end).1 <> SendErr SendFailedAfterRetries).
  { intros st s1. destruct (write_message h p st) as [[[]|e] st']; [done|].
    destruct (Z.geb_spec a 2); [done|]. apply IH; lia. }
  destruct (wr_stream s) as [st|]; [by apply Hw|]. destruct (open_stream s) as [[st|] s1]; [by apply Hw|].
  destruct (Z.ltb_spec a 2); [apply IH; lia|done].
Qed.

Lemma with_copies_exact msgs rs ks :
  Forall2 copies_exact rs ks -> length rs = length msgs ->
  with_copies msgs ks
  = omap (fun '(m, r) => match r with SendOk => Some (ob_header m, ob_payload m) | SendErr _ => None end) (zip msgs rs).
Proof.
  intros H. revert msgs. unfold with_copies. induction H as [|r k rs ks Hk H IH]; intros [|m msgs] Hl; try done.
  cbn in Hl. cbn. rewrite IH by lia. rewrite Hk. by destruct r.
Qed.

(** * Theorems *)

(** A peer's writer task answers every message of its channel once, in
    order, and what the peer can read from its streams is those messages in the
    same order: a message reported as sent is there at least once and at most
    three times, one per attempt, and no partial message is ever read. *)
Theorem writer_task_delivers_in_order msgs opens :
  Forall outbound_ok msgs ->
  exists rs s' ks, peer_writer_task msgs (writer_new opens) = (zip (map ob_result_tx msgs) rs, s') /\
    length rs = length msgs /\ delivered_to_peer s' = with_copies msgs ks /\
    Forall2 (fun r k => (k <= 3)%nat /\ (r = SendOk -> (1 <= k)%nat)) rs ks.
Proof.
  intros Hok. destruct (writer_task_spec msgs _ [] (writer_inv_new opens) Hok) as (rs & s' & ks & Ht & Hl & Hi & Hk & _).
  exists rs, s', ks. split_and!; try done. by apply writer_inv_delivered.
Qed.

(** As long as no flush fails, delivery is exactly once: the peer reads the
    messages that were reported as sent, each once and in order, and none that
    was reported as failed, however many streams broke in between. *)
Theorem writer_task_exactly_once msgs opens :
  Forall outbound_ok msgs ->
  Forall (fun o => match o with Some (_, f) => f = None | None => True end) opens ->
  exists rs s', peer_writer_task msgs (writer_new opens) = (zip (map ob_result_tx msgs) rs, s') /\
    length rs = length msgs /\
    delivered_to_peer s'
    = omap (fun '(m, r) => match r with SendOk => Some (ob_header m, ob_payload m) | SendErr _ => None end)
        (zip msgs rs).
Proof.
  intros Hok Hf. destruct (writer_task_spec msgs _ [] (writer_inv_new opens) Hok) as (rs & s' & ks & Ht & Hl & Hi & _ & He).
  exists rs, s'. split_and!; try done. rewrite <-(with_copies_exact msgs rs ks); [by apply writer_inv_delivered| |done].
  by apply He.
Qed.

(** C33: [send_one_message] is bounded: whatever the streams do, it sleeps 20 ms
    and then 40 ms at most, and the error after its loop is never returned. *)
Theorem send_one_message_bounded h p s :
  exists d, wr_slept (send_one_message h p s).2 = wr_slept s ++ d /\ d `prefix_of` [20; 40] /\
    (send_one_message h p s).1 <> SendErr SendFailedAfterRetries.
Proof.
  destruct (send_attempts_delays 3 0 h p s) as (d & Hd & Hp). exists d. split_and!; [done|done|].
  apply send_attempts_returns; lia.
Qed.

End Sender.

Module SenderDemo.
Import Demo ProtocolDemo.

Definition outbound : list OutboundMsg := [mkOutbound header body (Some 0%nat); mkOutbound header body (Some 1%nat)].

Lemma outbound_all_ok : Forall outbound_ok outbound.
Proof. repeat constructor; apply header_ok. Qed.

(** The first stream breaks after ten bytes, the second cannot be opened, the
    third one works. *)
Definition opens : list (option (option nat * option nat)) := [Some (Some 10%nat, None); None; Some (None, None)].

Lemma writer_task_delivers_in_order_witness :
  exists rs s' ks, peer_writer_task outbound (writer_new opens) = (zip (map ob_result_tx outbound) rs, s') /\
    delivered_to_peer s' = with_copies outbound ks.
Proof.
  destruct (writer_task_delivers_in_order outbound opens outbound_all_ok) as (rs & s' & ks & H1 & _ & H2 & _).
  exact (ex_intro _ rs (ex_intro _ s' (ex_intro _ ks (conj H1 H2)))).
Defined.

Lemma writer_task_exactly_once_witness :
  exists rs s', peer_writer_task outbound (writer_new opens) = (zip (map ob_result_tx outbound) rs, s') /\
    length rs = 2%nat.
Proof.
  destruct (writer_task_exactly_once outbound opens outbound_all_ok) as (rs & s' & H1 & H2 & _).
  - repeat constructor.
  - exact (ex_intro _ rs (ex_intro _ s' (conj H1 H2))).
Defined.

End SenderDemo.
