(* ===== verification/EventLoop.v ===== *)
(** The event loop of [spawn_swarm_task] in src/src/runtime.rs: its three
    [select!] arms (swarm events, commands of the NA thread, the hole-punching
    timer) and the completion tasks it spawns.  The swarm is outside: what it
    answers ([is_connected], whether [dial] is accepted, the clock) is the input
    of a step, and the calls made on it are recorded. *)
From Stdlib Require Import ZArith Lia.
From S2P Require Import Prelude.
From S2P Require Import Frame.
From S2P Require Import RustStr.
From S2P Require Import Libp2p.
From S2P Require Import Memory.
From S2P Require Import Protocol.
From S2P Require Import State.
From S2P Require Import Incoming.
From S2P Require Import Sender.

Section EventLoop.
Context {LP : Libp2p} {OS : Os} {NB : NaBindings}.

(** * Multiaddresses *)

Definition is_p2p (p : Protocol PeerId Other) : bool :=
  match p with P2p _ => true | _ => false end.

Definition p2p_peer (p : Protocol PeerId Other) : option PeerId :=
  match p with P2p peer_id => Some peer_id | _ => None end.

(** [filter_map(..).last()] *)
Definition extract_peer_id_from_multiaddr (ma : Multiaddr) : option PeerId :=
  last (omap p2p_peer (ma_iter ma)).

(** [take_while(|p| !matches!(p, Protocol::P2p(_)))] *)
Fixpoint take_while {A} (f : A -> bool) (l : list A) : list A :=
  match l with
  | [] => []
  | x :: l' => if f x then x :: take_while f l' else []
  end.

Definition relay_transport_ma (relay_ma : Multiaddr) : Multiaddr :=
  ma_collect (take_while (fun p => negb (is_p2p p)) (ma_iter relay_ma)).

(** * State of the loop *)

(** In milliseconds. *)
Definition DCUTR_TIMEOUT : Z := 10000.

Record PendingDcutr := mkPending {
  pd_result_tx : option nat;
  pd_relay_connected : bool;
  pd_deadline : Z;
}.

Inductive swarm_call :=
| AddPeerAddress (peer : PeerId) (addr : Multiaddr)
| Dial (peer : PeerId) (addrs : list Multiaddr).

(** A spawned task that awaits the result of a send; a get completes its
    operation here only when the request could not be sent. *)
Record completion_task := mkTask {
  ct_result_rx : nat;
  ct_op_ptr : Z;
  ct_is_get : bool;
}.

Record loop_state := mkLoop {
  lp_peer_addrs : gmap PeerId Multiaddr;
  lp_pending : gmap PeerId PendingDcutr;
  lp_pool : PeerSenderPool;
  lp_tasks : list completion_task;
  lp_next_result : nat;
  lp_answers : list (nat * RelayConnectResult);  (** sent through the lookups' oneshots *)
  lp_calls : list swarm_call;
  lp_running : bool;
}.

Definition loop_new : loop_state := mkLoop ∅ ∅ PeerSenderPool_new [] 0 [] [] true.

Definition lp_set_peer_addr (p : PeerId) (ma : Multiaddr) (l : loop_state) : loop_state :=
  mkLoop (<[p := ma]> (lp_peer_addrs l)) (lp_pending l) (lp_pool l) (lp_tasks l) (lp_next_result l)
    (lp_answers l) (lp_calls l) (lp_running l).
Definition lp_set_pending (f : gmap PeerId PendingDcutr -> gmap PeerId PendingDcutr) (l : loop_state) : loop_state :=
  mkLoop (lp_peer_addrs l) (f (lp_pending l)) (lp_pool l) (lp_tasks l) (lp_next_result l)
    (lp_answers l) (lp_calls l) (lp_running l).
Definition lp_set_pool (f : PeerSenderPool -> PeerSenderPool) (l : loop_state) : loop_state :=
  mkLoop (lp_peer_addrs l) (lp_pending l) (f (lp_pool l)) (lp_tasks l) (lp_next_result l)
    (lp_answers l) (lp_calls l) (lp_running l).
Definition lp_call (c : swarm_call) (l : loop_state) : loop_state :=
  mkLoop (lp_peer_addrs l) (lp_pending l) (lp_pool l) (lp_tasks l) (lp_next_result l)
    (lp_answers l) (lp_calls l ++ [c]) (lp_running l).
Definition lp_stop (l : loop_state) : loop_state :=
  mkLoop (lp_peer_addrs l) (lp_pending l) (lp_pool l) (lp_tasks l) (lp_next_result l)
    (lp_answers l) (lp_calls l) false.

(** [if let Some(tx) = pending.result_tx.take() { let _ = tx.send(r); }] *)
Definition answer (tx : option nat) (r : RelayConnectResult) (l : loop_state) : loop_state :=
  match tx with
  | Some t => mkLoop (lp_peer_addrs l) (lp_pending l) (lp_pool l) (lp_tasks l) (lp_next_result l)
                (lp_answers l ++ [(t, r)]) (lp_calls l) (lp_running l)
  | None => l
  end.

(** The result channel of a message and the task that awaits it. *)
Definition spawn_task (op_ptr : Z) (is_get : bool) (l : loop_state) : loop_state :=
  mkLoop (lp_peer_addrs l) (lp_pending l) (lp_pool l)
    (lp_tasks l ++ [mkTask (lp_next_result l) op_ptr is_get]) (S (lp_next_result l))
    (lp_answers l) (lp_calls l) (lp_running l).

(** What the swarm and the clock answer during one step. *)
Record swarm_view := mkView {
  sv_is_connected : PeerId -> bool;
  sv_dial_ok : PeerId -> bool;
  sv_now : Z;
}.

(** * Commands *)

(** The dial the three sending commands share. *)
Definition dial_if_disconnected (v : swarm_view) (peer : PeerId) (l : loop_state) : loop_state :=
  if negb (sv_is_connected v peer)
  then match lp_peer_addrs l !! peer with
       | Some addr => lp_call (Dial peer [addr]) l
       | None => l
       end
  else l.

(** Hands a message to the peer's writer and spawns the completion task. *)
Definition enqueue (peer : PeerId) (h : WireHeader) (payload : list byte) (op_ptr : Z) (is_get : bool)
    (l : loop_state) : loop_state :=
  let '(c, pool) := get_or_create peer (lp_pool l) in
  spawn_task op_ptr is_get
    (lp_set_pool (fun _ => chan_send c (mkOutbound h payload (Some (lp_next_result l))) pool) l).

Definition send_header (t : MessageType) (tag : Z) (payload : list byte) (source : PeerId) : WireHeader :=
  mkWireHeader t tag (wrap 32 (len payload)) source 0 0 0 0 0.
Definition put_header (data : list byte) (source : PeerId) (remote_handle_id remote_offset : Z) : WireHeader :=
  mkWireHeader RmaPut 0 (wrap 32 (len data)) source remote_handle_id remote_offset (len data) 0 0.
Definition get_header (source : PeerId)
    (remote_handle_id remote_offset length local_handle_id local_offset : Z) : WireHeader :=
  mkWireHeader RmaGetReq 0 0 source remote_handle_id remote_offset length local_handle_id local_offset.

Definition handle_command (v : swarm_view) (c : option Command) (l : loop_state) : loop_state :=
  match c with
  | Some Shutdown | None => lp_stop l
  | Some (AddKnownAddr peer_id multiaddr) =>
      lp_call (Dial peer_id [multiaddr])
        (lp_call (AddPeerAddress peer_id multiaddr) (lp_set_peer_addr peer_id multiaddr l))
  | Some (ConnectViaRelay peer_id circuit result_tx) =>
      let l := lp_call (Dial peer_id [circuit])
                 (lp_call (AddPeerAddress peer_id circuit) (lp_set_peer_addr peer_id circuit l)) in
      if sv_dial_ok v peer_id
      then lp_set_pending <[peer_id := mkPending (Some result_tx) false (sv_now v + DCUTR_TIMEOUT)]> l
      else answer (Some result_tx) Failed l
  | Some (SendMessage dest t tag payload op_ptr source) =>
      enqueue dest (send_header t tag payload source) payload op_ptr false (dial_if_disconnected v dest l)
  | Some (CmdRmaPut peer data remote_handle_id remote_offset op_ptr source) =>
      enqueue peer (put_header data source remote_handle_id remote_offset) data op_ptr false
        (dial_if_disconnected v peer l)
  | Some (RmaGetRequest peer remote_handle_id remote_offset length local_handle_id local_offset op_ptr source) =>
      enqueue peer (get_header source remote_handle_id remote_offset length local_handle_id local_offset) []
        op_ptr true (dial_if_disconnected v peer l)
  end.

(** * Swarm events *)

Inductive swarm_event :=
| ConnectionEstablished (peer : PeerId) (relayed : bool) (remote : Multiaddr)
| ConnectionClosed (peer : PeerId) (num_established : Z)
| OutgoingConnectionError (peer : option PeerId)
| DcutrEvent (peer : PeerId) (ok : bool)
| OtherEvent
| SwarmEnded.

Definition handle_swarm_event (relay_addr : option Multiaddr) (e : swarm_event) (l : loop_state) : loop_state :=
  match e with
  | ConnectionEstablished peer relayed remote =>
      match lp_pending l !! peer with
      | Some pending =>
          if relayed
          then lp_set_pending <[peer := mkPending (pd_result_tx pending) true (pd_deadline pending)]> l
          else
            let l := lp_set_peer_addr peer remote l in
            answer (pd_result_tx pending) Direct
              (lp_set_pool (remove_sender peer) (lp_set_pending (delete peer) l))
      | None => l
      end
  | ConnectionClosed peer num_established =>
      if num_established =? 0 then
        let l :=
          if bool_decide ((relay_addr ≫= extract_peer_id_from_multiaddr) = Some peer) then
            match relay_addr with
            | Some relay_ma =>
                lp_call (Dial peer []) (lp_call (AddPeerAddress peer (relay_transport_ma relay_ma)) l)
            | None => l
            end
          else
            match lp_peer_addrs l !! peer with
            | Some addr => lp_call (Dial peer [addr]) (lp_call (AddPeerAddress peer addr) l)
            | None => l
            end in
        lp_set_pool (remove_sender peer) l
      else l
  | OutgoingConnectionError (Some pid) =>
      match lp_pending l !! pid with
      | Some pending =>
          if negb (pd_relay_connected pending)
          then answer (pd_result_tx pending) Failed (lp_set_pending (delete pid) l)
          else l
      | None => l
      end
  | OutgoingConnectionError None | OtherEvent => l
  | DcutrEvent peer ok =>
      match lp_pending l !! peer with
      | Some pending =>
          let l := lp_set_pending (delete peer) l in
          if ok then answer (pd_result_tx pending) Direct (lp_set_pool (remove_sender peer) l)
          else answer (pd_result_tx pending) RelayOnly l
      | None => l
      end
  | SwarmEnded => lp_stop l
  end.

(** * The timer *)

(** The deadline the timer arm sleeps until. *)
Definition next_dcutr_deadline (now : Z) (pending : gmap PeerId PendingDcutr) : Z :=
  match map (fun x => pd_deadline x.2) (map_to_list pending) with
  | [] => now + 86400000
  | d :: ds => foldr Z.min d ds
  end.

(** [for pid in expired]: removes the entry and answers its lookup. *)
Definition expire_one (pid : PeerId) (l : loop_state) : loop_state :=
  match lp_pending l !! pid with
  | Some pending =>
      answer (pd_result_tx pending) (if pd_relay_connected pending then RelayOnly else Failed)
        (lp_set_pending (delete pid) l)
  | None => l
  end.

Definition expired (now : Z) (pending : gmap PeerId PendingDcutr) : list PeerId :=
  map fst (filter (fun x => pd_deadline x.2 <= now) (map_to_list pending)).

Definition handle_timer (v : swarm_view) (l : loop_state) : loop_state :=
  foldl (fun l pid => expire_one pid l) l (expired (sv_now v) (lp_pending l)).

(** * One round of [select!] *)

Inductive loop_event :=
| LeSwarm (e : swarm_event)
| LeCommand (c : option Command)
| LeTimer.

Definition loop_step (relay_addr : option Multiaddr) (v : swarm_view) (e : loop_event) (l : loop_state) : loop_state :=
  if lp_running l then
    match e with
    | LeSwarm ev => handle_swarm_event relay_addr ev l
    | LeCommand c => handle_command v c l
    | LeTimer => handle_timer v l
    end
  else l.

Fixpoint loop_run (relay_addr : option Multiaddr) (es : list (swarm_view * loop_event)) (l : loop_state) : loop_state :=
  match es with
  | [] => l
  | (v, e) :: es' => loop_run relay_addr es' (loop_step relay_addr v e l)
  end.

(** * Completion tasks *)

(** What the task does with the result: [None] when the sender was dropped. *)
Definition task_result (r : option send_result) : Z :=
  match r with Some SendOk => NA_SUCCESS | _ => NA_PROTOCOL_ERROR end.

Definition task_completion (t : completion_task) (r : option send_result) : option CompletionItem :=
  let na_ret := task_result r in
  if ct_is_get t && (na_ret =? NA_SUCCESS) then None else Some (mkCompletion (ct_op_ptr t) na_ret None).

Definition run_task (t : completion_task) (r : option send_result) : M World unit := complete (task_completion t r).

End EventLoop.

#[export] Hint Unfold task_completion run_task : frame.
