(* ===== verification/LoopSpec.v ===== *)
(** What the event loop guarantees: a relay lookup is answered at most once and
    no later than its deadline, and the messages of the commands reach the
    channel of their peer in the order of the commands. *)
From Stdlib Require Import ZArith Lia.
From S2P Require Import Prelude.
From S2P Require Import RustStr.
From S2P Require Import Libp2p.
From S2P Require Import Memory.
From S2P Require Import Protocol.
From S2P Require Import State.
From S2P Require Import Incoming.
From S2P Require Import Sender.
From S2P Require Import EventLoop.

Section LoopSpec.
Context {LP : Libp2p} {OS : Os} {NB : NaBindings}.

(** * Answers to relay lookups *)

Definition pending_txs (m : gmap PeerId PendingDcutr) : list nat := omap (fun x => pd_result_tx x.2) (map_to_list m).
Definition answered (l : loop_state) : list nat := map fst (lp_answers l).

(** The lookups the loop knows of, answered or not. *)
Definition tokens (l : loop_state) : list nat := answered l ++ pending_txs (lp_pending l).

(** The lookup a command opens. *)
Definition issued_by (e : loop_event) : option nat :=
  match e with LeCommand (Some (ConnectViaRelay _ _ t)) => Some t | _ => None end.

Lemma pending_txs_delete m p pd :
  m !! p = Some pd -> pending_txs m ≡ₚ option_list (pd_result_tx pd) ++ pending_txs (delete p m).
Proof.
  intros H. unfold pending_txs. rewrite <-(map_to_list_delete m p pd H). cbn. by destruct (pd_result_tx pd).
Qed.

Lemma pending_txs_delete_sub m p : pending_txs (delete p m) ⊆+ pending_txs m.
Proof.
  destruct (m !! p) as [pd|] eqn:E; [|by rewrite delete_id].
  rewrite (pending_txs_delete m p pd E). by apply submseteq_inserts_l.
Qed.

Lemma pending_txs_insert m p pd :
  pending_txs (<[p := pd]> m) ≡ₚ option_list (pd_result_tx pd) ++ pending_txs (delete p m).
Proof.
  rewrite (pending_txs_delete (<[p := pd]> m) p pd) by apply lookup_insert_eq. by rewrite delete_insert_eq.
Qed.

(** Removing an entry and answering it moves its token. *)
Lemma tokens_answer l p pd r :
  lp_pending l !! p = Some pd -> tokens (answer (pd_result_tx pd) r (lp_set_pending (delete p) l)) ≡ₚ tokens l.
Proof.
  intros H. unfold tokens. rewrite (pending_txs_delete _ p pd H). unfold answered, answer.
  destruct (pd_result_tx pd) as [t|]; cbn; [|done]. rewrite map_app. cbn. by rewrite <-app_assoc.
Qed.

Lemma tokens_answer_pool l p pd r f :
  lp_pending l !! p = Some pd ->
  tokens (answer (pd_result_tx pd) r (lp_set_pool f (lp_set_pending (delete p) l))) ≡ₚ tokens l.
Proof.
  intros H. rewrite <-(tokens_answer l p pd r H). by destruct (pd_result_tx pd).
Qed.

Lemma tokens_enqueue peer h payload op g l : tokens (enqueue peer h payload op g l) = tokens l.
Proof. unfold enqueue. by destruct (get_or_create peer (lp_pool l)). Qed.

Lemma tokens_dial v p l : tokens (dial_if_disconnected v p l) = tokens l.
Proof. unfold dial_if_disconnected. by repeat case_match. Qed.

Lemma tokens_command v c l :
  tokens (handle_command v c l) ⊆+ tokens l ++ option_list (issued_by (LeCommand c)).
Proof.
  destruct c as [[| | |peer ma|peer circuit t|]|]; cbn [handle_command issued_by option_list];
    rewrite ?app_nil_r, ?tokens_enqueue, ?tokens_dial; try done.
  destruct (sv_dial_ok v peer); unfold tokens, answered; cbn.
  - rewrite pending_txs_insert. cbn. rewrite <-app_assoc, (Permutation_app_comm (pending_txs _) [_]). cbn.
    apply submseteq_app; [done|]. apply submseteq_skip, pending_txs_delete_sub.
  - rewrite map_app. cbn. rewrite <-!app_assoc. apply submseteq_skips_l. by rewrite Permutation_app_comm.
Qed.

Lemma tokens_swarm relay e l : tokens (handle_swarm_event relay e l) ⊆+ tokens l.
Proof.
  destruct e as [peer relayed remote|peer n|[peer|]|peer ok| |]; cbn [handle_swarm_event]; try done.
  - destruct (lp_pending l !! peer) as [pd|] eqn:E; [|done]. destruct relayed.
    + unfold tokens. cbn. rewrite pending_txs_insert. cbn. by rewrite <-(pending_txs_delete _ _ _ E).
    + by rewrite (tokens_answer_pool (lp_set_peer_addr peer remote l) peer pd Direct _ E).
  - by repeat case_match.
  - destruct (lp_pending l !! peer) as [pd|] eqn:E; [|done]. case_match; [|done]. by rewrite tokens_answer.
  - destruct (lp_pending l !! peer) as [pd|] eqn:E; [|done]. destruct ok.
    + by rewrite tokens_answer_pool.
    + by rewrite tokens_answer.
Qed.

Lemma tokens_expire_one p l : tokens (expire_one p l) ≡ₚ tokens l.
Proof. unfold expire_one. destruct (lp_pending l !! p) as [pd|] eqn:E; [by apply tokens_answer|done]. Qed.

Lemma tokens_expire ps l : tokens (foldl (fun l p => expire_one p l) l ps) ≡ₚ tokens l.
Proof. revert l. induction ps as [|p ps IH]; intros l; cbn; [done|]. by rewrite IH, tokens_expire_one. Qed.

Lemma tokens_step relay v e l : tokens (loop_step relay v e l) ⊆+ tokens l ++ option_list (issued_by e).
Proof.
  unfold loop_step. destruct (lp_running l); [|by apply submseteq_inserts_r]. destruct e.
  - cbn. rewrite app_nil_r. apply tokens_swarm.
  - apply tokens_command.
  - cbn. rewrite app_nil_r. unfold handle_timer. by rewrite tokens_expire.
Qed.

Lemma tokens_run relay es l :
  tokens (loop_run relay es l) ⊆+ tokens l ++ omap (fun x => issued_by x.2) es.
Proof.
  revert l. induction es as [|[v e] es IH]; intros l; cbn [loop_run]; [by rewrite app_nil_r|].
  etrans; [apply IH|]. etrans; [apply submseteq_app; [apply tokens_step|done]|].
  cbn. rewrite <-app_assoc. by destruct (issued_by e).
Qed.

(** * The timer *)

Lemma foldr_min_le d ds x : x ∈ d :: ds -> foldr Z.min d ds <= x.
Proof.
  revert x. induction ds as [|y ds IH]; intros x Hx; cbn.
  - apply list_elem_of_singleton in Hx. lia.
  - rewrite !elem_of_cons in Hx. destruct Hx as [->|[->|Hx]]; [|lia|].
    + specialize (IH d ltac:(by apply elem_of_cons; left)). lia.
    + specialize (IH x ltac:(by apply elem_of_cons; right)). lia.
Qed.

Lemma next_deadline_le now m p pd : m !! p = Some pd -> next_dcutr_deadline now m <= pd_deadline pd.
Proof.
  intros H. unfold next_dcutr_deadline.
  assert (Hin : pd_deadline pd ∈ map (fun x => pd_deadline x.2) (map_to_list m)).
  { apply (list_elem_of_fmap_2' (fun x => pd_deadline x.2) _ (p, pd)); [by apply elem_of_map_to_list|done]. }
  destruct (map _ _) as [|d ds]; [by apply elem_of_nil in Hin|]. by apply foldr_min_le.
Qed.

Lemma elem_of_expired now m p : p ∈ expired now m <-> exists pd, m !! p = Some pd /\ pd_deadline pd <= now.
Proof.
  unfold expired. split.
  - intros ([q pd] & -> & [Hd Hin]%list_elem_of_filter)%list_elem_of_fmap.
    apply elem_of_map_to_list in Hin. eauto.
  - intros (pd & Hm & Hd). apply (list_elem_of_fmap_2' fst _ (p, pd)); [|done].
    apply list_elem_of_filter. split; [done|by apply elem_of_map_to_list].
Qed.

Lemma lp_answers_answer tx r l :
  lp_answers (answer tx r l) = lp_answers l ++ map (fun t => (t, r)) (option_list tx).
Proof. destruct tx; cbn; by rewrite ?app_nil_r. Qed.

Lemma lp_pending_answer tx r l : lp_pending (answer tx r l) = lp_pending l.
Proof. by destruct tx. Qed.

(** The result an expired lookup gets. *)
Definition expiry_result (pd : PendingDcutr) : RelayConnectResult :=
  if pd_relay_connected pd then RelayOnly else Failed.

Lemma expire_spec ps l :
  let l' := foldl (fun l p => expire_one p l) l ps in
  (forall p, lp_pending l' !! p = if decide (p ∈ ps) then None else lp_pending l !! p) /\
  (forall p pd t, p ∈ ps -> lp_pending l !! p = Some pd -> pd_result_tx pd = Some t ->
     (t, expiry_result pd) ∈ lp_answers l') /\
  (forall a, a ∈ lp_answers l -> a ∈ lp_answers l').
Proof.
  revert l. induction ps as [|q ps IH]; intros l; cbn [foldl].
  { split_and!; [|intros p pd t Hp; by apply elem_of_nil in Hp|done].
    intros p. by rewrite decide_False by apply not_elem_of_nil. }
  destruct (IH (expire_one q l)) as (IH1 & IH2 & IH3). cbv zeta in *.
  assert (Hp : forall p, lp_pending (expire_one q l) !! p = if decide (p = q) then None else lp_pending l !! p).
  { intros p. unfold expire_one. destruct (lp_pending l !! q) as [pd|] eqn:E.
    - rewrite lp_pending_answer. cbn. case_decide; [subst; apply lookup_delete_eq|by apply lookup_delete_ne].
    - case_decide; congruence. }
  assert (Ha : forall a, a ∈ lp_answers l -> a ∈ lp_answers (expire_one q l)).
  { intros a Hin. unfold expire_one. case_match; [|done]. rewrite lp_answers_answer. apply elem_of_app. by left. }
  split_and!.
  - intros p. rewrite IH1, Hp. destruct (decide (p = q)) as [->|Hne].
    + rewrite (decide_True (P := q ∈ q :: ps)) by (by apply elem_of_cons; left). by case_decide.
    + destruct (decide (p ∈ ps)); [rewrite decide_True|rewrite decide_False]; rewrite ?elem_of_cons; naive_solver.
  - intros p pd t Hin Hpd Ht. destruct (decide (p = q)) as [->|Hne].
    + apply IH3. unfold expire_one. rewrite Hpd, lp_answers_answer, Ht. apply elem_of_app. right.
      by apply list_elem_of_singleton.
    + apply elem_of_cons in Hin as [?|Hin]; [done|]. apply (IH2 p pd t Hin); [|done].
      rewrite Hp. by rewrite decide_False.
  - auto.
Qed.

(** * Waiting for an answer *)

(** The lookup [t] for [p] is answered, or waits with deadline [d]. *)
Definition waiting (p : PeerId) (t : nat) (d : Z) (l : loop_state) : Prop :=
  t ∈ answered l \/ exists pd, lp_pending l !! p = Some pd /\ pd_result_tx pd = Some t /\ pd_deadline pd = d.

(** Another lookup for the same peer. *)
Definition replaces (p : PeerId) (e : loop_event) : bool :=
  match e with LeCommand (Some (ConnectViaRelay q _ _)) => bool_decide (p = q) | _ => false end.

Lemma waiting_answer p t d q pd r l f :
  lp_pending l !! q = Some pd -> waiting p t d l ->
  lp_pending (f l) = delete q (lp_pending l) -> lp_answers (f l) = lp_answers l ->
  waiting p t d (answer (pd_result_tx pd) r (f l)).
Proof.
  intros Hq Hw Hp Ha. unfold waiting, answered. rewrite lp_answers_answer, lp_pending_answer, Hp, Ha, map_app, elem_of_app.
  destruct Hw as [Hw|(pd' & Hl & Ht & Hd)]; [by do 2 left|].
  destruct (decide (p = q)) as [->|Hne].
  - simplify_eq. left. right. rewrite Ht. by apply list_elem_of_singleton.
  - right. exists pd'. by rewrite lookup_delete_ne.
Qed.

Lemma waiting_enqueue p t d peer h payload op g l :
  waiting p t d l -> waiting p t d (enqueue peer h payload op g l).
Proof. unfold enqueue. by destruct (get_or_create peer (lp_pool l)). Qed.

Lemma waiting_dial p t d v q l : waiting p t d l -> waiting p t d (dial_if_disconnected v q l).
Proof. unfold dial_if_disconnected. by repeat case_match. Qed.

Lemma waiting_command p t d v c l :
  replaces p (LeCommand c) = false -> waiting p t d l -> waiting p t d (handle_command v c l).
Proof.
  destruct c as [[| | |peer ma|peer circuit tx|]|]; cbn [handle_command]; intros Hr Hw; try done;
    try (by apply waiting_enqueue, waiting_dial).
  cbn in Hr. apply bool_decide_eq_false in Hr. destruct (sv_dial_ok v peer).
  - destruct Hw as [Hw|(pd & Hl & H)]; [by left|]. right. exists pd. cbn. by rewrite lookup_insert_ne.
  - unfold waiting, answered in *. cbn. rewrite map_app, elem_of_app. destruct Hw as [|Hw]; [by do 2 left|by right].
Qed.

Lemma waiting_swarm p t d relay e l : waiting p t d l -> waiting p t d (handle_swarm_event relay e l).
Proof.
  intros Hw. destruct e as [peer relayed remote|peer n|[peer|]|peer ok| |]; cbn [handle_swarm_event]; try done.
  - destruct (lp_pending l !! peer) as [pd|] eqn:E; [|done]. destruct relayed.
    + destruct Hw as [Hw|(pd' & Hl & Ht & Hd)]; [by left|]. right. cbn.
      destruct (decide (p = peer)) as [->|Hne]; [|exists pd'; by rewrite lookup_insert_ne].
      simplify_eq. eexists. rewrite lookup_insert_eq. by split_and!.
    + by apply (waiting_answer p t d peer pd Direct l (fun l => lp_set_pool (remove_sender peer)
        (lp_set_pending (delete peer) (lp_set_peer_addr peer remote l)))).
  - by repeat case_match.
  - destruct (lp_pending l !! peer) as [pd|] eqn:E; [|done]. case_match; [|done].
    by apply (waiting_answer p t d peer pd Failed l (lp_set_pending (delete peer))).
  - destruct (lp_pending l !! peer) as [pd|] eqn:E; [|done]. destruct ok.
    + by apply (waiting_answer p t d peer pd Direct l (fun l => lp_set_pool (remove_sender peer) (lp_set_pending (delete peer) l))).
    + by apply (waiting_answer p t d peer pd RelayOnly l (lp_set_pending (delete peer))).
Qed.

Lemma waiting_timer p t d v l :
  waiting p t d l -> waiting p t d (handle_timer v l) /\ (d <= sv_now v -> t ∈ answered (handle_timer v l)).
Proof.
  intros Hw. unfold handle_timer. destruct (expire_spec (expired (sv_now v) (lp_pending l)) l) as (H1 & H2 & H3).
  cbv zeta in *. set (l' := foldl _ _ _) in *.
  assert (Hmono : t ∈ answered l -> t ∈ answered l').
  { intros (a & -> & Ha)%list_elem_of_fmap. apply (list_elem_of_fmap_2 fst), H3, Ha. }
  destruct Hw as [Hw|(pd & Hl & Ht & Hd)]; [split; [by left; auto|auto]|].
  destruct (decide (p ∈ expired (sv_now v) (lp_pending l))) as [Hin|Hnin].
  - assert (t ∈ answered l'); [|by split; [left|]].
    apply (list_elem_of_fmap_2' fst _ (t, expiry_result pd)); [by apply (H2 p)|done].
  - split; [|intros Hle; destruct Hnin; apply elem_of_expired; eexists; split; [done|lia]].
    right. exists pd. by rewrite H1, decide_False.
Qed.

Lemma waiting_run p t d relay es l :
  Forall (fun x => replaces p x.2 = false) es -> waiting p t d l -> waiting p t d (loop_run relay es l).
Proof.
  intros Hes. revert l. induction Hes as [|[v e] es He Hes IH]; intros l Hw; cbn [loop_run]; [done|].
  apply IH. unfold loop_step. destruct (lp_running l); [|done].
  destruct e; [by apply waiting_swarm|by apply waiting_command|by apply waiting_timer].
Qed.

(** * The order of outgoing messages *)

(** Each sender of the pool is an open channel of its peer. *)
Definition pool_ok (p : PeerSenderPool) : Prop :=
  (forall peer c, pool_senders p !! peer = Some c ->
     exists ch, pool_chans p !! c = Some ch /\ ch_peer ch = peer /\ ch_closed ch = false) /\
  (forall c, is_Some (pool_chans p !! c) -> (c < pool_next p)%nat).

(** The messages handed to the peer's current channel. *)
Definition channel_msgs (peer : PeerId) (p : PeerSenderPool) : list OutboundMsg :=
  match pool_senders p !! peer with
  | Some c => from_option ch_msgs [] (pool_chans p !! c)
  | None => []
  end.

(** [get_or_create] followed by [send]. *)
Definition pool_send (peer : PeerId) (m : OutboundMsg) (p : PeerSenderPool) : PeerSenderPool :=
  let '(c, p') := get_or_create peer p in chan_send c m p'.

Lemma get_or_create_spec peer p :
  pool_ok p ->
  let '(c, p') := get_or_create peer p in
  pool_ok p' /\ pool_senders p' !! peer = Some c /\ forall q, channel_msgs q p' = channel_msgs q p.
Proof.
  intros [Hs Hn]. unfold get_or_create. destruct (pool_senders p !! peer) as [c|] eqn:E.
  - destruct (Hs peer c E) as (ch & Hc & Hp & Ho). unfold is_closed. rewrite Hc, Ho. cbn.
    split_and!; [by split|done|done].
  - set (c := pool_next p). assert (Hc : pool_chans p !! c = None).
    { destruct (pool_chans p !! c) eqn:Ec; [|done]. specialize (Hn c ltac:(by eexists)). lia. }
    split_and!.
    + split; cbn.
      * intros q d. destruct (decide (peer = q)) as [<-|Hne].
        -- rewrite lookup_insert_eq. intros [= <-]. eexists. by rewrite lookup_insert_eq.
        -- rewrite lookup_insert_ne by done. intros Hd. destruct (Hs q d Hd) as (ch & Hch & ?).
           exists ch. rewrite lookup_insert_ne by congruence. done.
      * intros d. rewrite lookup_insert_is_Some. intros [<-|[_ Hd]]; [lia|]. specialize (Hn d Hd). lia.
    + cbn. apply lookup_insert_eq.
    + intros q. unfold channel_msgs. cbn. destruct (decide (peer = q)) as [<-|Hne].
      * by rewrite lookup_insert_eq, lookup_insert_eq, E.
      * rewrite lookup_insert_ne by done. destruct (pool_senders p !! q) as [d|] eqn:Ed; [|done].
        destruct (Hs q d Ed) as (ch & Hch & _). rewrite lookup_insert_ne by congruence. done.
Qed.

Lemma pool_send_spec peer m p :
  pool_ok p ->
  pool_ok (pool_send peer m p) /\
  forall q, channel_msgs q (pool_send peer m p) = channel_msgs q p ++ (if decide (q = peer) then [m] else []).
Proof.
  intros Hok. unfold pool_send. pose proof (get_or_create_spec peer p Hok) as H.
  destruct (get_or_create peer p) as [c p']. destruct H as ([Hs Hn] & Hc & Hm).
  destruct (Hs peer c Hc) as (ch & Hch & Hp & Ho). unfold chan_send. rewrite Hch, Ho. split.
  - split; cbn.
    + intros q d Hd. destruct (decide (c = d)) as [<-|Hne].
      * rewrite lookup_insert_eq. destruct (Hs q c Hd) as (ch' & Hch' & Hq & _). simplify_eq. by eexists.
      * rewrite lookup_insert_ne by done. by apply Hs.
    + intros d. rewrite lookup_insert_is_Some. intros [<-|[_ Hd]]; eauto.
  - intros q. rewrite <-Hm. unfold channel_msgs. cbn. destruct (decide (q = peer)) as [->|Hne].
    + rewrite Hc, lookup_insert_eq, Hch. done.
    + rewrite app_nil_r. destruct (pool_senders p' !! q) as [d|] eqn:Ed; [|done].
      destruct (decide (c = d)) as [<-|]; [|by rewrite lookup_insert_ne].
      destruct (Hs q c Ed) as (ch' & Hch' & Hq & _). congruence.
Qed.

Lemma pool_ok_new : pool_ok PeerSenderPool_new.
Proof.
  split; cbn; [intros peer c; by rewrite lookup_empty|]. intros c [ch H]. by rewrite lookup_empty in H.
Qed.

(** The message a command sends, and to whom. *)
Definition command_message (c : Command) : option (PeerId * (WireHeader * list byte)) :=
  match c with
  | SendMessage dest t tag payload _ source => Some (dest, (send_header t tag payload source, payload))
  | CmdRmaPut peer data rh ro _ source => Some (peer, (put_header data source rh ro, data))
  | RmaGetRequest peer rh ro length lh lo _ source => Some (peer, (get_header source rh ro length lh lo, []))
  | _ => None
  end.

Definition message_for (peer : PeerId) (c : Command) : option (WireHeader * list byte) :=
  match command_message c with
  | Some (dest, m) => if decide (dest = peer) then Some m else None
  | None => None
  end.

Definition peer_messages (peer : PeerId) (l : loop_state) : list (WireHeader * list byte) :=
  map (fun m => (ob_header m, ob_payload m)) (channel_msgs peer (lp_pool l)).

Lemma enqueue_spec peer h payload op g l :
  pool_ok (lp_pool l) ->
  let l' := enqueue peer h payload op g l in
  pool_ok (lp_pool l') /\ lp_running l' = lp_running l /\
  forall q, peer_messages q l' = peer_messages q l ++ (if decide (peer = q) then [(h, payload)] else []).
Proof.
  intros Hok. unfold enqueue. set (m := mkOutbound h payload (Some (lp_next_result l))).
  destruct (pool_send_spec peer m (lp_pool l) Hok) as [Hok' Hm]. unfold pool_send in *.
  destruct (get_or_create peer (lp_pool l)) as [c p']. cbn. split_and!; [done|done|].
  intros q. unfold peer_messages. cbn. rewrite Hm, map_app. f_equal. repeat case_decide; subst; done.
Qed.

Lemma lp_pool_dial v p l :
  lp_pool (dial_if_disconnected v p l) = lp_pool l /\ lp_running (dial_if_disconnected v p l) = lp_running l.
Proof. unfold dial_if_disconnected. by repeat case_match. Qed.

Lemma command_order v c l :
  pool_ok (lp_pool l) -> lp_running l = true -> c <> Shutdown ->
  let l' := handle_command v (Some c) l in
  pool_ok (lp_pool l') /\ lp_running l' = true /\
  forall q, peer_messages q l' = peer_messages q l ++ option_list (message_for q c).
Proof.
  intros Hok Hr Hc.
  assert (Hsend : forall peer h payload op g, command_message c = Some (peer, (h, payload)) ->
    let l' := enqueue peer h payload op g (dial_if_disconnected v peer l) in
    pool_ok (lp_pool l') /\ lp_running l' = true /\
    forall q, peer_messages q l' = peer_messages q l ++ option_list (message_for q c)).
  { intros peer h payload op g Hm. destruct (lp_pool_dial v peer l) as [Hp Hrun].
    destruct (enqueue_spec peer h payload op g (dial_if_disconnected v peer l)) as (H1 & H2 & H3); [by rewrite Hp|].
    cbv zeta. split_and!; [done|by rewrite H2, Hrun|]. intros q. rewrite H3. unfold message_for, peer_messages.
    rewrite Hm, Hp. by case_decide. }
  destruct c as [dest t tag payload op source|peer data rh ro op source|peer rh ro n lh lo op source|peer ma|peer ma t|];
    cbn [handle_command]; try (by apply Hsend); try done.
  - split_and!; [done|done|]. intros q. cbn. by rewrite app_nil_r.
  - case_match; (split_and!; [done|done|]; intros q; cbn; by rewrite app_nil_r).
Qed.

Lemma commands_order relay vcs l :
  pool_ok (lp_pool l) -> lp_running l = true -> Forall (fun x => x.2 <> Shutdown) vcs ->
  let l' := loop_run relay (map (fun x => (x.1, LeCommand (Some x.2))) vcs) l in
  pool_ok (lp_pool l') /\ lp_running l' = true /\
  forall q, peer_messages q l' = peer_messages q l ++ omap (fun x => message_for q x.2) vcs.
Proof.
  intros Hok Hr Hs. revert l Hok Hr. induction Hs as [|[v c] vcs Hc Hs IH]; intros l Hok Hr; cbn [map loop_run fst snd].
  { cbn. split_and!; [done|done|]. intros q. by rewrite app_nil_r. }
  unfold loop_step at 1 2 3. rewrite Hr. destruct (command_order v c l Hok Hr Hc) as (H1 & H2 & H3).
  destruct (IH _ H1 H2) as (H4 & H5 & H6). cbv zeta in *. split_and!; [done|done|].
  intros q. rewrite H6, H3. cbn. rewrite <-app_assoc. by destruct (message_for q c).
Qed.

(** * Theorems *)

(** Over any sequence of swarm events, commands and timer expirations, a
    relay lookup is answered at most once, and only lookups that were issued are
    answered. *)
Theorem relay_lookup_answered_once relay es :
  NoDup (omap (fun x => issued_by x.2) es) ->
  NoDup (answered (loop_run relay es loop_new)) /\
  answered (loop_run relay es loop_new) ⊆ omap (fun x => issued_by x.2) es.
Proof.
  intros Hnd. pose proof (tokens_run relay es loop_new) as Hsub. cbn in Hsub. unfold tokens in Hsub.
  assert (Ha : answered (loop_run relay es loop_new) ⊆+ omap (fun x => issued_by x.2) es).
  { etrans; [|exact Hsub]. by apply submseteq_inserts_r. }
  split; [|intros t Ht; by eapply elem_of_submseteq].
  apply submseteq_Permutation in Ha as [k Hk]. rewrite Hk in Hnd. by apply NoDup_app in Hnd as [? _].
Qed.

(** A relay lookup does not wait longer than the hole-punching timeout: once
    the timer fires at or after ten seconds from the command, the lookup has its
    answer, whatever happened in between, unless a second lookup for the same
    peer took its place; and the timer arm never sleeps past the deadline. *)
Theorem relay_lookup_answered_by_deadline relay l v p circuit t es v' :
  let l1 := loop_step relay v (LeCommand (Some (ConnectViaRelay p circuit t))) l in
  let l2 := loop_run relay es l1 in
  lp_running l = true -> Forall (fun x => replaces p x.2 = false) es -> lp_running l2 = true ->
  sv_now v + DCUTR_TIMEOUT <= sv_now v' ->
  t ∈ answered (loop_step relay v' LeTimer l2) /\
  (t ∈ answered l2 \/ next_dcutr_deadline (sv_now v') (lp_pending l2) <= sv_now v + DCUTR_TIMEOUT).
Proof.
  intros l1 l2 Hr Hes Hr2 Hle.
  assert (Hw : waiting p t (sv_now v + DCUTR_TIMEOUT) l1).
  { unfold l1, loop_step. rewrite Hr. cbn [handle_command]. destruct (sv_dial_ok v p).
    - right. eexists. cbn. by rewrite lookup_insert_eq.
    - left. unfold answered. cbn. rewrite map_app, elem_of_app. right. by apply list_elem_of_singleton. }
  pose proof (waiting_run p t _ relay es l1 Hes Hw) as Hw2. fold l2 in Hw2.
  split.
  - unfold loop_step. rewrite Hr2. by apply (waiting_timer p t _ v' l2 Hw2).
  - destruct Hw2 as [|(pd & Hl & _ & Hd)]; [by left|right]. rewrite <-Hd. by eapply next_deadline_le.
Qed.

(** The timer arm answers exactly the expired lookups: [RelayOnly] when the
    relayed connection is up, [Failed] otherwise; it forgets them and keeps every
    other one. *)
Theorem timer_expires_lookups v l :
  (forall p pd t, lp_pending l !! p = Some pd -> pd_result_tx pd = Some t -> pd_deadline pd <= sv_now v ->
     (t, if pd_relay_connected pd then RelayOnly else Failed) ∈ lp_answers (handle_timer v l)) /\
  (forall p pd, lp_pending (handle_timer v l) !! p = Some pd <->
     lp_pending l !! p = Some pd /\ sv_now v < pd_deadline pd).
Proof.
  unfold handle_timer. destruct (expire_spec (expired (sv_now v) (lp_pending l)) l) as (H1 & H2 & _). split.
  - intros p pd t Hp Ht Hd. apply (H2 p pd t); [|done|done]. apply elem_of_expired. eauto.
  - intros p pd. rewrite H1. case_decide as Hin; rewrite elem_of_expired in Hin.
    + split; [done|]. intros [Hp Hd]. destruct Hin as (pd' & Hp' & Hd'). simplify_eq. lia.
    + split; [|tauto]. intros Hp. split; [done|]. apply Z.lt_nge. intros Hd. apply Hin. eauto.
Qed.

(** C22: For a running loop that is given commands only (no swarm event or timer
    between them, no shutdown), the messages of the commands reach the channel of
    their destination in the order in which the NA thread issued them, each once,
    with no message of another peer among them. *)
Theorem commands_sent_in_order relay vcs l q :
  pool_ok (lp_pool l) -> lp_running l = true -> Forall (fun x => x.2 <> Shutdown) vcs ->
  peer_messages q (loop_run relay (map (fun x => (x.1, LeCommand (Some x.2))) vcs) l)
  = peer_messages q l ++ omap (fun x => message_for q x.2) vcs.
Proof. intros Hok Hr Hs. by apply commands_order. Qed.

End LoopSpec.

Module LoopDemo.
Import Demo.

Definition peer_a : peer := x0a.
Definition view (now : Z) : swarm_view := mkView (fun _ => false) (fun _ => true) now.
Definition circuit : multiaddr := [P2pCircuit; P2p peer_a].
Definition lookup_cmd (t : nat) : loop_event := LeCommand (Some (ConnectViaRelay peer_a circuit t)).

Definition history : list (swarm_view * loop_event) :=
  [(view 0, lookup_cmd 0); (view 5, LeSwarm (ConnectionEstablished peer_a true circuit));
   (view 20, LeSwarm (DcutrEvent peer_a true)); (view 30, lookup_cmd 1); (view 20000, LeTimer)].

Lemma relay_lookup_answered_once_witness :
  NoDup (answered (loop_run None history loop_new)) /\ answered (loop_run None history loop_new) = [0%nat; 1%nat].
Proof.
  split; [|vm_compute; reflexivity].
  exact (proj1 (relay_lookup_answered_once None history ltac:(apply (bool_decide_unpack _); vm_compute; exact I))).
Defined.

Lemma relay_lookup_answered_by_deadline_witness :
  3%nat ∈ answered (loop_step None (view 10000) LeTimer
    (loop_run None [(view 5, LeSwarm (ConnectionEstablished peer_a true circuit))]
       (loop_step None (view 0) (lookup_cmd 3) loop_new))).
Proof.
  exact (proj1 (relay_lookup_answered_by_deadline None loop_new (view 0) peer_a circuit 3
    [(view 5, LeSwarm (ConnectionEstablished peer_a true circuit))] (view 10000)
    eq_refl ltac:(repeat constructor) ltac:(vm_compute; reflexivity) ltac:(vm_compute; discriminate))).
Defined.

Lemma commands_sent_in_order_witness :
  peer_messages peer_a (loop_run None (map (fun x => (x.1, LeCommand (Some x.2)))
     [(view 0, SendMessage peer_a Unexpected 1 [x01] 10 x07); (view 1, SendMessage peer_a Expected 2 [] 11 x07)]) loop_new)
  = [(send_header Unexpected 1 [x01] x07, [x01]); (send_header Expected 2 [] x07, [])].
Proof.
  rewrite commands_sent_in_order.
  - reflexivity.
  - exact pool_ok_new.
  - reflexivity.
  - repeat constructor; discriminate.
Defined.

End LoopDemo.
