(* ===== verification/RelayLookup.v ===== *)
(** A relay lookup, from the callback to its answer.  The event loop serves many
    peers, pools and timers at once; seen from one lookup it is a small automaton
    that dials, may get a relayed connection, and ends with one answer or with
    its channel dropped. *)
From Stdlib Require Import ZArith Lia.
From S2P Require Import Prelude.
From S2P Require Import RustStr.
From S2P Require Import Libp2p.
From S2P Require Import Memory.
From S2P Require Import State.
From S2P Require Import Messaging.
From S2P Require Import Rma.
From S2P Require Import Addr.
From S2P Require Import Invariant.
From S2P Require Import DemoWorld.
From S2P Require Import Safety.
From S2P Require Import Serialize.
From S2P Require Import AddrSpec.
From S2P Require Import Sender.
From S2P Require Import EventLoop.
From S2P Require Import LoopSpec.

Section RelayLookup.
Context {LP : Libp2p} {OS : Os} {NB : NaBindings}.

(** * The automaton of one lookup *)

Inductive lookup_state := Dialing | Relayed | Answered (r : RelayConnectResult) | Dropped.

Definition ended (s : lookup_state) : bool := match s with Answered _ | Dropped => true | _ => false end.
Definition is_relayed (s : lookup_state) : bool := match s with Relayed => true | _ => false end.

(** The lookup for [p] with deadline [d] on one event of the loop. *)
Definition lookup_next (p : PeerId) (d : Z) (s : lookup_state) (x : swarm_view * loop_event) : lookup_state :=
  if ended s then s else
  match x.2 with
  | LeSwarm (ConnectionEstablished q relayed _) =>
      if bool_decide (q = p) then if relayed then Relayed else Answered Direct else s
  | LeSwarm (OutgoingConnectionError (Some q)) => if bool_decide (q = p) && negb (is_relayed s) then Answered Failed else s
  | LeSwarm (DcutrEvent q ok) => if bool_decide (q = p) then Answered (if ok then Direct else RelayOnly) else s
  | LeCommand (Some (ConnectViaRelay q _ _)) => if bool_decide (q = p) && sv_dial_ok x.1 q then Dropped else s
  | LeSwarm SwarmEnded | LeCommand None | LeCommand (Some Shutdown) => Dropped
  | LeTimer => if d <=? sv_now x.1 then Answered (if is_relayed s then RelayOnly else Failed) else s
  | _ => s
  end.

Definition lookup_start (v : swarm_view) (p : PeerId) : lookup_state := if sv_dial_ok v p then Dialing else Answered Failed.
Definition lookup_history (p : PeerId) (d : Z) (es : list (swarm_view * loop_event)) (s : lookup_state) : lookup_state :=
  foldl (lookup_next p d) s es.

Definition lookup_answer (s : lookup_state) : option RelayConnectResult :=
  match s with Answered r => Some r | _ => None end.

(** * The loop simulates it *)

(** What the loop sent through the channel of the lookup. *)
Definition results_for (t : nat) (l : loop_state) : list RelayConnectResult :=
  omap (fun x => if bool_decide (x.1 = t) then Some x.2 else None) (lp_answers l).

Section Lookup.
Context (p : PeerId) (t : nat) (d : Z).

(** No entry but possibly that of [p] answers [t]. *)
Definition only_p (l : loop_state) : Prop := forall q pd, q <> p -> lp_pending l !! q = Some pd -> pd_result_tx pd <> Some t.
Definition not_p (l : loop_state) : Prop := forall pd, lp_pending l !! p = Some pd -> pd_result_tx pd <> Some t.

Definition tracks (s : lookup_state) (l : loop_state) : Prop :=
  results_for t l = option_list (lookup_answer s) /\ only_p l /\
  match s with
  | Dialing | Relayed => lp_running l = true /\ lp_pending l !! p = Some (mkPending (Some t) (is_relayed s) d)
  | Answered _ => not_p l
  | Dropped => lp_running l = true -> not_p l
  end.

(** The parts of the loop a lookup depends on. *)
Definition lookup_part (l : loop_state) := (lp_answers l, lp_pending l, lp_running l).

Lemma tracks_ext s l l' : lookup_part l' = lookup_part l -> tracks s l -> tracks s l'.
Proof.
  unfold lookup_part, tracks, results_for, only_p, not_p. intros [= -> -> ->]. done.
Qed.

Lemma results_answer tx r l :
  results_for t (answer tx r l) = results_for t l ++ (if bool_decide (tx = Some t) then [r] else []).
Proof.
  unfold results_for. rewrite lp_answers_answer, omap_app. f_equal. destruct tx as [x|]; cbn; [|by rewrite bool_decide_false].
  destruct (decide (x = t)) as [->|Hne]; [by rewrite !bool_decide_true|by rewrite !bool_decide_false by congruence].
Qed.

(** Answering and forgetting the entry of some peer. *)
Lemma tracks_answer s q pd r l l' :
  tracks s l -> lp_pending l !! q = Some pd ->
  lp_pending l' = delete q (lp_pending l) -> lp_answers l' = lp_answers l -> lp_running l' = lp_running l ->
  lp_running l = true ->
  tracks (if bool_decide (q = p) && negb (ended s) then Answered r else s) (answer (pd_result_tx pd) r l').
Proof.
  intros (Hres & Ho & Hs) Hq Hp Ha Hr Hrun.
  assert (Hpd : forall x pd', lp_pending (answer (pd_result_tx pd) r l') !! x = Some pd' -> x <> q /\ lp_pending l !! x = Some pd').
  { intros x pd'. rewrite lp_pending_answer, Hp, lookup_delete_Some. naive_solver. }
  assert (Ho' : only_p (answer (pd_result_tx pd) r l')).
  { intros x pd' Hx [_ Hl]%Hpd. by eapply Ho. }
  assert (Hn : not_p l -> not_p (answer (pd_result_tx pd) r l')).
  { intros H pd' [_ Hl]%Hpd. by apply H. }
  assert (Hl' : results_for t l' = option_list (lookup_answer s)) by (rewrite <-Hres; unfold results_for; by rewrite Ha).
  assert (Hkeep : pd_result_tx pd <> Some t -> results_for t (answer (pd_result_tx pd) r l') = option_list (lookup_answer s)).
  { intros H. rewrite results_answer, bool_decide_false, app_nil_r by done. exact Hl'. }
  destruct (decide (q = p)) as [->|Hne].
  - rewrite bool_decide_true by done. cbn [andb]. destruct s as [| |r'|]; cbn [ended negb].
    1,2: destruct Hs as [_ Hs]; rewrite Hq in Hs; injection Hs as ->; split_and!;
      [rewrite results_answer; cbn; by rewrite bool_decide_true, Hl'
      |exact Ho'|intros pd' Hl; by apply Hpd in Hl as [? _]].
    + split_and!; [by apply Hkeep, Hs|exact Ho'|by apply Hn].
    + specialize (Hs Hrun). split_and!; [by apply Hkeep, Hs|exact Ho'|intros _; by apply Hn].
  - rewrite bool_decide_false by done. cbn [andb]. split_and!; [by apply Hkeep, (Ho q)|exact Ho'|].
    rewrite lp_pending_answer, Hp. destruct s as [| |r'|].
    1,2: destruct Hs as [_ Hs]; rewrite lookup_delete_ne by done; split; [|done]; by destruct (pd_result_tx pd); cbn; rewrite Hr.
    + by apply Hn.
    + intros _. by apply Hn, Hs.
Qed.

(** An entry that is replaced by one that answers [tx]; [s'] is the state of the
    lookup when the entry is its own. *)
Lemma tracks_insert s s' q pd l l' :
  tracks s l -> lp_pending l' = <[q := pd]> (lp_pending l) -> lp_answers l' = lp_answers l -> lp_running l' = lp_running l ->
  (q <> p -> pd_result_tx pd <> Some t) ->
  (q = p -> match s with
            | Dialing | Relayed =>
                lookup_answer s' = None /\ (ended s' = false -> pd = mkPending (Some t) (is_relayed s') d) /\
                (ended s' = true -> pd_result_tx pd <> Some t)
            | _ => pd_result_tx pd <> Some t
            end) ->
  tracks (if bool_decide (q = p) && negb (ended s) then s' else s) l'.
Proof.
  intros (Hres & Ho & Hs) Hp Ha Hr Hother Hown. unfold tracks, only_p, not_p, results_for in *. rewrite Ha, Hp, Hr.
  assert (Ho' : forall x pd', x <> p -> <[q:=pd]> (lp_pending l) !! x = Some pd' -> pd_result_tx pd' <> Some t).
  { intros x pd' Hx. rewrite lookup_insert_Some. intros [[<- <-]|[_ Hl]]; [by apply Hother|by eapply Ho]. }
  destruct (decide (q = p)) as [->|Hne].
  - rewrite bool_decide_true by done. cbn [andb]. specialize (Hown eq_refl). rewrite lookup_insert_eq.
    destruct s as [| |r|]; cbn [ended negb] in *; [..|split_and!; [done|done|naive_solver]|split_and!; [done|done|naive_solver]].
    all: destruct Hown as (Hn & Hw & He), s'; cbn in *; split_and!; try done; try (split; [apply Hs|f_equal; by apply Hw]); naive_solver.
  - rewrite bool_decide_false, lookup_insert_ne by done. cbn [andb]. split_and!; [done|done|]. by destruct s.
Qed.

Lemma tracks_stop s l : tracks s l -> tracks (if ended s then s else Dropped) (lp_stop l).
Proof. intros (Hr & Ho & Hs). by destruct s. Qed.

Lemma own_or_not (e b : bool) (s s' : lookup_state) : (if e then s else if b then s' else s) = if b && negb e then s' else s.
Proof. by destruct e, b. Qed.

Lemma tracks_no_entry s q s' l :
  tracks s l -> lp_pending l !! q = None -> tracks (if bool_decide (q = p) && negb (ended s) then s' else s) l.
Proof.
  intros Ht Hq. destruct (decide (q = p)) as [->|]; [|by rewrite bool_decide_false]. pose proof Ht as (_ & _ & Hs).
  destruct s as [| |r|]; cbn [ended negb]; rewrite ?andb_false_r; try exact Ht; destruct Hs; congruence.
Qed.

Lemma tracks_swarm s v relay e l :
  lp_running l = true -> tracks s l -> tracks (lookup_next p d s (v, LeSwarm e)) (handle_swarm_event relay e l).
Proof.
  intros Hr Ht. unfold lookup_next. cbn [snd fst].
  destruct e as [q relayed remote|q n|[q|]|q ok| |]; cbn [handle_swarm_event].
  - rewrite own_or_not. destruct (lp_pending l !! q) as [pd|] eqn:E; [|by apply tracks_no_entry]. destruct relayed.
    + eapply tracks_insert; [exact Ht|done..| |].
      * intros Hne. destruct Ht as (_ & Ho & _). exact (Ho q pd Hne E).
      * intros ->. destruct Ht as (_ & _ & Hs).
        destruct s as [| |r|]; [destruct Hs as [_ Hs]; rewrite E in Hs; by injection Hs as ->..|exact (Hs pd E)|exact (Hs Hr pd E)].
    + by eapply tracks_answer.
  - replace (if ended s then s else s) with s by (by destruct (ended s)).
    eapply tracks_ext; [|exact Ht]. by repeat case_match.
  - destruct (lp_pending l !! q) as [pd|] eqn:E.
    + destruct (pd_relay_connected pd) eqn:Ec; cbn [negb].
      * assert (Hk : (if ended s then s else if bool_decide (q = p) && negb (is_relayed s) then Answered Failed else s) = s); [|by rewrite Hk].
        destruct (decide (q = p)) as [->|]; [|rewrite bool_decide_false by done; by destruct (ended s)].
        destruct Ht as (_ & _ & Hs), s; try done; [|by rewrite bool_decide_true].
        destruct Hs as [_ Hs]. rewrite E in Hs. injection Hs as ->. done.
      * assert (Hk : (if ended s then s else if bool_decide (q = p) && negb (is_relayed s) then Answered Failed else s)
          = if bool_decide (q = p) && negb (ended s) then Answered Failed else s); [|rewrite Hk; by eapply tracks_answer].
        destruct (decide (q = p)) as [->|]; [|rewrite bool_decide_false by done; by destruct (ended s)].
        destruct Ht as (_ & _ & Hs), s; try done; rewrite ?andb_false_r; try done.
        destruct Hs as [_ Hs]. rewrite E in Hs. injection Hs as ->. done.
    + rewrite own_or_not, <-andb_assoc. destruct (is_relayed s); cbn [negb andb]; [by rewrite andb_false_r|]. by apply tracks_no_entry.
  - by destruct (ended s).
  - rewrite own_or_not. destruct (lp_pending l !! q) as [pd|] eqn:E; [|by apply tracks_no_entry].
    destruct ok; by eapply tracks_answer.
  - by destruct (ended s).
  - by apply tracks_stop.
Qed.

Lemma tracks_command s v c l :
  lp_running l = true -> issued_by (LeCommand c) <> Some t -> tracks s l ->
  tracks (lookup_next p d s (v, LeCommand c)) (handle_command v c l).
Proof.
  intros Hr Hi Ht. unfold lookup_next. cbn [snd fst].
  assert (Hsend : forall q h payload op g, tracks (if ended s then s else s) (enqueue q h payload op g (dial_if_disconnected v q l))).
  { intros. replace (if ended s then s else s) with s by (by destruct (ended s)). eapply tracks_ext; [|exact Ht].
    unfold enqueue, dial_if_disconnected. by repeat case_match. }
  destruct c as [[dest ty tag payload op source|dest data rh ro op source|dest rh ro n lh lo op source|q ma|q circuit tx|]|];
    cbn [handle_command]; try done; try (by apply tracks_stop).
  - by destruct (ended s).
  - cbn in Hi. assert (Htx : tx <> t) by congruence. rewrite own_or_not. destruct (sv_dial_ok v q).
    + rewrite andb_true_r. eapply tracks_insert; [exact Ht|done..|cbn; congruence|]. intros ->.
      destruct s; cbn; try congruence; (split_and!; [done|done|congruence]).
    + rewrite andb_false_r. cbn [andb]. destruct Ht as (Hres & Ho & Hs). split_and!; [|exact Ho|exact Hs].
      rewrite <-Hres. rewrite results_answer, bool_decide_false, app_nil_r by congruence. done.
Qed.

Definition expiry (s : lookup_state) : lookup_state :=
  if ended s then s else Answered (if is_relayed s then RelayOnly else Failed).

Lemma tracks_expire_one s q l :
  lp_running l = true -> tracks s l -> tracks (if bool_decide (q = p) then expiry s else s) (expire_one q l).
Proof.
  intros Hr Ht.
  assert (Hif : forall r, (if bool_decide (q = p) && negb (ended s) then r else s)
    = if bool_decide (q = p) then if ended s then s else r else s) by (intros; by destruct (bool_decide _), (ended s)).
  unfold expiry, expire_one. rewrite <-Hif. destruct (lp_pending l !! q) as [pd|] eqn:E; [|by apply tracks_no_entry].
  pose proof (tracks_answer s q pd (if pd_relay_connected pd then RelayOnly else Failed) l (lp_set_pending (delete q) l)
    Ht E eq_refl eq_refl eq_refl Hr) as H.
  destruct (decide (q = p)) as [->|Hne]; [|by rewrite bool_decide_false in H |- * by done].
  destruct (ended s) eqn:Ee; cbn [negb] in *; [by rewrite andb_false_r in *|].
  assert (Hc : pd_relay_connected pd = is_relayed s); [|by rewrite Hc in *].
  destruct Ht as (_ & _ & Hs), s; try done; destruct Hs as [_ Hs]; rewrite E in Hs; by injection Hs as ->.
Qed.

Lemma tracks_expire s ps l :
  lp_running l = true -> tracks s l ->
  tracks (if bool_decide (p ∈ ps) then expiry s else s) (foldl (fun l q => expire_one q l) l ps).
Proof.
  revert s l. induction ps as [|q ps IH]; intros s l Hr Ht; cbn [foldl]; [by rewrite bool_decide_false by apply not_elem_of_nil|].
  assert (Hr' : lp_running (expire_one q l) = true) by (unfold expire_one; destruct (lp_pending l !! q) as [pd|]; [by destruct (pd_result_tx pd)|done]).
  pose proof (IH _ _ Hr' (tracks_expire_one s q l Hr Ht)) as H.
  assert (Hee : expiry (expiry s) = expiry s) by (by destruct s).
  destruct (decide (q = p)) as [->|Hne].
  - rewrite (bool_decide_true (p = p)), Hee in H by done. rewrite (bool_decide_true (p ∈ p :: ps)) by apply list_elem_of_here.
    by destruct (bool_decide (p ∈ ps)).
  - rewrite (bool_decide_false (q = p)) in H by done.
    replace (bool_decide (p ∈ q :: ps)) with (bool_decide (p ∈ ps)); [done|].
    apply bool_decide_ext. rewrite elem_of_cons. naive_solver.
Qed.

Lemma tracks_timer s v l :
  lp_running l = true -> tracks s l -> tracks (lookup_next p d s (v, LeTimer)) (handle_timer v l).
Proof.
  intros Hr Ht. pose proof (tracks_expire s (expired (sv_now v) (lp_pending l)) l Hr Ht) as H. unfold handle_timer.
  assert (Heq : lookup_next p d s (v, LeTimer) = if bool_decide (p ∈ expired (sv_now v) (lp_pending l)) then expiry s else s); [|by rewrite Heq].
  unfold lookup_next, expiry. cbn [fst snd]. destruct (ended s) eqn:Ee; [by case_match|].
  destruct Ht as (_ & _ & Hs). assert (Hp : lp_pending l !! p = Some (mkPending (Some t) (is_relayed s) d)) by (destruct s; naive_solver).
  destruct (Z.leb_spec d (sv_now v)); [rewrite bool_decide_true|rewrite bool_decide_false]; try done; rewrite elem_of_expired.
  - eexists. split; [done|]. done.
  - intros (pd & Hpd & Hd). rewrite Hp in Hpd. injection Hpd as <-. cbn in Hd. lia.
Qed.

Lemma tracks_step s relay v e l :
  issued_by e <> Some t -> tracks s l -> tracks (lookup_next p d s (v, e)) (loop_step relay v e l).
Proof.
  intros Hi Ht. unfold loop_step. destruct (lp_running l) eqn:Hr.
  - destruct e; [by apply tracks_swarm|by apply tracks_command|by apply tracks_timer].
  - assert (He : ended s = true); [|unfold lookup_next; by rewrite He]. destruct Ht as (_ & _ & Hs). destruct s; try done; destruct Hs; congruence.
Qed.

Lemma tracks_run s relay es l :
  Forall (fun x => issued_by x.2 <> Some t) es -> tracks s l -> tracks (lookup_history p d es s) (loop_run relay es l).
Proof.
  intros Hes. revert s l. induction Hes as [|[v e] es He Hes IH]; intros s l Ht; cbn [loop_run]; [done|].
  unfold lookup_history. cbn [foldl]. by apply IH, tracks_step.
Qed.

End Lookup.

(** * A new lookup *)

Lemma unknown_results t l : t ∉ tokens l -> results_for t l = [].
Proof.
  unfold tokens, answered, results_for. rewrite not_elem_of_app. intros [Hn _]. revert Hn.
  induction (lp_answers l) as [|[x r] as_ IH]; [done|]. cbn [map fst]. rewrite not_elem_of_cons. intros [Hne Hn].
  cbn. rewrite bool_decide_false by congruence. by apply IH.
Qed.

Lemma unknown_pending t l q pd : t ∉ tokens l -> lp_pending l !! q = Some pd -> pd_result_tx pd <> Some t.
Proof.
  unfold tokens, pending_txs. rewrite not_elem_of_app. intros [_ Hn] Hq Ht. apply Hn. apply list_elem_of_omap.
  exists (q, pd). split; [by apply elem_of_map_to_list|done].
Qed.

Lemma tracks_start v p circuit t l relay :
  lp_running l = true -> t ∉ tokens l ->
  tracks p t (sv_now v + DCUTR_TIMEOUT) (lookup_start v p) (loop_step relay v (LeCommand (Some (ConnectViaRelay p circuit t))) l).
Proof.
  intros Hr Hn. unfold loop_step, lookup_start. rewrite Hr. cbn [handle_command].
  pose proof (unknown_results t l Hn) as Hres. pose proof (fun q pd => unknown_pending t l q pd Hn) as Hp.
  destruct (sv_dial_ok v p); unfold tracks.
  - split_and!; [exact Hres| |done|cbn; by rewrite lookup_insert_eq].
    intros q pd Hne. cbn. rewrite lookup_insert_ne by done. apply Hp.
  - rewrite results_answer, bool_decide_true by done. cbn [lookup_answer option_list].
    split_and!; [unfold results_for in *; cbn; by rewrite Hres|intros q pd _; apply Hp|intros pd; apply Hp].
Qed.

Lemma lookup_expires p d s v' : d <= sv_now v' -> ended (lookup_next p d s (v', LeTimer)) = true.
Proof. intros H. unfold lookup_next. destruct (ended s) eqn:E; [done|]. cbn. rewrite (proj2 (Z.leb_le _ _) H). done. Qed.

(** * Theorems *)

(** C21: A relay lookup from end to end.  The callback hands the loop one command
    with a new channel and waits; the loop, whatever else it serves, sends
    through the channel exactly what the automaton of the lookup says: one answer
    or, when the loop ends or a second lookup for the peer takes its place, none;
    the callback returns an address if and only if the answer is a direct or a
    relayed connection.  When the timer fires at or after ten seconds from the
    command, the lookup has ended. *)
Theorem relay_lookup_end_to_end w name bytes p circuit relay l v es :
  is_Some (w_class w) -> mem_cstr (w_mem w) name = Some bytes ->
  parse_lookup (to_string_lossy bytes) = Some (true, p, Some circuit) ->
  let t := w_next_oneshot w in
  let cmd := ConnectViaRelay p circuit t in
  lp_running l = true -> t ∉ tokens l -> Forall (fun x => issued_by x.2 <> Some t) es ->
  let d := sv_now v + DCUTR_TIMEOUT in
  let s := lookup_history p d es (lookup_start v p) in
  let answers := results_for t (loop_run relay ((v, LeCommand (Some cmd)) :: es) l) in
  let w1 := push_command cmd (upd_next_oneshot S w) in
  answers = option_list (lookup_answer s) /\
  na_libp2p_addr_lookup (head answers) name w
  = (if relay_answer_ok (lookup_answer s)
     then Done (NA_SUCCESS, Some (malloc (dom (w_addrs w))))
            (upd_addrs <[malloc (dom (w_addrs w)) := mkAddr p (Some circuit) false]> w1)
     else Done (NA_PROTOCOL_ERROR, None) w1) /\
  (forall v', d <= sv_now v' -> ended (lookup_next p d s (v', LeTimer)) = true).
Proof.
  intros Hc Hn Hp t cmd Hr Ht Hes d s answers w1.
  assert (Ha : answers = option_list (lookup_answer s)).
  { unfold answers. cbn [loop_run]. by apply (tracks_run p t d (lookup_start v p) relay es _ Hes (tracks_start v p circuit t l relay Hr Ht)). }
  split_and!; [done| |intros; by apply lookup_expires]. rewrite (lookup_run w _ name bytes true p (Some circuit) Hc Hn Hp).
  replace (head answers) with (lookup_answer s) by (rewrite Ha; by destruct (lookup_answer s)).
  by destruct (relay_answer_ok (lookup_answer s)).
Qed.

End RelayLookup.

Module RelayLookupDemo.
Import Demo DemoNode SerializeDemo AddrDemo LoopDemo.

(** Bob is behind a relay; the relayed connection comes up, the hole punching
    fails, and a lookup of another peer is served meanwhile. *)
Definition relayed_bob : NaLibp2pAddr := mkAddr x0b (Some relay_ma) false.
Definition asking : World := upd_mem (fun _ => mem_of 2000 (to_addr_string relayed_bob ++ [x00])) node.
Definition meanwhile : list (swarm_view * loop_event) :=
  [(view 5, LeSwarm (ConnectionEstablished x0b true relay_ma)); (view 6, lookup_cmd 7);
   (view 20, LeSwarm (DcutrEvent x0b false)); (view 30, LeTimer)].

Lemma relay_lookup_end_to_end_witness :
  let t := w_next_oneshot asking in
  results_for t (loop_run None ((view 0, LeCommand (Some (ConnectViaRelay x0b relay_ma t))) :: meanwhile) loop_new) = [RelayOnly].
Proof.
  refine (proj1 (relay_lookup_end_to_end asking 2000 (to_addr_string relayed_bob) x0b relay_ma None loop_new (view 0) meanwhile
    _ _ _ _ _ _)).
  - by eexists.
  - vm_compute. reflexivity.
  - vm_compute. reflexivity.
  - reflexivity.
  - apply not_elem_of_nil.
  - repeat constructor; vm_compute; discriminate.
Defined.

End RelayLookupDemo.
