(* ===== verification/System.v ===== *)
(** The whole plugin as a transition system: any NA callback the application may
    make and any step of the async side, in any order.  Reachable states satisfy
    the invariant, and no step [sys_ok] allows faults. *)
From Stdlib Require Import ZArith Lia.
From S2P Require Import Prelude.
From S2P Require Import Frame.
From S2P Require Import RustStr.
From S2P Require Import Libp2p.
From S2P Require Import Memory.
From S2P Require Import Protocol.
From S2P Require Import State.
From S2P Require Import Messaging.
From S2P Require Import Rma.
From S2P Require Import Addr.
From S2P Require Import Invariant.
From S2P Require Import Safety.
From S2P Require Import Progress.
From S2P Require Import RmaSpec.
From S2P Require Import Serialize.
From S2P Require Import AddrSpec.
From S2P Require Import Incoming.
From S2P Require Import Sender.
From S2P Require Import EventLoop.
From S2P Require Import DemoWorld.

Section System.
Context {LP : Libp2p} {OS : Os} {NB : NaBindings}.
Abbreviation MW := (M World).

(** * Events *)

Inductive sys_event :=
(** the NA thread *)
| NaOpCreate
| NaOpDestroy (op_id : Z)
| NaAddrLookup (answer : option RelayConnectResult) (name : Z)
| NaAddrFree (addr : Z)
| NaAddrSelf
| NaAddrDup (addr : Z)
| NaAddrDeserialize (addr_p buf buf_size : Z)
| NaSendUnexpected (context callback arg buf buf_size dest_addr tag op_id : Z)
| NaSendExpected (context callback arg buf buf_size dest_addr tag op_id : Z)
| NaRecvUnexpected (context callback arg buf buf_size op_id : Z)
| NaRecvExpected (context callback arg buf buf_size source_addr tag op_id : Z)
| NaMemHandleCreate (buf buf_size flags : Z)
| NaMemHandleFree (mem_handle : Z)
| NaMemHandleDeserialize (handle_p buf buf_size : Z)
| NaPut (context callback arg local_handle local_offset remote_handle remote_offset length remote_addr op_id : Z)
| NaGet (context callback arg local_handle local_offset remote_handle remote_offset length remote_addr op_id : Z)
| NaPoll
| NaCancel (context op_id : Z)
(** calls that only read the plugin's state, some into a buffer of the caller *)
| NaAddrCmp (addr1 addr2 : Z)
| NaAddrIsSelf (addr : Z)
| NaAddrToString (has_class : bool) (buf : Z) (buf_size : option Z) (addr : Z)
| NaAddrGetSerializeSize (addr : Z)
| NaAddrSerialize (buf buf_size addr : Z)
| NaMemHandleGetSerializeSize (mem_handle : Z)
| NaMemHandleSerialize (buf buf_size mem_handle : Z)
| NaPollTryWait
(** the async side *)
| IoMessage (self : PeerId) (h : WireHeader) (payload : list byte)
| IoTask (t : completion_task) (r : option send_result).

Definition is_io (ev : sys_event) : bool :=
  match ev with IoMessage _ _ _ | IoTask _ _ => true | _ => false end.

Definition ignore {A} (m : MW A) : MW unit := _ ← m; mret tt.

Definition run_sys (ev : sys_event) : MW unit :=
  match ev with
  | NaOpCreate => ignore na_libp2p_op_create
  | NaOpDestroy p => na_libp2p_op_destroy p
  | NaAddrLookup answer name => ignore (na_libp2p_addr_lookup answer name)
  | NaAddrFree a => na_libp2p_addr_free a
  | NaAddrSelf => ignore na_libp2p_addr_self
  | NaAddrDup a => ignore (na_libp2p_addr_dup a)
  | NaAddrDeserialize ap b n => ignore (na_libp2p_addr_deserialize ap b n)
  | NaSendUnexpected c cb arg b n d t p => ignore (na_libp2p_msg_send_unexpected c cb arg b n d t p)
  | NaSendExpected c cb arg b n d t p => ignore (na_libp2p_msg_send_expected c cb arg b n d t p)
  | NaRecvUnexpected c cb arg b n p => ignore (na_libp2p_msg_recv_unexpected c cb arg b n p)
  | NaRecvExpected c cb arg b n s t p => ignore (na_libp2p_msg_recv_expected c cb arg b n s t p)
  | NaMemHandleCreate b n f => ignore (na_libp2p_mem_handle_create b n f)
  | NaMemHandleFree h => na_libp2p_mem_handle_free h
  | NaMemHandleDeserialize hp b n => ignore (na_libp2p_mem_handle_deserialize hp b n)
  | NaPut c cb arg lh lo rh ro n a p => ignore (na_libp2p_put c cb arg lh lo rh ro n a p)
  | NaGet c cb arg lh lo rh ro n a p => ignore (na_libp2p_get c cb arg lh lo rh ro n a p)
  | NaPoll => ignore na_libp2p_poll
  | NaCancel c p => ignore (na_libp2p_cancel c p)
  | NaAddrCmp a b => ignore (na_libp2p_addr_cmp a b)
  | NaAddrIsSelf a => ignore (na_libp2p_addr_is_self a)
  | NaAddrToString has_class b n a => ignore (na_libp2p_addr_to_string has_class b n a)
  | NaAddrGetSerializeSize a => ignore (na_libp2p_addr_get_serialize_size a)
  | NaAddrSerialize b n a => ignore (na_libp2p_addr_serialize b n a)
  | NaMemHandleGetSerializeSize h => ignore (na_libp2p_mem_handle_get_serialize_size h)
  | NaMemHandleSerialize b n h => ignore (na_libp2p_mem_handle_serialize b n h)
  | NaPollTryWait => ignore na_libp2p_poll_try_wait
  | IoMessage self h payload => ignore (dispatch self h payload)
  | IoTask t r => run_task t r
  end.

(** * The contract *)

(** A null pointer or a live object. *)
Definition nullable {A} (m : gmap Z A) (p : Z) : Prop := p = null \/ is_Some (m !! p).

(** [read_transport_hint] may read [n] bytes from [buf] on: they are mapped, or
    there is a NUL to stop at. *)
Definition hint_readable (m : memory) (buf n : Z) : Prop :=
  mapped m buf n \/ exists k, 0 <= k /\ mapped m buf k /\ m !! (buf + k) = Some x00.

(** The hint is looked for in the buffer given for the text of an own address. *)
Definition reads_hint (w : World) (has_class : bool) (addr : Z) : Prop :=
  has_class = true /\ exists a, w_addrs w !! addr = Some a /\ addr_is_self a = true.

(** What is asked of a call: pointers are live, buffers are mapped for the size
    that is passed with them, an operation is not reused while it is pending and
    not destroyed before its callback, an address is not freed while a receive
    refers to it.  One clause is more than the NA interface promises: the buffer
    given for the text of an own address holds ten readable bytes or a NUL,
    whatever its size, since [read_transport_hint] does not look at the size
    ([AddrSpec.hint_read_past_buffer]).  Of the async side: a message was read
    from a stream, so its fields are in range, and an operation a task signals
    is live. *)
Definition sys_ok (w : World) (ev : sys_event) : Prop :=
  match ev with
  | NaOpCreate | NaAddrSelf | NaPoll | NaCancel _ _ | NaPollTryWait => True
  | NaOpDestroy p =>
      p = null \/ op_idle w p /\ forall c, c ∈ w_completions w -> ci_op_ptr c <> p
  | NaAddrLookup _ name => is_Some (mem_cstr (w_mem w) name)
  | NaAddrFree a => a = null \/ is_Some (w_addrs w !! a) /\ unreferenced w a
  | NaAddrDup a => a = null \/ is_Some (w_addrs w !! a)
  | NaAddrDeserialize _ b n | NaMemHandleDeserialize _ b n | NaMemHandleCreate b n _ => mapped (w_mem w) b n
  | NaSendUnexpected _ _ _ b n d _ p | NaSendExpected _ _ _ b n d _ p =>
      is_Some (w_ops w !! p) /\ is_Some (w_addrs w !! d) /\ buf_ok w b n
  | NaRecvUnexpected _ _ _ b n p => op_idle w p /\ buf_ok w b n
  | NaRecvExpected _ _ _ b n s _ p => op_idle w p /\ buf_ok w b n /\ (s = null \/ user_addr w s)
  | NaMemHandleFree h => h = null \/ is_Some (w_handles w !! h)
  | NaPut _ _ _ lh lo rh _ n a p =>
      op_idle w p /\ is_Some (w_handles w !! rh) /\ is_Some (w_addrs w !! a) /\
      exists h, w_handles w !! lh = Some h /\ put_source_ok w h lo n
  | NaGet _ _ _ lh _ rh _ _ a p =>
      op_idle w p /\ is_Some (w_handles w !! lh) /\ is_Some (w_handles w !! rh) /\ is_Some (w_addrs w !! a)
  | NaAddrCmp a b => nullable (w_addrs w) a /\ nullable (w_addrs w) b
  | NaAddrIsSelf a | NaAddrGetSerializeSize a => nullable (w_addrs w) a
  | NaAddrToString has_class b n a =>
      nullable (w_addrs w) a /\
      (b = null \/ mapped (w_mem w) b (default 0 n) /\ (reads_hint w has_class a -> hint_readable (w_mem w) b 10))
  | NaAddrSerialize b n a => nullable (w_addrs w) a /\ 0 <= n /\ mapped (w_mem w) b n
  | NaMemHandleGetSerializeSize h => nullable (w_handles w) h
  | NaMemHandleSerialize b n h => nullable (w_handles w) h /\ 0 <= n /\ mapped (w_mem w) b n
  | IoMessage _ h _ => header_in_range h
  | IoTask t r => is_Some (task_completion t r) -> is_Some (w_ops w !! ct_op_ptr t)
  end.

(** States the plugin can be in. *)
Inductive reachable (w0 : World) : World -> Prop :=
| reach_refl : reachable w0 w0
| reach_step w ev w' : reachable w0 w -> sys_ok w ev -> run_sys ev w = Done tt w' -> reachable w0 w'.

(** * Preservation, call by call *)

(** [m] returns from [w] in a well-formed state. *)
Definition safe {A} (m : MW A) (w : World) : Prop := exists a w', m w = Done a w' /\ wf w'.

Lemma safe_ignore {A} (m : MW A) w : safe m w -> exists w', ignore m w = Done tt w' /\ wf w'.
Proof. intros (a & w' & H & Hwf). exists w'. unfold ignore. by rewrite (bind_Done _ _ _ _ _ H). Qed.

Lemma wf_insert_op w p op : wf w -> w_ops w !! p = None -> wf (upd_ops <[p := op]> w).
Proof.
  intros Hwf Hp.
  assert (Hl : forall q, is_Some (w_ops w !! q) -> <[p := op]> (w_ops w) !! q = w_ops w !! q).
  { intros q [x Hx]. apply lookup_insert_ne. congruence. }
  split; cbn; try apply Hwf.
  - intros q Hq. rewrite Hl; by apply Hwf.
  - intros q o Hq. rewrite Hl; [by apply (wf_recv_buf w Hwf)|]. apply Hwf. unfold queued. elem_tauto.
  - intros q o Hq. rewrite Hl; [by apply (wf_recv_addr w Hwf)|]. apply Hwf. unfold queued. elem_tauto.
  - intros c Hc. rewrite Hl; by apply (wf_completions w Hwf).
Qed.

Lemma wf_delete_op w p :
  wf w -> p ∉ queued (w_queues w) -> (forall c, c ∈ w_completions w -> ci_op_ptr c <> p) ->
  wf (upd_ops (delete p) w).
Proof.
  intros Hwf Hq Hc. split; cbn; try apply Hwf.
  - intros q Hin. rewrite lookup_delete_ne by congruence. by apply Hwf.
  - intros q o Hin [_ Ho]%lookup_delete_Some. by apply (wf_recv_buf w Hwf q).
  - intros q o Hin [_ Ho]%lookup_delete_Some. by apply (wf_recv_addr w Hwf q).
  - intros c Hin. rewrite lookup_delete_ne by (apply not_eq_sym; auto). by apply (wf_completions w Hwf).
Qed.

Lemma wf_upd_handles w f : wf w -> wf (upd_handles f w).
Proof. intros H. eapply wf_ext; [..|exact H]; try done. apply H. Qed.

Lemma wf_upd_next_oneshot w f : wf w -> wf (upd_next_oneshot f w).
Proof. intros H. eapply wf_ext; [..|exact H]; try done. apply H. Qed.

#[local] Hint Resolve wf_insert_op wf_delete_op wf_upd_handles wf_upd_next_oneshot : na_wf.

Context {LPL : Libp2pLaws} {OSL : OsLaws}.

Lemma op_destroy_wf w p :
  wf w -> sys_ok w (NaOpDestroy p) -> exists w', na_libp2p_op_destroy p w = Done tt w' /\ wf w'.
Proof.
  intros Hwf Hok. unfold na_libp2p_op_destroy. destruct (Z.eqb_spec p null) as [|Hn]; [by eauto|]. cbn [negb when].
  destruct Hok as [|[[[op Hop] Hq] Hc]]; [done|].
  rewrite (bind_Done _ _ _ _ _ (read_op_spec w p op Hop)). eexists. split; [done|]. by apply wf_delete_op.
Qed.

Lemma wf_lookup_command w r peer ma : wf w -> wf (lookup_command r peer ma w).
Proof.
  intros H. unfold lookup_command. destruct ma; [|done]. destruct r; apply wf_push_command; [|done].
  by apply wf_upd_next_oneshot.
Qed.

Lemma addr_lookup_safe w answer name : wf w -> is_Some (mem_cstr (w_mem w) name) -> safe (na_libp2p_addr_lookup answer name) w.
Proof.
  intros Hwf [bytes Hb]. destruct (parse_lookup (to_string_lossy bytes)) as [[[r peer] ma]|] eqn:E.
  - pose proof (lookup_run w answer name bytes r peer ma (wf_class w Hwf) Hb E) as H. cbv zeta in H. unfold safe. rewrite H.
    case_match; [by do 2 eexists; split; [done|apply wf_lookup_command]|].
    assert (Hd : malloc (dom (w_addrs w)) = malloc (dom (w_addrs (lookup_command r peer ma w)))).
    { unfold lookup_command, push_command. by repeat case_match. }
    rewrite Hd. do 2 eexists. split; [done|]. apply wf_alloc. by apply wf_lookup_command.
  - do 2 eexists. split; [|exact Hwf]. unfold na_libp2p_addr_lookup.
    destruct (get_class_spec w Hwf) as (c & Hc & _). rewrite (bind_Done _ _ _ _ _ Hc).
    rewrite (bind_Done _ _ _ bytes w) by (unfold read_cstr; unfold_M; by rewrite Hb). by rewrite E.
Qed.

Lemma addr_free_wf w a :
  wf w -> sys_ok w (NaAddrFree a) -> exists w', na_libp2p_addr_free a w = Done tt w' /\ wf w'.
Proof.
  intros Hwf Hok. unfold na_libp2p_addr_free. destruct (Z.eqb_spec a null) as [|Hn]; [by eauto|]. cbn [negb when].
  destruct Hok as [|[Hl Hu]]; [done|]. rewrite free_addr_spec by done. eexists. split; [done|]. by apply wf_free.
Qed.

Lemma addr_dup_safe w a : wf w -> a = null \/ is_Some (w_addrs w !! a) -> safe (na_libp2p_addr_dup a) w.
Proof.
  intros Hwf Ha. unfold safe, na_libp2p_addr_dup. destruct (Z.eqb_spec a null) as [|Hn]; [by do 2 eexists|].
  destruct Ha as [|[x Hx]]; [done|]. rewrite (bind_Done _ _ _ _ _ (read_addr_spec w a x Hx)).
  do 2 eexists. split; [done|]. by apply wf_alloc.
Qed.

Lemma addr_self_safe w : wf w -> safe na_libp2p_addr_self w.
Proof.
  intros Hwf. destruct (get_class_spec w Hwf) as (c & Hc & _). unfold safe, na_libp2p_addr_self.
  rewrite (bind_Done _ _ _ _ _ Hc). do 2 eexists. split; [done|]. by apply wf_alloc.
Qed.

Lemma run_task_wf w t r :
  wf w -> (is_Some (task_completion t r) -> is_Some (w_ops w !! ct_op_ptr t)) ->
  exists w', run_task t r w = Done tt w' /\ wf w'.
Proof.
  intros Hwf Hop. unfold run_task, task_completion in *. destruct (_ && _); [by eauto|]. specialize (Hop ltac:(by eexists)).
  rewrite complete_run by apply Hwf. eexists. split; [done|]. apply wf_upd_efd.
  assert (H1 : wf (upd_queues (fun _ => w_queues w) (upd_completions
     (fun _ => w_completions w ++ [mkCompletion (ct_op_ptr t) (task_result r) None]) w))).
  { apply wf_requeue; try done; try apply Hwf.
    - rewrite owned_push_plain by done. apply Hwf.
    - intros a. rewrite owned_push_plain by done. by left.
    - intros x [Hx| ->%list_elem_of_singleton]%elem_of_app; [by apply (wf_completions w Hwf)|done]. }
  eapply wf_ext; [..|exact H1]; try done. apply Hwf.
Qed.

Lemma addr_deserialize_safe w ap b n : wf w -> mapped (w_mem w) b n -> safe (na_libp2p_addr_deserialize ap b n) w.
Proof.
  intros Hwf Hm. destruct (addr_deserialize_parses w ap b n Hm) as [(c & H & _)|(x & H)]; do 2 eexists; (split; [exact H|]).
  - done.
  - by apply wf_alloc.
Qed.

Lemma mem_handle_deserialize_safe w hp b n :
  wf w -> mapped (w_mem w) b n -> safe (na_libp2p_mem_handle_deserialize hp b n) w.
Proof.
  intros Hwf Hm. destruct (mem_handle_deserialize_parses w hp b n Hm) as [(c & H & _)|(x & H)]; do 2 eexists; (split; [exact H|]).
  - done.
  - by apply wf_upd_handles.
Qed.

Lemma send_unexpected_safe w c cb arg b n d t p :
  wf w -> is_Some (w_ops w !! p) -> is_Some (w_addrs w !! d) -> buf_ok w b n ->
  safe (na_libp2p_msg_send_unexpected c cb arg b n d t p) w.
Proof.
  intros Hwf [op Hop] [dest Hd] Hb.
  destruct (msg_send_unexpected_run w c cb arg b n d t p op dest Hwf Hop Hd Hb) as (cls & payload & _ & _ & H).
  do 2 eexists. split; [exact H|]. apply wf_push_command. eapply wf_upd_op; eauto. by right.
Qed.

Lemma send_expected_safe w c cb arg b n d t p :
  wf w -> is_Some (w_ops w !! p) -> is_Some (w_addrs w !! d) -> buf_ok w b n ->
  safe (na_libp2p_msg_send_expected c cb arg b n d t p) w.
Proof.
  intros Hwf [op Hop] [dest Hd] Hb.
  destruct (msg_send_expected_run w c cb arg b n d t p op dest Hwf Hop Hd Hb) as (cls & payload & _ & _ & H).
  do 2 eexists. split; [exact H|]. apply wf_push_command. eapply wf_upd_op; eauto. by right.
Qed.

(** ** Calls that read *)

Lemma addr_cmp_safe w a b : wf w -> nullable (w_addrs w) a -> nullable (w_addrs w) b -> safe (na_libp2p_addr_cmp a b) w.
Proof.
  intros Hwf Ha Hb. unfold safe, na_libp2p_addr_cmp. destruct (a =? b); [by do 2 eexists|].
  destruct Ha as [->|[x Hx]]; [by do 2 eexists|]. destruct Hb as [->|[y Hy]]; [rewrite orb_true_r; by do 2 eexists|].
  case_match; [by do 2 eexists|]. rewrite (bind_Done _ _ _ _ _ (read_addr_spec w a x Hx)).
  rewrite (bind_Done _ _ _ _ _ (read_addr_spec w b y Hy)). by do 2 eexists.
Qed.

Lemma addr_is_self_safe w a : wf w -> nullable (w_addrs w) a -> safe (na_libp2p_addr_is_self a) w.
Proof.
  intros Hwf Ha. unfold safe, na_libp2p_addr_is_self. destruct Ha as [->|[x Hx]]; [by do 2 eexists|].
  destruct (a =? null); [by do 2 eexists|]. destruct (get_class_spec w Hwf) as (c & Hc & _).
  rewrite (bind_Done _ _ _ _ _ Hc), (bind_Done _ _ _ _ _ (read_addr_spec w a x Hx)). by do 2 eexists.
Qed.

Lemma addr_size_safe w a : wf w -> nullable (w_addrs w) a -> safe (na_libp2p_addr_get_serialize_size a) w.
Proof.
  intros Hwf Ha. unfold safe, na_libp2p_addr_get_serialize_size. destruct Ha as [->|[x Hx]]; [by do 2 eexists|].
  destruct (a =? null); [by do 2 eexists|]. rewrite (bind_Done _ _ _ _ _ (read_addr_spec w a x Hx)). by do 2 eexists.
Qed.

Lemma handle_size_safe w h : wf w -> nullable (w_handles w) h -> safe (na_libp2p_mem_handle_get_serialize_size h) w.
Proof.
  intros Hwf Ha. unfold safe, na_libp2p_mem_handle_get_serialize_size. destruct Ha as [->|[x Hx]]; [by do 2 eexists|].
  destruct (h =? null); [by do 2 eexists|]. destruct (get_class_spec w Hwf) as (c & Hc & _).
  rewrite (bind_Done _ _ _ _ _ (read_handle_spec w h x Hx)), (bind_Done _ _ _ _ _ Hc). by do 2 eexists.
Qed.

Lemma write_chunks_safe w out n chunks : wf w -> 0 <= n -> mapped (w_mem w) out n -> safe (write_chunks out n 0 chunks) w.
Proof.
  intros Hwf Hn Hm. destruct (Z.le_gt_cases (0 + chunks_len chunks) n) as [Hl|Hl].
  - destruct (write_chunks_ok w out n 0 chunks Hm ltac:(lia) Hl) as (m' & H & Hd & _). do 2 eexists. split; [exact H|].
    by apply wf_upd_mem.
  - destruct (write_chunks_overflow w out n 0 chunks Hm ltac:(lia) ltac:(lia)) as (m' & H & Hd & _). do 2 eexists.
    split; [exact H|]. by apply wf_upd_mem.
Qed.

Lemma safe_ret {A B} (m : MW A) (f : A -> B) w : safe m w -> safe (x ← m; mret (f x)) w.
Proof. intros (a & w' & H & Hwf). do 2 eexists. rewrite (bind_Done _ _ _ _ _ H). by split. Qed.

Lemma addr_serialize_safe w b n a :
  wf w -> nullable (w_addrs w) a -> 0 <= n -> mapped (w_mem w) b n -> safe (na_libp2p_addr_serialize b n a) w.
Proof.
  intros Hwf Ha Hn Hm. unfold na_libp2p_addr_serialize. destruct Ha as [->|[x Hx]]; [by do 2 eexists|].
  case_match; [by do 2 eexists|]. unfold safe. rewrite (bind_Done _ _ _ _ _ (read_addr_spec w a x Hx)).
  by apply (safe_ret _ (fun ok : bool => if ok then NA_SUCCESS else NA_OVERFLOW)), write_chunks_safe.
Qed.

Lemma mem_handle_serialize_safe w b n h :
  wf w -> nullable (w_handles w) h -> 0 <= n -> mapped (w_mem w) b n -> safe (na_libp2p_mem_handle_serialize b n h) w.
Proof.
  intros Hwf Ha Hn Hm. unfold na_libp2p_mem_handle_serialize.
  destruct Ha as [->|[x Hx]]; [rewrite orb_true_r; by do 2 eexists|].
  case_match; [by do 2 eexists|]. destruct (get_class_spec w Hwf) as (c & Hc & _). unfold safe.
  rewrite (bind_Done _ _ _ _ _ (read_handle_spec w h x Hx)), (bind_Done _ _ _ _ _ Hc).
  by apply (safe_ret _ (fun ok : bool => if ok then NA_SUCCESS else NA_OVERFLOW)), write_chunks_safe.
Qed.

Lemma hint_readable_head m p n : hint_readable m p (1 + n) -> 0 <= n -> is_Some (m !! p).
Proof.
  intros [Hm|(k & Hk & Hm & H0)] Hn; [apply Hm; lia|]. destruct (Z.eq_dec k 0) as [->|]; [|apply Hm; lia].
  rewrite Z.add_0_r in H0. by eexists.
Qed.

Lemma hint_readable_tail m p n b :
  hint_readable m p (1 + n) -> m !! p = Some b -> b <> x00 -> hint_readable m (p + 1) n.
Proof.
  intros [Hm|(k & Hk & Hm & H0)] Hb Hne; [left; intros a Ha; apply Hm; lia|right].
  destruct (Z.eq_dec k 0) as [->|]; [rewrite Z.add_0_r in H0; congruence|].
  exists (k - 1). split_and!; [lia|intros a Ha; apply Hm; lia|]. by replace (p + 1 + (k - 1)) with (p + k) by lia.
Qed.

Lemma hint_bytes_run n w buf i :
  hint_readable (w_mem w) (buf + i) (Z.of_nat n) -> exists bs, hint_bytes n buf i w = Done bs w.
Proof.
  revert i. induction n as [|n IH]; intros i Hm; [by eexists|]. cbn [hint_bytes]. rewrite bind_gets.
  rewrite Nat2Z.inj_succ, <-Z.add_1_l in Hm. destruct (hint_readable_head _ _ _ Hm ltac:(lia)) as [b Hb]. rewrite Hb.
  cbn [deref]. rewrite bind_mret. case_bool_decide; [by eexists|].
  destruct (IH (i + 1)) as (bs & H1); [rewrite Z.add_assoc; by eapply hint_readable_tail|].
  rewrite (bind_Done _ _ _ _ _ H1). by eexists.
Qed.

Lemma addr_display_run w has_class buf a :
  wf w -> buf = null \/ (has_class = true -> addr_is_self a = true -> hint_readable (w_mem w) buf 10) ->
  exists s, addr_display has_class buf a w = Done s w.
Proof.
  intros Hwf Hb. unfold addr_display. case_match eqn:E; [|by eexists].
  destruct Hb as [->|Hm]; [by rewrite andb_false_r in E|]. apply andb_prop in E as [[E _]%andb_prop E'].
  destruct (get_class_spec w Hwf) as (c & Hc & _).
  rewrite (bind_Done _ _ _ _ _ Hc). unfold read_transport_hint.
  destruct (hint_bytes_run 10 w buf 0) as (bs & Hbs); [rewrite Z.add_0_r; by apply Hm|].
  rewrite (bind_Done _ _ _ (parse_hint bs) w) by (by rewrite (bind_Done _ _ _ _ _ Hbs)). by repeat case_match; eexists.
Qed.

Lemma addr_to_string_safe w has_class buf n a :
  wf w -> nullable (w_addrs w) a ->
  buf = null \/ mapped (w_mem w) buf (default 0 n) /\ (reads_hint w has_class a -> hint_readable (w_mem w) buf 10) ->
  safe (na_libp2p_addr_to_string has_class buf n a) w.
Proof.
  intros Hwf Ha Hb. unfold safe, na_libp2p_addr_to_string. destruct n as [n|]; [|by do 2 eexists]. cbn in Hb.
  destruct Ha as [->|[x Hx]]; [by do 2 eexists|]. destruct (a =? null); [by do 2 eexists|].
  rewrite (bind_Done _ _ _ _ _ (read_addr_spec w a x Hx)). destruct (addr_display_run w has_class buf x Hwf) as (s & Hs).
  { destruct Hb as [|[_ Hh]]; [by left|right]. intros ??. apply Hh. split; [done|by exists x]. }
  rewrite (bind_Done _ _ _ _ _ Hs). destruct Hb as [->|[Hm _]]; [by do 2 eexists|].
  destruct (buf =? null); [by do 2 eexists|]. destruct (Z.ltb_spec n (len s + 1)); [by do 2 eexists|].
  pose proof (len_nonneg s). destruct (copy_to_spec w buf s) as (m1 & H1 & Hd1 & _); [intros y Hy; apply Hm; lia|].
  destruct (copy_to_spec (upd_mem (fun _ => m1) w) (buf + len s) [x00]) as (m2 & H2 & Hd2 & _).
  { eapply mapped_dom; [symmetry; exact Hd1|]. intros y Hy. change (len [x00]) with 1 in Hy. apply Hm. lia. }
  rewrite (bind_Done _ _ _ _ _ H1), (bind_Done _ _ _ _ _ H2). do 2 eexists. split; [done|].
  apply (wf_upd_mem (upd_mem (fun _ => m1) w)); [|done]. by apply wf_upd_mem.
Qed.

Lemma poll_try_wait_safe w : wf w -> safe na_libp2p_poll_try_wait w.
Proof.
  intros Hwf. unfold safe, na_libp2p_poll_try_wait. destruct (get_class_spec w Hwf) as (c & Hc & _).
  rewrite (bind_Done _ _ _ _ _ Hc), bind_gets. by do 2 eexists.
Qed.

#[local] Hint Resolve addr_cmp_safe addr_is_self_safe addr_size_safe handle_size_safe addr_serialize_safe
  mem_handle_serialize_safe addr_to_string_safe poll_try_wait_safe : na_wf.
#[local] Hint Resolve op_destroy_wf addr_lookup_safe addr_free_wf addr_self_safe addr_dup_safe addr_deserialize_safe
  mem_handle_deserialize_safe send_unexpected_safe send_expected_safe run_task_wf malloc_lookup : na_wf.

Lemma run_sys_wf w ev : wf w -> sys_ok w ev -> exists w', run_sys ev w = Done tt w' /\ wf w'.
Proof.
  intros Hwf Hok. destruct ev; cbn [run_sys sys_ok] in *; try apply safe_ignore; destruct_and?;
    eauto with na_wf; unfold safe; eauto with na_wf.
  - do 2 eexists. split; [done|]. eauto with na_wf.
  - destruct (mem_handle_create_wf w buf buf_size flags Hwf Hok) as (w' & p & ? & ?). eauto.
  - match goal with H : op_idle _ _ |- _ => destruct H end. naive_solver eauto with na_wf.
  - destruct (poll_wf w Hwf) as (w' & n & ? & ?). eauto.
  - destruct (dispatch_wf w self h payload Hwf Hok) as (r & w' & ? & ? & _). eauto.
Qed.

Lemma reachable_wf w0 w : wf w0 -> reachable w0 w -> wf w.
Proof.
  intros H0. induction 1 as [|w ev w' _ IH Hok Hrun]; [done|].
  destruct (run_sys_wf w ev IH Hok) as (w1 & Hrun' & Hwf). congruence.
Qed.

(** * Theorems *)

(** Memory safety of the plugin: from a well-formed state, through any
    interleaving of NA callbacks that respect the interface and of steps of the
    async tasks, no reachable state lets an allowed step panic, follow a
    dangling pointer, free twice or write outside the buffers it was given. *)
Theorem plugin_never_faults w0 w ev :
  wf w0 -> reachable w0 w -> sys_ok w ev -> exists w', run_sys ev w = Done tt w'.
Proof.
  intros H0 Hr Hok. destruct (run_sys_wf w ev (reachable_wf w0 w H0 Hr) Hok) as (w' & H & _). eauto.
Qed.

(** The ownership invariant holds in every reachable state: every queued
    operation and every completed one is live, queued at most once, every buffer
    a handler may write is mapped, and each source address the plugin holds is
    live and owned exactly once. *)
Theorem invariant_reachable w0 w : wf w0 -> reachable w0 w -> wf w.
Proof. apply reachable_wf. Qed.

End System.

#[export] Hint Unfold ignore : frame.

Module SystemDemo.
Import Demo DemoNode.

Definition posted : World :=
  match run_sys (NaRecvExpected 9 8 7 1016 16 50 4 2) node with Done _ w => w | Fault _ => node end.

Lemma posting_allowed : sys_ok node (NaRecvExpected 9 8 7 1016 16 50 4 2).
Proof.
  split_and!.
  - split; [by eexists|by apply not_elem_of_nil].
  - right. apply mapped_check_sound. by vm_compute.
  - right. split; [by eexists|by apply not_elem_of_nil].
Qed.

Lemma posted_reachable : reachable node posted.
Proof.
  refine (reach_step node node (NaRecvExpected 9 8 7 1016 16 50 4 2) posted (reach_refl node) posting_allowed _).
  destruct (run_sys_wf node _ node_wf posting_allowed) as (w' & H & _). unfold posted. by rewrite H.
Qed.

Lemma hello_in_range : header_in_range (header Expected 4 hello).
Proof. repeat split; vm_compute; first [discriminate | reflexivity]. Qed.

Lemma plugin_never_faults_witness :
  exists w', run_sys (IoMessage self (header Expected 4 hello) hello) posted = Done tt w'.
Proof.
  exact (plugin_never_faults node posted (IoMessage self (header Expected 4 hello) hello)
    node_wf posted_reachable hello_in_range).
Defined.

Lemma invariant_reachable_witness : wf posted /\ expected_recv_ops (w_queues posted) = [2].
Proof. split; [exact (invariant_reachable node posted node_wf posted_reachable) | vm_compute; reflexivity]. Defined.

End SystemDemo.
