(* ===== verification/Wakeup.v ===== *)
(** The wake-up protocol between the async side and the NA thread, at the
    granularity at which the two can interleave.  The handlers and completion
    tasks run up to their completion and then take its two actions one by one
    ([complete_steps]: send, then write the eventfd); [na_libp2p_poll] is run
    through the same code ([poll_at]) with the others going on between
    its actions.  The NA thread may block on the descriptor between
    polls. *)
From Stdlib Require Import ZArith Lia.
From S2P Require Import Prelude.
From S2P Require Import Frame.
From S2P Require Import RustStr.
From S2P Require Import Libp2p.
From S2P Require Import Memory.
From S2P Require Import Protocol.
From S2P Require Import State.
From S2P Require Import Messaging.
From S2P Require Import Rma.
From S2P Require Import Invariant.
From S2P Require Import Safety.
From S2P Require Import Progress.
From S2P Require Import Incoming.
From S2P Require Import Sender.
From S2P Require Import EventLoop.
From S2P Require Import System.
From S2P Require Import DemoWorld.

Section Wakeup.
Context {LP : Libp2p} {OS : Os} {NB : NaBindings}.
Abbreviation MW := (M World).
Abbreviation actions := (list (MW unit)).

(** * The async side, in steps *)

(** A handler or a task up to its completion, and the actions that remain. *)
Definition async_steps (ev : sys_event) : MW actions :=
  match ev with
  | IoMessage self h payload =>
      match msg_type h with
      | Unexpected => c ← match_incoming h payload false; mret (from_option complete_steps [] c)
      | Expected => c ← match_incoming h payload true; mret (from_option complete_steps [] c)
      | RmaPut => _ ← handle_rma_put h payload; mret []
      | RmaGetReq => _ ← handle_rma_get_request self h; mret []
      | RmaGetResp => c ← match_get_response h payload; mret (from_option complete_steps [] c)
      end
  | IoTask t r => mret (from_option complete_steps [] (task_completion t r))
  | _ => mret []
  end.

(** Taken together, these steps are the handler. *)
Lemma async_steps_run ev w : is_io ev = true -> run_sys ev w = (l ← async_steps ev; run_steps l) w.
Proof.
  assert (Hb : forall (m : MW (option CompletionItem)) w,
    (_ ← (_ ← (c ← m; complete c); mret (@None (WireHeader * list byte))); mret tt : MW unit) w
    = (l ← (c ← m; mret (from_option complete_steps [] c)); run_steps l) w).
  { intros m w1. unfold mbind, M_bind. destruct (m w1) as [[c|] w2|]; [|done..]. cbn.
    unfold mbind, M_bind. destruct (send_completion c w2) as [[] w3|]; [|done]. done. }
  destruct ev; try done; intros _; cbn [run_sys async_steps].
  - unfold ignore, dispatch. destruct (msg_type h); try apply Hb.
    + unfold mbind, M_bind. by destruct (handle_rma_put h payload w) as [[] w'|].
    + unfold mbind, M_bind. by destruct (handle_rma_get_request self h w) as [r w'|].
  - unfold run_task. by destruct (task_completion t r).
Qed.

(** Where a task can be once it has begun. *)
Definition task_shape (l : actions) : Prop := (exists c, l = complete_steps c) \/ l = [signal_eventfd].

Definition channel_part (w : World) := (w_completions w, w_efd w).

Lemma async_steps_quiet ev : respects (kept channel_part) (async_steps ev).
Proof. destruct ev; cbn [async_steps]; frame. Qed.

Lemma async_steps_shape ev w l w' : async_steps ev w = Done l w' -> l = [] \/ task_shape l.
Proof.
  assert (Ho : forall c : option CompletionItem, from_option complete_steps [] c = [] \/ task_shape (from_option complete_steps [] c)).
  { intros [c|]; [right; left; by exists c|by left]. }
  destruct ev; cbn [async_steps]; try (by intros [= <- _]; left).
  - unfold mbind, M_bind. destruct (msg_type h); case_match; try done; intros [= <- _]; auto.
  - intros [= <- _]. apply Ho.
Qed.

(** * The interleaving *)

Inductive task_event :=
| TBegin (ev : sys_event)  (** a handler or task runs up to its completion *)
| TStep (i : nat).         (** task [i] takes its next action *)

(** [wk_schedule]: what the others do at the next actions of a poll. *)
Record wake_state := mkWake {
  wk_world : World;
  wk_tasks : list actions;
  wk_schedule : list (list task_event);
}.
Abbreviation MK := (M wake_state).

Definition on_world A (m : MW A) : MK A := fun s =>
  match m (wk_world s) with
  | Done a w => Done a (mkWake w (wk_tasks s) (wk_schedule s))
  | Fault e => Fault e
  end.
Definition set_tasks (f : list actions -> list actions) (s : wake_state) : wake_state :=
  mkWake (wk_world s) (f (wk_tasks s)) (wk_schedule s).
Definition set_schedule (l : list (list task_event)) (s : wake_state) : wake_state := mkWake (wk_world s) (wk_tasks s) l.

Definition task_run (e : task_event) : MK unit :=
  match e with
  | TBegin ev =>
      when (is_io ev)
        (l ← on_world _ (async_steps ev);
         when (negb (bool_decide (length l = 0%nat))) (modify (set_tasks (fun ts => ts ++ [l]))))
  | TStep i =>
      ts ← gets wk_tasks;
      match ts !! i with
      | Some (m :: l) =>
          _ ← on_world _ m;
          modify (set_tasks (fun ts => match l with [] => delete i ts | _ => <[i := l]> ts end))
      | _ => mret tt
      end
  end.

Fixpoint tasks_run (es : list task_event) : MK unit :=
  match es with
  | [] => mret tt
  | e :: es' => _ ← task_run e; tasks_run es'
  end.

(** What the others do before the next action of the NA thread. *)
Definition others : MK unit :=
  sched ← gets wk_schedule;
  match sched with
  | [] => mret tt
  | es :: sched' => _ ← modify (set_schedule sched'); tasks_run es
  end.
Definition disturbed A (m : MW A) : MK A := _ ← others; on_world A m.

Inductive wake_event :=
| WTask (e : task_event)                       (** the NA thread is outside [poll] *)
| WPoll (sched : list (list task_event)).      (** it polls, the others run meanwhile *)

(** A poll is given a round for each completion there is and each action to come. *)
Definition run_wake (e : wake_event) : MK unit :=
  match e with
  | WTask e => task_run e
  | WPoll sched =>
      _ ← modify (set_schedule sched);
      items ← gets (fun s => w_completions (wk_world s));
      _ ← poll_at disturbed (S (length items + length (concat sched)));
      mret tt
  end.

Fixpoint run_wakes (es : list wake_event) : MK unit :=
  match es with
  | [] => mret tt
  | e :: es' => _ ← run_wake e; run_wakes es'
  end.

(** * The invariant *)

Context {OSL : OsLaws}.

(** A waiting completion is announced or about to be. *)
Definition announced (s : wake_state) : Prop :=
  w_completions (wk_world s) <> [] ->
  efd_readable (w_efd (wk_world s)) = true \/ [signal_eventfd] ∈ wk_tasks s.
Definition shaped (s : wake_state) : Prop := Forall task_shape (wk_tasks s).

(** The completions there are and the actions that may still send one. *)
Definition backlog (s : wake_state) : nat := length (w_completions (wk_world s)) + length (concat (wk_schedule s)).

Record task_effect (n : nat) (s s' : wake_state) : Prop := mk_task_effect {
  te_shaped : shaped s -> shaped s';
  te_announced : shaped s -> announced s -> announced s';
  te_schedule : wk_schedule s' = wk_schedule s;
  te_sent : shaped s -> (length (w_completions (wk_world s')) <= length (w_completions (wk_world s)) + n)%nat;
}.

Lemma on_world_run {A} (m : MW A) s a s' :
  on_world A m s = Done a s' ->
  m (wk_world s) = Done a (wk_world s') /\ wk_tasks s' = wk_tasks s /\ wk_schedule s' = wk_schedule s.
Proof. unfold on_world. destruct (m (wk_world s)) as [x w|]; [|done]. by intros [= -> <-]. Qed.

Lemma begin_effect ev s s' : task_run (TBegin ev) s = Done tt s' -> task_effect 1 s s'.
Proof.
  cbn [task_run]. destruct (is_io ev); cbn [when]; [|intros [= <-]; split; auto; lia].
  unfold mbind, M_bind. destruct (on_world _ (async_steps ev) s) as [l s1|] eqn:E; [|done].
  apply on_world_run in E as (E & Ht & Hs). pose proof (async_steps_quiet ev _ _ _ E) as Hk.
  unfold kept, channel_part in Hk. injection Hk as Hc He.
  destruct (async_steps_shape ev _ _ _ E) as [->|Hl]; cbn.
  - intros [= <-]. split; unfold shaped, announced; rewrite ?Ht, ?Hc, ?He; auto; lia.
  - assert (Hne : bool_decide (length l = 0%nat) = false) by (destruct Hl as [[c ->]| ->]; done). rewrite Hne. cbn.
    intros [= <-]. split; unfold shaped, announced; cbn; rewrite ?Ht, ?Hc, ?He; auto; [|intros _ Ha Hn|lia].
    + intros H. apply Forall_app. split; [done|]. by apply Forall_singleton.
    + destruct (Ha Hn); [by left|right]. apply elem_of_app. by left.
Qed.

Lemma step_effect i s s' : task_run (TStep i) s = Done tt s' -> task_effect 1 s s'.
Proof.
  cbn [task_run]. mpure. destruct (wk_tasks s !! i) as [[|m l]|] eqn:Ei; try (intros [= <-]; split; auto; lia).
  unfold mbind, M_bind. destruct (on_world _ m s) as [[] s1|] eqn:E; [|done].
  apply on_world_run in E as (E & Ht & Hs). intros [= <-].
  split; [intros Hsh|intros Hsh|done|intros Hsh]; (assert (Hm : task_shape (m :: l)) by (by eapply Forall_lookup_1)); cbn.
  - unfold shaped. cbn. rewrite Ht. destruct Hm as [[c [= -> ->]]|[= -> ->]].
    + apply Forall_insert; [done|]. by right.
    + apply Forall_forall. intros x Hx%list_elem_of_delete_inv. by apply (proj1 (Forall_forall _ _) Hsh).
  - intros Ha Hn. cbn in *. rewrite Ht. destruct Hm as [[c [= -> ->]]|[= -> ->]].
    + right. apply list_elem_of_lookup. exists i. apply list_lookup_insert_eq. by eapply lookup_lt_Some.
    + left. injection E as <-. apply efd_write_readable.
  - destruct Hm as [[c [= -> ->]]|[= -> ->]].
    + unfold send_completion in E. unfold_M. destruct (w_class (wk_world s)); injection E as <-; cbn; rewrite ?length_app; cbn; lia.
    + injection E as <-. cbn. lia.
Qed.

Lemma task_run_effect e s s' : task_run e s = Done tt s' -> task_effect 1 s s'.
Proof. destruct e; [apply begin_effect|apply step_effect]. Qed.

Lemma tasks_run_effect es s s' : tasks_run es s = Done tt s' -> task_effect (length es) s s'.
Proof.
  revert s. induction es as [|e es IH]; intros s; cbn [tasks_run]; [intros [= <-]; split; auto; lia|].
  unfold mbind, M_bind. destruct (task_run e s) as [[] s1|] eqn:E; [|done]. intros H.
  apply task_run_effect in E as [A1 A2 A3 A4]. apply IH in H as [B1 B2 B3 B4]. split; auto; [congruence|].
  intros Hs. specialize (A4 Hs). specialize (B4 (A1 Hs)). cbn. lia.
Qed.

(** At an interference point the backlog does not grow. *)
Lemma others_effect s s' :
  others s = Done tt s' ->
  (shaped s -> shaped s' /\ (backlog s' <= backlog s)%nat) /\ (shaped s -> announced s -> announced s').
Proof.
  unfold others. mpure. destruct (wk_schedule s) as [|es sched] eqn:E; [intros [= <-]; auto|]. intros H.
  apply tasks_run_effect in H as [A1 A2 A3 A4]. split; [|exact A2]. intros Hs. split; [by apply A1|].
  specialize (A4 Hs). cbn in A3, A4. unfold backlog. rewrite A3, E. cbn. rewrite length_app. lia.
Qed.

(** Receiving a completion touches neither the channel nor the eventfd. *)
Lemma poll_one_quiet c : respects (kept channel_part) (poll_one c).
Proof. frame. Qed.

(** ** The receive loop ends with an empty channel *)

(** An action of the NA thread, with what the others did before it. *)
Lemma disturbed_run {A} (m : MW A) s a s' :
  shaped s -> disturbed A m s = Done a s' ->
  exists w, m w = Done a (wk_world s') /\ shaped s' /\
    (length (w_completions w) + length (concat (wk_schedule s')) <= backlog s)%nat.
Proof.
  intros Hs. unfold disturbed, mbind, M_bind. destruct (others s) as [[] s1|] eqn:E1; [|done].
  destruct (others_effect _ _ E1) as [H1 _]. destruct (H1 Hs) as [Hs1 Hb1]. intros H%on_world_run.
  destruct H as (H & Ht & Hsch). exists (wk_world s1). split_and!; [done|unfold shaped; by rewrite Ht|by rewrite Hsch].
Qed.

Lemma poll_loop_empties fuel count s n s' :
  shaped s -> (backlog s < fuel)%nat -> poll_drain_at disturbed fuel count s = Done n s' ->
  shaped s' /\ w_completions (wk_world s') = [].
Proof.
  revert count s. induction fuel as [|fuel IH]; intros count s Hs Hf; [lia|]. cbn [poll_drain_at].
  unfold mbind, M_bind. destruct (disturbed _ try_recv s) as [item s1|] eqn:E1; [|done].
  destruct (disturbed_run _ _ _ _ Hs E1) as (w1 & H1 & Hs1 & Hb1). unfold try_recv in H1. rewrite bind_gets in H1.
  destruct (w_completions w1) as [|c rest] eqn:Ec; injection H1 as <- H1; [intros [= _ <-]; by rewrite <-H1|].
  destruct (disturbed _ (poll_one c) s1) as [[] s2|] eqn:E2; [|done].
  destruct (disturbed_run _ _ _ _ Hs1 E2) as (w2 & H2 & Hs2 & Hb2).
  pose proof (poll_one_quiet c _ _ _ H2) as Hk. unfold kept, channel_part in Hk. injection Hk as Hc _.
  apply IH; [done|]. unfold backlog in *. rewrite Hc. rewrite <-H1 in Hb2. cbn in Hb1, Hb2. lia.
Qed.

Lemma poll_announces sched s s' :
  shaped s -> run_wake (WPoll sched) s = Done tt s' -> shaped s' /\ w_completions (wk_world s') = [].
Proof.
  intros Hs. cbn [run_wake]. mpure. unfold poll_at, mbind, M_bind. set (s1 := set_schedule sched s).
  destruct (disturbed _ get_class s1) as [cls s2|] eqn:E2; [|done].
  destruct (disturbed_run _ s1 _ _ Hs E2) as (w2 & H2 & Hs2 & Hb2).
  destruct (disturbed _ drain_eventfd s2) as [[] s3|] eqn:E3; [|done].
  destruct (disturbed_run _ _ _ _ Hs2 E3) as (w3 & H3 & Hs3 & Hb3). injection H3 as H3.
  destruct (poll_drain_at _ _ _ s3) as [n s4|] eqn:E4; [|done]. intros [= <-].
  assert (Hw2 : wk_world s2 = w2) by (unfold get_class in H2; rewrite bind_gets in H2; destruct (w_class w2); [by injection H2|discriminate H2]).
  apply poll_loop_empties in E4; [done|done|]. unfold backlog in *. rewrite <-H3. rewrite Hw2 in Hb3. cbn in *. lia.
Qed.

Lemma run_wakes_announced es s s' :
  shaped s -> announced s -> run_wakes es s = Done tt s' -> shaped s' /\ announced s'.
Proof.
  revert s. induction es as [|e es IH]; intros s Hs Ha; cbn [run_wakes]; [by intros [= <-]|].
  unfold mbind, M_bind. destruct (run_wake e s) as [[] s1|] eqn:E; [|done]. destruct e as [e|sched].
  - apply task_run_effect in E as [A1 A2 _ _]. apply IH; auto.
  - apply poll_announces in E as [Hs1 Hc1]; [|done]. apply IH; [done|]. unfold announced. by rewrite Hc1.
Qed.

(** * Theorems *)

(** C18: No lost wake-up.  The handlers and completion tasks are what their steps
    are ([async_steps] up to the completion, then its two actions); from an empty
    completion channel, however these steps interleave with each other and with
    the polls, before every action of the code of [na_libp2p_poll], whenever the NA thread is outside
    [poll] and a completion waits in the channel, the eventfd is readable or a
    task is just about to write it; so a thread that blocks on the descriptor is
    woken. *)
Theorem no_lost_wakeup w :
  w_completions w = [] ->
  (forall ev w1, is_io ev = true -> run_sys ev w1 = (l ← async_steps ev; run_steps l) w1) /\
  (forall es s, run_wakes es (mkWake w [] []) = Done tt s ->
     w_completions (wk_world s) <> [] ->
     efd_readable (w_efd (wk_world s)) = true \/ [signal_eventfd] ∈ wk_tasks s).
Proof.
  intros Hc. split; [intros ev w1; apply async_steps_run|]. intros es s Hrun.
  apply (run_wakes_announced es (mkWake w [] []) s); [by constructor|by intros ?|done].
Qed.

End Wakeup.

Module WakeupDemo.
Import Demo DemoNode.

(** A completion task of operation 1 begins and sends; a poll, in the middle of
    which a second one sends and signals; the first one signals late. *)
Definition task (p : Z) : sys_event := IoTask (mkTask 0 p false) (Some SendOk).
Definition schedule : list wake_event :=
  [WTask (TBegin (task 1)); WTask (TStep 0); WPoll [[TBegin (task 2)]; [TStep 1; TStep 1]]; WTask (TStep 0);
   WTask (TBegin (task 3)); WTask (TStep 0)].
Definition scheduled : wake_state :=
  match run_wakes schedule (mkWake node [] []) with Done _ s => s | Fault _ => mkWake node [] [] end.

Lemma no_lost_wakeup_witness :
  map ci_op_ptr (w_completions (wk_world scheduled)) = [3] /\ map snd (w_cbs (wk_world scheduled)) = [1; 2] /\
  (efd_readable (w_efd (wk_world scheduled)) = true \/ [signal_eventfd] ∈ wk_tasks scheduled).
Proof.
  assert (H3 : map ci_op_ptr (w_completions (wk_world scheduled)) = [3]) by (vm_compute; reflexivity).
  split; [exact H3|]. split; [vm_compute; reflexivity|].
  refine (proj2 (no_lost_wakeup node eq_refl) schedule scheduled _ _).
  - assert (Hd : match run_wakes schedule (mkWake node [] []) with Done _ _ => true | Fault _ => false end = true)
      by (vm_compute; reflexivity).
    unfold scheduled. by destruct (run_wakes schedule (mkWake node [] [])) as [[] s|].
  - intros H. rewrite H in H3. discriminate H3.
Defined.

End WakeupDemo.
