(* ===== verification/Mailbox.v ===== *)
(** What two-sided messaging promises, as an abstract mailbox: receives that
    wait for a message, messages that wait for a receive, and never both when
    they match.  The theorems show that the plugin's queues implement it: an
    incoming message and a posted receive act on the concrete state as they do
    on the mailbox, whatever the interleaving. *)
From Stdlib Require Import ZArith Lia.
From S2P Require Import Prelude.

(** * The specification *)

Section Spec.
Context {R A : Type} (matches : R -> A -> bool).

Record mailbox := mkMailbox { mb_posted : list R; mb_stash : list A }.

Definition mb_empty : mailbox := mkMailbox [] [].

(** A message arrives: the first waiting receive that matches takes it. *)
Definition mb_arrive (m : A) (mb : mailbox) : option R * mailbox :=
  match take_first (fun r => matches r m) (mb_posted mb) with
  | Some (r, rest) => (Some r, mkMailbox rest (mb_stash mb))
  | None => (None, mkMailbox (mb_posted mb) (mb_stash mb ++ [m]))
  end.

(** A receive is posted: it takes the first waiting message that matches. *)
Definition mb_post (r : R) (mb : mailbox) : option A * mailbox :=
  match take_first (matches r) (mb_stash mb) with
  | Some (m, rest) => (Some m, mkMailbox (mb_posted mb) rest)
  | None => (None, mkMailbox (mb_posted mb ++ [r]) (mb_stash mb))
  end.

(** Nothing that could be delivered is waiting. *)
Definition settled (mb : mailbox) : Prop :=
  forall r m, r ∈ mb_posted mb -> m ∈ mb_stash mb -> matches r m = false.

(** A history of a mailbox: what happened, and what was delivered by it. *)
Inductive action := Posted (r : R) (got : option A) | Arrived (m : A) (taker : option R).

Definition mb_act (a : action) (mb mb' : mailbox) : Prop :=
  match a with
  | Posted r got => mb_post r mb = (got, mb')
  | Arrived m taker => mb_arrive m mb = (taker, mb')
  end.

Fixpoint mb_history (h : list action) (mb mb' : mailbox) : Prop :=
  match h with
  | [] => mb' = mb
  | a :: h' => exists mb1, mb_act a mb mb1 /\ mb_history h' mb1 mb'
  end.

Definition action_post (a : action) : option R := match a with Posted r _ => Some r | Arrived _ _ => None end.
Definition action_arrival (a : action) : option A := match a with Posted _ _ => None | Arrived m _ => Some m end.
Definition action_delivery (a : action) : option (R * A) :=
  match a with
  | Posted r (Some m) => Some (r, m)
  | Arrived m (Some r) => Some (r, m)
  | _ => None
  end.
Definition posts (h : list action) : list R := omap action_post h.
Definition arrivals (h : list action) : list A := omap action_arrival h.
Definition deliveries (h : list action) : list (R * A) := omap action_delivery h.

Lemma mb_act_settled a mb mb' : settled mb -> mb_act a mb mb' -> settled mb'.
Proof.
  destruct a as [r got|m taker]; cbn; unfold mb_post, mb_arrive; intros Hs;
    destruct (take_first _ _) as [[x rest]|] eqn:E; intros [= <- <-] r' m'; cbn; intros Hr Hm.
  - apply Hs; [done|]. rewrite (take_first_perm _ _ _ _ E). elem_tauto.
  - rewrite take_first_None in E. apply elem_of_app in Hr as [Hr| ->%list_elem_of_singleton]; auto.
  - apply Hs; [|done]. rewrite (take_first_perm _ _ _ _ E). elem_tauto.
  - rewrite take_first_None in E. apply elem_of_app in Hm as [Hm| ->%list_elem_of_singleton]; auto.
Qed.

Lemma mb_history_settled h mb mb' : settled mb -> mb_history h mb mb' -> settled mb'.
Proof.
  revert mb. induction h as [|a h IH]; intros mb Hs; cbn; [by intros ->|].
  intros (mb1 & Ha & Hh). eapply IH; [|done]. by eapply mb_act_settled.
Qed.

(** Every delivery pairs a receive with a message it matches. *)
Lemma mb_history_matches h mb mb' r m :
  mb_history h mb mb' -> (r, m) ∈ deliveries h -> matches r m = true.
Proof.
  revert mb. induction h as [|a h IH]; intros mb; cbn; [intros _ H; by apply elem_of_nil in H|].
  intros (mb1 & Ha & Hh). unfold deliveries. cbn.
  destruct (action_delivery a) as [[r' m']|] eqn:E; [|by eapply IH].
  intros [[= -> ->]|Hin]%elem_of_cons; [|by eapply IH].
  destruct a as [x [y|]|y [x|]]; cbn in E; simplify_eq; cbn in Ha; unfold mb_post, mb_arrive in Ha;
    destruct (take_first _ _) as [[z rest]|] eqn:Et; simplify_eq; by apply (take_first_match _ _ _ _ Et).
Qed.

(** Nothing is lost and nothing is delivered twice. *)
Lemma mb_history_conserves h mb mb' :
  mb_history h mb mb' ->
  mb_posted mb ++ posts h ≡ₚ map fst (deliveries h) ++ mb_posted mb' /\
  mb_stash mb ++ arrivals h ≡ₚ map snd (deliveries h) ++ mb_stash mb'.
Proof.
  revert mb. induction h as [|a h IH]; intros mb; cbn; [intros ->; by rewrite !app_nil_r|].
  intros (mb1 & Ha & [IH1 IH2]%IH). unfold posts, arrivals, deliveries in *.
  destruct a as [r got|m taker]; cbn in *; unfold mb_post, mb_arrive in Ha;
    destruct (take_first _ _) as [[x rest]|] eqn:E; simplify_eq; cbn in *.
  - apply take_first_perm in E. split; [rewrite <-IH1; by rewrite Permutation_middle|].
    rewrite E. cbn. by rewrite IH2.
  - split; [|done]. rewrite <-IH1. by rewrite <-app_assoc.
  - apply take_first_perm in E. split; [|rewrite <-IH2; by rewrite Permutation_middle].
    rewrite E. cbn. by rewrite IH1.
  - split; [done|]. rewrite <-IH2. by rewrite <-app_assoc.
Qed.

End Spec.
Arguments mailbox : clear implicits.
Arguments action : clear implicits.

(** When every receive takes every message, delivery is first in, first out on
    both sides. *)
Lemma mb_history_fifo {R A} (h : list (action R A)) mb mb' :
  mb_posted mb = [] \/ mb_stash mb = [] ->
  mb_history (fun _ _ => true) h mb mb' ->
  mb_posted mb ++ posts h = map fst (deliveries h) ++ mb_posted mb' /\
  mb_stash mb ++ arrivals h = map snd (deliveries h) ++ mb_stash mb'.
Proof.
  revert mb. induction h as [|a h IH]; intros mb He; cbn; [intros ->; by rewrite !app_nil_r|].
  intros (mb1 & Ha & Hh). unfold posts, arrivals, deliveries in *.
  destruct a as [r got|m taker]; cbn in *; unfold mb_post, mb_arrive in Ha.
  - destruct (mb_stash mb) as [|m rest] eqn:E; cbn in Ha; simplify_eq; cbn.
    + destruct (IH (mkMailbox (mb_posted mb ++ [r]) []) (or_intror eq_refl) Hh) as [IH1 IH2].
      cbn in *. split; [|done]. rewrite <-IH1. by rewrite <-app_assoc.
    + destruct He as [Hp|?]; [|done].
      destruct (IH (mkMailbox (mb_posted mb) rest) (or_introl Hp) Hh) as [IH1 IH2].
      cbn in *. rewrite Hp in *. cbn in *. by rewrite IH1, IH2.
  - destruct (mb_posted mb) as [|r rest] eqn:E; cbn in Ha; simplify_eq; cbn.
    + destruct (IH (mkMailbox [] (mb_stash mb ++ [m])) (or_introl eq_refl) Hh) as [IH1 IH2].
      cbn in *. split; [done|]. rewrite <-IH2. by rewrite <-app_assoc.
    + destruct He as [?|Hp]; [done|].
      destruct (IH (mkMailbox rest (mb_stash mb)) (or_intror Hp) Hh) as [IH1 IH2].
      cbn in *. rewrite Hp in *. cbn in *. by rewrite IH1, IH2.
Qed.
