(* ===== verification/Delivery.v ===== *)
(** The queues of the plugin implement the mailbox of [Mailbox]: each handler
    is one mailbox action, and any interleaving of posted receives and arriving
    messages is a mailbox history. *)
From Stdlib Require Import ZArith Lia.
From S2P Require Import Prelude.
From S2P Require Import RustStr.
From S2P Require Import Libp2p.
From S2P Require Import Memory.
From S2P Require Import Protocol.
From S2P Require Import State.
From S2P Require Import Messaging.
From S2P Require Import Invariant.
From S2P Require Import Safety.
From S2P Require Import Progress.
From S2P Require Import Mailbox.

Section Delivery.
Context {LP : Libp2p} {OS : Os} {NB : NaBindings}.
Abbreviation MW := (M World).

(** * Abstraction *)

Record receive := mkReceive { rx_op : Z; rx_tag : Z; rx_src : option PeerId; rx_buf : Z; rx_buf_size : Z }.
Record arrival := mkArrival { ar_payload : list byte; ar_src : option PeerId; ar_tag : Z }.

(** Unexpected receives take any message; expected ones the messages with their
    tag, from their peer if they name one. *)
Definition mail_match (expected : bool) (r : receive) (m : arrival) : bool :=
  if expected
  then (rx_tag r =? ar_tag m) &&
       match rx_src r with None => true | Some p => bool_decide (ar_src m = Some p) end
  else true.

Definition abs_receive (expected : bool) (w : World) (p : Z) : receive :=
  match w_ops w !! p with
  | Some op =>
      if expected then mkReceive p (op_tag op) (source_filter w (op_addr op)) (op_buf op) (op_buf_size op)
      else mkReceive p 0 None (op_buf op) (op_buf_size op)
  | None => mkReceive p 0 None 0 0
  end.

Definition abs_arrival (w : World) (s : StashedMessage) : arrival :=
  mkArrival (st_payload s) (addr_peer_id <$> w_addrs w !! st_source_addr s) (st_tag s).

Definition abs (expected : bool) (w : World) : mailbox receive arrival :=
  mkMailbox (map (abs_receive expected w) (recv_queue expected (w_queues w)))
    (map (abs_arrival w) (stash_of expected (w_queues w))).

(** The message a header and payload stand for. *)
Definition arrival_of (h : WireHeader) (payload : list byte) : arrival :=
  mkArrival payload (Some (source_peer_id h)) (tag h).

(** ** What the abstraction depends on *)

Lemma stash_owned expected w s :
  s ∈ stash_of expected (w_queues w) -> st_source_addr s ∈ owned (w_queues w) (w_completions w).
Proof.
  intros H. unfold owned. rewrite !elem_of_app.
  destruct expected; cbn in H; [right; left|left]; by apply list_elem_of_fmap_2.
Qed.

Lemma recv_queued expected q p : p ∈ recv_queue expected q -> p ∈ queued q.
Proof. unfold queued. destruct expected; cbn; elem_tauto. Qed.

(** Entries that are in the queues of both states stand for the same receives
    and messages. *)
Definition agrees (w w' : World) : Prop :=
  forall e,
    (forall p, p ∈ recv_queue e (w_queues w) -> p ∈ recv_queue e (w_queues w') ->
       abs_receive e w' p = abs_receive e w p) /\
    (forall s, s ∈ stash_of e (w_queues w) -> s ∈ stash_of e (w_queues w') ->
       abs_arrival w' s = abs_arrival w s).

(** They do when the operations that are queued and the addresses that are
    referenced have not changed. *)
Lemma agrees_intro w w' :
  wf w ->
  (forall p op, p ∈ queued (w_queues w) -> w_ops w !! p = Some op ->
     exists op', w_ops w' !! p = Some op' /\ same_request op op') ->
  (forall a, is_Some (w_addrs w !! a) -> ~ unreferenced w' a -> w_addrs w' !! a = w_addrs w !! a) ->
  agrees w w'.
Proof.
  intros Hwf Hops Haddrs e. split.
  - intros p Hp Hp'. unfold abs_receive. destruct (wf_queued_live w Hwf p) as [op Hop]; [by eapply recv_queued|].
    destruct (Hops p op (recv_queued _ _ _ Hp) Hop) as (op' & Hop' & [(Hb & Hn & Ha) [Ht _]]).
    rewrite Hop, Hop', Hb, Hn. destruct e; [|done]. rewrite Ht, Ha. f_equal.
    unfold source_filter. destruct (Z.eqb_spec (op_addr op) null) as [|Hnn]; [done|].
    destruct (wf_recv_addr w Hwf p op Hp Hop) as [|[Hl _]]; [done|].
    rewrite Haddrs; [done|done|]. intros [_ Hu]. by apply (Hu p op' Hp').
  - intros s Hs Hs'. unfold abs_arrival. destruct (wf_owned_live w Hwf _ (stash_owned _ _ _ Hs)) as [_ Hl].
    rewrite Haddrs; [done|done|]. intros [Hu _]. by apply Hu, (stash_owned e).
Qed.

Lemma agrees_receives e w w' l :
  agrees w w' -> l ⊆ recv_queue e (w_queues w) -> l ⊆ recv_queue e (w_queues w') ->
  map (abs_receive e w') l = map (abs_receive e w) l.
Proof. intros H Hl Hl'. apply map_ext_in. intros p Hp%list_elem_of_In. apply H; auto. Qed.

Lemma agrees_arrivals e w w' l :
  agrees w w' -> l ⊆ stash_of e (w_queues w) -> l ⊆ stash_of e (w_queues w') ->
  map (abs_arrival w') l = map (abs_arrival w) l.
Proof. intros H Hl Hl'. apply map_ext_in. intros p Hp%list_elem_of_In. apply (H e); auto. Qed.

(** A queue that grew at the end, or lost an entry. *)
Lemma abs_grow e w w' ps ss :
  agrees w w' ->
  recv_queue e (w_queues w') = recv_queue e (w_queues w) ++ ps ->
  stash_of e (w_queues w') = stash_of e (w_queues w) ++ ss ->
  abs e w' = mkMailbox (mb_posted (abs e w) ++ map (abs_receive e w') ps)
               (mb_stash (abs e w) ++ map (abs_arrival w') ss).
Proof.
  intros H Hp Hs. unfold abs. rewrite Hp, Hs, !map_app. cbn. f_equal; f_equal.
  - apply agrees_receives; [done|done|]. rewrite Hp. apply list_subseteq_app_l. done.
  - eapply (agrees_arrivals e); [done|done|]. rewrite Hs. apply list_subseteq_app_l. done.
Qed.

Lemma abs_shrink e w w' ps ss :
  agrees w w' ->
  recv_queue e (w_queues w') = ps -> ps ⊆ recv_queue e (w_queues w) ->
  stash_of e (w_queues w') = ss -> ss ⊆ stash_of e (w_queues w) ->
  abs e w' = mkMailbox (map (abs_receive e w) ps) (map (abs_arrival w) ss).
Proof.
  intros H Hp Hp' Hs Hs'. unfold abs. rewrite Hp, Hs. f_equal.
  - apply agrees_receives; [done|done|]. by rewrite Hp.
  - eapply (agrees_arrivals e); [done|done|]. by rewrite Hs.
Qed.

Lemma abs_same e w w' :
  agrees w w' -> recv_queue e (w_queues w') = recv_queue e (w_queues w) ->
  stash_of e (w_queues w') = stash_of e (w_queues w) -> abs e w' = abs e w.
Proof. intros H Hp Hs. by rewrite (abs_shrink e w w' _ _ H Hp ltac:(done) Hs ltac:(done)). Qed.

Lemma take_first_subseteq {A} (f : A -> bool) l x rest : take_first f l = Some (x, rest) -> rest ⊆ l.
Proof. intros H y Hy. rewrite (take_first_perm _ _ _ _ H). by apply elem_of_cons; right. Qed.

(** ** Matching is the mailbox's *)

Lemma recv_matches_abs w h payload p :
  wf w -> p ∈ expected_recv_ops (w_queues w) ->
  recv_matches w (tag h) (source_peer_id h) p
  = mail_match true (abs_receive true w p) (arrival_of h payload).
Proof.
  intros Hwf Hp. destruct (wf_queued_live w Hwf p) as [op Hop]; [unfold queued; elem_tauto|].
  unfold recv_matches, mail_match, abs_receive, source_filter. rewrite Hop. cbn.
  destruct (Z.eqb_spec (op_addr op) null); [done|].
  destruct (wf_recv_addr w Hwf p op Hp Hop) as [|[[y Hy] _]]; [done|]. rewrite Hy. cbn. f_equal.
  apply bool_decide_ext. split; congruence.
Qed.

Lemma stash_matches_abs w t src s p b n :
  wf w -> s ∈ expected_msg_stash (w_queues w) ->
  stash_matches w t src s = mail_match true (mkReceive p t src b n) (abs_arrival w s).
Proof.
  intros Hwf Hs. destruct (wf_owned_live w Hwf (st_source_addr s)) as [Hn [a Ha]];
    [by apply (stash_owned true)|].
  unfold stash_matches, mail_match, abs_arrival. cbn. rewrite Ha, (Z.eqb_sym t). f_equal.
  destruct src; [|done]. rewrite (proj2 (Z.eqb_neq _ _) Hn). cbn. apply bool_decide_ext. split; congruence.
Qed.

Context {OSL : OsLaws}.

Lemma matching_recv_abs w h payload expected :
  wf w ->
  take_first (fun r => mail_match expected r (arrival_of h payload)) (mb_posted (abs expected w))
  = match matching_recv w h expected with
    | Some (p, rest) => Some (abs_receive expected w p, map (abs_receive expected w) rest)
    | None => None
    end.
Proof.
  intros Hwf. unfold abs, matching_recv. cbn [mb_posted]. rewrite take_first_map. destruct expected; [|done].
  rewrite (take_first_ext _ (recv_matches w (tag h) (source_peer_id h))); [done|].
  intros p Hp. symmetry. by apply recv_matches_abs.
Qed.

(** * One step of each handler *)

(** How the application learns of a message: the completion waits in the channel
    for the next poll, or the callback is queued at once, with the size of the
    message and, for an unexpected one, its tag and an address of its source. *)
Definition completed_later (w w' : World) (r : receive) (m : arrival) : Prop :=
  w_cbs w' = w_cbs w /\ efd_readable (w_efd w') = true /\
  exists a, addr_peer_id <$> w_addrs w' !! a = ar_src m /\
    w_completions w' = w_completions w
      ++ [mkCompletion (rx_op r) NA_SUCCESS (Some (mkRecvInfo (len (ar_payload m)) a (ar_tag m)))].

Definition called_back (expected : bool) (w w' : World) (r : receive) (m : arrival) : Prop :=
  w_completions w' = w_completions w /\
  exists context op, w_cbs w' = w_cbs w ++ [(context, rx_op r)] /\ w_ops w' !! rx_op r = Some op /\
    cd_ret (op_completion op) = NA_SUCCESS /\
    if expected then cd_info (op_completion op) = info_recv_expected (len (ar_payload m))
    else exists a, addr_peer_id <$> w_addrs w' !! a = ar_src m /\
      cd_info (op_completion op) = info_recv_unexpected (len (ar_payload m)) a (ar_tag m).

(** The receive [r] gets the message [m]: as much of the payload as fits is in its
    buffer, no other byte has changed, and the application is told. *)
Definition handed (expected : bool) (w w' : World) (r : receive) (m : arrival) : Prop :=
  recv_written (w_mem w) (w_mem w') (rx_buf r) (rx_buf_size r) (ar_payload m) /\
  (completed_later w w' r m \/ called_back expected w w' r m).

Lemma rx_op_abs expected w p : rx_op (abs_receive expected w p) = p.
Proof. unfold abs_receive. by repeat case_match. Qed.

Lemma agrees_source w w' h :
  wf w -> w_ops w' = w_ops w -> w_addrs w' = w_addrs (with_source h w) -> agrees w w'.
Proof.
  intros Hwf Ho Ha. apply agrees_intro; [done|intros p op _ Hp; exists op; by rewrite Ho|].
  intros b [y Hb] _. rewrite Ha. cbn. apply lookup_insert_ne.
  intros Heq. rewrite <-Heq, malloc_lookup in Hb. done.
Qed.

(** A message that arrives is a mailbox arrival, and leaves the other mailbox
    alone. *)
Lemma arrive_step w h payload expected :
  wf w ->
  exists taker w', handle_incoming_msg h payload expected w = Done tt w' /\ wf w' /\
    mb_arrive (mail_match expected) (arrival_of h payload) (abs expected w) = (taker, abs expected w') /\
    abs (negb expected) w' = abs (negb expected) w /\ w_cbs w' = w_cbs w /\
    match taker with
    | Some r => handed expected w w' r (arrival_of h payload)
    | None => w_completions w' = w_completions w /\ w_mem w' = w_mem w
    end.
Proof.
  intros Hwf. destruct (handle_incoming_msg_wf w h payload expected Hwf) as (w' & Hrun & Hwf').
  pose proof (handle_incoming_msg_run w h payload expected Hwf) as H. cbv zeta in H.
  unfold mb_arrive. rewrite (matching_recv_abs w h payload expected Hwf).
  set (a := malloc (dom (w_addrs w))) in *.
  destruct (matching_recv w h expected) as [[p rest]|] eqn:E.
  - destruct H as (op & m' & Hop & Hw & H). rewrite H in Hrun. inversion Hrun as [Hw']; clear Hrun.
    assert (Hag : agrees w w') by (by apply (agrees_source _ _ h); [|subst w'|subst w']).
    exists (Some (abs_receive expected w p)), w'. rewrite H, Hw'. split_and!; [done|done| | |by subst w'|].
    + f_equal. symmetry. apply abs_shrink; [done| | | |done]; subst w'; [by destruct expected| |by destruct expected].
      by eapply take_first_subseteq.
    + apply abs_same; [done| |]; subst w'; by destruct expected.
    + split; [unfold abs_receive; rewrite Hop; subst w'; by destruct expected|]. left. rewrite <-Hw'.
      split_and!; [done|apply efd_write_readable|]. exists a. rewrite rx_op_abs. cbn. by rewrite lookup_insert_eq.
  - rewrite H in Hrun. inversion Hrun as [Hw']; clear Hrun.
    assert (Hag : agrees w w') by (by apply (agrees_source _ _ h); [|subst w'|subst w']).
    exists None, w'. rewrite H, Hw'. split_and!; [done|done| | |by subst w'|by subst w'|by subst w'].
    + f_equal. symmetry. rewrite (abs_grow expected w w' [] [mkStashed payload a (tag h)] Hag).
      * cbn. rewrite app_nil_r. do 2 f_equal. unfold arrival_of, abs_arrival. subst w'. cbn.
        by rewrite lookup_insert_eq.
      * subst w'. rewrite app_nil_r. by destruct expected.
      * subst w'. by destruct expected.
    + apply abs_same; [done| |]; subst w'; by destruct expected.
Qed.

Lemma agrees_op w w' p :
  wf w -> p ∉ queued (w_queues w) -> (forall q, q <> p -> w_ops w' !! q = w_ops w !! q) ->
  (forall a, is_Some (w_addrs w !! a) -> ~ unreferenced w' a -> w_addrs w' !! a = w_addrs w !! a) ->
  agrees w w'.
Proof.
  intros Hwf Hp Ho Ha. apply agrees_intro; [done| |done]. intros q op Hq Hop. exists op. by rewrite Ho by congruence.
Qed.

Lemma post_unexpected_step w context callback arg buf buf_size p :
  wf w -> op_idle w p -> buf_ok w buf buf_size ->
  exists got w', na_libp2p_msg_recv_unexpected context callback arg buf buf_size p w = Done NA_SUCCESS w' /\
    wf w' /\ mb_post (mail_match false) (mkReceive p 0 None buf buf_size) (abs false w) = (got, abs false w') /\
    abs true w' = abs true w /\
    match got with
    | Some m => handed false w w' (mkReceive p 0 None buf buf_size) m
    | None => w_cbs w' = w_cbs w /\ w_completions w' = w_completions w /\ w_mem w' = w_mem w
    end.
Proof.
  intros Hwf [[op Hop] Hnq] Hb.
  destruct (recv_unexpected_wf w context callback arg buf buf_size p Hwf ltac:(by split) Hb) as (w' & Hrun & Hwf').
  pose proof (recv_unexpected_run w context callback arg buf buf_size p op Hwf Hop Hb) as H. cbv zeta in H.
  unfold mb_post. cbn [abs mb_stash mb_posted stash_of].
  destruct (unexpected_msg_stash (w_queues w)) as [|s rest] eqn:E; cbn [map take_first mail_match].
  - rewrite H in Hrun. inversion Hrun as [Hw']; clear Hrun.
    assert (Hag : agrees w w').
    { eapply agrees_op; [done|done| |by subst w']. intros q Hq. subst w'. by apply lookup_insert_ne. }
    exists None, w'. rewrite H, Hw'. split_and!; [done|done| | |by subst w'|by subst w'|by subst w'].
    + f_equal. symmetry. rewrite (abs_grow false w w' [p] [] Hag); [|by subst w'|subst w'; cbn; by rewrite app_nil_r].
      cbn. rewrite app_nil_r, E. do 3 f_equal. unfold abs_receive. subst w'. cbn. by rewrite lookup_insert_eq.
    + apply abs_same; [done| |]; by subst w'.
  - destruct H as (m' & Hw & H). rewrite H in Hrun. inversion Hrun as [Hw']; clear Hrun.
    assert (Hag : agrees w w').
    { eapply agrees_op; [done|done| |by subst w']. intros q Hq. subst w'. cbn. by rewrite !lookup_insert_ne. }
    exists (Some (abs_arrival w s)), w'. rewrite H, Hw'. split_and!; [done|done| | |].
    + f_equal. symmetry. apply abs_shrink; [done|by subst w'|done|by subst w'|].
      cbn. rewrite E. by apply list_subseteq_cons.
    + apply abs_same; [done| |]; by subst w'.
    + subst w'. split; [done|]. right. split; [done|]. do 2 eexists. split_and!; [done|apply lookup_insert_eq|done|].
      by exists (st_source_addr s).
Qed.

Lemma post_expected_step w context callback arg buf buf_size src t p :
  wf w -> op_idle w p -> buf_ok w buf buf_size -> src = null \/ user_addr w src ->
  exists got w', na_libp2p_msg_recv_expected context callback arg buf buf_size src t p w = Done NA_SUCCESS w' /\
    wf w' /\
    mb_post (mail_match true) (mkReceive p t (source_filter w src) buf buf_size) (abs true w) = (got, abs true w') /\
    abs false w' = abs false w /\
    match got with
    | Some m => handed true w w' (mkReceive p t (source_filter w src) buf buf_size) m
    | None => w_cbs w' = w_cbs w /\ w_completions w' = w_completions w /\ w_mem w' = w_mem w
    end.
Proof.
  intros Hwf [[op Hop] Hnq] Hb Hsrc.
  destruct (recv_expected_wf w context callback arg buf buf_size src t p Hwf ltac:(by split) Hb Hsrc)
    as (w' & Hrun & Hwf').
  pose proof (recv_expected_run w context callback arg buf buf_size src t p op Hwf Hop Hnq Hb Hsrc) as H.
  cbv zeta in H. unfold mb_post. cbn [abs mb_stash mb_posted stash_of].
  rewrite take_first_map, (take_first_ext _ (stash_matches w t (source_filter w src)))
    by (intros s Hs; symmetry; by apply stash_matches_abs).
  destruct (take_first _ _) as [[s rest]|] eqn:E.
  - destruct H as (m' & Hw & H). rewrite H in Hrun. inversion Hrun as [Hw']; clear Hrun.
    destruct (wf_unstash w true s rest Hwf) as [_ [Hu1 Hu2]]; [by apply (take_first_perm _ _ _ _ E)|].
    assert (Hag : agrees w w').
    { eapply agrees_op; [done|done| |]; intros q Hq; subst w'; cbn.
      - by rewrite !lookup_insert_ne.
      - intros Hr. apply lookup_delete_ne. intros <-. apply Hr. split; [done|]. intros q o Hqq. cbn in Hqq |- *.
        assert (q <> p) by (intros ->; by apply Hnq, (recv_queued true)).
        rewrite !lookup_insert_ne by done. by apply Hu2. }
    exists (Some (abs_arrival w s)), w'. rewrite H, Hw'. split_and!; [done|done| | |].
    + f_equal. symmetry. apply abs_shrink; [done|by subst w'|done|by subst w'|]. by eapply take_first_subseteq.
    + apply abs_same; [done| |]; by subst w'.
    + subst w'. split; [done|]. right. split; [done|]. do 2 eexists. split_and!; [done|apply lookup_insert_eq|done|done].
  - rewrite H in Hrun. inversion Hrun as [Hw']; clear Hrun.
    assert (Hag : agrees w w').
    { eapply agrees_op; [done|done| |by subst w']. intros q Hq. subst w'. by apply lookup_insert_ne. }
    exists None, w'. rewrite H, Hw'. split_and!; [done|done| | |by subst w'|by subst w'|by subst w'].
    + f_equal. symmetry. rewrite (abs_grow true w w' [p] [] Hag); [|by subst w'|subst w'; cbn; by rewrite app_nil_r].
      cbn. rewrite app_nil_r. do 3 f_equal. unfold abs_receive. subst w'. cbn. by rewrite lookup_insert_eq.
    + apply abs_same; [done| |]; by subst w'.
Qed.

(** Polling hands out what was delivered and leaves both mailboxes alone. *)
Lemma poll_step w :
  wf w ->
  exists w', na_libp2p_poll w = Done (NA_SUCCESS, wrap 32 (len (w_completions w))) w' /\ wf w' /\
    (forall e, abs e w' = abs e w) /\
    w_completions w' = [] /\ map snd (w_cbs w') = map snd (w_cbs w) ++ map ci_op_ptr (w_completions w).
Proof.
  intros Hwf. destruct (poll_run w Hwf) as (w' & Hrun & Hwf' & Hcs & _ & Hcb & _ & _ & _ & Hq & Hreq & Ha).
  exists w'. split_and!; [done|done| |done|by rewrite Hcb, map_app, map_map].
  intros e. apply abs_same; [|by rewrite Hq|by rewrite Hq].
  apply agrees_intro; [done|intros p op _; apply Hreq|].
  intros a Hl Hr. apply Ha. intros Hin. apply Hr. pose proof (wf_owned_nodup w Hwf) as Hnd. unfold owned in Hnd.
  split.
  - unfold owned. rewrite Hcs, Hq. cbn. intros Ho. apply NoDup_app in Hnd as (_ & Hd1 & (_ & Hd2 & _)%NoDup_app).
    rewrite !elem_of_app, elem_of_nil in Ho. destruct Ho as [Ho|[Ho|[]]];
      [apply (Hd1 a Ho); elem_tauto|by apply (Hd2 a Ho)].
  - rewrite Hq. intros p op' Hp Hop' Heq. destruct (wf_queued_live w Hwf p) as [op Hop]; [by apply (recv_queued true)|].
    destruct (Hreq p op Hop) as (o & Ho & [(_ & _ & Haddr) _]). simplify_eq.
    assert (Ho' : op_addr op' ∈ owned (w_queues w) (w_completions w)) by (unfold owned; elem_tauto).
    destruct (wf_owned_live w Hwf _ Ho') as [Hn _]. rewrite Haddr in *.
    by destruct (wf_recv_addr w Hwf p op Hp Hop) as [|[_ ?]].
Qed.

End Delivery.
