(* ===== verification/Runs.v ===== *)
(** Runs of two-sided messaging: any interleaving of posted receives, arriving
    messages and polls returns, keeps the invariant and is a history of the two
    mailboxes, so that no message is lost, duplicated or delivered to a receive
    that did not ask for it. *)
From Stdlib Require Import ZArith Lia.
From S2P Require Import Prelude.
From S2P Require Import RustStr.
From S2P Require Import Libp2p.
From S2P Require Import Memory.
From S2P Require Import Protocol.
From S2P Require Import State.
From S2P Require Import Messaging.
From S2P Require Import Invariant.
From S2P Require Import Safety.
From S2P Require Import Progress.
From S2P Require Import Mailbox.
From S2P Require Import Delivery.
From S2P Require Import DemoWorld.

Section Runs.
Context {LP : Libp2p} {OS : Os} {NB : NaBindings}.
Abbreviation MW := (M World).

(** * Events *)

Inductive msg_event :=
| EvArrive (expected : bool) (h : WireHeader) (payload : list byte)
| EvRecvUnexpected (context callback arg buf buf_size op_id : Z)
| EvRecvExpected (context callback arg buf buf_size source_addr tag op_id : Z)
| EvPoll.

Definition run_event (ev : msg_event) : MW unit :=
  match ev with
  | EvArrive expected h payload => handle_incoming_msg h payload expected
  | EvRecvUnexpected context callback arg buf buf_size op_id =>
      _ ← na_libp2p_msg_recv_unexpected context callback arg buf buf_size op_id; mret tt
  | EvRecvExpected context callback arg buf buf_size source_addr tag op_id =>
      _ ← na_libp2p_msg_recv_expected context callback arg buf buf_size source_addr tag op_id; mret tt
  | EvPoll => _ ← na_libp2p_poll; mret tt
  end.

Fixpoint run_events (evs : list msg_event) : MW unit :=
  match evs with
  | [] => mret tt
  | ev :: evs' => _ ← run_event ev; run_events evs'
  end.

(** ** What the application must respect *)

Definition event_op (ev : msg_event) : option Z :=
  match ev with
  | EvRecvUnexpected _ _ _ _ _ p | EvRecvExpected _ _ _ _ _ _ _ p => Some p
  | _ => None
  end.

(** Live operations that are not in use, buffers that are mapped, source
    addresses that the application holds. *)
Definition event_ok (w : World) (ev : msg_event) : Prop :=
  match ev with
  | EvArrive _ _ _ | EvPoll => True
  | EvRecvUnexpected _ _ _ buf buf_size p => op_idle w p /\ buf_ok w buf buf_size
  | EvRecvExpected _ _ _ buf buf_size src _ p =>
      op_idle w p /\ buf_ok w buf buf_size /\ (src = null \/ user_addr w src)
  end.

(** Each posted operation is used once in the run. *)
Definition events_ok (w : World) (evs : list msg_event) : Prop :=
  NoDup (omap event_op evs) /\ Forall (event_ok w) evs.

(** ** What happened to each mailbox *)

Definition event_post (expected : bool) (w : World) (ev : msg_event) : option receive :=
  match ev with
  | EvRecvUnexpected _ _ _ buf n p => if expected then None else Some (mkReceive p 0 None buf n)
  | EvRecvExpected _ _ _ buf n src t p =>
      if expected then Some (mkReceive p t (source_filter w src) buf n) else None
  | _ => None
  end.

Definition event_arrival (expected : bool) (ev : msg_event) : option arrival :=
  match ev with
  | EvArrive e h payload => if eqb e expected then Some (arrival_of h payload) else None
  | _ => None
  end.

(** The operations whose completion has been signalled, in a callback or in the
    completion channel. *)
Definition signalled (w : World) : list Z := map snd (w_cbs w) ++ map ci_op_ptr (w_completions w).

(** * Frame: what one event leaves usable *)

Record framed (ps : list Z) (w w' : World) : Prop := mk_framed {
  fr_ops : forall p, is_Some (w_ops w !! p) -> is_Some (w_ops w' !! p);
  fr_queued : forall p, p ∈ queued (w_queues w') -> p ∈ queued (w_queues w) \/ p ∈ ps;
  fr_mem : dom (w_mem w') = dom (w_mem w);
  fr_owned : forall a, is_Some (w_addrs w !! a) -> a ∈ owned (w_queues w') (w_completions w') ->
    a ∈ owned (w_queues w) (w_completions w);
  fr_addrs : forall a, user_addr w a -> w_addrs w' !! a = w_addrs w !! a;
}.

Lemma framed_user_addr ps w w' a : framed ps w w' -> user_addr w a -> user_addr w' a.
Proof.
  intros Hf Ha. pose proof Ha as [Hl Ho]. split.
  - by rewrite (fr_addrs _ _ _ Hf a Ha).
  - intros H. by apply Ho, (fr_owned _ _ _ Hf).
Qed.

Lemma framed_event_ok ps w w' ev :
  framed ps w w' -> (forall p, event_op ev = Some p -> p ∉ ps) -> event_ok w ev -> event_ok w' ev.
Proof.
  intros Hf Hps.
  assert (Hidle : forall p, event_op ev = Some p -> op_idle w p -> op_idle w' p).
  { intros p Hp [Hl Hq]. split; [by apply (fr_ops _ _ _ Hf)|].
    intros [?|?]%(fr_queued _ _ _ Hf); [done|]. by apply (Hps p). }
  assert (Hbuf : forall b n, buf_ok w b n -> buf_ok w' b n).
  { intros b n [?|Hm]; [by left|right]. eapply mapped_dom; [symmetry; apply (fr_mem _ _ _ Hf)|done]. }
  destruct ev; cbn in *; try done.
  - intros []. auto.
  - intros (? & ? & [?|?]); split_and!; auto. right. by eapply framed_user_addr.
Qed.

Lemma framed_event_post ps w w' e ev :
  framed ps w w' -> event_ok w ev -> event_post e w' ev = event_post e w ev.
Proof.
  intros Hf. destruct ev; cbn; try done. intros (_ & _ & Hs). destruct e; [|done].
  do 2 f_equal. unfold source_filter. destruct (Z.eqb_spec source_addr null) as [|Hn]; [done|].
  destruct Hs as [|Hs]; [done|]. by rewrite (fr_addrs _ _ _ Hf).
Qed.

Lemma omap_posts_framed ps w w' e evs :
  framed ps w w' -> Forall (event_ok w) evs -> omap (event_post e w') evs = omap (event_post e w) evs.
Proof.
  intros Hf. induction 1 as [|ev evs Hev _ IH]; [done|]. cbn. by rewrite (framed_event_post _ _ _ _ _ Hf Hev), IH.
Qed.

Lemma framed_events_ok w w' ev evs :
  framed (option_list (event_op ev)) w w' -> events_ok w (ev :: evs) -> events_ok w' evs.
Proof.
  intros Hf [Hnd Hok]. apply Forall_cons in Hok as [_ Hok]. split.
  - cbn in Hnd. destruct (event_op ev); [|done]. by apply NoDup_cons in Hnd as [_ ?].
  - rewrite Forall_forall in Hok |- *. intros x Hx. eapply framed_event_ok; [done| |by apply Hok].
    intros p Hp. cbn in Hnd. destruct (event_op ev) as [q|]; cbn; [|by apply not_elem_of_nil].
    apply NoDup_cons in Hnd as [Hn _]. rewrite list_elem_of_singleton. intros ->. apply Hn.
    apply list_elem_of_omap. by exists x.
Qed.

Context {OSL : OsLaws}.

Lemma framed_arrive w w' h payload expected :
  wf w -> handle_incoming_msg h payload expected w = Done tt w' -> framed [] w w'.
Proof.
  intros Hwf Hrun. pose proof (handle_incoming_msg_run w h payload expected Hwf) as H. cbv zeta in H.
  set (a := malloc (dom (w_addrs w))) in *. assert (Ha : w_addrs w !! a = None) by apply malloc_lookup.
  assert (Hne : forall b, is_Some (w_addrs w !! b) -> b <> a) by (intros b [y Hb] ->; congruence).
  assert (Haddr : forall b x, user_addr w b -> <[a := x]> (w_addrs w) !! b = w_addrs w !! b).
  { intros b x [Hb _]. apply lookup_insert_ne. symmetry. by apply Hne. }
  destruct (matching_recv w h expected) as [[p rest]|] eqn:E.
  - destruct H as (op & m' & Hop & (Hd & _) & H). rewrite H in Hrun. inversion Hrun; subst w'; clear Hrun.
    pose proof (queued_take _ _ _ _ (take_first_perm _ _ _ _ E)) as Hq.
    split; cbn; [done| |done| |by intros; apply Haddr].
    + intros q Hin. left. rewrite Hq. by apply elem_of_cons; right.
    + intros b Hb. rewrite owned_push_completion, owned_set_recv_queue by done.
      intros [Heq|?]%elem_of_cons; [by destruct (Hne b Hb)|done].
  - rewrite H in Hrun. inversion Hrun; subst w'; clear Hrun.
    split; cbn; [done| |done| |by intros; apply Haddr].
    + intros q Hin. left. by destruct expected.
    + intros b Hb. rewrite owned_push_stash. intros [Heq|?]%elem_of_cons; [by destruct (Hne b Hb)|done].
Qed.

Lemma live_insert {A} (m : gmap Z A) p x q : is_Some (m !! q) -> is_Some (<[p := x]> m !! q).
Proof. rewrite lookup_insert_is_Some. intros H. destruct (decide (p = q)); auto. Qed.

Lemma framed_recv_unexpected w w' context callback arg buf buf_size p r :
  wf w -> op_idle w p -> buf_ok w buf buf_size ->
  na_libp2p_msg_recv_unexpected context callback arg buf buf_size p w = Done r w' -> framed [p] w w'.
Proof.
  intros Hwf [[op Hop] _] Hb Hrun.
  pose proof (recv_unexpected_run w context callback arg buf buf_size p op Hwf Hop Hb) as H. cbv zeta in H.
  destruct (unexpected_msg_stash (w_queues w)) as [|s rest] eqn:E.
  - rewrite H in Hrun. inversion Hrun; subst w'; clear Hrun.
    split; cbn -[push_recv]; [intros; by apply live_insert| |done|done|done].
    intros q. rewrite queued_push. elem_tauto.
  - destruct H as (m' & (Hd & _) & H). rewrite H in Hrun. inversion Hrun; subst w'; clear Hrun.
    split; cbn; [intros; by do 2 apply live_insert|by left|done| |done].
    intros a _ Ha. rewrite (owned_unstash false _ _ s rest) by (cbn; by rewrite E). by apply elem_of_cons; right.
Qed.

Lemma framed_recv_expected w w' context callback arg buf buf_size src t p r :
  wf w -> op_idle w p -> buf_ok w buf buf_size -> src = null \/ user_addr w src ->
  na_libp2p_msg_recv_expected context callback arg buf buf_size src t p w = Done r w' -> framed [p] w w'.
Proof.
  intros Hwf [[op Hop] Hnq] Hb Hs Hrun.
  pose proof (recv_expected_run w context callback arg buf buf_size src t p op Hwf Hop Hnq Hb Hs) as H.
  cbv zeta in H. destruct (take_first _ _) as [[s rest]|] eqn:E.
  - destruct H as (m' & (Hd & _) & H). rewrite H in Hrun. inversion Hrun; subst w'; clear Hrun.
    pose proof (owned_unstash true _ (w_completions w) s rest (take_first_perm _ _ _ _ E)) as Ho.
    split; cbn; [intros; by do 2 apply live_insert|by left|done| |].
    + intros a _ Ha. rewrite Ho. by apply elem_of_cons; right.
    + intros a [_ Ha]. apply lookup_delete_ne. intros <-. apply Ha. rewrite Ho. by apply elem_of_cons; left.
  - rewrite H in Hrun. inversion Hrun; subst w'; clear Hrun.
    split; cbn -[push_recv]; [intros; by apply live_insert| |done|done|done].
    intros q. rewrite queued_push. elem_tauto.
Qed.

Lemma framed_poll w w' r : wf w -> na_libp2p_poll w = Done r w' -> framed [] w w'.
Proof.
  intros Hwf Hrun. destruct (poll_run w Hwf) as (w1 & H & _ & Hcs & _ & _ & _ & _ & Hm & Hq & Hreq & Ha).
  rewrite H in Hrun. inversion Hrun; subst w1; clear Hrun.
  split; rewrite ?Hm, ?Hq, ?Hcs; try done.
  - intros p [op Hop]. destruct (Hreq p op Hop) as (op' & -> & _). by eexists.
  - by left.
  - intros a _. unfold owned. rewrite !elem_of_app. cbn. rewrite elem_of_nil. tauto.
  - intros a [_ Hno]. apply Ha. intros Hin. apply Hno. unfold owned. elem_tauto.
Qed.

(** * One event, then any run *)

Definition event_actions (e : bool) (ev : msg_event) (w : World) (acts : list (action receive arrival)) : Prop :=
  posts acts = option_list (event_post e w ev) /\ arrivals acts = option_list (event_arrival e ev).

(** The receives that got a message, in both mailboxes. *)
Definition served (h : bool -> list (action receive arrival)) : list Z :=
  map (fun d => rx_op d.1) (deliveries (h false) ++ deliveries (h true)).

Lemma mb_history_one {R A} (f : R -> A -> bool) a mb mb' : mb_act f a mb mb' -> mb_history f [a] mb mb'.
Proof. intros H. cbn. by exists mb'. Qed.

Lemma handed_signalled e w w' r m : handed e w w' r m -> signalled w' ≡ₚ signalled w ++ [rx_op r].
Proof.
  unfold signalled. intros [_ [(-> & _ & a & _ & ->)|(-> & c & op & -> & _)]];
    rewrite map_app, <-!app_assoc; [done|]. apply Permutation_app_head, Permutation_app_comm.
Qed.

(** The history of one mailbox when the other one does nothing. *)
Definition only (e : bool) (acts : list (action receive arrival)) (e' : bool) : list (action receive arrival) :=
  if eqb e e' then acts else [].

Lemma served_only e acts : served (only e acts) = map (fun d => rx_op d.1) (deliveries acts).
Proof. unfold served, only. destruct e; cbn; by rewrite ?app_nil_r. Qed.

(** What the deliveries of an event did to the state. *)
Definition hands_over (w w' : World) (acts : bool -> list (action receive arrival)) : Prop :=
  forall e r m, (r, m) ∈ deliveries (acts e) -> handed e w w' r m.

Lemma hands_over_only w w' e a :
  (forall r m, action_delivery a = Some (r, m) -> handed e w w' r m) -> hands_over w w' (only e [a]).
Proof.
  intros H e' r m. unfold only. destruct (eqb e e') eqn:E; [|intros Hd; by apply elem_of_nil in Hd].
  apply eqb_prop in E as <-. unfold deliveries. cbn. destruct (action_delivery a) as [d|] eqn:Ed; [|intros Hd; by apply elem_of_nil in Hd].
  intros Hd%list_elem_of_singleton. apply H. by rewrite Hd.
Qed.

Lemma only_signalled w w' e a :
  hands_over w w' (only e [a]) -> (action_delivery a = None -> signalled w' = signalled w) ->
  signalled w' ≡ₚ signalled w ++ served (only e [a]).
Proof.
  intros H Hn. rewrite served_only. unfold deliveries. cbn. specialize (H e). unfold only, deliveries in H.
  rewrite eqb_reflx in H. cbn in H. destruct (action_delivery a) as [[r m]|]; [|by rewrite Hn, app_nil_r].
  apply (handed_signalled e w w' r m), H. by apply list_elem_of_singleton.
Qed.

Lemma run_event_step w ev :
  wf w -> event_ok w ev ->
  exists w' acts, run_event ev w = Done tt w' /\ wf w' /\ framed (option_list (event_op ev)) w w' /\
    (forall e, mb_history (mail_match e) (acts e) (abs e w) (abs e w') /\ event_actions e ev w (acts e)) /\
    signalled w' ≡ₚ signalled w ++ served acts /\ hands_over w w' acts.
Proof.
  intros Hwf. destruct ev as [b h payload|context callback arg buf n p|context callback arg buf n src t p|];
    cbn [event_ok].
  - intros _. destruct (arrive_step w h payload b Hwf) as (taker & w' & Hrun & Hwf' & Hmb & Hother & Hcb & Ht).
    exists w', (only b [Arrived (arrival_of h payload) taker]).
    assert (Hh : hands_over w w' (only b [Arrived (arrival_of h payload) taker])).
    { apply hands_over_only. destruct taker; intros r' m' [= <- <-]. exact Ht. }
    split_and!; [done|done|by eapply framed_arrive| |apply only_signalled; [done|]|done].
    + intros e. unfold only, event_actions. cbn [event_post event_arrival]. destruct (eqb b e) eqn:E.
      * apply eqb_prop in E as ->. split; [by apply mb_history_one|done].
      * replace e with (negb b) by (by destruct e, b). done.
    + destruct taker; [done|]. intros _. unfold signalled. destruct Ht as [-> _]. by rewrite Hcb.
  - intros [Hi Hb]. destruct (post_unexpected_step w context callback arg buf n p Hwf Hi Hb)
      as (got & w' & Hrun & Hwf' & Hmb & Hother & Hg).
    exists w', (only false [Posted (mkReceive p 0 None buf n) got]). unfold run_event. rewrite (bind_Done _ _ _ _ _ Hrun).
    assert (Hh : hands_over w w' (only false [Posted (mkReceive p 0 None buf n) got])).
    { apply hands_over_only. destruct got; intros r' m' [= <- <-]. exact Hg. }
    split_and!; [done|done|by eapply framed_recv_unexpected| |apply only_signalled; [done|]|done].
    + intros []; [done|]. split; [by apply mb_history_one|done].
    + destruct got; [done|]. intros _. destruct Hg as (Hcb & Hcs & _). unfold signalled. by rewrite Hcb, Hcs.
  - intros (Hi & Hb & Hs). destruct (post_expected_step w context callback arg buf n src t p Hwf Hi Hb Hs)
      as (got & w' & Hrun & Hwf' & Hmb & Hother & Hg).
    exists w', (only true [Posted (mkReceive p t (source_filter w src) buf n) got]).
    unfold run_event. rewrite (bind_Done _ _ _ _ _ Hrun).
    assert (Hh : hands_over w w' (only true [Posted (mkReceive p t (source_filter w src) buf n) got])).
    { apply hands_over_only. destruct got; intros r' m' [= <- <-]. exact Hg. }
    split_and!; [done|done|by eapply framed_recv_expected| |apply only_signalled; [done|]|done].
    + intros []; [|done]. split; [by apply mb_history_one|done].
    + destruct got; [done|]. intros _. destruct Hg as (Hcb & Hcs & _). unfold signalled. by rewrite Hcb, Hcs.
  - intros _. destruct (poll_step w Hwf) as (w' & Hrun & Hwf' & Habs & Hcs & Hcb).
    exists w', (fun _ => []). unfold run_event. rewrite (bind_Done _ _ _ _ _ Hrun).
    split_and!; [done|done|by eapply framed_poll| | |intros e r m Hd; by apply elem_of_nil in Hd].
    + intros e. cbn. rewrite Habs. done.
    + unfold signalled. rewrite Hcs, Hcb. cbn. by rewrite !app_nil_r.
Qed.

Lemma mb_history_app {R A} (f : R -> A -> bool) h1 h2 mb mb1 mb2 :
  mb_history f h1 mb mb1 -> mb_history f h2 mb1 mb2 -> mb_history f (h1 ++ h2) mb mb2.
Proof.
  revert mb. induction h1 as [|a h1 IH]; intros mb; cbn; [by intros ->|].
  intros (mb' & Ha & Hh) H2. exists mb'. eauto.
Qed.

Lemma served_app h1 h2 : served (fun e => h1 e ++ h2 e) ≡ₚ served h1 ++ served h2.
Proof.
  unfold served, deliveries. rewrite !omap_app, !map_app. rewrite <-!app_assoc. apply Permutation_app_head.
  rewrite !app_assoc. apply Permutation_app_tail. by rewrite Permutation_app_comm.
Qed.

(** Some event of the run hands the message [m] to the receive [r]. *)
Definition handed_in_run (e : bool) (w : World) (evs : list msg_event) (r : receive) (m : arrival) : Prop :=
  exists before ev after w1 w2, evs = before ++ ev :: after /\ run_events before w = Done tt w1 /\
    run_event ev w1 = Done tt w2 /\ handed e w1 w2 r m.

Lemma handed_in_run_cons e w w1 ev evs r m :
  run_event ev w = Done tt w1 -> handed_in_run e w1 evs r m -> handed_in_run e w (ev :: evs) r m.
Proof.
  intros Hrun (before & ev' & after & w2 & w3 & -> & Hb & He & Hh). exists (ev :: before), ev', after, w2, w3.
  split_and!; [done| |done|done]. cbn. by rewrite (bind_Done _ _ _ _ _ Hrun).
Qed.

(** The run is a history of each mailbox, with the posts and the arrivals of
    the run in order; each of its deliveries happened. *)
Lemma run_events_history w evs :
  wf w -> events_ok w evs ->
  exists w' h, run_events evs w = Done tt w' /\ wf w' /\
    (forall e, mb_history (mail_match e) (h e) (abs e w) (abs e w') /\
      posts (h e) = omap (event_post e w) evs /\ arrivals (h e) = omap (event_arrival e) evs) /\
    signalled w' ≡ₚ signalled w ++ served h /\
    (forall e r m, (r, m) ∈ deliveries (h e) -> handed_in_run e w evs r m).
Proof.
  revert w. induction evs as [|ev evs IH]; intros w Hwf Hok.
  { exists w, (fun _ => []). split_and!; [done|done|done| |intros e r m Hd; by apply elem_of_nil in Hd].
    cbn. by rewrite app_nil_r. }
  pose proof Hok as [_ Hev]. apply Forall_cons in Hev as [Hev Hevs].
  destruct (run_event_step w ev Hwf Hev) as (w1 & acts & Hrun & Hwf1 & Hf & Hacts & Hs1 & Hh1).
  destruct (IH w1 Hwf1 (framed_events_ok w w1 ev evs Hf Hok)) as (w' & h & Hruns & Hwf' & Hh & Hs' & Hd').
  exists w', (fun e => acts e ++ h e). cbn [run_events]. rewrite (bind_Done _ _ _ _ _ Hrun).
  split_and!; [done|done| |by rewrite Hs', Hs1, served_app, app_assoc|].
  - intros e. destruct (Hacts e) as (Ha & Hp & Hr). destruct (Hh e) as (Hh' & Hp' & Hr').
    split; [by eapply mb_history_app|]. unfold posts, arrivals in *.
    rewrite !omap_app, Hp, Hr, Hp', Hr'. cbn. split.
    + rewrite (omap_posts_framed _ _ _ e evs Hf Hevs). by destruct (event_post e w ev).
    + by destruct (event_arrival e ev).
  - intros e r m. unfold deliveries. rewrite omap_app, elem_of_app. intros [Hd|Hd].
    + exists [], ev, evs, w, w1. split_and!; [done|done|done|by apply Hh1].
    + eapply handed_in_run_cons; [done|]. by apply Hd'.
Qed.



(** * Theorems *)

(** C5: Two-sided messaging implements the mailbox.  Any interleaving of posted
    receives, arriving messages and polls runs to its end without a fault and
    keeps the invariant; it is a history of the unexpected and of the expected
    mailbox with exactly the posts and arrivals of the run, and the operations
    signalled to the application are exactly those that got a message, each
    signalled once. *)
Theorem messaging_refines_mailbox w evs :
  wf w -> events_ok w evs ->
  exists w' h, run_events evs w = Done tt w' /\ wf w' /\
    (forall e, mb_history (mail_match e) (h e) (abs e w) (abs e w') /\
      posts (h e) = omap (event_post e w) evs /\ arrivals (h e) = omap (event_arrival e) evs) /\
    signalled w' ≡ₚ signalled w ++ served h.
Proof. intros Hwf Hok. destruct (run_events_history w evs Hwf Hok) as (w' & h & ? & ? & ? & ? & _). by exists w', h. Qed.


(** C16: Expected messages: from an empty expected mailbox, after any run, every
    delivery gave a receive a message with its tag and from its peer; the posted
    receives are those served and those still waiting, the messages those
    delivered and those still stashed, each counted once; and no waiting receive
    matches a stashed message. *)
Theorem expected_messages_matched w evs :
  wf w -> events_ok w evs -> abs true w = mb_empty ->
  exists w' ds, run_events evs w = Done tt w' /\
    (forall r m, (r, m) ∈ ds -> rx_tag r = ar_tag m /\ (forall p, rx_src r = Some p -> ar_src m = Some p)) /\
    omap (event_post true w) evs ≡ₚ map fst ds ++ mb_posted (abs true w') /\
    omap (event_arrival true) evs ≡ₚ map snd ds ++ mb_stash (abs true w') /\
    settled (mail_match true) (abs true w') /\
    forall d, d ∈ ds -> rx_op d.1 ∈ signalled w'.
Proof.
  intros Hwf Hok He. destruct (run_events_history w evs Hwf Hok) as (w' & h & Hrun & _ & Hh & Hs & _).
  destruct (Hh true) as (Hmb & Hp & Ha). rewrite He in Hmb.
  exists w', (deliveries (h true)). split; [done|]. rewrite <-Hp, <-Ha.
  destruct (mb_history_conserves _ _ _ _ Hmb) as [H1 H2]. split_and!; [|done|done| |].
  - intros r m Hd. pose proof (mb_history_matches _ _ _ _ _ _ Hmb Hd) as Hm. cbn in Hm.
    apply andb_prop in Hm as [Ht Hsrc]. split; [lia|]. intros p Hp'. rewrite Hp' in Hsrc.
    by apply bool_decide_eq_true in Hsrc.
  - eapply mb_history_settled; [|done]. intros r m Hr. by apply elem_of_nil in Hr.
  - intros d Hd. rewrite Hs. apply elem_of_app. right. unfold served. rewrite map_app. apply elem_of_app. right.
    by apply (list_elem_of_fmap_2 (fun d => rx_op d.1)).
Qed.

End Runs.

Module RunsDemo.
Import Demo DemoNode.

Definition events : list msg_event :=
  [ EvArrive false (header Unexpected 3 hello) hello;
    EvRecvUnexpected 9 8 7 1000 4 1;
    EvRecvExpected 9 8 7 1016 16 50 4 2;
    EvRecvUnexpected 9 8 7 null 0 3;
    EvArrive true (header Expected 5 hello) hello;
    EvArrive true (header Expected 4 hello) hello;
    EvPoll ].

Lemma op_idle_check w p :
  bool_decide (is_Some (w_ops w !! p)) && bool_decide (p ∉ queued (w_queues w)) = true -> op_idle w p.
Proof. intros [H1 H2]%andb_prop. apply bool_decide_eq_true in H1, H2. by split. Qed.

Lemma events_allowed : events_ok node events.
Proof.
  split; [by apply (bool_decide_unpack _); vm_compute|].
  unfold events. rewrite !Forall_cons, Forall_nil. cbn [event_ok].
  split_and!; try done; try (by apply op_idle_check; vm_compute);
    try (right; apply mapped_check_sound; by vm_compute).
  right. split; [by eexists|]. by apply not_elem_of_nil.
Qed.

Lemma messaging_refines_mailbox_witness :
  exists w' h, run_events events node = Done tt w' /\ signalled w' ≡ₚ signalled node ++ served h.
Proof.
  destruct (messaging_refines_mailbox node events node_wf events_allowed) as (w' & h & H1 & _ & _ & H2).
  exact (ex_intro _ w' (ex_intro _ h (conj H1 H2))).
Defined.


Lemma expected_messages_matched_witness :
  abs true node = mb_empty /\ exists w' (ds : list (receive * arrival)), run_events events node = Done tt w' /\
    omap (event_post true node) events ≡ₚ map fst ds ++ mb_posted (abs true w').
Proof.
  destruct (expected_messages_matched node events node_wf events_allowed eq_refl) as (w' & ds & H1 & _ & H2 & _).
  exact (conj eq_refl (ex_intro _ w' (ex_intro _ ds (conj H1 H2)))).
Defined.

End RunsDemo.
