(* ===== verification/Ledger.v ===== *)
(** The ledger of operations: where an operation that was handed to the plugin
    is, from the call that posts it to the callback that signals it.  One step of
    the plugin moves operations between the places and adds the one it posts;
    none is dropped or duplicated. *)
From Stdlib Require Import ZArith Lia.
From stdpp Require Import list_tactics.
From S2P Require Import Prelude.
From S2P Require Import Frame.
From S2P Require Import RustStr.
From S2P Require Import Libp2p.
From S2P Require Import Memory.
From S2P Require Import Protocol.
From S2P Require Import State.
From S2P Require Import Messaging.
From S2P Require Import Rma.
From S2P Require Import Addr.
From S2P Require Import Invariant.
From S2P Require Import Safety.
From S2P Require Import Progress.
From S2P Require Import RmaSpec.
From S2P Require Import Incoming.
From S2P Require Import Sender.
From S2P Require Import EventLoop.
From S2P Require Import System.
From S2P Require Import Runs.

Section Ledger.
Context {LP : Libp2p} {OS : Os} {NB : NaBindings}.
Abbreviation MW := (M World).

(** * Places *)

(** The operation a command completes when its message has been sent; a get is
    completed by its response instead and waits in [pending_rma_ops]. *)
Definition cmd_transfer (c : Command) : option Z :=
  match c with
  | SendMessage _ _ _ _ op_ptr _ | CmdRmaPut _ _ _ _ op_ptr _ => Some op_ptr
  | _ => None
  end.

(** Operations waiting in a queue, in the command channel, or signalled. *)
Definition entries (w : World) : list Z :=
  queued (w_queues w) ++ omap cmd_transfer (w_cmds w) ++ signalled w.

(** What a step adds to the ledger. *)
Definition sys_gain (ev : sys_event) : list Z :=
  match ev with
  | NaSendUnexpected _ _ _ _ _ _ _ p | NaSendExpected _ _ _ _ _ _ _ p
  | NaRecvUnexpected _ _ _ _ _ p | NaRecvExpected _ _ _ _ _ _ _ p
  | NaPut _ _ _ _ _ _ _ _ _ p | NaGet _ _ _ _ _ _ _ _ _ p => [p]
  | IoTask t r => if ct_is_get t && (task_result r =? NA_SUCCESS) then [] else [ct_op_ptr t]
  | _ => []
  end.

(** ** Updates that leave the ledger alone *)

Lemma entries_push_command c w :
  w_loop_alive w = true -> entries (push_command c w) ≡ₚ entries w ++ option_list (cmd_transfer c).
Proof.
  intros Ha. unfold push_command. rewrite Ha. unfold entries, signalled. cbn. rewrite omap_app. cbn.
  destruct (cmd_transfer c); cbn; rewrite ?app_nil_r; [|done]. solve_Permutation.
Qed.

(** The parts of the state the ledger reads. *)
Definition books (w : World) := (w_queues w, w_cmds w, w_cbs w, w_completions w).

Lemma books_entries w w' : kept books w w' -> entries w' = entries w.
Proof. unfold kept, books, entries, signalled. intros H. by injection H as -> -> -> ->. Qed.


(** The callbacks that neither post nor signal anything. *)
Definition administrative (ev : sys_event) : bool :=
  match ev with
  | NaOpCreate | NaOpDestroy _ | NaAddrFree _ | NaAddrSelf | NaAddrDup _ | NaAddrDeserialize _ _ _
  | NaMemHandleCreate _ _ _ | NaMemHandleFree _ | NaMemHandleDeserialize _ _ _
  | NaAddrCmp _ _ | NaAddrIsSelf _ | NaAddrToString _ _ _ _ | NaAddrGetSerializeSize _ | NaAddrSerialize _ _ _
  | NaMemHandleGetSerializeSize _ | NaMemHandleSerialize _ _ _ | NaPollTryWait => true
  | _ => false
  end.

Lemma administrative_books ev : administrative ev = true -> respects (kept books) (run_sys ev).
Proof. destruct ev; intros [=]; cbn [run_sys]; frame. Qed.

Lemma push_other_entries c w : cmd_transfer c = None -> kept entries w (upd_cmds (fun l => l ++ [c]) w).
Proof. intros Hc. unfold kept, entries, signalled. cbn. rewrite omap_app. cbn. by rewrite Hc, app_nil_r. Qed.
#[local] Hint Resolve push_other_entries : frame.

Lemma addr_lookup_entries answer name : respects (kept entries) (na_libp2p_addr_lookup answer name).
Proof. frame. Qed.

(** ** Moves between the places *)

Lemma entries_take w w' p rest :
  queued (w_queues w) ≡ₚ p :: rest -> queued (w_queues w') = rest -> w_cmds w' = w_cmds w -> w_cbs w' = w_cbs w ->
  map ci_op_ptr (w_completions w') = map ci_op_ptr (w_completions w) ++ [p] -> entries w' ≡ₚ entries w.
Proof. unfold entries, signalled. intros Hq -> -> -> ->. rewrite Hq. solve_Permutation. Qed.

Lemma entries_callback w w' p c :
  w_queues w' = w_queues w \/ queued (w_queues w') = queued (w_queues w) -> w_cmds w' = w_cmds w ->
  w_cbs w' = w_cbs w ++ [(c, p)] -> w_completions w' = w_completions w -> entries w' ≡ₚ entries w ++ [p].
Proof.
  intros Hq. unfold entries, signalled. intros -> -> ->. rewrite map_app.
  replace (queued (w_queues w')) with (queued (w_queues w)) by (destruct Hq as [->| ->]; done). cbn. solve_Permutation.
Qed.

Lemma entries_queue w w' p :
  queued (w_queues w') ≡ₚ p :: queued (w_queues w) -> w_cmds w' = w_cmds w ->
  signalled w' = signalled w -> entries w' ≡ₚ entries w ++ [p].
Proof. unfold entries. intros Hq -> ->. rewrite Hq. solve_Permutation. Qed.

(** * Step by step *)

Context {OSL : OsLaws}.

Lemma incoming_entries w h payload expected w' :
  wf w -> handle_incoming_msg h payload expected w = Done tt w' -> entries w' ≡ₚ entries w.
Proof.
  intros Hwf Hrun. pose proof (handle_incoming_msg_run w h payload expected Hwf) as H. cbv zeta in H.
  destruct (matching_recv w h expected) as [[p rest]|] eqn:E.
  - destruct H as (op & m' & _ & _ & H). rewrite H in Hrun. injection Hrun as <-.
    pose proof (queued_take _ _ _ _ (take_first_perm _ _ _ _ E)) as Hq.
    eapply entries_take; [exact Hq|done..|]. cbn. by rewrite map_app.
  - rewrite H in Hrun. injection Hrun as <-. unfold entries, signalled. by destruct expected.
Qed.

Lemma get_response_entries w h payload w' :
  wf w -> 0 <= local_offset h -> handle_rma_get_response h payload w = Done tt w' -> entries w' ≡ₚ entries w.
Proof.
  intros Hwf Ho Hrun. pose proof (handle_rma_get_response_run w h payload Hwf Ho) as H.
  destruct (take_first _ _) as [[p rest]|] eqn:E.
  - destruct H as (m' & H & _). rewrite H in Hrun. injection Hrun as <-.
    pose proof (pending_take _ _ _ (take_first_perm _ _ _ _ E)) as Hq.
    eapply entries_take; [exact Hq|done..|]. cbn. by rewrite map_app.
  - rewrite H in Hrun. by injection Hrun as <-.
Qed.

Lemma dispatch_entries w self h payload r w' :
  wf w -> header_in_range h -> dispatch self h payload w = Done r w' -> entries w' ≡ₚ entries w.
Proof.
  intros Hwf (_ & _ & _ & [Ho _] & [Hr _] & _ & [Hlo _]). unfold dispatch. destruct (msg_type h).
  - destruct (handle_incoming_msg_wf w h payload false Hwf) as (w1 & H & _). rewrite (bind_Done _ _ _ _ _ H).
    intros [= _ <-]. by eapply incoming_entries.
  - destruct (handle_incoming_msg_wf w h payload true Hwf) as (w1 & H & _). rewrite (bind_Done _ _ _ _ _ H).
    intros [= _ <-]. by eapply incoming_entries.
  - pose proof (handle_rma_put_run w h payload Hwf Ho) as H.
    destruct (w_registry w !! handle_id h); [destruct H as (m' & H & _)|]; rewrite (bind_Done _ _ _ _ _ H); by intros [= _ <-].
  - pose proof (handle_rma_get_request_run w self h Hwf Ho Hr) as H.
    destruct (w_registry w !! handle_id h); [destruct H as (data & -> & _)|rewrite H]; by intros [= _ <-].
  - destruct (handle_rma_get_response_wf w h payload Hwf Hlo) as (w1 & H & _). rewrite (bind_Done _ _ _ _ _ H).
    intros [= _ <-]. by eapply get_response_entries.
Qed.

Lemma recv_unexpected_entries w context callback arg buf n p r w' :
  wf w -> op_idle w p -> buf_ok w buf n ->
  na_libp2p_msg_recv_unexpected context callback arg buf n p w = Done r w' -> entries w' ≡ₚ entries w ++ [p].
Proof.
  intros Hwf [[op Hop] _] Hb Hrun.
  pose proof (recv_unexpected_run w context callback arg buf n p op Hwf Hop Hb) as H. cbv zeta in H.
  destruct (unexpected_msg_stash (w_queues w)) as [|s rest].
  - rewrite H in Hrun. injection Hrun as _ <-. eapply entries_queue; [apply queued_push|done..].
  - destruct H as (m' & _ & H). rewrite H in Hrun. injection Hrun as _ <-. by eapply entries_callback; [right|..].
Qed.

Lemma recv_expected_entries w context callback arg buf n src t p r w' :
  wf w -> op_idle w p -> buf_ok w buf n -> src = null \/ user_addr w src ->
  na_libp2p_msg_recv_expected context callback arg buf n src t p w = Done r w' -> entries w' ≡ₚ entries w ++ [p].
Proof.
  intros Hwf [[op Hop] Hnq] Hb Hs Hrun.
  pose proof (recv_expected_run w context callback arg buf n src t p op Hwf Hop Hnq Hb Hs) as H. cbv zeta in H.
  destruct (take_first _ _) as [[s rest]|].
  - destruct H as (m' & _ & H). rewrite H in Hrun. injection Hrun as _ <-. by eapply entries_callback; [right|..].
  - rewrite H in Hrun. injection Hrun as _ <-. eapply entries_queue; [apply queued_push|done..].
Qed.

Lemma perm_filter_ne (p : Z) l : NoDup l -> p ∈ l -> l ≡ₚ p :: filter (fun x => x <> p) l.
Proof.
  induction 1 as [|x l Hx Hnd IH]; [by intros ?%elem_of_nil|]. intros [->|Hin]%elem_of_cons; rewrite filter_cons.
  - rewrite decide_False by (intros H; by apply H). by rewrite filter_ne_id.
  - rewrite decide_True by (intros ->; done). rewrite (IH Hin) at 1. apply Permutation_swap.
Qed.

Lemma cancel_entries w context p w' r :
  wf w -> na_libp2p_cancel context p w = Done r w' -> entries w' ≡ₚ entries w.
Proof.
  intros Hwf Hrun. pose proof (cancel_run w context p Hwf) as H. case_decide as Hin.
  - destruct H as (op & _ & H). rewrite H in Hrun. injection Hrun as _ <-. unfold entries, signalled. cbn.
    rewrite (perm_filter_ne p (queued (w_queues w)) (wf_queued_nodup w Hwf) Hin) at 1. unfold queued. cbn.
    rewrite !filter_app, map_app. cbn. solve_Permutation.
  - rewrite H in Hrun. by injection Hrun as _ <-.
Qed.


Lemma poll_drain_cmds fuel : forall count, respects (kept w_cmds) (poll_drain fuel count).
Proof. apply poll_drain_frame; [apply _|done|]. intros c. frame. Qed.
#[local] Hint Resolve poll_drain_cmds : frame.

Lemma poll_cmds : respects (kept w_cmds) na_libp2p_poll.
Proof. frame. Qed.

Lemma poll_entries w r w' : wf w -> na_libp2p_poll w = Done r w' -> entries w' ≡ₚ entries w.
Proof.
  intros Hwf Hrun. pose proof (poll_cmds w r w' Hrun) as Hc. unfold kept in Hc.
  destruct (poll_run w Hwf) as (w1 & H & _ & Hcs & _ & Hcb & _ & _ & _ & Hq & _).
  rewrite H in Hrun. injection Hrun as _ <-. unfold entries, signalled. rewrite Hq, Hc, Hcs, Hcb, map_app, map_map. cbn.
  by rewrite app_nil_r.
Qed.

Lemma run_task_entries w t r w' :
  is_Some (w_class w) -> run_task t r w = Done tt w' -> entries w' ≡ₚ entries w ++ sys_gain (IoTask t r).
Proof.
  intros Hc Hrun. unfold run_task, task_completion in Hrun. unfold sys_gain. destruct (_ && _).
  - injection Hrun as <-. by rewrite app_nil_r.
  - rewrite complete_run in Hrun by done. injection Hrun as <-.
    unfold entries, signalled. cbn. rewrite map_app. cbn. solve_Permutation.
Qed.

(** The sending calls, whose results are known exactly. *)
Lemma send_entries w p op c :
  w_loop_alive w = true -> cmd_transfer c = Some p ->
  entries (push_command c (upd_ops <[p := op]> w)) ≡ₚ entries w ++ [p].
Proof. intros Ha Hc. rewrite entries_push_command by done. by rewrite Hc. Qed.

(** A step adds to the ledger what it posts; otherwise it only moves operations
    from one place to another. *)
Lemma run_sys_entries w ev w' :
  wf w -> sys_ok w ev -> w_loop_alive w = true -> run_sys ev w = Done tt w' ->
  entries w' ≡ₚ entries w ++ sys_gain ev.
Proof.
  intros Hwf Hok Ha Hrun. destruct (administrative ev) eqn:Eadm.
  { rewrite (books_entries _ _ (administrative_books ev Eadm _ _ _ Hrun)). destruct ev; try done; by rewrite app_nil_r. }
  assert (Hig : forall A (m : MW A), ignore m w = Done tt w' -> exists a, m w = Done a w').
  { intros A m. unfold ignore, mbind, M_bind. destruct (m w) as [a w1|]; [|done]. intros [= <-]. eauto. }
  destruct ev; try discriminate Eadm; cbn [run_sys sys_gain] in *; try (apply Hig in Hrun as [res Hrun]).
  - by rewrite (addr_lookup_entries _ _ _ _ _ Hrun), app_nil_r.
  - destruct Hok as ([op Hop] & [dest Hd] & Hb).
    destruct (msg_send_unexpected_run w context callback arg buf buf_size dest_addr tag op_id op dest Hwf Hop Hd Hb)
      as (cls & payload & _ & _ & H). rewrite H in Hrun. injection Hrun as _ <-. by apply send_entries.
  - destruct Hok as ([op Hop] & [dest Hd] & Hb).
    destruct (msg_send_expected_run w context callback arg buf buf_size dest_addr tag op_id op dest Hwf Hop Hd Hb)
      as (cls & payload & _ & _ & H). rewrite H in Hrun. injection Hrun as _ <-. by apply send_entries.
  - destruct Hok. by eapply recv_unexpected_entries.
  - destruct Hok as (? & ? & ?). by eapply recv_expected_entries.
  - destruct Hok as ([[op Hop] _] & [rh Hrh] & [dest Hd] & lh & Hlh & Hs).
    destruct (put_run w context callback arg local_handle local_offset remote_handle remote_offset length remote_addr op_id
      op lh rh dest Hwf Hop Hlh Hrh Hd Hs) as (cls & data & _ & _ & H).
    rewrite H in Hrun. injection Hrun as _ <-. by apply send_entries.
  - destruct Hok as ([[op Hop] _] & [lh Hlh] & [rh Hrh] & [dest Hd]).
    destruct (get_run w context callback arg local_handle local_offset remote_handle remote_offset length remote_addr op_id
      op lh rh dest Hwf Hop Hlh Hrh Hd) as (cls & _ & H).
    rewrite H in Hrun. injection Hrun as _ <-. rewrite entries_push_command by done. cbn [cmd_transfer option_list].
    rewrite app_nil_r. eapply entries_queue; [|done..]. unfold queued, push_pending. cbn. solve_Permutation.
  - rewrite app_nil_r. by eapply poll_entries.
  - rewrite app_nil_r. by eapply cancel_entries.
  - rewrite app_nil_r. by eapply dispatch_entries.
  - apply run_task_entries; [apply Hwf|done].
Qed.

End Ledger.
