(* ===== verification/Node.v ===== *)
(** One node of the network, whole: the state the NA thread and the async side
    share, the event loop and the completion tasks it spawned, with the stream
    handlers reading whatever bytes the peers send.  Compared with [System], the
    commands the callbacks issue are the ones the loop takes, the tasks are the
    ones the loop spawned, and nothing is assumed of the peers. *)
From Stdlib Require Import ZArith Lia.
From stdpp Require Import list_tactics.
From S2P Require Import Prelude.
From S2P Require Import Frame.
From S2P Require Import RustStr.
From S2P Require Import Libp2p.
From S2P Require Import Memory.
From S2P Require Import Protocol.
From S2P Require Import State.
From S2P Require Import Messaging.
From S2P Require Import Rma.
From S2P Require Import Addr.
From S2P Require Import Invariant.
From S2P Require Import Safety.
From S2P Require Import Progress.
From S2P Require Import RmaSpec.
From S2P Require Import Incoming.
From S2P Require Import Sender.
From S2P Require Import EventLoop.
From S2P Require Import System.
From S2P Require Import Runs.
From S2P Require Import Ledger.
From S2P Require Import DemoWorld.

Section Node.
Context {LP : Libp2p} {OS : Os} {NB : NaBindings}.
Abbreviation MW := (M World).

(** * State and steps *)

Record node := mkNode { nd_world : World; nd_loop : loop_state }.
Abbreviation MN := (M node).

Definition on_nd_world {A} (m : MW A) : MN A := fun nd =>
  match m (nd_world nd) with
  | Done a w => Done a (mkNode w (nd_loop nd))
  | Fault f => Fault f
  end.
Definition on_nd_loop (f : loop_state -> loop_state) : MN unit :=
  modify (fun nd => mkNode (nd_world nd) (f (nd_loop nd))).

Inductive node_event :=
| NdCall (ev : sys_event)                          (** an NA callback *)
| NdCommand (v : swarm_view)                       (** the loop takes the next command *)
| NdSwarm (v : swarm_view) (e : swarm_event)
| NdTimer (v : swarm_view)
| NdTask (i : nat) (r : option send_result)        (** a completion task gets its result *)
| NdRead (self : PeerId) (s : rstream).            (** a stream handler reads one message *)

(** The end of the loop drops the command receiver. *)
Definition drop_commands (w : World) : World :=
  mkWorld (w_mem w) (w_addrs w) (w_ops w) (w_handles w) (w_queues w) (w_registry w) [] (w_completions w) (w_efd w)
    (w_class w) (w_cbs w) false (w_next_oneshot w).
Definition settle : MN unit :=
  modify (fun nd => if lp_running (nd_loop nd) then nd else mkNode (drop_commands (nd_world nd)) (nd_loop nd)).

(** One round of the loop on an event. *)
Definition loop_round (v : swarm_view) (e : loop_event) : MN unit :=
  cls ← gets (fun nd => w_class (nd_world nd));
  _ ← on_nd_loop (loop_step (cls ≫= cls_relay_addr) v e);
  settle.

Definition run_node (ev : node_event) : MN unit :=
  match ev with
  | NdCall ev => on_nd_world (run_sys ev)
  | NdCommand v =>
      running ← gets (fun nd => lp_running (nd_loop nd));
      cmds ← gets (fun nd => w_cmds (nd_world nd));
      match cmds with
      | c :: rest =>
          when running
            (_ ← on_nd_world (modify (upd_cmds (fun _ => rest)));
             loop_round v (LeCommand (Some c)))
      | [] => mret tt
      end
  | NdSwarm v e => loop_round v (LeSwarm e)
  | NdTimer v => loop_round v LeTimer
  | NdTask i r =>
      tasks ← gets (fun nd => lp_tasks (nd_loop nd));
      match remove_at i tasks with
      | Some (t, rest) =>
          _ ← on_nd_loop (fun l => mkLoop (lp_peer_addrs l) (lp_pending l) (lp_pool l) rest (lp_next_result l)
                                     (lp_answers l) (lp_calls l) (lp_running l));
          on_nd_world (run_task t r)
      | None => mret tt
      end
  | NdRead self s =>
      match read_message s with
      | (IOk (h, payload), _) => on_nd_world (ignore (dispatch self h payload))
      | (IErr _, _) => mret tt
      end
  end.

(** * The contract of the application *)

(** Sends and puts whose completion task is waiting. *)
Definition waiting (ts : list completion_task) : list Z := map ct_op_ptr (filter (fun t => ct_is_get t = false) ts).

(** Sends and puts that have not been signalled: in a command or awaited by a
    completion task. *)
Definition transfers (nd : node) : list Z :=
  omap cmd_transfer (w_cmds (nd_world nd)) ++ waiting (lp_tasks (nd_loop nd)).

(** The operation a call starts. *)
Definition sys_start (ev : sys_event) : option Z :=
  match ev with
  | NaSendUnexpected _ _ _ _ _ _ _ p | NaSendExpected _ _ _ _ _ _ _ p
  | NaRecvUnexpected _ _ _ _ _ p | NaRecvExpected _ _ _ _ _ _ _ p
  | NaPut _ _ _ _ _ _ _ _ _ p | NaGet _ _ _ _ _ _ _ _ _ p => Some p
  | _ => None
  end.

(** The operation a call starts or destroys. *)
Definition sys_op (ev : sys_event) : option Z :=
  match ev with NaOpDestroy p => Some p | _ => sys_start ev end.

Definition is_call (ev : sys_event) : bool := match ev with IoMessage _ _ _ | IoTask _ _ => false | _ => true end.

(** The application makes the calls [sys_ok] allows and neither reuses nor
    destroys a send or a put before its callback.  Of the node itself: a get is
    not reported as failed once the application has destroyed it, which it may do
    after the response or a cancellation completed the get while the task of the
    request still waited ([Hazards.stale_get_task_faults] is a node where this
    happens).  The loop, the other tasks and the peers do as they please. *)
Definition node_ok (nd : node) (ev : node_event) : Prop :=
  match ev with
  | NdCall ev =>
      is_call ev = true /\ sys_ok (nd_world nd) ev /\ forall p, sys_op ev = Some p -> p ∉ transfers nd
  | NdTask i r =>
      forall t rest, remove_at i (lp_tasks (nd_loop nd)) = Some (t, rest) ->
        ct_is_get t = true -> is_Some (task_completion t r) -> is_Some (w_ops (nd_world nd) !! ct_op_ptr t)
  | _ => True
  end.

Inductive node_reachable (nd0 : node) : node -> Prop :=
| node_reach_refl : node_reachable nd0 nd0
| node_reach_step nd ev nd' :
    node_reachable nd0 nd -> node_ok nd ev -> run_node ev nd = Done tt nd' -> node_reachable nd0 nd'.

(** * The invariant *)

Record node_inv (nd : node) : Prop := mk_node_inv {
  ni_wf : wf (nd_world nd);
  ni_live : forall p, p ∈ transfers nd -> is_Some (w_ops (nd_world nd) !! p);
  ni_alive : w_loop_alive (nd_world nd) = lp_running (nd_loop nd);
}.

(** ** What the calls leave alone *)

Definition live_op (p : Z) (w : World) : Prop := is_Some (w_ops w !! p).

(** Commands are only added, and only for the operation the call starts. *)
Definition new_cmd_ops (P : Z -> Prop) (w w' : World) : Prop :=
  forall q, q ∈ omap cmd_transfer (w_cmds w') -> q ∈ omap cmd_transfer (w_cmds w) \/ P q.

#[local] Instance new_cmd_ops_preorder P : PreOrder (new_cmd_ops P).
Proof. split; [intros w q; auto|]. intros w1 w2 w3 H12 H23 q Hq. destruct (H23 q Hq); auto. Qed.

Lemma push_cmd_ops (P : Z -> Prop) c w :
  (forall q, cmd_transfer c = Some q -> P q) -> new_cmd_ops P w (upd_cmds (fun l => l ++ [c]) w).
Proof.
  intros Hc q. cbn. rewrite omap_app, elem_of_app. cbn. intros [|Hq]; [by left|right].
  destruct (cmd_transfer c); [|by apply elem_of_nil in Hq]. apply list_elem_of_singleton in Hq as ->. auto.
Qed.

Lemma insert_live p q x w : stable (live_op p) w (upd_ops <[q := x]> w).
Proof. intros H. unfold live_op in *. cbn. by apply live_insert. Qed.

Lemma delete_live p q w : q <> p -> stable (live_op p) w (upd_ops (delete q) w).
Proof. intros Hne H. unfold live_op in *. cbn. by rewrite lookup_delete_ne. Qed.

#[local] Hint Resolve insert_live delete_live : frame.
#[local] Hint Extern 0 (stable (live_op _) _ _) => exact (fun H => H) : frame.
#[local] Hint Extern 0 (new_cmd_ops _ _ _) => exact (fun _ H => or_introl H) : frame.
#[local] Hint Extern 1 (new_cmd_ops _ _ (upd_cmds _ _)) => apply push_cmd_ops; cbn; congruence : frame.

Lemma run_sys_alive ev : respects (kept w_loop_alive) (run_sys ev).
Proof.
  assert (Hp : forall n c, respects (kept w_loop_alive) (poll_drain n c)).
  { intros n. apply poll_drain_frame; [apply _|done|]. intros c. frame. }
  destruct ev; cbn [run_sys]; frame.
Qed.

Lemma run_sys_live p ev : ev <> NaOpDestroy p -> respects (stable (live_op p)) (run_sys ev).
Proof.
  intros Hev.
  assert (Hp : forall n c, respects (stable (live_op p)) (poll_drain n c)).
  { intros n. apply poll_drain_frame; [apply _|by intros ?? H|]. intros c. frame. }
  destruct ev; cbn [run_sys]; try solve [frame].
  assert (op_id <> p) by congruence. frame.
Qed.

Lemma run_sys_cmd_ops ev : respects (new_cmd_ops (fun q => sys_start ev = Some q)) (run_sys ev).
Proof.
  assert (Hp : forall n c, respects (new_cmd_ops (fun q => sys_start ev = Some q)) (poll_drain n c)).
  { intros n. apply poll_drain_frame; [apply _|by intros ?? q H; left|]. intros c. frame. }
  destruct ev; cbn [run_sys sys_start] in *; try solve [frame].
Qed.

(** ** What the loop does to its tasks *)

(** The task a command spawns. *)
Definition cmd_task (c : Command) (rx : nat) : option completion_task :=
  match c with
  | SendMessage _ _ _ _ op_ptr _ | CmdRmaPut _ _ _ _ op_ptr _ => Some (mkTask rx op_ptr false)
  | RmaGetRequest _ _ _ _ _ _ op_ptr _ => Some (mkTask rx op_ptr true)
  | _ => None
  end.
Definition stops (e : loop_event) : bool :=
  match e with LeCommand (Some Shutdown) | LeCommand None | LeSwarm SwarmEnded => true | _ => false end.
Definition event_task (e : loop_event) (rx : nat) : option completion_task :=
  match e with LeCommand (Some c) => cmd_task c rx | _ => None end.

Definition run_part (l : loop_state) := (lp_tasks l, lp_running l).

Lemma answer_run_part tx r l : run_part (answer tx r l) = run_part l.
Proof. by destruct tx. Qed.

Lemma dial_part v p l : run_part (dial_if_disconnected v p l) = run_part l /\
  lp_next_result (dial_if_disconnected v p l) = lp_next_result l.
Proof. unfold dial_if_disconnected. by repeat case_match. Qed.

Lemma enqueue_part peer h payload op g l :
  run_part (enqueue peer h payload op g l) = (lp_tasks l ++ [mkTask (lp_next_result l) op g], lp_running l).
Proof. unfold enqueue. by destruct (get_or_create peer (lp_pool l)). Qed.

Lemma enqueue_dial_part v peer h payload op g l :
  run_part (enqueue peer h payload op g (dial_if_disconnected v peer l)) =
  (lp_tasks l ++ [mkTask (lp_next_result l) op g], lp_running l).
Proof.
  rewrite enqueue_part. destruct (dial_part v peer l) as [H ->]. unfold run_part in H. by injection H as -> ->.
Qed.

Lemma expire_part ps l : run_part (foldl (fun l p => expire_one p l) l ps) = run_part l.
Proof.
  revert l. induction ps as [|p ps IH]; intros l; cbn; [done|]. rewrite IH. unfold expire_one. case_match; [|done].
  by rewrite answer_run_part.
Qed.

Lemma swarm_part relay e l :
  run_part (handle_swarm_event relay e l) = (lp_tasks l, if stops (LeSwarm e) then false else lp_running l).
Proof.
  destruct e as [peer relayed remote|peer n|[peer|]|peer ok| |]; cbn [handle_swarm_event stops]; try done;
    repeat case_match; rewrite ?answer_run_part; done.
Qed.

Lemma loop_step_part relay v e l :
  lp_running l = true ->
  run_part (loop_step relay v e l) =
  (lp_tasks l ++ option_list (event_task e (lp_next_result l)), negb (stops e)).
Proof.
  intros Hr. unfold loop_step. rewrite Hr. destruct e as [e|[c|]|]; cbn [event_task option_list].
  - rewrite swarm_part, Hr, app_nil_r. by destruct (stops _).
  - destruct c; cbn [handle_command cmd_task option_list stops negb]; rewrite ?enqueue_dial_part, ?Hr; try done.
    + unfold run_part. cbn. by rewrite Hr, app_nil_r.
    + case_match; unfold run_part; cbn; by rewrite Hr, app_nil_r.
    + unfold run_part. cbn. by rewrite app_nil_r.
  - unfold run_part. cbn. by rewrite app_nil_r.
  - unfold handle_timer. rewrite expire_part. unfold run_part. by rewrite Hr, app_nil_r.
Qed.

Lemma waiting_perm ts ts' : ts ≡ₚ ts' -> waiting ts ≡ₚ waiting ts'.
Proof. intros H. unfold waiting. by rewrite H. Qed.

Lemma waiting_app ts ts' : waiting (ts ++ ts') = waiting ts ++ waiting ts'.
Proof. unfold waiting. by rewrite filter_app, map_app. Qed.

Lemma cmd_task_waiting c rx : waiting (option_list (cmd_task c rx)) = option_list (cmd_transfer c).
Proof. by destruct c. Qed.

Lemma remove_at_perm {A} i (l : list A) x r : remove_at i l = Some (x, r) -> l ≡ₚ x :: r.
Proof.
  revert i r. induction l as [|y l IH]; intros i r; [by destruct i|]. destruct i as [|i]; cbn; [by intros [= -> ->]|].
  destruct (remove_at i l) as [[z r']|] eqn:E; [|done]. intros [= -> <-]. rewrite (IH _ _ E). apply Permutation_swap.
Qed.

(** * The invariant, step by step *)

Context {LPL : Libp2pLaws} {OSL : OsLaws}.

Lemma elem_transfers nd p :
  p ∈ transfers nd <-> p ∈ omap cmd_transfer (w_cmds (nd_world nd)) \/ p ∈ waiting (lp_tasks (nd_loop nd)).
Proof. unfold transfers. by rewrite elem_of_app. Qed.

Lemma wf_drop_commands w : wf w -> wf (drop_commands w).
Proof. intros H. eapply wf_ext; [..|exact H]; try done. apply H. Qed.

Definition event_op_live (e : loop_event) (w : World) : Prop :=
  match e with LeCommand (Some c) => forall p, cmd_transfer c = Some p -> live_op p w | _ => True end.

(** A round of the loop: the tasks are those before it and the one it spawns. *)
Lemma loop_round_run v e nd :
  exists nd', loop_round v e nd = Done tt nd' /\
    nd_world nd' = (if lp_running (nd_loop nd') then nd_world nd else drop_commands (nd_world nd)) /\
    nd_loop nd' = loop_step (w_class (nd_world nd) ≫= cls_relay_addr) v e (nd_loop nd).
Proof.
  unfold loop_round, on_nd_loop, settle. mpure. unfold modify. eexists. split; [done|]. cbn [nd_world nd_loop].
  destruct (lp_running (loop_step _ _ _ _)) eqn:E; cbn [nd_world nd_loop]; by rewrite E.
Qed.

Lemma loop_round_inv v e nd :
  node_inv nd -> event_op_live e (nd_world nd) ->
  exists nd', loop_round v e nd = Done tt nd' /\ node_inv nd'.
Proof.
  intros [Hwf Hlive Halive] He. destruct (loop_round_run v e nd) as (nd' & Hrun & Hw & Hl). exists nd'. split; [done|].
  assert (Ht : forall p, p ∈ waiting (lp_tasks (nd_loop nd')) -> live_op p (nd_world nd)).
  { intros p. rewrite Hl. destruct (lp_running (nd_loop nd)) eqn:Er.
    - pose proof (loop_step_part (w_class (nd_world nd) ≫= cls_relay_addr) v e (nd_loop nd) Er) as Hp.
      unfold run_part in Hp. injection Hp as -> _. rewrite waiting_app, elem_of_app. intros [Hin|Hin].
      + apply Hlive, elem_transfers. by right.
      + destruct e as [|[c|]|]; cbn in Hin; try by apply elem_of_nil in Hin.
        cbn [event_task] in Hin. rewrite cmd_task_waiting in Hin. apply He.
        destruct (cmd_transfer c); [|by apply elem_of_nil in Hin]. apply list_elem_of_singleton in Hin. by subst.
    - unfold loop_step. rewrite Er. intros Hin. apply Hlive, elem_transfers. by right. }
  destruct (lp_running (nd_loop nd')) eqn:Er; split; rewrite ?Hw, ?Er; cbn; try done.
  - intros p [Hc|Hc]%elem_transfers; [|by apply Ht]. apply Hlive, elem_transfers. left. by rewrite Hw in Hc.
  - rewrite Halive. destruct (lp_running (nd_loop nd)) eqn:E; [done|]. rewrite Hl in Er. unfold loop_step in Er.
    rewrite E in Er. congruence.
  - by apply wf_drop_commands.
  - intros p [Hc|Hc]%elem_transfers; [|by apply Ht]. rewrite Hw in Hc. by apply elem_of_nil in Hc.
Qed.

Lemma world_step_inv nd ev :
  node_inv nd -> sys_ok (nd_world nd) ev -> (forall p, sys_op ev = Some p -> p ∉ transfers nd) ->
  exists nd', on_nd_world (run_sys ev) nd = Done tt nd' /\ node_inv nd'.
Proof.
  intros [Hwf Hlive Halive] Hok Hop. destruct (run_sys_wf _ _ Hwf Hok) as (w' & Hrun & Hwf'). unfold on_nd_world. rewrite Hrun. eexists. split; [done|]. split; cbn; [done| |].
  - intros p Hp. assert (Hd : p ∈ transfers nd -> is_Some (w_ops w' !! p)).
    { intros Hin. apply (run_sys_live p ev) in Hrun; [|intros ->; by apply (Hop p)]. apply Hrun, Hlive, Hin. }
    apply elem_transfers in Hp. cbn in Hp. destruct Hp as [Hp|Hp]; [|by apply Hd, elem_transfers; right].
    destruct (run_sys_cmd_ops ev _ _ _ Hrun p Hp) as [Hin|Hnew]; [by apply Hd, elem_transfers; left|].
    apply (run_sys_live p ev) in Hrun; [apply Hrun|by intros ->].
    destruct ev; cbn in Hnew, Hok; try discriminate Hnew; injection Hnew as ->; unfold op_idle, live_op in *; by destruct_and?.
  - rewrite (run_sys_alive ev _ _ _ Hrun). done.
Qed.

(** The world of a node with fewer things in flight. *)
Lemma node_inv_sub nd nd' :
  node_inv nd -> wf (nd_world nd') -> w_ops (nd_world nd') = w_ops (nd_world nd) ->
  w_loop_alive (nd_world nd') = lp_running (nd_loop nd') -> transfers nd' ⊆ transfers nd -> node_inv nd'.
Proof. intros [_ Hl _] Hwf Ho Ha Hsub. split; [done| |done]. rewrite Ho. intros p Hp. apply Hl, Hsub, Hp. Qed.

Lemma run_node_inv nd ev : node_inv nd -> node_ok nd ev -> exists nd', run_node ev nd = Done tt nd' /\ node_inv nd'.
Proof.
  intros Hi Hok. destruct ev as [ev|v|v e|v|i r|self s]; cbn [run_node].
  - destruct Hok as (_ & Hok & Hop). by apply world_step_inv.
  - mpure. destruct (w_cmds (nd_world nd)) as [|c rest] eqn:Ec; [by eauto|].
    destruct (lp_running (nd_loop nd)) eqn:Er; [|by eauto]. cbn [when]. unfold on_nd_world at 1. cbn.
    apply loop_round_inv; cbn [nd_world nd_loop].
    + eapply node_inv_sub; [exact Hi|apply wf_upd_cmds, Hi|done|apply Hi|]. intros p. rewrite !elem_transfers. cbn.
      rewrite Ec. cbn. destruct (cmd_transfer c); [rewrite elem_of_cons|]; tauto.
    + intros p Hp. apply (ni_live nd Hi), elem_transfers. left. rewrite Ec. cbn. rewrite Hp. by apply elem_of_cons; left.
  - by apply loop_round_inv.
  - by apply loop_round_inv.
  - mpure. destruct (remove_at i (lp_tasks (nd_loop nd))) as [[t rest]|] eqn:E; [|by eauto].
    pose proof (remove_at_perm _ _ _ _ E) as Hp. unfold on_nd_loop. mpure.
    apply (world_step_inv (mkNode (nd_world nd) _) (IoTask t r)); [|cbn|done].
    + eapply node_inv_sub; [exact Hi|apply Hi|done|apply Hi|]. intros p. rewrite !elem_transfers. cbn.
      rewrite (waiting_perm _ _ Hp). change (t :: rest) with ([t] ++ rest). rewrite waiting_app, elem_of_app. tauto.
    + intros Hc. destruct (ct_is_get t) eqn:Eg; [by apply (Hok t rest)|]. apply (ni_live nd Hi), elem_transfers. right.
      rewrite (waiting_perm _ _ Hp). unfold waiting. rewrite filter_cons_True by done. by apply elem_of_cons; left.
  - destruct (read_message s) as [[[h payload]|e] s'] eqn:E; [|by eauto].
    apply (world_step_inv nd (IoMessage self h payload)); [done| |done]. by apply read_message_inv in E as [? _].
Qed.

Lemma node_reachable_inv nd0 nd : node_inv nd0 -> node_reachable nd0 nd -> node_inv nd.
Proof.
  intros H0. induction 1 as [|nd ev nd' _ IH Hok Hrun]; [done|].
  destruct (run_node_inv nd ev IH Hok) as (nd1 & Hrun' & Hi). congruence.
Qed.

(** * The ledger of a node *)

(** Every operation the node has been given and has not forgotten: queued, in a
    command, awaited by a task, or signalled. *)
Definition ledger (nd : node) : list Z := entries (nd_world nd) ++ waiting (lp_tasks (nd_loop nd)).

(** What an event posts, and the get it reports as failed. *)
Definition node_posts (ev : node_event) : list Z :=
  match ev with NdCall ev => option_list (sys_start ev) | _ => [] end.
Definition failed_get (nd : node) (ev : node_event) : list Z :=
  match ev with
  | NdTask i r =>
      match remove_at i (lp_tasks (nd_loop nd)) with
      | Some (t, _) => if ct_is_get t && negb (task_result r =? NA_SUCCESS) then [ct_op_ptr t] else []
      | None => []
      end
  | _ => []
  end.

(** A run, with the operations posted and the gets reported as failed on the way. *)
Inductive node_run (nd0 : node) : list Z -> list Z -> node -> Prop :=
| node_run_refl : node_run nd0 [] [] nd0
| node_run_step posted failed nd ev nd' :
    node_run nd0 posted failed nd -> node_ok nd ev -> run_node ev nd = Done tt nd' ->
    node_run nd0 (posted ++ node_posts ev) (failed ++ failed_get nd ev) nd'.

Lemma node_run_reachable nd0 posted failed nd : node_run nd0 posted failed nd -> node_reachable nd0 nd.
Proof. induction 1; by econstructor. Qed.

Lemma sys_gain_call ev : is_call ev = true -> sys_gain ev = option_list (sys_start ev).
Proof. by destruct ev. Qed.

(** The loop does not start again. *)
Lemma loop_round_running v e nd nd' :
  loop_round v e nd = Done tt nd' -> lp_running (nd_loop nd') = true ->
  lp_running (nd_loop nd) = true /\ nd_world nd' = nd_world nd /\
  lp_tasks (nd_loop nd') = lp_tasks (nd_loop nd) ++ option_list (event_task e (lp_next_result (nd_loop nd))).
Proof.
  intros Hrun Hr. destruct (loop_round_run v e nd) as (nd1 & Hrun' & Hw & Hl).
  rewrite Hrun in Hrun'. injection Hrun' as <-. rewrite Hr in Hw. rewrite Hl in Hr |- *.
  destruct (lp_running (nd_loop nd)) eqn:E; [|unfold loop_step in Hr; by rewrite E, E in Hr].
  pose proof (loop_step_part (w_class (nd_world nd) ≫= cls_relay_addr) v e (nd_loop nd) E) as Hp.
  unfold run_part in Hp. by injection Hp as -> _.
Qed.

Lemma loop_round_ledger v e nd nd' :
  loop_round v e nd = Done tt nd' -> lp_running (nd_loop nd') = true ->
  ledger nd' = ledger nd ++ waiting (option_list (event_task e (lp_next_result (nd_loop nd)))).
Proof.
  intros Hrun Hr. destruct (loop_round_running _ _ _ _ Hrun Hr) as (_ & Hw & Ht).
  unfold ledger. by rewrite Hw, Ht, waiting_app, app_assoc.
Qed.

(** A step of the shared state with the loop as it is. *)
Lemma world_step_ledger nd ev nd' :
  node_inv nd -> sys_ok (nd_world nd) ev -> lp_running (nd_loop nd') = true ->
  on_nd_world (run_sys ev) nd = Done tt nd' -> ledger nd' ≡ₚ ledger nd ++ sys_gain ev.
Proof.
  intros Hi Hok Hr. unfold on_nd_world. destruct (run_sys ev (nd_world nd)) as [[] w'|] eqn:E; [|done].
  intros [= <-]. cbn in Hr. unfold ledger. cbn.
  rewrite (run_sys_entries (nd_world nd) ev w') by (try apply Hi; try done; by rewrite (ni_alive nd Hi)).
  solve_Permutation.
Qed.

Lemma entries_take_command w c rest :
  w_cmds w = c :: rest -> entries w ≡ₚ entries (upd_cmds (fun _ => rest) w) ++ option_list (cmd_transfer c).
Proof.
  intros H. unfold entries, signalled. cbn. rewrite H. cbn. destruct (cmd_transfer c); cbn; [|by rewrite app_nil_r].
  solve_Permutation.
Qed.

Lemma task_ledger w l t rest r i w' :
  remove_at i (lp_tasks l) = Some (t, rest) ->
  entries w' ≡ₚ entries w ++ sys_gain (IoTask t r) ->
  entries w' ++ waiting rest ≡ₚ ledger (mkNode w l) ++ failed_get (mkNode w l) (NdTask i r).
Proof.
  intros E Hw. unfold ledger, failed_get. cbn. rewrite E, Hw, (waiting_perm _ _ (remove_at_perm _ _ _ _ E)).
  cbn [sys_gain]. unfold waiting. rewrite filter_cons. destruct (ct_is_get t) eqn:Eg; cbn.
  - destruct (task_result r =? NA_SUCCESS); cbn; rewrite ?app_nil_r; [done|solve_Permutation].
  - rewrite app_nil_r. solve_Permutation.
Qed.

Lemma run_node_ledger nd ev nd' :
  node_inv nd -> node_ok nd ev -> run_node ev nd = Done tt nd' -> lp_running (nd_loop nd') = true ->
  lp_running (nd_loop nd) = true /\ ledger nd' ≡ₚ ledger nd ++ node_posts ev ++ failed_get nd ev.
Proof.
  intros Hi Hok. destruct ev as [ev|v|v e|v|i r|self s]; cbn [run_node node_posts].
  - destruct Hok as (Hc & Hok & _). intros Hrun Hr. cbn. split.
    + revert Hrun Hr. unfold on_nd_world. destruct (run_sys _ _) as [[] ?|]; [|done]. by intros [= <-].
    + by rewrite (world_step_ledger _ _ _ Hi Hok Hr Hrun), sys_gain_call, app_nil_r.
  - mpure. cbn. destruct (w_cmds (nd_world nd)) as [|c rest] eqn:Ec; [by intros [= <-]; rewrite app_nil_r|].
    destruct (lp_running (nd_loop nd)) eqn:Er; cbn [when]; [|by intros [= <-]; rewrite Er].
    unfold on_nd_world at 1. cbn. intros Hrun Hr. split; [done|].
    rewrite (loop_round_ledger _ _ _ _ Hrun Hr). cbn [event_task nd_loop nd_world]. rewrite cmd_task_waiting, app_nil_r.
    unfold ledger. cbn. rewrite (entries_take_command _ _ _ Ec). solve_Permutation.
  - intros Hrun Hr. destruct (loop_round_running _ _ _ _ Hrun Hr) as (? & _). split; [done|].
    by rewrite (loop_round_ledger _ _ _ _ Hrun Hr).
  - intros Hrun Hr. destruct (loop_round_running _ _ _ _ Hrun Hr) as (? & _). split; [done|].
    by rewrite (loop_round_ledger _ _ _ _ Hrun Hr).
  - mpure. destruct (remove_at i (lp_tasks (nd_loop nd))) as [[t rest]|] eqn:E.
    + unfold on_nd_loop. mpure. unfold on_nd_world. cbn. destruct (run_task t r (nd_world nd)) as [[] w'|] eqn:Et; [|done].
      intros [= <-] Hr. cbn in Hr. split; [done|]. cbn [app]. destruct nd as [w l]. cbn in *.
      rewrite <-(task_ledger w l t rest r i w' E); [done|]. by apply run_task_entries; [apply Hi|].
    + intros [= <-] Hr. split; [done|]. cbn. by rewrite E, app_nil_r.
  - destruct (read_message s) as [[[h payload]|e] s'] eqn:E; [|by intros [= ->]; rewrite app_nil_r].
    intros Hrun Hr. split.
    + revert Hrun Hr. unfold on_nd_world. destruct (ignore _ _) as [[] ?|]; [|done]. by intros [= <-].
    + apply (world_step_ledger nd (IoMessage self h payload)); try done. by apply read_message_inv in E as [? _].
Qed.

Lemma node_run_ledger nd0 posted failed nd :
  node_inv nd0 -> node_run nd0 posted failed nd -> lp_running (nd_loop nd) = true ->
  ledger nd ≡ₚ ledger nd0 ++ posted ++ failed.
Proof.
  intros H0. induction 1 as [|posted failed nd ev nd' Hrun IH Hok Hstep]; intros Hr; [by rewrite app_nil_r|].
  pose proof (node_reachable_inv _ _ H0 (node_run_reachable _ _ _ _ Hrun)) as Hi.
  destruct (run_node_ledger _ _ _ Hi Hok Hstep Hr) as [Hr0 ->]. rewrite (IH Hr0). solve_Permutation.
Qed.

(** * Draining a node *)

Fixpoint run_nodes (evs : list node_event) : MN unit :=
  match evs with
  | [] => mret tt
  | ev :: evs' => _ ← run_node ev; run_nodes evs'
  end.

Lemma run_nodes_app evs1 evs2 nd nd1 :
  run_nodes evs1 nd = Done tt nd1 -> run_nodes (evs1 ++ evs2) nd = run_nodes evs2 nd1.
Proof.
  revert nd. induction evs1 as [|ev evs1 IH]; intros nd; cbn; [by intros [= ->]|].
  unfold mbind, M_bind. destruct (run_node ev nd) as [[] nd'|]; [|done]. apply IH.
Qed.

Lemma node_run_trans nd0 p1 f1 nd1 p2 f2 nd2 :
  node_run nd0 p1 f1 nd1 -> node_run nd1 p2 f2 nd2 -> node_run nd0 (p1 ++ p2) (f1 ++ f2) nd2.
Proof.
  intros H1. induction 1 as [|p2 f2 nd2 ev nd3 _ IH Hok Hstep]; [by rewrite !app_nil_r|].
  rewrite !app_assoc. by eapply node_run_step.
Qed.

Lemma node_run_one nd ev nd' :
  node_ok nd ev -> run_node ev nd = Done tt nd' -> node_run nd (node_posts ev) (failed_get nd ev) nd'.
Proof. intros Hok Hrun. exact (node_run_step nd [] [] nd ev nd' (node_run_refl nd) Hok Hrun). Qed.

(** What is in flight, in the order the tasks run in [drain]: the operation and
    whether it is a get. *)
Definition task_flight (t : completion_task) : Z * bool := (ct_op_ptr t, ct_is_get t).
Definition cmd_flight (c : Command) : option (Z * bool) := task_flight <$> cmd_task c 0.
Definition flights (nd : node) : list (Z * bool) :=
  map task_flight (lp_tasks (nd_loop nd)) ++ omap cmd_flight (w_cmds (nd_world nd)).

(** The gets whose request failed, given the results of what is in flight. *)
Definition get_failure (x : Z * bool * option send_result) : option Z :=
  if x.1.2 && negb (task_result x.2 =? NA_SUCCESS) then Some x.1.1 else None.
Definition failed_gets (fs : list (Z * bool)) (rs : list (option send_result)) : list Z := omap get_failure (zip fs rs).

Lemma task_spawn_flight c rx :
  map task_flight (option_list (cmd_task c rx)) = option_list (cmd_flight c).
Proof. by destruct c. Qed.

(** The loop takes every command. *)
Lemma flush_commands_run v nd :
  lp_running (nd_loop nd) = true -> Shutdown ∉ w_cmds (nd_world nd) ->
  exists nd', run_nodes (replicate (length (w_cmds (nd_world nd))) (NdCommand v)) nd = Done tt nd' /\
    node_run nd [] [] nd' /\ lp_running (nd_loop nd') = true /\ w_cmds (nd_world nd') = [] /\
    w_queues (nd_world nd') = w_queues (nd_world nd) /\ w_ops (nd_world nd') = w_ops (nd_world nd) /\
    map task_flight (lp_tasks (nd_loop nd')) = flights nd.
Proof.
  unfold flights. remember (w_cmds (nd_world nd)) as cs eqn:Ec. symmetry in Ec. revert nd Ec.
  induction cs as [|c cs IH]; intros nd Ec Hr Hs.
  { exists nd. cbn. rewrite app_nil_r. split_and!; try done; constructor. }
  apply not_elem_of_cons in Hs as [Hne Hs].
  set (nd1 := mkNode (upd_cmds (fun _ => cs) (nd_world nd)) (nd_loop nd)).
  assert (Hstep : run_node (NdCommand v) nd = loop_round v (LeCommand (Some c)) nd1).
  { cbn [run_node]. mpure. rewrite Ec, Hr. cbn [when]. unfold on_nd_world at 1. by cbn. }
  destruct (loop_round_run v (LeCommand (Some c)) nd1) as (nd2 & Hrun & Hw & Hl). rewrite <-Hstep in Hrun.
  pose proof (loop_step_part (w_class (nd_world nd1) ≫= cls_relay_addr) v (LeCommand (Some c)) (nd_loop nd1) Hr) as Hp.
  rewrite <-Hl in Hp. unfold run_part in Hp. injection Hp as Ht Hr2.
  assert (Hr2' : lp_running (nd_loop nd2) = true) by (rewrite Hr2; by destruct c). rewrite Hr2' in Hw.
  destruct (IH nd2) as (nd' & Hrun' & Hnr & Hr' & Hc' & Hq & Ho & Hf); [by rewrite Hw|done|done|].
  exists nd'. cbn [replicate length run_nodes]. rewrite (bind_Done _ _ _ _ _ Hrun). split_and!; try done.
  - apply (node_run_trans nd [] [] nd2 [] []); [|done]. by apply (node_run_one nd (NdCommand v)).
  - by rewrite Hq, Hw.
  - by rewrite Ho, Hw.
  - rewrite Hf, Ht, map_app, <-app_assoc. f_equal. cbn [event_task]. rewrite task_spawn_flight. cbn.
    by destruct (cmd_flight c).
Qed.

(** One task gets its result. *)
Lemma first_task_run nd t ts r :
  node_inv nd -> lp_tasks (nd_loop nd) = t :: ts ->
  (forall p, get_failure (task_flight t, r) = Some p -> live_op p (nd_world nd)) ->
  exists nd', run_node (NdTask 0 r) nd = Done tt nd' /\ node_inv nd' /\
    node_run nd [] (option_list (get_failure (task_flight t, r))) nd' /\
    lp_running (nd_loop nd') = lp_running (nd_loop nd) /\ lp_tasks (nd_loop nd') = ts /\
    w_cmds (nd_world nd') = w_cmds (nd_world nd) /\ w_queues (nd_world nd') = w_queues (nd_world nd) /\
    w_ops (nd_world nd') = w_ops (nd_world nd).
Proof.
  intros Hi Et Hl.
  assert (Hok : node_ok nd (NdTask 0 r)).
  { intros t' rest Hat Hg. cbn in Hat. rewrite Et in Hat. injection Hat as <- <-. unfold task_completion. rewrite Hg. cbn.
    intros Hc. apply Hl. unfold get_failure. cbn. rewrite Hg. cbn. destruct (task_result r =? NA_SUCCESS); [by destruct Hc|done]. }
  assert (Hfg : failed_get nd (NdTask 0 r) = option_list (get_failure (task_flight t, r))).
  { cbn. rewrite Et. cbn. unfold get_failure. cbn. by destruct (_ && _). }
  destruct (run_node_inv nd (NdTask 0 r) Hi Hok) as (nd1 & Hrun & Hi1). exists nd1. rewrite <-Hfg.
  split_and!; [done|done|by apply (node_run_one nd (NdTask 0 r))|..];
    (revert Hrun; cbn [run_node]; mpure; rewrite Et; cbn [remove_at]; unfold on_nd_loop; mpure; unfold on_nd_world; cbn;
     destruct (run_task t r (nd_world nd)) as [[] w'|] eqn:E; [|done]; intros [= <-]; cbn;
     assert (Hk : respects (kept (fun w => (w_cmds w, w_queues w, w_ops w))) (run_task t r)) by frame;
     pose proof (Hk _ _ _ E) as Hk'; unfold kept in Hk'; by injection Hk' as ???).
Qed.

(** Every task gets its result. *)
Lemma flush_tasks_run nd rs :
  node_inv nd -> length rs = length (lp_tasks (nd_loop nd)) ->
  Forall (fun p => live_op p (nd_world nd)) (failed_gets (map task_flight (lp_tasks (nd_loop nd))) rs) ->
  exists nd', run_nodes (map (NdTask 0) rs) nd = Done tt nd' /\
    node_run nd [] (failed_gets (map task_flight (lp_tasks (nd_loop nd))) rs) nd' /\
    lp_running (nd_loop nd') = lp_running (nd_loop nd) /\ w_cmds (nd_world nd') = w_cmds (nd_world nd) /\
    w_queues (nd_world nd') = w_queues (nd_world nd) /\ lp_tasks (nd_loop nd') = [].
Proof.
  revert nd. induction rs as [|r rs IH]; intros nd Hi Hlen Hlive; cbn [map run_nodes].
  { exists nd. destruct (lp_tasks (nd_loop nd)); [|done]. split_and!; try done. constructor. }
  destruct (lp_tasks (nd_loop nd)) as [|t ts] eqn:Et; [done|]. cbn in Hlen. unfold failed_gets in *.
  cbn [map zip zip_with omap list_omap] in *.
  destruct (first_task_run nd t ts r Hi Et) as (nd1 & Hrun & Hi1 & Hnr1 & Hr1 & Ht1 & Hc1 & Hq1 & Ho1).
  { intros p Hp. rewrite Hp in Hlive. by apply Forall_cons in Hlive as [? _]. }
  rewrite (bind_Done _ _ _ _ _ Hrun). destruct (IH nd1 Hi1) as (nd' & Hruns & Hnr & Hr & Hc & Hq & Ht).
  { rewrite Ht1. lia. }
  { rewrite Ht1. unfold live_op in *. rewrite Ho1. destruct (get_failure _); [by apply Forall_cons in Hlive as [_ ?]|done]. }
  exists nd'. split_and!; try congruence. rewrite Ht1 in Hnr.
  pose proof (node_run_trans _ _ _ _ _ _ _ Hnr1 Hnr) as H. destruct (get_failure _); exact H.
Qed.

(** The schedule: the commands, the tasks, then one poll. *)
Definition drain (v : swarm_view) (nd : node) (rs : list (option send_result)) : list node_event :=
  replicate (length (w_cmds (nd_world nd))) (NdCommand v) ++ map (NdTask 0) rs ++ [NdCall NaPoll].

Lemma drain_run v nd rs :
  node_inv nd -> lp_running (nd_loop nd) = true -> Shutdown ∉ w_cmds (nd_world nd) ->
  length rs = length (flights nd) -> Forall (fun p => live_op p (nd_world nd)) (failed_gets (flights nd) rs) ->
  exists nd', run_nodes (drain v nd rs) nd = Done tt nd' /\ node_run nd [] (failed_gets (flights nd) rs) nd' /\
    lp_running (nd_loop nd') = true /\ w_queues (nd_world nd') = w_queues (nd_world nd) /\
    w_cmds (nd_world nd') = [] /\ lp_tasks (nd_loop nd') = [] /\ w_completions (nd_world nd') = [].
Proof.
  intros Hi Hr Hs Hlen Hlive. destruct (flush_commands_run v nd Hr Hs) as (nd1 & Hrun1 & Hnr1 & Hr1 & Hc1 & Hq1 & Ho1 & Hf1).
  pose proof (node_reachable_inv _ _ Hi (node_run_reachable _ _ _ _ Hnr1)) as Hi1.
  destruct (flush_tasks_run nd1 rs Hi1) as (nd2 & Hrun2 & Hnr2 & Hr2 & Hc2 & Hq2 & Ht2).
  { by rewrite Hlen, <-Hf1, length_map. }
  { unfold live_op in *. by rewrite Hf1, Ho1. }
  rewrite Hf1 in Hnr2. pose proof (node_reachable_inv _ _ Hi1 (node_run_reachable _ _ _ _ Hnr2)) as Hi2.
  assert (Hokp : node_ok nd2 (NdCall NaPoll)) by done.
  destruct (poll_run (nd_world nd2) (ni_wf nd2 Hi2)) as (w3 & Hp & _ & Hcs & _ & _ & _ & _ & _ & Hq3 & _).
  set (nd3 := mkNode w3 (nd_loop nd2)).
  assert (Hrun3 : run_node (NdCall NaPoll) nd2 = Done tt nd3).
  { cbn [run_node run_sys]. unfold on_nd_world, ignore. by rewrite (bind_Done _ _ _ _ _ Hp). }
  exists nd3. unfold drain. rewrite (run_nodes_app _ _ _ _ Hrun1), (run_nodes_app _ _ _ _ Hrun2).
  cbn [run_nodes]. rewrite (bind_Done _ _ _ _ _ Hrun3). split_and!; cbn; try congruence; try done.
  - pose proof (node_run_trans _ _ _ _ _ _ _ Hnr1 (node_run_trans _ _ _ _ _ _ _ Hnr2
      (node_run_one nd2 (NdCall NaPoll) nd3 Hokp Hrun3))) as H. cbn in H. by rewrite app_nil_r in H.
  - pose proof (poll_cmds _ _ _ Hp) as Hk. rewrite Hk, Hc2, Hc1. done.
Qed.

(** * Theorems *)

(** C10: No node faults, whatever the peers send and in whatever order the loop,
    the completion tasks, the stream handlers and the application run, when
    [node_ok] holds of each step: the calls pass live pointers and mapped buffers,
    the buffer given for the text of an own address holds ten readable bytes or a
    NUL, no operation is reused or destroyed before its callback, and no get is
    reported as failed after it was completed and destroyed. *)
Theorem node_never_faults nd0 nd ev :
  node_inv nd0 -> node_reachable nd0 nd -> node_ok nd ev ->
  exists nd', run_node ev nd = Done tt nd' /\ node_inv nd'.
Proof. intros H0 Hr Hok. apply run_node_inv; [by eapply node_reachable_inv|done]. Qed.

(** C6: Operations are conserved: while the loop runs, the operations that are
    queued, in a command, awaited by a task or signalled to the application are
    those the node started with and those posted since, each as many times as it
    was posted, plus the gets whose request could not be sent (they are signalled
    and stay in the list of pending gets). *)
Theorem operations_conserved nd0 posted failed nd :
  node_inv nd0 -> node_run nd0 posted failed nd -> lp_running (nd_loop nd) = true ->
  ledger nd ≡ₚ ledger nd0 ++ posted ++ failed.
Proof. apply node_run_ledger. Qed.

(** C13: Progress, with the loop running and no shutdown queued: once the loop has
    taken the commands, each completion task has got its result and the
    application polls, nothing is in flight and the callbacks made are, as a multiset, those the node was to make already, one for
    every send and every put it was given, whatever their results, and one for each
    get whose request failed. *)
Theorem node_drains v nd rs :
  node_inv nd -> lp_running (nd_loop nd) = true -> Shutdown ∉ w_cmds (nd_world nd) ->
  length rs = length (flights nd) -> Forall (fun p => live_op p (nd_world nd)) (failed_gets (flights nd) rs) ->
  exists nd', run_nodes (drain v nd rs) nd = Done tt nd' /\ flights nd' = [] /\
    map snd (w_cbs (nd_world nd')) ≡ₚ signalled (nd_world nd) ++ transfers nd ++ failed_gets (flights nd) rs.
Proof.
  intros Hi Hr Hs Hlen Hlive.
  destruct (drain_run v nd rs Hi Hr Hs Hlen Hlive) as (nd' & Hrun & Hnr & Hr' & Hq & Hc & Ht & Hcs).
  exists nd'. split_and!; [done|unfold flights; by rewrite Hc, Ht|].
  pose proof (node_run_ledger _ _ _ _ Hi Hnr Hr') as Hl. unfold ledger, entries, signalled in Hl.
  rewrite Hq, Hc, Ht, Hcs in Hl. cbn in Hl. rewrite <-!app_assoc in Hl. apply Permutation_app_inv_l in Hl.
  rewrite !app_nil_r in Hl. rewrite Hl. unfold signalled, transfers. solve_Permutation.
Qed.

End Node.

Module NodeDemo.
Import Demo DemoNode.

Definition start : Node.node := mkNode node loop_new.
Definition view : swarm_view := mkView (fun _ => false) (fun _ => true) 0.
Definition send : node_event := NdCall (NaSendUnexpected 9 8 7 1000 4 50 3 1).
Definition after (ev : node_event) (nd : Node.node) : Node.node :=
  match run_node ev nd with Done _ nd' => nd' | Fault _ => nd end.

(** The send is a command, then a task. *)
Definition sent : Node.node := after send start.
Definition taken : Node.node := after (NdCommand view) sent.

Lemma start_inv : node_inv start.
Proof. split; [exact node_wf| |reflexivity]. intros p Hp. by apply elem_of_nil in Hp. Qed.

Lemma send_allowed : node_ok start send.
Proof.
  split_and!; [done| |intros p _; by apply not_elem_of_nil]. cbn. split_and!; [by eexists|by eexists|].
  right. apply mapped_check_sound. by vm_compute.
Qed.

Lemma after_runs nd ev : node_inv nd -> node_ok nd ev -> run_node ev nd = Done tt (after ev nd).
Proof. intros Hi Hok. destruct (run_node_inv nd ev Hi Hok) as (nd' & H & _). unfold after. by rewrite H. Qed.

Lemma sent_runs : node_run start [1] [] sent.
Proof. exact (node_run_one start send sent send_allowed (after_runs start send start_inv send_allowed)). Qed.

Lemma sent_inv : node_inv sent.
Proof. exact (node_reachable_inv start sent start_inv (node_run_reachable _ _ _ _ sent_runs)). Qed.

Lemma taken_runs : node_run start [1] [] taken.
Proof.
  refine (node_run_trans start [1] [] sent [] [] taken sent_runs _).
  exact (node_run_one sent (NdCommand view) taken I (after_runs sent (NdCommand view) sent_inv I)).
Qed.

Lemma taken_live : is_Some (w_ops (nd_world taken) !! 1).
Proof. apply (bool_decide_unpack _). vm_compute. exact I. Qed.

Lemma node_never_faults_witness :
  exists nd', run_node (NdTask 0 (Some SendOk)) taken = Done tt nd' /\ node_inv nd'.
Proof.
  refine (node_never_faults start taken (NdTask 0 (Some SendOk)) start_inv (node_run_reachable _ _ _ _ taken_runs) _).
  intros t rest H _. revert H. replace (lp_tasks (nd_loop taken)) with [mkTask 0 1 false] by (vm_compute; reflexivity).
  intros [= <- <-]. exact (fun _ => taken_live).
Defined.

Lemma operations_conserved_witness : waiting (lp_tasks (nd_loop taken)) = [1] /\ ledger taken ≡ₚ ledger start ++ [1] ++ [].
Proof.
  split; [by vm_compute|]. refine (operations_conserved start [1] [] taken start_inv taken_runs _). by vm_compute.
Defined.

Lemma sent_goes_on : Shutdown ∉ w_cmds (nd_world sent).
Proof.
  intros H%(list_elem_of_fmap_2 cmd_transfer). revert H.
  replace (cmd_transfer <$> w_cmds (nd_world sent)) with [Some 1] by (vm_compute; reflexivity).
  by intros H%list_elem_of_singleton.
Qed.

Lemma node_drains_witness :
  transfers sent = [1] /\
  exists nd', run_nodes (drain view sent [None]) sent = Done tt nd' /\ flights nd' = [] /\
    map snd (w_cbs (nd_world nd')) ≡ₚ signalled (nd_world sent) ++ transfers sent ++ failed_gets (flights sent) [None].
Proof.
  split; [by vm_compute|]. refine (node_drains view sent [None] sent_inv _ sent_goes_on _ _); [by vm_compute..|].
  replace (failed_gets (flights sent) [None]) with (@nil Z) by (vm_compute; reflexivity). constructor.
Defined.

End NodeDemo.
