(* ===== verification/Registry.v ===== *)
(** Memory handles and the registry of their buffers ([mem_handles], which the
    stream handlers read): every handle the application created and has not freed
    is registered under an identifier of its own, with its buffer, and nothing
    else is registered. *)
From Stdlib Require Import ZArith Lia.
From S2P Require Import Prelude.
From S2P Require Import Frame.
From S2P Require Import RustStr.
From S2P Require Import Libp2p.
From S2P Require Import Memory.
From S2P Require Import Protocol.
From S2P Require Import State.
From S2P Require Import Messaging.
From S2P Require Import Rma.
From S2P Require Import Addr.
From S2P Require Import Invariant.
From S2P Require Import Progress.
From S2P Require Import Incoming.
From S2P Require Import Sender.
From S2P Require Import EventLoop.
From S2P Require Import System.
From S2P Require Import Node.
From S2P Require Import DemoWorld.

Section Registry.
Context {LP : Libp2p} {OS : Os} {NB : NaBindings}.
Abbreviation MW := (M World).

(** A handle of this process, as opposed to a deserialized one. *)
Definition local_handle (w : World) (p : Z) (h : NaLibp2pMemHandle) : Prop :=
  w_handles w !! p = Some h /\ mh_owner_peer_id h = None.
Definition handle_entry (h : NaLibp2pMemHandle) : MemHandleEntry := mkEntry (mh_buf h) (mh_buf_size h) (mh_flags h).

(** The identifier the next handle gets. *)
Definition next_id (w : World) : Z := from_option cls_next_mem_handle_id 0 (w_class w).

Record registered (w : World) : Prop := mk_registered {
  rg_entry : forall p h, local_handle w p h -> w_registry w !! mh_handle_id h = Some (handle_entry h);
  rg_inj : forall p q h h', local_handle w p h -> local_handle w q h' -> mh_handle_id h = mh_handle_id h' -> p = q;
  rg_owner : forall id e, w_registry w !! id = Some e -> exists p h, local_handle w p h /\ mh_handle_id h = id;
  rg_next : forall id, is_Some (w_registry w !! id) -> id < next_id w;
}.

(** ** Steps that touch none of it *)

Definition handle_state (w : World) := (w_handles w, w_registry w, next_id w).

Lemma registered_ext w w' : kept handle_state w w' -> registered w -> registered w' /\ next_id w' = next_id w.
Proof.
  unfold kept, handle_state. intros H [He Hi Ho Hn]. injection H as Hh Hr Hx. split; [|done].
  assert (Hown : forall p h, local_handle w' p h <-> local_handle w p h) by (intros; unfold local_handle; by rewrite Hh).
  split; rewrite ?Hr, ?Hx; try done.
  - intros p h Hp. by apply (He p), Hown.
  - intros p q h h' Hp Hq. by apply Hi; apply Hown.
  - intros id e Hid. destruct (Ho id e Hid) as (p & h & Hp & Hid'). exists p, h. by rewrite Hown.
Qed.

Definition about_handles (ev : sys_event) : bool :=
  match ev with NaMemHandleCreate _ _ _ | NaMemHandleFree _ | NaMemHandleDeserialize _ _ _ => true | _ => false end.

Lemma other_calls_keep ev : about_handles ev = false -> respects (kept handle_state) (run_sys ev).
Proof.
  intros Hev. assert (Hp : forall n c, respects (kept handle_state) (poll_drain n c)).
  { intros n. apply poll_drain_frame; [apply _|done|]. intros c. frame. }
  destruct ev; try discriminate Hev; cbn [run_sys]; frame.
Qed.

(** ** Creating, freeing and receiving a handle *)

Context {OSL : OsLaws}.

(** A new handle pointer. *)
Lemma local_handle_insert (w : World) f p h0 q h :
  w_handles w !! p = None ->
  local_handle (upd_handles <[p := h0]> (f w)) q h -> w_handles (f w) = w_handles w ->
  (q = p /\ h = h0 /\ mh_owner_peer_id h0 = None) \/ (q <> p /\ local_handle w q h).
Proof.
  intros Hp [Hq Ho] Hf. cbn in Hq. rewrite Hf in Hq. destruct (decide (p = q)) as [<-|Hne].
  - rewrite lookup_insert_eq in Hq. simplify_eq. by left.
  - rewrite lookup_insert_ne in Hq by done. by right.
Qed.

Lemma create_run w b n flags cls :
  w_class w = Some cls ->
  let id := cls_next_mem_handle_id cls in
  let cls' := mkClass (cls_self_addr cls) (wrap 64 (id + 1)) (cls_transport_config cls) (cls_listen_addrs cls) (cls_relay_addr cls) in
  let p := malloc (dom (w_handles w)) in
  na_libp2p_mem_handle_create b n flags w
  = Done (NA_SUCCESS, p) (upd_handles <[p := mkMemHandle b n id flags None]>
      (upd_registry <[id := mkEntry b n flags]> (upd_class (fun _ => Some cls') w))).
Proof. intros Hc. unfold na_libp2p_mem_handle_create, next_handle_id, get_class. unfold_M. by rewrite Hc. Qed.

Lemma create_registered w b n flags r w' :
  registered w -> 0 <= next_id w -> next_id w + 1 < 2 ^ 64 ->
  na_libp2p_mem_handle_create b n flags w = Done r w' -> registered w' /\ next_id w' = next_id w + 1.
Proof.
  intros [He Hi Ho Hn] H0 Hlt Hrun. destruct (w_class w) as [cls|] eqn:Hc.
  2:{ revert Hrun. unfold na_libp2p_mem_handle_create, next_handle_id, get_class. unfold_M. by rewrite Hc. }
  rewrite (create_run w b n flags cls Hc) in Hrun. cbv zeta in Hrun. injection Hrun as _ <-.
  unfold next_id in *. rewrite Hc in *. cbn [from_option] in *. set (id := cls_next_mem_handle_id cls) in *.
  pose proof (malloc_lookup (w_handles w)) as Hp. set (p := malloc (dom (w_handles w))) in *.
  assert (Hid : w_registry w !! id = None) by (apply eq_None_not_Some; intros H; specialize (Hn id H); lia).
  assert (Hw : wrap 64 (id + 1) = id + 1) by (apply wrap_small; unfold in_width; lia).
  assert (Hold : forall q h, local_handle w q h -> mh_handle_id h <> id).
  { intros q h Hq Heq. specialize (He q h Hq). rewrite Heq in He. congruence. }
  split; [|done]. split; cbn; unfold next_id; cbn; rewrite ?Hw.
  - intros q h Hq. apply (local_handle_insert w (fun w => upd_registry _ (upd_class _ w)) p) in Hq; [|done|done].
    destruct Hq as [(-> & -> & _)|[_ Hq]]; [apply lookup_insert_eq|]. rewrite lookup_insert_ne; [by apply (He q)|].
    apply not_eq_sym. by apply (Hold q).
  - intros q q' h h' Hq Hq'. apply (local_handle_insert w (fun w => upd_registry _ (upd_class _ w)) p) in Hq, Hq'; try done.
    destruct Hq as [(-> & -> & _)|[_ Hq]], Hq' as [(-> & -> & _)|[_ Hq']]; try done; cbn; intros Heq.
    + by destruct (Hold q' h' Hq').
    + by destruct (Hold q h Hq).
    + by apply (Hi q q' h h').
  - intros id' e. destruct (decide (id = id')) as [<-|Hne].
    + intros _. exists p. eexists. split; [split; [apply lookup_insert_eq|done]|done].
    + rewrite lookup_insert_ne by done. intros Hid'. destruct (Ho id' e Hid') as (q & h & [Hq Hqo] & Heq). exists q, h.
      split; [|done]. split; [|done]. cbn. rewrite lookup_insert_ne; [done|]. congruence.
  - intros id'. rewrite lookup_insert_is_Some. intros [<-|[_ H]]; [lia|]. specialize (Hn id' H). lia.
Qed.

Lemma local_handle_delete w f p q h :
  w_handles (f w) = delete p (w_handles w) -> local_handle (f w) q h <-> q <> p /\ local_handle w q h.
Proof. intros Hf. unfold local_handle. rewrite Hf, lookup_delete_Some. naive_solver. Qed.

Lemma free_registered w p r w' :
  registered w -> na_libp2p_mem_handle_free p w = Done r w' -> registered w' /\ next_id w' = next_id w.
Proof.
  intros [He Hi Ho Hn] Hrun. destruct (decide (p = null)) as [->|Hnull]; [by injection Hrun as _ <-|].
  revert Hrun. unfold na_libp2p_mem_handle_free. rewrite (proj2 (Z.eqb_neq _ _) Hnull). unfold read_handle, get_class. unfold_M.
  destruct (w_handles w !! p) as [h|] eqn:Hp; [|done]. cbn. destruct (mh_owner_peer_id h) as [o|] eqn:Hown.
  - intros [= _ <-]. split; [|done].
    assert (Hiff : forall q h', local_handle (upd_handles (delete p) w) q h' <-> local_handle w q h').
    { intros q h'. rewrite (local_handle_delete w (upd_handles (delete p)) p) by done. split; [by intros [_ ?]|].
      intros Hq. split; [|done]. intros ->. destruct Hq as [Hq Hq']. congruence. }
    split; [intros q h' Hq%Hiff; by apply (He q)|intros q q' h1 h2 Hq%Hiff Hq'%Hiff; by apply Hi| |exact Hn].
    intros id e Hid. destruct (Ho id e Hid) as (q & h' & Hq & Heq). exists q, h'. by rewrite Hiff.
  - change (w_class (upd_handles (delete p) w)) with (w_class w). destruct (w_class w) as [c|] eqn:Hc; [|done]. intros [= _ <-]. split; [|by unfold next_id; cbn].
    set (f := fun w => upd_registry (delete (mh_handle_id h)) (upd_handles (delete p) w)).
    assert (Hph : local_handle w p h) by done.
    assert (Hiff : forall q h', local_handle (f w) q h' <-> q <> p /\ local_handle w q h') by (intros; by apply local_handle_delete).
    split; cbn.
    + intros q h' [Hne Hq]%Hiff. rewrite lookup_delete_ne; [by apply (He q)|]. intros Heq. by apply Hne, (Hi q p h' h).
    + intros q q' h1 h2 [_ Hq]%Hiff [_ Hq']%Hiff. by apply Hi.
    + intros id e [Hne Hid]%lookup_delete_Some. destruct (Ho id e Hid) as (q & h' & Hq & Heq). exists q, h'. split; [|done].
      apply Hiff. split; [|done]. intros ->. destruct Hq as [Hq _]. congruence.
    + intros id [e [_ Hid]%lookup_delete_Some]. apply Hn. by eexists.
Qed.

(** Only handles of other processes are received. *)
Lemma receive_keeps hp b n w r w' :
  na_libp2p_mem_handle_deserialize hp b n w = Done r w' ->
  w' = w \/ exists h, mh_owner_peer_id h <> None /\ w' = upd_handles <[malloc (dom (w_handles w)) := h]> w.
Proof.
  unfold na_libp2p_mem_handle_deserialize, alloc_handle, slice, copy_from. unfold_M.
  repeat (case_match; try discriminate; cbn [mbind M_bind] in *); intros; simplify_eq; eauto.
  right. eexists. split; [|done]. done.
Qed.

Lemma receive_registered hp b n w r w' :
  registered w -> na_libp2p_mem_handle_deserialize hp b n w = Done r w' -> registered w' /\ next_id w' = next_id w.
Proof.
  intros Hr [->|(h & Ho & ->)]%receive_keeps; [done|]. pose proof (malloc_lookup (w_handles w)) as Hp.
  set (p := malloc (dom (w_handles w))) in *. split; [|done]. destruct Hr as [He Hi Hw Hn].
  assert (Hiff : forall q h', local_handle (upd_handles <[p := h]> w) q h' <-> local_handle w q h').
  { intros q h'. split.
    - intros [(-> & -> & Ho')|[_ Hq]]%(local_handle_insert w id p h); done.
    - intros [Hq Hq']. split; [|done]. cbn. rewrite lookup_insert_ne; [done|]. congruence. }
  split; [intros q h' Hq%Hiff; by apply (He q)|intros q q' h1 h2 Hq%Hiff Hq'%Hiff; by apply Hi| |exact Hn].
  intros id e Hid. destruct (Hw id e Hid) as (q & h' & Hq & Heq). exists q, h'. by rewrite Hiff.
Qed.

(** * Any run *)

Lemma ignore_run {A} (m : MW A) w w' : ignore m w = Done tt w' -> exists a, m w = Done a w'.
Proof. unfold ignore, mbind, M_bind. destruct (m w) as [a w1|]; [|done]. intros [= <-]. eauto. Qed.

(** At most one identifier is used per step. *)
Lemma run_sys_registered ev w w' :
  registered w -> 0 <= next_id w -> next_id w + 1 < 2 ^ 64 -> run_sys ev w = Done tt w' ->
  registered w' /\ next_id w <= next_id w' <= next_id w + 1.
Proof.
  intros Hr H0 Hlt Hrun. destruct (about_handles ev) eqn:E.
  - destruct ev; try discriminate E; cbn [run_sys] in Hrun; try apply ignore_run in Hrun as [r Hrun].
    + destruct (create_registered w buf buf_size flags r w' Hr H0 Hlt Hrun) as [? ->]. split; [done|lia].
    + destruct (free_registered w mem_handle tt w' Hr Hrun) as [? ->]. split; [done|lia].
    + destruct (receive_registered handle_p buf buf_size w r w' Hr Hrun) as [? ->]. split; [done|lia].
  - destruct (registered_ext w w' (other_calls_keep ev E _ _ _ Hrun) Hr) as [? ->]. split; [done|lia].
Qed.

Lemma run_node_registered ev nd nd' :
  registered (nd_world nd) -> 0 <= next_id (nd_world nd) -> next_id (nd_world nd) + 1 < 2 ^ 64 ->
  run_node ev nd = Done tt nd' ->
  registered (nd_world nd') /\ next_id (nd_world nd) <= next_id (nd_world nd') <= next_id (nd_world nd) + 1.
Proof.
  intros Hr H0 Hlt.
  assert (Hsame : forall w', kept handle_state (nd_world nd) w' ->
    registered w' /\ next_id (nd_world nd) <= next_id w' <= next_id (nd_world nd) + 1).
  { intros w' Hk. destruct (registered_ext _ _ Hk Hr) as [? ->]. split; [done|lia]. }
  assert (Hw : forall m ev1, run_sys ev1 = m -> forall nd1, nd_world nd1 = nd_world nd -> on_nd_world m nd1 = Done tt nd' ->
    registered (nd_world nd') /\ next_id (nd_world nd) <= next_id (nd_world nd') <= next_id (nd_world nd) + 1).
  { intros m ev1 <- nd1 Hnd1. unfold on_nd_world. rewrite Hnd1. destruct (run_sys ev1 (nd_world nd)) as [[] w'|] eqn:E; [|done].
    intros [= <-]. by apply (run_sys_registered ev1). }
  assert (Hl : forall v e nd1, kept handle_state (nd_world nd) (nd_world nd1) -> loop_round v e nd1 = Done tt nd' ->
    registered (nd_world nd') /\ next_id (nd_world nd) <= next_id (nd_world nd') <= next_id (nd_world nd) + 1).
  { intros v e nd1 Hk Hrun. destruct (loop_round_run v e nd1) as (nd2 & Hrun' & Hw' & _).
    rewrite Hrun in Hrun'. injection Hrun' as <-. apply Hsame. rewrite Hw'. by case_match. }
  destruct ev as [ev|v|v e|v|i r|self s]; cbn [run_node].
  - by apply (Hw _ ev).
  - mpure. destruct (w_cmds (nd_world nd)) as [|c rest]; [by intros [= <-]; apply Hsame|].
    destruct (lp_running (nd_loop nd)); cbn [when]; [|by intros [= <-]; apply Hsame]. unfold on_nd_world. cbn. by apply Hl.
  - by apply Hl.
  - by apply Hl.
  - mpure. destruct (remove_at i _) as [[t rest]|]; [|by intros [= <-]; apply Hsame]. unfold on_nd_loop. mpure.
    by apply (Hw _ (IoTask t r)).
  - destruct (read_message s) as [[[h payload]|e] s']; [|by intros [= <-]; apply Hsame].
    by apply (Hw _ (IoMessage self h payload)).
Qed.

Lemma run_nodes_registered evs nd nd' :
  registered (nd_world nd) -> 0 <= next_id (nd_world nd) -> next_id (nd_world nd) + len evs < 2 ^ 64 ->
  run_nodes evs nd = Done tt nd' -> registered (nd_world nd').
Proof.
  revert nd. induction evs as [|ev evs IH]; intros nd Hr H0 Hlt; cbn [run_nodes]; [by intros [= <-]|].
  rewrite len_cons in Hlt. pose proof (len_nonneg evs). unfold mbind, M_bind.
  destruct (run_node ev nd) as [[] nd1|] eqn:E; [|done].
  destruct (run_node_registered ev nd nd1 Hr H0 ltac:(lia) E) as [Hr1 Hn1]. apply IH; [done|lia|lia].
Qed.

(** * Theorems *)

(** C12: The registry is exactly the live handles of this process: through any run
    of a node that stays below 2^64 identifiers, every handle the application
    created and did not free is registered with its own buffer, size and flags,
    under an identifier no other such handle has, and the registry holds nothing
    else, so that a peer can only reach memory that is currently exposed. *)
Theorem registry_is_the_live_handles evs nd nd' :
  registered (nd_world nd) -> 0 <= next_id (nd_world nd) -> next_id (nd_world nd) + len evs < 2 ^ 64 ->
  run_nodes evs nd = Done tt nd' ->
  (forall p h, local_handle (nd_world nd') p h -> w_registry (nd_world nd') !! mh_handle_id h = Some (handle_entry h)) /\
  (forall p q h h', local_handle (nd_world nd') p h -> local_handle (nd_world nd') q h' ->
     mh_handle_id h = mh_handle_id h' -> p = q) /\
  (forall id e, w_registry (nd_world nd') !! id = Some e ->
     exists p h, local_handle (nd_world nd') p h /\ mh_handle_id h = id /\ e = handle_entry h).
Proof.
  intros Hr H0 Hlt Hrun. destruct (run_nodes_registered evs nd nd' Hr H0 Hlt Hrun) as [He Hi Ho _].
  split_and!; [done|done|]. intros id e Hid. destruct (Ho id e Hid) as (p & h & Hp & <-). exists p, h.
  split_and!; [done|done|]. specialize (He p h Hp). congruence.
Qed.

End Registry.

Module RegistryDemo.
Import Demo DemoNode NodeDemo.

Lemma start_registered : registered (nd_world start).
Proof.
  assert (Hown : forall p h, local_handle (nd_world start) p h -> p = 70 /\ h = DemoNode.own_handle).
  { intros p h [Hp Ho]. cbn in Hp. rewrite lookup_insert_Some, lookup_singleton_Some in Hp.
    destruct Hp as [[<- <-]|(_ & _ & <-)]; [done|discriminate Ho]. }
  split.
  - intros p h [-> ->]%Hown. cbn. by rewrite lookup_singleton_eq.
  - intros p q h h' [-> _]%Hown [-> _]%Hown _. done.
  - intros id e H. cbn in H. rewrite lookup_singleton_Some in H. destruct H as [<- <-]. exists 70, DemoNode.own_handle.
    split; [split; [apply lookup_insert_eq|done]|done].
  - intros id [e H]. cbn in H. rewrite lookup_singleton_Some in H. destruct H as [<- _]. by vm_compute.
Qed.

Definition create : node_event := NdCall (NaMemHandleCreate 1016 16 0).
Definition created : Node.node := after create start.

Lemma created_run : run_nodes [create] start = Done tt created.
Proof.
  assert (Hok : node_ok start create).
  { split_and!; [done| |done]. cbn. apply mapped_check_sound. by vm_compute. }
  cbn [run_nodes]. by rewrite (bind_Done _ _ _ _ _ (after_runs start create start_inv Hok)).
Qed.

Lemma registry_is_the_live_handles_witness :
  me_buf <$> w_registry (nd_world created) !! 6 = Some 1016 /\
  forall id e, w_registry (nd_world created) !! id = Some e ->
     exists p h, local_handle (nd_world created) p h /\ mh_handle_id h = id /\ e = handle_entry h.
Proof.
  split; [by vm_compute|].
  refine (proj2 (proj2 (registry_is_the_live_handles [create] start created start_registered _ _ created_run))); by vm_compute.
Defined.

End RegistryDemo.
