(* ===== verification/Typing.v ===== *)
(** Machine widths: every number the plugin keeps fits the integer type the code
    declares for it, whatever the peers send and as long as the application
    passes arguments of the declared types; so the headers the plugin builds are
    the ones the peer reads back. *)
From Stdlib Require Import ZArith Lia.
From S2P Require Import Prelude.
From S2P Require Import Frame.
From S2P Require Import RustStr.
From S2P Require Import Libp2p.
From S2P Require Import Memory.
From S2P Require Import Protocol.
From S2P Require Import State.
From S2P Require Import Messaging.
From S2P Require Import Rma.
From S2P Require Import Addr.
From S2P Require Import Invariant.
From S2P Require Import Incoming.
From S2P Require Import Sender.
From S2P Require Import EventLoop.
From S2P Require Import LoopSpec.
From S2P Require Import System.
From S2P Require Import Node.
From S2P Require Import DemoWorld.

Section Typing.
Context {LP : Libp2p} {OS : Os} {NB : NaBindings}.
Abbreviation MW := (M World).
Abbreviation u32 := (in_width 32).
Abbreviation u64 := (in_width 64).

(** * The types of the fields *)

Definition info_typed (i : cb_info) : Prop :=
  match i with
  | info_zeroed => True
  | info_recv_unexpected n _ t => u64 n /\ u32 t
  | info_recv_expected n => u64 n
  end.
Definition op_typed (op : NaLibp2pOpId) : Prop :=
  info_typed (cd_info (op_completion op)) /\ u32 (op_tag op) /\ u64 (op_buf_size op) /\
  u64 (op_local_handle_id op) /\ u64 (op_local_offset op) /\ u64 (op_rma_length op).
Definition handle_typed (h : NaLibp2pMemHandle) : Prop :=
  u64 (mh_buf_size h) /\ u64 (mh_handle_id h) /\ u64 (mh_flags h).
Definition entry_typed (id : Z) (e : MemHandleEntry) : Prop := u64 id /\ u64 (me_buf_size e) /\ u64 (me_flags e).
Definition stash_typed (m : StashedMessage) : Prop := u64 (len (st_payload m)) /\ u32 (st_tag m).
Definition command_typed (c : Command) : Prop :=
  match c with
  | SendMessage _ _ tag payload _ _ => u32 tag /\ u64 (len payload)
  | CmdRmaPut _ data id off _ _ => u64 (len data) /\ u64 id /\ u64 off
  | RmaGetRequest _ id off n lid loff _ _ => u64 id /\ u64 off /\ u64 n /\ u64 lid /\ u64 loff
  | _ => True
  end.
Definition completion_typed (c : CompletionItem) : Prop :=
  match ci_recv_info c with Some i => u64 (ri_actual_size i) /\ u32 (ri_tag i) | None => True end.
Definition class_typed (c : NaLibp2pClass) : Prop := u64 (cls_next_mem_handle_id c).
Definition queues_typed (q : OperationQueues) : Prop :=
  Forall stash_typed (unexpected_msg_stash q) /\ Forall stash_typed (expected_msg_stash q).

Record typed (w : World) : Prop := mk_typed {
  ty_ops : map_Forall (fun _ => op_typed) (w_ops w);
  ty_handles : map_Forall (fun _ => handle_typed) (w_handles w);
  ty_registry : map_Forall entry_typed (w_registry w);
  ty_queues : queues_typed (w_queues w);
  ty_cmds : Forall command_typed (w_cmds w);
  ty_completions : Forall completion_typed (w_completions w);
  ty_class : forall c, w_class w = Some c -> class_typed c;
}.

(** The types of the arguments of a call, and of a message off the wire. *)
Definition event_typed (ev : sys_event) : Prop :=
  match ev with
  | NaSendUnexpected _ _ _ _ n _ t _ | NaSendExpected _ _ _ _ n _ t _ | NaRecvExpected _ _ _ _ n _ t _ => u64 n /\ u32 t
  | NaRecvUnexpected _ _ _ _ n _ => u64 n
  | NaMemHandleCreate _ n flags => u64 n /\ u64 flags
  | NaPut _ _ _ _ lo _ ro n _ _ | NaGet _ _ _ _ lo _ ro n _ _ => u64 lo /\ u64 ro /\ u64 n
  | IoMessage _ h payload => well_formed_message (h, payload)
  | _ => True
  end.

(** * Primitives *)

Abbreviation keeps m := (yields typed m (fun _ => True)).

Lemma typed_upd_mem f w : typed w -> typed (upd_mem f w).
Proof. by intros []. Qed.
Lemma typed_upd_addrs f w : typed w -> typed (upd_addrs f w).
Proof. by intros []. Qed.
Lemma typed_upd_efd f w : typed w -> typed (upd_efd f w).
Proof. by intros []. Qed.
Lemma typed_upd_cbs f w : typed w -> typed (upd_cbs f w).
Proof. by intros []. Qed.
Lemma typed_upd_next_oneshot f w : typed w -> typed (upd_next_oneshot f w).
Proof. by intros []. Qed.
Lemma typed_insert_op p op w : op_typed op -> typed w -> typed (upd_ops <[p := op]> w).
Proof. intros Ho []. split; try done. cbn. by apply map_Forall_insert_2. Qed.
Lemma typed_delete_op p w : typed w -> typed (upd_ops (delete p) w).
Proof. intros []. split; try done. cbn. by apply map_Forall_delete. Qed.
Lemma typed_insert_handle p h w : handle_typed h -> typed w -> typed (upd_handles <[p := h]> w).
Proof. intros Ho []. split; try done. cbn. by apply map_Forall_insert_2. Qed.
Lemma typed_delete_handle p w : typed w -> typed (upd_handles (delete p) w).
Proof. intros []. split; try done. cbn. by apply map_Forall_delete. Qed.
Lemma typed_insert_entry id e w : entry_typed id e -> typed w -> typed (upd_registry <[id := e]> w).
Proof. intros Ho []. split; try done. cbn. by apply map_Forall_insert_2. Qed.
Lemma typed_delete_entry id w : typed w -> typed (upd_registry (delete id) w).
Proof. intros []. split; try done. cbn. by apply map_Forall_delete. Qed.
Lemma typed_upd_queues f w : (queues_typed (w_queues w) -> queues_typed (f (w_queues w))) -> typed w -> typed (upd_queues f w).
Proof. intros Hf []. split; try done. cbn. auto. Qed.
Lemma typed_push_command c w : command_typed c -> typed w -> typed (upd_cmds (fun l => l ++ [c]) w).
Proof. intros Hc []. split; try done. cbn. apply Forall_app. auto. Qed.
Lemma typed_push_completion c w : completion_typed c -> typed w -> typed (upd_completions (fun l => l ++ [c]) w).
Proof. intros Hc []. split; try done. cbn. apply Forall_app. auto. Qed.
Lemma typed_set_completions cs w : Forall completion_typed cs -> typed w -> typed (upd_completions (fun _ => cs) w).
Proof. intros Hc []. split; done. Qed.
Lemma typed_set_class c w : class_typed c -> typed w -> typed (upd_class (fun _ => Some c) w).
Proof. intros Hc []. split; try done. cbn. by intros ? [= <-]. Qed.

#[local] Hint Resolve typed_upd_mem typed_upd_addrs typed_upd_efd typed_upd_cbs typed_upd_next_oneshot typed_insert_op
  typed_delete_op typed_insert_handle typed_delete_handle typed_insert_entry typed_delete_entry typed_upd_queues
  typed_push_command typed_push_completion typed_set_completions typed_set_class : yields.

Lemma get_class_yields : yields typed get_class class_typed.
Proof.
  unfold get_class. apply (yields_bind _ _ _ (fun o => forall c, o = Some c -> class_typed c)).
  - apply yields_gets. apply ty_class.
  - intros o Ho. by apply yields_deref.
Qed.

Lemma read_op_yields p : yields typed (read_op p) op_typed.
Proof.
  unfold read_op. apply (yields_bind _ _ _ (map_Forall (fun _ => op_typed))); [apply yields_gets, ty_ops|].
  intros m Hm. apply yields_deref. intros op. apply Hm.
Qed.

Lemma read_handle_yields p : yields typed (read_handle p) handle_typed.
Proof.
  unfold read_handle. apply (yields_bind _ _ _ (map_Forall (fun _ => handle_typed))); [apply yields_gets, ty_handles|].
  intros m Hm. apply yields_deref. intros h. apply Hm.
Qed.

Lemma read_addr_yields p : keeps (read_addr p).
Proof.
  unfold read_addr. apply (yields_bind _ _ _ (fun _ => True)); [by apply yields_gets|]. intros m _. by apply yields_deref.
Qed.

Lemma update_op_yields p f : (forall op, op_typed op -> op_typed (f op)) -> keeps (update_op p f).
Proof.
  intros Hf. unfold update_op. eapply yields_bind; [apply read_op_yields|]. intros op Hop.
  apply yields_modify; [|done]. intros w. by apply typed_insert_op, Hf.
Qed.

Lemma copy_to_yields p bs : keeps (copy_to p bs).
Proof.
  unfold copy_to. eapply (yields_bind _ _ _ (fun _ => True)); [by apply yields_gets|]. intros m _.
  eapply (yields_bind _ _ _ (fun _ => True)); [by apply yields_deref|]. intros m' _.
  apply yields_modify; [|done]. intros w. apply typed_upd_mem.
Qed.

Lemma mem_load_length m p n bs : mem_load m p n = Some bs -> length bs = n.
Proof.
  intros H. destruct (mem_load_spec m p n (mem_load_Some_mapped m p n bs H)) as (bs' & H' & Hl & _). congruence.
Qed.

Lemma copy_from_yields p n : u64 n -> yields typed (copy_from p n) (fun d => len d = n).
Proof.
  intros Hn. unfold copy_from. apply (yields_bind _ _ _ (fun _ => True)); [by apply yields_gets|]. intros m _.
  apply yields_deref. intros d Hd%mem_load_length. unfold len. unfold in_width in Hn. lia.
Qed.

Lemma send_command_yields c : command_typed c -> keeps (send_command c).
Proof.
  intros Hc. unfold send_command. apply (yields_bind _ _ _ (fun _ => True)); [by apply yields_gets|]. intros alive _.
  apply yields_when, yields_modify; [|done]. intros w. by apply typed_push_command.
Qed.

Lemma send_completion_yields c : completion_typed c -> keeps (send_completion c).
Proof.
  intros Hc. unfold send_completion. apply (yields_bind _ _ _ (fun _ => True)); [by apply yields_gets|].
  intros [cls|] _; [|by apply yields_ret]. apply yields_modify; [|done]. intros w. by apply typed_push_completion.
Qed.

Lemma payload_yields (b : bool) p n :
  u64 n -> yields typed (if b then copy_from p n else mret []) (fun d => u64 (len d)).
Proof.
  intros Hn. destruct b; [|by apply yields_ret]. eapply yields_mono; [by apply copy_from_yields|]. by intros d ->.
Qed.

Lemma queues_yields : yields typed (gets w_queues) queues_typed.
Proof. apply yields_gets, ty_queues. Qed.
Lemma registry_yields : yields typed (gets w_registry) (map_Forall entry_typed).
Proof. apply yields_gets, ty_registry. Qed.
Lemma completions_yields : yields typed (gets w_completions) (Forall completion_typed).
Proof. apply yields_gets, ty_completions. Qed.
Lemma signal_yields : keeps signal_eventfd.
Proof. apply yields_modify; [|done]. apply typed_upd_efd. Qed.
Lemma drain_yields : keeps drain_eventfd.
Proof. apply yields_modify; [|done]. apply typed_upd_efd. Qed.
Lemma cb_add_yields c p : keeps (na_cb_completion_add c p).
Proof. apply yields_modify; [|done]. apply typed_upd_cbs. Qed.
Lemma alloc_boxed_yields peer ma self : keeps (alloc_boxed peer ma self).
Proof. intros w a w' Hw [= <- <-]. split; [|done]. by apply typed_upd_addrs. Qed.
Lemma alloc_handle_yields h : handle_typed h -> keeps (alloc_handle h).
Proof. intros Hh w a w' Hw [= <- <-]. split; [|done]. by apply typed_insert_handle. Qed.
Lemma read_cstr_yields p : keeps (read_cstr p).
Proof. apply yields_stable. frame. Qed.
Lemma find_stashed_yields t src l : keeps (find_stashed t src l).
Proof. apply yields_stable. frame. Qed.
Lemma find_recv_yields h e l : keeps (find_recv h e l).
Proof. apply yields_stable. frame. Qed.

#[local] Hint Resolve get_class_yields read_op_yields read_handle_yields read_addr_yields copy_to_yields
  queues_yields registry_yields completions_yields signal_yields drain_yields cb_add_yields alloc_boxed_yields
  alloc_handle_yields read_cstr_yields find_stashed_yields find_recv_yields payload_yields copy_from_yields
  send_command_yields send_completion_yields update_op_yields : yields.

Lemma copy_payload_yields payload b n : keeps (copy_payload payload b n).
Proof. unfold copy_payload. repeat yields_step. Qed.
#[local] Hint Resolve copy_payload_yields : yields.

(** The side conditions: an operation with some fields changed, a queue with
    something added or taken, an argument of its declared type. *)
Ltac typing_side :=
  lazymatch goal with
  | |- True => exact I
  | |- yields _ (update_op _ _) _ =>
      refine (update_op_yields _ _ _); intros ? (? & ? & ? & ? & ? & ?); unfold op_typed; cbn; split_and!; try done
  | |- typed (upd_queues _ _) =>
      refine (typed_upd_queues _ _ _ _); [intros [? ?]; split; cbn; try done|done]
  | |- typed (upd_ops <[_ := _]> _) => refine (typed_insert_op _ _ _ _ _); [|done]
  | |- typed _ => solve [eauto 2 with yields nocore]
  | |- yields _ (send_command _) _ => refine (send_command_yields _ _); cbn; split_and?; try done
  | |- yields _ (send_completion _) _ => refine (send_completion_yields _ _); cbn; split_and?; try done
  | |- yields _ (alloc_handle _) _ => refine (alloc_handle_yields _ _); unfold handle_typed; cbn; split_and?; try done
  end.
Ltac typing := repeat first [yields_step | typing_side].

Lemma op_create_yields : keeps na_libp2p_op_create.
Proof. unfold na_libp2p_op_create. intros w a w' Hw [= <- <-]. split; [|done]. by apply typed_insert_op. Qed.

Lemma op_destroy_yields p : keeps (na_libp2p_op_destroy p).
Proof. unfold na_libp2p_op_destroy. typing. Qed.

Lemma send_unexpected_yields c cb arg b n d t p :
  u64 n -> u32 t -> keeps (na_libp2p_msg_send_unexpected c cb arg b n d t p).
Proof. intros Hn Ht. unfold na_libp2p_msg_send_unexpected. typing. Qed.

Lemma send_expected_yields c cb arg b n d t p :
  u64 n -> u32 t -> keeps (na_libp2p_msg_send_expected c cb arg b n d t p).
Proof. intros Hn Ht. unfold na_libp2p_msg_send_expected. typing. Qed.

(** A message taken out of a stash. *)
Lemma unexpected_stash_typed q s l :
  queues_typed q -> unexpected_msg_stash q = s :: l -> stash_typed s /\ Forall stash_typed l.
Proof. intros [Hu _] E. rewrite E in Hu. by apply Forall_cons. Qed.

Lemma remove_at_Forall {A} (P : A -> Prop) i l x r : remove_at i l = Some (x, r) -> Forall P l -> P x /\ Forall P r.
Proof.
  revert i r. induction l as [|y l IH]; intros i r; [by destruct i|]. destruct i as [|i]; cbn.
  - intros [= -> ->]. apply Forall_cons.
  - destruct (remove_at i l) as [[z r']|] eqn:E; [|done]. intros [= -> <-]. rewrite !Forall_cons. intros [Hy Hl].
    by destruct (IH _ _ E Hl).
Qed.

Lemma recv_unexpected_yields c cb arg b n p : u64 n -> keeps (na_libp2p_msg_recv_unexpected c cb arg b n p).
Proof.
  intros Hn. unfold na_libp2p_msg_recv_unexpected. typing;
    match goal with H : queues_typed _, E : _ = _ :: _ |- _ => destruct (unexpected_stash_typed _ _ _ H E) as [[? ?] ?] end; done.
Qed.

Lemma recv_expected_yields c cb arg b n src t p :
  u64 n -> u32 t -> keeps (na_libp2p_msg_recv_expected c cb arg b n src t p).
Proof.
  intros Hn Ht. unfold na_libp2p_msg_recv_expected, free_addr. typing; simplify_eq;
    match goal with H : queues_typed _, E : remove_at _ _ = _ |- _ => destruct (remove_at_Forall _ _ _ _ _ E (proj2 H)) as [[? ?] ?] end; done.
Qed.

Definition opt_completion_typed (c : option CompletionItem) : Prop := forall x, c = Some x -> completion_typed x.

Lemma complete_yields c : opt_completion_typed c -> keeps (complete c).
Proof.
  intros Hc. unfold complete. destruct c as [x|]; [|by apply yields_ret]. specialize (Hc x eq_refl). cbn. typing.
Qed.
#[local] Hint Resolve complete_yields : yields.

Lemma match_incoming_yields h payload expected :
  well_formed_message (h, payload) -> yields typed (match_incoming h payload expected) opt_completion_typed.
Proof.
  intros [(Ht & Hs & _) Hp]. cbn in Ht, Hs, Hp.
  assert (Hl : u64 (len payload)) by (rewrite <-Hp; unfold in_width in *; lia).
  assert (Hst : forall a, stash_typed (mkStashed payload a (tag h))) by (intros; by split).
  assert (Hn : opt_completion_typed None) by done.
  unfold match_incoming. typing; destruct expected; cbn; try done; try apply Forall_app; auto; try (intros x [= <-]; by split).
Qed.

Lemma incoming_msg_yields h payload expected :
  well_formed_message (h, payload) -> keeps (handle_incoming_msg h payload expected).
Proof. intros Hm. eapply yields_bind; [by apply match_incoming_yields|]. apply complete_yields. Qed.

Lemma poll_one_yields c : completion_typed c -> keeps (poll_one c).
Proof.
  intros Hc. unfold poll_one, completion_typed, free_addr in *. typing; by destruct Hc.
Qed.
#[local] Hint Resolve poll_one_yields : yields.

Lemma try_recv_yields : yields typed try_recv opt_completion_typed.
Proof.
  unfold try_recv. eapply yields_bind; [apply completions_yields|]. intros [|c rest] Hf; [by apply yields_ret|].
  apply Forall_cons in Hf as [Hc Hr]. typing. by intros x [= <-].
Qed.

Lemma poll_drain_yields fuel count : keeps (poll_drain fuel count).
Proof.
  revert count. induction fuel as [|fuel IH]; intros count; [by apply yields_ret|]. rewrite poll_drain_S.
  eapply yields_bind; [apply try_recv_yields|]. intros [c|] Hc; [|by apply yields_ret].
  specialize (Hc c eq_refl). typing.
Qed.
#[local] Hint Resolve poll_drain_yields : yields.

Lemma poll_yields : keeps na_libp2p_poll.
Proof. rewrite na_libp2p_poll_eq. typing. Qed.

Lemma cancel_yields c p : keeps (na_libp2p_cancel c p).
Proof. unfold na_libp2p_cancel, complete_canceled. typing. Qed.

Lemma wrap_u64 z : u64 (wrap 64 z).
Proof. by apply wrap_in_width. Qed.
#[local] Hint Resolve wrap_u64 : yields.

Lemma next_handle_id_yields : yields typed next_handle_id u64.
Proof. unfold next_handle_id. typing; [|done]. apply typed_set_class; [apply wrap_u64|done]. Qed.
#[local] Hint Resolve next_handle_id_yields : yields.

Lemma mem_handle_create_yields b n flags : u64 n -> u64 flags -> keeps (na_libp2p_mem_handle_create b n flags).
Proof.
  intros Hn Hf. unfold na_libp2p_mem_handle_create. typing. by apply typed_insert_entry.
Qed.

Lemma mem_handle_free_yields h : keeps (na_libp2p_mem_handle_free h).
Proof. unfold na_libp2p_mem_handle_free. typing. Qed.

Lemma from_be_bytes_width b n : length b = n -> in_width (8 * Z.of_nat n) (from_be_bytes b).
Proof.
  intros <-. pose proof (from_be_bytes_range b) as H. unfold in_width, len in *.
  replace (256 ^ Z.of_nat (length b)) with (2 ^ (8 * Z.of_nat (length b))) in H; [done|].
  by rewrite Z.pow_mul_r by lia.
Qed.

Lemma mem_handle_deserialize_yields hp b n : keeps (na_libp2p_mem_handle_deserialize hp b n).
Proof.
  unfold na_libp2p_mem_handle_deserialize. typing; [apply yields_stable; frame|..]; by apply (from_be_bytes_width _ 8).
Qed.

Lemma handle_id_typed h : handle_typed h -> u64 (mh_handle_id h).
Proof. by intros (_ & ? & _). Qed.

Lemma put_yields c cb arg lh lo rh ro n a p :
  u64 lo -> u64 ro -> u64 n -> keeps (na_libp2p_put c cb arg lh lo rh ro n a p).
Proof. intros Hlo Hro Hn. unfold na_libp2p_put. typing; by apply handle_id_typed. Qed.

Lemma get_yields c cb arg lh lo rh ro n a p :
  u64 lo -> u64 ro -> u64 n -> keeps (na_libp2p_get c cb arg lh lo rh ro n a p).
Proof. intros Hlo Hro Hn. unfold na_libp2p_get. typing; by apply handle_id_typed. Qed.

Lemma addr_lookup_yields answer name : keeps (na_libp2p_addr_lookup answer name).
Proof. unfold na_libp2p_addr_lookup, new_oneshot. typing. by apply yields_gets. Qed.

Lemma addr_deserialize_yields ap b n : keeps (na_libp2p_addr_deserialize ap b n).
Proof. unfold na_libp2p_addr_deserialize. typing; apply yields_stable; frame. Qed.

Lemma addr_free_yields a : keeps (na_libp2p_addr_free a).
Proof. unfold na_libp2p_addr_free, free_addr. typing. Qed.

Lemma addr_self_yields : keeps na_libp2p_addr_self.
Proof. unfold na_libp2p_addr_self, addr_dup. typing. Qed.

Lemma addr_dup_yields a : keeps (na_libp2p_addr_dup a).
Proof. unfold na_libp2p_addr_dup, addr_dup. typing. Qed.

(** ** The handlers *)

Lemma copy_into_entry_yields e off payload : keeps (copy_into_entry e off payload).
Proof. unfold copy_into_entry. typing. Qed.
#[local] Hint Resolve copy_into_entry_yields : yields.

Lemma rma_put_yields h payload : keeps (handle_rma_put h payload).
Proof. unfold handle_rma_put. typing. Qed.

(** A response has a header of the declared types, and announces the payload it
    carries unless the buffer asked for has four gigabytes or more. *)
Definition response_typed (r : option (WireHeader * list byte)) : Prop :=
  forall h data, r = Some (h, data) -> header_in_range h /\ (len data < 2 ^ 32 -> well_formed_message (h, data)).

Lemma response_header_typed self h data :
  header_in_range h -> u64 (len data) ->
  response_typed (Some (mkWireHeader RmaGetResp 0 (wrap 32 (len data)) self
            (handle_id h) (offset h) (len data) (local_handle_id h) (local_offset h), data)).
Proof.
  intros (_ & _ & ? & ? & _ & ? & ?) Hd h' d [= <- <-].
  assert (Hr : header_in_range (mkWireHeader RmaGetResp 0 (wrap 32 (len data)) self
            (handle_id h) (offset h) (len data) (local_handle_id h) (local_offset h))).
  { unfold header_in_range. cbn. split_and!; try done. by apply wrap_in_width. }
  split; [done|]. intros Hl. split; [done|]. cbn. apply wrap_small. unfold in_width in *. lia.
Qed.

Lemma rma_get_request_yields self h :
  header_in_range h -> yields typed (handle_rma_get_request self h) response_typed.
Proof.
  intros Hh. pose proof Hh as (_ & _ & _ & [Ho _] & [Hn Hn'] & _). unfold handle_rma_get_request.
  eapply yields_bind; [apply registry_yields|]. intros reg Hreg. destruct (reg !! handle_id h) as [e|] eqn:E; [|by apply yields_ret].
  destruct (Hreg _ _ E) as (_ & [Hs Hs'] & _). cbv zeta. eapply yields_bind; [apply payload_yields|].
  - unfold in_width, saturating_sub. lia.
  - intros data Hd. apply yields_ret. by apply response_header_typed.
Qed.

Lemma match_get_response_yields h payload : yields typed (match_get_response h payload) opt_completion_typed.
Proof.
  assert (Hn : opt_completion_typed None) by done.
  unfold match_get_response. typing; try (apply yields_stable; frame); by intros x [= <-].
Qed.

Lemma rma_get_response_yields h payload : keeps (handle_rma_get_response h payload).
Proof.
  unfold handle_rma_get_response. eapply yields_bind; [apply match_get_response_yields|]. apply complete_yields.
Qed.

Lemma dispatch_yields self h payload :
  well_formed_message (h, payload) -> yields typed (dispatch self h payload) response_typed.
Proof.
  intros Hm. unfold dispatch.
  destruct (msg_type h);
    try (eapply yields_bind; [first [by apply incoming_msg_yields|apply rma_put_yields|apply rma_get_response_yields]
                             |intros _ _; by apply yields_ret]).
  apply rma_get_request_yields, Hm.
Qed.

Lemma run_task_yields t r : keeps (run_task t r).
Proof.
  unfold run_task. apply complete_yields. unfold task_completion. case_match; [done|]. by intros x [= <-].
Qed.

#[local] Hint Resolve op_create_yields op_destroy_yields send_unexpected_yields send_expected_yields
  recv_unexpected_yields recv_expected_yields poll_yields cancel_yields mem_handle_create_yields mem_handle_free_yields
  mem_handle_deserialize_yields put_yields get_yields addr_lookup_yields addr_deserialize_yields addr_free_yields
  addr_self_yields addr_dup_yields dispatch_yields run_task_yields : yields.

Lemma ignore_yields {A} (m : MW A) Q : yields typed m Q -> keeps (ignore m).
Proof. intros H. unfold ignore. eapply yields_bind; [exact H|]. intros a _. by apply yields_ret. Qed.

(** The calls that read write at most into a buffer of the caller. *)
#[local] Hint Extern 0 (stable typed _ (upd_mem _ _)) => exact (typed_upd_mem _ _) : frame.

Lemma run_sys_typed ev : event_typed ev -> keeps (run_sys ev).
Proof.
  intros Hev. destruct ev; cbn [run_sys event_typed] in *; destruct_and?;
    first [solve [eauto with yields] | solve [eapply ignore_yields; eauto with yields] | apply yields_stable; frame].
Qed.

(** * Messages on their way out *)

(** The header fits the wire, and announces the payload unless that has four
    gigabytes or more. *)
Definition outbound_typed (m : OutboundMsg) : Prop :=
  header_in_range (ob_header m) /\ (len (ob_payload m) < 2 ^ 32 -> payload_size (ob_header m) = len (ob_payload m)).
Definition pool_typed (p : PeerSenderPool) : Prop :=
  forall c ch, pool_chans p !! c = Some ch -> Forall outbound_typed (ch_msgs ch).

Lemma announced n : u64 n -> n < 2 ^ 32 -> wrap 32 n = n.
Proof. intros Hn Hl. apply wrap_small. unfold in_width in *. lia. Qed.

(** The message of a command of the declared types. *)
Lemma command_message_typed c peer h payload rx :
  command_typed c -> command_message c = Some (peer, (h, payload)) -> outbound_typed (mkOutbound h payload rx).
Proof.
  intros Hc Hm. destruct c; cbn in Hm; try done; injection Hm as <- <- <-; cbn in Hc; destruct_and?;
    (split; [unfold header_in_range; cbn; split_and!; try done; by apply wrap_in_width|cbn; intros; by first [done|apply announced]]).
Qed.

Lemma get_or_create_typed peer p : pool_typed p -> pool_typed (get_or_create peer p).2.
Proof.
  intros H. unfold get_or_create. repeat case_match; cbn; try done; intros c ch; cbn;
    (destruct (decide (pool_next p = c)) as [<-|]; [rewrite lookup_insert_eq; by intros [= <-]|
     rewrite lookup_insert_ne by done; apply H]).
Qed.

Lemma chan_send_typed c m p : outbound_typed m -> pool_typed p -> pool_typed (chan_send c m p).
Proof.
  intros Hm H. unfold chan_send. destruct (pool_chans p !! c) as [ch|] eqn:E; [|done]. destruct (ch_closed ch); [done|].
  intros d ch'. cbn. destruct (decide (c = d)) as [<-|]; [rewrite lookup_insert_eq|rewrite lookup_insert_ne by done; apply H].
  intros [= <-]. cbn. apply Forall_app. split; [by apply (H c)|]. by apply Forall_singleton.
Qed.

Lemma enqueue_typed peer h payload op g l :
  outbound_typed (mkOutbound h payload (Some (lp_next_result l))) -> pool_typed (lp_pool l) ->
  pool_typed (lp_pool (enqueue peer h payload op g l)).
Proof.
  intros Hm Hl. unfold enqueue. pose proof (get_or_create_typed peer _ Hl) as H.
  destruct (get_or_create peer (lp_pool l)) as [c p']. cbn. by apply chan_send_typed.
Qed.

Lemma command_pool_typed v c l :
  command_typed c -> pool_typed (lp_pool l) -> pool_typed (lp_pool (handle_command v (Some c) l)).
Proof.
  intros Hc Hl. pose proof (fun peer h payload rx => command_message_typed c peer h payload rx Hc) as Hm.
  destruct c; cbn [handle_command]; try done;
    try (apply enqueue_typed; [by eapply Hm|by rewrite (proj1 (lp_pool_dial _ _ _))]).
  by case_match.
Qed.

Lemma answer_pool tx r l : lp_pool (answer tx r l) = lp_pool l.
Proof. by destruct tx. Qed.

Lemma swarm_pool_typed relay e l : pool_typed (lp_pool l) -> pool_typed (lp_pool (handle_swarm_event relay e l)).
Proof.
  intros Hl. destruct e as [peer relayed remote|peer n|[peer|]|peer ok| |]; cbn [handle_swarm_event]; try done;
    repeat case_match; rewrite ?answer_pool; done.
Qed.

Lemma expire_pool ps l : lp_pool (foldl (fun l p => expire_one p l) l ps) = lp_pool l.
Proof.
  revert l. induction ps as [|p ps IH]; intros l; cbn; [done|]. rewrite IH. unfold expire_one. case_match; [|done].
  by rewrite answer_pool.
Qed.

Lemma loop_step_pool_typed relay v e l :
  (forall c, e = LeCommand (Some c) -> command_typed c) -> pool_typed (lp_pool l) ->
  pool_typed (lp_pool (loop_step relay v e l)).
Proof.
  intros He Hl. unfold loop_step. destruct (lp_running l); [|done]. destruct e as [e|[c|]|].
  - by apply swarm_pool_typed.
  - apply command_pool_typed; auto.
  - done.
  - unfold handle_timer. by rewrite expire_pool.
Qed.

(** * A node *)

Definition node_typed (nd : node) : Prop := typed (nd_world nd) /\ pool_typed (lp_pool (nd_loop nd)).
Definition node_event_typed (ev : node_event) : Prop :=
  match ev with NdCall ev => event_typed ev | _ => True end.

Lemma typed_set_commands cs w : Forall command_typed cs -> typed w -> typed (upd_cmds (fun _ => cs) w).
Proof. intros Hc []. by split. Qed.
Lemma typed_drop_commands w : typed w -> typed (drop_commands w).
Proof. intros []. by split. Qed.

Lemma on_nd_world_typed m nd nd' :
  keeps m -> node_typed nd -> on_nd_world m nd = Done tt nd' -> node_typed nd'.
Proof.
  intros Hm [Hw Hl]. unfold on_nd_world. destruct (m (nd_world nd)) as [[] w'|] eqn:E; [|done]. intros [= <-].
  destruct (Hm _ _ _ Hw E). by split.
Qed.

Lemma loop_round_typed v e nd nd' :
  (forall c, e = LeCommand (Some c) -> command_typed c) -> node_typed nd ->
  loop_round v e nd = Done tt nd' -> node_typed nd'.
Proof.
  intros He [Hw Hl] Hrun. destruct (loop_round_run v e nd) as (nd1 & Hrun' & Hw1 & Hl1).
  rewrite Hrun in Hrun'. injection Hrun' as <-. split.
  - rewrite Hw1. case_match; [done|by apply typed_drop_commands].
  - rewrite Hl1. by apply loop_step_pool_typed.
Qed.

Lemma run_node_typed ev nd nd' :
  node_event_typed ev -> node_typed nd -> run_node ev nd = Done tt nd' -> node_typed nd'.
Proof.
  intros Hev Hn. destruct ev as [ev|v|v e|v|i r|self s]; cbn [run_node].
  - apply on_nd_world_typed; [by apply run_sys_typed|done].
  - mpure. destruct (w_cmds (nd_world nd)) as [|c rest] eqn:Ec; [by intros [= <-]|].
    destruct (lp_running (nd_loop nd)); cbn [when]; [|by intros [= <-]]. unfold on_nd_world at 1. cbn.
    destruct Hn as [Hw Hl]. pose proof (ty_cmds _ Hw) as Hc. rewrite Ec in Hc. apply Forall_cons in Hc as [Hc Hr].
    apply loop_round_typed; [by intros ? [= <-]|]. split; [|done]. by apply typed_set_commands.
  - by apply loop_round_typed.
  - by apply loop_round_typed.
  - mpure. destruct (remove_at i _) as [[t rest]|]; [|by intros [= <-]]. unfold on_nd_loop. mpure.
    apply on_nd_world_typed; [apply run_task_yields|done].
  - destruct (read_message s) as [[[h payload]|e] s'] eqn:E; [|by intros [= <-]].
    apply on_nd_world_typed; [|done]. eapply ignore_yields, dispatch_yields.
    apply read_message_inv in E as (? & ? & _). by split.
Qed.

Lemma run_nodes_typed evs nd nd' :
  Forall node_event_typed evs -> node_typed nd -> run_nodes evs nd = Done tt nd' -> node_typed nd'.
Proof.
  intros Hevs. revert nd. induction Hevs as [|ev evs Hev Hevs IH]; intros nd Hn; cbn; [by intros [= <-]|].
  unfold mbind, M_bind. destruct (run_node ev nd) as [[] nd1|] eqn:E; [|done]. apply IH. by eapply run_node_typed.
Qed.

(** * Theorems *)

(** C14: Types are preserved: from a state in which every number fits its declared
    type, through any run of a node with arguments of the declared types and with
    any bytes from the peers, tags stay 32-bit and sizes, offsets, flags and
    handle identifiers 64-bit everywhere the plugin keeps them (operations,
    handles, registry, stashes, channels). *)
Theorem node_stays_typed evs nd nd' :
  Forall node_event_typed evs -> node_typed nd -> run_nodes evs nd = Done tt nd' -> node_typed nd'.
Proof. apply run_nodes_typed. Qed.

Context {LPL : Libp2pLaws}.

(** Every message a node hands to a sender channel, in any run, is read back
    by the peer as it was built, and the next message starts right behind it, as
    long as its payload is shorter than four gigabytes. *)
Theorem outgoing_messages_readable evs nd nd' c ch m rest e :
  Forall node_event_typed evs -> node_typed nd -> run_nodes evs nd = Done tt nd' ->
  pool_chans (lp_pool (nd_loop nd')) !! c = Some ch -> m ∈ ch_msgs ch -> len (ob_payload m) < 2 ^ 32 ->
  read_message (mk_rstream (encode_message (ob_header m) (ob_payload m) ++ rest) e)
  = (IOk (ob_header m, ob_payload m), mk_rstream rest e).
Proof.
  intros Hevs Hn Hrun Hc Hm Hl. destruct (run_nodes_typed _ _ _ Hevs Hn Hrun) as [_ Hp].
  pose proof (proj1 (Forall_forall _ _) (Hp c ch Hc) m Hm) as [Hh Hsize].
  by apply (read_message_reads (ob_header m) (ob_payload m) Hh (Hsize Hl)).
Qed.

End Typing.

Module TypingDemo.
Import Demo DemoNode NodeDemo.

Lemma start_typed : node_typed start.
Proof.
  split.
  - split; cbn; try done.
    + repeat (apply map_Forall_insert_2; [vm_compute; repeat split; discriminate|]). apply map_Forall_empty.
    + intros p h. rewrite lookup_insert_Some, lookup_singleton_Some. intros [[_ <-]|[_ [_ <-]]]; vm_compute; repeat split; discriminate.
    + intros id x. rewrite lookup_singleton_Some. intros [<- <-]. vm_compute. repeat split; discriminate.
    + intros c [= <-]. vm_compute. repeat split; discriminate.
  - intros c ch H. cbn in H. by rewrite lookup_empty in H.
Qed.

Definition two_steps : list node_event := [send; NdCommand view].

Lemma two_steps_typed : Forall node_event_typed two_steps.
Proof. repeat constructor; vm_compute; first [discriminate | reflexivity]. Qed.

Lemma two_steps_run : run_nodes two_steps start = Done tt taken.
Proof.
  unfold two_steps. cbn [run_nodes]. rewrite (bind_Done _ _ _ _ _ (after_runs start send start_inv send_allowed)).
  by rewrite (bind_Done _ _ _ _ _ (after_runs sent (NdCommand view) sent_inv I)).
Qed.

Lemma node_stays_typed_witness : node_typed taken.
Proof. exact (node_stays_typed two_steps start taken two_steps_typed start_typed two_steps_run). Defined.

Definition message : OutboundMsg := mkOutbound (send_header Unexpected 3 [x41; x42; x43; x44] self) [x41; x42; x43; x44] (Some 0%nat).

Lemma outgoing_messages_readable_witness :
  read_message (mk_rstream (encode_message (ob_header message) (ob_payload message) ++ [x01]) UnexpectedEof)
  = (IOk (ob_header message, ob_payload message), mk_rstream [x01] UnexpectedEof).
Proof.
  refine (outgoing_messages_readable two_steps start taken 0 (mkChannel alice [message] false) message [x01] UnexpectedEof
    two_steps_typed start_typed two_steps_run _ _ _).
  - vm_cast_no_check (eq_refl (Some (mkChannel alice [message] false))).
  - by apply list_elem_of_singleton.
  - reflexivity.
Defined.

End TypingDemo.
