(* ===== verification/Network.v ===== *)
(** Several nodes and the streams between them: the writer tasks of the sender
    pools (one pool for the commands, one for the responses to gets), the
    streams they open, and the handlers that read these streams at the other
    end.  Any step of any task of any node may come next; when streams break and
    what the swarms report is up to the environment. *)
From Stdlib Require Import ZArith Lia.
From S2P Require Import Prelude.
From S2P Require Import Frame.
From S2P Require Import RustStr.
From S2P Require Import Libp2p.
From S2P Require Import Memory.
From S2P Require Import Protocol.
From S2P Require Import State.
From S2P Require Import Messaging.
From S2P Require Import Rma.
From S2P Require Import Addr.
From S2P Require Import Invariant.
From S2P Require Import Incoming.
From S2P Require Import Sender.
From S2P Require Import EventLoop.
From S2P Require Import LoopSpec.
From S2P Require Import System.
From S2P Require Import Node.
From S2P Require Import Typing.
From S2P Require Import DemoWorld.

Section Network.
Context {LP : Libp2p} {OS : Os} {NB : NaBindings}.
Abbreviation message := (WireHeader * list byte)%type.

(** * State *)

(** A writer task: how many messages of its channel it has taken. *)
Record wtask := mkWTask { wt_taken : nat; wt_writer : writer }.
Definition wtask_new : wtask := mkWTask 0 (writer_new []).

(** A node with its two pools (the commands' one is in the loop); tasks and
    results are named by their pool ([true] for the responses) and number. *)
Record host := mkHost {
  ho_node : node;
  ho_resp : PeerSenderPool;
  ho_tasks : gmap (bool * nat) wtask;
  ho_results : gmap (bool * nat) send_result;
  ho_next_resp : nat;
}.

Definition host_pool (resp : bool) (h : host) : PeerSenderPool :=
  if resp then ho_resp h else lp_pool (nd_loop (ho_node h)).
Definition host_task (resp : bool) (c : nat) (h : host) : wtask := default wtask_new (ho_tasks h !! (resp, c)).

(** A stream: the host that opened it, the pool and channel of its writer, and
    its number among the streams of that writer. *)
Definition stream_id : Type := PeerId * (bool * nat) * nat.

(** The handler of a stream: reading, awaiting the result of a response, or
    done; [rd_log] records what it dispatched. *)
Inductive reader_state := Reading | Awaiting (rx : nat) | Finished.
Record reader := mkReader { rd_pos : nat; rd_state : reader_state; rd_log : list message }.
Definition reader_new : reader := mkReader 0 Reading [].

Record network := mkNet {
  nw_hosts : gmap PeerId host;
  nw_readers : gmap stream_id reader;
}.
Abbreviation MNet := (M network).

Definition net_reader (sid : stream_id) (nw : network) : reader := default reader_new (nw_readers nw !! sid).

Definition set_host (p : PeerId) (h : host) (nw : network) : network := mkNet (<[p := h]> (nw_hosts nw)) (nw_readers nw).
Definition set_reader (sid : stream_id) (r : reader) (nw : network) : network :=
  mkNet (nw_hosts nw) (<[sid := r]> (nw_readers nw)).
Definition set_node (nd : node) (h : host) : host :=
  mkHost nd (ho_resp h) (ho_tasks h) (ho_results h) (ho_next_resp h).

(** The bytes of a stream and the peer that reads them. *)
Definition stream_at (sid : stream_id) (nw : network) : option (PeerId * wstream) :=
  let '(p, (resp, c), i) := sid in
  h ← nw_hosts nw !! p;
  ch ← pool_chans (host_pool resp h) !! c;
  st ← wr_streams (wt_writer (host_task resp c h)) !! i;
  Some (ch_peer ch, st).

(** * Steps *)

(** Runs a step of the node of [p]; nothing happens when there is no such host. *)
Definition on_host {A} (p : PeerId) (m : M node A) (k : A -> network -> network) : MNet unit := fun nw =>
  match nw_hosts nw !! p with
  | None => Done tt nw
  | Some h =>
      match m (ho_node h) with
      | Done a nd => Done tt (k a (set_host p (set_node nd h) nw))
      | Fault f => Fault f
      end
  end.

(** The writer task of a channel sends its next message; [opens] is how the
    streams it may have to open behave. *)
Definition host_write (resp : bool) (c : nat) (opens : list (option (option nat * option nat))) (h : host) : host :=
  match pool_chans (host_pool resp h) !! c with
  | None => h
  | Some ch =>
      let t := host_task resp c h in
      match ch_msgs ch !! wt_taken t with
      | None => h
      | Some msg =>
          let w := wt_writer t in
          let '(r, w') := send_one_message (ob_header msg) (ob_payload msg)
                            (mkWriter (wr_stream w) (wr_dropped w) opens (wr_slept w)) in
          mkHost (ho_node h) (ho_resp h) (<[(resp, c) := mkWTask (S (wt_taken t)) w']> (ho_tasks h))
            (match ob_result_tx msg with Some rx => <[(resp, rx) := r]> (ho_results h) | None => ho_results h end)
            (ho_next_resp h)
      end
  end.

(** The response to a get goes to the pool of the responses. *)
Definition host_respond (dest : PeerId) (m : message) (h : host) : host :=
  let '(c, pool) := get_or_create dest (ho_resp h) in
  mkHost (ho_node h) (chan_send c (mkOutbound m.1 m.2 (Some (ho_next_resp h))) pool) (ho_tasks h) (ho_results h)
    (S (ho_next_resp h)).

Definition upd_host (p : PeerId) (f : host -> host) (nw : network) : network :=
  match nw_hosts nw !! p with Some h => set_host p (f h) nw | None => nw end.

(** What the handler does after a message: it goes on, or waits until its
    response has been sent. *)
Definition after_dispatch (sid : stream_id) (q : PeerId) (m : message) (pos : nat) (resp : option message)
    (nw : network) : network :=
  let r := net_reader sid nw in
  match resp with
  | None => set_reader sid (mkReader pos Reading (rd_log r ++ [m])) nw
  | Some x =>
      let rx := from_option ho_next_resp 0%nat (nw_hosts nw !! q) in
      upd_host q (host_respond (source_peer_id m.1) x)
        (set_reader sid (mkReader pos (Awaiting rx) (rd_log r ++ [m])) nw)
  end.

Inductive net_event :=
| NetNode (p : PeerId) (ev : node_event)   (** the application or the loop of a node *)
| NetTask (p : PeerId) (i : nat)           (** a completion task gets its result *)
| NetWrite (p : PeerId) (resp : bool) (c : nat) (opens : list (option (option nat * option nat)))
| NetRead (sid : stream_id)                (** a handler reads a message *)
| NetResume (sid : stream_id)              (** its response has been sent, or not *)
| NetEnd (sid : stream_id).                (** the stream ends for the handler *)

(** The result a completion task of a host has got. *)
Definition task_report (h : host) (i : nat) : option send_result :=
  lp_tasks (nd_loop (ho_node h)) !! i ≫= (fun t => ho_results h !! (false, ct_result_rx t)).

Definition run_net (ev : net_event) : MNet unit :=
  match ev with
  | NetNode p ev => on_host p (run_node ev) (fun _ nw => nw)
  | NetTask p i => fun nw =>
      match nw_hosts nw !! p ≫= (fun h => task_report h i) with
      | Some r => on_host p (run_node (NdTask i (Some r))) (fun _ nw => nw) nw
      | None => Done tt nw
      end
  | NetWrite p resp c opens => modify (upd_host p (host_write resp c opens))
  | NetRead sid => fun nw =>
      match stream_at sid nw with
      | None => Done tt nw
      | Some (q, st) =>
          let r := net_reader sid nw in
          let unread := drop (rd_pos r) (ws_sent st) in
          match rd_state r, read_message (mk_rstream unread UnexpectedEof) with
          | Reading, (IOk (h, payload), s') =>
              on_host q (fun nd => match dispatch q h payload (nd_world nd) with
                                   | Done a w => Done a (mkNode w (nd_loop nd))
                                   | Fault f => Fault f
                                   end)
                (after_dispatch sid q (h, payload) (rd_pos r + (length unread - length (rs_bytes s')))) nw
          | Reading, (IErr UnexpectedEof, _) => Done tt nw  (* waits for more *)
          | Reading, (IErr _, _) => Done tt (set_reader sid (mkReader (rd_pos r) Finished (rd_log r)) nw)
          | _, _ => Done tt nw
          end
      end
  | NetResume sid => modify (fun nw =>
      let r := net_reader sid nw in
      match rd_state r, (x ← stream_at sid nw; nw_hosts nw !! x.1) with
      | Awaiting rx, Some h =>
          match ho_results h !! (true, rx) with
          | Some SendOk => set_reader sid (mkReader (rd_pos r) Reading (rd_log r)) nw
          | Some (SendErr _) => set_reader sid (mkReader (rd_pos r) Finished (rd_log r)) nw
          | None => nw
          end
      | _, _ => nw
      end)
  | NetEnd sid => modify (fun nw =>
      let r := net_reader sid nw in set_reader sid (mkReader (rd_pos r) Finished (rd_log r)) nw)
  end.

(** Node events of the network: the tasks and the handlers have their own. *)
Definition local_event (ev : node_event) : bool :=
  match ev with NdCall _ | NdCommand _ | NdSwarm _ _ | NdTimer _ => true | _ => false end.

(** What is asked of a step: the applications make the calls [node_ok] allows with
    arguments of the declared types, and no result reports as failed a get that
    was completed and destroyed.  The rest does as it pleases. *)
Definition net_ok (nw : network) (ev : net_event) : Prop :=
  match ev with
  | NetNode p ev =>
      local_event ev = true /\ node_event_typed ev /\ forall h, nw_hosts nw !! p = Some h -> node_ok (ho_node h) ev
  | NetTask p i =>
      forall h r, nw_hosts nw !! p = Some h -> task_report h i = Some r -> node_ok (ho_node h) (NdTask i (Some r))
  | _ => True
  end.

Inductive net_reachable (nw0 : network) : network -> Prop :=
| net_reach_refl : net_reachable nw0 nw0
| net_reach_step nw ev nw' :
    net_reachable nw0 nw -> net_ok nw ev -> run_net ev nw = Done tt nw' -> net_reachable nw0 nw'.

(** * Channels only grow *)

Definition pool_grows (p p' : PeerSenderPool) : Prop :=
  forall c ch, pool_chans p !! c = Some ch ->
    exists ch', pool_chans p' !! c = Some ch' /\ ch_peer ch' = ch_peer ch /\ ch_msgs ch `prefix_of` ch_msgs ch'.
Definition pool_step (p p' : PeerSenderPool) : Prop := pool_ok p -> pool_ok p' /\ pool_grows p p'.

#[local] Instance pool_step_preorder : PreOrder pool_step.
Proof.
  split; [intros p Hp; split; [done|intros c ch Hc; by exists ch]|].
  intros p1 p2 p3 H12 H23 H1. destruct (H12 H1) as [H2 G12]. destruct (H23 H2) as [H3 G23]. split; [done|].
  intros c ch Hc. destruct (G12 c ch Hc) as (ch2 & Hc2 & Hp2 & Hm2). destruct (G23 c ch2 Hc2) as (ch3 & Hc3 & Hp3 & Hm3).
  exists ch3. split_and!; [done|congruence|by etrans].
Qed.

Lemma get_or_create_grows peer p : pool_step p (get_or_create peer p).2.
Proof.
  intros Hok. pose proof (get_or_create_spec peer p Hok) as H. destruct (get_or_create peer p) as [c p'] eqn:E.
  destruct H as (Hok' & _ & _). split; [done|]. revert E. unfold get_or_create. destruct Hok as [Hs Hn].
  assert (Hg : forall ch0, pool_grows p (mkPool (<[peer := pool_next p]> (pool_senders p)) (<[pool_next p := ch0]> (pool_chans p)) (S (pool_next p)))).
  { intros ch0 d ch Hd. exists ch. cbn. rewrite lookup_insert_ne; [done|]. specialize (Hn d ltac:(by eexists)). lia. }
  repeat case_match; intros; simplify_eq/=; try apply Hg. intros d ch Hd. by exists ch.
Qed.

Lemma chan_send_grows c m p : pool_grows p (chan_send c m p).
Proof.
  intros d ch Hd. unfold chan_send. destruct (pool_chans p !! c) as [ch0|] eqn:E; [|by exists ch].
  destruct (ch_closed ch0); [by exists ch|]. cbn. destruct (decide (c = d)) as [<-|Hne].
  - simplify_eq. rewrite lookup_insert_eq. eexists. split_and!; [done|done|]. cbn. by apply prefix_app_r.
  - rewrite lookup_insert_ne by done. by exists ch.
Qed.

Lemma pool_send_grows peer m p : pool_step p (pool_send peer m p).
Proof.
  intros Hok. split; [by apply pool_send_spec|]. pose proof (get_or_create_grows peer p Hok) as [_ Hg].
  unfold pool_send. destruct (get_or_create peer p) as [c p']. cbn in Hg. intros d ch Hd.
  destruct (Hg d ch Hd) as (ch1 & H1 & Hp1 & Hm1). destruct (chan_send_grows c m p' d ch1 H1) as (ch2 & H2 & Hp2 & Hm2).
  exists ch2. split_and!; [done|congruence|by etrans].
Qed.

Lemma remove_sender_grows peer p : pool_step p (remove_sender peer p).
Proof.
  intros [Hs Hn]. split; [|intros c ch Hc; by exists ch]. split; [|done]. cbn.
  intros q c. rewrite lookup_delete_Some. intros [_ Hq]. by apply Hs.
Qed.

Lemma enqueue_grows peer h payload op g l : pool_step (lp_pool l) (lp_pool (enqueue peer h payload op g l)).
Proof.
  pose proof (pool_send_grows peer (mkOutbound h payload (Some (lp_next_result l))) (lp_pool l)) as H.
  unfold enqueue, pool_send in *. destruct (get_or_create peer (lp_pool l)) as [c p']. exact H.
Qed.

Lemma loop_step_grows relay v e l : pool_step (lp_pool l) (lp_pool (loop_step relay v e l)).
Proof.
  unfold loop_step. destruct (lp_running l); [|done]. destruct e as [e|[c|]|].
  - destruct e as [peer relayed remote|peer n|[peer|]|peer ok| |]; cbn [handle_swarm_event]; try done;
      repeat case_match; rewrite ?answer_pool; try done; cbn; apply remove_sender_grows.
  - destruct c as [dest t tag payload op source|dest data rh ro op source|dest rh ro n lh lo op source| | |];
      cbn [handle_command]; try done; try (by case_match);
      (rewrite <-(proj1 (lp_pool_dial v dest l)) at 1; apply enqueue_grows).
  - done.
  - unfold handle_timer. by rewrite expire_pool.
Qed.

Lemma run_node_grows ev nd nd' :
  run_node ev nd = Done tt nd' -> pool_step (lp_pool (nd_loop nd)) (lp_pool (nd_loop nd')).
Proof.
  assert (Hw : forall m nd nd', on_nd_world m nd = Done tt nd' -> nd_loop nd' = nd_loop nd).
  { intros m nd1 nd2. unfold on_nd_world. destruct (m _) as [[] w|]; [|done]. by intros [= <-]. }
  assert (Hl : forall v e nd nd', loop_round v e nd = Done tt nd' -> pool_step (lp_pool (nd_loop nd)) (lp_pool (nd_loop nd'))).
  { intros v e nd1 nd2 Hrun. destruct (loop_round_run v e nd1) as (nd3 & Hrun' & _ & Hl).
    rewrite Hrun in Hrun'. injection Hrun' as <-. rewrite Hl. apply loop_step_grows. }
  destruct ev as [ev|v|v e|v|i r|self s]; cbn [run_node].
  - intros H. by rewrite (Hw _ _ _ H).
  - mpure. destruct (w_cmds (nd_world nd)) as [|c rest]; [by intros [= <-]|].
    destruct (lp_running (nd_loop nd)); cbn [when]; [|by intros [= <-]]. unfold on_nd_world. cbn. intros H. by apply Hl in H.
  - apply Hl.
  - apply Hl.
  - mpure. destruct (remove_at i _) as [[t rest]|]; [|by intros [= <-]]. unfold on_nd_loop. mpure. intros H.
    by rewrite (Hw _ _ _ H).
  - destruct (read_message s) as [[[h payload]|e] s']; [|by intros [= <-]]. intros H. by rewrite (Hw _ _ _ H).
Qed.

(** * Streams only grow *)

Definition streams_grow (s s' : writer) : Prop :=
  forall i st, wr_streams s !! i = Some st -> exists st', wr_streams s' !! i = Some st' /\ ws_sent st `prefix_of` ws_sent st'.

#[local] Instance streams_grow_preorder : PreOrder streams_grow.
Proof.
  split; [intros s i st H; by exists st|]. intros s1 s2 s3 H12 H23 i st H.
  destruct (H12 i st H) as (st2 & H2 & P2). destruct (H23 i st2 H2) as (st3 & H3 & P3). exists st3. split; [done|by etrans].
Qed.

Lemma streams_grow_same s s' :
  wr_stream s' = wr_stream s -> wr_dropped s' = wr_dropped s -> streams_grow s s'.
Proof. intros H1 H2 i st H. exists st. split; [|done]. unfold wr_streams in *. by rewrite H1, H2. Qed.

Lemma streams_replace l st st' i x :
  ws_sent st `prefix_of` ws_sent st' -> (l ++ [st]) !! i = Some x ->
  exists x', (l ++ [st']) !! i = Some x' /\ ws_sent x `prefix_of` ws_sent x'.
Proof.
  intros Hp Hi. destruct (decide (i < length l)%nat) as [Hlt|Hge].
  - rewrite lookup_app_l in Hi |- * by done. eauto.
  - rewrite lookup_app_r in Hi |- * by lia. destruct (i - length l)%nat; [|done]. cbn in *. simplify_eq. eauto.
Qed.

Lemma write_message_grows h p st r st' : write_message h p st = (r, st') -> ws_sent st `prefix_of` ws_sent st'.
Proof.
  destruct r as [[]|k]; intros H.
  - rewrite (write_message_ok _ _ _ _ H). by apply prefix_app_r.
  - apply write_message_err in H as [(bs & -> & _)|[-> _]]; by apply prefix_app_r.
Qed.

Lemma streams_grow_open s st s' : wr_stream s = None -> open_stream s = (Some st, s') -> streams_grow s (set_stream st s').
Proof.
  intros Hs. unfold open_stream. destruct (wr_opens s) as [|[[room fl]|] rest]; intros [= <- <-] i x Hi.
  exists x. split; [|done]. unfold wr_streams in *. cbn. rewrite Hs in Hi. cbn in Hi. rewrite app_nil_r in Hi.
  by apply lookup_app_l_Some.
Qed.

Lemma send_attempts_grow n a h p s : streams_grow s (send_attempts n a h p s).2.
Proof.
  revert a s. induction n as [|n IH]; intros a s; cbn [send_attempts]; [done|].
  assert (Hw : forall st s, wr_stream s = Some st -> streams_grow s
    (match write_message h p st with
     | (IOk _, st') => (SendOk, set_stream st' s)
     | (IErr e, st') =>
         if a >=? 2 then (SendErr (WriteError e), drop_stream st' s)
         else send_attempts n (a + 1) h p (sleep (Z.shiftl 20 a) (drop_stream st' s))
     end).2).
  { intros st s1 Hs1. destruct (write_message h p st) as [[[]|e] st'] eqn:E; apply write_message_grows in E.
    - intros i x. unfold wr_streams. cbn. rewrite Hs1. by apply streams_replace.
    - assert (Hd : streams_grow s1 (drop_stream st' s1)).
      { intros i x. unfold wr_streams. cbn. rewrite Hs1, app_nil_r. by apply streams_replace. }
      destruct (a >=? 2); [done|]. etrans; [exact Hd|]. etrans; [|apply IH]. by apply streams_grow_same. }
  destruct (wr_stream s) as [st|] eqn:Es; [by apply Hw|]. destruct (open_stream s) as [[st|] s1] eqn:Eo.
  - etrans; [by apply streams_grow_open|]. exact (Hw st (set_stream st s1) eq_refl).
  - destruct (open_stream_None _ _ Eo) as [H1 H2]. etrans; [by apply (streams_grow_same s s1)|].
    destruct (a <? 2); [|done]. etrans; [|apply IH]. by apply streams_grow_same.
Qed.

(** * The invariant of a host *)

Record host_typed (h : host) : Prop := mk_host_typed {
  ht_node : node_typed (ho_node h);
  ht_resp : pool_typed (ho_resp h);
  ht_pool : forall resp, pool_ok (host_pool resp h);
  ht_tasks : forall resp c, is_Some (ho_tasks h !! (resp, c)) -> is_Some (pool_chans (host_pool resp h) !! c);
}.

(** No message of four gigabytes or more was handed to a channel. *)
Definition host_sized (h : host) : Prop :=
  forall resp c ch m, pool_chans (host_pool resp h) !! c = Some ch -> m ∈ ch_msgs ch -> len (ob_payload m) < 2 ^ 32.

(** The streams of a writer carry the messages it has taken, in order, each at
    most three times. *)
Definition chan_inv (msgs : list OutboundMsg) (t : wtask) : Prop :=
  (wt_taken t <= length msgs)%nat /\
  exists ks, length ks = wt_taken t /\ Forall (fun k => (k <= 3)%nat) ks /\
    writer_inv (wt_writer t) (with_copies (take (wt_taken t) msgs) ks).

Definition host_inv (h : host) : Prop :=
  host_typed h /\
  (host_sized h -> forall resp c ch, pool_chans (host_pool resp h) !! c = Some ch -> chan_inv (ch_msgs ch) (host_task resp c h)).

(** The bytes of a stream of the host; none when it does not exist. *)
Definition host_bytes (resp : bool) (c i : nat) (h : host) : list byte :=
  match pool_chans (host_pool resp h) !! c with
  | Some _ => from_option ws_sent [] (wr_streams (wt_writer (host_task resp c h)) !! i)
  | None => []
  end.

(** ** Steps that write nothing *)

Record quiet_step (h h' : host) : Prop := mk_quiet {
  qs_pool : forall resp, pool_step (host_pool resp h) (host_pool resp h');
  qs_tasks : ho_tasks h' = ho_tasks h;
  qs_node : node_typed (ho_node h) -> node_typed (ho_node h');
  qs_resp : pool_typed (ho_resp h) -> pool_typed (ho_resp h');
}.

Lemma quiet_task h h' resp c : quiet_step h h' -> host_task resp c h' = host_task resp c h.
Proof. intros H. unfold host_task. by rewrite (qs_tasks h h' H). Qed.

Lemma quiet_sized h h' : host_typed h -> quiet_step h h' -> host_sized h' -> host_sized h.
Proof.
  intros Ht Hq Hs resp c ch m Hc Hm. destruct (qs_pool h h' Hq resp (ht_pool h Ht resp)) as [_ Hg].
  destruct (Hg c ch Hc) as (ch' & Hc' & _ & [k Hk]). apply (Hs resp c ch' m Hc'). rewrite Hk. apply elem_of_app. by left.
Qed.

Lemma chan_inv_grows msgs msgs' t : msgs `prefix_of` msgs' -> chan_inv msgs t -> chan_inv msgs' t.
Proof.
  intros [k ->] [Hl Hi]. split; [rewrite length_app; lia|]. by rewrite take_app_le by done.
Qed.

Lemma chan_inv_new : chan_inv [] wtask_new.
Proof. split; [done|]. exists []. split_and!; [done|constructor|]. apply writer_inv_new. Qed.

(** A channel without a task has not been served. *)
Lemma chan_inv_untouched msgs : chan_inv msgs wtask_new.
Proof. eapply chan_inv_grows; [|apply chan_inv_new]. apply prefix_nil. Qed.

Lemma quiet_typed h h' : quiet_step h h' -> host_typed h -> host_typed h'.
Proof.
  intros Hq [Hn Hr Hp Ht]. split.
  - by apply (qs_node h h' Hq).
  - by apply (qs_resp h h' Hq).
  - intros resp. by apply (qs_pool h h' Hq).
  - intros resp c. rewrite (qs_tasks h h' Hq). intros Hc. destruct (Ht resp c Hc) as [ch Hch].
    destruct (qs_pool h h' Hq resp (Hp resp)) as [_ Hg]. destruct (Hg c ch Hch) as (ch' & -> & _). by eexists.
Qed.

Lemma quiet_inv h h' : quiet_step h h' -> host_inv h -> host_inv h'.
Proof.
  intros Hq [Ht Hi]. split; [by eapply quiet_typed|]. intros Hs resp c ch' Hc'.
  rewrite (quiet_task h h' resp c Hq). destruct (pool_chans (host_pool resp h) !! c) as [ch|] eqn:Hc.
  - destruct (qs_pool h h' Hq resp (ht_pool h Ht resp)) as [_ Hg]. destruct (Hg c ch Hc) as (ch1 & H1 & _ & Hm).
    simplify_eq. eapply chan_inv_grows; [exact Hm|]. apply Hi; [by eapply quiet_sized|done].
  - unfold host_task. destruct (ho_tasks h !! (resp, c)) eqn:E; [|apply chan_inv_untouched].
    destruct (ht_tasks h Ht resp c ltac:(by eexists)). congruence.
Qed.

Lemma quiet_bytes h h' resp c i :
  quiet_step h h' -> host_typed h -> host_bytes resp c i h `prefix_of` host_bytes resp c i h'.
Proof.
  intros Hq Ht. unfold host_bytes. rewrite (quiet_task h h' resp c Hq).
  destruct (pool_chans (host_pool resp h) !! c) as [ch|] eqn:Hc; [|apply prefix_nil].
  destruct (qs_pool h h' Hq resp (ht_pool h Ht resp)) as [_ Hg]. by destruct (Hg c ch Hc) as (ch1 & -> & _).
Qed.

Lemma node_quiet h nd' :
  pool_step (lp_pool (nd_loop (ho_node h))) (lp_pool (nd_loop nd')) -> (node_typed (ho_node h) -> node_typed nd') ->
  quiet_step h (set_node nd' h).
Proof. intros Hp Ht. by split; [intros []|..]. Qed.

Lemma respond_quiet dest m h :
  outbound_typed (mkOutbound m.1 m.2 (Some (ho_next_resp h))) -> quiet_step h (host_respond dest m h).
Proof.
  intros Hm. unfold host_respond.
  pose proof (pool_send_grows dest (mkOutbound m.1 m.2 (Some (ho_next_resp h))) (ho_resp h)) as Hg.
  pose proof (get_or_create_typed dest (ho_resp h)) as Hty. unfold pool_send in Hg.
  destruct (get_or_create dest (ho_resp h)) as [c pool]. split; cbn; [|done|done|].
  - intros []; [exact Hg|done].
  - intros H. apply chan_send_typed; [done|by apply Hty].
Qed.

(** ** Writing *)

Section Write.
Context {LPL : Libp2pLaws}.

Lemma with_copies_snoc msgs m ks k :
  length ks = length msgs -> with_copies (msgs ++ [m]) (ks ++ [k]) = with_copies msgs ks ++ repeat (ob_header m, ob_payload m) k.
Proof.
  intros Hl. unfold with_copies. rewrite zip_with_app by done. rewrite concat_app. cbn. by rewrite app_nil_r.
Qed.

Lemma chan_inv_write msgs t m opens :
  chan_inv msgs t -> msgs !! wt_taken t = Some m -> outbound_ok m ->
  let w := wt_writer t in
  chan_inv msgs (mkWTask (S (wt_taken t))
    (send_one_message (ob_header m) (ob_payload m) (mkWriter (wr_stream w) (wr_dropped w) opens (wr_slept w))).2).
Proof.
  intros [Hl (ks & Hks & H3 & Hw)] Hm Hok w.
  pose proof (lookup_lt_Some _ _ _ Hm) as Hlt. split; [cbn; lia|]. cbn [wt_taken wt_writer].
  assert (Hw' : writer_inv (mkWriter (wr_stream w) (wr_dropped w) opens (wr_slept w)) (with_copies (take (wt_taken t) msgs) ks))
    by (by eapply writer_inv_ext; [..|exact Hw]).
  destruct (send_attempts_spec 3 0 (ob_header m) (ob_payload m) _ Hok _ Hw') as (k & Hk & Hi & _).
  exists (ks ++ [k]). split_and!; [rewrite length_app; cbn; lia|apply Forall_app; auto|].
  rewrite (take_S_r _ _ _ Hm). rewrite with_copies_snoc; [exact Hi|]. rewrite length_take. lia.
Qed.

Lemma host_write_pools resp c opens h resp' : host_pool resp' (host_write resp c opens h) = host_pool resp' h.
Proof. unfold host_write. repeat case_match; by destruct resp'. Qed.

Lemma host_write_node resp c opens h : ho_node (host_write resp c opens h) = ho_node h /\ ho_resp (host_write resp c opens h) = ho_resp h.
Proof. unfold host_write. by repeat case_match. Qed.

(** Either nothing is written or the task of the channel takes one message. *)
Lemma host_write_task resp c opens h :
  host_write resp c opens h = h \/
  exists ch m, pool_chans (host_pool resp h) !! c = Some ch /\ ch_msgs ch !! wt_taken (host_task resp c h) = Some m /\
    let w := wt_writer (host_task resp c h) in
    ho_tasks (host_write resp c opens h) = <[(resp, c) := mkWTask (S (wt_taken (host_task resp c h)))
      (send_one_message (ob_header m) (ob_payload m) (mkWriter (wr_stream w) (wr_dropped w) opens (wr_slept w))).2]> (ho_tasks h).
Proof.
  unfold host_write. destruct (pool_chans (host_pool resp h) !! c) as [ch|] eqn:Ec; [|by left].
  destruct (ch_msgs ch !! wt_taken (host_task resp c h)) as [m|] eqn:Em; [|by left]. right. exists ch, m.
  destruct (send_one_message _ _ _) as [r w'] eqn:E. cbn. done.
Qed.

Lemma outbound_typed_ok m : outbound_typed m -> len (ob_payload m) < 2 ^ 32 -> outbound_ok m.
Proof. intros [Hh Hp] Hl. split; [done|]. cbn. auto. Qed.

Lemma host_pool_typed h resp : host_typed h -> pool_typed (host_pool resp h).
Proof. intros Ht. destruct resp; [apply (ht_resp h Ht)|apply (ht_node h Ht)]. Qed.

Lemma write_inv resp c opens h : host_inv h -> host_inv (host_write resp c opens h).
Proof.
  intros [Ht Hi]. destruct (host_write_task resp c opens h) as [->|(ch & m & Hc & Hm & Htask)]; [done|]. cbv zeta in Htask.
  destruct (host_write_node resp c opens h) as [Hn Hr]. split.
  - split; [rewrite Hn; apply Ht|rewrite Hr; apply Ht|intros; rewrite host_write_pools; apply Ht|].
    intros resp' c'. rewrite Htask, host_write_pools, lookup_insert_is_Some.
    intros [[= <- <-]|[_ H]]; [by eexists|by apply (ht_tasks h Ht)].
  - intros Hs resp' c' ch' Hc'. rewrite host_write_pools in Hc'.
    assert (Hs' : host_sized h) by (intros r d x y; specialize (Hs r d x y); by rewrite host_write_pools in Hs).
    unfold host_task. rewrite Htask. destruct (decide ((resp, c) = (resp', c'))) as [[= <- <-]|Hne].
    + rewrite lookup_insert_eq. cbn. simplify_eq. apply chan_inv_write; [by apply Hi|done|].
      pose proof (list_elem_of_lookup_2 _ _ _ Hm) as Hin. apply outbound_typed_ok; [|by eapply Hs'].
      by apply (proj1 (Forall_forall _ _) (host_pool_typed h resp Ht c ch Hc)).
    + rewrite lookup_insert_ne by done. by apply Hi.
Qed.

Lemma write_bytes resp c opens h resp' c' i :
  host_bytes resp' c' i h `prefix_of` host_bytes resp' c' i (host_write resp c opens h).
Proof.
  destruct (host_write_task resp c opens h) as [->|(ch & m & Hc & Hm & Htask)]; [done|]. cbv zeta in Htask.
  unfold host_bytes. rewrite host_write_pools. destruct (pool_chans (host_pool resp' h) !! c'); [|done].
  unfold host_task at 2. rewrite Htask. destruct (decide ((resp, c) = (resp', c'))) as [[= <- <-]|Hne].
  - rewrite lookup_insert_eq. cbn [from_option id wt_writer]. set (w := wt_writer (host_task resp c h)).
    destruct (wr_streams w !! i) as [st|] eqn:E; [|apply prefix_nil].
    destruct (send_attempts_grow 3 0 (ob_header m) (ob_payload m) (mkWriter (wr_stream w) (wr_dropped w) opens (wr_slept w)) i st E)
      as (st' & H & Hp). unfold send_one_message. by rewrite H.
  - rewrite lookup_insert_ne by done. done.
Qed.

(** * Handlers *)

(** A handler has dispatched the messages at the beginning of its stream. *)
Definition reader_inv (r : reader) (bs : list byte) : Prop :=
  Forall well_formed_message (rd_log r) /\
  exists rest, bs = encode_all (rd_log r) ++ rest /\ rd_pos r = length (encode_all (rd_log r)).

Lemma reader_inv_grows r bs bs' : bs `prefix_of` bs' -> reader_inv r bs -> reader_inv r bs'.
Proof. intros [k ->] (Hw & rest & -> & Hp). split; [done|]. exists (rest ++ k). by rewrite app_assoc. Qed.

Lemma reader_inv_state r st bs : reader_inv r bs -> reader_inv (mkReader (rd_pos r) st (rd_log r)) bs.
Proof. done. Qed.

Lemma read_all_prefix log rest e fuel :
  Forall well_formed_message log -> (length log <= fuel)%nat ->
  log `prefix_of` (read_all fuel (mk_rstream (encode_all log ++ rest) e)).1.
Proof.
  intros Hw. revert fuel. induction Hw as [|[h p] log [Hh Hp] Hw IH]; intros fuel Hf; [apply prefix_nil|].
  destruct fuel as [|fuel]; cbn in Hf; [lia|]. cbn [read_all]. unfold encode_all. cbn [map concat fst snd].
  rewrite <-app_assoc. destruct (read_message_reads h p Hh Hp) as [Hok _]. rewrite Hok. fold (encode_all log).
  specialize (IH fuel ltac:(lia)). destruct (read_all fuel _) as [ms x]. cbn in *. by apply prefix_cons.
Qed.

Lemma reader_log_received r bs : reader_inv r bs -> rd_log r `prefix_of` received bs.
Proof.
  intros (Hw & rest & -> & _). unfold received. apply read_all_prefix; [done|]. rewrite length_app.
  pose proof (length_encode_all (rd_log r)). lia.
Qed.

(** On a stream that carries whole messages, the next one is read. *)
Lemma reader_inv_read r bs ms m s' st :
  carries bs ms -> reader_inv r bs ->
  let unread := drop (rd_pos r) bs in
  read_message (mk_rstream unread UnexpectedEof) = (IOk m, s') ->
  reader_inv (mkReader (rd_pos r + (length unread - length (rs_bytes s'))) st (rd_log r ++ [m])) bs.
Proof.
  intros Hc Hr. pose proof (reader_log_received r bs Hr) as Hlog. rewrite (received_carries bs ms Hc) in Hlog.
  destruct Hr as (Hw & rest & Hbs & Hpos). destruct Hc as (Hms & tail & Hbs' & Ht). destruct Hlog as [ms2 ->].
  assert (Hrest : rest = encode_all ms2 ++ tail).
  { rewrite Hbs in Hbs'. rewrite encode_all_app, <-app_assoc in Hbs'. by apply app_inv_head in Hbs'. }
  cbv zeta. rewrite Hbs, Hpos, drop_app_length, Hrest. apply Forall_app in Hms as [_ Hms2]. intros Hread.
  destruct ms2 as [|[h p] ms2].
  - exfalso. change (encode_all [] ++ tail) with tail in Hread. destruct Ht as [->|([h p] & [Hh Hp] & Ht)]; [done|]. cbn in Ht.
    destruct (read_message_reads h p Hh Hp) as [_ Herr]. by rewrite (Herr tail UnexpectedEof Ht) in Hread.
  - apply Forall_cons in Hms2 as [[Hh Hp] Hms2]. destruct (read_message_reads h p Hh Hp) as [Hok _].
    unfold encode_all in Hread. cbn [map concat fst snd] in Hread. rewrite <-app_assoc, Hok in Hread.
    injection Hread as <- <-. fold (encode_all ms2). cbn [rs_bytes]. split; cbn [rd_log rd_pos].
    + apply Forall_app. split; [done|]. by apply Forall_singleton.
    + exists (encode_all ms2 ++ tail). rewrite encode_all_app, encode_all_one. cbn [fst snd].
      change (encode_all ((h, p) :: ms2)) with (encode_message h p ++ encode_all ms2).
      split; [by rewrite <-!app_assoc|]. rewrite !length_app. lia.
Qed.

(** * The invariant of the network *)

Definition net_sized (nw : network) : Prop := forall p h, nw_hosts nw !! p = Some h -> host_sized h.

Definition bytes_of (sid : stream_id) (nw : network) : list byte :=
  let '(p, (resp, c), i) := sid in from_option (host_bytes resp c i) [] (nw_hosts nw !! p).

Record net_inv (nw : network) : Prop := mk_net_inv {
  nwi_node : forall p h, nw_hosts nw !! p = Some h -> node_inv (ho_node h);
  nwi_host : forall p h, nw_hosts nw !! p = Some h -> host_inv h;
  nwi_reader : net_sized nw -> forall sid, reader_inv (net_reader sid nw) (bytes_of sid nw);
}.

Lemma stream_at_bytes sid nw q st : stream_at sid nw = Some (q, st) -> bytes_of sid nw = ws_sent st.
Proof.
  destruct sid as [[p [resp c]] i]. unfold stream_at, bytes_of, host_bytes. cbn.
  destruct (nw_hosts nw !! p) as [h|]; cbn; [|done]. destruct (pool_chans _ !! c); cbn; [|done].
  destruct (wr_streams _ !! i); cbn; [|done]. by intros [= _ ->].
Qed.

Lemma writer_inv_carries s ms i st :
  writer_inv s ms -> wr_streams s !! i = Some st -> exists l, carries (ws_sent st) l.
Proof.
  intros (mss & ms2 & Hd & Hw & Hc & _) Hi. unfold wr_streams in Hi. apply lookup_app_Some in Hi as [Hi|[_ Hi]].
  - destruct (Forall2_lookup_l _ _ _ _ _ Hd Hi) as (l & _ & Hl). eauto.
  - destruct (wr_stream s) as [st'|]; [|done]. destruct (i - _)%nat; [|done]. cbn in Hi. simplify_eq.
    exists ms2. split; [done|]. exists []. rewrite app_nil_r. auto.
Qed.

Lemma stream_carries sid nw q st :
  net_inv nw -> net_sized nw -> stream_at sid nw = Some (q, st) -> exists ms, carries (ws_sent st) ms.
Proof.
  intros Hn Hs. destruct sid as [[p [resp c]] i]. unfold stream_at. cbn.
  destruct (nw_hosts nw !! p) as [h|] eqn:Eh; cbn; [|done]. destruct (pool_chans _ !! c) as [ch|] eqn:Ec; cbn; [|done].
  destruct (wr_streams _ !! i) as [x|] eqn:Ei; cbn; [|done]. intros [= _ <-].
  destruct (nwi_host nw Hn p h Eh) as [_ Hi]. destruct (Hi (Hs p h Eh) resp c ch Ec) as (_ & ks & _ & _ & Hw).
  by eapply writer_inv_carries.
Qed.

(** ** Updates *)

Lemma set_reader_inv sid r nw :
  net_inv nw -> (net_sized nw -> reader_inv r (bytes_of sid nw)) -> net_inv (set_reader sid r nw).
Proof.
  intros [Hn Hh Hr] H. split; [exact Hn|exact Hh|]. intros Hs sid'.
  change (bytes_of sid' (set_reader sid r nw)) with (bytes_of sid' nw). unfold net_reader. cbn.
  destruct (decide (sid = sid')) as [<-|Hne]; [rewrite lookup_insert_eq; by apply H|].
  rewrite lookup_insert_ne by done. by apply Hr.
Qed.

Lemma set_host_inv p h h' nw :
  net_inv nw -> nw_hosts nw !! p = Some h -> node_inv (ho_node h') -> host_inv h' ->
  (host_sized h' -> host_sized h) ->
  (forall resp c i, host_bytes resp c i h `prefix_of` host_bytes resp c i h') -> net_inv (set_host p h' nw).
Proof.
  intros [Hn Hh Hr] Hp Hn' Hh' Hs Hb. split; cbn.
  - intros q x. destruct (decide (p = q)) as [<-|Hne]; [rewrite lookup_insert_eq; by intros [= <-]|].
    rewrite lookup_insert_ne by done. apply Hn.
  - intros q x. destruct (decide (p = q)) as [<-|Hne]; [rewrite lookup_insert_eq; by intros [= <-]|].
    rewrite lookup_insert_ne by done. apply Hh.
  - intros Hsz [[q [resp c]] i].
    assert (Hsz0 : net_sized nw).
    { intros q' x Hx. destruct (decide (p = q')) as [<-|Hne].
      - simplify_eq. apply Hs, (Hsz p). apply lookup_insert_eq.
      - apply (Hsz q'). cbn. by rewrite lookup_insert_ne. }
    eapply reader_inv_grows; [|exact (Hr Hsz0 (q, (resp, c), i))]. cbn. destruct (decide (p = q)) as [<-|Hne].
    + rewrite Hp, lookup_insert_eq. apply Hb.
    + by rewrite lookup_insert_ne.
Qed.

Lemma quiet_host_inv p h h' nw :
  net_inv nw -> nw_hosts nw !! p = Some h -> quiet_step h h' -> node_inv (ho_node h') -> net_inv (set_host p h' nw).
Proof.
  intros Hn Hp Hq Hni. pose proof (nwi_host nw Hn p h Hp) as [Ht Hi]. eapply set_host_inv; [done|exact Hp|done|..].
  - eapply quiet_inv; [exact Hq|by split].
  - by eapply quiet_sized.
  - intros. by eapply quiet_bytes.
Qed.

End Write.

(** * One step, then any run *)

Context {LPL : Libp2pLaws} {OSL : OsLaws}.

Lemma node_event_inv p h ev nd' nw :
  net_inv nw -> nw_hosts nw !! p = Some h -> node_event_typed ev -> run_node ev (ho_node h) = Done tt nd' -> node_inv nd' ->
  net_inv (set_host p (set_node nd' h) nw).
Proof.
  intros Hn Hp Ht Hrun Hni. eapply quiet_host_inv; [done|exact Hp| |done]. apply node_quiet.
  - by eapply run_node_grows.
  - intros H. by eapply run_node_typed.
Qed.

Lemma on_host_node_inv p ev nw :
  net_inv nw -> node_event_typed ev -> (forall h, nw_hosts nw !! p = Some h -> node_ok (ho_node h) ev) ->
  exists nw', on_host p (run_node ev) (fun _ nw => nw) nw = Done tt nw' /\ net_inv nw'.
Proof.
  intros Hn Ht Hok. unfold on_host. destruct (nw_hosts nw !! p) as [h|] eqn:Ep; [|by eauto].
  destruct (run_node_inv (ho_node h) ev (nwi_node nw Hn p h Ep) (Hok h eq_refl)) as (nd' & Hrun & Hni). rewrite Hrun.
  eexists. split; [done|]. by eapply node_event_inv.
Qed.

Lemma upd_host_respond_inv q dest x nw :
  net_inv nw -> (forall h, nw_hosts nw !! q = Some h -> outbound_typed (mkOutbound x.1 x.2 (Some (ho_next_resp h)))) ->
  net_inv (upd_host q (host_respond dest x) nw).
Proof.
  intros Hn Ho. unfold upd_host. destruct (nw_hosts nw !! q) as [h|] eqn:Eq; [|done].
  eapply quiet_host_inv; [done|exact Eq|by apply respond_quiet, Ho|].
  replace (ho_node (host_respond dest x h)) with (ho_node h); [by apply (nwi_node nw Hn q)|].
  unfold host_respond. by destruct (get_or_create _ _).
Qed.

Lemma response_outbound h data rx : response_typed (Some (h, data)) -> outbound_typed (mkOutbound h data rx).
Proof. intros H. destruct (H h data eq_refl) as [Hh Hw]. split; [done|]. cbn. intros Hl. by apply Hw. Qed.

Lemma after_dispatch_inv sid q m pos resp nw :
  net_inv nw -> response_typed resp ->
  (forall st, net_sized nw -> reader_inv (mkReader pos st (rd_log (net_reader sid nw) ++ [m])) (bytes_of sid nw)) ->
  net_inv (after_dispatch sid q m pos resp nw).
Proof.
  intros Hn Hresp Hr. unfold after_dispatch. destruct resp as [[rh data]|].
  - apply upd_host_respond_inv; [apply set_reader_inv; auto|]. intros h _. cbn. by apply response_outbound.
  - apply set_reader_inv; auto.
Qed.

Lemma net_read_inv sid nw : net_inv nw -> exists nw', run_net (NetRead sid) nw = Done tt nw' /\ net_inv nw'.
Proof.
  intros Hn. cbn [run_net]. destruct (stream_at sid nw) as [[q st]|] eqn:Es; [|by eauto]. cbv zeta.
  set (r := net_reader sid nw). set (unread := drop (rd_pos r) (ws_sent st)).
  destruct (rd_state r); [|by eauto..].
  destruct (read_message (mk_rstream unread UnexpectedEof)) as [[[h payload]|e] s'] eqn:Er.
  2:{ destruct e; first [by eauto|eexists; split; [done|]; apply set_reader_inv; [done|]; intros Hs;
        apply reader_inv_state; by apply (nwi_reader nw Hn Hs sid)]. }
  pose proof (read_message_inv _ _ _ _ Er) as (Hh & Hp & _). unfold on_host.
  destruct (nw_hosts nw !! q) as [hq|] eqn:Eq; [|by eauto].
  destruct (world_step_inv (ho_node hq) (IoMessage q h payload) (nwi_node nw Hn q hq Eq) Hh) as (nd' & Hrun & Hni); [done|].
  unfold on_nd_world in Hrun. cbn [run_sys] in Hrun. unfold ignore, mbind, M_bind in Hrun.
  destruct (dispatch q h payload (nd_world (ho_node hq))) as [resp w'|f] eqn:Ed; [|done]. injection Hrun as <-.
  pose proof (nwi_host nw Hn q hq Eq) as [[[Htw Htp] _ _ _] _].
  destruct (dispatch_yields q h payload (conj Hh Hp) _ _ _ Htw Ed) as [Htw' Hresp].
  set (nw1 := set_host q (set_node (mkNode w' (nd_loop (ho_node hq))) hq) nw).
  assert (Hn1 : net_inv nw1).
  { eapply quiet_host_inv; [done|exact Eq| |done]. apply node_quiet; [done|]. intros _. by split. }
  eexists. split; [done|]. apply after_dispatch_inv; [done|done|]. intros st' Hs1.
  (* the streams are where they were *)
  assert (Hb : bytes_of sid nw1 = ws_sent st).
  { rewrite <-(stream_at_bytes sid nw q st Es). destruct sid as [[p [b c]] i]. cbn.
    destruct (decide (q = p)) as [<-|]; [|by rewrite lookup_insert_ne]. rewrite lookup_insert_eq, Eq. by destruct b. }
  assert (Hs : net_sized nw).
  { intros p x Hx. destruct (decide (q = p)) as [<-|Hne].
    - simplify_eq. specialize (Hs1 q _ ltac:(apply lookup_insert_eq)). intros resp' c ch m. specialize (Hs1 resp' c ch m).
      by destruct resp'.
    - apply (Hs1 p). cbn. by rewrite lookup_insert_ne. }
  destruct (stream_carries sid nw q st Hn Hs Es) as (ms & Hc). rewrite Hb.
  apply (reader_inv_read r (ws_sent st) ms (h, payload) s' st' Hc); [|exact Er].
  rewrite <-(stream_at_bytes sid nw q st Es). by apply (nwi_reader nw Hn Hs).
Qed.

Lemma net_write_inv p resp c opens nw : net_inv nw -> net_inv (upd_host p (host_write resp c opens) nw).
Proof.
  intros Hn. unfold upd_host. destruct (nw_hosts nw !! p) as [h|] eqn:Ep; [|done].
  eapply set_host_inv; [done|exact Ep|..].
  - rewrite (proj1 (host_write_node resp c opens h)). by apply (nwi_node nw Hn p).
  - by apply write_inv, (nwi_host nw Hn p).
  - intros Hs r d x y. specialize (Hs r d x y). by rewrite host_write_pools in Hs.
  - intros. apply write_bytes.
Qed.

Lemma run_net_inv nw ev : net_inv nw -> net_ok nw ev -> exists nw', run_net ev nw = Done tt nw' /\ net_inv nw'.
Proof.
  intros Hn Hok. destruct ev as [p ev|p i|p resp c opens|sid|sid|sid].
  - destruct Hok as (_ & Ht & Hok). by apply on_host_node_inv.
  - cbn [run_net]. case_match eqn:Er; [|by eauto]. apply on_host_node_inv; [done..|]. intros h Hp.
    rewrite Hp in Er. by apply Hok.
  - eexists. split; [done|]. by apply net_write_inv.
  - by apply net_read_inv.
  - eexists. split; [done|]. cbv zeta. repeat case_match; try done;
      (apply set_reader_inv; [done|]; intros Hs; apply reader_inv_state; by apply (nwi_reader nw Hn Hs sid)).
  - eexists. split; [done|]. apply set_reader_inv; [done|]. intros Hs. apply reader_inv_state.
    by apply (nwi_reader nw Hn Hs sid).
Qed.

Lemma net_reachable_inv nw0 nw : net_inv nw0 -> net_reachable nw0 nw -> net_inv nw.
Proof.
  intros H0. induction 1 as [|nw ev nw' _ IH Hok Hrun]; [done|].
  destruct (run_net_inv nw ev IH Hok) as (nw1 & Hrun' & Hi). congruence.
Qed.

(** A handler that has read its stream to the end dispatched all it carries. *)
Lemma reader_caught_up r bs : reader_inv r bs -> rd_pos r = length bs -> rd_log r = received bs.
Proof.
  intros (Hw & rest & -> & Hpos) He. rewrite length_app in He. assert (rest = []) as -> by (apply length_zero_iff_nil; lia).
  symmetry. apply received_carries. split; [done|]. exists []. auto.
Qed.

(** What the handler of a stream has dispatched, and what it will have. *)
Lemma reader_of_stream nw p h resp c ch i st :
  net_inv nw -> net_sized nw -> nw_hosts nw !! p = Some h -> pool_chans (host_pool resp h) !! c = Some ch ->
  wr_streams (wt_writer (host_task resp c h)) !! i = Some st ->
  let r := net_reader (p, (resp, c), i) nw in
  rd_log r `prefix_of` received (ws_sent st) /\ (rd_pos r = length (ws_sent st) -> rd_log r = received (ws_sent st)).
Proof.
  intros Hn Hs Hp Hc Hi r. pose proof (nwi_reader nw Hn Hs (p, (resp, c), i)) as Hri.
  assert (Hb : bytes_of (p, (resp, c), i) nw = ws_sent st) by (cbn; rewrite Hp; cbn; unfold host_bytes; by rewrite Hc, Hi).
  rewrite Hb in Hri. split; [by apply reader_log_received|by apply reader_caught_up].
Qed.

(** A host whose tasks are those of sends and puts takes any report. *)
Lemma transfers_report nw p h i :
  nw_hosts nw !! p = Some h -> forallb (fun t => negb (ct_is_get t)) (lp_tasks (nd_loop (ho_node h))) = true ->
  net_ok nw (NetTask p i).
Proof.
  intros Hp H h' r Hh _ t rest Ht Hg. exfalso. simplify_eq.
  assert (Hin : t ∈ lp_tasks (nd_loop (ho_node h))) by (rewrite (remove_at_perm _ _ _ _ Ht); by apply elem_of_cons; left).
  pose proof (forallb_elem _ _ _ H Hin) as Hn. cbn beta in Hn. by rewrite Hg in Hn.
Qed.

(** A host that has not sent anything yet. *)
Definition host_fresh (h : host) : Prop :=
  node_inv (ho_node h) /\ typed (nd_world (ho_node h)) /\
  lp_pool (nd_loop (ho_node h)) = PeerSenderPool_new /\ ho_resp h = PeerSenderPool_new /\ ho_tasks h = ∅.

Lemma net_start_inv hosts : (forall p h, hosts !! p = Some h -> host_fresh h) -> net_inv (mkNet hosts ∅).
Proof.
  intros H.
  assert (Hpool : forall p h resp, hosts !! p = Some h -> host_pool resp h = PeerSenderPool_new).
  { intros p h resp Hp. destruct (H p h Hp) as (_ & _ & ? & ? & _). by destruct resp. }
  split; cbn.
  - intros p h Hp. by destruct (H p h Hp) as (? & _).
  - intros p h Hp. destruct (H p h Hp) as (_ & Ht & Hl & Hr & Htk). split.
    + split; [split; [done|]|..].
      * rewrite Hl. intros c ch. cbn. by rewrite lookup_empty.
      * rewrite Hr. intros c ch. cbn. by rewrite lookup_empty.
      * intros resp. rewrite (Hpool p h resp Hp). apply pool_ok_new.
      * intros resp c. rewrite Htk, lookup_empty. by intros [? ?].
    + intros _ resp c ch. rewrite (Hpool p h resp Hp). cbn. by rewrite lookup_empty.
  - intros _ sid. unfold net_reader. cbn. rewrite lookup_empty. cbn. split; [constructor|]. eexists. done.
Qed.

(** * Theorems *)

(** C1: No node of a network faults: from nodes that satisfy their invariant,
    whatever the interleaving of applications, loops, writer tasks, stream
    handlers and completion tasks, whichever streams break and however the
    swarms answer, every step of every node runs to its end, as long as each step
    satisfies [net_ok]: the applications pass live pointers and mapped buffers,
    the buffer given for the text of an own address holds ten readable bytes or a
    NUL, no operation is reused or destroyed before its callback, and no get is
    reported as failed after it was completed and destroyed. *)
Theorem network_never_faults nw0 nw ev :
  net_inv nw0 -> net_reachable nw0 nw -> net_ok nw ev -> exists nw', run_net ev nw = Done tt nw'.
Proof.
  intros H0 Hr Hok. destruct (run_net_inv nw ev (net_reachable_inv _ _ H0 Hr) Hok) as (nw' & H & _). eauto.
Qed.

(** C3: Delivery across the network, at any point of any run that [net_ok] allows
    and in which every message handed to a channel is shorter than 4 GiB
    ([net_sized]): the streams of a channel carry, in the order they were opened, the messages its writer has
    taken from the channel, in order, each at most three times; the handler of
    each stream has dispatched the first messages of its stream, in order, and
    all of them once it has read to the end.  Nothing else is dispatched. *)
Theorem network_delivers_in_order nw0 nw p h resp c ch :
  net_inv nw0 -> net_reachable nw0 nw -> net_sized nw ->
  nw_hosts nw !! p = Some h -> pool_chans (host_pool resp h) !! c = Some ch ->
  let t := host_task resp c h in
  (exists ks, length ks = wt_taken t /\ Forall (fun k => (k <= 3)%nat) ks /\
     delivered_to_peer (wt_writer t) = with_copies (take (wt_taken t) (ch_msgs ch)) ks) /\
  (forall i st, wr_streams (wt_writer t) !! i = Some st ->
     let r := net_reader (p, (resp, c), i) nw in
     rd_log r `prefix_of` received (ws_sent st) /\
     (rd_pos r = length (ws_sent st) -> rd_log r = received (ws_sent st))).
Proof.
  intros H0 Hr Hs Hp Hc t. pose proof (net_reachable_inv _ _ H0 Hr) as Hn. split.
  - destruct (nwi_host nw Hn p h Hp) as [_ Hi]. destruct (Hi (Hs p h Hp) resp c ch Hc) as (_ & ks & Hl & H3 & Hw).
    exists ks. split_and!; [done|done|]. by apply writer_inv_delivered.
  - intros i st Hi. by eapply reader_of_stream.
Qed.

End Network.

Module NetworkDemo.
Import Demo DemoNode NodeDemo TypingDemo.

Definition new_host : host := mkHost start PeerSenderPool_new ∅ ∅ 0.
Definition hosts : gmap peer host := {[ self := new_host; alice := new_host ]}.
Definition quiet : network := mkNet hosts ∅.
Definition next (ev : net_event) (nw : network) : network :=
  match run_net ev nw with Done _ nw' => nw' | Fault _ => nw end.

(** A send to Alice: the command, the loop, the writer task on a new stream,
    the handler at Alice. *)
Definition sid : stream_id := (self, (false, O), O).
Definition nw1 : network := next (NetNode self send) quiet.
Definition nw2 : network := next (NetNode self (NdCommand view)) nw1.
Definition nw3 : network := next (NetWrite self false 0 [Some (None, None)]) nw2.
Definition nw4 : network := next (NetRead sid) nw3.

Lemma quiet_net_inv : net_inv quiet.
Proof.
  apply net_start_inv. intros p h. unfold hosts. rewrite lookup_insert_Some, lookup_singleton_Some.
  intros [[_ <-]|[_ [_ <-]]]; (split_and!; [exact start_inv|apply start_typed|done..]).
Qed.

Lemma next_reachable nw ev : net_reachable quiet nw -> net_ok nw ev -> net_reachable quiet (next ev nw).
Proof.
  intros Hr Hok. eapply net_reach_step; [exact Hr|exact Hok|].
  destruct (run_net_inv nw ev (net_reachable_inv _ _ quiet_net_inv Hr) Hok) as (nw' & H & _). unfold next. by rewrite H.
Qed.

Lemma nw4_reachable : net_reachable quiet nw4.
Proof.
  do 3 (apply next_reachable; [|done]). apply next_reachable; [constructor|].
  split_and!; [done|vm_compute; repeat split; discriminate|]. intros h Hh. unfold quiet, hosts in Hh. cbn in Hh.
  rewrite lookup_insert_eq in Hh. injection Hh as <-. exact send_allowed.
Qed.

Definition sender : host := default new_host (nw_hosts nw4 !! self).
Definition channel0 : channel := default (mkChannel alice [] false) (pool_chans (host_pool false sender) !! 0%nat).

(** The sizes of what the channels of a host hold. *)
Definition sized_check (h : host) : bool :=
  forallb (fun resp => forallb (fun x => forallb (fun m => len (ob_payload m) <? 2 ^ 32) (ch_msgs x.2))
    (map_to_list (pool_chans (host_pool resp h)))) [false; true].

Lemma sized_check_sound h : sized_check h = true -> host_sized h.
Proof.
  intros H resp c ch m Hc Hm. unfold sized_check in H. assert (Hr : resp ∈ [false; true]) by (destruct resp; set_solver).
  pose proof (forallb_elem _ _ _ H Hr) as H1. cbn beta in H1.
  pose proof (forallb_elem _ _ (c, ch) H1 ltac:(by apply elem_of_map_to_list)) as H2. cbn in H2.
  pose proof (forallb_elem _ _ _ H2 Hm) as H3. cbn beta in H3. lia.
Qed.

Lemma nw4_sized : net_sized nw4.
Proof.
  assert (H : forallb (fun x => sized_check x.2) (map_to_list (nw_hosts nw4)) = true) by (vm_compute; reflexivity).
  intros p h Hp. apply sized_check_sound. apply (forallb_elem _ _ (p, h) H). by apply elem_of_map_to_list.
Qed.

Lemma default_is {A} (d : A) o : bool_decide (is_Some o) = true -> o = Some (default d o).
Proof. by destruct o. Qed.

Lemma sender_at : nw_hosts nw4 !! self = Some sender.
Proof. apply default_is. vm_compute. reflexivity. Qed.
Lemma channel_at : pool_chans (host_pool false sender) !! 0%nat = Some channel0.
Proof. apply default_is. vm_compute. reflexivity. Qed.

(** The only task is that of the send. *)
Lemma nw4_task_ok : net_ok nw4 (NetTask self 0).
Proof. apply (transfers_report nw4 self sender 0 sender_at). vm_compute. reflexivity. Qed.

Lemma network_never_faults_witness : exists nw', run_net (NetTask self 0) nw4 = Done tt nw'.
Proof. exact (network_never_faults quiet nw4 (NetTask self 0) quiet_net_inv nw4_reachable nw4_task_ok). Defined.

(** The handler has dispatched the four bytes. *)
Lemma network_delivers_in_order_witness :
  map snd (rd_log (net_reader sid nw4)) = [[x41; x42; x43; x44]] /\
  wt_taken (host_task false 0 sender) = 1%nat /\
  exists ks, length ks = wt_taken (host_task false 0 sender) /\ Forall (fun k => (k <= 3)%nat) ks /\
     delivered_to_peer (wt_writer (host_task false 0 sender))
     = with_copies (take (wt_taken (host_task false 0 sender)) (ch_msgs channel0)) ks.
Proof.
  split; [vm_compute; reflexivity|]. split; [vm_compute; reflexivity|].
  exact (proj1 (network_delivers_in_order quiet nw4 self sender false 0 channel0 quiet_net_inv nw4_reachable nw4_sized
    sender_at channel_at)).
Defined.

End NetworkDemo.

