(* ===== verification/Reports.v ===== *)
(** What a sender is told and what its peer gets: in any run of a network, a
    message whose result is success is on a stream of the peer, and as long as
    no flush fails the messages the peer's handlers dispatch are exactly those
    reported as sent, once each and in order. *)
From Stdlib Require Import ZArith Lia.
From S2P Require Import Prelude.
From S2P Require Import Frame.
From S2P Require Import RustStr.
From S2P Require Import Libp2p.
From S2P Require Import Protocol.
From S2P Require Import State.
From S2P Require Import Invariant.
From S2P Require Import Incoming.
From S2P Require Import Sender.
From S2P Require Import EventLoop.
From S2P Require Import LoopSpec.
From S2P Require Import System.
From S2P Require Import Node.
From S2P Require Import Typing.
From S2P Require Import Network.
From S2P Require Import DemoWorld.

Section Reports.
Context {LP : Libp2p} {OS : Os} {NB : NaBindings}.

(** * Result channels *)

Definition chan_msgs (c : nat) (p : PeerSenderPool) : list OutboundMsg := from_option ch_msgs [] (pool_chans p !! c).

(** The result channels of a pool: the next number, and those a completion task
    awaits. *)
Definition next_rx (resp : bool) (h : host) : nat := if resp then ho_next_resp h else lp_next_result (nd_loop (ho_node h)).
Definition awaited (resp : bool) (h : host) : list nat :=
  if resp then [] else map ct_result_rx (lp_tasks (nd_loop (ho_node h))).

(** A pool is left alone, or gets a message with a new result channel. *)
Inductive room_step (p : PeerSenderPool) (n : nat) (rxs : list nat) : PeerSenderPool -> nat -> list nat -> Prop :=
| room_same p' rxs' : pool_chans p' = pool_chans p -> rxs' ⊆ rxs -> room_step p n rxs p' n rxs'
| room_post p' rxs' c peer m :
    pool_chans p' = <[c := mkChannel peer (chan_msgs c p ++ [m]) false]> (pool_chans p) ->
    ob_result_tx m = Some n -> rxs' ⊆ rxs ++ [n] -> room_step p n rxs p' (S n) rxs'.

Lemma post_room peer m p n rxs rxs' :
  pool_ok p -> ob_result_tx m = Some n -> rxs' ⊆ rxs ++ [n] -> room_step p n rxs (pool_send peer m p) (S n) rxs'.
Proof.
  intros [Hs Hn] Hm Hrx. unfold pool_send, get_or_create. set (c := pool_next p).
  assert (Hnew : room_step p n rxs (chan_send c m (mkPool (<[peer := c]> (pool_senders p))
    (<[c := mkChannel peer [] false]> (pool_chans p)) (S c))) (S n) rxs').
  { eapply (room_post _ _ _ _ _ c peer m); [|done|done]. unfold chan_send, chan_msgs. cbn. rewrite lookup_insert_eq. cbn.
    rewrite insert_insert_eq. destruct (pool_chans p !! c) eqn:E; [|done]. specialize (Hn c ltac:(by eexists)). lia. }
  destruct (pool_senders p !! peer) as [d|] eqn:E; [|exact Hnew].
  destruct (Hs peer d E) as (ch & Hc & Hp & Ho). unfold is_closed. rewrite Hc, Ho. cbn.
  eapply (room_post _ _ _ _ _ d (ch_peer ch) m); [|done|done]. unfold chan_send, chan_msgs. rewrite Hc, Ho. done.
Qed.

(** The steps of the loop other than sends. *)
Definition room_part (l : loop_state) := (pool_chans (lp_pool l), lp_next_result l, lp_tasks l).

Lemma answer_room tx r l : room_part (answer tx r l) = room_part l.
Proof. by destruct tx. Qed.

Lemma expire_room ps l : room_part (foldl (fun l p => expire_one p l) l ps) = room_part l.
Proof.
  revert l. induction ps as [|p ps IH]; intros l; [done|]. cbn. rewrite IH. unfold expire_one. case_match; [|done].
  by rewrite answer_room.
Qed.

Lemma dial_room v p l : room_part (dial_if_disconnected v p l) = room_part l.
Proof. unfold dial_if_disconnected. by repeat case_match. Qed.

Lemma swarm_event_room relay e l : room_part (handle_swarm_event relay e l) = room_part l.
Proof. destruct e as [peer relayed remote|peer n|[peer|]|peer ok| |]; cbn; repeat case_match; rewrite ?answer_room; done. Qed.

Definition loop_room_step (l l' : loop_state) : Prop :=
  room_step (lp_pool l) (lp_next_result l) (map ct_result_rx (lp_tasks l))
    (lp_pool l') (lp_next_result l') (map ct_result_rx (lp_tasks l')).

Lemma room_part_same l l' : room_part l' = room_part l -> loop_room_step l l'.
Proof. unfold room_part, loop_room_step. intros [= Hp -> ->]. by apply room_same. Qed.

Lemma enqueue_room v peer h payload op g l :
  pool_ok (lp_pool l) -> loop_room_step l (enqueue peer h payload op g (dial_if_disconnected v peer l)).
Proof.
  intros Hok. destruct (lp_pool_dial v peer l) as [Hp _]. pose proof (dial_room v peer l) as Hd.
  set (l1 := dial_if_disconnected v peer l) in *. unfold room_part in Hd. injection Hd as _ Hn Ht.
  pose proof (post_room peer (mkOutbound h payload (Some (lp_next_result l))) (lp_pool l) (lp_next_result l)
    (map ct_result_rx (lp_tasks l)) (map ct_result_rx (lp_tasks l) ++ [lp_next_result l]) Hok eq_refl ltac:(done)) as H.
  unfold loop_room_step, enqueue. rewrite Hp, Hn. unfold pool_send in H. destruct (get_or_create peer (lp_pool l)) as [c p].
  cbn. by rewrite Hn, Ht, map_app.
Qed.

Lemma loop_room relay v e l : pool_ok (lp_pool l) -> loop_room_step l (loop_step relay v e l).
Proof.
  intros Hok. unfold loop_step. destruct (lp_running l); [|by apply room_part_same]. destruct e as [e|[c|]|].
  - apply room_part_same, swarm_event_room.
  - destruct c; cbn [handle_command]; try (by apply enqueue_room); try (by apply room_part_same).
    case_match; by apply room_part_same.
  - by apply room_part_same.
  - apply room_part_same, expire_room.
Qed.

Lemma node_room ev nd nd' :
  pool_ok (lp_pool (nd_loop nd)) -> run_node ev nd = Done tt nd' -> loop_room_step (nd_loop nd) (nd_loop nd').
Proof.
  intros Hok.
  assert (Hw : forall m nd nd', on_nd_world m nd = Done tt nd' -> nd_loop nd' = nd_loop nd).
  { intros m nd1 nd2. unfold on_nd_world. destruct (m _) as [[] w|]; [|done]. by intros [= <-]. }
  assert (Hl : forall v e nd1 nd', nd_loop nd1 = nd_loop nd -> loop_round v e nd1 = Done tt nd' -> loop_room_step (nd_loop nd) (nd_loop nd')).
  { intros v e nd1 nd2 H1 Hrun. destruct (loop_round_run v e nd1) as (nd3 & Hrun' & _ & Hl).
    rewrite Hrun in Hrun'. injection Hrun' as <-. rewrite Hl, H1. by apply loop_room. }
  destruct ev as [ev|v|v e|v|i r|self s]; cbn [run_node].
  - intros H. rewrite (Hw _ _ _ H). by apply room_part_same.
  - mpure. destruct (w_cmds (nd_world nd)) as [|c rest]; [intros [= <-]; by apply room_part_same|].
    destruct (lp_running (nd_loop nd)); cbn [when]; [|intros [= <-]; by apply room_part_same].
    unfold on_nd_world. cbn. by apply Hl.
  - by apply Hl.
  - by apply Hl.
  - mpure. destruct (remove_at i _) as [[t rest]|] eqn:E; [|intros [= <-]; by apply room_part_same].
    unfold on_nd_loop. mpure. intros H. rewrite (Hw _ _ _ H). cbn. apply room_same; [done|]. cbn.
    intros x. rewrite !list_elem_of_fmap. intros (y & -> & Hy). exists y. split; [done|].
    rewrite (remove_at_perm _ _ _ _ E). by apply list_elem_of_further.
  - destruct (read_message s) as [[[h payload]|e] s']; [|intros [= <-]; by apply room_part_same].
    intros H. rewrite (Hw _ _ _ H). by apply room_part_same.
Qed.

(** * The invariant of the reports *)

Definition result_of (resp : bool) (h : host) (m : OutboundMsg) : option send_result :=
  rx ← ob_result_tx m; ho_results h !! (resp, rx).

(** The result of a message of which the peer can read [k] copies. *)
Definition reported (exact : Prop) (resp : bool) (h : host) (m : OutboundMsg) (k : nat) : Prop :=
  (k <= 3)%nat /\ exists r, result_of resp h m = Some r /\ copies_ok r k /\ (exact -> copies_exact r k).

Definition flushing (s : writer) : Prop := forall st, wr_stream s = Some st -> ws_flushes st = None.

Definition chan_reports (exact : Prop) (resp : bool) (h : host) (c : nat) : Prop :=
  let t := host_task resp c h in
  exists ks, writer_inv (wt_writer t) (with_copies (take (wt_taken t) (chan_msgs c (host_pool resp h))) ks) /\
    Forall2 (reported exact resp h) (take (wt_taken t) (chan_msgs c (host_pool resp h))) ks /\
    (exact -> flushing (wt_writer t)).

Record reports (exact : Prop) (resp : bool) (h : host) : Prop := mk_reports {
  rp_rx : forall c i m, chan_msgs c (host_pool resp h) !! i = Some m ->
    exists rx, ob_result_tx m = Some rx /\ (rx < next_rx resp h)%nat;
  rp_inj : forall c i m c' i' m', chan_msgs c (host_pool resp h) !! i = Some m ->
    chan_msgs c' (host_pool resp h) !! i' = Some m' -> ob_result_tx m = ob_result_tx m' -> c = c' /\ i = i';
  rp_known : forall rx, is_Some (ho_results h !! (resp, rx)) -> (rx < next_rx resp h)%nat;
  rp_pending : forall c i m, chan_msgs c (host_pool resp h) !! i = Some m ->
    (wt_taken (host_task resp c h) <= i)%nat -> result_of resp h m = None;
  rp_taken : forall c, (wt_taken (host_task resp c h) <= length (chan_msgs c (host_pool resp h)))%nat;
  rp_awaited : forall rx, rx ∈ awaited resp h -> exists c i m,
    chan_msgs c (host_pool resp h) !! i = Some m /\ ob_result_tx m = Some rx;
  rp_chan : host_sized h -> forall c, chan_reports exact resp h c;
}.

(** ** Steps of the pools *)

Lemma result_of_ext resp h h' m : ho_results h' = ho_results h -> result_of resp h' m = result_of resp h m.
Proof. unfold result_of. by intros ->. Qed.

Lemma chan_reports_ext exact resp h h' c :
  host_task resp c h' = host_task resp c h ->
  take (wt_taken (host_task resp c h)) (chan_msgs c (host_pool resp h'))
  = take (wt_taken (host_task resp c h)) (chan_msgs c (host_pool resp h)) ->
  (forall i m, chan_msgs c (host_pool resp h) !! i = Some m -> (i < wt_taken (host_task resp c h))%nat ->
     result_of resp h' m = result_of resp h m) ->
  chan_reports exact resp h c -> chan_reports exact resp h' c.
Proof.
  unfold chan_reports. intros -> -> Hr (ks & Hw & Hf & Hfl). exists ks. split_and!; [done| |done].
  apply Forall2_same_length_lookup. split; [by eapply Forall2_length|]. intros i m k Hm Hk.
  pose proof (Forall2_lookup_lr _ _ _ _ _ _ Hf Hm Hk) as (Hk3 & r & Hres & Hc). split; [done|]. exists r.
  apply lookup_take_Some in Hm as [Hm Hi]. by rewrite (Hr i m Hm Hi).
Qed.

Lemma chan_msgs_post c d peer msgs p p' :
  pool_chans p' = <[c := mkChannel peer msgs false]> (pool_chans p) ->
  chan_msgs d p' = if decide (c = d) then msgs else chan_msgs d p.
Proof.
  unfold chan_msgs. intros ->. case_decide as Hd; [subst; by rewrite lookup_insert_eq|]. by rewrite lookup_insert_ne.
Qed.

Lemma chan_msgs_post_Some c d peer p p' m i x :
  pool_chans p' = <[c := mkChannel peer (chan_msgs c p ++ [m]) false]> (pool_chans p) ->
  chan_msgs d p' !! i = Some x ->
  chan_msgs d p !! i = Some x \/ (d = c /\ x = m /\ i = length (chan_msgs c p)).
Proof.
  intros Hp. rewrite (chan_msgs_post c d peer _ p p' Hp). case_decide as Hd; [subst d|by left].
  rewrite lookup_app_Some. intros [H|[Hi H]]; [by left|]. right. destruct (i - _)%nat as [|j] eqn:E; [|done].
  cbn in H. simplify_eq. split_and!; [done|done|lia].
Qed.

Lemma reports_room exact resp h h' :
  room_step (host_pool resp h) (next_rx resp h) (awaited resp h) (host_pool resp h') (next_rx resp h') (awaited resp h') ->
  ho_tasks h' = ho_tasks h -> ho_results h' = ho_results h -> (host_sized h' -> host_sized h) ->
  reports exact resp h -> reports exact resp h'.
Proof.
  intros Hroom Ht Hr Hs [H1 H2 H3 H4 H5 H6 H7].
  assert (Htk : forall c, host_task resp c h' = host_task resp c h) by (intros c; unfold host_task; by rewrite Ht).
  inversion Hroom as [p' rxs' Hp Hrx Ep En Ea|p' rxs' c peer m Hp Hm Hrx Ep En Ea].
  - assert (Hc : forall c, chan_msgs c (host_pool resp h') = chan_msgs c (host_pool resp h))
      by (intros c; unfold chan_msgs; by rewrite Hp).
    split; rewrite <-?En.
    + intros c i m. rewrite Hc. apply H1.
    + intros c i m c' i' m'. rewrite !Hc. apply H2.
    + rewrite Hr. apply H3.
    + intros c i m. rewrite Hc, Htk, (result_of_ext resp h h' m Hr). apply H4.
    + intros c. rewrite Hc, Htk. apply H5.
    + intros rx Hin. destruct (H6 rx (Hrx rx Hin)) as (c & i & m & Hc' & Hm). exists c, i, m. by rewrite Hc.
    + intros Hsz c. eapply chan_reports_ext; [apply Htk|by rewrite Hc|intros; by apply result_of_ext|apply H7, Hs, Hsz].
  - pose proof (fun d i x => chan_msgs_post_Some c d peer _ _ m i x Hp) as Hc.
    assert (Hold : forall d i x, chan_msgs d (host_pool resp h) !! i = Some x -> chan_msgs d (host_pool resp h') !! i = Some x).
    { intros d i x Hx. rewrite (chan_msgs_post c d peer _ _ _ Hp). case_decide; [subst d|done]. by apply lookup_app_l_Some. }
    split; rewrite <-?En.
    + intros d i x [Hx|(-> & -> & _)]%Hc; [|eauto with lia]. destruct (H1 d i x Hx) as (rx & ? & ?). exists rx. split; [done|lia].
    + intros d i x d' i' x' Hx Hx' Hrxe. apply Hc in Hx as [Hx|(-> & -> & ->)], Hx' as [Hx'|(-> & -> & ->)]; [by eapply H2| | |done].
      * destruct (H1 d i x Hx) as (rx & ? & ?). assert (rx = next_rx resp h) by congruence. lia.
      * destruct (H1 d' i' x' Hx') as (rx & ? & ?). assert (rx = next_rx resp h) by congruence. lia.
    + rewrite Hr. intros rx Hrx'. specialize (H3 rx Hrx'). lia.
    + intros d i x Hx. rewrite Htk, (result_of_ext resp h h' x Hr). intros Hi. apply Hc in Hx as [Hx|(-> & -> & ->)]; [by eapply H4|].
      unfold result_of. rewrite Hm. cbn. destruct (ho_results h !! _) eqn:E; [|done]. specialize (H3 _ ltac:(by eexists)). lia.
    + intros d. rewrite Htk, (chan_msgs_post c d peer _ _ _ Hp). case_decide; [subst d|apply H5].
      rewrite length_app. specialize (H5 c). lia.
    + intros rx Hin. apply Hrx, elem_of_app in Hin as [Hin|Hin].
      * destruct (H6 rx Hin) as (d & i & x & Hx & Hm'). eauto 6.
      * apply list_elem_of_singleton in Hin as ->. exists c, (length (chan_msgs c (host_pool resp h))), m.
        rewrite (chan_msgs_post c c peer _ _ _ Hp), decide_True by done. split; [|done]. by apply list_lookup_middle.
    + intros Hsz d. eapply chan_reports_ext; [apply Htk| |intros; by apply result_of_ext|apply H7, Hs, Hsz].
      rewrite (chan_msgs_post c d peer _ _ _ Hp). case_decide; [subst d|done]. apply take_app_le, H5.
Qed.

(** ** Writing *)

Section Write.
Context {LPL : Libp2pLaws}.

Lemma host_write_effect resp c opens h :
  host_write resp c opens h = h \/
  exists m, chan_msgs c (host_pool resp h) !! wt_taken (host_task resp c h) = Some m /\
    let w := wt_writer (host_task resp c h) in
    let out := send_one_message (ob_header m) (ob_payload m) (mkWriter (wr_stream w) (wr_dropped w) opens (wr_slept w)) in
    ho_tasks (host_write resp c opens h) = <[(resp, c) := mkWTask (S (wt_taken (host_task resp c h))) out.2]> (ho_tasks h) /\
    ho_results (host_write resp c opens h)
    = match ob_result_tx m with Some rx => <[(resp, rx) := out.1]> (ho_results h) | None => ho_results h end.
Proof.
  unfold host_write, chan_msgs. destruct (pool_chans (host_pool resp h) !! c) as [ch|] eqn:Ec; [|by left].
  cbn [from_option]. destruct (ch_msgs ch !! wt_taken (host_task resp c h)) as [m|] eqn:Em; [|by left]. right. exists m.
  split; [done|]. cbv zeta. by destruct (send_one_message (ob_header m) (ob_payload m) _) as [r w'].
Qed.

Lemma host_write_next resp c opens h resp' :
  next_rx resp' (host_write resp c opens h) = next_rx resp' h /\ awaited resp' (host_write resp c opens h) = awaited resp' h.
Proof. unfold next_rx, awaited, host_write. by destruct resp'; repeat case_match. Qed.

Lemma host_write_sized resp c opens h : host_sized (host_write resp c opens h) -> host_sized h.
Proof. intros Hs r d x y. specialize (Hs r d x y). by rewrite host_write_pools in Hs. Qed.

Definition flushes_hold (opens : list (option (option nat * option nat))) : Prop :=
  Forall (fun o => match o with Some (_, f) => f = None | None => True end) opens.

(** The channel that is written: one more message and its result. *)
Lemma chan_reports_write exact resp h h' c m opens :
  chan_reports exact resp h c -> chan_msgs c (host_pool resp h) !! wt_taken (host_task resp c h) = Some m ->
  outbound_ok m -> (exact -> flushes_hold opens) ->
  let w := wt_writer (host_task resp c h) in
  let out := send_one_message (ob_header m) (ob_payload m) (mkWriter (wr_stream w) (wr_dropped w) opens (wr_slept w)) in
  host_pool resp h' = host_pool resp h ->
  host_task resp c h' = mkWTask (S (wt_taken (host_task resp c h))) out.2 -> result_of resp h' m = Some out.1 ->
  (forall i x, chan_msgs c (host_pool resp h) !! i = Some x -> (i < wt_taken (host_task resp c h))%nat ->
     result_of resp h' x = result_of resp h x) ->
  chan_reports exact resp h' c.
Proof.
  intros (ks & Hw & Hf & Hfl) Hm Hok Hop w out Hp Ht Hres Hold.
  assert (Hw' : writer_inv (mkWriter (wr_stream w) (wr_dropped w) opens (wr_slept w))
    (with_copies (take (wt_taken (host_task resp c h)) (chan_msgs c (host_pool resp h))) ks)) by (by eapply writer_inv_ext; [..|exact Hw]).
  destruct (send_attempts_spec 3 0 (ob_header m) (ob_payload m) _ Hok _ Hw') as (k & Hk & Hi & Hc & Hex).
  fold (send_one_message (ob_header m) (ob_payload m) (mkWriter (wr_stream w) (wr_dropped w) opens (wr_slept w))) in Hi, Hc, Hex.
  fold out in Hi, Hc, Hex. unfold chan_reports. rewrite Ht, Hp. cbn [wt_taken wt_writer]. exists (ks ++ [k]).
  rewrite (take_S_r _ _ _ Hm). split_and!.
  - rewrite with_copies_snoc; [exact Hi|]. symmetry. by eapply Forall2_length.
  - apply Forall2_app.
    + apply Forall2_same_length_lookup. split; [by eapply Forall2_length|]. intros i x y Hx Hy.
      destruct (Forall2_lookup_lr _ _ _ _ _ _ Hf Hx Hy) as (? & r & Hr & ?). apply lookup_take_Some in Hx as [Hx Hlt].
      split; [done|]. exists r. by rewrite (Hold i x Hx Hlt).
    + constructor; [|constructor]. split; [done|]. exists out.1. split_and!; [done|done|]. intros He.
      apply Hex. split; [by apply Hfl|by apply Hop].
  - intros He. destruct Hex as [[Hfs _] _]; [|done]. split; [by apply Hfl|by apply Hop].
Qed.

Lemma host_task_write resp c opens h resp' c' t :
  ho_tasks (host_write resp c opens h) = <[(resp, c) := t]> (ho_tasks h) ->
  host_task resp' c' (host_write resp c opens h) = if decide ((resp, c) = (resp', c')) then t else host_task resp' c' h.
Proof.
  unfold host_task. intros ->. case_decide as E; [rewrite E; by rewrite lookup_insert_eq|]. by rewrite lookup_insert_ne.
Qed.

(** The result of the message goes nowhere else. *)
Lemma result_of_write resp h h' m rx r resp' x :
  ob_result_tx m = Some rx -> ho_results h' = <[(resp, rx) := r]> (ho_results h) ->
  (resp = resp' -> ob_result_tx x <> Some rx) -> result_of resp' h' x = result_of resp' h x.
Proof.
  intros Hm Hr Hne. unfold result_of. rewrite Hr. destruct (ob_result_tx x) as [rx'|] eqn:E; [|done]. cbn.
  rewrite lookup_insert_ne; [done|]. intros [= -> ->]. by apply Hne.
Qed.

Lemma reports_write exact resp resp' c opens h :
  host_typed h -> (exact -> flushes_hold opens) ->
  reports exact resp h -> reports exact resp' h -> reports exact resp' (host_write resp c opens h).
Proof.
  intros Hty Hop [H1 H2 H3 H4 H5 H6 H7] [G1 G2 G3 G4 G5 G6 G7].
  destruct (host_write_effect resp c opens h) as [->|(m & Hm & Ht & Hr)]; [done|]. cbv zeta in Ht, Hr.
  destruct (H1 _ _ _ Hm) as (rx & Hrx & Hlt). rewrite Hrx in Hr.
  destruct (host_write_next resp c opens h resp') as [Hn Ha]. pose proof (host_write_pools resp c opens h) as Hpools.
  pose proof (fun c' => host_task_write resp c opens h resp' c' _ Ht) as Htask.
  assert (Hother : forall d i x, chan_msgs d (host_pool resp' h) !! i = Some x ->
    (resp, c, wt_taken (host_task resp c h)) <> (resp', d, i) -> result_of resp' (host_write resp c opens h) x = result_of resp' h x).
  { intros d i x Hx Hne. eapply result_of_write; [exact Hrx|exact Hr|]. intros <- Hx'.
    destruct (H2 _ _ _ _ _ _ Hm Hx) as [-> Hi]; [congruence|]. apply Hne. by rewrite Hi. }
  split; rewrite ?Hpools, ?Hn, ?Ha; try done.
  - intros rx'. rewrite Hr, lookup_insert_is_Some. intros [[= <- <-]|[_ H]]; [done|by apply G3].
  - intros d i x Hx. rewrite Htask. case_decide as E.
    + injection E as <- <-. cbn. intros Hi. rewrite (Hother c i x Hx); [apply (G4 c i x Hx); lia|]. intros [= Hi']. lia.
    + intros Hi. rewrite (Hother d i x Hx); [by apply (G4 d i x Hx)|]. intros [= -> -> _]. done.
  - intros d. rewrite Htask. case_decide as E; [|apply G5]. injection E as <- <-. cbn.
    by apply lookup_lt_Some in Hm.
  - intros Hs%host_write_sized d. destruct (decide ((resp, c) = (resp', d))) as [[= <- <-]|Hne].
    + eapply (chan_reports_write exact resp h _ c m opens); [by apply H7|done| |done|apply Hpools| | |].
      * unfold chan_msgs in Hm. destruct (pool_chans (host_pool resp h) !! c) as [ch|] eqn:Ec; [|done]. cbn in Hm.
        pose proof (list_elem_of_lookup_2 _ _ _ Hm) as Hin. apply outbound_typed_ok; [|by eapply Hs].
        by apply (proj1 (Forall_forall _ _) (host_pool_typed h resp Hty c ch Ec)).
      * rewrite Htask, decide_True by done. done.
      * unfold result_of. rewrite Hrx, Hr. cbn. by rewrite lookup_insert_eq.
      * intros i x Hx Hi. apply (Hother c i x Hx). intros [= Hi']. lia.
    + eapply chan_reports_ext; [..|by apply G7]; [by rewrite Htask, decide_False|by rewrite Hpools|].
      intros i x Hx Hi. apply (Hother d i x Hx). intros [= -> -> _]. done.
Qed.

End Write.

(** * Any run *)

Context {LPL : Libp2pLaws} {OSL : OsLaws}.

Definition net_reports (exact : Prop) (nw : network) : Prop :=
  forall p h, nw_hosts nw !! p = Some h -> forall resp, reports exact resp h.

(** Runs whose events all satisfy [Q]. *)
Inductive net_reachable_with (Q : net_event -> Prop) (nw0 : network) : network -> Prop :=
| net_with_refl : net_reachable_with Q nw0 nw0
| net_with_step nw ev nw' :
    net_reachable_with Q nw0 nw -> net_ok nw ev -> Q ev -> run_net ev nw = Done tt nw' -> net_reachable_with Q nw0 nw'.

Lemma net_with_reachable Q nw0 nw : net_reachable_with Q nw0 nw -> net_reachable nw0 nw.
Proof. induction 1; [constructor|by eapply net_reach_step]. Qed.

Lemma reachable_net_with nw0 nw : net_reachable nw0 nw -> net_reachable_with (fun _ => True) nw0 nw.
Proof. induction 1; [constructor|by eapply net_with_step]. Qed.

(** No stream that is opened fails a flush. *)
Definition no_flush_fails (ev : net_event) : Prop :=
  match ev with NetWrite _ _ _ opens => flushes_hold opens | _ => True end.

Definition host_room_step (h h' : host) : Prop := forall resp,
  room_step (host_pool resp h) (next_rx resp h) (awaited resp h) (host_pool resp h') (next_rx resp h') (awaited resp h').

Lemma room_sized h h' : host_room_step h h' -> host_sized h' -> host_sized h.
Proof.
  intros Hr Hs resp c ch m Hc Hm. assert (Hin : exists ch', pool_chans (host_pool resp h') !! c = Some ch' /\ m ∈ ch_msgs ch').
  { destruct (Hr resp) as [p' rxs' Hp _|p' rxs' d peer x Hp _ _]; rewrite Hp; [by eauto|].
    destruct (decide (d = c)) as [->|Hne]; [|rewrite lookup_insert_ne; eauto]. rewrite lookup_insert_eq.
    eexists. split; [done|]. cbn. unfold chan_msgs. rewrite Hc. apply elem_of_app. by left. }
  destruct Hin as (ch' & Hc' & Hm'). by eapply Hs.
Qed.

Lemma net_reports_room exact p h h' nw :
  net_reports exact nw -> nw_hosts nw !! p = Some h -> host_room_step h h' -> ho_tasks h' = ho_tasks h ->
  ho_results h' = ho_results h -> net_reports exact (set_host p h' nw).
Proof.
  intros Hn Hp Hr Ht Hres q x. cbn. rewrite lookup_insert_Some. intros [[<- <-]|[_ Hq]]; [|by eapply Hn].
  intros resp. eapply reports_room; [apply Hr|done|done|by apply room_sized|by eapply Hn].
Qed.

Lemma node_host_room h nd' :
  loop_room_step (nd_loop (ho_node h)) (nd_loop nd') -> host_room_step h (set_node nd' h).
Proof. intros H []; [by apply room_same|exact H]. Qed.

Lemma respond_room dest m h : pool_ok (ho_resp h) -> host_room_step h (host_respond dest m h).
Proof.
  intros Hok resp. pose proof (post_room dest (mkOutbound m.1 m.2 (Some (ho_next_resp h))) (ho_resp h) (ho_next_resp h) [] []
    Hok eq_refl ltac:(set_solver)) as H. unfold pool_send in H. unfold host_respond.
  destruct (get_or_create dest (ho_resp h)) as [c p]. destruct resp; [exact H|by apply room_same].
Qed.

Lemma on_host_reports exact p ev nw nw' :
  net_inv nw -> net_reports exact nw -> on_host p (run_node ev) (fun _ nw => nw) nw = Done tt nw' -> net_reports exact nw'.
Proof.
  intros Hi Hn. unfold on_host. destruct (nw_hosts nw !! p) as [h|] eqn:Ep; [|by intros [= <-]].
  destruct (run_node ev (ho_node h)) as [[] nd'|] eqn:E; [|done]. intros [= <-].
  destruct (nwi_host nw Hi p h Ep) as [Hty _]. pose proof (ht_pool h Hty false) as Hok.
  eapply net_reports_room; [done|exact Ep| |done|done]. apply node_host_room. by eapply node_room.
Qed.

Lemma read_reports exact sid nw nw' :
  net_inv nw -> net_reports exact nw -> run_net (NetRead sid) nw = Done tt nw' -> net_reports exact nw'.
Proof.
  intros Hi Hn. cbn [run_net]. destruct (stream_at sid nw) as [[q st]|]; [|by intros [= <-]]. cbv zeta.
  destruct (rd_state (net_reader sid nw)); [|by intros [= <-]..].
  destruct (read_message _) as [[[h payload]|e] s']; [|destruct e; by intros [= <-]]. unfold on_host.
  destruct (nw_hosts nw !! q) as [hq|] eqn:Eq; [|by intros [= <-]].
  destruct (dispatch q h payload _) as [resp w'|]; [|done]. intros [= <-].
  set (h1 := set_node _ hq). assert (Hn1 : net_reports exact (set_host q h1 nw)).
  { eapply net_reports_room; [done|exact Eq| |done|done]. by apply node_host_room, room_part_same. }
  unfold after_dispatch. destruct resp as [x|]; [|exact Hn1]. unfold upd_host. cbn [nw_hosts set_reader set_host].
  rewrite lookup_insert_eq. eapply net_reports_room; [exact Hn1|apply lookup_insert_eq| |unfold host_respond; by destruct (get_or_create _ _)..].
  apply respond_room. destruct (nwi_host nw Hi q hq Eq) as [Hty _]. exact (ht_pool hq Hty true).
Qed.

Lemma run_net_reports exact ev nw nw' :
  net_inv nw -> (exact -> no_flush_fails ev) -> net_reports exact nw -> run_net ev nw = Done tt nw' -> net_reports exact nw'.
Proof.
  intros Hi Hf Hn. destruct ev as [p ev|p i|p resp c opens|sid|sid|sid].
  - by apply on_host_reports.
  - cbn [run_net]. case_match; [by apply on_host_reports|by intros [= <-]].
  - intros [= <-]. unfold upd_host. destruct (nw_hosts nw !! p) as [h|] eqn:Ep; [|done].
    intros q x. cbn. rewrite lookup_insert_Some. intros [[<- <-]|[_ Hq]]; [|by eapply Hn].
    intros resp'. destruct (nwi_host nw Hi p h Ep) as [Hty _]. apply reports_write; [done|done|by eapply Hn..].
  - by apply read_reports.
  - intros [= <-]. cbv zeta. by repeat case_match.
  - by intros [= <-].
Qed.

Lemma net_with_reports exact Q nw0 nw :
  (exact -> forall ev, Q ev -> no_flush_fails ev) -> net_inv nw0 -> net_reports exact nw0 ->
  net_reachable_with Q nw0 nw -> net_reports exact nw.
Proof.
  intros Hq H0 Hn0. induction 1 as [|nw ev nw' Hr IH Hok HQ Hrun]; [done|].
  eapply run_net_reports; [|intros He; exact (Hq He ev HQ)|exact IH|exact Hrun]. by eapply net_reachable_inv, net_with_reachable.
Qed.

(** ** The beginning *)

Lemma fresh_reports exact h resp :
  host_fresh h -> ho_results h = ∅ -> lp_tasks (nd_loop (ho_node h)) = [] -> reports exact resp h.
Proof.
  intros (_ & _ & Hl & Hr & Ht) Hres Htk.
  assert (Hc : forall c, chan_msgs c (host_pool resp h) = []).
  { intros c. unfold chan_msgs. unfold host_pool. destruct resp; rewrite ?Hl, ?Hr; cbn [PeerSenderPool_new pool_chans];
      by rewrite lookup_empty. }
  assert (Hta : forall c, host_task resp c h = wtask_new) by (intros c; unfold host_task; by rewrite Ht, lookup_empty).
  split.
  - intros c i m. by rewrite Hc.
  - intros c i m. by rewrite Hc.
  - intros rx. rewrite Hres, lookup_empty. by intros [? ?].
  - intros c i m. by rewrite Hc.
  - intros c. rewrite Hta. cbn. lia.
  - intros rx. unfold awaited. destruct resp; rewrite ?Htk; by intros ?%elem_of_nil.
  - intros _ c. unfold chan_reports. rewrite Hta, Hc. exists []. split_and!; [apply writer_inv_new|constructor|done].
Qed.

(** A network of which no host has sent anything yet. *)
Definition net_fresh (nw : network) : Prop :=
  nw_readers nw = ∅ /\ forall p h, nw_hosts nw !! p = Some h ->
    host_fresh h /\ ho_results h = ∅ /\ lp_tasks (nd_loop (ho_node h)) = [].

Lemma net_fresh_inv nw : net_fresh nw -> net_inv nw.
Proof. destruct nw as [hosts rs]. intros [Hr H]. cbn in Hr. subst rs. apply net_start_inv. intros p h Hp. by destruct (H p h Hp). Qed.

Lemma net_fresh_reports exact nw : net_fresh nw -> net_reports exact nw.
Proof. intros [_ H] p h Hp resp. destruct (H p h Hp) as (? & ? & ?). by apply fresh_reports. Qed.

(** * What was reported *)

Definition sent_ok (resp : bool) (h : host) (m : OutboundMsg) : option (WireHeader * list byte) :=
  match result_of resp h m with Some SendOk => Some (ob_header m, ob_payload m) | _ => None end.

Lemma exact_copies resp h msgs ks :
  Forall2 (reported True resp h) msgs ks -> with_copies msgs ks = omap (sent_ok resp h) msgs.
Proof.
  unfold with_copies. induction 1 as [|m k msgs ks (_ & r & Hr & _ & Hk) _ IH]; [done|]. cbn. unfold sent_ok at 1. rewrite Hr, IH.
  specialize (Hk I). destruct r; by rewrite Hk.
Qed.

Lemma unsent resp h c :
  reports True resp h ->
  omap (sent_ok resp h) (chan_msgs c (host_pool resp h))
  = omap (sent_ok resp h) (take (wt_taken (host_task resp c h)) (chan_msgs c (host_pool resp h))).
Proof.
  intros Hrep. rewrite <-(take_drop (wt_taken (host_task resp c h)) (chan_msgs c (host_pool resp h))) at 1.
  rewrite omap_app. set (rest := drop _ _).
  assert (Hall : Forall (fun m => sent_ok resp h m = None) rest).
  { apply Forall_forall. intros m [i Hi]%list_elem_of_lookup. unfold rest in Hi. rewrite lookup_drop in Hi. unfold sent_ok.
    by rewrite (rp_pending _ _ _ Hrep c _ m Hi ltac:(lia)). }
  replace (omap (sent_ok resp h) rest) with (@nil (WireHeader * list byte)); [apply app_nil_r|].
  clearbody rest. induction Hall as [|m l Hm _ IH]; [done|]. cbn. by rewrite Hm.
Qed.

Lemma copies_elem msgs ks i m k :
  msgs !! i = Some m -> ks !! i = Some k -> (1 <= k)%nat -> (ob_header m, ob_payload m) ∈ with_copies msgs ks.
Proof.
  intros Hm Hk H1. unfold with_copies. apply list_elem_of_In, in_concat. exists (repeat (ob_header m, ob_payload m) k). split.
  - apply list_elem_of_In, list_elem_of_lookup. exists i. rewrite lookup_zip_with, Hm. cbn. by rewrite Hk.
  - destruct k; [lia|]. by left.
Qed.

(** What the handlers of the streams of a channel have dispatched. *)
Definition dispatched (p : PeerId) (resp : bool) (c : nat) (h : host) (nw : network) : list (WireHeader * list byte) :=
  concat (imap (fun i _ => rd_log (net_reader (p, (resp, c), i) nw)) (wr_streams (wt_writer (host_task resp c h)))).

Definition caught_up (p : PeerId) (resp : bool) (c : nat) (h : host) (nw : network) : Prop :=
  forall i st, wr_streams (wt_writer (host_task resp c h)) !! i = Some st ->
    rd_pos (net_reader (p, (resp, c), i) nw) = length (ws_sent st).

Lemma dispatched_all nw p h resp c ch :
  net_inv nw -> net_sized nw -> nw_hosts nw !! p = Some h -> pool_chans (host_pool resp h) !! c = Some ch ->
  caught_up p resp c h nw -> dispatched p resp c h nw = delivered_to_peer (wt_writer (host_task resp c h)).
Proof.
  intros Hi Hs Hp Hc Hup. unfold dispatched, delivered_to_peer. f_equal. apply list_eq. intros i.
  rewrite list_lookup_imap, list_lookup_fmap. destruct (wr_streams _ !! i) as [st|] eqn:E; [|done]. cbn. f_equal.
  destruct (reader_of_stream nw p h resp c ch i st Hi Hs Hp Hc E) as [_ H]. apply H. by apply Hup.
Qed.

(** * Theorems *)

(** C2: Reports are true, across the network: in any run that [net_ok] allows, from
    a network that has sent nothing, in which no flush fails and every message
    handed to a channel is shorter than 4 GiB, the streams of a channel carry
    exactly the messages reported to their sender as sent, once each and in order,
    however many streams broke; and once the handlers have read these streams,
    this is exactly what they have dispatched at the peer. *)
Theorem network_exactly_once nw0 nw p h resp c ch :
  net_fresh nw0 -> net_reachable_with no_flush_fails nw0 nw -> net_sized nw ->
  nw_hosts nw !! p = Some h -> pool_chans (host_pool resp h) !! c = Some ch ->
  let reported := omap (sent_ok resp h) (ch_msgs ch) in
  delivered_to_peer (wt_writer (host_task resp c h)) = reported /\
  (caught_up p resp c h nw -> dispatched p resp c h nw = reported).
Proof.
  intros H0 Hr Hs Hp Hc rep. pose proof (net_reachable_inv _ _ (net_fresh_inv _ H0) (net_with_reachable _ _ _ Hr)) as Hi.
  pose proof (net_with_reports True _ _ _ (fun _ _ H => H) (net_fresh_inv _ H0) (net_fresh_reports _ _ H0) Hr p h Hp resp) as Hrep.
  assert (Hd : delivered_to_peer (wt_writer (host_task resp c h)) = rep).
  { destruct (rp_chan _ _ _ Hrep (Hs p h Hp) c) as (ks & Hw & Hf & _). rewrite (writer_inv_delivered _ _ Hw), (exact_copies _ _ _ _ Hf).
    rewrite <-unsent by done. unfold rep, chan_msgs. by rewrite Hc. }
  split; [done|]. intros Hup. by rewrite (dispatched_all nw p h resp c ch).
Qed.

(** C4: Nobody waits for ever: in any run that [net_ok] allows, from a network that
    has sent nothing and with messages shorter than 4 GiB, once the writer tasks of
    a node have taken the messages of their channels, every completion task has its
    result; a success means that the message is on a stream to the peer. *)
Theorem awaited_results_arrive nw0 nw p h t :
  net_fresh nw0 -> net_reachable nw0 nw -> net_sized nw ->
  nw_hosts nw !! p = Some h -> t ∈ lp_tasks (nd_loop (ho_node h)) ->
  (forall c ch, pool_chans (host_pool false h) !! c = Some ch -> wt_taken (host_task false c h) = length (ch_msgs ch)) ->
  exists r, ho_results h !! (false, ct_result_rx t) = Some r /\
    (r = SendOk -> exists c ch m, pool_chans (host_pool false h) !! c = Some ch /\ m ∈ ch_msgs ch /\
       ob_result_tx m = Some (ct_result_rx t) /\
       (ob_header m, ob_payload m) ∈ delivered_to_peer (wt_writer (host_task false c h))).
Proof.
  intros H0 Hr Hs Hp Ht Hall. pose proof (net_with_reports False _ _ _ (fun F _ _ => False_ind _ F) (net_fresh_inv _ H0) (net_fresh_reports _ _ H0)
    (reachable_net_with _ _ Hr) p h Hp false) as Hrep.
  destruct (rp_awaited _ _ _ Hrep (ct_result_rx t)) as (c & i & m & Hm & Hrx); [by apply list_elem_of_fmap_2|].
  destruct (rp_chan _ _ _ Hrep (Hs p h Hp) c) as (ks & Hw & Hf & _).
  unfold chan_msgs in *. destruct (pool_chans (host_pool false h) !! c) as [ch|] eqn:Ec; [|done]. cbn [from_option] in *.
  rewrite (Hall c ch Ec), firstn_all in Hw, Hf. destruct (Forall2_lookup_l _ _ _ _ _ Hf Hm) as (k & Hk & _ & r & Hres & Hok & _).
  unfold result_of in Hres. rewrite Hrx in Hres. exists r. split; [done|]. intros ->. exists c, ch, m.
  split_and!; [done|by eapply list_elem_of_lookup_2|done|]. rewrite (writer_inv_delivered _ _ Hw). by eapply copies_elem; [..|apply Hok].
Qed.

End Reports.

Module ReportsDemo.
Import Demo DemoNode NodeDemo TypingDemo NetworkDemo.

Lemma quiet_fresh : net_fresh quiet.
Proof.
  split; [done|]. intros p h. change (nw_hosts quiet) with hosts. unfold hosts. rewrite lookup_insert_Some, lookup_singleton_Some.
  intros [[_ <-]|[_ [_ <-]]]; (split_and!; [split_and!; [exact start_inv|apply start_typed|done..]|done|done]).
Qed.

Lemma next_with nw ev :
  net_reachable_with no_flush_fails quiet nw -> net_ok nw ev -> no_flush_fails ev ->
  net_reachable_with no_flush_fails quiet (next ev nw).
Proof.
  intros Hr Hok Hf. eapply net_with_step; [exact Hr|exact Hok|exact Hf|]. unfold next.
  destruct (run_net_inv nw ev (net_reachable_inv _ _ quiet_net_inv (net_with_reachable _ _ _ Hr)) Hok) as (nw' & H & _).
  by rewrite H.
Qed.

Lemma nw4_with : net_reachable_with no_flush_fails quiet nw4.
Proof.
  apply next_with; [|done|done]. apply next_with; [|done|by repeat constructor]. apply next_with; [|done|done].
  apply next_with; [constructor| |done]. split_and!; [done|vm_compute; repeat split; discriminate|].
  intros h Hh. unfold quiet, hosts in Hh. cbn in Hh. rewrite lookup_insert_eq in Hh. injection Hh as <-. exact send_allowed.
Qed.

(** One message was reported as sent; Alice has it. *)
Lemma network_exactly_once_witness :
  map snd (omap (sent_ok false sender) (ch_msgs channel0)) = [[x41; x42; x43; x44]] /\
  dispatched self false 0 sender nw4 = omap (sent_ok false sender) (ch_msgs channel0).
Proof.
  split; [vm_compute; reflexivity|].
  apply (network_exactly_once quiet nw4 self sender false 0 channel0 quiet_fresh nw4_with nw4_sized sender_at channel_at).
  intros i st. set (w := wt_writer (host_task false 0 sender)).
  assert (H : forallb (fun x => Nat.eqb (rd_pos (net_reader (self, (false, 0%nat), x.1) nw4)) (length (ws_sent x.2)))
    (imap pair (wr_streams w)) = true) by (vm_compute; reflexivity).
  intros Hi. apply Nat.eqb_eq. apply (forallb_elem _ _ (i, st) H). apply list_elem_of_lookup. exists i.
  by rewrite list_lookup_imap, Hi.
Defined.

Definition task0 : completion_task := default (mkTask 0 0 false) (lp_tasks (nd_loop (ho_node sender)) !! 0%nat).

Lemma awaited_results_arrive_witness :
  exists r, ho_results sender !! (false, ct_result_rx task0) = Some r /\
    (r = SendOk -> exists c ch m, pool_chans (host_pool false sender) !! c = Some ch /\ m ∈ ch_msgs ch /\
       ob_result_tx m = Some (ct_result_rx task0) /\
       (ob_header m, ob_payload m) ∈ delivered_to_peer (wt_writer (host_task false c sender))).
Proof.
  apply (awaited_results_arrive quiet nw4 self sender task0 quiet_fresh nw4_reachable nw4_sized sender_at).
  - apply list_elem_of_lookup. exists 0%nat. apply default_is. vm_compute. reflexivity.
  - assert (H : forallb (fun x => Nat.eqb (wt_taken (host_task false x.1 sender)) (length (ch_msgs x.2)))
      (map_to_list (pool_chans (host_pool false sender))) = true) by (vm_compute; reflexivity).
    intros c ch Hc. apply Nat.eqb_eq. apply (forallb_elem _ _ (c, ch) H). by apply elem_of_map_to_list.
Defined.

End ReportsDemo.
