(* ===== verification/EndToEnd.v ===== *)
(** Two nodes: what one application sends through its event loop, its writer
    task and a stream is what happens in the state of the other node. *)
From Stdlib Require Import ZArith Lia.
From S2P Require Import Prelude.
From S2P Require Import RustStr.
From S2P Require Import Libp2p.
From S2P Require Import Memory.
From S2P Require Import Protocol.
From S2P Require Import State.
From S2P Require Import Messaging.
From S2P Require Import Rma.
From S2P Require Import Invariant.
From S2P Require Import Safety.
From S2P Require Import RmaSpec.
From S2P Require Import Incoming.
From S2P Require Import Sender.
From S2P Require Import EventLoop.
From S2P Require Import LoopSpec.
From S2P Require Import Mailbox.
From S2P Require Import Delivery.
From S2P Require Import System.
From S2P Require Import Runs.
From S2P Require Import Node.
From S2P Require Import DemoWorld.

Section EndToEnd.
Context {LP : Libp2p} {OS : Os} {NB : NaBindings} {LPL : Libp2pLaws} {OSL : OsLaws}.
Abbreviation MW := (M World).
Abbreviation message := (WireHeader * list byte)%type.

(** * A stream that works *)

Lemma write_message_works h p st :
  ws_room st = None -> ws_flushes st = None ->
  write_message h p st = (IOk tt, mk_wstream (ws_sent st ++ encode_message h p) None None).
Proof. intros Hr Hf. unfold write_message, write_all, flush. rewrite Hr. cbn. by rewrite Hf. Qed.

Lemma send_works h p s st :
  wr_stream s = Some st -> ws_room st = None -> ws_flushes st = None ->
  send_one_message h p s = (SendOk, set_stream (mk_wstream (ws_sent st ++ encode_message h p) None None) s).
Proof.
  intros Hs Hr Hf. unfold send_one_message. cbn [send_attempts]. rewrite Hs. by rewrite write_message_works.
Qed.

Lemma writer_works msgs s st :
  wr_stream s = Some st -> ws_room st = None -> ws_flushes st = None ->
  exists s', (peer_writer_task msgs s).2 = s' /\ wr_dropped s' = wr_dropped s /\
    wr_stream s' = Some (mk_wstream (ws_sent st ++ encode_all (map (fun m => (ob_header m, ob_payload m)) msgs)) None None) /\
    (peer_writer_task msgs s).1 = map (fun m => (ob_result_tx m, SendOk)) msgs.
Proof.
  revert s st. induction msgs as [|m msgs IH]; intros s st Hs Hr Hf; cbn [peer_writer_task].
  { exists s. unfold encode_all. cbn. rewrite app_nil_r, Hs. destruct st; cbn in *. by subst. }
  rewrite (send_works _ _ s st Hs Hr Hf).
  destruct (IH (set_stream (mk_wstream (ws_sent st ++ encode_message (ob_header m) (ob_payload m)) None None) s) _
              eq_refl eq_refl eq_refl) as (s' & H1 & H2 & H3 & H4).
  destruct (peer_writer_task msgs _) as [rs s2]. cbn in *. exists s'. subst. split_and!; [done|done| |done].
  rewrite H3. unfold encode_all. cbn. by rewrite <-app_assoc.
Qed.

(** The bytes a peer gets from a new writer task, which opens a stream for its
    first message, when that stream works from then on. *)
Definition sent_bytes (msgs : list OutboundMsg) : list byte :=
  from_option ws_sent [] (wr_stream (peer_writer_task msgs (writer_new [Some (None, None)])).2).

Lemma send_opens h p :
  send_one_message h p (writer_new [Some (None, None)])
  = (SendOk, mkWriter (Some (mk_wstream (encode_message h p) None None)) [] [] []).
Proof. unfold send_one_message. cbn [send_attempts writer_new wr_stream open_stream wr_opens]. by rewrite write_message_works. Qed.

Lemma sent_bytes_encode msgs : sent_bytes msgs = encode_all (map (fun m => (ob_header m, ob_payload m)) msgs).
Proof.
  unfold sent_bytes. destruct msgs as [|m msgs]; [done|]. cbn [peer_writer_task]. rewrite send_opens.
  destruct (writer_works msgs (mkWriter (Some (mk_wstream (encode_message (ob_header m) (ob_payload m)) None None)) [] [] []) _
    eq_refl eq_refl eq_refl) as (s' & H1 & _ & H2 & _).
  destruct (peer_writer_task msgs _) as [rs s2]. cbn in H1. subst s2. cbn [snd]. by rewrite H2.
Qed.

(** * A command through the loop *)

(** The running loop of a node takes the first command: its message is the last
    one in the channel of its destination. *)
Lemma take_command_run v w l c rest :
  lp_running l = true -> pool_ok (lp_pool l) -> c <> Shutdown -> w_cmds w = c :: rest ->
  exists l', run_node (NdCommand v) (mkNode w l) = Done tt (mkNode (upd_cmds (fun _ => rest) w) l') /\
    pool_ok (lp_pool l') /\ lp_running l' = true /\
    forall q, peer_messages q l' = peer_messages q l ++ option_list (message_for q c).
Proof.
  intros Hr Hok Hs Hc. set (w1 := upd_cmds (fun _ => rest) w).
  destruct (loop_round_run v (LeCommand (Some c)) (mkNode w1 l)) as ([w2 l2] & Hrun & Hw & Hl). cbn [nd_world nd_loop] in *.
  destruct (command_order v c l Hok Hr Hs) as (H1 & H2 & H3). cbv zeta in *.
  assert (E : l2 = handle_command v (Some c) l) by (rewrite Hl; unfold loop_step; by rewrite Hr). rewrite <-E in H1, H2, H3.
  exists l2. split_and!; [|done..]. rewrite H2 in Hw. subst w2. rewrite <-Hrun.
  cbn [run_node]. mpure. cbn [nd_world nd_loop]. rewrite Hc, Hr. cbn [when]. unfold on_nd_world at 1. by cbn.
Qed.

(** * Unexpected messages *)

(** The arguments of a call of [na_libp2p_msg_send_unexpected]. *)
Record send := mkSend {
  sd_context : Z; sd_callback : Z; sd_arg : Z; sd_buf : Z; sd_buf_size : Z; sd_dest_addr : Z; sd_tag : Z; sd_op : Z }.

(** What the buffer holds. *)
Definition sd_payload (m : memory) (s : send) : list byte :=
  if (sd_buf_size s >? 0) && negb (sd_buf s =? null) then default [] (mem_load m (sd_buf s) (Z.to_nat (sd_buf_size s))) else [].

(** A send to [dest] with a live operation, a mapped buffer of less than 4 GiB and
    a tag of its type. *)
Definition send_to (w : World) (dest : PeerId) (s : send) : Prop :=
  is_Some (w_ops w !! sd_op s) /\ (exists a, w_addrs w !! sd_dest_addr s = Some a /\ addr_peer_id a = dest) /\
  buf_ok w (sd_buf s) (sd_buf_size s) /\ sd_buf_size s < 2 ^ 32 /\ in_width 32 (sd_tag s).

(** The application sends, or the loop takes a command. *)
Inductive stage := Send (s : send) | Take (v : swarm_view).
Definition stage_event (x : stage) : node_event :=
  match x with
  | Send s => NdCall (NaSendUnexpected (sd_context s) (sd_callback s) (sd_arg s) (sd_buf s) (sd_buf_size s)
                        (sd_dest_addr s) (sd_tag s) (sd_op s))
  | Take v => NdCommand v
  end.
Definition stage_send (x : stage) : option send := match x with Send s => Some s | Take _ => None end.

Definition send_message_of (m : memory) (source : PeerId) (s : send) : message :=
  (send_header Unexpected (sd_tag s) (sd_payload m s) source, sd_payload m s).

(** After some stages the messages of the sends are in the channel of [dest] and,
    behind it, in the commands. *)
Record sending (w0 : World) (source dest : PeerId) (ss : list send) (nd : node) : Prop := mk_sending {
  sg_wf : wf (nd_world nd);
  sg_mem : w_mem (nd_world nd) = w_mem w0;
  sg_addrs : w_addrs (nd_world nd) = w_addrs w0;
  sg_ops : forall p, is_Some (w_ops w0 !! p) -> is_Some (w_ops (nd_world nd) !! p);
  sg_self : exists cls, w_class (nd_world nd) = Some cls /\ addr_peer_id (cls_self_addr cls) = source;
  sg_alive : w_loop_alive (nd_world nd) = true;
  sg_running : lp_running (nd_loop nd) = true;
  sg_pool : pool_ok (lp_pool (nd_loop nd));
  sg_cmds : Shutdown ∉ w_cmds (nd_world nd);
  sg_messages : peer_messages dest (nd_loop nd) ++ omap (message_for dest) (w_cmds (nd_world nd))
                = map (send_message_of (w_mem w0) source) ss;
}.

Lemma sending_send w0 source dest ss nd s :
  sending w0 source dest ss nd -> send_to w0 dest s ->
  exists nd', run_node (stage_event (Send s)) nd = Done tt nd' /\ sending w0 source dest (ss ++ [s]) nd'.
Proof.
  intros [Hwf Hm Ha Ho [cls [Hcls Hself]] Hal Hr Hpool Hsd Hmsg] (Hlive & (a & Hda & <-) & Hb & _ & _).
  destruct (Ho _ Hlive) as [op Hop]. destruct nd as [w l]. cbn [nd_world nd_loop] in *. rewrite <-Ha in Hda.
  assert (Hb' : buf_ok w (sd_buf s) (sd_buf_size s)) by (unfold buf_ok; by rewrite Hm).
  destruct (msg_send_unexpected_run w (sd_context s) (sd_callback s) (sd_arg s) _ _ _ (sd_tag s) _ op a Hwf Hop Hda Hb')
    as (cls' & payload & Hcls' & Hp & Hrun). assert (cls' = cls) as -> by congruence. rewrite Hself in Hrun.
  assert (Hpay : payload = sd_payload (w_mem w0) s).
  { unfold sent_payload, sd_payload in *. rewrite Hm in Hp. destruct (_ && _); [by rewrite Hp|done]. }
  unfold push_command in Hrun. cbn [w_loop_alive upd_ops] in Hrun. rewrite Hal in Hrun.
  cbn [stage_event run_node run_sys]. unfold on_nd_world. cbn [nd_world]. unfold ignore. rewrite (bind_Done _ _ _ _ _ Hrun).
  eexists. split; [done|]. split; cbn [nd_world nd_loop w_mem w_addrs w_class w_loop_alive w_cmds w_ops upd_cmds upd_ops];
    try done.
  - apply wf_upd_cmds. eapply wf_upd_op; [exact Hwf|exact Hop|by right].
  - intros p Hlp. apply live_insert. by apply Ho.
  - by exists cls.
  - rewrite not_elem_of_app, list_elem_of_singleton. done.
  - rewrite omap_app, app_assoc, Hmsg, map_app, Hpay. cbn. unfold message_for. cbn. by rewrite decide_True.
Qed.

Lemma sending_take w0 source dest ss nd v :
  sending w0 source dest ss nd ->
  exists nd', run_node (stage_event (Take v)) nd = Done tt nd' /\ sending w0 source dest ss nd'.
Proof.
  intros Hs. pose proof Hs as [Hwf Hm Ha Ho Hself Hal Hr Hpool Hsd Hmsg]. destruct nd as [w l]. cbn [nd_world nd_loop] in *.
  destruct (w_cmds w) as [|c rest] eqn:Ec.
  { exists (mkNode w l). split; [|done]. cbn [stage_event run_node]. mpure. cbn [nd_world nd_loop]. by rewrite Ec. }
  apply not_elem_of_cons in Hsd as [Hne Hsd].
  destruct (take_command_run v w l c rest Hr Hpool (not_eq_sym Hne) Ec) as (l' & Hrun & Hpool' & Hr' & Hq).
  eexists. split; [exact Hrun|]. split; cbn [nd_world nd_loop w_mem w_addrs w_class w_loop_alive w_cmds w_ops upd_cmds]; try done.
  - by apply wf_upd_cmds.
  - rewrite Hq, <-app_assoc, <-Hmsg. cbn. by destruct (message_for dest c).
Qed.

Lemma sending_stages w0 source dest xs ss nd :
  sending w0 source dest ss nd -> Forall (send_to w0 dest) (omap stage_send xs) ->
  exists nd', run_nodes (map stage_event xs) nd = Done tt nd' /\ sending w0 source dest (ss ++ omap stage_send xs) nd'.
Proof.
  revert ss nd. induction xs as [|x xs IH]; intros ss nd Hs Hok; [exists nd; cbn; by rewrite app_nil_r|].
  cbn [map run_nodes]. destruct x as [s|v].
  - cbn in Hok. apply Forall_cons in Hok as [Hto Hok]. destruct (sending_send _ _ _ _ _ _ Hs Hto) as (nd1 & H1 & Hs1).
    destruct (IH _ _ Hs1 Hok) as (nd2 & H2 & Hs2). exists nd2. rewrite (bind_Done _ _ _ _ _ H1). split; [done|].
    cbn. by rewrite <-app_assoc in Hs2.
  - destruct (sending_take _ _ _ _ _ v Hs) as (nd1 & H1 & Hs1). destruct (IH _ _ Hs1 Hok) as (nd2 & H2 & Hs2).
    exists nd2. by rewrite (bind_Done _ _ _ _ _ H1).
Qed.

Lemma send_header_ok t tag p source :
  in_width 32 tag -> in_width 32 (len p) ->
  well_formed_message (send_header t tag p source, p) /\ payload_size (send_header t tag p source) = len p.
Proof.
  intros Ht Hp. unfold well_formed_message, header_in_range, send_header. cbn. rewrite wrap_small by done.
  split; [|done]. split; [|done]. unfold in_width in *. lia.
Qed.

Lemma sd_payload_len w dest s : send_to w dest s -> in_width 32 (len (sd_payload (w_mem w) s)).
Proof.
  intros (_ & _ & Hb & Hn & _). unfold sd_payload. destruct (_ && _) eqn:E; [|by vm_compute].
  apply andb_prop in E as [E1 E2]. destruct Hb as [Hb|Hb]; [lia|].
  destruct (mem_load_spec (w_mem w) (sd_buf s) (Z.to_nat (sd_buf_size s))) as (bs & -> & Hl & _); [rewrite Z2Nat.id by lia; done|].
  cbn. unfold in_width, len. rewrite Hl. lia.
Qed.

(** Dispatching unexpected messages is a sequence of mailbox arrivals. *)
Lemma dispatch_unexpected self m source ss w :
  wf w ->
  exists w' h, dispatch_all self (map (send_message_of m source) ss) w = Done [] w' /\ wf w' /\
    mb_history (mail_match false) h (abs false w) (abs false w') /\ posts h = [] /\
    arrivals h = map (fun s => mkArrival (sd_payload m s) (Some source) (sd_tag s)) ss.
Proof.
  revert w. induction ss as [|s ss IH]; intros w Hwf; [by exists w, []|].
  cbn [map dispatch_all send_message_of]. unfold dispatch. cbn [send_header msg_type].
  destruct (arrive_step w (send_header Unexpected (sd_tag s) (sd_payload m s) source) (sd_payload m s) false Hwf)
    as (taker & w1 & Hrun & Hwf1 & Hmb & _).
  destruct (IH w1 Hwf1) as (w' & h & Hd & Hwf' & Hh & Hp & Ha).
  exists w', (Arrived (mkArrival (sd_payload m s) (Some source) (sd_tag s)) taker :: h).
  split_and!; [|done| |done|by unfold arrivals in *; cbn; rewrite Ha].
  - rewrite (bind_Done _ _ _ None w1) by (by rewrite (bind_Done _ _ _ _ _ Hrun)).
    by rewrite (bind_Done _ _ _ _ _ Hd).
  - exists (abs false w1). by split.
Qed.

Lemma length_messages_bytes (ms : list message) : (length ms < S (length (encode_all ms)))%nat.
Proof. pose proof (length_encode_all ms). lia. Qed.

(** Handling a stream that carries whole messages. *)
Lemma handle_stream_messages self ms w rs w' :
  Forall well_formed_message ms -> dispatch_all self ms w = Done rs w' ->
  handle_incoming_stream self (repeat true (length rs)) (mk_rstream (encode_all ms) UnexpectedEof) w
  = Done (ExitOk, rs) w'.
Proof.
  intros Hms Hd. unfold handle_incoming_stream. cbn [rs_bytes].
  by apply stream_loop_messages; [|by exact Hd|apply length_messages_bytes|].
Qed.

(** * One-sided transfers *)

Lemma put_header_ok data source rh ro :
  in_width 64 rh -> in_width 64 ro -> in_width 32 (len data) -> well_formed_message (put_header data source rh ro, data).
Proof.
  intros H1 H2 H3. unfold well_formed_message, header_in_range, put_header. cbn. rewrite wrap_small by done.
  unfold in_width in *. lia.
Qed.

Lemma get_header_ok source rh ro n lh lo :
  in_width 64 rh -> in_width 64 ro -> in_width 64 n -> in_width 64 lh -> in_width 64 lo ->
  well_formed_message (get_header source rh ro n lh lo, []).
Proof. intros. unfold well_formed_message, header_in_range, get_header. cbn. change (len (@nil byte)) with 0. unfold in_width in *. lia. Qed.

Lemma get_response_ok self h data :
  header_in_range h -> in_width 32 (len data) -> well_formed_message (get_response self h data, data).
Proof.
  intros (_ & _ & H1 & H2 & _ & H4 & H5) H. unfold well_formed_message, header_in_range, get_response. cbn.
  rewrite wrap_small by done. unfold in_width in *. lia.
Qed.

(** The state of the requester after [na_libp2p_get]: the operation is pending
    and the request is in the command channel. *)
Definition after_get (w : World) (cls : NaLibp2pClass) (ctx cb arg lo ro n op_id : Z)
    (op : NaLibp2pOpId) (lh rh : NaLibp2pMemHandle) (dest : NaLibp2pAddr) : World :=
  push_command
    (RmaGetRequest (default (addr_peer_id dest) (mh_owner_peer_id rh)) (mh_handle_id rh) ro n
       (mh_handle_id lh) lo op_id (addr_peer_id (cls_self_addr cls)))
    (upd_queues (push_pending op_id)
    (upd_ops <[op_id := set_rma (mh_handle_id lh) lo n (set_context ctx
                 (set_completion (set_callback cb arg NA_CB_GET) op))]> w)).

Lemma after_get_proj w cls ctx cb arg lo ro n op_id op lh rh dest :
  let w1 := after_get w cls ctx cb arg lo ro n op_id op lh rh dest in
  w_queues w1 = push_pending op_id (w_queues w) /\ w_registry w1 = w_registry w /\ w_mem w1 = w_mem w /\
  w_completions w1 = w_completions w /\
  w_ops w1 = <[op_id := set_rma (mh_handle_id lh) lo n (set_context ctx
                 (set_completion (set_callback cb arg NA_CB_GET) op))]> (w_ops w).
Proof. unfold after_get, push_command. cbv zeta. by case_match. Qed.

(** No other pending get has the same destination. *)
Definition get_unambiguous (w : World) (lh lo : Z) : Prop :=
  forall p op, p ∈ pending_rma_ops (w_queues w) -> w_ops w !! p = Some op ->
    op_local_handle_id op <> lh \/ op_local_offset op <> lo.

Lemma take_pending w w1 op_id op h :
  wf w -> op_idle w op_id -> get_unambiguous w (local_handle_id h) (local_offset h) ->
  w_queues w1 = push_pending op_id (w_queues w) -> w_ops w1 = <[op_id := op]> (w_ops w) ->
  op_local_handle_id op = local_handle_id h -> op_local_offset op = local_offset h ->
  take_first (get_matches w1 h) (pending_rma_ops (w_queues w1)) = Some (op_id, pending_rma_ops (w_queues w)).
Proof.
  intros Hwf [_ Hq] Hamb Hqs Hops Hh Ho. rewrite Hqs. apply take_first_Some.
  exists (pending_rma_ops (w_queues w)), []. split_and!; [done|by rewrite app_nil_r| |].
  - unfold get_matches. rewrite Hops, lookup_insert_eq. lia.
  - apply Forall_forall. intros p Hp. assert (Hpq : p ∈ queued (w_queues w)) by (unfold queued; elem_tauto).
    unfold get_matches. rewrite Hops, lookup_insert_ne by congruence.
    destruct (wf_queued_live w Hwf p Hpq) as [o Hpo]. rewrite Hpo. destruct (Hamb p o Hp Hpo); lia.
Qed.

(** The target's answer to the request, over the wire. *)
Lemma serve_get wB selfB h e :
  wf wB -> msg_type h = RmaGetReq -> well_formed_message (h, []) -> w_registry wB !! handle_id h = Some e ->
  offset h + rma_length h <= me_buf_size e ->
  exists data, handle_incoming_stream selfB [true] (mk_rstream (encode_message h []) UnexpectedEof) wB
      = Done (ExitOk, [(get_response selfB h data, data)]) wB /\
    len data = rma_length h /\ mem_load (w_mem wB) (me_buf e + offset h) (Z.to_nat (rma_length h)) = Some data.
Proof.
  intros Hwf Hty Hm He Hfit. pose proof Hm as [(_ & _ & _ & [Ho _] & [Hl _] & _) _]. cbn in Ho, Hl.
  pose proof (handle_rma_get_request_run wB selfB h Hwf Ho Hl) as H. rewrite He in H.
  destruct H as (data & Hrun & Hlen & Hload). rewrite fitting_all in Hlen by lia. exists data. split_and!; [|done|].
  - replace (encode_message h []) with (encode_all [(h, [])]) by apply encode_all_one.
    apply (handle_stream_messages selfB _ wB [_] wB); [by constructor|]. cbn [dispatch_all]. unfold dispatch. rewrite Hty.
    by rewrite (bind_Done _ _ _ _ _ Hrun).
  - rewrite <-Hlen, Z_to_nat_len. done.
Qed.

(** The requester gets the response. *)
Lemma finish_get w1 selfA h data p rest e :
  wf w1 -> msg_type h = RmaGetResp -> well_formed_message (h, data) ->
  take_first (get_matches w1 h) (pending_rma_ops (w_queues w1)) = Some (p, rest) ->
  w_registry w1 !! local_handle_id h = Some e -> local_offset h + len data <= me_buf_size e ->
  exists w2, handle_incoming_stream selfA [] (mk_rstream (encode_message h data) UnexpectedEof) w1 = Done (ExitOk, []) w2 /\
    wf w2 /\ mem_load (w_mem w2) (me_buf e + local_offset h) (length data) = Some data /\
    w_completions w2 = w_completions w1 ++ [mkCompletion p NA_SUCCESS None] /\
    pending_rma_ops (w_queues w2) = rest /\ efd_readable (w_efd w2) = true.
Proof.
  intros Hwf Hty Hm Ht He Hfit. pose proof Hm as [(_ & _ & _ & _ & _ & _ & [Hlo _]) _]. cbn in Hlo.
  destruct (handle_rma_get_response_wf w1 h data Hwf Hlo) as (w2 & Hrun & Hwf2).
  pose proof (handle_rma_get_response_run w1 h data Hwf Hlo) as H. rewrite Ht, He in H.
  destruct H as (m' & H & _ & Hload & _). exists w2. split_and!; [|done|..].
  - replace (encode_message h data) with (encode_all [(h, data)]) by apply encode_all_one.
    apply (handle_stream_messages selfA _ w1 [] w2); [by constructor|]. cbn [dispatch_all]. unfold dispatch. rewrite Hty.
    rewrite (bind_Done _ _ _ None w2) by (by rewrite (bind_Done _ _ _ _ _ Hrun)). done.
  - rewrite H in Hrun. inversion Hrun; subst w2; clear Hrun. cbn. pose proof (len_nonneg data).
    rewrite fitting_all in Hload by lia. rewrite Z_to_nat_len, firstn_all in Hload. done.
  - rewrite H in Hrun. by inversion Hrun.
  - rewrite H in Hrun. by inversion Hrun.
  - rewrite H in Hrun. inversion Hrun. apply efd_write_readable.
Qed.

(** * Theorems *)

(** C9: End to end, unexpected messages, over one stream: an application makes
    send calls to one peer while the new loop of its node takes commands, in any
    interleaving of the two; nothing else happens at that node.  Once the loop has
    taken them all, the writer of the peer opens a stream, which works from then on,
    and what the peer's stream handler reads from it arrives in the peer's
    unexpected mailbox: one message per call, with the tag, the bytes of the buffer
    and the source, in the order of the calls. *)
Theorem sends_arrive_in_order wA cls dest stages w :
  wf wA -> w_class wA = Some cls -> w_loop_alive wA = true -> w_cmds wA = [] ->
  Forall (send_to wA dest) (omap stage_send stages) -> wf w ->
  let source := addr_peer_id (cls_self_addr cls) in
  exists nd, run_nodes (map stage_event stages) (mkNode wA loop_new) = Done tt nd /\
    (w_cmds (nd_world nd) = [] ->
     exists w' h,
       handle_incoming_stream dest [] (mk_rstream (sent_bytes (channel_msgs dest (lp_pool (nd_loop nd)))) UnexpectedEof) w
         = Done (ExitOk, []) w' /\ wf w' /\
       mb_history (mail_match false) h (abs false w) (abs false w') /\ posts h = [] /\
       arrivals h = map (fun s => mkArrival (sd_payload (w_mem wA) s) (Some source) (sd_tag s)) (omap stage_send stages)).
Proof.
  intros HwA Hcls Hal Hcm Hto Hwf source. set (ss := omap stage_send stages) in *.
  assert (H0 : sending wA source dest [] (mkNode wA loop_new)).
  { split; cbn; try done; [by exists cls|apply pool_ok_new|rewrite Hcm; by apply not_elem_of_nil|by rewrite Hcm]. }
  destruct (sending_stages _ _ _ _ _ _ H0 Hto) as (nd & Hrun & Hs). cbn [app] in Hs. exists nd. split; [done|]. intros Hc.
  pose proof (sg_messages _ _ _ _ _ Hs) as Hm. rewrite Hc in Hm. cbn in Hm. rewrite app_nil_r in Hm. fold ss in Hm.
  destruct (dispatch_unexpected dest (w_mem wA) source ss w Hwf) as (w' & h & Hd & Hwf' & Hh & Hp & Ha).
  exists w', h. split_and!; try done. rewrite sent_bytes_encode. fold (peer_messages dest (nd_loop nd)). rewrite Hm.
  apply (handle_stream_messages dest _ w [] w'); [|done]. apply Forall_map. eapply Forall_impl; [exact Hto|].
  intros s Hs1. apply send_header_ok; [apply Hs1|by eapply sd_payload_len].
Qed.

(** C8: End to end, put: the message of a put of less than 4 GiB, read from the
    stream by the target, changes no byte outside its range, leaves the data in
    the target's registered buffer at the requested offset when the range fits the
    buffer, and is dropped without effect when the handle is not registered. *)
Theorem put_reaches_remote_memory source self data rh ro w :
  in_width 64 rh -> in_width 64 ro -> in_width 32 (len data) -> wf w ->
  exists w', handle_incoming_stream self []
      (mk_rstream (encode_message (put_header data source rh ro) data) UnexpectedEof) w = Done (ExitOk, []) w' /\ wf w' /\
    match w_registry w !! rh with
    | None => w' = w
    | Some e =>
        (forall a, ~ (me_buf e + ro <= a < me_buf e + ro + len data) -> w_mem w' !! a = w_mem w !! a) /\
        (ro + len data <= me_buf_size e -> mem_load (w_mem w') (me_buf e + ro) (length data) = Some data)
    end.
Proof.
  intros Hrh Hro Hd Hwf. pose proof (put_header_ok data source rh ro Hrh Hro Hd) as Hm.
  assert (Hoff : 0 <= offset (put_header data source rh ro)) by apply Hro.
  destruct (handle_rma_put_wf w (put_header data source rh ro) data Hwf Hoff) as (w' & Hrun & Hwf').
  pose proof (handle_rma_put_run w (put_header data source rh ro) data Hwf Hoff) as H. cbn [handle_id put_header] in H.
  exists w'. split_and!; [|done|].
  - replace (encode_message _ data) with (encode_all [(put_header data source rh ro, data)]) by apply encode_all_one.
    apply (handle_stream_messages self _ w [] w'); [by constructor|].
    cbn [dispatch_all]. unfold dispatch. cbn [msg_type put_header].
    rewrite (bind_Done _ _ _ None w') by (by rewrite (bind_Done _ _ _ _ _ Hrun)). done.
  - destruct (w_registry w !! rh) as [e|].
    + destruct H as (m' & H & Hdom & Hload & Hf). rewrite H in Hrun. inversion Hrun; subst w'; clear Hrun. cbn in *.
      destruct (fitting_range e ro (len data)) as (_ & Hr & _); [apply Hro|apply len_nonneg|]. split.
      * intros a Ha. apply Hf. lia.
      * intros Hfit. rewrite fitting_all in Hload by (unfold in_width in *; pose proof (len_nonneg data); lia).
        rewrite Z_to_nat_len, firstn_all in Hload. done.
    + by rewrite H in Hrun; inversion Hrun.
Qed.

(** C7: End to end, get: [na_libp2p_get] queues a command; the requester's loop
    takes it and puts a request for the owner of the remote handle into its
    channel; the target's stream handler answers this request with the bytes of
    its registered buffer; and the answer, read by the requester's handler, puts
    exactly these bytes into the local buffer, completes the operation once with
    success, takes it out of the pending list and makes the event descriptor
    readable.  Both handles are registered where they live, the range fits into
    both buffers, the length is below 4 GiB, no other pending get has the same
    local handle and offset, and the loop runs and has no older command. *)
Theorem get_fetches_remote_memory v lA wA wB ctx cb arg lmh lo rmh ro n raddr op_id lh rh dest cls eA eB selfB :
  wf wA -> wf wB -> op_idle wA op_id ->
  w_class wA = Some cls -> w_cmds wA = [] -> w_loop_alive wA = true -> lp_running lA = true -> pool_ok (lp_pool lA) ->
  w_handles wA !! lmh = Some lh -> w_handles wA !! rmh = Some rh -> w_addrs wA !! raddr = Some dest ->
  get_unambiguous wA (mh_handle_id lh) lo ->
  w_registry wA !! mh_handle_id lh = Some eA -> w_registry wB !! mh_handle_id rh = Some eB ->
  in_width 64 (mh_handle_id lh) -> in_width 64 (mh_handle_id rh) -> in_width 64 lo -> in_width 64 ro -> in_width 32 n ->
  lo + n <= me_buf_size eA -> ro + n <= me_buf_size eB ->
  let selfA := addr_peer_id (cls_self_addr cls) in
  let target := default (addr_peer_id dest) (mh_owner_peer_id rh) in
  exists wA1 wA2 lA2 wA3 req resp data,
    na_libp2p_get ctx cb arg lmh lo rmh ro n raddr op_id wA = Done NA_SUCCESS wA1 /\
    run_node (NdCommand v) (mkNode wA1 lA) = Done tt (mkNode wA2 lA2) /\
    peer_messages target lA2 = peer_messages target lA ++ [(req, [])] /\ source_peer_id req = selfA /\
    handle_incoming_stream selfB [true] (mk_rstream (encode_message req []) UnexpectedEof) wB
      = Done (ExitOk, [(resp, data)]) wB /\
    handle_incoming_stream selfA [] (mk_rstream (encode_message resp data) UnexpectedEof) wA2
      = Done (ExitOk, []) wA3 /\ wf wA3 /\
    mem_load (w_mem wB) (me_buf eB + ro) (Z.to_nat n) = Some data /\
    mem_load (w_mem wA3) (me_buf eA + lo) (Z.to_nat n) = Some data /\
    w_completions wA3 = w_completions wA ++ [mkCompletion op_id NA_SUCCESS None] /\
    pending_rma_ops (w_queues wA3) = pending_rma_ops (w_queues wA) /\ efd_readable (w_efd wA3) = true.
Proof.
  intros HA HB Hidle Hcls Hcm Hal Hr Hpool Hlh Hrh Hd Hamb HeA HeB W1 W2 W3 W4 W5 HfA HfB selfA target. pose proof Hidle as [[op Hop] Hq].
  destruct (get_run wA ctx cb arg lmh lo rmh ro n raddr op_id op lh rh dest HA Hop Hlh Hrh Hd) as (cls' & Hcls' & Hget).
  assert (cls' = cls) as -> by congruence.
  fold (after_get wA cls ctx cb arg lo ro n op_id op lh rh dest) in Hget.
  set (wA1 := after_get wA cls ctx cb arg lo ro n op_id op lh rh dest) in *.
  destruct (get_wf wA ctx cb arg lmh lo rmh ro n raddr op_id HA Hidle (mk_is_Some _ _ Hlh) (mk_is_Some _ _ Hrh) (mk_is_Some _ _ Hd))
    as (w1' & Hget' & HwfA1). assert (w1' = wA1) as -> by congruence. clear Hget'.
  destruct (after_get_proj wA cls ctx cb arg lo ro n op_id op lh rh dest) as (Pq & Pr & Pm & Pc & Po). fold wA1 in Pq, Pr, Pm, Pc, Po.
  set (cmd := RmaGetRequest target (mh_handle_id rh) ro n (mh_handle_id lh) lo op_id selfA).
  assert (Hcm1 : w_cmds wA1 = [cmd]).
  { unfold wA1, after_get, push_command. cbn [w_loop_alive upd_queues upd_ops]. rewrite Hal. cbn. by rewrite Hcm. }
  destruct (take_command_run v wA1 lA cmd [] Hr Hpool ltac:(done) Hcm1) as (lA2 & Htake & _ & _ & Hmsgs).
  set (wA2 := upd_cmds (fun _ => []) wA1) in *.
  set (req := get_header selfA (mh_handle_id rh) ro n (mh_handle_id lh) lo).
  assert (Hreq : well_formed_message (req, [])) by (apply get_header_ok; unfold in_width in *; lia).
  destruct (serve_get wB selfB req eB HB eq_refl Hreq HeB HfB) as (data & Hserve & Hlen & HloadB). cbn in Hlen, HloadB.
  set (resp := get_response selfB req data).
  assert (Hresp : well_formed_message (resp, data)) by (apply get_response_ok; [apply Hreq|by rewrite Hlen]).
  destruct (finish_get wA2 selfA resp data op_id (pending_rma_ops (w_queues wA)) eA (wf_upd_cmds _ _ HwfA1) eq_refl Hresp)
    as (wA3 & Hfin & Hwf3 & HloadA & Hcs & Hpend & Hefd).
  { by eapply take_pending; [exact HA|exact Hidle|exact Hamb|exact Pq|exact Po|..]. }
  { unfold wA2. cbn. by rewrite Pr. }
  { cbn. by rewrite Hlen. }
  exists wA1, wA2, lA2, wA3, req, resp, data. split_and!; try done.
  - rewrite Hmsgs. unfold message_for. cbn. by rewrite decide_True.
  - rewrite <-Hlen, Z_to_nat_len. exact HloadA.
  - rewrite Hcs. unfold wA2. cbn. by rewrite Pc.
Qed.

(** A get request for a handle that is not registered is read, answered with
    nothing and leaves the target as it was: the handler reports no error, so
    the requester's operation stays pending. *)
Theorem get_unknown_handle_unanswered wB selfB source rh ro n lh lo :
  wf wB -> w_registry wB !! rh = None ->
  in_width 64 rh -> in_width 64 ro -> in_width 64 n -> in_width 64 lh -> in_width 64 lo ->
  handle_incoming_stream selfB [] (mk_rstream (encode_message (get_header source rh ro n lh lo) []) UnexpectedEof) wB
  = Done (ExitOk, []) wB.
Proof.
  intros HB Hr W1 W2 W3 W4 W5. set (req := get_header source rh ro n lh lo).
  assert (Hreq : well_formed_message (req, [])) by (by apply get_header_ok).
  replace (encode_message req []) with (encode_all [(req, [])]) by apply encode_all_one.
  apply (handle_stream_messages selfB _ wB [] wB); [by constructor|]. cbn [dispatch_all]. unfold dispatch. cbn [msg_type req get_header].
  rewrite (bind_Done _ _ _ None wB); [done|]. pose proof (handle_rma_get_request_run wB selfB req HB (proj1 W2) (proj1 W3)) as H.
  cbn [handle_id req get_header] in H. by rewrite Hr in H.
Qed.

End EndToEnd.

Module EndToEndDemo.
Import Demo DemoNode.

Definition view : swarm_view := mkView (fun _ => true) (fun _ => true) 0.

(** Two sends to Alice, the first taken by the loop before the second is made. *)
Definition first_send : send := mkSend 9 8 7 1000 5 50 1 1.
Definition second_send : send := mkSend 9 8 7 0 0 50 2 2.
Definition two_sends : list stage := [Send first_send; Take view; Send second_send; Take view].

Lemma two_sends_ok : Forall (send_to node alice) (omap stage_send two_sends).
Proof.
  assert (Ha : exists a, w_addrs node !! 50 = Some a /\ addr_peer_id a = alice) by (by eexists).
  apply Forall_cons. split; [|apply Forall_singleton]; (split; [by eexists|]; split; [exact Ha|]).
  - split_and!; [|done..]. right. apply mapped_check_sound. by vm_compute.
  - split_and!; [by left|done..].
Qed.

Lemma sends_arrive_in_order_witness :
  exists nd, run_nodes (map stage_event two_sends) (mkNode node loop_new) = Done tt nd /\
    (w_cmds (nd_world nd) = [] ->
     exists w' h,
       handle_incoming_stream alice [] (mk_rstream (sent_bytes (channel_msgs alice (lp_pool (nd_loop nd)))) UnexpectedEof) node
         = Done (ExitOk, []) w' /\
       mb_history (mail_match false) h (abs false node) (abs false w') /\
       arrivals h = [mkArrival [x41; x42; x43; x44; x45] (Some self) 1; mkArrival [] (Some self) 2]).
Proof.
  destruct (sends_arrive_in_order node class alice two_sends node node_wf eq_refl eq_refl eq_refl two_sends_ok node_wf)
    as (nd & Hrun & H). exists nd. split; [exact Hrun|]. intros Hc.
  destruct (H Hc) as (w' & h & H1 & _ & H2 & _ & H3). exists w', h. split; [exact H1|]. split; [exact H2|].
  rewrite H3. vm_compute. reflexivity.
Defined.

Lemma width_check w z : (0 <=? z) && (z <? 2 ^ w) = true -> in_width w z.
Proof. unfold in_width. lia. Qed.

Lemma put_reaches_remote_memory_witness :
  exists w', handle_incoming_stream self []
      (mk_rstream (encode_message (put_header hello alice 5 3) hello) UnexpectedEof) node = Done (ExitOk, []) w' /\ wf w' /\
    (forall a, ~ (1003 <= a < 1008) -> w_mem w' !! a = w_mem node !! a) /\
    (8 <= 16 -> mem_load (w_mem w') 1003 5 = Some hello).
Proof.
  exact (put_reaches_remote_memory alice self hello 5 3 node (width_check 64 5 eq_refl) (width_check 64 3 eq_refl)
    (width_check 32 (len hello) eq_refl) node_wf).
Defined.

(** The requester has a local handle on its own buffer and a remote one. *)
Lemma get_unambiguous_node : get_unambiguous node 5 0.
Proof. intros p op Hp. by apply elem_of_nil in Hp. Qed.

Lemma op_4_idle : op_idle node 4.
Proof. split; [by eexists|by apply not_elem_of_nil]. Qed.

Lemma get_fetches_remote_memory_witness :
  exists wA1 wA2 lA2 wA3 req resp data,
    na_libp2p_get 9 8 7 70 0 71 2 4 50 4 node = Done NA_SUCCESS wA1 /\
    run_node (NdCommand view) (mkNode wA1 loop_new) = Done tt (mkNode wA2 lA2) /\
    peer_messages alice lA2 = [(req, [])] /\
    handle_incoming_stream alice [true] (mk_rstream (encode_message req []) UnexpectedEof) node
      = Done (ExitOk, [(resp, data)]) node /\
    mem_load (w_mem node) 1002 4 = Some data /\ mem_load (w_mem wA3) 1000 4 = Some data.
Proof.
  destruct (get_fetches_remote_memory view loop_new node node 9 8 7 70 0 71 2 4 50 4 own_handle remote_handle alice_addr class
    (mkEntry 1000 16 0) (mkEntry 1000 16 0) alice node_wf node_wf op_4_idle eq_refl eq_refl eq_refl eq_refl pool_ok_new
    eq_refl eq_refl eq_refl
    get_unambiguous_node eq_refl eq_refl (width_check 64 5 eq_refl) (width_check 64 5 eq_refl) (width_check 64 0 eq_refl)
    (width_check 64 2 eq_refl) (width_check 32 4 eq_refl) ltac:(vm_compute; discriminate) ltac:(vm_compute; discriminate))
    as (wA1 & wA2 & lA2 & wA3 & req & resp & data & H1 & H2 & H3 & _ & H4 & _ & _ & H5 & H6 & _).
  by exists wA1, wA2, lA2, wA3, req, resp, data.
Defined.

Lemma get_unknown_handle_unanswered_witness :
  handle_incoming_stream self [] (mk_rstream (encode_message (get_header alice 99 0 4 1 0) []) UnexpectedEof) node
  = Done (ExitOk, []) node.
Proof.
  exact (get_unknown_handle_unanswered node self alice 99 0 4 1 0 node_wf eq_refl (width_check 64 99 eq_refl)
    (width_check 64 0 eq_refl) (width_check 64 4 eq_refl) (width_check 64 1 eq_refl) (width_check 64 0 eq_refl)).
Defined.

End EndToEndDemo.
