(* ===== verification/Hazards.v ===== *)
(** Behaviours of the code its documentation does not intend, as theorems. *)
From Stdlib Require Import ZArith Lia.
From S2P Require Import Prelude.
From S2P Require Import RustStr.
From S2P Require Import Libp2p.
From S2P Require Import Memory.
From S2P Require Import Protocol.
From S2P Require Import State.
From S2P Require Import Messaging.
From S2P Require Import Rma.
From S2P Require Import Invariant.
From S2P Require Import Safety.
From S2P Require Import Progress.
From S2P Require Import RmaSpec.
From S2P Require Import Incoming.
From S2P Require Import Sender.
From S2P Require Import EventLoop.
From S2P Require Import LoopSpec.
From S2P Require Import System.
From S2P Require Import Node.
From S2P Require Import Typing.
From S2P Require Import Network.
From S2P Require Import Runs.
From S2P Require Import EndToEnd.
From S2P Require Import DemoWorld.

Section Hazards.
Context {LP : Libp2p} {OS : Os} {NB : NaBindings} {LPL : Libp2pLaws} {NBL : NaBindingsLaws}.

(** The task of a get whose request could not be sent. *)
Lemma failed_get_task_run w t r :
  is_Some (w_class w) -> ct_is_get t = true -> r <> Some SendOk ->
  run_task t r w = Done tt (upd_efd efd_write1 (upd_completions
    (fun l => l ++ [mkCompletion (ct_op_ptr t) NA_PROTOCOL_ERROR None]) w)).
Proof.
  intros [c Hc] Hg Hr. unfold run_task. assert (Hres : task_result r = NA_PROTOCOL_ERROR) by (by destruct r as [[]|]).
  unfold task_completion. rewrite Hres, Hg, (proj2 (Z.eqb_neq _ _) protocol_error_not_success). cbn [andb].
  by apply complete_run; exists c.
Qed.

(** * Theorems *)

(** C38: When the request of a get cannot be sent, the operation is completed
    with an error but stays in the list of pending gets; cancelling it then
    signals it a second time. *)
Theorem failed_get_completes_twice w op_id rx r context :
  wf w -> op_id ∈ pending_rma_ops (w_queues w) -> r <> Some SendOk ->
  exists w1 w2, run_task (mkTask rx op_id true) r w = Done tt w1 /\
    na_libp2p_cancel context op_id w1 = Done NA_SUCCESS w2 /\
    signalled w2 ≡ₚ signalled w ++ [op_id; op_id].
Proof.
  intros Hwf Hin Hr. pose proof (failed_get_task_run w (mkTask rx op_id true) r (wf_class w Hwf) eq_refl Hr) as H1.
  assert (Hq : op_id ∈ queued (w_queues w)) by (unfold queued; elem_tauto).
  destruct (run_task_wf w (mkTask rx op_id true) r Hwf (fun _ => wf_queued_live w Hwf op_id Hq)) as (w1 & Hrun & Hwf1).
  exists w1. pose proof (cancel_run w1 context op_id Hwf1) as Hc. rewrite H1 in Hrun. inversion Hrun; subst w1; clear Hrun.
  cbn [w_queues upd_efd upd_completions] in Hc. rewrite decide_True in Hc by done.
  destruct Hc as (op & _ & Hc). eexists. split_and!; [exact H1|exact Hc|].
  unfold signalled. cbn. rewrite !map_app, <-!app_assoc. apply Permutation_app_head. cbn.
  rewrite (Permutation_app_comm _ [op_id]), (Permutation_app_comm _ [op_id; op_id]). done.
Qed.

(** C40: The payload size of a put is truncated to 32 bits: the target reads the
    first [len data mod 2^32] bytes as the message, and with four gigabytes or
    more the rest of the data stays in the stream, where the next message header
    is expected. *)
Theorem oversized_put_desynchronizes source rh ro data rest e :
  in_width 64 rh -> in_width 64 ro -> in_width 64 (len data) ->
  exists d1 d2, data = d1 ++ d2 /\ len d1 = wrap 32 (len data) /\
    read_message (mk_rstream (encode_message (put_header data source rh ro) data ++ rest) e)
    = (IOk (put_header data source rh ro, d1), mk_rstream (d2 ++ rest) e) /\
    (2 ^ 32 <= len data -> d2 <> []).
Proof.
  intros Hrh Hro Hd. set (h := put_header data source rh ro). set (n := Z.to_nat (wrap 32 (len data))).
  assert (Hw : in_width 32 (wrap 32 (len data))) by (by apply wrap_in_width).
  assert (Hle : wrap 32 (len data) <= len data) by (apply Z.mod_le; [apply len_nonneg|lia]).
  assert (Hl1 : len (take n data) = wrap 32 (len data)).
  { unfold len at 1. rewrite length_take. unfold n, in_width, len in *. lia. }
  exists (take n data), (drop n data). split_and!; [by rewrite take_drop|done| |].
  - assert (Hm : header_in_range h) by (unfold header_in_range, h, put_header; cbn; unfold in_width in *; lia).
    replace (encode_message h data) with (encode_message h (take n data) ++ drop n data)
      by (by rewrite <-encode_message_app, take_drop).
    rewrite <-app_assoc.
    apply (read_message_reads h (take n data) Hm). by rewrite Hl1.
  - intros Hbig Hnil. assert (Hlen : length (drop n data) = O) by (by rewrite Hnil). rewrite length_drop in Hlen.
    unfold n, in_width, len in *. lia.
Qed.

(** The completion task of a get holds a raw pointer to the operation until the
    writer reports.  A request that reached the peer although its writer reports
    a failure (the flush of a whole message failed and no stream could be opened
    again) is answered all the same: the response completes the operation, the
    application destroys it, and the completion the task sends then makes the
    next poll follow a dangling pointer. *)
Theorem stale_get_task_faults w op_id rx r :
  wf w -> op_id <> null -> op_idle w op_id -> w_completions w = [] -> r <> Some SendOk ->
  exists w1 w2, na_libp2p_op_destroy op_id w = Done tt w1 /\ run_task (mkTask rx op_id true) r w1 = Done tt w2 /\
    na_libp2p_poll w2 = Fault UndefinedBehaviour.
Proof.
  intros Hwf Hn [[op Hop] _] Hc Hr. eexists. eexists. split_and!.
  - unfold na_libp2p_op_destroy. rewrite (proj2 (Z.eqb_neq _ _) Hn). cbn [negb when].
    by rewrite (bind_Done _ _ _ _ _ (read_op_spec w op_id op Hop)).
  - apply failed_get_task_run; [|done|done]. apply Hwf.
  - destruct (wf_class w Hwf) as [c Hcls]. rewrite na_libp2p_poll_eq, bind_gets.
    match goal with |- (_ ← get_class; _) ?w2 = _ => rewrite (bind_Done get_class _ w2 c w2) end;
      [|unfold get_class; rewrite bind_gets; cbn; by rewrite Hcls].
    unfold drain_eventfd. rewrite bind_modify. unfold mbind, M_bind. rewrite poll_drain_round. cbn. rewrite Hc. cbn.
    unfold poll_one, update_op, read_op. unfold_M. cbn. by rewrite lookup_delete_eq.
Qed.

(** ** A replaced sender *)

Lemma pool_send_last peer m p :
  pool_ok p -> exists c ch, pool_chans (pool_send peer m p) !! c = Some ch /\ ch_peer ch = peer /\ last (ch_msgs ch) = Some m.
Proof.
  intros Hok. destruct (pool_send_spec peer m p Hok) as [[Hs _] Hm]. specialize (Hm peer). rewrite decide_True in Hm by done.
  unfold channel_msgs at 1 in Hm. destruct (pool_senders (pool_send peer m p) !! peer) as [c|] eqn:E; [|by destruct (channel_msgs peer p)].
  destruct (Hs peer c E) as (ch & Hc & Hp & _). rewrite Hc in Hm. cbn in Hm. exists c, ch. split_and!; [done|done|].
  rewrite Hm. apply last_snoc.
Qed.

Lemma pool_send_new peer m p :
  pool_ok p -> pool_senders p !! peer = None ->
  pool_chans (pool_send peer m p) = <[pool_next p := mkChannel peer [m] false]> (pool_chans p).
Proof.
  intros [_ Hn] Hs. unfold pool_send, get_or_create. rewrite Hs. unfold chan_send. cbn. rewrite lookup_insert_eq. cbn.
  by rewrite insert_insert_eq.
Qed.

(** A sending command hands its message to the pool. *)
Lemma command_posts relay v c l peer h payload :
  lp_running l = true -> command_message c = Some (peer, (h, payload)) ->
  let l' := loop_step relay v (LeCommand (Some c)) l in
  lp_running l' = true /\ lp_pool l' = pool_send peer (mkOutbound h payload (Some (lp_next_result (dial_if_disconnected v peer l)))) (lp_pool l).
Proof.
  intros Hr Hm. cbv zeta. unfold loop_step. rewrite Hr. destruct (lp_pool_dial v peer l) as [Hp Hrun].
  assert (He : forall op g, lp_running (enqueue peer h payload op g (dial_if_disconnected v peer l)) = true /\
    lp_pool (enqueue peer h payload op g (dial_if_disconnected v peer l))
    = pool_send peer (mkOutbound h payload (Some (lp_next_result (dial_if_disconnected v peer l)))) (lp_pool l)).
  { intros op g. unfold enqueue, pool_send. rewrite Hp. destruct (get_or_create peer (lp_pool l)). cbn. by rewrite Hrun. }
  destruct c; cbn in Hm; simplify_eq; apply He.
Qed.

(** C39: The order of messages to a peer is lost when its sender is replaced: the
    messages of two commands for a peer, with the end of its connection between
    them, are in the channels of two writer tasks, which run independently; the
    second message may be written and dispatched first. *)
Theorem replaced_sender_splits_stream relay l v1 v2 v3 c1 c2 peer h1 p1 h2 p2 :
  pool_ok (lp_pool l) -> lp_running l = true ->
  command_message c1 = Some (peer, (h1, p1)) -> command_message c2 = Some (peer, (h2, p2)) ->
  let l' := loop_run relay [(v1, LeCommand (Some c1)); (v2, LeSwarm (ConnectionClosed peer 0)); (v3, LeCommand (Some c2))] l in
  exists a b cha chb m1 m2, a <> b /\
    pool_chans (lp_pool l') !! a = Some cha /\ ch_peer cha = peer /\ last (ch_msgs cha) = Some m1 /\
    pool_chans (lp_pool l') !! b = Some chb /\ ch_peer chb = peer /\ ch_msgs chb = [m2] /\
    (ob_header m1, ob_payload m1) = (h1, p1) /\ (ob_header m2, ob_payload m2) = (h2, p2).
Proof.
  intros Hok Hr Hc1 Hc2. cbn [loop_run]. cbv zeta. destruct (command_posts relay v1 c1 l peer h1 p1 Hr Hc1) as [Hr1 Hp1].
  set (l1 := loop_step relay v1 (LeCommand (Some c1)) l) in *. set (m1 := mkOutbound h1 p1 _) in *.
  destruct (pool_send_last peer m1 (lp_pool l) Hok) as (a & cha & Ha & Hpa & Hla). rewrite <-Hp1 in Ha.
  pose proof (proj1 (pool_send_spec peer m1 (lp_pool l) Hok)) as Hok1. rewrite <-Hp1 in Hok1.
  set (l2 := loop_step relay v2 (LeSwarm (ConnectionClosed peer 0)) l1).
  assert (H2 : lp_running l2 = true /\ lp_pool l2 = remove_sender peer (lp_pool l1)).
  { unfold l2, loop_step. rewrite Hr1. cbn. by repeat case_match. }
  destruct H2 as [Hr2 Hp2]. destruct (command_posts relay v3 c2 l2 peer h2 p2 Hr2 Hc2) as [_ ->].
  set (m2 := mkOutbound h2 p2 _). rewrite Hp2.
  rewrite (pool_send_new peer m2 (remove_sender peer (lp_pool l1))) by (first [by apply remove_sender_grows|apply lookup_delete_eq]).
  exists a, (pool_next (lp_pool l1)), cha, (mkChannel peer [m2] false), m1, m2. cbn.
  assert (Hlt : (a < pool_next (lp_pool l1))%nat) by (apply Hok1; by eexists).
  rewrite lookup_insert_eq, lookup_insert_ne by lia. split_and!; try done. lia.
Qed.

End Hazards.

Module HazardsDemo.
Import Demo DemoNode EndToEndDemo.

Definition getting : World := upd_queues (set_pending_rma_ops [3]) node.

Lemma getting_wf : wf getting.
Proof. apply wf_check_sound. by vm_compute. Qed.

Lemma failed_get_completes_twice_witness :
  exists w1 w2, run_task (mkTask 0 3 true) None getting = Done tt w1 /\
    na_libp2p_cancel 9 3 w1 = Done NA_SUCCESS w2 /\ signalled w2 ≡ₚ signalled getting ++ [3; 3].
Proof.
  exact (failed_get_completes_twice getting 3 0 None 9 getting_wf ltac:(by apply list_elem_of_singleton) ltac:(discriminate)).
Defined.

(** Four gigabytes of zeros: the size on the wire is 0. *)
Definition four_gib : list byte := replicate (Z.to_nat (2 ^ 32)) x00.

Lemma four_gib_len : len four_gib = 2 ^ 32.
Proof. unfold len, four_gib. rewrite length_replicate. apply Z2Nat.id. lia. Qed.
Lemma four_gib_u64 : in_width 64 (len four_gib).
Proof. rewrite four_gib_len. split; vm_compute; first [discriminate | reflexivity]. Qed.
Lemma four_gib_enough : 2 ^ 32 <= len four_gib.
Proof. rewrite four_gib_len. apply Z.le_refl. Qed.

Lemma oversized_put_desynchronizes_witness :
  exists d1 d2, len d1 = wrap 32 (len four_gib) /\
    read_message (mk_rstream (encode_message (put_header four_gib alice 5 0) four_gib ++ [x01]) UnexpectedEof)
    = (IOk (put_header four_gib alice 5 0, d1), mk_rstream (d2 ++ [x01]) UnexpectedEof) /\ d2 <> [].
Proof.
  destruct (oversized_put_desynchronizes (LP := libp2p) alice 5 0 four_gib [x01] UnexpectedEof (width_check 64 5 eq_refl) (width_check 64 0 eq_refl)
    four_gib_u64) as (d1 & d2 & _ & H1 & H2 & H3).
  exact (ex_intro _ d1 (ex_intro _ d2 (conj H1 (conj H2 (H3 four_gib_enough))))).
Defined.

(** Two sends to Alice, tags 3 and 4; the connection closes between them; the
    writer of the second channel is faster. *)
Import NodeDemo TypingDemo NetworkDemo.

Definition send4 : node_event := NdCall (NaSendUnexpected 9 8 7 1000 4 50 4 2).
Definition overtaking : network :=
  foldl (fun nw ev => next ev nw) quiet
    [NetNode self send; NetNode self (NdCommand view); NetNode self (NdSwarm view (ConnectionClosed alice 0));
     NetNode self send4; NetNode self (NdCommand view);
     NetWrite self false 1 [Some (None, None)]; NetRead (self, (false, 1%nat), 0%nat);
     NetWrite self false 0 [Some (None, None)]; NetRead (self, (false, 0%nat), 0%nat)].
Definition stashed_tags (p : peer) (nw : network) : list Z :=
  from_option (fun h => map st_tag (unexpected_msg_stash (w_queues (nd_world (ho_node h))))) [] (nw_hosts nw !! p).

Definition cmd_of (tag op : Z) : Command := SendMessage alice Unexpected tag [x41] op self.

Lemma replaced_sender_splits_stream_witness :
  stashed_tags alice overtaking = [4; 3] /\
  exists a b cha chb m1 m2, a <> b /\
    let l' := loop_run None [(view, LeCommand (Some (cmd_of 3 1))); (view, LeSwarm (ConnectionClosed alice 0));
                             (view, LeCommand (Some (cmd_of 4 2)))] loop_new in
    pool_chans (lp_pool l') !! a = Some cha /\ ch_peer cha = alice /\ last (ch_msgs cha) = Some m1 /\
    pool_chans (lp_pool l') !! b = Some chb /\ ch_peer chb = alice /\ ch_msgs chb = [m2] /\
    (ob_header m1, ob_payload m1) = (send_header Unexpected 3 [x41] self, [x41]) /\
    (ob_header m2, ob_payload m2) = (send_header Unexpected 4 [x41] self, [x41]).
Proof.
  split; [vm_compute; reflexivity|].
  exact (replaced_sender_splits_stream None loop_new view view view (cmd_of 3 1) (cmd_of 4 2) alice
    (send_header Unexpected 3 [x41] self) [x41] (send_header Unexpected 4 [x41] self) [x41] pool_ok_new eq_refl eq_refl eq_refl).
Defined.

End HazardsDemo.
