(* ===== verification/Config.v ===== *)
(** Protocol names and self addresses: [check_protocol], [get_protocol_info],
    [parse_transport_config] and the [resolve_*] functions of src/src/plugin.rs.
    What the operating system reports as the host's address ([hostname_ip]) is a
    parameter. *)
From Stdlib Require Import ZArith Lia.
From S2P Require Import Prelude.
From S2P Require Import RustStr.
From S2P Require Import Libp2p.
From S2P Require Import Memory.
From S2P Require Import Protocol.
From S2P Require Import State.
From S2P Require Import Rma.
From S2P Require Import Addr.

Section Config.
Context {LP : Libp2p} {NB : NaBindings}.

(** * Protocol names *)

Definition is_lit (s : string) (part : str) : bool := bool_decide (part = lit s).

Definition na_libp2p_check_protocol (protocol_name : list byte) : bool :=
  let name := to_string_lossy protocol_name in
  if is_lit "libp2p" name then true
  else forallb (fun part => let p := trim part in is_lit "tcp" p || is_lit "quic" p || is_lit "relay" p)
         (split_on x2c name).

(** The protocol name of the answer and whether it could be allocated
    ([alloc_ok]); [None] is a null pointer. *)
Definition na_libp2p_get_protocol_info (alloc_ok : bool) (protocol_name : option (list byte)) : Z * option (list byte) :=
  let proto := default (lit "tcp") protocol_name in
  if alloc_ok then (NA_SUCCESS, Some proto) else (NA_NOMEM, None).

(** The flags the loop of [parse_transport_config] sets. *)
Definition listed (s : string) (parts : list str) : bool := existsb (is_lit s) parts.

Definition parse_transport_config (protocol_name : str) : TransportConfig :=
  if bool_decide (protocol_name = []) || is_lit "libp2p" protocol_name
  then mkTransportConfig true false false KTcp
  else
    let parts := map trim (split_on x2c protocol_name) in
    let tcp := listed "tcp" parts in
    let quic := listed "quic" parts in
    let relay := listed "relay" parts in
    if negb tcp && negb quic then mkTransportConfig true false relay KTcp
    else
      let priority := match parts with p :: _ => if is_lit "quic" p then KQuic else KTcp | [] => KTcp end in
      mkTransportConfig tcp quic relay priority.

(** * Self address *)

Definition resolve_protocol (hostname_ip : option IpAddr) (p : Protocol PeerId Other) : Protocol PeerId Other :=
  match p with
  | Ip4 ip =>
      if is_unspecified ip then
        match default (V4 ip) hostname_ip with
        | V4 v4 => Ip4 v4
        | V6 v6 => Ip6 v6
        end
      else Ip4 ip
  | other => other
  end.

(** [result.push] for each component. *)
Definition resolve_multiaddr (hostname_ip : option IpAddr) (addr : Multiaddr) : Multiaddr :=
  foldl (fun result p => ma_push result (resolve_protocol hostname_ip p)) ma_empty (ma_iter addr).

(** [resolved_addrs[0]] is evaluated whatever [find] returns: [None] is its
    panic on an empty list. *)
Definition resolve_self_multiaddr (hostname_ip : option IpAddr) (resolved_addrs : list Multiaddr)
    (priority : TransportKind) : option Multiaddr :=
  match resolved_addrs with
  | [] => None
  | first :: _ =>
      let addr :=
        match priority with
        | KTcp => default first (List.find (ma_any is_tcp) resolved_addrs)
        | KQuic => default first (List.find (ma_any is_quic_v1) resolved_addrs)
        end in
      Some (resolve_multiaddr hostname_ip addr)
  end.

(** * Lemmas *)

Lemma is_lit_spec s p : is_lit s p = true <-> p = lit s.
Proof. apply bool_decide_eq_true. Qed.

Lemma listed_spec s parts : listed s parts = true <-> lit s ∈ parts.
Proof.
  unfold listed. rewrite existsb_exists. split.
  - intros (x & Hx & ->%is_lit_spec). by apply list_elem_of_In.
  - intros H. exists (lit s). split; [by apply list_elem_of_In|]. by apply is_lit_spec.
Qed.

Lemma ma_iter_foldl {LPL : Libp2pLaws} (f : Protocol PeerId Other -> Protocol PeerId Other) l m :
  ma_iter (foldl (fun result p => ma_push result (f p)) m l) = ma_iter m ++ map f l.
Proof.
  revert m. induction l as [|p l IH]; intros m; cbn; [by rewrite app_nil_r|].
  by rewrite IH, ma_iter_push, <-app_assoc.
Qed.

Lemma ma_iter_resolve {LPL : Libp2pLaws} host m :
  ma_iter (resolve_multiaddr host m) = map (resolve_protocol host) (ma_iter m).
Proof. unfold resolve_multiaddr. by rewrite ma_iter_foldl, ma_iter_empty. Qed.

(** Resolving only changes IP components, so the transport is the same. *)
Lemma ma_any_resolve {LPL : Libp2pLaws} f host m :
  (forall p, f (resolve_protocol host p) = f p) -> ma_any f (resolve_multiaddr host m) = ma_any f m.
Proof.
  intros H. unfold ma_any. rewrite ma_iter_resolve. induction (ma_iter m) as [|p l IH]; cbn; [done|]. by rewrite H, IH.
Qed.

Definition transport_of (k : TransportKind) : Protocol PeerId Other -> bool :=
  match k with KTcp => is_tcp | KQuic => is_quic_v1 end.

Lemma transport_of_resolve k host p : transport_of k (resolve_protocol host p) = transport_of k p.
Proof.
  destruct p as [ip| | | | | | ]; try done. cbn. destruct (is_unspecified ip); [|done]. by destruct host as [[]|], k.
Qed.

Lemma resolve_self_find host addrs k :
  resolve_self_multiaddr host addrs k =
  match addrs with
  | [] => None
  | first :: _ => Some (resolve_multiaddr host (default first (List.find (ma_any (transport_of k)) addrs)))
  end.
Proof. destruct addrs; [done|]. by destruct k. Qed.

(** * Theorems *)

(** Whatever the protocol name, the configuration has a transport, so the
    swarm is never built without one; and for a comma-separated list that names
    TCP or QUIC, each flag says exactly whether its word is in the list. *)
Theorem transport_config_sound name :
  let c := parse_transport_config name in
  cfg_tcp c || cfg_quic c = true /\
  (name <> [] -> name <> lit "libp2p" ->
   let parts := map trim (split_on x2c name) in
   (cfg_relay c = true <-> lit "relay" ∈ parts) /\
   (lit "tcp" ∈ parts \/ lit "quic" ∈ parts ->
    (cfg_tcp c = true <-> lit "tcp" ∈ parts) /\ (cfg_quic c = true <-> lit "quic" ∈ parts))).
Proof.
  unfold parse_transport_config. cbv zeta.
  destruct (bool_decide_reflect (name = [])) as [Hn|Hn]; [by split|].
  destruct (is_lit "libp2p" name) eqn:El; [apply is_lit_spec in El; by split|]. cbn [orb].
  set (parts := map trim (split_on x2c name)). rewrite <-!listed_spec.
  destruct (listed "tcp" parts), (listed "quic" parts); cbn; (split; [done|]; intros _ _; split; [done|]); naive_solver.
Qed.

(** A name [check_protocol] accepts is configured word by word: QUIC and the relay
    when they are listed, TCP when it is listed or no other transport is. *)
Theorem checked_protocol_configured bytes :
  na_libp2p_check_protocol bytes = true -> to_string_lossy bytes <> lit "libp2p" ->
  let parts := map trim (split_on x2c (to_string_lossy bytes)) in
  let c := parse_transport_config (to_string_lossy bytes) in
  Forall (fun p => p ∈ [lit "tcp"; lit "quic"; lit "relay"]) parts /\
  cfg_tcp c = listed "tcp" parts || negb (listed "quic" parts) /\
  cfg_quic c = listed "quic" parts /\ cfg_relay c = listed "relay" parts.
Proof.
  unfold na_libp2p_check_protocol, parse_transport_config. set (name := to_string_lossy bytes). cbv zeta. intros Hc Hl.
  assert (Hname : is_lit "libp2p" name = false) by (by apply bool_decide_false). rewrite Hname in Hc |- *.
  assert (Hall : Forall (fun p => p ∈ [lit "tcp"; lit "quic"; lit "relay"]) (map trim (split_on x2c name))).
  { apply Forall_map, Forall_forall. intros p Hp. rewrite forallb_forall in Hc. specialize (Hc p (proj1 (list_elem_of_In _ _) Hp)).
    cbn in Hc. rewrite !orb_true_iff, !is_lit_spec in Hc. rewrite !elem_of_cons. naive_solver. }
  split; [done|]. destruct (bool_decide_reflect (name = [])) as [Hn|Hn].
  - rewrite Hn in Hc. by vm_compute in Hc.
  - cbn [orb]. by destruct (listed "tcp" _), (listed "quic" _).
Qed.

(** The first word decides the priority: when it is [tcp] or [quic], the
    priority is that transport and the transport is enabled. *)
Theorem priority_is_first_listed name p rest :
  name <> [] -> name <> lit "libp2p" -> map trim (split_on x2c name) = p :: rest ->
  p = lit "tcp" \/ p = lit "quic" ->
  let c := parse_transport_config name in
  match cfg_priority c with KTcp => p = lit "tcp" /\ cfg_tcp c = true | KQuic => p = lit "quic" /\ cfg_quic c = true end.
Proof.
  intros Hn Hl Hparts Hp. unfold parse_transport_config. rewrite bool_decide_false by done.
  assert (Hname : is_lit "libp2p" name = false) by (by apply bool_decide_false).
  rewrite Hname. cbn [orb]. cbv zeta. rewrite Hparts.
  unfold listed. cbn [existsb]. destruct Hp as [->| ->].
  - change (is_lit "tcp" (lit "tcp")) with true. by change (is_lit "quic" (lit "tcp")) with false.
  - change (is_lit "quic" (lit "quic")) with true. change (is_lit "tcp" (lit "quic")) with false.
    cbn [orb negb]. by rewrite andb_false_r.
Qed.

(** The self address: on a non-empty list of listen addresses it is one of
    them, with its unspecified IPv4 components replaced by the host's address;
    it uses the priority transport whenever some listen address does; and no
    0.0.0.0 is left when the host's address is known. *)
Theorem self_address_resolved {LPL : Libp2pLaws} host addrs k :
  addrs <> [] ->
  exists a, a ∈ addrs /\ resolve_self_multiaddr host addrs k = Some (resolve_multiaddr host a) /\
    (existsb (ma_any (transport_of k)) addrs = true -> ma_any (transport_of k) (resolve_multiaddr host a) = true) /\
    (forall ip, host = Some (V4 ip) -> is_unspecified ip = false ->
       Forall (fun p => match p with Ip4 i => is_unspecified i = false | _ => True end) (ma_iter (resolve_multiaddr host a))).
Proof.
  intros Hne. rewrite resolve_self_find. destruct addrs as [|first rest]; [done|].
  set (l := first :: rest). assert (Hfirst : first ∈ l) by (by apply elem_of_cons; left).
  assert (Hres : forall a ip, host = Some (V4 ip) -> is_unspecified ip = false ->
    Forall (fun p => match p with Ip4 i => is_unspecified i = false | _ => True end) (ma_iter (resolve_multiaddr host a))).
  { intros a ip -> Hip. rewrite ma_iter_resolve. apply Forall_map, Forall_forall. intros [i| | | | | |] _; cbn; try done.
    by destruct (is_unspecified i) eqn:E. }
  change (existsb (ma_any (transport_of k)) (first :: rest)) with (existsb (ma_any (transport_of k)) l).
  destruct (List.find _ l) as [a|] eqn:E; cbn [default].
  - apply find_some in E as [Hin Ha]. exists a. split_and!; [by apply list_elem_of_In|done| |by apply Hres].
    intros _. rewrite ma_any_resolve; [done|]. apply transport_of_resolve.
  - exists first. split_and!; [done|done| |by apply Hres]. intros Hex. rewrite existsb_exists in Hex. destruct Hex as (x & Hx & Hfx).
    pose proof (find_none _ _ E x Hx). congruence.
Qed.

End Config.

Module ConfigDemo.
Import Demo.

Lemma priority_is_first_listed_witness :
  cfg_priority (parse_transport_config (lit "quic, tcp")) = KQuic /\
  cfg_quic (parse_transport_config (lit "quic, tcp")) = true.
Proof.
  split; [vm_compute; reflexivity|].
  exact (proj2 (priority_is_first_listed (lit "quic, tcp") (lit "quic") [lit "tcp"] ltac:(discriminate) ltac:(discriminate)
    ltac:(vm_compute; reflexivity) (or_intror eq_refl))).
Defined.

Definition any_tcp : multiaddr := [Ip4 Ipv4_UNSPECIFIED; Tcp 4000].
Definition any_quic : multiaddr := [Ip4 Ipv4_UNSPECIFIED; OtherProtocol (lit "udp"); QuicV1].

Lemma self_address_resolved_witness :
  exists a, a ∈ [any_tcp; any_quic] /\
    resolve_self_multiaddr (Some (V4 (Ipv4 x0a x00 x00 x05))) [any_tcp; any_quic] KQuic
    = Some (resolve_multiaddr (Some (V4 (Ipv4 x0a x00 x00 x05))) a).
Proof.
  destruct (self_address_resolved (LP := libp2p) (Some (V4 (Ipv4 x0a x00 x00 x05))) [any_tcp; any_quic] KQuic) as (a & H1 & H2 & _).
  - discriminate.
  - exact (ex_intro _ a (conj H1 H2)).
Defined.

End ConfigDemo.
