(* ===== verification/Swarm.v ===== *)
(** How [spawn_swarm_task] of src/src/runtime.rs builds the swarm: the chain of
    builder calls for each combination of transports.  What the calls do is the
    library's; which of them fail is an input. *)
From Stdlib Require Import ZArith Lia.
From S2P Require Import Prelude.
From S2P Require Import RustStr.
From S2P Require Import Libp2p.
From S2P Require Import Memory.
From S2P Require Import Protocol.
From S2P Require Import State.
From S2P Require Import Config.

(** * The builder chain *)

(** The behaviours of [MercuryBehaviour]. *)
Inductive behaviour := BhStream | BhRelayClient | BhDcutr | BhIdentify (protocol_version : str).

#[global] Instance behaviour_eq_dec : EqDecision behaviour.
Proof. solve_decision. Defined.

Inductive builder_call :=
| WithNewIdentity
| WithTokio
| WithTcp (nodelay : bool)             (** Noise and Yamux on top *)
| WithQuic
| WithRelayClient                      (** Noise and Yamux on top *)
| WithBehaviour (bs : list behaviour)
| WithIdleConnectionTimeout (secs : Z)
| BuildSwarm.

#[global] Instance builder_call_eq_dec : EqDecision builder_call.
Proof. solve_decision. Defined.

Definition MercuryBehaviour : list behaviour :=
  [BhStream; BhRelayClient; BhDcutr; BhIdentify (lit "/mercury-na/1.0.0")].

(** [match (has_tcp, has_quic)]; [None] is "No transport configured". *)
Definition swarm_builder (has_tcp has_quic : bool) : option (list builder_call) :=
  match has_tcp, has_quic with
  | true, true =>
      Some [WithNewIdentity; WithTokio; WithTcp true; WithQuic; WithRelayClient; WithBehaviour MercuryBehaviour;
            WithIdleConnectionTimeout 3600; BuildSwarm]
  | true, false =>
      Some [WithNewIdentity; WithTokio; WithTcp true; WithRelayClient; WithBehaviour MercuryBehaviour;
            WithIdleConnectionTimeout 3600; BuildSwarm]
  | false, true =>
      Some [WithNewIdentity; WithTokio; WithQuic; WithRelayClient; WithBehaviour MercuryBehaviour;
            WithIdleConnectionTimeout 3600; BuildSwarm]
  | false, false => None
  end.

(** The calls that are followed by [?]. *)
Definition fallible (c : builder_call) : bool :=
  match c with WithTcp _ | WithRelayClient | WithBehaviour _ => true | _ => false end.

(** Whether the swarm is built: a failure ends the chain. *)
Definition build_swarm (call_ok : builder_call -> bool) (config : TransportConfig) : bool :=
  match swarm_builder (cfg_tcp config) (cfg_quic config) with
  | Some calls => forallb (fun c => negb (fallible c) || call_ok c) calls
  | None => false
  end.

(** The transport of the listener of a kind. *)
Definition transport_call (k : TransportKind) : builder_call :=
  match k with KTcp => WithTcp true | KQuic => WithQuic end.

Definition cfg_has (k : TransportKind) (config : TransportConfig) : bool :=
  match k with KTcp => cfg_tcp config | KQuic => cfg_quic config end.

(** * Lemmas *)

Lemma swarm_builder_transports config calls k :
  swarm_builder (cfg_tcp config) (cfg_quic config) = Some calls ->
  transport_call k ∈ calls <-> cfg_has k config = true.
Proof.
  destruct config as [[] [] r p]; intros [= <-]; destruct k; cbn; (split; [|intros]; set_solver).
Qed.

Lemma swarm_builder_common has_tcp has_quic calls :
  swarm_builder has_tcp has_quic = Some calls -> WithRelayClient ∈ calls /\ WithBehaviour MercuryBehaviour ∈ calls.
Proof. destruct has_tcp, has_quic; intros [= <-]; set_solver. Qed.

Lemma swarm_builder_exists config :
  cfg_tcp config || cfg_quic config = true -> is_Some (swarm_builder (cfg_tcp config) (cfg_quic config)).
Proof. destruct config as [[] [] r p]; cbn; try done; by eexists. Qed.

Lemma parsed_config_has_transport name :
  let config := parse_transport_config name in cfg_tcp config || cfg_quic config = true.
Proof.
  cbv zeta. unfold parse_transport_config. case_match; [done|]. cbv zeta. case_match eqn:E; [done|]. cbn.
  destruct (listed "tcp" _), (listed "quic" _); done.
Qed.

(** * Theorems *)

(** C35: Whatever the protocol name, the swarm the plugin builds has exactly the
    transports the configuration enables: the branch for no transport at all is
    never taken, TCP and QUIC are there if and only if they are configured, and
    with either the relay client, the stream, hole-punching and identify
    behaviours come along; the swarm is built if and only if each fallible call
    of the chain succeeds. *)
Theorem swarm_matches_config name :
  let config := parse_transport_config name in
  exists calls, swarm_builder (cfg_tcp config) (cfg_quic config) = Some calls /\
    (WithTcp true ∈ calls <-> cfg_tcp config = true) /\ (WithQuic ∈ calls <-> cfg_quic config = true) /\
    WithRelayClient ∈ calls /\ WithBehaviour MercuryBehaviour ∈ calls /\
    forall call_ok, build_swarm call_ok config = true <->
      forall c, c ∈ calls -> fallible c = true -> call_ok c = true.
Proof.
  intros config. destruct (swarm_builder_exists config (parsed_config_has_transport name)) as [calls Hc]. exists calls.
  pose proof (swarm_builder_transports config calls KTcp Hc) as Ht. pose proof (swarm_builder_transports config calls KQuic Hc) as Hq.
  destruct (swarm_builder_common _ _ _ Hc). split_and!; [done|exact Ht|exact Hq|done|done|].
  intros call_ok. unfold build_swarm. rewrite Hc, forallb_forall. setoid_rewrite <-list_elem_of_In.
  split; intros Hall c Hin; specialize (Hall c Hin); destruct (fallible c), (call_ok c); naive_solver.
Qed.
