(* ===== verification/Lifecycle.v ===== *)
(** [na_libp2p_initialize] and [na_libp2p_finalize] of src/src/plugin.rs with the
    start-up part of [spawn_swarm_task] in src/src/runtime.rs: the swarm's
    events, whether the runtime, the swarm and the listeners could be created
    and the environment are inputs; open event descriptors are counted. *)
From Stdlib Require Import ZArith Lia.
From S2P Require Import Prelude.
From S2P Require Import RustStr.
From S2P Require Import Libp2p.
From S2P Require Import Memory.
From S2P Require Import Protocol.
From S2P Require Import State.
From S2P Require Import Messaging.
From S2P Require Import Rma.
From S2P Require Import Addr.
From S2P Require Import Invariant.
From S2P Require Import Safety.
From S2P Require Import Progress.
From S2P Require Import EventLoop.
From S2P Require Import System.
From S2P Require Import Config.
From S2P Require Import Swarm.
From S2P Require Import DemoWorld.

Section Lifecycle.
Context {LP : Libp2p} {OS : Os} {NB : NaBindings}.

(** * Start of the swarm task *)

Inductive init_event :=
| IeNewListenAddr (address : Multiaddr) (listener_id : nat)
| IeConnectionEstablished (peer : PeerId)
| IeOutgoingConnectionError (peer : option PeerId)
| IeOther.

(** The events the swarm yields before its stream ends. *)
Abbreviation events := (list init_event).

(** Wait until every listener has reported an address; [None]: the stream ended. *)
Fixpoint wait_listeners (listener_ids : gset nat) (evs : events) (resolved : list Multiaddr) (seen : gset nat)
    : option (list Multiaddr * events) :=
  match evs with
  | [] => None
  | IeNewListenAddr address id :: evs' =>
      let resolved := resolved ++ [address] in
      let seen := if decide (id ∈ listener_ids) then {[id]} ∪ seen else seen in
      if (size listener_ids <=? size seen)%nat then Some (resolved, evs')
      else wait_listeners listener_ids evs' resolved seen
  | _ :: evs' => wait_listeners listener_ids evs' resolved seen
  end.

(** Wait for the connection to the relay; [None] is an error. *)
Fixpoint wait_relay_connection (relay : PeerId) (evs : events) (resolved : list Multiaddr)
    : option (list Multiaddr * events) :=
  match evs with
  | [] => None
  | IeConnectionEstablished pid :: evs' =>
      if decide (pid = relay) then Some (resolved, evs') else wait_relay_connection relay evs' resolved
  | IeOutgoingConnectionError (Some pid) :: evs' =>
      if decide (pid = relay) then None else wait_relay_connection relay evs' resolved
  | IeNewListenAddr address _ :: evs' => wait_relay_connection relay evs' (resolved ++ [address])
  | _ :: evs' => wait_relay_connection relay evs' resolved
  end.

(** Wait for the circuit listen address. *)
Fixpoint wait_reservation (evs : events) (resolved : list Multiaddr) : option (list Multiaddr * events) :=
  match evs with
  | [] => None
  | IeNewListenAddr address _ :: evs' =>
      let resolved := resolved ++ [address] in
      if ma_any is_p2p_circuit address then Some (resolved, evs') else wait_reservation evs' resolved
  | _ :: evs' => wait_reservation evs' resolved
  end.

(** What the outside answers during start-up. *)
Record init_env := mkInitEnv {
  ie_runtime_ok : bool;                  (** the tokio runtime could be built *)
  ie_eventfd_ok : bool;                  (** [eventfd(2)] returned a descriptor *)
  ie_relay_var : option str;             (** MERCURY_RELAY_ADDR, when set *)
  ie_builder_ok : builder_call -> bool;  (** the calls on the swarm builder that succeed *)
  ie_listen_on : Multiaddr -> option nat;(** [swarm.listen_on]: the listener's id *)
  ie_dial_ok : bool;                     (** the dial of the relay was accepted *)
  ie_peer_id : PeerId;                   (** the new identity *)
  ie_events : events;
  ie_hostname_ip : option IpAddr;
}.

(** Calls made on the swarm during start-up. *)
Inductive init_call :=
| ListenOn (addr : Multiaddr)
| AddExternalAddress (addr : Multiaddr)
| InitAddPeerAddress (peer : PeerId) (addr : Multiaddr)
| InitDial (peer : PeerId) (addrs : list Multiaddr).

Inductive init_result := InitOk (resolved : list Multiaddr) (calls : list init_call) | InitErr | InitPanic.

(** [for addr in &listen_addrs { swarm.listen_on(addr)? }] *)
Fixpoint listen_all (listen_on : Multiaddr -> option nat) (addrs : list Multiaddr) : option (gset nat) :=
  match addrs with
  | [] => Some ∅
  | a :: addrs' => id ← listen_on a; ids ← listen_all listen_on addrs'; Some ({[id]} ∪ ids)
  end.

Definition is_circuit (a : Multiaddr) : bool := ma_any is_p2p_circuit a.

(** The relay part: dial, wait, listen on the circuit address, wait. *)
Definition init_relay (env : init_env) (relay_ma : Multiaddr) (evs : events) (resolved : list Multiaddr)
    (calls : list init_call) : init_result :=
  match extract_peer_id_from_multiaddr relay_ma with
  | None => InitPanic
  | Some relay_peer_id =>
      let transport := relay_transport_ma relay_ma in
      let calls := calls ++ [InitAddPeerAddress relay_peer_id transport; InitDial relay_peer_id [transport]] in
      if negb (ie_dial_ok env) then InitErr
      else
        match wait_relay_connection relay_peer_id evs resolved with
        | None => InitErr
        | Some (resolved, evs) =>
            let circuit_ma := ma_push relay_ma P2pCircuit in
            match ie_listen_on env circuit_ma with
            | None => InitErr
            | Some _ =>
                match wait_reservation evs resolved with
                | None => InitErr
                | Some (resolved, _) => InitOk resolved (calls ++ [ListenOn circuit_ma])
                end
            end
        end
  end.

Definition spawn_swarm_task (env : init_env) (config : TransportConfig) (listen_addrs : list Multiaddr)
    (relay_addr : option Multiaddr) : init_result :=
  if negb (build_swarm (ie_builder_ok env) config) then InitErr
  else
    match listen_all (ie_listen_on env) listen_addrs with
    | None => InitErr
    | Some listener_ids =>
        match wait_listeners listener_ids (ie_events env) [] ∅ with
        | None => InitErr
        | Some (resolved, evs) =>
            let external := List.filter (fun a => negb (is_circuit a)) resolved in
            let calls := map ListenOn listen_addrs ++ map AddExternalAddress external in
            match relay_addr with
            | Some relay_ma => init_relay env relay_ma evs resolved calls
            | None => InitOk resolved calls
            end
        end
    end.

(** * Initialize and finalize *)

(** The process: the shared state and the number of open event descriptors. *)
Record process := mkProcess { ps_world : World; ps_fds : Z }.
Abbreviation MP := (M process).

Definition set_world (f : World -> World) (p : process) : process := mkProcess (f (ps_world p)) (ps_fds p).
Definition add_fds (n : Z) (p : process) : process := mkProcess (ps_world p) (ps_fds p + n).

(** [create_eventfd]: asserts that the descriptor is valid. *)
Definition create_eventfd (env : init_env) : MP unit :=
  if ie_eventfd_ok env then modify (add_fds 1) else fault_with Panic.
Definition close_eventfd : MP unit := modify (add_fds (-1)).

(** The state behind a new class: empty queues, registry and channels. *)
Definition fresh_world (cls : NaLibp2pClass) (w : World) : World :=
  mkWorld (w_mem w) (w_addrs w) (w_ops w) (w_handles w) OperationQueues_new ∅ [] [] efd_new (Some cls) (w_cbs w)
    true (w_next_oneshot w).

Definition bind_ip (listen : bool) : str := if listen then lit "0.0.0.0" else lit "127.0.0.1".

(** [format!("/ip4/{bind_ip}/tcp/0").parse().unwrap()] and the QUIC one. *)
Definition listen_addrs_for (config : TransportConfig) (listen : bool) : MP (list Multiaddr) :=
  tcp ← (if cfg_tcp config
         then ma ← unwrap (ma_from_str (lit "/ip4/" ++ bind_ip listen ++ lit "/tcp/0")); mret [ma] else mret []);
  quic ← (if cfg_quic config
          then ma ← unwrap (ma_from_str (lit "/ip4/" ++ bind_ip listen ++ lit "/udp/0/quic-v1")); mret [ma] else mret []);
  mret (tcp ++ quic).

(** The second half of [na_libp2p_initialize], once the relay address is known. *)
Definition start_class (env : init_env) (config : TransportConfig) (listen_addrs : list Multiaddr)
    (relay_addr : option Multiaddr) : MP Z :=
  match spawn_swarm_task env config listen_addrs relay_addr with
  | InitPanic => fault_with Panic
  | InitErr => _ ← close_eventfd; mret NA_PROTOCOL_ERROR
  | InitOk resolved_addrs _ =>
      self_ma ← unwrap (resolve_self_multiaddr (ie_hostname_ip env) resolved_addrs (cfg_priority config));
      let cls := mkClass (mkAddr (ie_peer_id env) (Some self_ma) true) 1 config
                   (map (resolve_multiaddr (ie_hostname_ip env)) resolved_addrs) relay_addr in
      _ ← modify (set_world (fresh_world cls));
      mret NA_SUCCESS
  end.

(** [protocol_name] is [None] when the pointer is null. *)
Definition na_libp2p_initialize (env : init_env) (protocol_name : option (list byte)) (listen : bool) : MP Z :=
  let config := parse_transport_config (from_option to_string_lossy [] protocol_name) in
  if negb (ie_runtime_ok env) then mret NA_PROTOCOL_ERROR
  else
    _ ← create_eventfd env;
    listen_addrs ← listen_addrs_for config listen;
    if cfg_relay config then
      match ie_relay_var env with
      | Some val =>
          match ma_from_str val with
          | Some ma => start_class env config listen_addrs (Some ma)
          | None => mret NA_PROTOCOL_ERROR
          end
      | None => start_class env config listen_addrs None
      end
    else start_class env config listen_addrs None.

(** The class is dropped with the queues, the registry and both channels; boxes
    that are only reachable through raw pointers stay allocated. *)
Definition drop_class (w : World) : World :=
  mkWorld (w_mem w) (w_addrs w) (w_ops w) (w_handles w) OperationQueues_new ∅ [] [] (w_efd w) None (w_cbs w)
    false (w_next_oneshot w).

(** The rest of the world runs inside a process. *)
Definition on_world {A} (m : M World A) : MP A :=
  fun p => match m (ps_world p) with Done a w => Done a (mkProcess w (ps_fds p)) | Fault f => Fault f end.

(** What the async tasks still do before the swarm task ends and the runtime is
    dropped: a sequence of their steps. *)
Fixpoint run_background (evs : list sys_event) : M World unit :=
  match evs with
  | [] => mret tt
  | ev :: evs' => _ ← run_sys ev; run_background evs'
  end.

Definition na_libp2p_finalize (background : list sys_event) : MP Z :=
  cls ← gets (fun p => w_class (ps_world p));
  match cls with
  | None => mret NA_SUCCESS
  | Some _ =>
      _ ← on_world (send_command Shutdown);
      _ ← on_world (run_background background);
      _ ← close_eventfd;
      _ ← modify (set_world drop_class);
      mret NA_SUCCESS
  end.

(** [na_libp2p_context_create]: the stored plugin context is null. *)
Definition na_libp2p_context_create : Z * Z := (NA_SUCCESS, null).
Definition na_libp2p_context_destroy : Z := NA_SUCCESS.

(** * Start-up lemmas *)

(** [l] is a reported listen address of listener [id]. *)
Definition reports (evs : events) (id : nat) : Prop := exists a, IeNewListenAddr a id ∈ evs.
Definition reports_any (evs : events) : Prop := exists id, reports evs id.

Lemma reports_cons e evs id :
  reports (e :: evs) id <-> (exists a, e = IeNewListenAddr a id) \/ reports evs id.
Proof. unfold reports. setoid_rewrite elem_of_cons. naive_solver. Qed.

Lemma size_covers (ids seen : gset nat) :
  seen ⊆ ids -> (size ids <=? size seen)%nat = true <-> ids ⊆ seen.
Proof.
  intros Hs. rewrite Nat.leb_le. split.
  - intros Hle. by rewrite (set_subseteq_size_eq seen ids Hs Hle).
  - apply subseteq_size.
Qed.

(** The loop ends exactly when every listener has reported an address, and at
    least one address has been reported. *)
Lemma wait_listeners_ends ids evs : forall resolved seen,
  seen ⊆ ids ->
  is_Some (wait_listeners ids evs resolved seen) <->
  reports_any evs /\ forall id, id ∈ ids -> id ∈ seen \/ reports evs id.
Proof.
  induction evs as [|e evs IH]; intros resolved seen Hseen; cbn.
  - split; [by intros []|]. intros [(id & a & H%elem_of_nil) _]; done.
  - destruct e as [address lid| | |].
    2,3,4: rewrite (IH resolved seen Hseen); unfold reports_any; setoid_rewrite reports_cons; naive_solver.
    set (seen' := if decide (lid ∈ ids) then {[lid]} ∪ seen else seen).
    assert (Hs' : seen' ⊆ ids) by (unfold seen'; case_decide; set_solver).
    assert (Hin : forall id, id ∈ ids -> id ∈ seen' <-> id = lid \/ id ∈ seen).
    { intros id Hid. unfold seen'. case_decide; set_solver. }
    assert (Hany : reports_any (IeNewListenAddr address lid :: evs)).
    { exists lid, address. apply elem_of_cons. by left. }
    destruct ((size ids <=? size seen')%nat) eqn:E.
    + apply (size_covers ids seen' Hs') in E. split; [|by intros; eexists]. intros _. split; [done|].
      intros id Hid. setoid_rewrite reports_cons. destruct (proj1 (Hin id Hid) (E id Hid)) as [->|?]; [|by left].
      right. left. by exists address.
    + rewrite IH by done. setoid_rewrite reports_cons. split.
      * intros [_ H]. split; [done|]. intros id Hid. destruct (H id Hid) as [[->|?]%Hin|?]; eauto.
      * intros [_ H]. split.
        -- destruct (set_choose_or_empty (ids ∖ seen')) as [[id [Hid Hnot]%elem_of_difference]|Hempty].
           ++ exists id. rewrite (Hin id Hid) in Hnot. destruct (H id Hid) as [?|[[a ?]|?]]; naive_solver.
           ++ assert (Hall : ids ⊆ seen') by set_solver. rewrite (proj2 (size_covers ids seen' Hs') Hall) in E. done.
        -- intros id Hid. rewrite (Hin id Hid). destruct (H id Hid) as [?|[[a ?]|?]]; naive_solver.
Qed.

(** The addresses a stretch of events announces. *)
Definition announced (evs : events) : list Multiaddr :=
  omap (fun e => match e with IeNewListenAddr a _ => Some a | _ => None end) evs.

(** A waiting loop consumes a prefix of the events and keeps every address. *)
Definition consumes (evs : events) (resolved : list Multiaddr) (res : list Multiaddr * events) (P : events -> Prop) : Prop :=
  exists pre, evs = pre ++ res.2 /\ res.1 = resolved ++ announced pre /\ P pre.

Lemma consumes_cons e evs resolved res P Q :
  (forall pre, P pre -> Q (e :: pre)) ->
  consumes evs (resolved ++ announced [e]) res P -> consumes (e :: evs) resolved res Q.
Proof.
  intros H (pre & -> & Hr & HP). exists (e :: pre). split_and!; [done| |by apply H].
  rewrite Hr, <-app_assoc. f_equal. by destruct e.
Qed.

Lemma consumes_skip e evs resolved res P Q :
  announced [e] = [] -> (forall pre, P pre -> Q (e :: pre)) ->
  consumes evs resolved res P -> consumes (e :: evs) resolved res Q.
Proof. intros He H Hc. eapply consumes_cons; [exact H|]. by rewrite He, app_nil_r. Qed.

Lemma consumes_one e evs resolved r P :
  r = resolved ++ announced [e] -> P [e] -> consumes (e :: evs) resolved (r, evs) P.
Proof. intros -> HP. by exists [e]. Qed.

Lemma wait_listeners_consumes ids evs : forall resolved seen res,
  seen ⊆ ids -> wait_listeners ids evs resolved seen = Some res ->
  consumes evs resolved res (fun pre => announced pre <> [] /\ forall id, id ∈ ids -> id ∈ seen \/ reports pre id).
Proof.
  induction evs as [|e evs IH]; intros resolved seen res Hseen; cbn; [done|].
  destruct e as [a lid| | |].
  2,3,4: intros H%IH; [|done]; (eapply consumes_skip; [done| |exact H]); intros pre [Hne Hr]; (split; [done|]);
    intros id Hid; rewrite reports_cons; destruct (Hr id Hid); auto.
  set (seen' := if decide (lid ∈ ids) then {[lid]} ∪ seen else seen).
  assert (Hs' : seen' ⊆ ids) by (unfold seen'; case_decide; set_solver).
  assert (Hnew : forall pre id, id ∈ seen' -> id ∈ seen \/ reports (IeNewListenAddr a lid :: pre) id).
  { intros pre id Hid. rewrite reports_cons. unfold seen' in Hid. case_decide; [|by left].
    apply elem_of_union in Hid as [->%elem_of_singleton|?]; [right; left; by exists a|by left]. }
  destruct (size ids <=? size seen')%nat eqn:E.
  - intros [= <-]. apply consumes_one; [done|]. split; [done|]. intros id Hid. apply Hnew.
    by apply (proj1 (size_covers ids seen' Hs') E).
  - intros Hc%IH; [|done]. eapply consumes_cons; [|exact Hc]. intros pre [Hne Hr]. split; [done|]. intros id Hid.
    destruct (Hr id Hid) as [?|?]; [by apply Hnew|right]. rewrite reports_cons. by right.
Qed.

Lemma wait_relay_connection_consumes relay evs : forall resolved res,
  wait_relay_connection relay evs resolved = Some res ->
  consumes evs resolved res (fun pre => IeConnectionEstablished relay ∈ pre /\
                                        IeOutgoingConnectionError (Some relay) ∉ pre).
Proof.
  assert (Hext : forall e pre, e <> IeOutgoingConnectionError (Some relay) ->
    IeConnectionEstablished relay ∈ pre /\ IeOutgoingConnectionError (Some relay) ∉ pre ->
    IeConnectionEstablished relay ∈ e :: pre /\ IeOutgoingConnectionError (Some relay) ∉ e :: pre).
  { intros e pre He [H1 H2]. rewrite !elem_of_cons. naive_solver. }
  induction evs as [|e evs IH]; intros resolved res; cbn; [done|].
  destruct e as [a id|p|[p|]|]; [|case_decide..| |].
  - intros Hc%IH. by eapply consumes_cons; [|exact Hc]; auto.
  - intros [= <-]. subst p. apply consumes_one; [by rewrite app_nil_r|]. rewrite !list_elem_of_singleton. done.
  - intros Hc%IH. by eapply consumes_skip; [| |exact Hc]; auto.
  - done.
  - intros Hc%IH. eapply consumes_skip; [done| |exact Hc]. intros pre. apply Hext. congruence.
  - intros Hc%IH. by eapply consumes_skip; [| |exact Hc]; auto.
  - intros Hc%IH. by eapply consumes_skip; [| |exact Hc]; auto.
Qed.

Lemma wait_reservation_consumes evs : forall resolved res,
  wait_reservation evs resolved = Some res ->
  consumes evs resolved res (fun pre => exists a, last (announced pre) = Some a /\ is_circuit a = true).
Proof.
  assert (Hext : forall e pre, (exists a, last (announced pre) = Some a /\ is_circuit a = true) ->
                               exists a, last (announced (e :: pre)) = Some a /\ is_circuit a = true).
  { intros e pre (a & Hl & Hc). exists a. split; [|done]. destruct e; cbn; try done.
    change (last (address :: announced pre) = Some a). by rewrite last_cons, Hl. }
  induction evs as [|e evs IH]; intros resolved res; cbn; [done|].
  destruct e as [a id| | |].
  2,3,4: intros H%IH; by eapply consumes_skip; [|apply Hext|exact H].
  case_match eqn:E; [intros [= <-]; apply consumes_one; [done|]; by exists a|].
  intros Hc%IH. eapply consumes_cons; [apply Hext|exact Hc].
Qed.

(** * Start-up theorems *)

(** Without a relay, start-up succeeds exactly when every listener it
    created reports an address (and at least one address is reported), and
    it then has at least one resolved address. *)
Theorem startup_succeeds_iff env config addrs ids :
  build_swarm (ie_builder_ok env) config = true ->
  listen_all (ie_listen_on env) addrs = Some ids ->
  (exists resolved calls, spawn_swarm_task env config addrs None = InitOk resolved calls /\ resolved <> []) <->
  reports_any (ie_events env) /\ forall id, id ∈ ids -> reports (ie_events env) id.
Proof.
  intros Hs Hl. unfold spawn_swarm_task. rewrite Hs, Hl. cbn [negb]. pose proof (wait_listeners_ends ids (ie_events env) [] ∅ (empty_subseteq _)) as Hiff.
  destruct (wait_listeners _ _ _ _) as [[r evs]|] eqn:E.
  - apply wait_listeners_consumes in E as (pre & _ & Hr & Hne & _); [|done]. cbn in Hr. subst r.
    split; [intros _|intros _; by do 2 eexists]. destruct (proj1 Hiff) as [H1 H2]; [by eexists|]. split; [done|].
    intros id Hid. destruct (H2 id Hid); set_solver.
  - split; [intros (? & ? & ? & _); done|]. intros [H1 H2]. exfalso.
    destruct (proj2 Hiff) as [? ?]; [|done]. split; [done|]. intros id Hid. right. by apply H2.
Qed.

(** C32: With a relay, start-up succeeds only after three phases of events: every
    listener it created reports an address, then the connection to the relay the
    address names comes up (with no failure of that connection before it), then
    the reservation, whose circuit address is the last one recorded.  Every
    announced address is recorded in order; the calls on the swarm are, in order,
    the listens, the registration of the addresses of the first phase as external
    (circuit addresses excepted), the dial of the relay at its address without the
    peer suffix, and the listen on its circuit address. *)
Theorem relay_startup_reserves env config addrs relay_ma resolved calls :
  spawn_swarm_task env config addrs (Some relay_ma) = InitOk resolved calls ->
  exists ids relay listening connecting reserving rest external,
    listen_all (ie_listen_on env) addrs = Some ids /\
    extract_peer_id_from_multiaddr relay_ma = Some relay /\
    ie_events env = listening ++ connecting ++ reserving ++ rest /\
    (forall id, id ∈ ids -> reports listening id) /\
    IeConnectionEstablished relay ∈ connecting /\ IeOutgoingConnectionError (Some relay) ∉ connecting /\
    resolved = announced listening ++ announced connecting ++ announced reserving /\
    (exists a, last (announced reserving) = Some a /\ is_circuit a = true) /\
    calls = map ListenOn addrs ++ map AddExternalAddress external ++
      [InitAddPeerAddress relay (relay_transport_ma relay_ma); InitDial relay [relay_transport_ma relay_ma];
       ListenOn (ma_push relay_ma P2pCircuit)] /\
    external = List.filter (fun a => negb (is_circuit a)) (announced listening).
Proof.
  unfold spawn_swarm_task. case_match; [done|].
  destruct (listen_all _ _) as [ids|]; [|done].
  destruct (wait_listeners _ _ _ _) as [[r1 evs1]|] eqn:E1; [|done].
  apply wait_listeners_consumes in E1 as (listening & He & Hr & _ & Hrep); [|done]. cbn in He, Hr. subst r1.
  unfold init_relay. destruct (extract_peer_id_from_multiaddr relay_ma) as [relay|]; [|done].
  case_match; [done|]. destruct (wait_relay_connection _ _ _) as [[r2 evs2]|] eqn:E2; [|done].
  apply wait_relay_connection_consumes in E2 as (connecting & He2 & Hr2 & Hc1 & Hc2). cbn in He2, Hr2. subst r2 evs1.
  destruct (ie_listen_on _ _); [|done]. destruct (wait_reservation _ _) as [[r3 evs3]|] eqn:E3; [|done].
  apply wait_reservation_consumes in E3 as (reserving & He3 & Hr3 & Hlast). cbn in He3, Hr3. subst r3 evs2.
  intros [= <- <-]. exists ids, relay, listening, connecting, reserving, evs3.
  eexists. split_and!; try done; try by rewrite <-?app_assoc. intros id Hid. by destruct (Hrep id Hid) as [?%elem_of_empty|?].
Qed.

(** * Initialize and finalize *)

Lemma fresh_world_wf cls w : wf (fresh_world cls w).
Proof. split; cbn; [by eexists|constructor|set_solver..|constructor|set_solver|done]. Qed.

(** The outcomes of the second half. *)
Inductive started (env : init_env) (relay : option Multiaddr) (p : process) : outcome process Z -> Prop :=
| started_ok cls :
    addr_multiaddr (cls_self_addr cls) <> None -> cls_listen_addrs cls <> [] ->
    started env relay p (Done NA_SUCCESS (set_world (fresh_world cls) p))
| started_err : started env relay p (Done NA_PROTOCOL_ERROR (add_fds (-1) p))
| started_panic ma :
    relay = Some ma -> extract_peer_id_from_multiaddr ma = None -> started env relay p (Fault Panic).

Lemma spawn_resolved env config addrs relay resolved calls :
  spawn_swarm_task env config addrs relay = InitOk resolved calls -> resolved <> [].
Proof.
  destruct relay as [ma|].
  - unfold spawn_swarm_task. repeat (case_match; try done). unfold init_relay. repeat (case_match; try done). intros [= <- <-].
    edestruct wait_reservation_consumes as (pre & _ & Hr & a & Hl & _); [eassumption|]. cbn in Hr. subst.
    intros [_ Hn]%app_nil. by rewrite Hn in Hl.
  - unfold spawn_swarm_task. repeat (case_match; try done). intros [= <- <-].
    edestruct wait_listeners_consumes as (pre & _ & Hr & Hne & _); [|eassumption|]; [done|]. cbn in Hr. by subst.
Qed.

Lemma spawn_panic env config addrs relay :
  spawn_swarm_task env config addrs relay = InitPanic -> exists ma, relay = Some ma /\ extract_peer_id_from_multiaddr ma = None.
Proof.
  unfold spawn_swarm_task. repeat (case_match; try done). unfold init_relay. repeat (case_match; try done). by eauto.
Qed.

Lemma start_class_outcome env config addrs relay p : started env relay p (start_class env config addrs relay p).
Proof.
  unfold start_class. destruct (spawn_swarm_task _ _ _ _) as [resolved calls| |] eqn:E.
  - pose proof (spawn_resolved _ _ _ _ _ _ E) as Hne. rewrite resolve_self_find.
    destruct resolved as [|a l]; [done|]. constructor; done.
  - apply started_err.
  - destruct (spawn_panic _ _ _ _ E) as (ma & Hr & Hp). by eapply started_panic.
Qed.

Context {LPL : Libp2pLaws}.

Lemma listen_addrs_for_run config listen p : exists addrs, listen_addrs_for config listen p = Done addrs p.
Proof.
  assert (Hip : bind_ip listen ∈ [lit "0.0.0.0"; lit "127.0.0.1"]) by (destruct listen; set_solver).
  destruct (ma_listen_literals (bind_ip listen) (lit "/tcp/0")) as [t Ht]; [done|set_solver|].
  destruct (ma_listen_literals (bind_ip listen) (lit "/udp/0/quic-v1")) as [q Hq]; [done|set_solver|].
  unfold listen_addrs_for. unfold_M. destruct (cfg_tcp config), (cfg_quic config); rewrite ?Ht, ?Hq; eauto.
Qed.

(** The configuration [na_libp2p_initialize] uses. *)
Definition config_of (protocol_name : option (list byte)) : TransportConfig :=
  parse_transport_config (from_option to_string_lossy [] protocol_name).

(** The value of MERCURY_RELAY_ADDR, when the configuration looks at it. *)
Definition relay_value (env : init_env) (config : TransportConfig) : option str :=
  if cfg_relay config then ie_relay_var env else None.

(** Everything [na_libp2p_initialize] can do. *)
Definition initialize_ok (env : init_env) (config : TransportConfig) (p : process) (res : outcome process Z) : Prop :=
  match res with
  | Done r p' =>
      (r = NA_SUCCESS /\ wf (ps_world p') /\ ps_fds p' = ps_fds p + 1 /\
         exists cls, w_class (ps_world p') = Some cls /\ addr_multiaddr (cls_self_addr cls) <> None /\ cls_listen_addrs cls <> [])
      \/ (r = NA_PROTOCOL_ERROR /\ ps_world p' = ps_world p /\
         (ps_fds p' = ps_fds p \/
          ps_fds p' = ps_fds p + 1 /\ exists val, relay_value env config = Some val /\ ma_from_str val = None))
  | Fault f =>
      f = Panic /\
      (ie_eventfd_ok env = false \/
       exists val ma, relay_value env config = Some val /\ ma_from_str val = Some ma /\ extract_peer_id_from_multiaddr ma = None)
  end.

Lemma initialize_run env name listen p :
  ie_runtime_ok env = true -> ie_eventfd_ok env = true ->
  exists addrs, na_libp2p_initialize env name listen p =
    match relay_value env (config_of name) with
    | Some val =>
        match ma_from_str val with
        | Some ma => start_class env (config_of name) addrs (Some ma) (add_fds 1 p)
        | None => Done NA_PROTOCOL_ERROR (add_fds 1 p)
        end
    | None => start_class env (config_of name) addrs None (add_fds 1 p)
    end.
Proof.
  intros Hrt Hfd. destruct (listen_addrs_for_run (config_of name) listen (add_fds 1 p)) as [addrs Ha]. exists addrs.
  unfold na_libp2p_initialize. rewrite Hrt. cbn [negb].
  rewrite (bind_Done _ _ _ tt (add_fds 1 p)) by (unfold create_eventfd; by rewrite Hfd).
  change (parse_transport_config _) with (config_of name). rewrite (bind_Done _ _ _ _ _ Ha). unfold relay_value.
  destruct (cfg_relay (config_of name)); [|done]. destruct (ie_relay_var env) as [val|]; [|done]. by destruct (ma_from_str val).
Qed.

Lemma started_initialize env config relay p res :
  (forall ma, relay = Some ma -> exists val, relay_value env config = Some val /\ ma_from_str val = Some ma) ->
  started env relay (add_fds 1 p) res -> initialize_ok env config p res.
Proof.
  intros Hrel [cls H1 H2| |ma Hr Hp]; cbn.
  - left. split_and!; [done|apply fresh_world_wf|done|by exists cls].
  - right. split_and!; [done..|]. left. lia.
  - split; [done|]. right. destruct (Hrel ma Hr) as (val & ? & ?). by exists val, ma.
Qed.

Lemma started_outcomes env name listen p :
  initialize_ok env (config_of name) p (na_libp2p_initialize env name listen p).
Proof.
  destruct (ie_runtime_ok env) eqn:Hrt.
  2:{ unfold na_libp2p_initialize. rewrite Hrt. right. split_and!; [done..|by left]. }
  destruct (ie_eventfd_ok env) eqn:Hfd.
  2:{ unfold na_libp2p_initialize, create_eventfd. rewrite Hrt, Hfd. split; [done|by left]. }
  destruct (initialize_run env name listen p Hrt Hfd) as [addrs ->].
  destruct (relay_value env (config_of name)) as [val|] eqn:E.
  - destruct (ma_from_str val) as [ma|] eqn:Em.
    + eapply started_initialize; [|apply start_class_outcome]. intros ? [= ->]. eauto.
    + right. split_and!; [done..|]. right. split; [done|]. eauto.
  - eapply started_initialize; [|apply start_class_outcome]. done.
Qed.

(** C31: Every outcome of [na_libp2p_initialize].  On success the shared state is
    well-formed, the class has a self address and at least one listen address,
    and one event descriptor is open.  On an error nothing else has changed and
    the descriptor is closed again, with one exception: a MERCURY_RELAY_ADDR
    that is not a multiaddress leaves it open.  It panics only when the kernel
    gives no descriptor or the relay address names no peer. *)
Theorem initialize_outcomes env name listen p :
  initialize_ok env (config_of name) p (na_libp2p_initialize env name listen p).
Proof. apply started_outcomes. Qed.

(** The steps of the async tasks, each allowed when it is taken. *)
Fixpoint background_ok (evs : list sys_event) (w : World) : Prop :=
  match evs with
  | [] => True
  | ev :: evs' =>
      is_io ev = true /\ sys_ok w ev /\ forall w', run_sys ev w = Done tt w' -> background_ok evs' w'
  end.

Context {OSL : OsLaws}.

Lemma run_background_wf evs : forall w,
  wf w -> background_ok evs w -> exists w', run_background evs w = Done tt w' /\ wf w'.
Proof.
  induction evs as [|ev evs IH]; intros w Hwf; cbn [background_ok run_background]; [by eauto|].
  intros (_ & Hok & Hnext). destruct (run_sys_wf w ev Hwf Hok) as (w1 & Hrun & Hwf1).
  rewrite (bind_Done _ _ _ _ _ Hrun). by apply IH, Hnext.
Qed.

Lemma finalize_run w fds background :
  wf w -> background_ok background (push_command Shutdown w) ->
  exists w', na_libp2p_finalize background (mkProcess w fds) = Done NA_SUCCESS (mkProcess (drop_class w') (fds - 1)).
Proof.
  intros Hwf Hbg. destruct (wf_class w Hwf) as [cls Hc]. unfold na_libp2p_finalize. rewrite bind_gets. cbn [ps_world]. rewrite Hc.
  pose proof (wf_push_command Shutdown w Hwf) as Hwf1.
  destruct (run_background_wf background _ Hwf1 Hbg) as (w' & Hrun & _). exists w'.
  rewrite (bind_Done _ _ _ tt (mkProcess (push_command Shutdown w) fds)) by (unfold on_world; cbn [ps_world]; by rewrite send_command_run).
  rewrite (bind_Done _ _ _ tt (mkProcess w' fds)) by (unfold on_world; cbn [ps_world]; by rewrite Hrun). done.
Qed.

Context {NBL : NaBindingsLaws}.

(** C30: A whole session: after a successful [na_libp2p_initialize] and any run of
    callbacks and task steps, [na_libp2p_finalize] returns success whatever the
    tasks still do while it waits for them; the event descriptor is closed, the
    class pointer is null and the queues, registry and channels are gone, and a
    second [na_libp2p_finalize] changes nothing. *)
Theorem session_ends_cleanly env name listen p p1 w background again :
  na_libp2p_initialize env name listen p = Done NA_SUCCESS p1 ->
  reachable (ps_world p1) w -> background_ok background (push_command Shutdown w) ->
  exists p2, na_libp2p_finalize background (mkProcess w (ps_fds p1)) = Done NA_SUCCESS p2 /\
    ps_fds p2 = ps_fds p /\ w_class (ps_world p2) = None /\ w_loop_alive (ps_world p2) = false /\
    w_queues (ps_world p2) = OperationQueues_new /\ w_registry (ps_world p2) = ∅ /\
    na_libp2p_finalize again p2 = Done NA_SUCCESS p2.
Proof.
  intros Hinit Hreach Hbg. pose proof (started_outcomes env name listen p) as Ho. rewrite Hinit in Ho. cbn in Ho.
  destruct Ho as [(_ & Hwf & Hfd & _)|[Habs _]]; [|by destruct protocol_error_not_success].
  destruct (finalize_run w (ps_fds p1) background (reachable_wf _ _ Hwf Hreach) Hbg) as [w' Hfin].
  eexists. split; [exact Hfin|]. cbn. split_and!; try done. lia.
Qed.

End Lifecycle.

Module LifecycleDemo.
Import Demo DemoNode.

Definition tcp_addr : multiaddr := [Ip4 Ipv4_UNSPECIFIED; Tcp 4000].
Definition relay_addr : multiaddr := [Ip4 Ipv4_LOCALHOST; Tcp 9000; P2p x0f].
Definition circuit_addr : multiaddr := relay_addr ++ [P2pCircuit].

(** Listener 0 is the TCP one. *)
Definition env (evs : list init_event) : init_env :=
  mkInitEnv true true None (fun _ => true) (fun _ => Some 0%nat) true x07 evs (Some (V4 (Ipv4 x0a x00 x00 x05))).

Definition listening : list init_event := [IeOther; IeNewListenAddr tcp_addr 0].
Definition relayed : list init_event :=
  listening ++ [IeConnectionEstablished x03; IeConnectionEstablished x0f; IeNewListenAddr circuit_addr 1].

Lemma startup_succeeds_iff_witness :
  exists resolved calls, spawn_swarm_task (env listening) config [tcp_addr] None = InitOk resolved calls /\ resolved <> [].
Proof.
  apply (startup_succeeds_iff (env listening) config [tcp_addr] {[0%nat]}); [reflexivity..|].
  assert (H : reports listening 0) by (exists tcp_addr; right; left).
  split; [exists 0%nat; exact H|]. intros id ->%elem_of_singleton. exact H.
Defined.

Lemma relay_startup_reserves_witness :
  exists listening connecting reserving a,
    [tcp_addr; circuit_addr] = announced listening ++ announced connecting ++ announced reserving /\
    reports listening 0 /\ last (announced reserving) = Some a /\ is_circuit a = true.
Proof.
  destruct (relay_startup_reserves (env relayed) config [tcp_addr] relay_addr [tcp_addr; circuit_addr] _ eq_refl)
    as (ids & relay & l & c & r & rest & ext & Hids & _ & _ & Hrep & _ & _ & Hres & (a & Ha & Hc) & _).
  exists l, c, r, a. split; [exact Hres|]. split; [|exact (conj Ha Hc)]. apply Hrep.
  injection Hids as <-. apply elem_of_union_l, elem_of_singleton_2. reflexivity.
Defined.

Definition process0 : process := mkProcess node 3.
Definition process1 : process :=
  match na_libp2p_initialize (env listening) (Some (lit "tcp")) true process0 with Done _ p => p | Fault _ => process0 end.

(** A relay address that does not parse: the descriptor stays open. *)
Definition bad_relay_env : init_env :=
  mkInitEnv true true (Some (lit "nowhere")) (fun _ => true) (fun _ => Some 0%nat) true x07 listening None.

Lemma initialize_outcomes_witness :
  initialize_ok bad_relay_env (config_of (Some (lit "tcp,relay"))) process0
    (na_libp2p_initialize bad_relay_env (Some (lit "tcp,relay")) true process0) /\
  na_libp2p_initialize bad_relay_env (Some (lit "tcp,relay")) true process0 = Done NA_PROTOCOL_ERROR (mkProcess node 4).
Proof. split; [exact (initialize_outcomes bad_relay_env (Some (lit "tcp,relay")) true process0) | reflexivity]. Defined.

(** An expected message from Alice arrives while [finalize] waits. *)
Definition late : list sys_event := [IoMessage self (header Expected 4 hello) hello].

Lemma session_ends_cleanly_witness :
  exists p2, na_libp2p_finalize late process1 = Done NA_SUCCESS p2 /\ ps_fds p2 = 3 /\ w_class (ps_world p2) = None.
Proof.
  destruct (session_ends_cleanly (env listening) (Some (lit "tcp")) true process0 process1 (ps_world process1) late [])
    as (p2 & H & Hfd & Hc & _).
  - reflexivity.
  - apply reach_refl.
  - split; [reflexivity|]. split; [exact SystemDemo.hello_in_range|]. intros w' _. exact I.
  - exact (ex_intro _ p2 (conj H (conj Hfd Hc))).
Defined.

End LifecycleDemo.
