(* ===== verification/Ops.v ===== *)
(** The operation table of src/src/lib.rs: the static [na_class_ops] through which
    Mercury calls the plugin.  A slot is [None] where the plugin leaves the
    operation to Mercury's default; the other slots hold the callbacks of the
    model. *)
From Stdlib Require Import ZArith Lia.
From S2P Require Import Prelude.
From S2P Require Import Frame.
From S2P Require Import RustStr.
From S2P Require Import Libp2p.
From S2P Require Import Memory.
From S2P Require Import Protocol.
From S2P Require Import State.
From S2P Require Import Messaging.
From S2P Require Import Rma.
From S2P Require Import Addr.
From S2P Require Import Invariant.
From S2P Require Import System.
From S2P Require Import Node.
From S2P Require Import Config.
From S2P Require Import Lifecycle.
From S2P Require Import DemoWorld.

Section Ops.
Context {LP : Libp2p} {OS : Os} {NB : NaBindings}.
Abbreviation MW := (M World).
Abbreviation MP := (M process).

(** * Callbacks without state *)



(** * The table *)




(** * Calls through the table *)



Context {LPL : Libp2pLaws} {OSL : OsLaws}.


End Ops.

Module OpsDemo.
Import Demo DemoNode.


End OpsDemo.
