(* ===== verification/RelayServer.v ===== *)
(** The relay server of src/relay-server/src/main.rs: its command line and the
    loop that records its listen addresses.  The swarm, the address the socket
    reports and whether a file could be written are inputs; the external
    addresses and the file's content are the state. *)
From Stdlib Require Import ZArith Lia.
From S2P Require Import Prelude.
From S2P Require Import RustStr.
From S2P Require Import Libp2p.
From S2P Require Import Memory.
From S2P Require Import Protocol.
From S2P Require Import State.
From S2P Require Import Rma.
From S2P Require Import Addr.
From S2P Require Import Incoming.
From S2P Require Import Sender.
From S2P Require Import EventLoop.
From S2P Require Import Config.
From S2P Require Import Swarm.

(** * Command line *)

(** What the process does: an answer, [std::process::exit] or a panic. *)
Inductive args_result := ArgsOk (port seed : Z) (addr_file : str) | ArgsExit (code : Z) | ArgsPanic.

(** The end of [parse_args]. *)
Definition args_done (port : Z) (seed : option Z) (addr_file : option str) : args_result :=
  match seed, addr_file with
  | Some s, Some f => ArgsOk port s f
  | _, _ => ArgsExit 1
  end.

(** The [while] loop: an option takes the next argument as its value. *)
Fixpoint parse_loop (args : list str) (port : Z) (seed : option Z) (addr_file : option str) : args_result :=
  match args with
  | [] => args_done port seed addr_file
  | arg :: rest =>
      if is_lit "-h" arg || is_lit "--help" arg then ArgsExit 0
      else if is_lit "--port" arg then
        match rest with
        | [] => ArgsPanic
        | v :: rest' =>
            match parse_uint (2 ^ 16 - 1) v with
            | None => ArgsPanic
            | Some p => parse_loop rest' p seed addr_file
            end
        end
      else if is_lit "--secret-key-seed" arg then
        match rest with
        | [] => ArgsPanic
        | v :: rest' =>
            match parse_uint (2 ^ 8 - 1) v with
            | None => ArgsPanic
            | Some s => parse_loop rest' port (Some s) addr_file
            end
        end
      else if is_lit "--addr-file" arg then
        match rest with
        | [] => ArgsPanic
        | v :: rest' => parse_loop rest' port seed (Some v)
        end
      else ArgsExit 1
  end.

(** [args[0]] is the program's name. *)
Definition parse_args (args : list str) : args_result := parse_loop (tail args) 0 None None.

(** * The event loop *)

Section Relay.
Context {LP : Libp2p}.

(** [hostname_ip], given what the socket's [local_addr] reports. *)
Definition relay_hostname_ip (local_addr : option IpAddr) : Ipv4Addr :=
  match local_addr with
  | Some (V4 v4) => v4
  | _ => Ipv4_LOCALHOST
  end.

Definition relay_resolve (host : Ipv4Addr) (address : Multiaddr) : Multiaddr :=
  ma_collect (map (fun p => match p with
                            | Ip4 ip => if is_unspecified ip then Ip4 host else Ip4 ip
                            | other => other
                            end) (ma_iter address)).

Definition has_loopback (address : Multiaddr) : bool :=
  ma_any (fun p => match p with Ip4 ip => is_loopback ip | _ => false end) address.

Inductive relay_event :=
| RelayNewListenAddr (address : Multiaddr) (local_addr : option IpAddr) (write_ok : bool)
| RelayIdentifyReceived (observed_addr : Multiaddr)
| RelayOther
| RelayStreamEnded
| RelayCtrlC.

Record relay_state := mkRelay {
  rs_external : list Multiaddr;
  rs_file : option str;
  rs_addr_written : bool;
}.

Definition relay_new : relay_state := mkRelay [] None false.

Inductive relay_step := RelayContinue (s : relay_state) | RelayStop (s : relay_state) | RelayPanic.

(** [format!("{resolved}/p2p/{local_peer_id}")] *)
Definition full_addr (local_peer_id : PeerId) (resolved : Multiaddr) : str :=
  ma_to_string resolved ++ lit "/p2p/" ++ PeerId_to_string local_peer_id.

Definition relay_handle (local_peer_id : PeerId) (e : relay_event) (s : relay_state) : relay_step :=
  match e with
  | RelayNewListenAddr address local_addr write_ok =>
      let resolved := relay_resolve (relay_hostname_ip local_addr) address in
      let loopback := has_loopback resolved in
      let external := rs_external s ++ [resolved] in
      if negb (rs_addr_written s) || negb loopback then
        if write_ok
        then RelayContinue (mkRelay external (Some (full_addr local_peer_id resolved)) (rs_addr_written s || negb loopback))
        else RelayPanic
      else RelayContinue (mkRelay external (rs_file s) (rs_addr_written s))
  | RelayIdentifyReceived observed => RelayContinue (mkRelay (rs_external s ++ [observed]) (rs_file s) (rs_addr_written s))
  | RelayOther => RelayContinue s
  | RelayStreamEnded => RelayPanic
  | RelayCtrlC => RelayStop s
  end.

Fixpoint relay_run (local_peer_id : PeerId) (es : list relay_event) (s : relay_state) : relay_step :=
  match es with
  | [] => RelayContinue s
  | e :: es' =>
      match relay_handle local_peer_id e s with
      | RelayContinue s' => relay_run local_peer_id es' s'
      | r => r
      end
  end.

(** * Lemmas *)

(** The resolved addresses the relay has listened on. *)
Definition listened (es : list relay_event) : list Multiaddr :=
  omap (fun e => match e with
                 | RelayNewListenAddr a l _ => Some (relay_resolve (relay_hostname_ip l) a)
                 | _ => None
                 end) es.

(** What the file should hold: the last address other hosts can reach, or the
    last one when there is none. *)
Definition published (l : list Multiaddr) : option Multiaddr :=
  match last (List.filter (fun a => negb (has_loopback a)) l) with
  | Some a => Some a
  | None => last l
  end.

Definition relay_inv (local_peer_id : PeerId) (l : list Multiaddr) (s : relay_state) : Prop :=
  rs_file s = full_addr local_peer_id <$> published l /\
  rs_addr_written s = existsb (fun a => negb (has_loopback a)) l /\
  l ⊆ rs_external s.

Lemma filter_nil_existsb {A} (f : A -> bool) l : existsb f l = false -> List.filter f l = [].
Proof. induction l as [|x l IH]; cbn; [done|]. by destruct (f x). Qed.

Lemma existsb_filter_last {A} (f : A -> bool) l : existsb f l = true -> is_Some (last (List.filter f l)).
Proof.
  intros (x & Hx & Hf)%existsb_exists. destruct (List.filter f l) as [|y r] eqn:E; [|apply last_is_Some; done].
  assert (Hin : In x (List.filter f l)) by (by apply filter_In). by rewrite E in Hin.
Qed.

Lemma published_snoc l a :
  published (l ++ [a]) =
  if existsb (fun a => negb (has_loopback a)) l && has_loopback a then published l else Some a.
Proof.
  unfold published. rewrite List.filter_app. cbn. destruct (has_loopback a); cbn [negb].
  - rewrite app_nil_r, andb_true_r. destruct (existsb _ l) eqn:E.
    + by destruct (existsb_filter_last _ _ E) as [x ->].
    + by rewrite (filter_nil_existsb _ _ E), last_snoc.
  - by rewrite andb_false_r, last_snoc.
Qed.

Lemma relay_handle_inv local e s s' l :
  relay_inv local l s -> relay_handle local e s = RelayContinue s' -> relay_inv local (l ++ listened [e]) s'.
Proof.
  intros (Hf & Hw & He). destruct e as [a la ok|o| | |]; cbn; try done.
  - set (r := relay_resolve _ a). assert (Hext : forall x, l ++ [r] ⊆ rs_external s ++ [r]) by set_solver.
    pose proof (published_snoc l r) as Hp.
    unfold relay_inv. rewrite existsb_app, Hp, <-Hw. cbn [existsb]. rewrite orb_false_r.
    destruct (rs_addr_written s), (has_loopback r); cbn; repeat case_match; intros [= <-]; cbn; split_and!; done || set_solver.
  - intros [= <-]. rewrite app_nil_r. split_and!; [done..|]. cbn. set_solver.
  - intros [= <-]. by rewrite app_nil_r.
Qed.

Lemma relay_run_inv local es : forall l s s',
  relay_inv local l s -> relay_run local es s = RelayContinue s' -> relay_inv local (l ++ listened es) s'.
Proof.
  induction es as [|e es IH]; intros l s s' Hinv; cbn [relay_run].
  - intros [= <-]. by rewrite app_nil_r.
  - destruct (relay_handle local e s) as [s1| |] eqn:E; [|done..]. intros Hrun.
    pose proof (IH _ _ _ (relay_handle_inv _ _ _ _ _ Hinv E) Hrun) as H. rewrite <-app_assoc in H.
    replace (listened (e :: es)) with (listened [e] ++ listened es); [done|]. by destruct e.
Qed.

(** Events after which the relay goes on serving. *)
Definition serving (e : relay_event) : bool :=
  match e with
  | RelayNewListenAddr _ _ write_ok => write_ok
  | RelayIdentifyReceived _ | RelayOther => true
  | RelayStreamEnded | RelayCtrlC => false
  end.

Lemma relay_run_continues local es s :
  Forall (fun e => serving e = true) es -> exists s', relay_run local es s = RelayContinue s'.
Proof.
  intros H. revert s. induction H as [|e es He H IH]; intros s; [by eexists|]. cbn [relay_run].
  destruct e as [a la ok|o| | |]; cbn in He; try done; cbn; [|apply IH..]. subst ok. destruct (negb _ || negb _); apply IH.
Qed.

(** C34: As long as files can be written and the swarm lives, the relay keeps
    serving, and the address file always names the last listen address that is
    not a loopback one, with 0.0.0.0 resolved and the relay's peer id appended;
    a loopback address is there only while no other is known.  Every listen
    address is registered as external, so reservations carry one. *)
Theorem relay_publishes_reachable_address local es :
  Forall (fun e => serving e = true) es ->
  exists s, relay_run local es relay_new = RelayContinue s /\
    rs_file s = full_addr local <$> published (listened es) /\ listened es ⊆ rs_external s.
Proof.
  intros Hes. destruct (relay_run_continues local es relay_new Hes) as [s Hs]. exists s. split; [done|].
  destruct (relay_run_inv local es [] relay_new s) as (Hf & _ & He); [|done|by split]. by split_and!.
Qed.

End Relay.

(** * Options *)

Inductive relay_opt := OptPort (v : str) | OptSeed (v : str) | OptFile (v : str).

Definition render_opt (o : relay_opt) : list str :=
  match o with
  | OptPort v => [lit "--port"; v]
  | OptSeed v => [lit "--secret-key-seed"; v]
  | OptFile v => [lit "--addr-file"; v]
  end.

Definition opt_port (o : relay_opt) : option Z := match o with OptPort v => parse_uint 65535 v | _ => None end.
Definition opt_seed (o : relay_opt) : option Z := match o with OptSeed v => parse_uint 255 v | _ => None end.
Definition opt_file (o : relay_opt) : option str := match o with OptFile v => Some v | _ => None end.

(** A port and a seed in the range of their types. *)
Definition opt_valid (o : relay_opt) : bool :=
  match o with
  | OptPort v => bool_decide (is_Some (parse_uint 65535 v))
  | OptSeed v => bool_decide (is_Some (parse_uint 255 v))
  | OptFile _ => true
  end.

Lemma last_cons_union {A} (x : A) l (o : option A) : last (x :: l) ∪ o = last l ∪ Some x.
Proof. rewrite last_cons. by destruct (last l), o. Qed.

Lemma parse_loop_opts opts port seed file :
  parse_loop (concat (map render_opt opts)) port seed file =
  if forallb opt_valid opts
  then args_done (default port (last (omap opt_port opts))) (last (omap opt_seed opts) ∪ seed)
         (last (omap opt_file opts) ∪ file)
  else ArgsPanic.
Proof.
  revert port seed file. induction opts as [|o opts IH]; intros port seed file; [by destruct seed, file|].
  destruct o as [v|v|v]; cbn [map concat render_opt app forallb opt_valid].
  - change (parse_loop (lit "--port" :: v :: concat (map render_opt opts)) port seed file) with
      (match parse_uint 65535 v with None => ArgsPanic | Some p => parse_loop (concat (map render_opt opts)) p seed file end).
    cbn. destruct (parse_uint 65535 v) as [p|] eqn:E; [|done]. rewrite IH. cbn. by rewrite last_cons; destruct (last _).
  - change (parse_loop (lit "--secret-key-seed" :: v :: concat (map render_opt opts)) port seed file) with
      (match parse_uint 255 v with None => ArgsPanic | Some s => parse_loop (concat (map render_opt opts)) port (Some s) file end).
    cbn. destruct (parse_uint 255 v) as [p|] eqn:E; [|done]. rewrite IH. cbn. by rewrite last_cons_union.
  - change (parse_loop (lit "--addr-file" :: v :: concat (map render_opt opts)) port seed file) with
      (parse_loop (concat (map render_opt opts)) port seed (Some v)).
    rewrite IH. cbn. by rewrite last_cons_union.
Qed.

(** The command line as a list of options in any order: it is accepted when
    every port and seed is in the range of its type (otherwise the program
    panics), the last occurrence of an option wins, the port defaults to 0, and
    without a seed or a file the program exits with status 1. *)
Theorem relay_args_last_option_wins program opts :
  parse_args (program :: concat (map render_opt opts)) =
  if forallb opt_valid opts then
    match last (omap opt_seed opts), last (omap opt_file opts) with
    | Some seed, Some file => ArgsOk (default 0 (last (omap opt_port opts))) seed file
    | _, _ => ArgsExit 1
    end
  else ArgsPanic.
Proof.
  unfold parse_args. cbn [tail]. rewrite parse_loop_opts. case_match; [|done].
  by destruct (last (omap opt_seed opts)), (last (omap opt_file opts)).
Qed.

(** * The program *)

Section Main.
Context {LP : Libp2p}.
(** libp2p's identities. *)
Context {Keypair : Type} (ed25519_from_bytes : list byte -> option Keypair) (to_peer_id : Keypair -> PeerId).

(** The key of a seed: the first of 32 bytes; [None] is the [expect]. *)
Definition generate_ed25519 (seed : Z) : option Keypair := ed25519_from_bytes (byte_of_Z seed :: replicate 31 x00).

Definition relay_listen_addr (port : Z) : Multiaddr :=
  ma_push (ma_push ma_empty (Ip4 Ipv4_UNSPECIFIED)) (Tcp port).

(** The builder chain of the relay. *)
Inductive relay_behaviour := RbRelay | RbPing | RbIdentify (protocol_version : str).
Inductive relay_builder_call := RbWithTcp | RbWithBehaviour (bs : list relay_behaviour).
Definition relay_builder : list relay_builder_call :=
  [RbWithTcp; RbWithBehaviour [RbRelay; RbPing; RbIdentify (lit "/mercury-relay-test/0.1.0")]].

Record relay_env := mkRelayEnv {
  re_args : list str;
  re_builder_ok : relay_builder_call -> bool;
  re_listen_ok : Multiaddr -> bool;
  re_events : list relay_event;
}.

(** How the program ends, or that it is still serving. *)
Inductive relay_exit :=
| ProcessExit (code : Z)          (** [std::process::exit] *)
| MainError                       (** [main] returned an error *)
| MainPanic
| MainOk (s : relay_state)        (** stopped by Ctrl-C *)
| Serving (s : relay_state).

Definition relay_main (env : relay_env) : relay_exit :=
  match parse_args (re_args env) with
  | ArgsExit code => ProcessExit code
  | ArgsPanic => MainPanic
  | ArgsOk port seed addr_file =>
      match generate_ed25519 seed with
      | None => MainPanic
      | Some local_key =>
          if negb (forallb (re_builder_ok env) relay_builder) then MainError
          else if negb (re_listen_ok env (relay_listen_addr port)) then MainError
          else
            match relay_run (to_peer_id local_key) (re_events env) relay_new with
            | RelayContinue s => Serving s
            | RelayStop s => MainOk s
            | RelayPanic => MainPanic
            end
      end
  end.

Lemma extract_peer_push {LPL : Libp2pLaws} ma p : extract_peer_id_from_multiaddr (ma_push ma (P2p p)) = Some p.
Proof. unfold extract_peer_id_from_multiaddr. rewrite ma_iter_push, omap_app. cbn. by rewrite last_snoc. Qed.

Lemma take_while_all {A} (f : A -> bool) l x :
  (forall y, y ∈ l -> f y = true) -> f x = false -> take_while f (l ++ [x]) = l.
Proof.
  intros Hl Hx. induction l as [|y l IH]; cbn; [by rewrite Hx|].
  rewrite Hl by (by apply elem_of_cons; left). f_equal. apply IH. intros z Hz. apply Hl, elem_of_cons. by right.
Qed.

Lemma relay_resolve_no_p2p {LPL : Libp2pLaws} host ma :
  ma_any is_p2p ma = false -> ma_any is_p2p (relay_resolve host ma) = false.
Proof.
  unfold ma_any, relay_resolve. rewrite ma_iter_collect. induction (ma_iter ma) as [|p l IH]; cbn; [done|].
  intros [Hp Hl]%orb_false_elim. rewrite (IH Hl), orb_false_r. destruct p; cbn in *; try done. by case_match.
Qed.

Lemma published_listened l a : published l = Some a -> a ∈ l.
Proof.
  unfold published. destruct (last (List.filter _ l)) as [x|] eqn:E.
  - intros [= ->]. apply last_Some in E as [k Hk]. assert (Hin : In a (List.filter (fun a => negb (has_loopback a)) l)).
    { rewrite Hk. apply in_or_app. right. by left. }
    apply filter_In in Hin as [Hin _]. by apply list_elem_of_In.
  - intros [k ->]%last_Some. set_solver.
Qed.

(** C36: The relay's address file is what the plugin needs: with valid options
    and as long as the relay serves, the text in the file parses as a
    multiaddress from which the plugin recovers the relay's peer id, which is
    that of the key the seed determines, and, without it, an address the relay
    listens on, with 0.0.0.0 resolved, which the plugin dials. *)
Theorem relay_address_usable {LPL : Libp2pLaws} env port seed file key :
  parse_args (re_args env) = ArgsOk port seed file -> generate_ed25519 seed = Some key ->
  forallb (re_builder_ok env) relay_builder = true -> re_listen_ok env (relay_listen_addr port) = true ->
  Forall (fun e => serving e = true) (re_events env) ->
  (forall a l ok, RelayNewListenAddr a l ok ∈ re_events env -> ma_any is_p2p a = false) ->
  exists s, relay_main env = Serving s /\
    forall text, rs_file s = Some text -> exists relay_ma,
      ma_from_str text = Some relay_ma /\ extract_peer_id_from_multiaddr relay_ma = Some (to_peer_id key) /\
      exists a, a ∈ listened (re_events env) /\ ma_iter (relay_transport_ma relay_ma) = ma_iter a.
Proof.
  intros Ha Hk Hb Hl Hes Hp2p. unfold relay_main. rewrite Ha, Hk, Hb, Hl. cbn [negb].
  destruct (relay_run_continues (to_peer_id key) _ relay_new Hes) as [s Hs]. rewrite Hs. exists s. split; [done|].
  destruct (relay_run_inv (to_peer_id key) (re_events env) [] relay_new s) as (Hf & _ & _); [by split_and!|done|].
  cbn in Hf. intros text Ht. rewrite Hf in Ht. destruct (published (listened (re_events env))) as [a|] eqn:E; [|done].
  injection Ht as <-. apply published_listened in E. exists (ma_push a (P2p (to_peer_id key))).
  split_and!; [apply ma_str_p2p|apply extract_peer_push|]. exists a. split; [done|].
  unfold relay_transport_ma. rewrite ma_iter_collect, ma_iter_push. apply take_while_all; [|done].
  apply list_elem_of_omap in E as (e & He & Hlist). destruct e as [a0 l0 ok| | | |]; try done. injection Hlist as <-.
  pose proof (relay_resolve_no_p2p (relay_hostname_ip l0) a0 (Hp2p _ _ _ He)) as Hn. intros y Hy.
  destruct (is_p2p y) eqn:Ey; [|done]. unfold ma_any in Hn. rewrite <-not_true_iff_false in Hn. destruct Hn.
  apply existsb_exists. exists y. split; [by apply list_elem_of_In|done].
Qed.

End Main.

Module RelayDemo.
Import Demo.

Definition any4001 : multiaddr := [Ip4 Ipv4_UNSPECIFIED; Tcp 4001].
Definition lo4001 : multiaddr := [Ip4 Ipv4_LOCALHOST; Tcp 4001].
Definition host : option IpAddr := Some (V4 (Ipv4 x0a x00 x00 x05)).

(** A reachable address between two loopback ones is the one published. *)
Definition served : list (relay_event (LP := libp2p)) :=
  [RelayNewListenAddr (LP := libp2p) lo4001 host true; RelayNewListenAddr (LP := libp2p) any4001 host true; RelayOther;
   RelayNewListenAddr (LP := libp2p) lo4001 host true].

Lemma relay_publishes_reachable_address_witness :
  exists s, relay_run (LP := libp2p) x07 served relay_new = RelayContinue s /\
    rs_file s = Some (full_addr (LP := libp2p) x07 [Ip4 (Ipv4 x0a x00 x00 x05); Tcp 4001]).
Proof.
  destruct (relay_publishes_reachable_address (LP := libp2p) x07 served) as (s & Hs & Hf & _).
  - repeat constructor.
  - exists s. split; [exact Hs | exact Hf].
Defined.

(** A key is its seed byte. *)
Definition key_of (bytes : list byte) : option byte := if decide (length bytes = 32%nat) then head bytes else None.
Definition relay_args : list str := map lit ["relay"; "--secret-key-seed"; "7"; "--addr-file"; "a"]%string.
Definition relay_at_7 : relay_env (LP := libp2p) :=
  mkRelayEnv (LP := libp2p) relay_args (fun _ => true) (fun _ => true) served.

Lemma relay_address_usable_witness :
  exists s, relay_main (LP := libp2p) key_of id relay_at_7 = Serving s /\
    forall text, rs_file s = Some text -> exists relay_ma,
      ma_from_str (Libp2p := libp2p) text = Some relay_ma /\ extract_peer_id_from_multiaddr (LP := libp2p) relay_ma = Some x07 /\
      exists a, a ∈ listened (LP := libp2p) served /\ ma_iter (Libp2p := libp2p) (relay_transport_ma (LP := libp2p) relay_ma) = ma_iter (Libp2p := libp2p) a.
Proof.
  refine (relay_address_usable (LP := libp2p) key_of id relay_at_7 0 7 (lit "a") x07 _ _ _ _ _ _);
    [vm_compute; reflexivity|vm_compute; reflexivity|vm_compute; reflexivity|reflexivity| |].
  - repeat constructor.
  - intros a l ok H. cbn in H. set_unfold. naive_solver.
Defined.

Example relay_args_evaluate :
  parse_args (map lit ["relay"; "--port"; "4001"; "--secret-key-seed"; "1"; "--addr-file"; "a"; "--port"; "+80"]%string)
  = ArgsOk 80 1 (lit "a") /\
  parse_args (map lit ["relay"; "--secret-key-seed"; "256"]%string) = ArgsPanic /\
  parse_args (map lit ["relay"; "--port"; "1"; "-h"]%string) = ArgsExit 0.
Proof. by vm_compute. Qed.

End RelayDemo.
