(* ===== verification/Build.v ===== *)
(** The build script, src/build.rs: where it takes Mercury's directories from,
    what it prints for cargo and what it asks of bindgen.  pkg-config, bindgen
    and the file system are outside; their answers are inputs. *)
From Stdlib Require Import ZArith Lia.
From S2P Require Import Prelude.
From S2P Require Import RustStr.

(** * Inputs and outputs *)

(** What [pkg_config::Config::new().probe("na")] returns, paths as text. *)
Record pkg_library := mkPkgLibrary { pl_include_paths : list str; pl_link_paths : list str }.

(** The calls on the bindgen builder. *)
Record bindgen_request := mkBindgen {
  bg_header : str;
  bg_clang_args : list str;
  bg_types : list str;
  bg_functions : list str;
  bg_derive_default : bool;
  bg_derive_debug : bool;
  bg_use_core : bool;
}.

Record build_env := mkBuildEnv {
  be_include_dir : option str;                      (** MERCURY_INCLUDE_DIR *)
  be_lib_dir : option str;                          (** MERCURY_LIB_DIR *)
  be_probe : option pkg_library;
  be_out_dir : option str;                          (** OUT_DIR *)
  be_generate : bindgen_request -> option str;      (** the text of the bindings *)
  be_write_ok : str -> bool;                        (** the file could be written *)
}.

(** The lines printed for cargo, and the file written; [None] is a panic. *)
Record build_result := mkBuildResult { br_stdout : list str; br_file : option (str * str) }.

(** * The script *)

(** The [match] on the two variables; [None] is one of its [expect]s. *)
Definition mercury_dirs (env : build_env) : option (list str * str) :=
  match be_include_dir env, be_lib_dir env with
  | Some inc, Some lib => Some (split_on x3a inc, lib)
  | _, _ =>
      match be_probe env with
      | None => None
      | Some lib =>
          match pl_link_paths lib with
          | [] => None
          | libdir :: _ => Some (pl_include_paths lib, libdir)
          end
      end
  end.

Definition cargo_lines (lib_dir : str) : list str :=
  [ lit "cargo:rerun-if-env-changed=MERCURY_INCLUDE_DIR";
    lit "cargo:rerun-if-env-changed=MERCURY_LIB_DIR";
    lit "cargo:rerun-if-env-changed=PKG_CONFIG_PATH";
    lit "cargo:rerun-if-changed=wrapper.h";
    lit "cargo:rustc-link-search=native=" ++ lib_dir;
    lit "cargo:rustc-link-lib=dylib=na" ].

Definition allowlist_types : list str := map lit
  ["na_class_ops"; "na_class"; "na_context"; "na_addr"; "na_op_id"; "na_mem_handle"; "na_segment"; "na_info";
   "na_init_info"; "na_protocol_info"; "na_cb_info"; "na_cb_completion_data"; "na_return"; "na_return_t";
   "na_cb_type"; "na_cb_type_t"; "na_tag_t"; "na_offset_t"; "na_cb_t"; "na_mem_type"; "na_plugin_cb_t"]%string.
Definition allowlist_functions : list str := map lit
  ["na_cb_completion_add"; "na_protocol_info_alloc"; "na_protocol_info_free"]%string.

(** [for dir in &include_dirs { builder.clang_arg(format!("-I{dir}")) }] *)
Definition bindgen_builder (include_dirs : list str) : bindgen_request :=
  mkBindgen (lit "wrapper.h") (map (fun dir => lit "-I" ++ dir) include_dirs) allowlist_types allowlist_functions
    true true true.

(** [PathBuf::from(dir).join(name)] for a relative [name]. *)
Definition path_join (dir name : str) : str :=
  match last dir with
  | None => name
  | Some b => if bool_decide (b = x2f) then dir ++ name else dir ++ [x2f] ++ name
  end.

Definition build_main (env : build_env) : build_result :=
  match mercury_dirs env with
  | None => mkBuildResult [] None
  | Some (include_dirs, lib_dir) =>
      let out := cargo_lines lib_dir in
      match be_generate env (bindgen_builder include_dirs) with
      | None => mkBuildResult out None
      | Some bindings =>
          match be_out_dir env with
          | None => mkBuildResult out None
          | Some dir =>
              let file := path_join dir (lit "bindings.rs") in
              if be_write_ok env file then mkBuildResult out (Some (file, bindings)) else mkBuildResult out None
          end
      end
  end.

(** * Lemmas *)

(** The inverse of [split_on]. *)
Fixpoint join_on (c : byte) (parts : list str) : str :=
  match parts with
  | [] => []
  | [p] => p
  | p :: rest => p ++ c :: join_on c rest
  end.

Lemma split_on_nonempty c l : split_on c l <> [].
Proof. destruct l as [|b l]; cbn; [done|]. repeat case_match; done. Qed.

Lemma join_split_on c l : join_on c (split_on c l) = l.
Proof.
  induction l as [|b l IH]; cbn; [done|]. pose proof (split_on_nonempty c l) as Hne. case_bool_decide as Hb.
  - subst b. cbn. destruct (split_on c l); [done|]. by rewrite IH.
  - destruct (split_on c l) as [|p rest]; [done|]. cbn in *. destruct rest; cbn in *; by rewrite <-IH.
Qed.

Lemma split_on_free c l p : p ∈ split_on c l -> c ∉ p.
Proof.
  revert p. induction l as [|b l IH]; intros p; cbn.
  - intros ->%list_elem_of_singleton. apply not_elem_of_nil.
  - case_bool_decide as Hb.
    + intros [->|Hp]%elem_of_cons; [apply not_elem_of_nil|by apply IH].
    + destruct (split_on c l) as [|q rest] eqn:E; [by apply split_on_nonempty in E|].
      intros [->|Hp]%elem_of_cons; [|by apply IH, elem_of_cons; right].
      rewrite not_elem_of_cons. split; [done|]. by apply IH, elem_of_cons; left.
Qed.

Lemma fallback_none o :
  match o with
  | None => None
  | Some lib => match pl_link_paths lib with [] => None | d :: _ => Some (pl_include_paths lib, d) end
  end = None <-> forall lib, o = Some lib -> pl_link_paths lib = [].
Proof.
  destruct o as [[incs [|d ds]]|]; cbn; split; try done; [by intros _ lib [= <-]|]. intros H. by specialize (H _ eq_refl).
Qed.

(** * Theorems *)

(** C37: The build script writes the bindings exactly when Mercury was found
    (both variables set, or pkg-config with at least one link path), bindgen
    succeeded, OUT_DIR is set and the file could be written.  The variables win
    over pkg-config; MERCURY_INCLUDE_DIR gives one include flag per component,
    in order and with none lost: the components joined by colons are the
    variable; and cargo is told to link against the library directory found. *)
Theorem build_script_outcome env :
  let r := build_main env in
  (forall inc lib, be_include_dir env = Some inc -> be_lib_dir env = Some lib ->
     exists dirs, mercury_dirs env = Some (dirs, lib) /\ join_on x3a dirs = inc /\ forall d, d ∈ dirs -> x3a ∉ d) /\
  (is_Some (br_file r) <->
     exists dirs lib text dir, mercury_dirs env = Some (dirs, lib) /\
       be_generate env (bindgen_builder dirs) = Some text /\ be_out_dir env = Some dir /\
       be_write_ok env (path_join dir (lit "bindings.rs")) = true) /\
  (mercury_dirs env = None <->
     (be_include_dir env = None \/ be_lib_dir env = None) /\ forall lib, be_probe env = Some lib -> pl_link_paths lib = []) /\
  forall dirs lib, mercury_dirs env = Some (dirs, lib) ->
    lit "cargo:rustc-link-search=native=" ++ lib ∈ br_stdout r.
Proof.
  intros r. split_and!.
  - intros inc lib Hi Hl. exists (split_on x3a inc). unfold mercury_dirs. rewrite Hi, Hl.
    split_and!; [done|apply join_split_on|by apply split_on_free].
  - unfold r, build_main. destruct (mercury_dirs env) as [[dirs lib]|];
      [|split; [by intros [? ?]|by intros (? & ? & ? & ? & ? & _)]].
    split.
    + repeat case_match; cbn; try by intros [? ?]. intros _. by do 4 eexists.
    + intros (dirs' & lib' & text & dir & [= <- <-] & -> & -> & ->). by eexists.
  - unfold mercury_dirs. destruct (be_include_dir env), (be_lib_dir env);
      [split; [done|by intros [[|] _]]|rewrite fallback_none; tauto..].
  - intros dirs lib Hd. unfold r, build_main. rewrite Hd.
    assert (Hin : lit "cargo:rustc-link-search=native=" ++ lib ∈ cargo_lines lib) by (unfold cargo_lines; set_solver).
    repeat case_match; exact Hin.
Qed.

Module BuildDemo.

Definition env : build_env :=
  mkBuildEnv (Some (lit "/opt/include:/opt/na")) (Some (lit "/opt/lib")) None (Some (lit "/out"))
    (fun _ => Some (lit "pub type na_tag_t = u32;")) (fun _ => true).

Lemma build_script_outcome_witness :
  br_file (build_main env) = Some (lit "/out/bindings.rs", lit "pub type na_tag_t = u32;") /\
  exists dirs, mercury_dirs env = Some (dirs, lit "/opt/lib") /\ join_on x3a dirs = lit "/opt/include:/opt/na" /\
    forall d, d ∈ dirs -> x3a ∉ d.
Proof.
  split; [vm_compute; reflexivity|].
  exact (proj1 (build_script_outcome env) (lit "/opt/include:/opt/na") (lit "/opt/lib") eq_refl eq_refl).
Defined.

End BuildDemo.
